(* ===== verification/_CoqProject ===== *)
-Q . S2P
Prelude.v
LibList.v
CBuffer.v
Bits.v
LibText.v
LibPrintf.v
Rb.v
RbShape.v
RbBalance.v
RbOps.v
Zone.v
Page.v
PageOps.v
Pmap.v
PageMap.v
Names.v
Threads.v
ThreadsInv.v
ThreadsOps.v
ThreadsOwn.v
ThreadsProg.v
Locks.v
Resources.v
