(* ===== verification/Prelude.v ===== *)
(** * Phoenix-RTOS kernel: a verification library

    ** The program

    The kernel is layered: a hardware abstraction layer (hal/), a library of
    data structures and text routines (lib/), memory management (vm/), threads,
    processes and message passing (proc/), the POSIX personality (posix/) and the
    system-call table (syscalls.c).  The library routines are used everywhere: the
    rings of lib/list.c link the free pages of vm/page.c, the zones of
    vm/kmalloc.c and all queues of threads; the red-black tree of lib/rb.c keeps
    the sleeping threads, the thread, process, port and resource identifiers and
    the memory map; vm/page.c hands out physical pages, from which vm/zone.c
    carves blocks for vm/kmalloc.c; proc/threads.c schedules, and offers the wait
    queues and sleeping locks on which every other part synchronises; proc/name.c
    finds the server of a path.

    ** Files and what they model

    - [Prelude]: outcomes of C code ([res]: a value, a [Fault], out of fuel),
      pointers, fixed-width integers, error numbers (include/errno.h), bit scans,
      memory copies, shared tactics and hints.
    - [LibList] (lib/list.c): [lib_listAdd], [lib_listRemove] on a heap of link
      fields; [list_program_refines]: every sequence of them implements append and
      delete on the sequence of members.
    - [CBuffer] (lib/cbuffer.c, cbuffer.h): the circular byte buffer;
      [cbuffer_stream]: reads return the bytes written, in order;
      [cbuffer_discard_full]: the bound of [_cbuffer_discard] is the free space.
    - [Bits] (hal/riscv64/cpu.h, string.h): the branching bit scans and the C
      string loops, against their mathematical meaning.
    - [LibText] (lib/bsearch.c, strtoul.c, rand.c) and [LibPrintf] (lib/printf.c):
      binary search, number parsing, and both formatting engines; the text of a
      number, round trips with the parser, agreement of [lib_vsprintf] and
      [lib_printf] (up to the NUL characters a console does not show), and exactly
      when [lib_printf]'s 24-byte buffer or the [int] arithmetic of the padding
      overflows.
    - [Rb] (lib/rb.c): rotations, both rebalancings, insertion, removal, searches
      and iteration on a heap of nodes with parent pointers, the augment callback
      included; [RbShape] relates the heap to a tree, [RbBalance] proves the
      rebalancings, [RbOps] the operations: red-black shape, order, logarithmic
      search, in-order iteration, and the refinement of any program of operations
      to a sorted list.
    - [Zone] (vm/zone.c): the block allocator on a memory of bytes, against the
      interface of the page and map layers ([VmOps], [VmLaws]); with blocks large
      enough for a link it refines a stack of free blocks.
    - [Page] and [PageOps] (vm/page.c): the buddy allocator on the page array;
      blocks handed out were free and are aligned, disjoint and of the size asked
      for, with the exact change of the flags; freeing merges exactly as
      [coalesce] says, which is less than it could ([page_free_incomplete]);
      boot-time initialisation ([boot]) of arrays with contiguous free runs
      establishes the invariant; lookup by address.
    - [Pmap] (hal/armv7a/zynq7000/pmap.c): page tables in physical frames and the
      hardware's walk; sequences of calls implement isolated address spaces.
    - [PageMap] (vm/page.c): [_page_map] over [PageOps] and [Pmap]; it returns
      after at most two attempts.
    - [Names] (proc/name.c): the name cache and path resolution, with message
      passing as a parameter ([proc_send]); registration, unregistration,
      longest registered prefix, termination of the queries; registration is a
      machine of steps between the releases of the lock, on which the race between
      check and link is proved; the wrapped copy after an over-long answer.
    - [Threads] (proc/threads.c): the scheduler's data and operations;
      [ThreadsInv] the invariant and the primitive transitions, [ThreadsOps] the
      operations, [ThreadsOwn] references and the lists of ended threads,
      [ThreadsProg] the machine of all operations in any interleaving, with the
      theorems: no fault and one place per thread, no lost wakeup, exact timer,
      broadcast in order, priority selection, round robin.
    - [Locks] (proc/threads.c, locks): [proc_lockSet] and its relatives as a step
      relation labelled with the thread that steps, with signals and threads told
      to exit; the class [WaitQueue] is what the thread manager promises to the
      locks and is discharged by [Threads]; mutual exclusion, hand-off within two
      steps of the woken thread, and how a ghost loses it.
    - [Resources] (proc/resource.c, mutex.c, cond.c, userintr.c): handles,
      reference counting when the pieces of creation, use and destruction
      interleave, the leak of an object destroyed while it is created, and the
      missing type check.

    ** Choices

    Integers have the widths of the 32-bit targets (ILP32: [unsigned], [size_t]
    and addresses 32 bits, [time_t] 64 bits); wrap-around is written with [wrap].
    Critical sections of a lock are atomic steps; where code releases a lock in
    the middle (registration of names, the waits, the locks, gets and puts,
    creation and destruction of resources) the steps are separate and interleave.  Components that use
    another's data structure use the abstract operation its theorem refines to
    ([list_add], [list_del], [ins]) and not a fresh definition.

    Fuel: every loop that is not structural carries fuel, and every theorem about
    it proves [Ok], so the fuel is enough: the node count plus a constant for
    tree walks ([path_fuel]), the number of size classes for page splitting and
    merging, the number of threads for [proc_threadBroadcast], the queue lengths
    for [select_loop] and [timeintr_loop], 65 for the digits of a 64-bit number,
    2 for the attempts of [_page_map] (the second has a page for the table), 513
    for the groups of a page directory.

    ** Not modelled

    Boards, drivers and context switch code of hal/, which touch registers, and
    the page tables of the other targets; of the modelled ones the address-space
    identifiers; spinlock and interrupt masking (a critical section is a step);
    processes and program loading (proc/process.c, elf.h), messages and ports
    (proc/msg.c, ports.c), vm/map.c, amap.c, object.c, kmalloc.c, the POSIX layer,
    syscalls.c, the performance monitor of proc/threads.c, the gap-searching
    identifier allocators ([_thread_alloc], [_resource_alloc] and their copies; the
    identifier they return is an argument), and the debug dumps.

    ** Plan

    Next: the identifier allocators with their augmented trees, on [Rb]; the
    kernel allocator vm/kmalloc.c on [Zone] and [Rb]; ports and messages; the
    anonymous maps and objects (vm/amap.c, object.c) and vm/map.c; descriptors and
    unix sockets of posix/. *)

From Stdlib Require Import ZArith Lia.
From stdpp Require Export base numbers list gmap.

#[export] Set Default Goal Selector "!".

Declare Scope phx_scope.
Delimit Scope phx_scope with phx.
Open Scope Z_scope.
#[export] Set Warnings "-clear-no-such-hyp".
Coercion Z.of_nat : nat >-> Z.

(** ** Outcomes of C code

    [Fault] is undefined behaviour (an access through NULL or outside an
    object); [NoFuel] says that a loop did not finish within its fuel.  Every
    correctness theorem proves that the outcome is [Ok]. *)
Inductive res (A : Type) : Type :=
| Ok (a : A)
| Fault
| NoFuel.
Arguments Ok {A} a.
Arguments Fault {A}.
Arguments NoFuel {A}.

Definition rbind {A B} (c : res A) (k : A -> res B) : res B :=
  match c with
  | Ok a => k a
  | Fault => Fault
  | NoFuel => NoFuel
  end.

Notation "'let?' x ':=' c 'in' k" := (rbind c (fun x => k))
  (at level 10, x pattern, c at level 100, k at level 200,
   format "'[v' 'let?'  x  ':='  c  'in' '/' k ']'") : phx_scope.
Open Scope phx_scope.

(** Dereference: a missing object is a fault. *)
Definition deref {A} (o : option A) : res A :=
  match o with
  | Some a => Ok a
  | None => Fault
  end.

(** The lemmas that automate the common cases: [auto with phx]. *)
Create HintDb phx.

Lemma rbind_Ok {A B} (a : A) (k : A -> res B) : rbind (Ok a) k = k a.
Proof. reflexivity. Qed.

Lemma rbind_inv {A B} (c : res A) (k : A -> res B) b :
  rbind c k = Ok b -> exists a, c = Ok a /\ k a = Ok b.
Proof. destruct c; simpl; intros; simplify_eq; eauto. Qed.

Lemma deref_inv {A} (o : option A) a : deref o = Ok a -> o = Some a.
Proof. destruct o; simpl; congruence. Qed.

(** [res_inv] splits hypotheses that say that a compound program returned. *)
Ltac res_inv :=
  repeat match goal with
  | H : rbind _ _ = Ok _ |- _ => apply rbind_inv in H as (? & ? & H)
  | H : deref _ = Ok _ |- _ => apply deref_inv in H
  | H : Ok _ = Ok _ |- _ => injection H as H; subst
  | H : Fault = Ok _ |- _ => discriminate H
  | H : NoFuel = Ok _ |- _ => discriminate H
  end.

(** ** Pointers to heap objects

    NULL is [None]. *)
Abbreviation loc := positive.
Abbreviation ptr := (option positive).
Abbreviation NULL := (@None positive).

(** ** Error numbers (include/errno.h) *)
Definition EOK : Z := 0.
Definition ENOENT : Z := 2.
Definition EINTR : Z := 4.
Definition EIO : Z := 5.
Definition EBADF : Z := 9.
Definition EAGAIN : Z := 11.
Definition ENOMEM : Z := 12.
Definition EFAULT : Z := 14.
Definition EBUSY : Z := 16.
Definition EEXIST : Z := 17.
Definition EINVAL : Z := 22.
Definition ENFILE : Z := 23.
Definition EMFILE : Z := 24.
Definition ENOSYS : Z := 35.
Definition ETIME : Z := 37.

(** ** Fixed-width integers

    The 32-bit targets (ARMv7, IA-32): [unsigned], [size_t] and [addr_t] have
    32 bits. *)
Definition wrap (w z : Z) : Z := z mod 2 ^ w.
Definition u8 (z : Z) : Z := wrap 8 z.
Definition u32 (z : Z) : Z := wrap 32 z.
Definition u64 (z : Z) : Z := wrap 64 z.
Definition swrap (w z : Z) : Z := (z + 2 ^ (w - 1)) mod 2 ^ w - 2 ^ (w - 1).
Definition s32 (z : Z) : Z := swrap 32 z.

Lemma wrap_small w z : 0 <= z < 2 ^ w -> wrap w z = z.
Proof. intros. apply Z.mod_small; lia. Qed.

Lemma wrap_range w z : 0 <= w -> 0 <= wrap w z < 2 ^ w.
Proof. intros. apply Z.mod_pos_bound; lia. Qed.

Lemma u32_small z : 0 <= z < 2 ^ 32 -> u32 z = z.
Proof. apply wrap_small. Qed.

Lemma u32_range z : 0 <= u32 z < 2 ^ 32.
Proof. apply wrap_range; lia. Qed.

Lemma s32_small z : - 2 ^ 31 <= z < 2 ^ 31 -> s32 z = z.
Proof. intros. unfold s32, swrap. rewrite Z.mod_small; lia. Qed.

(** ** Bit scans (hal cpu.h) *)

(** Position of the most significant set bit. *)
Definition lastbit (v : Z) : Z := Z.log2 v.

Fixpoint pos_ctz (p : positive) : Z :=
  match p with
  | xO q => 1 + pos_ctz q
  | _ => 0
  end.

(** Position of the least significant set bit. *)
Definition firstbit (v : Z) : Z :=
  match v with
  | Zpos p => pos_ctz p
  | _ => 0
  end.

(** ** Memory blocks

    [memcpy dst off src n] copies [n] cells of [src] to offset [off] of [dst];
    an access outside either object is a fault. *)
Definition memcpy {A} (dst : list A) (off : Z) (src : list A) (n : Z) : res (list A) :=
  if decide (0 <= off /\ 0 <= n /\ off + n <= length dst /\ n <= length src) then
    Ok (take (Z.to_nat off) dst ++ take (Z.to_nat n) src ++ drop (Z.to_nat (off + n)) dst)
  else Fault.

Lemma memcpy_spec {A} (dst : list A) off src n :
  0 <= off -> 0 <= n -> off + n <= length dst -> n <= length src ->
  exists dst', memcpy dst off src n = Ok dst' /\ length dst' = length dst /\
    forall i : nat, dst' !! i =
      if decide (off <= i < off + n) then src !! (i - Z.to_nat off)%nat else dst !! i.
Proof.
  intros. unfold memcpy. rewrite decide_True by lia. eexists. split; [done|].
  assert (length (take (Z.to_nat off) dst) = Z.to_nat off) as Ht by (rewrite length_take; lia).
  assert (length (take (Z.to_nat n) src) = Z.to_nat n) as Hs by (rewrite length_take; lia).
  split.
  - rewrite !length_app, length_drop. lia.
  - intros i. destruct (decide (i < Z.to_nat off)%nat).
    { rewrite lookup_app_l by lia. rewrite decide_False by lia. by rewrite lookup_take_lt by lia. }
    rewrite lookup_app_r by lia. rewrite Ht. case_decide.
    + rewrite lookup_app_l by lia. by rewrite lookup_take_lt by lia.
    + rewrite lookup_app_r by lia. rewrite Hs, lookup_drop. f_equal. lia.
Qed.

(** Masking with a power of two is reduction modulo it. *)
Lemma land_pow2_mod x k : 0 <= k -> Z.land x (2 ^ k - 1) = x mod 2 ^ k.
Proof. intros. rewrite <- Z.land_ones by lia. f_equal. rewrite Z.ones_equiv. lia. Qed.

Lemma mod_once a n : 0 <= n -> n <= a < 2 * n -> a mod n = a - n.
Proof. intros. symmetry. apply (Z.mod_unique _ _ 1); lia. Qed.

Lemma mod_neg_once a n : - n <= a < 0 -> a mod n = a + n.
Proof. intros. symmetry. apply (Z.mod_unique _ _ (-1)); lia. Qed.

#[export] Hint Resolve wrap_range u32_range : phx.

(** [run_step] evaluates the head of a program whose first action returned. *)
Ltac run_step H := rewrite H; cbn [deref rbind].
