(* ===== verification/LibList.v ===== *)
(** * Doubly-linked lists (src/lib/list.c)

    The heap maps a node to its two link fields; [lib_listAdd] and
    [lib_listRemove] are translated assignment by assignment.  [dlist] relates a
    list head and the heap to the sequence of members, and the theorems show
    that the two routines append to and delete from that sequence, which is how
    the other components use LIST_ADD and LIST_REMOVE. *)

From S2P Require Import Prelude.

(** The two link fields of a list member. *)
Record lnode : Type := LNode { next : ptr; prev : ptr }.

Abbreviation lheap := (gmap loc lnode).

Definition get_next (h : lheap) (p : ptr) : res ptr :=
  let? l := deref p in let? n := deref (h !! l) in Ok (next n).

Definition get_prev (h : lheap) (p : ptr) : res ptr :=
  let? l := deref p in let? n := deref (h !! l) in Ok (prev n).

Definition set_next (h : lheap) (p v : ptr) : res lheap :=
  let? l := deref p in let? n := deref (h !! l) in
  Ok (<[l := LNode v (prev n)]> h).

Definition set_prev (h : lheap) (p v : ptr) : res lheap :=
  let? l := deref p in let? n := deref (h !! l) in
  Ok (<[l := LNode (next n) v]> h).

(** [lib_listAdd]: the first component of the result is the new [*list]. *)
Definition lib_listAdd (hd : ptr) (h : lheap) (t : ptr) : res (ptr * lheap) :=
  if decide (t = NULL) then Ok (hd, h)
  else if decide (hd = NULL) then
    let? h := set_next h t t in
    let? h := set_prev h t t in
    Ok (t, h)
  else
    let? lp := get_prev h hd in
    let? h := set_prev h t lp in
    let? lp := get_prev h hd in
    let? h := set_next h lp t in
    let? h := set_next h t hd in
    let? h := set_prev h hd t in
    Ok (hd, h).

Definition lib_listRemove (hd : ptr) (h : lheap) (t : ptr) : res (ptr * lheap) :=
  if decide (t = NULL) then Ok (hd, h)
  else
    let? tn := get_next h t in
    let? tp := get_prev h t in
    let? r :=
      (if decide (tn = t /\ tp = t) then Ok (NULL, h)
       else
         let? tp := get_prev h t in
         let? tn := get_next h t in
         let? h := set_next h tp tn in
         let? tn := get_next h t in
         let? tp := get_prev h t in
         let? h := set_prev h tn tp in
         if decide (t = hd) then
           let? tn := get_next h t in Ok (tn, h)
         else Ok (hd, h)) in
    let '(hd, h) := r in
    let? h := set_next h t NULL in
    let? h := set_prev h t NULL in
    Ok (hd, h).

(** ** Abstraction: a circular list holds a sequence of members *)

Definition ring_next (xs : list loc) (i : nat) : ptr :=
  match xs !! S i with Some y => Some y | None => head xs end.

Definition ring_prev (xs : list loc) (i : nat) : ptr :=
  match i with O => last xs | S j => xs !! j end.

Definition dlist (hd : ptr) (h : lheap) (xs : list loc) : Prop :=
  hd = head xs /\ NoDup xs /\
  forall i x, xs !! i = Some x -> h !! x = Some (LNode (ring_next xs i) (ring_prev xs i)).

(** What the routines do to the sequence. *)
Definition list_add {A} (xs : list A) (x : A) : list A := xs ++ [x].

Fixpoint list_del {A} `{EqDecision A} (xs : list A) (x : A) : list A :=
  match xs with
  | [] => []
  | y :: ys => if decide (y = x) then ys else y :: list_del ys x
  end.

(** ** Lemmas *)

Lemma ring_next_in xs i x : xs !! i = Some x -> exists y, ring_next xs i = Some y /\ y ∈ xs.
Proof.
  intros Hi. unfold ring_next. destruct (xs !! S i) as [y|] eqn:E.
  - exists y. split; [done|]. by eapply list_elem_of_lookup_2.
  - destruct xs as [|z xs]; [done|]. exists z. split; [done|]. by left.
Qed.

Lemma ring_prev_in xs i x : xs !! i = Some x -> exists y, ring_prev xs i = Some y /\ y ∈ xs.
Proof.
  intros Hi. unfold ring_prev. destruct i as [|j].
  - destruct (last xs) as [y|] eqn:E.
    + exists y. split; [done|]. apply last_Some in E as [l ->]. set_solver.
    + apply last_None in E. by subst.
  - destruct (lookup_lt_is_Some_2 xs j) as [y Hy].
    { apply lookup_lt_Some in Hi. lia. }
    exists y. split; [done|]. by eapply list_elem_of_lookup_2.
Qed.

Lemma list_del_app {A} `{EqDecision A} (xs1 : list A) x xs2 :
  x ∉ xs1 -> list_del (xs1 ++ x :: xs2) x = xs1 ++ xs2.
Proof.
  induction xs1 as [|y ys IH]; intros Hn; simpl.
  - by rewrite decide_True.
  - rewrite decide_False by set_solver. rewrite IH by set_solver. done.
Qed.

Lemma last_lookup_pred (xs : list loc) : last xs = xs !! pred (length xs).
Proof. apply last_lookup. Qed.

(** The append case of [lib_listAdd], for a non-empty list. *)
Lemma dlist_snoc (h h' : lheap) xs x0 xl t :
  NoDup xs -> t ∉ xs -> head xs = Some x0 -> last xs = Some xl ->
  (forall i x, xs !! i = Some x -> h !! x = Some (LNode (ring_next xs i) (ring_prev xs i))) ->
  h' !! t = Some (LNode (Some x0) (Some xl)) ->
  (forall i x, xs !! i = Some x -> h' !! x = Some (LNode
     (if decide (x = xl) then Some t else ring_next xs i)
     (if decide (x = x0) then Some t else ring_prev xs i))) ->
  dlist (Some x0) h' (xs ++ [t]).
Proof.
  intros Hnd Ht H0 Hl Hh Hht Hx. repeat split.
  - by rewrite head_app, H0.
  - apply NoDup_app. split_and!; [done| |apply NoDup_singleton]. set_solver.
  - intros i x Hi. pose proof (lookup_lt_Some _ _ _ Hi) as Hlt.
    rewrite length_app in Hlt. simpl in Hlt.
    destruct (decide (i = length xs)) as [->|Hne].
    + rewrite lookup_app_r, Nat.sub_diag in Hi by lia. simplify_eq/=.
      rewrite Hht. f_equal. f_equal.
      * unfold ring_next. rewrite lookup_ge_None_2 by (rewrite length_app; simpl; lia).
        by rewrite head_app, H0.
      * unfold ring_prev. rewrite last_lookup in Hl.
        destruct (length xs) as [|n] eqn:En; [by destruct xs|].
        rewrite lookup_app_l by lia. by rewrite <- Hl.
    + rewrite lookup_app_l in Hi by lia.
      rewrite (Hx _ _ Hi). f_equal.
      assert (Hl' : x = xl <-> S i = length xs).
      { rewrite last_lookup in Hl. split.
        - intros ->. pose proof (NoDup_lookup _ _ _ _ Hnd Hi Hl). lia.
        - intros E. replace (pred (length xs)) with i in Hl by lia. congruence. }
      assert (H0' : x = x0 <-> i = 0%nat).
      { destruct xs as [|y ys]; [done|]. simplify_eq/=. split.
        - intros ->. eapply NoDup_lookup; [exact Hnd|done|done].
        - intros ->. by simplify_eq/=. }
      f_equal.
      * unfold ring_next. case_decide as E.
        -- rewrite lookup_app_r by lia. replace (S i - length xs)%nat with 0%nat by lia. done.
        -- rewrite lookup_app_l by lia. destruct (lookup_lt_is_Some_2 xs (S i)) as [y ->]; [lia|done].
      * unfold ring_prev. case_decide as E.
        -- assert (i = 0%nat) as -> by tauto. by rewrite last_snoc.
        -- destruct i as [|j]; [tauto|]. by rewrite lookup_app_l by lia.
Qed.

(** Running the assignments: rewrite every access whose node is known. *)
Ltac lheap_step :=
  unfold get_next, get_prev, set_next, set_prev; simpl;
  repeat (simplify_map_eq; simpl).

Lemma lib_listAdd_spec hd h xs t :
  dlist hd h xs -> t ∉ xs -> is_Some (h !! t) ->
  exists h', lib_listAdd hd h (Some t) = Ok (head (list_add xs t), h')
    /\ dlist (head (list_add xs t)) h' (list_add xs t)
    /\ forall l, l ∉ t :: xs -> h' !! l = h !! l.
Proof.
  intros (Hhd & Hnd & Hh) Ht [n Hn]. unfold lib_listAdd, list_add.
  rewrite decide_False by done. case_decide as E.
  - assert (xs = []) as -> by (destruct xs; simplify_eq/=; done).
    lheap_step. eexists. split; [done|]. repeat split.
    + apply NoDup_singleton.
    + intros [|i] x Hi; simplify_eq/=. by simplify_map_eq.
    + intros l Hl. rewrite !lookup_insert_ne by set_solver. done.
  - destruct (head xs) as [x0|] eqn:E0; [|by subst]. subst hd.
    destruct xs as [|y ys]; simplify_eq/=. set (xs := x0 :: ys) in *.
    assert (exists xl, last xs = Some xl) as [xl Hl].
    { destruct (last xs) eqn:El; [eauto|]. by apply last_None in El. }
    assert (Hx0 : h !! x0 = Some (LNode (ring_next xs 0) (Some xl))).
    { rewrite (Hh 0%nat x0); [|done]. unfold ring_prev. by rewrite Hl. }
    pose proof Hl as Hl'. rewrite last_lookup in Hl'.
    pose proof (Hh _ _ Hl') as Hxl.
    assert (t ≠ x0) by set_solver.
    assert (t ≠ xl) by (apply list_elem_of_lookup_2 in Hl'; set_solver).
    assert (Hxl' : xl ∈ xs) by by eapply list_elem_of_lookup_2.
    destruct (decide (x0 = xl)) as [->|Hne]; [clear Hxl|]; (eexists; split; [by lheap_step|split];
      [apply (dlist_snoc h _ xs _ xl t); try done; [by simplify_map_eq|]
      |intros l Hlt; rewrite !lookup_insert_ne by set_solver; done]).
    all: intros i x Hi; pose proof (list_elem_of_lookup_2 _ _ _ Hi).
    all: assert (t ≠ x) by set_solver; pose proof (Hh _ _ Hi) as Hx.
    all: repeat case_decide; simplify_map_eq; first [done|congruence].
Qed.

(** Deleting the member at position [length xs1]: the successors and
    predecessors of the other members. *)
Lemma ring_next_del xs1 x xs2 j y :
  NoDup (xs1 ++ x :: xs2) -> (xs1 ++ xs2) !! j = Some y ->
  ring_next (xs1 ++ xs2) j =
    if decide (ring_prev (xs1 ++ x :: xs2) (length xs1) = Some y)
    then ring_next (xs1 ++ x :: xs2) (length xs1)
    else ring_next (xs1 ++ x :: xs2) (if decide (j < length xs1)%nat then j else S j).
Proof.
  intros Hnd Hj. set (xs := xs1 ++ x :: xs2) in *.
  assert (Hi : xs !! (if decide (j < length xs1)%nat then j else S j) = Some y).
  { subst xs. case_decide.
    - rewrite lookup_app_l in Hj |- * by lia. done.
    - rewrite lookup_app_r in Hj |- * by lia. by rewrite Nat.sub_succ_l by lia. }
  assert (Hx : xs !! length xs1 = Some x) by (subst xs; by rewrite lookup_app_r, Nat.sub_diag by lia).
  assert (Hlen : length xs = S (length xs1 + length xs2)).
  { subst xs. rewrite length_app. simpl. lia. }
  pose proof (lookup_lt_Some _ _ _ Hj) as Hlt. rewrite length_app in Hlt.
  assert (Hhd : head xs = if decide (length xs1 = 0%nat) then Some x else head (xs1 ++ xs2)).
  { subst xs. by destruct xs1. }
  assert (Hp : ring_prev xs (length xs1) = Some y <->
     (S j = length xs1 \/ (length xs1 = 0%nat /\ S j = length xs2))).
  { clear Hhd. unfold ring_prev. destruct (length xs1) as [|m] eqn:Em.
    - rewrite last_lookup, Hlen. simpl. split.
      + intros E. pose proof (NoDup_lookup _ _ _ _ Hnd Hi E). case_decide; lia.
      + intros [?|[_ ?]]; [lia|]. rewrite <- Hi. f_equal. case_decide; lia.
    - split.
      + intros E. pose proof (NoDup_lookup _ _ _ _ Hnd Hi E). case_decide; lia.
      + intros [?|[? _]]; [|lia]. rewrite <- Hi. f_equal. case_decide; lia. }
  assert (Hsh : forall k, (length xs1 <= k)%nat -> (xs1 ++ xs2) !! k = xs !! S k).
  { intros k Hk. subst xs. rewrite !lookup_app_r by lia.
    by rewrite Nat.sub_succ_l by lia. }
  assert (Hlo : forall k, (k < length xs1)%nat -> (xs1 ++ xs2) !! k = xs !! k).
  { intros k Hk. subst xs. by rewrite !lookup_app_l by lia. }
  unfold ring_next at 1. destruct (decide (ring_prev xs (length xs1) = Some y)) as [E|E].
  - apply Hp in E as [E|[E1 E2]].
    + rewrite Hsh by lia. rewrite E. unfold ring_next. rewrite Hhd, decide_False by lia. done.
    + rewrite lookup_ge_None_2 by (rewrite length_app; lia).
      unfold ring_next. rewrite E1, <- Hsh by lia. rewrite <- head_lookup.
      destruct (head (xs1 ++ xs2)) eqn:E3; [done|]. apply head_None in E3. by rewrite E3 in Hj.
  - assert (S j ≠ length xs1 /\ ¬ (length xs1 = 0%nat /\ S j = length xs2)) as [Hn1 Hn2] by tauto.
    unfold ring_next. destruct (decide (j < length xs1)%nat).
    + rewrite Hlo by lia. destruct (lookup_lt_is_Some_2 xs (S j)) as [z ->]; [lia|done].
    + rewrite Hsh by lia. destruct (xs !! S (S j)) eqn:E4; [done|].
      apply lookup_ge_None_1 in E4. rewrite Hhd, decide_False; [done|]. lia.
Qed.

(** Predecessors are the successors of the reversed list. *)
Lemma ring_prev_reverse xs i :
  (i < length xs)%nat -> ring_prev xs i = ring_next (reverse xs) (length xs - S i).
Proof.
  intros Hi. unfold ring_prev, ring_next. destruct i as [|i].
  - rewrite lookup_ge_None_2 by (rewrite length_reverse; lia). by rewrite head_reverse.
  - rewrite reverse_lookup by lia.
    replace (length xs - S (S (length xs - S (S i))))%nat with i by lia.
    destruct (lookup_lt_is_Some_2 xs i) as [y ->]; [lia|done].
Qed.

Lemma ring_next_reverse xs i :
  (i < length xs)%nat -> ring_next xs i = ring_prev (reverse xs) (length xs - S i).
Proof.
  intros Hi. rewrite (ring_prev_reverse (reverse xs)) by (rewrite length_reverse; lia).
  rewrite reverse_involutive, length_reverse. f_equal. lia.
Qed.

Lemma ring_prev_del xs1 x xs2 j y :
  NoDup (xs1 ++ x :: xs2) -> (xs1 ++ xs2) !! j = Some y ->
  ring_prev (xs1 ++ xs2) j =
    if decide (ring_next (xs1 ++ x :: xs2) (length xs1) = Some y)
    then ring_prev (xs1 ++ x :: xs2) (length xs1)
    else ring_prev (xs1 ++ x :: xs2) (if decide (j < length xs1)%nat then j else S j).
Proof.
  intros Hnd Hj. pose proof (lookup_lt_Some _ _ _ Hj) as Hlt. rewrite length_app in Hlt.
  assert (Hlen : length (xs1 ++ x :: xs2) = S (length xs1 + length xs2)).
  { rewrite length_app. simpl. lia. }
  assert (Hrev : reverse (xs1 ++ x :: xs2) = reverse xs2 ++ x :: reverse xs1).
  { rewrite reverse_app, reverse_cons, <- app_assoc. done. }
  rewrite ring_prev_reverse by (rewrite length_app; lia).
  rewrite reverse_app. rewrite (ring_next_del _ x _ _ y).
  - rewrite <- Hrev. rewrite length_reverse.
    rewrite (ring_next_reverse (xs1 ++ x :: xs2)) by lia.
    rewrite !(ring_prev_reverse (xs1 ++ x :: xs2)) by (try case_decide; lia).
    replace (length (xs1 ++ x :: xs2) - S (length xs1))%nat with (length xs2) by lia.
    case_decide; [done|]. f_equal. rewrite length_app. repeat case_decide; lia.
  - rewrite <- Hrev. by rewrite reverse_Permutation.
  - rewrite <- reverse_app. rewrite reverse_lookup by (rewrite length_app; lia).
    rewrite <- Hj. f_equal. rewrite length_app. lia.
Qed.

(** The unlinking case of [lib_listRemove]. *)
Lemma dlist_unlink (h' : lheap) xs1 x xs2 :
  NoDup (xs1 ++ x :: xs2) ->
  (forall i y, (xs1 ++ x :: xs2) !! i = Some y -> y ≠ x -> h' !! y = Some (LNode
     (if decide (ring_prev (xs1 ++ x :: xs2) (length xs1) = Some y)
      then ring_next (xs1 ++ x :: xs2) (length xs1) else ring_next (xs1 ++ x :: xs2) i)
     (if decide (ring_next (xs1 ++ x :: xs2) (length xs1) = Some y)
      then ring_prev (xs1 ++ x :: xs2) (length xs1) else ring_prev (xs1 ++ x :: xs2) i))) ->
  dlist (head (xs1 ++ xs2)) h' (xs1 ++ xs2).
Proof.
  intros Hnd Hh. split; [done|]. split.
  { rewrite <- Permutation_middle in Hnd. by apply NoDup_cons in Hnd as [_ ?]. }
  intros j y Hj.
  rewrite (ring_next_del xs1 x xs2 j y), (ring_prev_del xs1 x xs2 j y) by done.
  apply Hh.
  - case_decide.
    + rewrite lookup_app_l in Hj |- * by lia. done.
    + rewrite lookup_app_r in Hj |- * by lia. by rewrite Nat.sub_succ_l by lia.
  - intros ->. rewrite <- Permutation_middle in Hnd. apply NoDup_cons in Hnd as [Hn _].
    by apply list_elem_of_lookup_2 in Hj.
Qed.

(** A member is its own successor only in a one-element list. *)
Lemma ring_next_self xs1 x xs2 :
  NoDup (xs1 ++ x :: xs2) ->
  ring_next (xs1 ++ x :: xs2) (length xs1) = Some x <-> xs1 ++ xs2 = [].
Proof.
  intros Hnd. unfold ring_next. rewrite lookup_app_r by lia.
  rewrite Nat.sub_succ_l, Nat.sub_diag by lia. simpl. destruct xs2 as [|y xs2]; simpl.
  - rewrite app_nil_r. destruct xs1 as [|z xs1]; simpl; [done|].
    apply NoDup_cons in Hnd as [Hz _]. split; [|done]. intros; simplify_eq. set_solver.
  - split; [|intros E; by apply app_nil in E as [_ ?]]. intros; simplify_eq.
    apply NoDup_app in Hnd as (_ & _ & Hnd). apply NoDup_cons in Hnd as [Hz _]. set_solver.
Qed.

Lemma ring_prev_self xs1 x xs2 :
  NoDup (xs1 ++ x :: xs2) ->
  ring_prev (xs1 ++ x :: xs2) (length xs1) = Some x <-> xs1 ++ xs2 = [].
Proof.
  intros Hnd. rewrite ring_prev_reverse by (rewrite length_app; simpl; lia).
  replace (length (xs1 ++ x :: xs2) - S (length xs1))%nat with (length (reverse xs2))
    by (rewrite length_reverse, length_app; simpl; lia).
  assert (Hrev : reverse (xs1 ++ x :: xs2) = reverse xs2 ++ x :: reverse xs1).
  { rewrite reverse_app, reverse_cons, <- app_assoc. done. }
  rewrite <- reverse_Permutation in Hnd. rewrite Hrev in Hnd |- *.
  rewrite ring_next_self by done. rewrite <- reverse_app. split.
  - intros E. by rewrite <- (reverse_involutive (xs1 ++ xs2)), E.
  - by intros ->.
Qed.

Lemma lib_listRemove_spec hd h xs t :
  dlist hd h xs -> t ∈ xs ->
  exists h', lib_listRemove hd h (Some t) = Ok (head (list_del xs t), h')
    /\ dlist (head (list_del xs t)) h' (list_del xs t)
    /\ h' !! t = Some (LNode NULL NULL)
    /\ forall l, l ∉ xs -> h' !! l = h !! l.
Proof.
  intros (Hhd & Hnd & Hh) Ht.
  apply list_elem_of_split in Ht as (xs1 & xs2 & ->).
  assert (Hn1 : t ∉ xs1).
  { apply NoDup_app in Hnd as (_ & Hd & _). intros Hin. apply (Hd t Hin). by left. }
  rewrite list_del_app by done.
  pose proof (ring_next_self _ _ _ Hnd) as Hns. pose proof (ring_prev_self _ _ _ Hnd) as Hps.
  pose proof (dlist_unlink) as Hul. specialize (fun h' => Hul h' _ _ _ Hnd).
  set (xs := xs1 ++ t :: xs2) in *.
  assert (Hx : xs !! length xs1 = Some t) by (subst xs; by rewrite lookup_app_r, Nat.sub_diag by lia).
  pose proof (Hh _ _ Hx) as Htn.
  destruct (ring_next_in _ _ _ Hx) as (tn & En & Hin).
  destruct (ring_prev_in _ _ _ Hx) as (tp & Ep & Hip).
  rewrite En, Ep in Htn, Hul. rewrite En in Hns. rewrite Ep in Hps.
  pose proof Hin as [jn Hjn]%list_elem_of_lookup_1.
  pose proof Hip as [jp Hjp]%list_elem_of_lookup_1.
  pose proof (Hh _ _ Hjn) as Hhn. pose proof (Hh _ _ Hjp) as Hhp.
  unfold lib_listRemove. rewrite decide_False by done.
  destruct (decide (xs1 ++ xs2 = [])) as [Enil|Enil].
  - apply Hns in Enil as Etn. apply Hps in Enil as Etp. simplify_eq.
    rewrite Enil. lheap_step.
    eexists. split; [done|]. split; [|split; [by simplify_map_eq|]].
    + repeat split; [apply NoDup_nil_2|]. intros i y Hi. by rewrite lookup_nil in Hi.
    + intros l Hl. rewrite !lookup_insert_ne by set_solver. done.
  - assert (tn ≠ t) by naive_solver. assert (tp ≠ t) by naive_solver.
    assert (Hdec : ¬ (Some tn = Some t /\ Some tp = Some t)) by naive_solver.
    assert (Hhd' : (if decide (Some t = hd) then Some tn else hd) = head (xs1 ++ xs2)).
    { subst xs hd. rewrite head_app. destruct xs1 as [|z xs1]; simpl in *.
      - rewrite decide_True by done. rewrite <- En. unfold ring_next. simpl.
        by destruct xs2.
      - rewrite decide_False; [done|]. set_solver. }
    lheap_step.
    destruct (decide (tp = tn)) as [->|Hne]; [rewrite Hhp in Hhn; simplify_eq|];
      case_decide; lheap_step.
    all: rewrite Hhd'; eexists; (split; [reflexivity|]).
    all: split; [apply Hul|split; [by simplify_map_eq|]].
    2, 4, 6, 8: intros l Hl; rewrite !lookup_insert_ne by set_solver; done.
    all: intros i y Hi Hyt; pose proof (Hh _ _ Hi).
    all: repeat case_decide; simplify_map_eq.
    all: try rewrite !lookup_insert_ne by congruence; congruence.
Qed.

(** ** Refinement of programs

    A client's calls as a sequence of operations, run on the heap and on the
    sequence of members. *)
Inductive list_op : Type :=
| OpAdd (t : loc)
| OpRemove (t : loc).

Definition list_step (s : ptr * lheap) (o : list_op) : res (ptr * lheap) :=
  match o with
  | OpAdd t => lib_listAdd s.1 s.2 (Some t)
  | OpRemove t => lib_listRemove s.1 s.2 (Some t)
  end.

Fixpoint list_run (s : ptr * lheap) (os : list list_op) : res (ptr * lheap) :=
  match os with
  | [] => Ok s
  | o :: os => let? s := list_step s o in list_run s os
  end.

(** The abstract machine refuses to add a member twice and to remove a
    non-member; [objs] are the nodes that exist. *)
Definition seq_step (objs : gset loc) (xs : list loc) (o : list_op) : option (list loc) :=
  match o with
  | OpAdd t => if decide (t ∈ objs /\ t ∉ xs) then Some (list_add xs t) else None
  | OpRemove t => if decide (t ∈ xs) then Some (list_del xs t) else None
  end.

Fixpoint seq_run (objs : gset loc) (xs : list loc) (os : list list_op) : option (list loc) :=
  match os with
  | [] => Some xs
  | o :: os => xs ← seq_step objs xs o; seq_run objs xs os
  end.

Lemma elem_of_list_del_1 {A} `{EqDecision A} (xs : list A) x y : y ∈ list_del xs x -> y ∈ xs.
Proof. induction xs; simpl; [done|]. case_decide; set_solver. Qed.

Lemma list_step_refines objs s xs o xs' :
  dlist s.1 s.2 xs -> dom s.2 = objs -> (forall x, x ∈ xs -> x ∈ objs) ->
  seq_step objs xs o = Some xs' ->
  exists s', list_step s o = Ok s' /\ dlist s'.1 s'.2 xs' /\ dom s'.2 = objs
    /\ (forall x, x ∈ xs' -> x ∈ objs).
Proof.
  destruct s as [hd h]; simpl. intros Hd Hdom Hin Ho. destruct o as [t|t]; simpl in *.
  - case_decide as Ht; simplify_eq. destruct Ht as [Ht Hn].
    apply elem_of_dom in Ht as Hs. destruct (lib_listAdd_spec _ _ _ _ Hd Hn Hs) as (h' & E & Hd' & Hf).
    rewrite E. eexists. split; [done|]. simpl. split_and!; [done| |].
    + apply set_eq. intros l. rewrite !elem_of_dom. destruct (decide (l ∈ t :: xs)) as [Hl|Hl].
      * assert (l ∈ list_add xs t) as [i Hi]%list_elem_of_lookup_1 by (unfold list_add; set_solver).
        destruct Hd' as (_ & _ & Hh'). rewrite (Hh' _ _ Hi).
        assert (l ∈ dom h) as [n ->]%elem_of_dom by set_solver. split; eauto.
      * by rewrite Hf.
    + unfold list_add. set_solver.
  - case_decide as Ht; simplify_eq.
    destruct (lib_listRemove_spec _ _ _ _ Hd Ht) as (h' & E & Hd' & Hn & Hf).
    rewrite E. eexists. split; [done|]. simpl. split_and!; [done| |].
    + apply set_eq. intros l. rewrite !elem_of_dom. destruct (decide (l ∈ xs)) as [Hl|Hl]; [|by rewrite Hf].
      assert (l ∈ dom h) as Hl'%elem_of_dom by set_solver. split; [done|]. intros _.
      destruct (decide (l = t)) as [->|Hlt]; [by rewrite Hn|].
      assert (l ∈ list_del xs t) as [i Hi]%list_elem_of_lookup_1.
      { clear - Hl Hlt. induction xs; simpl; [set_solver|]. case_decide; set_solver. }
      destruct Hd' as (_ & _ & Hh'). by rewrite (Hh' _ _ Hi).
    + intros x Hx. apply Hin. by eapply elem_of_list_del_1.
Qed.

(** C13: every sequence of LIST_ADD and LIST_REMOVE calls that a sequence of
    members admits runs on the heap without an invalid access and leaves a
    well-formed circular list that holds exactly the resulting sequence:
    LIST_ADD appends at the tail, LIST_REMOVE deletes the member. *)
Theorem list_program_refines objs hd h xs os xs' :
  dlist hd h xs -> dom h = objs -> (forall x, x ∈ xs -> x ∈ objs) ->
  seq_run objs xs os = Some xs' ->
  exists hd' h', list_run (hd, h) os = Ok (hd', h') /\ dlist hd' h' xs'.
Proof.
  intros Hd Hdom Hin Hrun.
  enough (Hs : forall s xs, dlist s.1 s.2 xs -> dom s.2 = objs -> (forall x, x ∈ xs -> x ∈ objs) ->
    seq_run objs xs os = Some xs' -> exists s', list_run s os = Ok s' /\ dlist s'.1 s'.2 xs').
  { destruct (Hs (hd, h) xs) as ([hd' h'] & ? & ?); eauto. }
  clear. induction os as [|o os IH]; intros s xs Hd Hdom Hin Hrun; simpl in *.
  - simplify_eq. eauto.
  - apply bind_Some in Hrun as (ys & Ho & Hrun).
    destruct (list_step_refines _ _ _ _ _ Hd Hdom Hin Ho) as (s' & -> & ? & ? & ?).
    simpl. eauto.
Qed.

Definition ex_heap : lheap := {[1%positive := LNode NULL NULL; 2%positive := LNode NULL NULL; 3%positive := LNode NULL NULL]}.

Lemma list_program_refines_witness :
  exists hd' h',
    list_run (NULL, ex_heap) [OpAdd 1%positive; OpAdd 2%positive; OpAdd 3%positive; OpRemove 1%positive]
      = Ok (hd', h') /\ dlist hd' h' [2%positive; 3%positive].
Proof.
  apply (list_program_refines (dom ex_heap) NULL ex_heap []).
  - repeat split; [apply NoDup_nil_2|]. intros i x Hi. by rewrite lookup_nil in Hi.
  - reflexivity.
  - intros x Hx. by apply elem_of_nil in Hx.
  - vm_compute. reflexivity.
Defined.
