(* ===== verification/CBuffer.v ===== *)
(** * Circular buffers (src/lib/cbuffer.h, src/lib/cbuffer.c)

    [cbuffer_t] with its read and write indices and the [full] flag.  [contents]
    is the byte sequence the buffer holds; the theorems show that the routines
    implement a bounded FIFO on it. *)

From S2P Require Import Prelude.

Record cbuffer_t : Type := CBuffer {
  sz : Z; r : Z; w : Z;
  full : bool; mark : bool;
  data : list Z;
}.

(** [_cbuffer_init]: all fields zero, then the size and the storage. *)
Definition _cbuffer_init (dat : list Z) (size : Z) : cbuffer_t * Z :=
  (CBuffer size 0 0 false false dat, 0).

Definition _cbuffer_free (buf : cbuffer_t) : Z :=
  if decide (w buf = r buf) then (if full buf then 0 else sz buf)
  else Z.land (u32 (r buf - w buf + sz buf)) (u32 (sz buf - 1)).

Definition _cbuffer_avail (buf : cbuffer_t) : Z :=
  u32 (sz buf - _cbuffer_free buf).

Definition _cbuffer_discard (buf : cbuffer_t) (n : Z) : Z * cbuffer_t :=
  let cnt := s32 (Z.min (_cbuffer_free buf) n) in
  (cnt, CBuffer (sz buf) (Z.land (u32 (r buf + cnt)) (u32 (sz buf - 1))) (w buf)
          (full buf) (mark buf) (data buf)).

(** The copying part of [_cbuffer_write]: the number of bytes stored and the
    new storage.  [n] is the parameter [sz] of the source. *)
Definition cb_put (buf : cbuffer_t) (src : list Z) (n : Z) : res (Z * list Z) :=
  if decide (r buf > w buf) then
    let bytes := s32 (Z.min n (u32 (r buf - w buf))) in
    let? d := memcpy (data buf) (w buf) src bytes in
    Ok (bytes, d)
  else
    let bytes := s32 (Z.min n (u32 (sz buf - w buf))) in
    let? d := memcpy (data buf) (w buf) src bytes in
    if decide (u32 bytes < n /\ r buf <> 0) then
      let src := drop (Z.to_nat bytes) src in
      let n := u32 (n - bytes) in
      let? d := memcpy d 0 src (Z.min n (r buf)) in
      Ok (s32 (bytes + Z.min n (r buf)), d)
    else Ok (bytes, d).

Definition _cbuffer_write (buf : cbuffer_t) (src : list Z) (n : Z) : res (Z * cbuffer_t) :=
  if decide (n = 0 \/ full buf = true) then Ok (0, buf)
  else
    let? (bytes, d) := cb_put buf src n in
    let w' := Z.land (u32 (w buf + bytes)) (u32 (sz buf - 1)) in
    Ok (bytes, CBuffer (sz buf) (r buf) w' (bool_decide (w' = r buf)) (mark buf) d).

(** The copying part of [_cbuffer_read]: the number of bytes fetched and the
    destination, which is updated in place. *)
Definition cb_get (buf : cbuffer_t) (dst : list Z) (n : Z) : res (Z * list Z) :=
  if decide (w buf > r buf) then
    let bytes := s32 (Z.min n (u32 (w buf - r buf))) in
    let? dst := memcpy dst 0 (drop (Z.to_nat (r buf)) (data buf)) bytes in
    Ok (bytes, dst)
  else
    let bytes := s32 (Z.min n (u32 (sz buf - r buf))) in
    let? dst := memcpy dst 0 (drop (Z.to_nat (r buf)) (data buf)) bytes in
    if decide (u32 bytes < n) then
      let n := u32 (n - bytes) in
      let? dst := memcpy dst bytes (data buf) (Z.min n (w buf)) in
      Ok (s32 (bytes + Z.min n (w buf)), dst)
    else Ok (bytes, dst).

Definition _cbuffer_read (buf : cbuffer_t) (dst : list Z) (n : Z) : res (Z * cbuffer_t * list Z) :=
  if decide (n = 0 \/ (r buf = w buf /\ full buf = false)) then Ok (0, buf, dst)
  else
    let? (bytes, dst) := cb_get buf dst n in
    Ok (bytes, CBuffer (sz buf) (Z.land (u32 (r buf + bytes)) (u32 (sz buf - 1))) (w buf)
                 false (mark buf) (data buf), dst).

(** ** Well-formedness and abstraction *)

(** A buffer in use: its size is a power of two below [2^31], both indices are
    inside it, and [full] is set only when they meet. *)
Definition cb_wf (b : cbuffer_t) : Prop :=
  (exists k, 0 <= k < 31 /\ sz b = 2 ^ k) /\ Z.of_nat (length (data b)) = sz b
  /\ 0 <= r b < sz b /\ 0 <= w b < sz b /\ (full b = true -> r b = w b).

Definition count (b : cbuffer_t) : Z :=
  if decide (r b = w b) then (if full b then sz b else 0) else (w b - r b) mod sz b.

(** The bytes in FIFO order. *)
Definition contents (b : cbuffer_t) : list Z :=
  (fun i : nat => data b !!! Z.to_nat ((r b + i) mod sz b)) <$> seq 0 (Z.to_nat (count b)).

(** ** Lemmas *)

Lemma cb_size_bounds b : cb_wf b -> 0 < sz b < 2 ^ 31 /\ u32 (sz b - 1) = sz b - 1.
Proof.
  intros ((k & Hk & ->) & _). assert (0 < 2 ^ k) by lia.
  assert (2 ^ k < 2 ^ 31) by (apply Z.pow_lt_mono_r; lia).
  split; [lia|]. apply u32_small. lia.
Qed.

(** Index arithmetic: masking with [sz - 1] is reduction modulo [sz]. *)
Lemma cb_mask b x : cb_wf b -> 0 <= x < 2 ^ 32 ->
  Z.land (u32 x) (u32 (sz b - 1)) = x mod sz b.
Proof.
  intros Hb Hx. destruct (cb_size_bounds b Hb) as [_ ->].
  rewrite u32_small by lia. destruct Hb as ((k & Hk & ->) & _). apply land_pow2_mod; lia.
Qed.

Lemma count_range b : cb_wf b -> 0 <= count b <= sz b.
Proof.
  intros Hb. pose proof (cb_size_bounds b Hb) as [? _]. unfold count.
  case_decide; [destruct (full b); lia|]. pose proof (Z.mod_pos_bound (w b - r b) (sz b)). lia.
Qed.

Lemma w_of_count b : cb_wf b -> w b = (r b + count b) mod sz b.
Proof.
  intros Hb. pose proof (cb_size_bounds b Hb) as [? _]. destruct Hb as (_ & _ & Hr & Hw & Hf).
  unfold count. case_decide as E.
  - rewrite <- E. destruct (full b).
    + rewrite <- Zplus_mod_idemp_r, Z_mod_same_full, Z.add_0_r, Z.mod_small; lia.
    + rewrite Z.add_0_r, Z.mod_small; lia.
  - rewrite Zplus_mod_idemp_r. replace (r b + (w b - r b)) with (w b) by lia.
    rewrite Z.mod_small; lia.
Qed.

Lemma lookup_contents b (i : nat) : cb_wf b ->
  contents b !! i =
    if decide (i < count b) then data b !! Z.to_nat ((r b + i) mod sz b) else None.
Proof.
  intros Hb. pose proof (cb_size_bounds b Hb) as [? _]. pose proof (count_range b Hb).
  unfold contents. rewrite list_lookup_fmap. case_decide.
  - rewrite lookup_seq_lt by lia. simpl. symmetry. apply list_lookup_lookup_total_lt.
    destruct Hb as (_ & Hl & _). pose proof (Z.mod_pos_bound (r b + i) (sz b)). lia.
  - rewrite lookup_seq_ge by lia. done.
Qed.

Lemma length_contents b : cb_wf b -> Z.of_nat (length (contents b)) = count b.
Proof.
  intros Hb. pose proof (count_range b Hb). unfold contents.
  rewrite length_fmap, length_seq. lia.
Qed.

Lemma cbuffer_free_spec b : cb_wf b -> _cbuffer_free b = sz b - count b.
Proof.
  intros Hb. pose proof (cb_size_bounds b Hb) as [? _]. pose proof Hb as (_ & _ & ? & ? & _).
  unfold _cbuffer_free, count. destruct (decide (w b = r b)) as [E|E].
  - rewrite decide_True by done. destruct (full b); lia.
  - rewrite decide_False by done. rewrite cb_mask by (done || lia).
    destruct (decide (w b < r b)).
    + rewrite mod_once by lia. rewrite mod_neg_once; lia.
    + rewrite (Z.mod_small (w b - r b)) by lia. rewrite Z.mod_small; lia.
Qed.

Lemma cbuffer_avail_spec b : cb_wf b -> _cbuffer_avail b = count b.
Proof.
  intros Hb. unfold _cbuffer_avail. rewrite cbuffer_free_spec by done.
  pose proof (cb_size_bounds b Hb) as [? _]. pose proof (count_range b Hb).
  rewrite u32_small; lia.
Qed.

(** Storing [m] bytes at the write index extends the contents by them. *)
Lemma contents_store b src m d' :
  cb_wf b -> 0 < m -> count b + m <= sz b -> m <= length src ->
  length d' = length (data b) ->
  (forall i : nat, i < sz b -> d' !! i =
     if decide ((i - w b) mod sz b < m) then src !! Z.to_nat ((i - w b) mod sz b)
     else data b !! i) ->
  let w' := (w b + m) mod sz b in
  let b' := CBuffer (sz b) (r b) w' (bool_decide (w' = r b)) (mark b) d' in
  cb_wf b' /\ contents b' = contents b ++ take (Z.to_nat m) src.
Proof.
  intros Hb Hm Hc Hs Hl Hd w' b'. pose proof (cb_size_bounds b Hb) as [Hsz _].
  pose proof (count_range b Hb) as Hcr. pose proof (w_of_count b Hb) as Hw.
  pose proof Hb as (Hk & Hlen & Hr & Hwr & Hf).
  assert (Hw' : w' = (r b + (count b + m)) mod sz b).
  { subst w'. rewrite Hw, Zplus_mod_idemp_l. f_equal. lia. }
  assert (Hb' : cb_wf b').
  { split; [done|]. simpl. split; [by rewrite Hl|]. split; [done|].
    split; [apply Z.mod_pos_bound; lia|]. intros E. symmetry. by apply bool_decide_eq_true in E. }
  assert (Hc' : count b' = count b + m).
  { unfold count at 1. simpl. case_decide as E.
    - rewrite bool_decide_eq_true_2 by done. rewrite Hw' in E.
      destruct (decide (count b + m = sz b)) as [|Hne]; [done|]. exfalso.
      destruct (decide (r b + (count b + m) < sz b)).
      + rewrite Z.mod_small in E; lia.
      + rewrite mod_once in E; lia.
    - rewrite Hw'. rewrite Zminus_mod_idemp_l.
      replace (r b + (count b + m) - r b) with (count b + m) by lia.
      apply Z.mod_small. destruct (decide (count b + m = sz b)) as [He|]; [|lia]. exfalso.
      apply E. rewrite Hw', He, <- Zplus_mod_idemp_r, Z_mod_same_full, Z.add_0_r, Z.mod_small; lia. }
  split; [done|]. apply list_eq. intros i. rewrite lookup_contents, Hc' by done. simpl.
  assert (Hpos : (((r b + i) mod sz b) - w b) mod sz b = (i - count b) mod sz b).
  { rewrite Hw, Zminus_mod_idemp_r, Zminus_mod_idemp_l. f_equal. lia. }
  pose proof (Z.mod_pos_bound (r b + i) (sz b) ltac:(lia)) as Hp.
  pose proof (length_contents b Hb) as Hlc.
  case_decide.
  - rewrite Hd by lia. rewrite Z2Nat.id, Hpos by lia. destruct (decide (i < count b)).
    + rewrite mod_neg_once, decide_False by lia. rewrite lookup_app_l by lia.
      by rewrite lookup_contents, decide_True by done.
    + rewrite lookup_app_r by lia. rewrite Z.mod_small, decide_True by lia.
      rewrite lookup_take_lt by lia. f_equal. lia.
  - rewrite lookup_app_r by lia. rewrite lookup_take_ge by lia. done.
Qed.

Lemma count_cases b : cb_wf b -> full b = false ->
  sz b - count b = if decide (r b > w b) then r b - w b else sz b - w b + r b.
Proof.
  intros Hb Hf. pose proof (cb_size_bounds b Hb) as [? _]. pose proof Hb as (_ & _ & ? & ? & _).
  unfold count. rewrite Hf. repeat case_decide; try lia.
  - rewrite mod_neg_once; lia.
  - rewrite Z.mod_small; lia.
Qed.

(** The copies store [min n free] bytes behind the write index. *)
Lemma cb_put_spec b src n :
  cb_wf b -> full b = false -> 0 < n < 2 ^ 32 -> n <= length src ->
  exists d', cb_put b src n = Ok (Z.min n (sz b - count b), d') /\ length d' = length (data b) /\
    (forall i : nat, i < sz b -> d' !! i =
       if decide ((i - w b) mod sz b < Z.min n (sz b - count b))
       then src !! Z.to_nat ((i - w b) mod sz b) else data b !! i).
Proof.
  intros Hb Hfull Hn Hs. pose proof (cb_size_bounds b Hb) as [Hsz _].
  pose proof Hb as (_ & Hlen & Hr & Hw & Hf).
  rewrite (count_cases b Hb Hfull). unfold cb_put. case_decide.
  - rewrite (u32_small (r b - w b)), s32_small by lia. cbv zeta.
    destruct (memcpy_spec (data b) (w b) src (Z.min n (r b - w b))) as (d' & -> & Hl & Hd); try lia.
    exists d'. simpl. split_and!; [done|done|]. intros i Hi. rewrite Hd.
    destruct (decide (w b <= i)).
    + rewrite Z.mod_small by lia. repeat case_decide; try lia; [|done]. f_equal. lia.
    + rewrite mod_neg_once by lia. repeat case_decide; try lia. done.
  - rewrite (u32_small (sz b - w b)), s32_small by lia. cbv zeta.
    destruct (memcpy_spec (data b) (w b) src (Z.min n (sz b - w b))) as (d1 & -> & Hl1 & Hd1); try lia.
    simpl. rewrite (u32_small (Z.min n (sz b - w b))) by lia.
    destruct (decide (Z.min n (sz b - w b) < n /\ r b <> 0)) as [[H1 H2]|H1].
    + rewrite (u32_small (n - _)) by lia.
      set (src2 := drop (Z.to_nat (Z.min n (sz b - w b))) src).
      assert (Hl2 : length src2 = (length src - Z.to_nat (Z.min n (sz b - w b)))%nat) by apply length_drop.
      destruct (memcpy_spec d1 0 src2 (Z.min (n - Z.min n (sz b - w b)) (r b)))
        as (d2 & -> & Hld2 & Hd2); try lia.
      exists d2. simpl. rewrite s32_small by lia. split_and!; [f_equal; f_equal; lia|lia|].
      intros i Hi. rewrite Hd2, Hd1. destruct (decide (w b <= i)).
      * rewrite Z.mod_small by lia. repeat case_decide; try lia. f_equal. lia.
      * rewrite mod_neg_once by lia. repeat case_decide; try lia; [|done].
        subst src2. rewrite lookup_drop. f_equal. lia.
    + exists d1. split_and!; [f_equal; f_equal; lia|lia|].
      intros i Hi. rewrite Hd1. destruct (decide (w b <= i)).
      * rewrite Z.mod_small by lia. repeat case_decide; try lia; [|done]. f_equal. lia.
      * rewrite mod_neg_once by lia. repeat case_decide; try lia. done.
Qed.

Lemma cbuffer_write_spec b src n :
  cb_wf b -> 0 <= n < 2 ^ 32 -> n <= length src ->
  exists b', _cbuffer_write b src n = Ok (Z.min n (sz b - count b), b') /\ cb_wf b'
    /\ sz b' = sz b /\ contents b' = contents b ++ take (Z.to_nat (Z.min n (sz b - count b))) src.
Proof.
  intros Hb Hn Hs. pose proof (cb_size_bounds b Hb) as [Hsz _].
  pose proof (count_range b Hb) as Hcr. pose proof Hb as (_ & Hlen & Hr & Hw & Hf).
  unfold _cbuffer_write. case_decide as E0.
  { assert (Z.min n (sz b - count b) = 0) as ->.
    { destruct E0 as [->|E0]; [lia|]. unfold count. rewrite decide_True by auto. rewrite E0. lia. }
    exists b. simpl. rewrite app_nil_r. done. }
  assert (full b = false) as Hfull by (destruct (full b); tauto).
  destruct (cb_put_spec b src n) as (d' & -> & Hl & Hd); try (done || lia).
  simpl. rewrite cb_mask by (done || lia).
  assert (0 < sz b - count b) by (rewrite count_cases by done; case_decide; lia).
  destruct (contents_store b src (Z.min n (sz b - count b)) d') as [Hb' Hc']; auto; try lia.
  eexists. split; [reflexivity|]. done.
Qed.

Lemma count_nonempty b : cb_wf b -> ~ (r b = w b /\ full b = false) ->
  count b = if decide (w b > r b) then w b - r b else sz b - r b + w b.
Proof.
  intros Hb Hne. pose proof (cb_size_bounds b Hb) as [? _]. pose proof Hb as (_ & _ & ? & ? & _).
  unfold count. repeat case_decide; try lia.
  - destruct (full b); [lia|tauto].
  - rewrite Z.mod_small; lia.
  - rewrite mod_neg_once; lia.
Qed.

(** The copies fetch the first [min n avail] bytes of the contents. *)
Lemma cb_get_spec b dst n :
  cb_wf b -> ~ (r b = w b /\ full b = false) -> 0 < n < 2 ^ 32 -> n <= length dst ->
  exists dst', cb_get b dst n = Ok (Z.min n (count b), dst') /\ length dst' = length dst /\
    (forall i : nat, dst' !! i = if decide (i < Z.min n (count b)) then contents b !! i else dst !! i).
Proof.
  intros Hb Hne Hn Hs. pose proof (cb_size_bounds b Hb) as [Hsz _].
  pose proof Hb as (_ & Hlen & Hr & Hw & Hf).
  pose proof (fun i : nat => lookup_contents b i Hb) as Hc.
  rewrite (count_nonempty b Hb Hne) in *. unfold cb_get.
  assert (Hl : length (drop (Z.to_nat (r b)) (data b)) = (length (data b) - Z.to_nat (r b))%nat)
    by apply length_drop.
  destruct (decide (w b > r b)).
  - rewrite (u32_small (w b - r b)), s32_small by lia. cbv zeta.
    destruct (memcpy_spec dst 0 (drop (Z.to_nat (r b)) (data b)) (Z.min n (w b - r b)))
      as (d' & -> & Hl' & Hd); try lia.
    exists d'. simpl. split_and!; [done|done|]. intros i. rewrite Hd, Hc.
    repeat case_decide; try lia; [|done]. rewrite lookup_drop. f_equal. rewrite Z.mod_small; lia.
  - rewrite (u32_small (sz b - r b)), s32_small by lia. cbv zeta.
    destruct (memcpy_spec dst 0 (drop (Z.to_nat (r b)) (data b)) (Z.min n (sz b - r b)))
      as (d1 & -> & Hl1 & Hd1); try lia.
    simpl. rewrite (u32_small (Z.min n (sz b - r b))) by lia. case_decide.
    + rewrite (u32_small (n - _)) by lia.
      destruct (memcpy_spec d1 (Z.min n (sz b - r b)) (data b)
        (Z.min (n - Z.min n (sz b - r b)) (w b))) as (d2 & -> & Hl2 & Hd2); try lia.
      exists d2. simpl. rewrite s32_small by lia. split_and!; [f_equal; f_equal; lia|lia|].
      intros i. rewrite Hd2, Hd1, Hc. repeat case_decide; try lia; [| |done].
      * f_equal. rewrite mod_once; lia.
      * rewrite lookup_drop. f_equal. rewrite Z.mod_small; lia.
    + exists d1. split_and!; [f_equal; f_equal; lia|lia|].
      intros i. rewrite Hd1, Hc. repeat case_decide; try lia; [|done].
      rewrite lookup_drop. f_equal. rewrite Z.mod_small; lia.
Qed.

(** Advancing the read index by [m] drops the first [m] bytes. *)
Lemma contents_advance b m :
  cb_wf b -> 0 < m <= count b ->
  let b' := CBuffer (sz b) ((r b + m) mod sz b) (w b) false (mark b) (data b) in
  cb_wf b' /\ contents b' = drop (Z.to_nat m) (contents b).
Proof.
  intros Hb Hm b'. pose proof (cb_size_bounds b Hb) as [Hsz _].
  pose proof (count_range b Hb) as Hcr. pose proof (w_of_count b Hb) as Hw.
  pose proof Hb as (Hk & Hlen & Hr & Hwr & Hf).
  assert (Hb' : cb_wf b').
  { repeat split; simpl; try done; try lia; apply Z.mod_pos_bound; lia. }
  assert (Hc' : count b' = count b - m).
  { assert (Hd : (w b - (r b + m) mod sz b) mod sz b = count b - m).
    { rewrite Hw, Zminus_mod_idemp_r, Zminus_mod_idemp_l.
      replace (r b + count b - (r b + m)) with (count b - m) by lia. apply Z.mod_small. lia. }
    unfold count at 1. simpl. case_decide as E; [|done].
    rewrite E, Z.sub_diag, Z.mod_0_l in Hd; lia. }
  split; [done|]. apply list_eq. intros i.
  rewrite lookup_drop, !lookup_contents, Hc' by done. simpl.
  repeat case_decide; try lia; [|done]. do 2 f_equal. rewrite Zplus_mod_idemp_l. f_equal. lia.
Qed.

Lemma cbuffer_read_spec b dst n :
  cb_wf b -> 0 <= n < 2 ^ 32 -> n <= length dst ->
  exists b', _cbuffer_read b dst n = Ok (Z.min n (count b), b',
      take (Z.to_nat (Z.min n (count b))) (contents b) ++ drop (Z.to_nat (Z.min n (count b))) dst)
    /\ cb_wf b' /\ sz b' = sz b /\ contents b' = drop (Z.to_nat (Z.min n (count b))) (contents b).
Proof.
  intros Hb Hn Hs. pose proof (cb_size_bounds b Hb) as [Hsz _].
  pose proof (count_range b Hb) as Hcr. pose proof Hb as (_ & Hlen & Hr & Hw & Hf).
  unfold _cbuffer_read. case_decide as E0.
  { assert (Z.min n (count b) = 0) as ->.
    { destruct E0 as [->|[E0 E1]]; [lia|]. unfold count. rewrite decide_True, E1 by done. lia. }
    exists b. simpl. by rewrite !drop_0. }
  destruct (cb_get_spec b dst n) as (d' & -> & Hl & Hd); try tauto; try lia.
  assert (0 < count b) by (rewrite count_nonempty by tauto; case_decide; lia).
  pose proof (length_contents b Hb). simpl. rewrite cb_mask by (done || lia).
  destruct (contents_advance b (Z.min n (count b))) as [Hb' Hc']; try (done || lia).
  eexists. split; [|by split_and!]. do 2 f_equal. apply list_eq. intros i. rewrite Hd. case_decide.
  - rewrite lookup_app_l by (rewrite length_take; lia). by rewrite lookup_take_lt by lia.
  - rewrite lookup_app_r by (rewrite length_take; lia). rewrite lookup_drop, length_take. f_equal. lia.
Qed.

(** ** Streams

    A sequence of writes and reads on one buffer; the result collects the
    bytes accepted by the writes and the bytes delivered by the reads. *)
Inductive cb_op : Type :=
| OpWrite (src : list Z)
| OpRead (dst : list Z).

Definition cb_step (b : cbuffer_t) (o : cb_op) : res (list Z * list Z * cbuffer_t) :=
  match o with
  | OpWrite src =>
      let? (n, b) := _cbuffer_write b src (length src) in
      Ok (take (Z.to_nat n) src, [], b)
  | OpRead dst =>
      let? (n, b, dst) := _cbuffer_read b dst (length dst) in
      Ok ([], take (Z.to_nat n) dst, b)
  end.

Fixpoint cb_run (b : cbuffer_t) (os : list cb_op) : res (list Z * list Z * cbuffer_t) :=
  match os with
  | [] => Ok ([], [], b)
  | o :: os =>
      let? (i1, o1, b) := cb_step b o in
      let? (i2, o2, b) := cb_run b os in
      Ok (i1 ++ i2, o1 ++ o2, b)
  end.

Definition cb_op_small (o : cb_op) : Prop :=
  match o with OpWrite l | OpRead l => Z.of_nat (length l) < 2 ^ 32 end.

Lemma cb_step_stream b o :
  cb_wf b -> cb_op_small o ->
  exists i1 o1 b', cb_step b o = Ok (i1, o1, b') /\ cb_wf b' /\ sz b' = sz b
    /\ o1 ++ contents b' = contents b ++ i1.
Proof.
  intros Hb Ho. pose proof (count_range b Hb). pose proof (length_contents b Hb).
  destruct o as [src|dst]; simpl in *.
  - destruct (cbuffer_write_spec b src (length src)) as (b' & -> & Hb' & Hsz & Hc); try done; try lia.
    simpl. do 3 eexists. split; [reflexivity|]. by rewrite Hc.
  - destruct (cbuffer_read_spec b dst (length dst)) as (b' & -> & Hb' & Hsz & Hc); try done; try lia.
    simpl. do 3 eexists. split; [reflexivity|]. split_and!; [done..|].
    rewrite Hc, app_nil_r, take_app_length' by (rewrite length_take; lia). apply take_drop.
Qed.

(** C20: a circular buffer is a FIFO byte stream.  Whatever sequence of writes
    and reads runs on it, no access leaves the storage, and the bytes delivered
    followed by the bytes still buffered are the bytes buffered at the start
    followed by the bytes accepted: nothing is lost, duplicated or reordered. *)
Theorem cbuffer_stream b os :
  cb_wf b -> Forall cb_op_small os ->
  exists ins outs b', cb_run b os = Ok (ins, outs, b') /\ cb_wf b' /\ sz b' = sz b
    /\ outs ++ contents b' = contents b ++ ins.
Proof.
  intros Hb Hos. revert b Hb. induction Hos as [|o os Ho Hos IH]; intros b Hb; simpl.
  - do 3 eexists. split; [done|]. by rewrite app_nil_r.
  - destruct (cb_step_stream b o Hb Ho) as (i1 & o1 & b1 & -> & Hb1 & Hs1 & H1). simpl.
    destruct (IH b1 Hb1) as (i2 & o2 & b2 & -> & Hb2 & Hs2 & H2). simpl.
    do 3 eexists. split; [reflexivity|]. split_and!; [done|congruence|].
    by rewrite <- app_assoc, H2, !app_assoc, H1.
Qed.

(** An eight-byte buffer, empty, as [_cbuffer_init] leaves it. *)
Definition ex_buf : cbuffer_t := (_cbuffer_init (replicate 8 0) 8).1.

Lemma ex_buf_wf : cb_wf ex_buf.
Proof. repeat split; simpl; try lia; try done. exists 3. lia. Qed.

Lemma cbuffer_stream_witness :
  exists ins outs b',
    cb_run ex_buf [OpWrite [1; 2; 3; 4; 5; 6]; OpRead [0; 0; 0; 0]; OpWrite [7; 8; 9; 10; 11; 12; 13]]
      = Ok (ins, outs, b') /\ cb_wf b' /\ sz b' = sz ex_buf
    /\ outs ++ contents b' = contents ex_buf ++ ins.
Proof.
  apply cbuffer_stream; [exact ex_buf_wf|]. repeat constructor; simpl; lia.
Defined.

(** The concrete run of the witness wraps around the end of the storage. *)
Example cbuffer_wraps :
  (fun p => (p.1, contents p.2)) <$>
    match cb_run ex_buf [OpWrite [1; 2; 3; 4; 5; 6]; OpRead [0; 0; 0; 0]; OpWrite [7; 8; 9; 10; 11; 12; 13]] with
    | Ok p => Some p | _ => None end
  = Some ([1; 2; 3; 4; 5; 6; 7; 8; 9; 10; 11; 12], [1; 2; 3; 4], [5; 6; 7; 8; 9; 10; 11; 12]).
Proof. vm_compute. reflexivity. Qed.

(** [_cbuffer_free] and [_cbuffer_avail] report the space left and the
    number of buffered bytes, and a write accepts exactly as many bytes as were
    reported free. *)
Theorem cbuffer_accounting b src :
  cb_wf b -> Z.of_nat (length src) < 2 ^ 32 ->
  _cbuffer_avail b = length (contents b)
  /\ _cbuffer_free b + _cbuffer_avail b = sz b
  /\ exists b', _cbuffer_write b src (length src) = Ok (Z.min (length src) (_cbuffer_free b), b')
       /\ _cbuffer_avail b' = _cbuffer_avail b + Z.min (length src) (_cbuffer_free b).
Proof.
  intros Hb Hs. pose proof (count_range b Hb). pose proof (length_contents b Hb) as Hlc.
  destruct (cbuffer_write_spec b src (length src)) as (b' & Hw & Hb' & Hsz & Hc); try done; try lia.
  rewrite !cbuffer_avail_spec, cbuffer_free_spec by done. split_and!; [done|lia|].
  exists b'. split; [done|].
  rewrite cbuffer_avail_spec, <- (length_contents b') by done.
  rewrite Hc, length_app, length_take. lia.
Qed.

Lemma cbuffer_accounting_witness :
  _cbuffer_avail ex_buf = length (contents ex_buf)
  /\ _cbuffer_free ex_buf + _cbuffer_avail ex_buf = sz ex_buf
  /\ exists b', _cbuffer_write ex_buf [1; 2; 3] (length [1; 2; 3])
        = Ok (Z.min (length [1; 2; 3]) (_cbuffer_free ex_buf), b')
       /\ _cbuffer_avail b' = _cbuffer_avail ex_buf + Z.min (length [1; 2; 3]) (_cbuffer_free ex_buf).
Proof. apply cbuffer_accounting; [exact ex_buf_wf|]. simpl. lia. Defined.

(** C40: [_cbuffer_discard] bounds the amount by the free space instead of the
    buffered amount, so it never discards anything from a full buffer, whose
    contents then stay in front of the next message. *)
Theorem cbuffer_discard_full b n :
  cb_wf b -> full b = true -> 0 <= n ->
  _cbuffer_discard b n = (0, b) /\ length (contents b) = Z.to_nat (sz b).
Proof.
  intros Hb Hf Hn. pose proof Hb as (_ & _ & Hr & _ & Hrw).
  assert (Hc : count b = sz b) by (unfold count; rewrite decide_True, Hf by auto; done).
  pose proof (length_contents b Hb). split; [|lia].
  unfold _cbuffer_discard. rewrite cbuffer_free_spec, Hc, Z.sub_diag by done.
  rewrite Z.min_l, s32_small by lia.
  pose proof (cb_size_bounds b Hb) as [? _].
  rewrite cb_mask by (done || lia). rewrite Z.add_0_r, Z.mod_small by lia. by destruct b.
Qed.

Lemma cbuffer_discard_full_witness :
  let b := CBuffer 4 1 1 true false [1; 2; 3; 4] in
  _cbuffer_discard b 2 = (0, b) /\ length (contents b) = Z.to_nat (sz b).
Proof.
  intros b. apply cbuffer_discard_full; [|reflexivity|lia].
  repeat split; simpl; try lia; try done. exists 2. lia.
Defined.

(** On an empty buffer it makes stale bytes appear. *)
Example cbuffer_discard_empty :
  contents (_cbuffer_discard ex_buf 3).2 = replicate 5 0 /\ contents ex_buf = [].
Proof. vm_compute. done. Qed.
