(* ===== verification/Bits.v ===== *)
(** * Bit scans and string primitives of the HAL
    (src/hal/riscv64/cpu.h, src/hal/riscv64/string.h, src/lib/lib.h)

    The RISC-V port writes the two bit scans in C as a binary search over
    masks; they are proved equal to [lastbit] and [firstbit] of the prelude,
    which the allocators use.  The C string routines follow as functions on
    NUL-terminated blocks. *)

From S2P Require Import Prelude.

Module BitScan.

(** One [if (!(v & mask)) { lb -= n; v = v << n; }]. *)
Definition last_step (mask n : Z) (s : Z * Z) : Z * Z :=
  let '(lb, v) := s in
  if decide (Z.land v mask = 0) then (lb - n, u64 (Z.shiftl v n)) else (lb, v).

Definition hal_cpuGetLastBit (v : Z) : Z :=
  let s := last_step 0xffffffff00000000 32 (63, v) in
  let s := last_step 0xffff000000000000 16 s in
  let s := last_step 0xff00000000000000 8 s in
  let s := last_step 0xf000000000000000 4 s in
  let s := last_step 0xc000000000000000 2 s in
  let '(lb, v) := s in
  if decide (Z.land v 0x8000000000000000 = 0) then lb - 1 else lb.

(** One [if (!(v & mask)) { fb += n; v = v >> n; }]. *)
Definition first_step (mask n : Z) (s : Z * Z) : Z * Z :=
  let '(fb, v) := s in
  if decide (Z.land v mask = 0) then (fb + n, Z.shiftr v n) else (fb, v).

Definition hal_cpuGetFirstBit (v : Z) : Z :=
  let s := first_step 0xffffffff 32 (0, v) in
  let s := first_step 0xffff 16 s in
  let s := first_step 0xff 8 s in
  let s := first_step 0xf 4 s in
  let s := first_step 0x3 2 s in
  let '(fb, v) := s in
  if decide (Z.land v 0x01 = 0) then fb + 1 else fb.

(** ** Lemmas *)

(** A mask of the bits [k .. n-1] misses [v] exactly when [v < 2^k]. *)
Lemma land_high_mask v k n : 0 <= k <= n -> 0 <= v < 2 ^ n ->
  Z.land v (2 ^ n - 2 ^ k) = 0 <-> v < 2 ^ k.
Proof.
  intros Hk Hv.
  assert (Hm : 2 ^ n - 2 ^ k = Z.shiftl (Z.ones (n - k)) k).
  { rewrite Z.shiftl_mul_pow2, Z.ones_equiv by lia.
    replace (2 ^ n) with (2 ^ (n - k) * 2 ^ k) by (rewrite <- Z.pow_add_r by lia; f_equal; lia). lia. }
  assert (Hl : Z.land v (2 ^ n - 2 ^ k) = Z.shiftl (Z.shiftr v k) k).
  { rewrite Hm. apply Z.bits_inj'. intros i Hi.
    rewrite Z.land_spec, !Z.shiftl_spec by lia. destruct (decide (i < k)).
    - rewrite !(Z.testbit_neg_r _ (i - k)) by lia. by rewrite andb_false_r.
    - rewrite Z.shiftr_spec by lia. replace (i - k + k) with i by lia.
      destruct (decide (i < n)).
      + rewrite Z.ones_spec_low by lia. by rewrite andb_true_r.
      + destruct (decide (v = 0)) as [->|]; [by rewrite Z.bits_0|].
        rewrite Z.bits_above_log2; [done|lia|].
        assert (Z.log2 v < n) by (apply Z.log2_lt_pow2; lia). lia. }
  rewrite Hl, Z.shiftl_mul_pow2, Z.shiftr_div_pow2 by lia.
  assert (0 < 2 ^ k) by lia. split; intros E.
  - pose proof (Z.div_mod v (2 ^ k)). pose proof (Z.mod_pos_bound v (2 ^ k)). nia.
  - rewrite Z.div_small by lia. lia.
Qed.

(** The state of the search: the answer is [lb] minus the distance of the top
    bit of [v] from bit 63. *)
Definition last_inv (a : Z) (s : Z * Z) (n : Z) : Prop :=
  2 ^ (64 - n) <= s.2 < 2 ^ 64 /\ Z.log2 a = s.1 - (63 - Z.log2 s.2).

Lemma last_step_inv a s n : 0 < n <= 32 ->
  last_inv a s (2 * n) -> last_inv a (last_step (2 ^ 64 - 2 ^ (64 - n)) n s) n.
Proof.
  destruct s as [lb v]. unfold last_inv, last_step; simpl. intros Hn [Hv Ha].
  assert (0 < 2 ^ (64 - 2 * n)) by lia. case_decide as E.
  - rewrite land_high_mask in E by lia. simpl.
    rewrite Z.shiftl_mul_pow2 by lia.
    assert (Hp : 2 ^ (64 - n) * 2 ^ n = 2 ^ 64) by (rewrite <- Z.pow_add_r by lia; f_equal; lia).
    assert (Hq : 2 ^ (64 - 2 * n) * 2 ^ n = 2 ^ (64 - n)) by (rewrite <- Z.pow_add_r by lia; f_equal; lia).
    unfold u64. rewrite wrap_small by nia. split; [nia|].
    rewrite Z.log2_mul_pow2 by lia. lia.
  - rewrite land_high_mask in E by lia. simpl. split; [lia|done].
Qed.

Lemma firstbit_double v : 0 < v -> firstbit (2 * v) = 1 + firstbit v.
Proof. intros Hv. destruct v; [lia|reflexivity|lia]. Qed.

Lemma firstbit_mul_pow2 n v : 0 <= n -> 0 < v -> firstbit (v * 2 ^ n) = n + firstbit v.
Proof.
  intros Hn Hv. pattern n. apply natlike_ind; [rewrite Z.mul_1_r; lia| |done].
  intros m Hm IH. rewrite Z.pow_succ_r by lia.
  replace (v * (2 * 2 ^ m)) with (2 * (v * 2 ^ m)) by ring.
  rewrite firstbit_double by nia. lia.
Qed.

Lemma firstbit_odd v : 0 < v -> Z.land v 1 <> 0 -> firstbit v = 0.
Proof. intros Hv Hl. destruct v as [|[]|]; done. Qed.

Definition first_inv (a : Z) (s : Z * Z) (n : Z) : Prop :=
  0 < s.2 /\ s.2 mod 2 ^ n <> 0 /\ firstbit a = s.1 + firstbit s.2.

Lemma first_step_inv a s n : 0 < n ->
  first_inv a s (2 * n) -> first_inv a (first_step (2 ^ n - 1) n s) n.
Proof.
  destruct s as [fb v]. unfold first_inv, first_step; simpl. intros Hn (Hv & Hz & Ha).
  rewrite land_pow2_mod by lia. case_decide as E; simpl; [|done].
  rewrite Z.shiftr_div_pow2 by lia.
  assert (Hp : 0 < 2 ^ n) by lia.
  assert (Hd : v = (v / 2 ^ n) * 2 ^ n) by (pose proof (Z.div_mod v (2 ^ n)); lia).
  assert (Hq : 0 < v / 2 ^ n) by nia.
  split; [done|]. split.
  - intros Hm. apply Hz. rewrite Hd. replace (2 ^ (2 * n)) with (2 ^ n * 2 ^ n)
      by (rewrite <- Z.pow_add_r by lia; f_equal; lia).
    rewrite Zmult_mod_distr_r, Hm. lia.
  - rewrite Ha. rewrite Hd at 1. rewrite firstbit_mul_pow2 by lia. lia.
Qed.

Lemma last_scan v : 0 <= v < 2 ^ 64 -> hal_cpuGetLastBit v = lastbit v.
Proof.
  intros Hv.
  destruct (decide (v = 0)) as [->|Hnz]; [vm_compute; reflexivity|].
  assert (H : last_inv v (63, v) (2 * 32)) by (split; simpl; lia).
  apply last_step_inv in H; [|lia]. apply (last_step_inv _ _ 16) in H; [|lia].
  apply (last_step_inv _ _ 8) in H; [|lia]. apply (last_step_inv _ _ 4) in H; [|lia].
  apply (last_step_inv _ _ 2) in H; [|lia].
  unfold hal_cpuGetLastBit.
  change (2 ^ 64 - 2 ^ (64 - 32)) with 0xffffffff00000000 in H.
  change (2 ^ 64 - 2 ^ (64 - 16)) with 0xffff000000000000 in H.
  change (2 ^ 64 - 2 ^ (64 - 8)) with 0xff00000000000000 in H.
  change (2 ^ 64 - 2 ^ (64 - 4)) with 0xf000000000000000 in H.
  change (2 ^ 64 - 2 ^ (64 - 2)) with 0xc000000000000000 in H.
  destruct (last_step 0xc000000000000000 2 _) as [lb u]. destruct H as [Hu Ha]; simpl in *.
  change 0x8000000000000000 with (2 ^ 64 - 2 ^ 63). unfold lastbit. case_decide as E.
  + rewrite land_high_mask in E by lia. rewrite Ha.
    rewrite (Z.log2_unique u 62); lia.
  + rewrite land_high_mask in E by lia. rewrite Ha, (Z.log2_unique u 63); lia.
Qed.

Lemma first_scan v : 0 <= v < 2 ^ 64 -> v <> 0 -> hal_cpuGetFirstBit v = firstbit v.
Proof.
  intros Hv Hnz.
  assert (H : first_inv v (0, v) (2 * 32)) by (split_and!; simpl; [lia|rewrite Z.mod_small; lia|lia]).
  apply first_step_inv in H; [|lia]. apply (first_step_inv _ _ 16) in H; [|lia].
  apply (first_step_inv _ _ 8) in H; [|lia]. apply (first_step_inv _ _ 4) in H; [|lia].
  apply (first_step_inv _ _ 2) in H; [|lia].
  unfold hal_cpuGetFirstBit. change (2 ^ 32 - 1) with 0xffffffff in H.
  change (2 ^ 16 - 1) with 0xffff in H. change (2 ^ 8 - 1) with 0xff in H.
  change (2 ^ 4 - 1) with 0xf in H. change (2 ^ 2 - 1) with 0x3 in H.
  destruct (first_step 0x3 2 _) as [fb u]. destruct H as (Hu & Hz & Ha); simpl in *.
  rewrite Ha. case_decide as E.
  + change 1 with (2 ^ 1 - 1) in E. rewrite land_pow2_mod in E by lia.
    pose proof (Z.div_mod u (2 ^ 1)) as Hd. change (2 ^ 1) with 2 in *.
    replace u with (2 * (u / 2)) by lia. rewrite firstbit_double by lia.
    assert (Hodd : Z.land (u / 2) 1 <> 0).
    { change 1 with (2 ^ 1 - 1). rewrite land_pow2_mod by lia. change (2 ^ 1) with 2.
      intros E2. apply Hz. pose proof (Z.div_mod (u / 2) 2).
      replace u with (u / 2 / 2 * 4) by lia. apply Z_mod_mult. }
    rewrite (firstbit_odd (u / 2)) by lia. lia.
  + rewrite firstbit_odd by done. lia.
Qed.

(** C30: on every 64-bit value the RISC-V bit scans compute the position of the
    highest set bit (0 for 0) and, on a non-zero value, of the lowest set
    bit. *)
Theorem riscv_bit_scans v :
  0 <= v < 2 ^ 64 ->
  hal_cpuGetLastBit v = lastbit v /\ (v <> 0 -> hal_cpuGetFirstBit v = firstbit v).
Proof.
  intros Hv. split; [by apply last_scan|by apply first_scan].
Qed.

Lemma riscv_bit_scans_witness :
  hal_cpuGetLastBit 0x50000 = lastbit 0x50000
  /\ (0x50000 <> 0 -> hal_cpuGetFirstBit 0x50000 = firstbit 0x50000).
Proof. apply (riscv_bit_scans 0x50000). lia. Defined.

End BitScan.

(** Masking with [~(2^k - 1)] on 32 bits. *)
Lemma land_high k x : 0 <= k <= 32 -> 0 <= x < 2 ^ 32 -> Z.land x (2 ^ 32 - 2 ^ k) = 2 ^ k * (x / 2 ^ k).
Proof.
  intros Hk Hx. replace (2 ^ 32 - 2 ^ k) with (Z.shiftl (Z.ones (32 - k)) k).
  2: { rewrite Z.shiftl_mul_pow2, Z.ones_equiv by lia. rewrite <- Z.sub_1_r, Z.mul_sub_distr_r, <- Z.pow_add_r by lia.
       replace (32 - k + k) with 32 by lia. lia. }
  rewrite Z.mul_comm, <- Z.shiftr_div_pow2, <- Z.shiftl_mul_pow2 by lia.
  apply Z.bits_inj. intros i. destruct (Z.ltb_spec i 0); [by rewrite !Z.testbit_neg_r|].
  rewrite Z.land_spec, !Z.shiftl_spec by lia. destruct (Z.lt_ge_cases i k).
  - rewrite !(Z.testbit_neg_r _ (i - k)) by lia. apply andb_false_r.
  - rewrite Z.shiftr_spec by lia. replace (i - k + k) with i by lia. destruct (Z.lt_ge_cases i 32).
    + rewrite Z.ones_spec_low by lia. apply andb_true_r.
    + assert (Z.testbit x i = false) as ->; [|done]. destruct (Z.eq_dec x 0) as [->|]; [apply Z.testbit_0_l|].
      apply Z.bits_above_log2; [lia|]. apply Z.log2_lt_pow2; [lia|]. assert (2 ^ 32 <= 2 ^ i) by (apply Z.pow_le_mono_r; lia). lia.
Qed.

(** ** C strings

    A pointer into a character array is the rest of the array from there on; a
    string is a NUL-free prefix followed by a NUL.  Reading past the end of the
    array is a fault. *)
Module CString.

Fixpoint hal_strlen (s : list Z) : res Z :=
  match s with
  | [] => Fault
  | c :: s => if decide (c = 0) then Ok 0 else let? k := hal_strlen s in Ok (u32 (k + 1))
  end.

(** The first string is walked with a pointer, the second with an index of 32 bits. *)
Fixpoint strcmp_loop (p s2 : list Z) (k : Z) : res Z :=
  match p with
  | [] => Fault
  | a :: p =>
      let? b := deref (s2 !! Z.to_nat k) in
      if decide (a = 0) then (if decide (a <> b) then Ok (-1) else Ok 0)
      else if decide (a < b) then Ok (-1)
      else if decide (a > b) then Ok 1
      else strcmp_loop p s2 (u32 (k + 1))
  end.
Definition hal_strcmp (s1 s2 : list Z) : res Z := strcmp_loop s1 s2 0.

(** [hal_strcpy dest src]: the updated destination array. *)
Fixpoint hal_strcpy (dest src : list Z) : res (list Z) :=
  match dest, src with
  | _ :: dest, c :: src =>
      if decide (c = 0) then Ok (c :: dest)
      else let? d := hal_strcpy dest src in Ok (c :: d)
  | _, _ => Fault
  end.

Fixpoint hal_memcmp (p1 p2 : list Z) (num : nat) : res Z :=
  match num with
  | O => Ok 0
  | S num =>
      let? a := deref (head p1) in
      let? b := deref (head p2) in
      if decide (a < b) then Ok (-1)
      else if decide (a > b) then Ok 1
      else hal_memcmp (tail p1) (tail p2) num
  end.

(** A string of non-NUL bytes and the array that stores it. *)
Definition str_ok (s : list Z) : Prop := Forall (fun c => 0 < c < 256) s.
Definition cstr (s junk : list Z) : list Z := s ++ 0 :: junk.

(** Lexicographic comparison of byte strings. *)
Fixpoint str_compare (a b : list Z) : comparison :=
  match a, b with
  | [], [] => Eq
  | [], _ => Lt
  | _, [] => Gt
  | x :: a, y :: b => match x ?= y with Eq => str_compare a b | c => c end
  end.

Definition sign_of (c : comparison) : Z :=
  match c with Lt => -1 | Eq => 0 | Gt => 1 end.

Lemma str_compare_eq a b : str_compare a b = Eq <-> a = b.
Proof.
  revert b. induction a as [|x a IH]; intros [|y b]; simpl; try done.
  destruct (Z.compare_spec x y) as [->| |]; [rewrite IH; naive_solver|naive_solver lia..].
Qed.

Lemma hal_strlen_spec s j : str_ok s -> Z.of_nat (length s) < 2 ^ 32 ->
  hal_strlen (cstr s j) = Ok (Z.of_nat (length s)).
Proof.
  intros Hs. induction Hs as [|c s Hc Hs IH]; intros Hl; simpl in *; [done|].
  rewrite decide_False by lia. unfold cstr in IH. rewrite IH by lia. simpl.
  f_equal. rewrite u32_small; lia.
Qed.

Lemma strcmp_loop_spec a ja b jb s : forall k : nat, str_ok a -> str_ok b -> Z.of_nat k + Z.of_nat (Nat.min (length a) (length b)) < 2 ^ 32 ->
  drop k s = cstr b jb -> strcmp_loop (cstr a ja) s (Z.of_nat k) = Ok (sign_of (str_compare a b)).
Proof.
  intros k Ha. revert b k. induction Ha as [|x a Hx Ha IH]; intros b k Hb Hl Hd;
    (assert (s !! k = head (drop k s)) as Hk by (by rewrite head_lookup, lookup_drop, Nat.add_0_r)); inversion Hb as [|y b' Hy Hb']; subst;
    unfold cstr in *; cbn [app strcmp_loop str_compare sign_of];
    rewrite Nat2Z.id, Hk, Hd; cbn [head app deref rbind].
  - done.
  - by rewrite !decide_True by lia.
  - rewrite decide_False, decide_False, decide_True by lia. done.
  - rewrite decide_False by lia. destruct (Z.compare_spec x y); cbn [sign_of].
    + rewrite !decide_False by lia. cbn [length Nat.min] in Hl. rewrite u32_small by lia. replace (Z.of_nat k + 1) with (Z.of_nat (S k)) by lia.
      apply IH; [done|lia|]. rewrite <- Nat.add_1_r, <- drop_drop, Hd. done.
    + by rewrite decide_True by lia.
    + by rewrite decide_False, decide_True by lia.
Qed.

Lemma hal_strcmp_spec a b ja jb : str_ok a -> str_ok b -> Z.of_nat (Nat.min (length a) (length b)) < 2 ^ 32 ->
  hal_strcmp (cstr a ja) (cstr b jb) = Ok (sign_of (str_compare a b)).
Proof. intros. by apply (strcmp_loop_spec a ja b jb (cstr b jb) 0). Qed.

Lemma hal_strcpy_spec s j dest : str_ok s -> (length s < length dest)%nat ->
  hal_strcpy dest (cstr s j) = Ok (cstr s (drop (S (length s)) dest)).
Proof.
  intros Hs. revert dest. induction Hs as [|c s Hc Hs IH]; intros [|d dest] Hl; simpl in *; try lia.
  - done.
  - rewrite decide_False by lia. unfold cstr in *. rewrite IH by lia. done.
Qed.

(** C31: [hal_strcmp] is lexicographic comparison of the two strings, of which one
    is shorter than 2^32, so it returns zero exactly for equal strings, whatever
    follows their NULs.  (The index of the second string has 32 bits.) *)
Theorem hal_strcmp_lexicographic a b ja jb :
  str_ok a -> str_ok b -> Z.of_nat (Nat.min (length a) (length b)) < 2 ^ 32 ->
  hal_strcmp (cstr a ja) (cstr b jb) = Ok (sign_of (str_compare a b))
  /\ (hal_strcmp (cstr a ja) (cstr b jb) = Ok 0 <-> a = b).
Proof.
  intros Ha Hb Hl. rewrite hal_strcmp_spec by done. split; [done|].
  rewrite <- str_compare_eq. destruct (str_compare a b); simpl; naive_solver.
Qed.

Lemma hal_strcmp_lexicographic_witness :
  hal_strcmp (cstr [47; 100] [9]) (cstr [47; 100; 101] []) = Ok (sign_of (str_compare [47; 100] [47; 100; 101]))
  /\ (hal_strcmp (cstr [47; 100] [9]) (cstr [47; 100; 101] []) = Ok 0 <-> [47; 100] = [47; 100; 101]).
Proof.
  apply hal_strcmp_lexicographic; [repeat constructor; lia|repeat constructor; lia|cbn; lia].
Defined.

End CString.
