(* ===== verification/LibText.v ===== *)
(** * Searching, number parsing and random numbers
    (src/lib/bsearch.c, src/lib/strtoul.c, src/lib/rand.c)

    [lib_bsearch] with its C index arithmetic, the two number parsers and the
    linear congruential generator.  The theorems give correctness of the search
    and the value read by the parser. *)

From S2P Require Import Prelude.

(** ** Binary search *)
Module BSearch.

(** [cmp m] is [compar(key, base + m * size)].  The indices are C [int]s:
    [l + r] beyond [INT_MAX] is undefined. *)
Fixpoint bsearch_loop (fuel : nat) (cmp : Z -> res Z) (l r : Z) : res (option Z) :=
  match fuel with
  | O => NoFuel
  | S fuel =>
      if decide (l <= r) then
        if decide (l + r < 2 ^ 31) then
          let m := Z.quot (l + r) 2 in
          let? c := cmp m in
          if decide (c = 0) then Ok (Some m)
          else if decide (c > 0) then bsearch_loop fuel cmp (m + 1) r
          else bsearch_loop fuel cmp l (m - 1)
        else Fault
      else Ok None
  end.

Definition lib_bsearch (cmp : Z -> res Z) (nmemb : Z) : res (option Z) :=
  let l := 0 in
  let r := s32 (u32 (nmemb - 1)) in
  if decide (nmemb = 0) then Ok None
  else bsearch_loop (S (Z.to_nat nmemb)) cmp l r.

(** The array is ordered with respect to the key: first the members below it,
    then those equal to it, then those above. *)
Definition cmp_ordered (f : Z -> Z) (n : Z) : Prop :=
  forall i j, 0 <= i < j -> j < n -> (f j > 0 -> f i > 0) /\ (f i < 0 -> f j < 0).

Definition search_result (f : Z -> Z) (n : Z) (o : option Z) : Prop :=
  match o with
  | Some m => 0 <= m < n /\ f m = 0
  | None => forall i, 0 <= i < n -> f i <> 0
  end.

Lemma bsearch_loop_spec fuel cmp f n l r :
  (forall i, 0 <= i < n -> cmp i = Ok (f i)) -> cmp_ordered f n -> n <= 2 ^ 30 ->
  0 <= l <= r + 1 -> r < n -> r - l + 1 < Z.of_nat fuel ->
  (forall i, 0 <= i < l -> f i > 0) -> (forall i, r < i < n -> f i < 0) ->
  exists o, bsearch_loop fuel cmp l r = Ok o /\ search_result f n o.
Proof.
  intros Hc Ho Hn. revert l r. induction fuel as [|fuel IH]; intros l r Hl Hr Hf Hlo Hhi.
  - lia.
  - cbn [bsearch_loop]. case_decide as E.
    + rewrite decide_True by lia.
      rewrite Z.quot_div_nonneg by lia.
      pose proof (Z.div_mod (l + r) 2). pose proof (Z.mod_pos_bound (l + r) 2).
      set (m := (l + r) / 2) in *. assert (Hm : 0 <= m < n) by lia.
      rewrite Hc by done. cbn [rbind]. case_decide as E0; [eexists; split; [done|]; simpl; eauto|].
      case_decide.
      * apply IH; try lia; [|auto]. intros i Hi. destruct (decide (i = m)) as [->|]; [lia|].
        destruct (decide (i < l)); [auto with lia|]. apply (Ho i m); lia.
      * apply IH; try lia; [auto|]. intros i Hi. destruct (decide (i = m)) as [->|]; [lia|].
        destruct (decide (r < i)); [auto with lia|]. apply (Ho m i); lia.
    + eexists. split; [done|]. simpl. intros i Hi.
      destruct (decide (i < l)) as [Hil|]; [specialize (Hlo i); lia|]. specialize (Hhi i). lia.
Qed.

Lemma lib_bsearch_spec cmp f n :
  (forall i, 0 <= i < n -> cmp i = Ok (f i)) -> cmp_ordered f n -> 0 <= n <= 2 ^ 30 ->
  exists o, lib_bsearch cmp n = Ok o /\ search_result f n o.
Proof.
  intros Hc Ho Hn. unfold lib_bsearch. case_decide as E.
  - eexists. split; [done|]. simpl. lia.
  - rewrite u32_small, s32_small by lia. apply (bsearch_loop_spec _ _ f n); try done; lia.
Qed.

(** C29: on an array ordered with respect to the key, of at most [2^30]
    members, [lib_bsearch] terminates without overflow and either returns a
    matching member or, if it returns NULL, there is none. *)
Theorem bsearch_correct cmp f n :
  (forall i, 0 <= i < n -> cmp i = Ok (f i)) -> cmp_ordered f n -> 0 <= n <= 2 ^ 30 ->
  exists o, lib_bsearch cmp n = Ok o /\ search_result f n o.
Proof. apply lib_bsearch_spec. Qed.

Lemma bsearch_correct_witness :
  exists o, lib_bsearch (fun i => Ok (5 - 2 * i)) 6 = Ok o /\ search_result (fun i => 5 - 2 * i) 6 o.
Proof. apply bsearch_correct; [done| |lia]. intros i j H1 H2. lia. Defined.

End BSearch.

(** ** Number parsing *)
Module Strtoul.

Definition strtoul_isalnum (c : Z) : bool :=
  if decide (48 <= c <= 57) then true
  else
    let c := Z.land c (255 - 0x20) in
    bool_decide (65 <= c <= 90).

(** Value of a digit character; characters are unsigned bytes. *)
Definition digit_of (c : Z) : Z :=
  let t := u32 (c - 48) in
  if decide (t > 9) then u32 (Z.lor c 0x20 - 97 + 10) else t.

(** The loop, on the rest of the string; reading past the array is a fault. *)
Fixpoint strtoul_loop (nptr : list Z) (base v : Z) : res (Z * list Z) :=
  match nptr with
  | [] => Fault
  | c :: rest =>
      if strtoul_isalnum c then
        let t := digit_of c in
        if decide (t >= u32 base) then Ok (v, nptr)
        else strtoul_loop rest base (u32 (u32 (v * base) + t))
      else Ok (v, nptr)
  end.

(** [lib_strtoul nptr has_end base]: [has_end] says that [*endptr] is not NULL
    on entry; the second component of the result is the stored end pointer. *)
Definition lib_strtoul (nptr : list Z) (has_end : bool) (base : Z) : res (Z * option (list Z)) :=
  let? nptr :=
    (if decide (base = 16) then
       let? c0 := deref (nptr !! 0%nat) in
       if decide (c0 = 48) then
         let? c1 := deref (nptr !! 1%nat) in
         if decide (c1 = 120) then Ok (drop 2 nptr) else Ok nptr
       else Ok nptr
     else Ok nptr) in
  let? (v, nptr) := strtoul_loop nptr base 0 in
  Ok (v, if has_end then Some nptr else None).

Definition lib_strtol (nptr : list Z) (has_end : bool) (base : Z) : res (Z * option (list Z)) :=
  let? c := deref (head nptr) in
  let '(sign, nptr) := if decide (c = 45) then (-1, tail nptr) else (1, nptr) in
  let? (v, e) := lib_strtoul nptr has_end base in
  Ok (s32 (u32 (u32 sign * v)), e).

(** ** Digit strings *)

(** Positional value of a string of digit characters. *)
Definition digits_value (base : Z) (ds : list Z) : Z :=
  foldl (fun v c => v * base + digit_of c) 0 ds.

Definition digit_ok (base c : Z) : Prop := strtoul_isalnum c = true /\ digit_of c < base.

(** The character after the digits stops the loop. *)
Definition stop_ok (base c : Z) : Prop := strtoul_isalnum c = false \/ digit_of c >= base.

Lemma strtoul_loop_spec base v ds c rest :
  0 <= base < 2 ^ 32 -> Forall (digit_ok base) ds -> stop_ok base c ->
  strtoul_loop (ds ++ c :: rest) base v
  = Ok (if ds is [] then v else u32 (foldl (fun v c => v * base + digit_of c) v ds), c :: rest).
Proof.
  intros Hb Hds Hc. revert v. induction Hds as [|d ds [Ha Hd] Hds IH]; intros v; cbn [app strtoul_loop].
  - destruct (strtoul_isalnum c) eqn:E; [|done]. destruct Hc as [?|Hc]; [congruence|].
    rewrite u32_small by lia. by rewrite decide_True by done.
  - rewrite Ha, (u32_small base) by lia. rewrite decide_False by lia. rewrite IH. do 2 f_equal.
    assert (Hm : forall ds x y, u32 x = u32 y ->
       u32 (foldl (fun v c => v * base + digit_of c) x ds) = u32 (foldl (fun v c => v * base + digit_of c) y ds)).
    { clear. induction ds as [|d ds IH]; intros x y E; simpl; [done|]. apply IH.
      unfold u32, wrap in *. rewrite Zplus_mod, Zmult_mod, E, <- Zmult_mod, <- Zplus_mod. done. }
    assert (E : u32 (u32 (u32 (v * base) + digit_of d)) = u32 (v * base + digit_of d)).
    { unfold u32, wrap. rewrite Zmod_mod, Zplus_mod_idemp_l. done. }
    destruct ds as [|d' ds].
    + simpl. unfold u32, wrap. by rewrite Zplus_mod_idemp_l.
    + cbn [foldl]. apply (Hm (d' :: ds)). done.
Qed.

(** The optional "0x" is the only prefix the parser skips. *)
Lemma lib_strtoul_plain base ds c rest he :
  0 <= base < 2 ^ 32 -> ds <> [] -> Forall (digit_ok base) ds -> stop_ok base c -> c <> 120 ->
  lib_strtoul (ds ++ c :: rest) he base
  = Ok (u32 (digits_value base ds), if he then Some (c :: rest) else None).
Proof.
  intros Hb Hne Hds Hc Hx.
  assert (Hpre : (if decide (base = 16) then
       let? c0 := deref ((ds ++ c :: rest) !! 0%nat) in
       if decide (c0 = 48) then
         let? c1 := deref ((ds ++ c :: rest) !! 1%nat) in
         if decide (c1 = 120) then Ok (drop 2 (ds ++ c :: rest)) else Ok (ds ++ c :: rest)
       else Ok (ds ++ c :: rest)
     else Ok (ds ++ c :: rest)) = Ok (ds ++ c :: rest)).
  { case_decide as E16; [|done]. destruct ds as [|d ds]; [done|]. cbn.
    case_decide; [|done]. inversion Hds as [|? ? _ Hds']; subst. destruct ds as [|d' ds]; cbn.
    - by rewrite decide_False.
    - inversion Hds' as [|? ? [_ Hd'] _]; subst. rewrite decide_False; [done|]. intros ->.
      vm_compute in Hd'. done. }
  unfold lib_strtoul. rewrite Hpre. cbn [rbind].
  rewrite strtoul_loop_spec by done. cbn [rbind]. destruct ds; [done|]. done.
Qed.

Lemma lib_strtoul_0x ds c rest he :
  ds <> [] -> Forall (digit_ok 16) ds -> stop_ok 16 c ->
  lib_strtoul (48 :: 120 :: ds ++ c :: rest) he 16
  = Ok (u32 (digits_value 16 ds), if he then Some (c :: rest) else None).
Proof.
  intros Hne Hds Hc. unfold lib_strtoul. rewrite decide_True by done.
  cbn -[strtoul_loop u32 digits_value].
  rewrite !decide_True by done. cbn [rbind]. rewrite drop_0.
  rewrite strtoul_loop_spec by (done || lia). cbn [rbind]. by destruct ds.
Qed.

(** The value read by [lib_strtol]; the magnitude of [INT_MIN] is accepted. *)
Lemma lib_strtol_spec base neg ds c rest he :
  0 <= base < 2 ^ 32 -> ds <> [] -> Forall (digit_ok base) ds -> stop_ok base c -> c <> 120 ->
  0 <= digits_value base ds < 2 ^ 31 + (if neg : bool then 1 else 0) ->
  lib_strtol ((if neg then [45] else []) ++ ds ++ c :: rest) he base
  = Ok ((if neg then - digits_value base ds else digits_value base ds),
        if he then Some (c :: rest) else None).
Proof.
  intros Hb Hne Hds Hc Hx Hv. unfold lib_strtol. destruct neg.
  - cbn [app head deref rbind tail]. rewrite decide_True by done. cbv beta iota.
    rewrite lib_strtoul_plain by done. cbn [rbind]. do 2 f_equal.
    rewrite (u32_small (digits_value _ _)) by lia. change (u32 (-1)) with (2 ^ 32 - 1).
    replace ((2 ^ 32 - 1) * digits_value base ds)
      with (- digits_value base ds + digits_value base ds * 2 ^ 32) by ring.
    unfold u32, wrap. rewrite Z_mod_plus_full. unfold s32, swrap.
    rewrite Zplus_mod_idemp_l, Z.mod_small; lia.
  - destruct ds as [|d ds]; [done|]. inversion Hds as [|? ? [Ha _] _]; subst.
    cbn [app head deref rbind tail]. rewrite decide_False by (by intros ->).
    cbv beta iota. rewrite (lib_strtoul_plain base (d :: ds) c rest) by done. cbn [rbind]. do 2 f_equal.
    change (u32 1) with 1. rewrite Z.mul_1_l, !u32_small, s32_small by (rewrite ?u32_small; lia). done.
Qed.

(** [lib_strtol] reads an optional minus sign and a digit string in the
    given base, stops at the first character that is no digit, stores the
    position of that character, and returns the number, as long as it fits an
    [int]. *)
Theorem strtol_value base neg ds c rest he :
  0 <= base < 2 ^ 32 -> ds <> [] -> Forall (digit_ok base) ds -> stop_ok base c -> c <> 120 ->
  0 <= digits_value base ds < 2 ^ 31 ->
  lib_strtol ((if neg : bool then [45] else []) ++ ds ++ c :: rest) he base
  = Ok ((if neg then - digits_value base ds else digits_value base ds),
        if he then Some (c :: rest) else None).
Proof. intros. apply lib_strtol_spec; try done. destruct neg; lia. Qed.

Lemma strtol_value_witness :
  lib_strtol ((if true then [45] else []) ++ [49; 50; 55] ++ 59 :: [1]) true 10
  = Ok ((if true then - digits_value 10 [49; 50; 55] else digits_value 10 [49; 50; 55]), Some [59; 1]).
Proof.
  apply strtol_value.
  - lia.
  - done.
  - repeat constructor.
  - left. reflexivity.
  - done.
  - vm_compute. split; [discriminate|reflexivity].
Defined.

End Strtoul.

(** ** Random numbers *)
Module Rand.

(** [lib_rand]: the result and the new seed. *)
Definition lib_rand (seed : Z) : Z * Z :=
  let seed := u32 (seed * 1103515245 + 12345) in
  (s32 (Z.div seed 2), seed).

Lemma lib_rand_nonneg seed : 0 <= (lib_rand seed).1 < 2 ^ 31.
Proof.
  unfold lib_rand. cbn [fst]. pose proof (u32_range (seed * 1103515245 + 12345)).
  set (s := u32 _) in *. pose proof (Z.div_mod s 2). pose proof (Z.mod_pos_bound s 2).
  rewrite s32_small by lia. lia.
Qed.

End Rand.
