(* ===== verification/LibPrintf.v ===== *)
(** * Formatted output (src/lib/printf.c)

    The integer formatter [printf_sprintf_int] and the two engines built on it,
    [lib_vsprintf] (into a caller's buffer) and [lib_printf] (to the console,
    through a local buffer of 24 characters).  The theorems give the exact text
    of a formatted number, its round trip through the number parser, the bound
    on its length, and the equivalence of the two engines.  Arithmetic on [int]
    that leaves its range is a [Fault]. *)

From S2P Require Import Prelude Bits LibText.
Import CString Strtoul.

Module Printf.

Definition FLAG_SIGNED : Z := 0x1.
Definition FLAG_64BIT : Z := 0x2.
Definition FLAG_SPACE : Z := 0x10.
Definition FLAG_ZERO : Z := 0x20.
Definition FLAG_PLUS : Z := 0x40.
Definition FLAG_HEX : Z := 0x80.
Definition FLAG_LARGE_DIGITS : Z := 0x100.

Definition flag (flags f : Z) : bool := bool_decide (Z.land flags f <> 0).

(** The two digit tables. *)
Definition digit_char (large : bool) (d : Z) : Z :=
  if decide (d < 10) then 48 + d else if large then 55 + d else 87 + d.

(** [while (n != 0) { *tmp++ = digits[n % 10]; n /= 10; }] *)
Fixpoint dec_loop (fuel : nat) (dig : Z -> Z) (n : Z) : res (list Z) :=
  match fuel with
  | O => NoFuel
  | S fuel =>
      if decide (n = 0) then Ok []
      else let? tmp := dec_loop fuel dig (Z.div n 10) in Ok (dig (Z.modulo n 10) :: tmp)
  end.

(** [while (n != 0) { *tmp++ = digits[n & 0x0f]; n >>= 4; }] *)
Fixpoint hex_loop (fuel : nat) (dig : Z -> Z) (n : Z) : res (list Z) :=
  match fuel with
  | O => NoFuel
  | S fuel =>
      if decide (n = 0) then Ok []
      else let? tmp := hex_loop fuel dig (Z.shiftr n 4) in Ok (dig (Z.land n 0x0f) :: tmp)
  end.

(** [for (i = 0; i < k; ++i) { *tmp++ = digits[n & 0x0f]; n >>= 4; }] *)
Fixpoint hex_for (k : nat) (dig : Z -> Z) (n : Z) : list Z :=
  match k with
  | O => []
  | S k => dig (Z.land n 0x0f) :: hex_for k dig (Z.shiftr n 4)
  end.

(** At most 64 binary digits: the fuel of the digit loops. *)
Definition digit_fuel : nat := 65.

(** Sign handling: [num64], [num32], [num_high] and the sign character. *)
Definition printf_sign (num64 flags : Z) : Z * Z * Z * Z :=
  let num32 := u32 num64 in
  let num_high := u32 (Z.shiftr num64 32) in
  if flag flags FLAG_SIGNED then
    let '(num64, num32, num_high, sign) :=
      (if flag flags FLAG_64BIT then
         if decide (s32 num_high < 0) then
           let num64 := u64 (- swrap 64 num64) in
           (num64, u32 num64, u32 (Z.shiftr num64 32), 45)
         else (num64, num32, num_high, 0)
       else if decide (s32 num32 < 0) then
         (num64, u32 (- s32 num32), num_high, 45)
       else (num64, num32, num_high, 0)) in
    if decide (sign = 0) then
      if flag flags FLAG_SPACE then (num64, num32, num_high, 32)
      else if flag flags FLAG_PLUS then (num64, num32, num_high, 43)
      else (num64, num32, num_high, sign)
    else (num64, num32, num_high, sign)
  else (num64, num32, num_high, 0).

(** The digits in [tmp_buf], least significant first. *)
Definition printf_digits (num64 num32 num_high flags : Z) : res (list Z) :=
  let dig := digit_char (flag flags FLAG_LARGE_DIGITS) in
  let is64 := flag flags FLAG_64BIT && negb (bool_decide (num_high = 0)) in
  if decide (num64 = 0) then Ok [48]
  else if flag flags FLAG_HEX then
    if is64 then
      let? hi := hex_loop digit_fuel dig num_high in
      Ok (hex_for 8 dig num32 ++ hi)
    else hex_loop digit_fuel dig num32
  else if is64 then dec_loop digit_fuel dig num64
  else dec_loop digit_fuel dig num32.

(** A difference of [int]s; overflow is undefined. *)
Definition int_sub (a b : Z) : res Z := if decide (- 2 ^ 31 <= a - b < 2 ^ 31) then Ok (a - b) else Fault.

(** [printf_sprintf_int]: the characters stored at [out]. *)
Definition printf_sprintf_int (num64 flags min_number_len : Z) : res (list Z) :=
  let '(num64, num32, num_high, sign) := printf_sign num64 flags in
  let? tmp := printf_digits num64 num32 num_high flags in
  let digits_cnt := Z.of_nat (length tmp) in
  let sgn := if decide (sign = 0) then [] else [sign] in
  let? pad_len := (let? d := int_sub min_number_len digits_cnt in int_sub d (Z.of_nat (length sgn))) in
  let pad := replicate (Z.to_nat pad_len) in
  if flag flags FLAG_ZERO then Ok (sgn ++ pad 48 ++ reverse tmp)
  else Ok (pad 32 ++ sgn ++ reverse tmp).

(** ** The conversion engines

    Variadic arguments of an ILP32 target: a promoted [int] or [unsigned], a
    64-bit integer, a string pointer (the characters from its target on, or
    NULL) and a data pointer.  Fetching another kind than the caller passed is
    undefined. *)
Inductive va_arg : Type :=
| VInt (v : Z)
| VLong (v : Z)
| VStr (s : option (list Z))
| VPtr (p : Z).

Definition c_percent : Z := 37.

(** [" 0+"] *)
Fixpoint parse_flags (fmt : Z) (format : list Z) (flags : Z) : res (option (Z * list Z * Z)) :=
  let next flags :=
    match format with
    | [] => Fault
    | c :: format => if decide (c = 0) then Ok None else parse_flags c format flags
    end in
  if decide (fmt = 32) then next (Z.lor flags FLAG_SPACE)
  else if decide (fmt = 48) then next (Z.lor flags FLAG_ZERO)
  else if decide (fmt = 43) then next (Z.lor flags FLAG_PLUS)
  else Ok (Some (fmt, format, flags)).

(** [while (fmt >= '0' && fmt <= '9')] *)
Fixpoint parse_width (fmt : Z) (format : list Z) (w : Z) : res (option (Z * list Z * Z)) :=
  if decide (48 <= fmt <= 57) then
    let w := u32 (u32 (u32 (w * 10) + fmt) - 48) in
    match format with
    | [] => Fault
    | c :: format => if decide (c = 0) then Ok None else parse_width c format w
    end
  else Ok (Some (fmt, format, w)).

(** [fmt = *format++; if (fmt == 0) goto end;] *)
Definition next_char (format : list Z) : res (option (Z * list Z)) :=
  match format with
  | [] => Fault
  | c :: format => if decide (c = 0) then Ok None else Ok (Some (c, format))
  end.

Notation "'let!' x ':=' c 'in' k" :=
  (rbind c (fun o => match o with None => Ok None | Some x => k end))
  (at level 10, x pattern, c at level 100, k at level 200) : phx_scope.

(** The length modifiers: ["l"], ["ll"] and ["z"] ([size_t] has 32 bits). *)
Definition parse_length (fmt : Z) (format : list Z) (flags : Z) : res (option (Z * list Z * Z)) :=
  let! (fmt, format, flags) :=
    (if decide (fmt = 108) then
       let! (fmt, format) := next_char format in
       if decide (fmt = 108) then
         let! (fmt, format) := next_char format in
         Ok (Some (fmt, format, Z.lor flags FLAG_64BIT))
       else Ok (Some (fmt, format, flags))
     else Ok (Some (fmt, format, flags))) in
  if decide (fmt = 122) then
    let! (fmt, format) := next_char format in Ok (Some (fmt, format, flags))
  else Ok (Some (fmt, format, flags)).

(** Everything between the percent sign and the conversion letter; [None] is
    the jump to [end] ([bad_format]). *)
Definition parse_spec (fmt : Z) (format : list Z) : res (option (Z * list Z * Z * Z)) :=
  let! (fmt, format, flags) := parse_flags fmt format 0 in
  let! (fmt, format, w) := parse_width fmt format 0 in
  if decide (fmt = 46) then Ok None
  else
    let! (fmt, format, flags) := parse_length fmt format flags in
    Ok (Some (fmt, format, flags, w)).

(** [get_number]: the next argument, at the width the flags ask for. *)
Definition get_number (flags : Z) (args : list va_arg) : res (Z * list va_arg) :=
  match args with
  | VLong v :: args => if flag flags FLAG_64BIT then Ok (u64 v, args) else Fault
  | VInt v :: args => if flag flags FLAG_64BIT then Fault else Ok (u32 v, args)
  | _ => Fault
  end.

Definition null_text : list Z := [40; 110; 117; 108; 108; 41; 0].
Definition nil_text : list Z := [40; 110; 105; 108; 41].

(** What a conversion letter means: a string, a single character, a number
    with its final flags and width, or literal text. *)
Definition number_flags (fmt flags : Z) : option Z :=
  if decide (fmt = 88) then Some (Z.lor (Z.lor flags FLAG_LARGE_DIGITS) FLAG_HEX)
  else if decide (fmt = 120) then Some (Z.lor flags FLAG_HEX)
  else if decide (fmt = 100 \/ fmt = 105) then Some (Z.lor flags FLAG_SIGNED)
  else if decide (fmt = 117) then Some flags
  else None.

(** The [switch] of [lib_vsprintf]: the characters stored and the arguments
    left. *)
Definition vsprintf_conv (fmt flags w : Z) (args : list va_arg) : res (list Z * list va_arg) :=
  if decide (fmt = 115) then
    match args with
    | VStr s :: args =>
        let s := default null_text s in
        let? s_len := hal_strlen s in
        Ok (take (Z.to_nat s_len) s, args)
    | _ => Fault
    end
  else if decide (fmt = 99) then
    match args with
    | VInt v :: args => Ok ([u8 v], args)
    | _ => Fault
    end
  else match number_flags fmt flags with
  | Some flags =>
      let? (number, args) := get_number flags args in
      let? out := printf_sprintf_int number flags (s32 w) in
      Ok (out, args)
  | None =>
      if decide (fmt = 112) then
        match args with
        | VPtr s :: args =>
            if decide (s = 0) then Ok (nil_text, args)
            else
              let? out := printf_sprintf_int (u32 s) (Z.lor flags (Z.lor FLAG_ZERO FLAG_HEX)) 8 in
              Ok (out, args)
        | _ => Fault
        end
      else if decide (fmt = c_percent) then Ok ([c_percent], args)
      else Ok ([c_percent; fmt], args)
  end.

(** The main loop of [lib_vsprintf]: the text stored before the final NUL. *)
Fixpoint vsprintf_loop (fuel : nat) (format : list Z) (args : list va_arg) (out : list Z) : res (list Z) :=
  match fuel with
  | O => NoFuel
  | S fuel =>
      match format with
      | [] => Fault
      | fmt :: format =>
          if decide (fmt = 0) then Ok out
          else if decide (fmt <> c_percent) then vsprintf_loop fuel format args (out ++ [fmt])
          else
            let? n := next_char format in
            match n with
            | None => Ok (out ++ [c_percent])
            | Some (fmt, format) =>
                let? p := parse_spec fmt format in
                match p with
                | None => Ok out
                | Some (fmt, format, flags, w) =>
                    let? (txt, args) := vsprintf_conv fmt flags w args in
                    vsprintf_loop fuel format args (out ++ txt)
                end
            end
      end
  end.

(** [lib_vsprintf]: the contents of [out] with its NUL, and the result. *)
Definition lib_vsprintf (format : list Z) (args : list va_arg) : res (list Z * Z) :=
  let? out := vsprintf_loop (S (length format)) format args [] in
  Ok (out ++ [0], s32 (length out)).

(** *** The console engine

    Its output is the text on the console, with the counter [i] kept beside it. *)
Record console := Console { put : list Z; cnt : Z }.

(** What [hal_consolePrint] shows of a string: the characters before its NUL
    (the colour sequences around them differ between boards and are left out). *)
Fixpoint str_shown (s : list Z) : list Z :=
  match s with
  | [] => []
  | c :: s => if decide (c = 0) then [] else c :: str_shown s
  end.

Definition lib_putch (s : Z) (k : console) : console := Console (put k ++ str_shown [s; 0]) (cnt k).

(** [i += n;] *)
Definition counted (n : Z) (k : console) : console := Console (put k) (s32 (cnt k + n)).

(** [while ( *s != 0) { lib_putch( *s++); ++i; }] *)
Fixpoint put_str (s : list Z) (k : console) : res console :=
  match s with
  | [] => Fault
  | c :: s => if decide (c = 0) then Ok k else put_str s (counted 1 (lib_putch c k))
  end.

(** [while (sptr != eptr) { lib_putch( *sptr++); ++i; }] *)
Fixpoint put_chars (s : list Z) (k : console) : console :=
  match s with
  | [] => k
  | c :: s => put_chars s (counted 1 (lib_putch c k))
  end.

(** [char buff[24];] *)
Definition BUFF_SIZE : Z := 24.

(** [printf_sprintf_int(buff, ...)]: storing past the buffer is a fault. *)
Definition put_number (number flags w : Z) (k : console) : res console :=
  let? out := printf_sprintf_int number flags w in
  if decide (Z.of_nat (length out) <= BUFF_SIZE) then Ok (put_chars out k) else Fault.

Definition printf_conv (fmt flags w : Z) (args : list va_arg) (k : console) : res (console * list va_arg) :=
  if decide (fmt = 115) then
    match args with
    | VStr s :: args => let? k := put_str (default null_text s) k in Ok (k, args)
    | _ => Fault
    end
  else if decide (fmt = 99) then
    match args with
    | VInt v :: args => Ok (counted 1 (lib_putch (u8 v) k), args)
    | _ => Fault
    end
  else match number_flags fmt flags with
  | Some flags =>
      let? (number, args) := get_number flags args in
      let? k := put_number number flags (s32 w) k in
      Ok (k, args)
  | None =>
      if decide (fmt = 112) then
        match args with
        | VPtr s :: args =>
            if decide (s = 0) then
              Ok (counted 5 (lib_putch 41 (lib_putch 108 (lib_putch 105 (lib_putch 110 (lib_putch 40 k))))), args)
            else
              let? k := put_number (u32 s) (Z.lor flags (Z.lor FLAG_ZERO FLAG_HEX)) 8 k in
              Ok (k, args)
        | _ => Fault
        end
      else if decide (fmt = c_percent) then Ok (counted 1 (lib_putch c_percent k), args)
      else Ok (counted 2 (lib_putch fmt (lib_putch c_percent k)), args)
  end.

Fixpoint printf_loop (fuel : nat) (format : list Z) (args : list va_arg) (k : console) : res console :=
  match fuel with
  | O => NoFuel
  | S fuel =>
      match format with
      | [] => Fault
      | fmt :: format =>
          if decide (fmt = 0) then Ok k
          else if decide (fmt <> c_percent) then printf_loop fuel format args (counted 1 (lib_putch fmt k))
          else
            let? n := next_char format in
            match n with
            | None => Ok (counted 1 (lib_putch c_percent k))
            | Some (fmt, format) =>
                let? p := parse_spec fmt format in
                match p with
                | None => Ok k
                | Some (fmt, format, flags, w) =>
                    let? (k, args) := printf_conv fmt flags w args k in
                    printf_loop fuel format args k
                end
            end
      end
  end.

(** [lib_printf]: the text on the console and the result. *)
Definition lib_printf (format : list Z) (args : list va_arg) : res (list Z * Z) :=
  let? k := printf_loop (S (length format)) format args (Console [] 0) in
  Ok (put k, cnt k).

(** ** Digit strings *)

(** Both digit loops are one loop over the base. *)
Fixpoint base_loop (b : Z) (fuel : nat) (dig : Z -> Z) (n : Z) : res (list Z) :=
  match fuel with
  | O => NoFuel
  | S fuel =>
      if decide (n = 0) then Ok []
      else let? tmp := base_loop b fuel dig (Z.div n b) in Ok (dig (Z.modulo n b) :: tmp)
  end.

Lemma dec_loop_base fuel dig n : dec_loop fuel dig n = base_loop 10 fuel dig n.
Proof. revert n. induction fuel as [|f IH]; intros n; simpl; [done|]. by rewrite IH. Qed.

Lemma land_15 n : Z.land n 0x0f = n mod 16.
Proof. exact (land_pow2_mod n 4 ltac:(lia)). Qed.

Lemma hex_loop_base fuel dig n : hex_loop fuel dig n = base_loop 16 fuel dig n.
Proof.
  revert n. induction fuel as [|f IH]; intros n; cbn [hex_loop base_loop]; [done|].
  by rewrite IH, land_15, Z.shiftr_div_pow2 by lia.
Qed.

(** A digit character names its digit. *)
Lemma digit_char_ok large d b : 0 <= d < b -> b <= 16 -> 
  digit_ok b (digit_char large d) /\ digit_of (digit_char large d) = d.
Proof.
  intros Hd Hb. unfold digit_ok.
  assert (d = 0 \/ d = 1 \/ d = 2 \/ d = 3 \/ d = 4 \/ d = 5 \/ d = 6 \/ d = 7 \/ d = 8 \/ d = 9 \/
          d = 10 \/ d = 11 \/ d = 12 \/ d = 13 \/ d = 14 \/ d = 15) as Hc by lia.
  repeat destruct Hc as [->|Hc]; try subst d; destruct large; vm_compute digit_of; vm_compute strtoul_isalnum; auto with lia.
Qed.

(** A decimal digit, or a letter of the case asked for. *)
Definition digit_case (large : bool) (c : Z) : Prop := 48 <= c <= 57 \/ if large then 65 <= c <= 70 else 97 <= c <= 102.

Lemma digit_char_case large d : 0 <= d < 16 -> digit_case large (digit_char large d).
Proof. intros Hd. unfold digit_case, digit_char. case_decide; [left; lia|right]. destruct large; lia. Qed.

(** A digit string, least significant digit first, with its value. *)
Definition digits_of (large : bool) (b n : Z) (tmp : list Z) : Prop :=
  Forall (fun c => digit_ok b c /\ digit_case large c) tmp /\ digits_value b (reverse tmp) = n.

Lemma digits_of_cons b large d n tmp : 0 <= d < b -> b <= 16 -> digits_of large b n tmp ->
  digits_of large b (n * b + d) (digit_char large d :: tmp).
Proof.
  intros Hd Hb [Ht Hv]. destruct (digit_char_ok large d b Hd Hb) as [Hok Hval].
  split; [constructor; [split; [done|apply digit_char_case; lia]|done]|]. rewrite reverse_cons. unfold digits_value in *. rewrite foldl_app, Hv. simpl. by rewrite Hval.
Qed.

Lemma base_loop_spec b large fuel n : 2 <= b <= 16 -> 0 <= n < 2 ^ Z.of_nat fuel ->
  exists tmp, base_loop b (S fuel) (digit_char large) n = Ok tmp /\ digits_of large b n tmp /\
    (n <> 0 -> tmp <> []) /\ forall k : nat, n < b ^ k -> (length tmp <= k)%nat.
Proof.
  intros Hb. revert n. induction fuel as [|fuel IH]; intros n Hn.
  { assert (n = 0) as -> by (simpl in Hn; lia). exists []. split; [done|]. split; [split; [constructor|done]|]. split; [done|]. simpl; lia. }
  cbn [base_loop]. destruct (decide (n = 0)) as [->|Hne].
  { exists []. split; [done|]. split; [split; [constructor|done]|]. split; [done|]. simpl; lia. }
  assert (Hq : 0 <= n / b < 2 ^ Z.of_nat fuel).
  { split; [apply Z.div_pos; lia|]. apply Z.div_lt_upper_bound; [lia|].
    replace (Z.of_nat (S fuel)) with (1 + Z.of_nat fuel) in Hn by lia. rewrite Z.pow_add_r in Hn by lia. nia. }
  destruct (IH _ Hq) as (tmp & E & Hd & _ & Hk).
  cbn [base_loop] in E. rewrite E. cbn [rbind]. eexists. split; [done|]. split; [|split].
  - pose proof (Z.div_mod n b) as Hdm. pose proof (Z.mod_pos_bound n b).
    replace n with (n / b * b + n mod b) at 1 by lia. apply digits_of_cons; [lia|lia|done].
  - done.
  - intros k Hlt. destruct k as [|k]; [simpl in Hlt; lia|]. cbn [length].
    enough (length tmp <= k)%nat by lia. apply Hk. apply Z.div_lt_upper_bound; [lia|].
    replace (Z.of_nat (S k)) with (1 + Z.of_nat k) in Hlt by lia. rewrite Z.pow_add_r in Hlt by lia. lia.
Qed.

Lemma hex_for_spec large k n hi h : 0 <= n < 16 ^ Z.of_nat k -> digits_of large 16 h hi ->
  digits_of large 16 (h * 16 ^ Z.of_nat k + n) (hex_for k (digit_char large) n ++ hi).
Proof.
  revert n. induction k as [|k IH]; intros n Hn Hh; cbn [hex_for].
  - by replace (h * 16 ^ Z.of_nat 0 + n) with h by (simpl in *; lia).
  - rewrite land_15, Z.shiftr_div_pow2 by lia. change (2 ^ 4) with 16. cbn [app].
    pose proof (Z.div_mod n 16). pose proof (Z.mod_pos_bound n 16).
    replace (Z.of_nat (S k)) with (1 + Z.of_nat k) in * by lia. rewrite Z.pow_add_r in * by lia.
    replace (h * (16 ^ 1 * 16 ^ Z.of_nat k) + n)
      with ((h * 16 ^ Z.of_nat k + n / 16) * 16 + n mod 16) by lia.
    apply digits_of_cons; [lia|lia|]. apply IH; [|done]. split; [apply Z.div_pos; lia|].
    apply Z.div_lt_upper_bound; lia.
Qed.

Lemma hex_for_length k dig n : length (hex_for k dig n) = k.
Proof. revert n. induction k; intros; simpl; auto. Qed.

(** ** The text of a number *)

(** The base, the value and the sign character that flags and argument ask
    for. *)
Definition fmt_base (flags : Z) : Z := if flag flags FLAG_HEX then 16 else 10.

Definition fmt_value (num64 flags : Z) : Z :=
  if flag flags FLAG_SIGNED then
    if flag flags FLAG_64BIT then swrap 64 num64 else s32 num64
  else num64.

Definition fmt_sign (v flags : Z) : list Z :=
  if flag flags FLAG_SIGNED then
    if decide (v < 0) then [45]
    else if flag flags FLAG_SPACE then [32]
    else if flag flags FLAG_PLUS then [43] else []
  else [].

(** Arguments as the engines pass them: 64 bits wide under the flag, else 32. *)
Definition num_ok (num64 flags : Z) : Prop :=
  0 <= num64 < if flag flags FLAG_64BIT then 2 ^ 64 else 2 ^ 32.

Lemma swrap_cases w z : 0 < w -> 0 <= z < 2 ^ w ->
  swrap w z = if decide (z < 2 ^ (w - 1)) then z else z - 2 ^ w.
Proof.
  intros Hw Hz. unfold swrap.
  assert (Hp : 2 ^ w = 2 * 2 ^ (w - 1)) by (rewrite <- Z.pow_succ_r by lia; f_equal; lia).
  case_decide; [rewrite Z.mod_small|rewrite mod_once]; lia.
Qed.

Lemma shiftr_32 z : Z.shiftr z 32 = z / 2 ^ 32.
Proof. by rewrite Z.shiftr_div_pow2 by lia. Qed.

(** The sign handling leaves the magnitude in the working variables. *)
Lemma printf_sign_spec num64 flags : num_ok num64 flags ->
  exists n64 n32 nh sign, printf_sign num64 flags = (n64, n32, nh, sign) /\
    let mag := Z.abs (fmt_value num64 flags) in
    (if decide (sign = 0) then [] else [sign]) = fmt_sign (fmt_value num64 flags) flags /\
    (n64 = 0 <-> mag = 0) /\ 0 <= mag < 2 ^ 64 /\
    if flag flags FLAG_64BIT then n64 = mag /\ n32 = mag mod 2 ^ 32 /\ nh = mag / 2 ^ 32
    else n32 = mag /\ mag < 2 ^ 32.
Proof.
  unfold num_ok. intros Hn. unfold printf_sign, fmt_value, fmt_sign.
  destruct (flag flags FLAG_SIGNED).
  2:{ do 4 eexists. split; [done|]. cbv zeta. rewrite decide_True by done. rewrite Z.abs_eq by lia.
      split; [done|]. split; [done|]. destruct (flag flags FLAG_64BIT).
      - split; [done|]. unfold u32, wrap. rewrite shiftr_32. split_and!; [done|done|].
        apply Z.mod_small. split; [apply Z.div_pos; lia|apply Z.div_lt_upper_bound; lia].
      - split; [lia|]. split; [apply u32_small; lia|lia]. }
  destruct (flag flags FLAG_64BIT) eqn:E64.
  - assert (Hq : 0 <= num64 / 2 ^ 32 < 2 ^ 32)
      by (split; [apply Z.div_pos; lia|apply Z.div_lt_upper_bound; lia]).
    rewrite shiftr_32, u32_small by done. unfold s32. rewrite !swrap_cases by lia.
    pose proof (Z.div_mod num64 (2 ^ 32)) as Hdm. pose proof (Z.mod_pos_bound num64 (2 ^ 32)) as Hr.
    change (64 - 1) with 63. change (32 - 1) with 31.
    destruct (decide (num64 < 2 ^ 63)) as [Hlt|Hlt].
    + rewrite (decide_True (P := num64 / 2 ^ 32 < 2 ^ 31)) by lia. rewrite (decide_False (P := _ < 0)) by lia.
      rewrite (decide_False (P := num64 < 0)) by lia. rewrite decide_True by done. rewrite Z.abs_eq by lia.
      destruct (flag flags FLAG_SPACE); [|destruct (flag flags FLAG_PLUS)];
        do 4 eexists; split; try done; cbv zeta;
        (split; [done|]); (split; [done|]); (split; [lia|]); split_and!; done.
    + rewrite (decide_False (P := num64 / 2 ^ 32 < 2 ^ 31)) by lia.
      rewrite (decide_True (P := _ - _ < 0)) by lia. rewrite (decide_True (P := num64 - 2 ^ 64 < 0)) by lia.
      rewrite decide_False by done.
      do 4 eexists. split; [done|]. cbv zeta. rewrite Z.abs_neq by lia.
      replace (u64 (- (num64 - 2 ^ 64))) with (- (num64 - 2 ^ 64)) by (symmetry; apply wrap_small; lia).
      split; [done|]. split; [done|]. split; [lia|]. split_and!; [done|done|].
      rewrite shiftr_32. apply u32_small.
      split; [apply Z.div_pos; lia|apply Z.div_lt_upper_bound; lia].
  - rewrite (u32_small num64) by lia. unfold s32. rewrite swrap_cases by lia. change (32 - 1) with 31.
    destruct (decide (num64 < 2 ^ 31)) as [Hlt|Hlt].
    + rewrite !(decide_False (P := num64 < 0)) by lia. rewrite decide_True by done. rewrite Z.abs_eq by lia.
      destruct (flag flags FLAG_SPACE); [|destruct (flag flags FLAG_PLUS)];
        do 4 eexists; split; try done; cbv zeta;
        (split; [done|]); (split; [done|]); (split; [lia|]); lia.
    + rewrite !(decide_True (P := num64 - 2 ^ 32 < 0)) by lia. rewrite decide_False by done.
      do 4 eexists. split; [done|]. cbv zeta. rewrite Z.abs_neq by lia.
      rewrite u32_small by lia. split; [done|]. split; [lia|]. lia.
Qed.

(** The digit loops produce the shortest digit string of the magnitude. *)
Definition shortest (b n : Z) (ds : list Z) : Prop :=
  forall k : nat, (0 < k)%nat -> n < b ^ k -> (length ds <= k)%nat.

Lemma base_digits b large n : 2 <= b <= 16 -> 0 < n < 2 ^ 64 ->
  exists tmp, base_loop b digit_fuel (digit_char large) n = Ok tmp /\
    digits_of large b n tmp /\ tmp <> [] /\ shortest b n tmp.
Proof.
  intros Hb Hn. destruct (base_loop_spec b large 64 n Hb) as (tmp & E & Hd & Hne & Hk); [lia|].
  exists tmp. split; [done|]. split; [done|]. split; [apply Hne; lia|]. intros k _. apply Hk.
Qed.

Lemma printf_digits_spec n64 n32 nh flags mag :
  (n64 = 0 <-> mag = 0) -> 0 <= mag < 2 ^ 64 ->
  (if flag flags FLAG_64BIT then n64 = mag /\ n32 = mag mod 2 ^ 32 /\ nh = mag / 2 ^ 32
   else n32 = mag /\ mag < 2 ^ 32) ->
  exists tmp, printf_digits n64 n32 nh flags = Ok tmp /\ digits_of (flag flags FLAG_LARGE_DIGITS) (fmt_base flags) mag tmp /\ tmp <> [] /\
    shortest (fmt_base flags) mag tmp.
Proof.
  intros H0 Hm Hw. unfold printf_digits, fmt_base. destruct (decide (n64 = 0)) as [Hz|Hz].
  { assert (mag = 0) as -> by (by apply H0). exists [48]. split; [done|].
    split; [split; [constructor; [|constructor]; split; [destruct (flag flags FLAG_HEX); by split|left; lia]|by destruct (flag flags FLAG_HEX)]|]. split; [done|].
    intros k Hk _. simpl. lia. }
  assert (Hpos : 0 < mag) by lia. clear H0.
  destruct (flag flags FLAG_64BIT && negb (bool_decide (nh = 0))) eqn:E64.
  - apply andb_prop in E64 as [E64 Eh]. rewrite E64 in Hw. destruct Hw as (-> & -> & ->).
    apply negb_true_iff, bool_decide_eq_false in Eh. destruct (flag flags FLAG_HEX).
    + assert (0 < mag / 2 ^ 32 < 2 ^ 32).
      { assert (0 <= mag / 2 ^ 32) by (apply Z.div_pos; lia).
        split; [lia|apply Z.div_lt_upper_bound; lia]. }
      destruct (base_digits 16 (flag flags FLAG_LARGE_DIGITS) (mag / 2 ^ 32)) as (tmp & E & Hd & Hne & Hk); [lia|lia|].
      rewrite hex_loop_base, E. cbn [rbind]. eexists. split; [done|].
      pose proof (Z.div_mod mag (2 ^ 32)) as Hdm. pose proof (Z.mod_pos_bound mag (2 ^ 32)).
      split; [|split].
      * replace mag with (mag / 2 ^ 32 * 16 ^ Z.of_nat 8 + mag mod 2 ^ 32) at 1
          by (change (16 ^ Z.of_nat 8) with (2 ^ 32); lia).
        apply hex_for_spec; [|done]. change (16 ^ Z.of_nat 8) with (2 ^ 32). lia.
      * by destruct tmp.
      * intros k Hk0 Hlt. rewrite length_app, hex_for_length. destruct (decide (k <= 8)%nat) as [Hk8|Hk8].
        { pose proof (Z.pow_le_mono_r 16 (Z.of_nat k) 8) as Hmono. change (16 ^ 8) with (2 ^ 32) in Hmono. lia. }
        enough (length tmp <= k - 8)%nat by lia. apply Hk; [lia|].
        apply Z.div_lt_upper_bound; [lia|]. change (2 ^ 32) with (16 ^ 8).
        rewrite <- Z.pow_add_r by lia. by replace (8 + Z.of_nat (k - 8)) with (Z.of_nat k) by lia.
    + rewrite dec_loop_base. apply base_digits; lia.
  - assert (n32 = mag /\ mag < 2 ^ 32) as [-> Hlt].
    { destruct (flag flags FLAG_64BIT); [|done]. destruct Hw as (-> & -> & ->). simpl in E64.
      apply negb_false_iff, bool_decide_eq_true in E64.
      pose proof (Z.div_mod mag (2 ^ 32)). pose proof (Z.mod_pos_bound mag (2 ^ 32)). lia. }
    destruct (flag flags FLAG_HEX); [rewrite hex_loop_base|rewrite dec_loop_base]; apply base_digits; lia.
Qed.

(** The text of a formatted number. *)
Definition number_text (v flags w : Z) (ds : list Z) : list Z :=
  let sgn := fmt_sign v flags in
  let pad c := replicate (Z.to_nat (w - length ds - length sgn)) c in
  if flag flags FLAG_ZERO then sgn ++ pad 48 ++ ds else pad 32 ++ sgn ++ ds.

Lemma fmt_sign_length v flags : (length (fmt_sign v flags) <= 1)%nat.
Proof. unfold fmt_sign. repeat case_match; simpl; lia. Qed.

Lemma int_sub2 w a b : - 2 ^ 31 <= w < 2 ^ 31 -> 0 <= a -> 0 <= b ->
  (let? d := int_sub w a in int_sub d b) = if decide (- 2 ^ 31 <= w - a - b) then Ok (w - a - b) else Fault.
Proof.
  intros Hw Ha Hb. unfold int_sub. destruct (decide (- 2 ^ 31 <= w - a < 2 ^ 31)); cbn [rbind].
  - destruct (decide (- 2 ^ 31 <= w - a - b)); [by rewrite decide_True by lia|by rewrite decide_False by lia].
  - by rewrite decide_False by lia.
Qed.

Lemma sprintf_int_spec num64 flags w : num_ok num64 flags -> - 2 ^ 31 <= w < 2 ^ 31 ->
  exists ds, printf_sprintf_int num64 flags w =
      (if decide (- 2 ^ 31 <= w - length ds - length (fmt_sign (fmt_value num64 flags) flags))
       then Ok (number_text (fmt_value num64 flags) flags w ds) else Fault) /\
    printf_sprintf_int num64 flags 0 = Ok (number_text (fmt_value num64 flags) flags 0 ds) /\
    ds <> [] /\ Forall (fun c => digit_ok (fmt_base flags) c /\ digit_case (flag flags FLAG_LARGE_DIGITS) c) ds /\
    digits_value (fmt_base flags) ds = Z.abs (fmt_value num64 flags) /\
    shortest (fmt_base flags) (Z.abs (fmt_value num64 flags)) ds.
Proof.
  intros Hn Hw0. destruct (printf_sign_spec num64 flags Hn) as (n64 & n32 & nh & sign & E & Hs & H0 & Hm & Hw).
  destruct (printf_digits_spec n64 n32 nh flags _ H0 Hm Hw) as (tmp & E' & [Hd Hv] & Hne & Hk).
  assert (forall w', - 2 ^ 31 <= w' < 2 ^ 31 -> printf_sprintf_int num64 flags w' =
    (if decide (- 2 ^ 31 <= w' - length (reverse tmp) - length (fmt_sign (fmt_value num64 flags) flags))
       then Ok (number_text (fmt_value num64 flags) flags w' (reverse tmp)) else Fault)) as Heq.
  { intros w' Hw'. unfold printf_sprintf_int. rewrite E, E'. cbn [rbind]. rewrite int_sub2 by lia. rewrite Hs.
    unfold number_text. rewrite length_reverse. clear Hs. case_decide; cbn [rbind]; [|done]. by destruct (flag flags FLAG_ZERO). }
  assert (length (reverse tmp) <= 64)%nat as Hlen.
  { rewrite length_reverse. apply Hk; [lia|]. unfold fmt_base.
    destruct (flag flags FLAG_HEX); [assert (2 ^ 64 < 16 ^ 64%nat) by (by vm_compute)|assert (2 ^ 64 < 10 ^ 64%nat) by (by vm_compute)]; lia. }
  exists (reverse tmp). split; [by apply Heq|]. split.
  { rewrite Heq by lia. rewrite decide_True; [done|]. pose proof (fmt_sign_length (fmt_value num64 flags) flags). lia. }
  split; [by intros ?%(f_equal reverse); rewrite reverse_involutive in *|].
  split; [by apply Forall_reverse|]. split; [done|]. intros k. rewrite length_reverse. apply Hk.
Qed.

Lemma number_text_length v flags w ds :
  Z.of_nat (length (number_text v flags w ds)) = Z.max w (length ds + length (fmt_sign v flags)).
Proof.
  unfold number_text. destruct (flag flags FLAG_ZERO); rewrite !length_app, length_replicate; lia.
Qed.

Lemma fmt_value_range num64 flags : num_ok num64 flags -> Z.abs (fmt_value num64 flags) < 2 ^ 64.
Proof.
  intros Hn. destruct (printf_sign_spec num64 flags Hn) as (? & ? & ? & ? & _ & _ & _ & Hm & _). lia.
Qed.

(** No number needs more than 21 characters: the sign and 20 digits. *)
Lemma digits_bound num64 flags ds : num_ok num64 flags ->
  shortest (fmt_base flags) (Z.abs (fmt_value num64 flags)) ds -> (length ds <= 20)%nat.
Proof.
  intros Hn Hs. apply Hs; [lia|]. pose proof (fmt_value_range num64 flags Hn).
  unfold fmt_base. destruct (flag flags FLAG_HEX).
  - change (16 ^ Z.of_nat 20) with (2 ^ 80). lia.
  - enough (2 ^ 64 < 10 ^ Z.of_nat 20) by lia. by vm_compute.
Qed.





Lemma digits_value_zeros b k ds : digits_value b (replicate k 48 ++ ds) = digits_value b ds.
Proof.
  induction k as [|k IH]; [done|]. cbn [replicate app]. unfold digits_value in *. cbn [foldl].
  exact IH.
Qed.

(** An unsigned 32-bit number printed in decimal or hexadecimal (either
    case, with zero padding to any width, as in the "p" conversion) is read
    back by [lib_strtoul] in that base. *)
Theorem sprintf_strtoul_roundtrip n flags w c rest :
  0 <= n < 2 ^ 32 -> - 2 ^ 31 + 21 <= w < 2 ^ 31 -> flag flags FLAG_SIGNED = false -> flag flags FLAG_64BIT = false ->
  flag flags FLAG_ZERO = true \/ w <= 0 -> stop_ok (fmt_base flags) c -> c <> 120 ->
  exists s, printf_sprintf_int n flags w = Ok s /\
    lib_strtoul (s ++ c :: rest) true (fmt_base flags) = Ok (n, Some (c :: rest)).
Proof.
  intros Hn Hrange Hs H64 Hpad Hc Hx.
  assert (num_ok n flags) as Hok by (unfold num_ok; by rewrite H64).
  destruct (sprintf_int_spec n flags w Hok) as (ds & E & _ & Hne & Hd & Hv & Hsh); [lia|]. apply Forall_and in Hd as [Hd _].
  pose proof (digits_bound n flags ds Hok Hsh). pose proof (fmt_sign_length (fmt_value n flags) flags). rewrite decide_True in E by lia.
  eexists. split; [exact E|].
  assert (Hval : fmt_value n flags = n) by (unfold fmt_value; by rewrite Hs).
  rewrite Hval in *. unfold number_text, fmt_sign. rewrite Hs. cbn [length].
  set (k := Z.to_nat _).
  assert (Ht : (if flag flags FLAG_ZERO then [] ++ replicate k 48 ++ ds else replicate k 32 ++ [] ++ ds)
          = replicate k 48 ++ ds).
  { destruct (flag flags FLAG_ZERO); [done|]. destruct Hpad as [?|Hw]; [done|].
    assert (k = 0%nat) as -> by (subst k; lia). done. }
  rewrite Ht, lib_strtoul_plain; try done.
  - rewrite digits_value_zeros, Hv, u32_small by lia. by rewrite Z.abs_eq by lia.
  - unfold fmt_base. by destruct (flag flags FLAG_HEX).
  - destruct ds; [done|]. by destruct k.
  - apply Forall_app. split; [|done]. apply Forall_replicate. unfold fmt_base.
    destruct (flag flags FLAG_HEX); by split.
Qed.

Lemma sprintf_strtoul_roundtrip_witness :
  exists s, printf_sprintf_int 0xbeef (FLAG_ZERO + FLAG_HEX) 8 = Ok s /\
    lib_strtoul (s ++ 0 :: []) true (fmt_base (FLAG_ZERO + FLAG_HEX)) = Ok (0xbeef, Some [0]).
Proof.
  apply sprintf_strtoul_roundtrip; try reflexivity; try lia.
  - left; reflexivity.
  - left; reflexivity.
Defined.



(** "%2147483648d": the width passes through [u32] to [int] and the padding
    overflows. *)
Example width_overflow : lib_vsprintf [37; 50; 49; 52; 55; 52; 56; 51; 54; 52; 56; 100; 0] [VInt 5] = Fault.
Proof. by vm_compute. Qed.

(** ** Equivalence of the two engines *)

Lemma put_chars_app a b k : put_chars (a ++ b) k = put_chars b (put_chars a k).
Proof. revert k. induction a; intros; simpl; auto. Qed.

Lemma s32_s32_add a b : s32 (s32 a + b) = s32 (a + b).
Proof.
  unfold s32, swrap. set (m := 2 ^ 32). set (h := 2 ^ (32 - 1)).
  replace ((a + h) mod m - h + b + h) with ((a + h) mod m + b) by lia.
  rewrite Zplus_mod_idemp_l. do 2 f_equal. lia.
Qed.

Lemma s32_idem a : s32 (s32 a) = s32 a.
Proof. pose proof (s32_s32_add a 0) as H. by rewrite !Z.add_0_r in H. Qed.

(** What the console shows of a stored text: NUL characters print nothing. *)
Definition shown (t : list Z) : list Z := filter (fun c => c <> 0) t.

Lemma put_chars_spec t k : cnt k = s32 (cnt k) ->
  put_chars t k = Console (put k ++ shown t) (s32 (cnt k + length t)).
Proof.
  revert k. induction t as [|c t IH]; intros [p n] Hn; cbn [put_chars length].
  - cbn in *. by rewrite app_nil_r, Z.add_0_r, <- Hn.
  - rewrite IH; cbn [counted lib_putch put cnt]; [|by rewrite s32_idem].
    rewrite <- app_assoc, s32_s32_add. replace (n + 1 + length t) with (n + S (length t)) by lia. do 2 f_equal. unfold shown. rewrite filter_cons. cbn [str_shown].
    destruct (decide (c = 0)); [by rewrite decide_False by tauto|by rewrite (decide_True (P := c <> 0))].
Qed.

Lemma counted_counted a b k : counted a (counted b k) = counted (b + a) k.
Proof. unfold counted. cbn. rewrite s32_s32_add. do 2 f_equal. lia. Qed.

Lemma putch_counted c a k : lib_putch c (counted a k) = counted a (lib_putch c k).
Proof. done. Qed.

(** Several [lib_putch] counted at once. *)
Lemma put_chars_counted t k : t <> [] -> put_chars t k = counted (length t) (foldl (fun k c => lib_putch c k) k t).
Proof.
  revert k. induction t as [|c t IH]; intros k Hne; [done|]. cbn [put_chars foldl length]. destruct t as [|d t]; [done|].
  rewrite IH by done.
  assert (forall l k, foldl (fun k c => lib_putch c k) (counted 1 k) l = counted 1 (foldl (fun k c => lib_putch c k) k l)) as Hf.
  { induction l as [|x l IHl]; intros k0; [done|]. cbn [foldl]. by rewrite putch_counted, IHl. }
  rewrite Hf, counted_counted. f_equal. cbn [length]. lia.
Qed.

(** Strings passed as arguments lie in the 32-bit address space. *)
Definition arg_ok (a : va_arg) : Prop :=
  match a with
  | VStr (Some s) => Z.of_nat (length s) < 2 ^ 32
  | _ => True
  end.

Lemma strlen_bound s n : Z.of_nat (length s) < 2 ^ 32 -> hal_strlen s = Ok n -> 0 <= n < length s.
Proof.
  revert n. induction s as [|c s IH]; intros n Hl E; cbn [hal_strlen length] in *; [done|].
  case_decide; res_inv; [lia|]. assert (0 <= x < length s) by (apply IH; [lia|done]).
  rewrite u32_small by lia. lia.
Qed.

(** Printing up to the NUL is printing the first [hal_strlen] characters. *)
Lemma put_str_strlen s k : Z.of_nat (length s) < 2 ^ 32 ->
  put_str s k = let? n := hal_strlen s in Ok (put_chars (take (Z.to_nat n) s) k).
Proof.
  revert k. induction s as [|c s IH]; intros k Hl; cbn [hal_strlen put_str length] in *; [done|].
  case_decide; [done|]. rewrite IH by lia. destruct (hal_strlen s) as [n| |] eqn:E; [|done..].
  cbn [rbind]. apply strlen_bound in E; [|lia]. rewrite u32_small by lia.
  replace (Z.to_nat (n + 1)) with (S (Z.to_nat n)) by lia. done.
Qed.

Lemma str_arg_len s : arg_ok (VStr s) -> Z.of_nat (length (default null_text s)) < 2 ^ 32.
Proof. by destruct s. Qed.

(** Arguments as [get_number] fetches them. *)
Lemma get_number_ok flags args n a : get_number flags args = Ok (n, a) -> num_ok n flags.
Proof.
  unfold get_number, num_ok. pose proof u32_range as H32. destruct args as [|[] ?]; try done; destruct (flag flags FLAG_64BIT); try done.
  - intros [= <- <-]. apply H32.
  - intros [= <- <-]. apply Z.mod_pos_bound. lia.
Qed.

Lemma s32_range z : - 2 ^ 31 <= s32 z < 2 ^ 31.
Proof. unfold s32, swrap. pose proof (Z.mod_pos_bound (z + 2 ^ (32 - 1)) (2 ^ 32)). change (2 ^ (32 - 1)) with (2 ^ 31) in *. lia. Qed.

(** A number is printed iff it can be formatted and its width is at most the
    buffer's. *)
Lemma put_number_iff number flags w k t : num_ok number flags -> - 2 ^ 31 <= w < 2 ^ 31 -> printf_sprintf_int number flags w = Ok t ->
  put_number number flags w k = if decide (w <= BUFF_SIZE) then Ok (put_chars t k) else Fault.
Proof.
  intros Hn Hw E. destruct (sprintf_int_spec number flags w Hn Hw) as (ds & E' & _ & _ & _ & _ & Hs).
  pose proof (digits_bound number flags ds Hn Hs). pose proof (fmt_sign_length (fmt_value number flags) flags).
  rewrite E' in E. case_decide; [|done]. injection E as <-. unfold put_number. rewrite E'. cbn [rbind]. rewrite number_text_length.
  unfold BUFF_SIZE. repeat case_decide; done || lia.
Qed.

(** Case analysis over the conversion letter and the argument list. *)
Ltac conv_cases :=
  repeat first
    [ progress cbn [rbind] in *
    | progress res_inv
    | match goal with
      | H : context [match ?x with _ => _ end] |- _ => 
          lazymatch type of x with res _ => fail | prod _ _ => destruct x | _ => destruct x eqn:? end
      end ].

(** The conversions whose width does not fit the buffer. *)
Definition conv_fits (fmt flags w : Z) : bool :=
  match number_flags fmt flags with Some _ => bool_decide (s32 w <= BUFF_SIZE) | None => true end.

Lemma printf_conv_vsprintf fmt flags w args k : Forall arg_ok args ->
  printf_conv fmt flags w args k =
    let? (t, a) := vsprintf_conv fmt flags w args in if conv_fits fmt flags w then Ok (put_chars t k, a) else Fault.
Proof.
  intros Ha. unfold printf_conv, vsprintf_conv, conv_fits.
  destruct (decide (fmt = 115)) as [->|_].
  { cbn. destruct args as [|[| |s|] args]; try done. inversion Ha as [|? ? Harg _]; subst. rewrite put_str_strlen by (by apply str_arg_len).
    by destruct (hal_strlen (default null_text s)). }
  destruct (decide (fmt = 99)) as [->|_]. { cbn. by destruct args as [|[] args]. }
  destruct (number_flags fmt flags) as [fl|].
  - destruct (get_number fl args) as [[n a]| |] eqn:Eg; [|done..]. cbn [rbind].
    destruct (printf_sprintf_int n fl (s32 w)) as [t| |] eqn:Et; cbn [rbind]; [|unfold put_number; by rewrite Et..].
    rewrite (put_number_iff n fl (s32 w) k t (get_number_ok _ _ _ _ Eg) (s32_range w) Et). case_decide; by case_bool_decide.
  - destruct (decide (fmt = 112)).
    + destruct args as [|[| | |s] args]; try done. destruct (decide (s = 0)); [cbn [rbind]; by rewrite put_chars_counted|].
      set (fl := Z.lor flags _).
      destruct (printf_sprintf_int (u32 s) fl 8) as [t| |] eqn:Et; cbn [rbind]; [|unfold put_number; by rewrite Et..].
      rewrite (put_number_iff (u32 s) fl 8 k t); [done| |done|done]. unfold num_ok. pose proof (u32_range s). destruct (flag fl FLAG_64BIT); lia.
    + destruct (decide (fmt = c_percent)); [done|]. cbn [rbind]. by rewrite put_chars_counted.
Qed.

Lemma get_number_suffix flags args n a : get_number flags args = Ok (n, a) -> exists x, args = x :: a.
Proof. unfold get_number. intros. conv_cases; simplify_eq; eauto. Qed.

(** A conversion consumes at most one argument. *)
Lemma vsprintf_conv_args fmt flags w args t a :
  vsprintf_conv fmt flags w args = Ok (t, a) -> a = args \/ exists x, args = x :: a.
Proof.
  unfold vsprintf_conv. intros. conv_cases; simplify_eq; eauto. right. by eapply get_number_suffix.
Qed.

Lemma vsprintf_conv_args_ok fmt flags w args t a :
  vsprintf_conv fmt flags w args = Ok (t, a) -> Forall arg_ok args -> Forall arg_ok a.
Proof. intros [->|[x ->]]%vsprintf_conv_args; [done|]. by inversion 1. Qed.

(** Every conversion of the format has a width that fits the buffer, as far as
    the format is read. *)
Fixpoint widths_fit (fuel : nat) (format : list Z) : bool :=
  match fuel, format with
  | S fuel, fmt :: format =>
      if decide (fmt = 0) then true
      else if decide (fmt <> c_percent) then widths_fit fuel format
      else match next_char format with
           | Ok (Some (fmt, format)) =>
               match parse_spec fmt format with
               | Ok (Some (fmt, format, flags, w)) => conv_fits fmt flags w && widths_fit fuel format
               | _ => true
               end
           | _ => true
           end
  | _, _ => true
  end.

Lemma printf_loop_vsprintf fuel format args k0 out k :
  Forall arg_ok args -> printf_loop fuel format args (put_chars out k0) = Ok k <->
  exists t, vsprintf_loop fuel format args out = Ok t /\ k = put_chars t k0 /\ widths_fit fuel format = true.
Proof.
  revert format args out. induction fuel as [|fuel IH]; intros format args out Ha; [split; [done|by intros (? & ? & _)]|].
  cbn [printf_loop vsprintf_loop widths_fit]. destruct format as [|c format]; [split; [done|by intros (? & ? & _)]|].
  assert (forall o k, Ok (put_chars o k0) = Ok k <-> exists t, Ok o = Ok t /\ k = put_chars t k0 /\ true = true) as Hend by naive_solver.
  assert (Hp : forall x, counted 1 (lib_putch x (put_chars out k0)) = put_chars (out ++ [x]) k0)
    by (intros; by rewrite put_chars_app).
  case_decide; [apply Hend|]. case_decide. { rewrite Hp. by apply IH. }
  destruct (next_char format) as [[[c' format']|]| |]; cbn [rbind]; [|rewrite Hp; apply Hend|split; [done|by intros (? & ? & _)]..].
  destruct (parse_spec c' format') as [[[[[c'' format''] flags] w]|]| |]; cbn [rbind]; [|apply Hend|split; [done|by intros (? & ? & _)]..].
  rewrite printf_conv_vsprintf by done.
  destruct (vsprintf_conv c'' flags w args) as [[t a]| |] eqn:Ec; cbn [rbind]; [|split; [done|by intros (? & ? & _)]..].
  destruct (conv_fits c'' flags w); cbn [andb rbind]; [|split; [done|by intros (? & ? & ? & ?)]].
  rewrite <- put_chars_app. apply IH. by eapply vsprintf_conv_args_ok.
Qed.

(** C22: the two [printf] engines agree.  [lib_printf] prints a text and returns
    a count exactly when [lib_vsprintf] stores a text and returns that count for
    the same format and arguments, and every number conversion that the format
    asks for has a minimum width of at most 24 (the local buffer); what appears
    on the console is the stored text without its NUL characters (those of "%c"
    conversions of 0). *)
Theorem printf_engines_agree format args s n : Forall arg_ok args ->
  lib_printf format args = Ok (s, n) <->
  exists t, lib_vsprintf format args = Ok (t ++ [0], n) /\ s = shown t /\ widths_fit (S (length format)) format = true.
Proof.
  intros Ha. unfold lib_printf, lib_vsprintf.
  pose proof (fun k => printf_loop_vsprintf (S (length format)) format args (Console [] 0) [] k Ha) as Hl. cbn [put_chars] in Hl. split.
  - intros E. apply rbind_inv in E as (k & Ek & E). apply Hl in Ek as (t & -> & -> & Hf). cbn [rbind].
    rewrite put_chars_spec in E by done. injection E as <- <-. by exists t.
  - intros (t & E & -> & Hf). apply rbind_inv in E as (t' & Et & E). injection E as Eo <-. apply app_inj_tail in Eo as [-> _].
    assert (printf_loop (S (length format)) format args (Console [] 0) = Ok (put_chars t (Console [] 0))) as -> by (apply Hl; eauto).
    cbn [rbind]. by rewrite put_chars_spec.
Qed.

(** "a=%04x %s%c" with the character 0 *)
Lemma printf_engines_agree_witness :
  let format := [97; 61; 37; 48; 52; 120; 32; 37; 115; 37; 99; 0] in
  let args := [VInt 0xbe; VStr (Some [104; 105; 0]); VInt 0] in
  lib_printf format args = Ok ([97; 61; 48; 48; 98; 101; 32; 104; 105], 10).
Proof.
  cbv zeta. apply printf_engines_agree; [repeat constructor|].
  exists [97; 61; 48; 48; 98; 101; 32; 104; 105; 0]. split_and!; by vm_compute.
Defined.

End Printf.
