(* ===== verification/Rb.v ===== *)
(** * Red-black trees: the code (src/lib/rb.c, src/lib/rb.h)

    The intrusive red-black tree of the kernel, assignment by assignment, on a
    heap of nodes.  The mirrored halves of the C code are written once, over a
    side: [rb_rotateLeft] and [rb_rotateRight] are the two instances of
    [rotate], and the two branches of the balancing loops are the two instances
    of their bodies.  The [compare] callback is a function of the two nodes (the
    keys of linked nodes do not change); the optional [augment] callback reads
    the links and changes only the data [ext] its owner keeps beside them. *)

From S2P Require Import Prelude.

Inductive side := L | R.
#[export] Instance side_eq_dec : EqDecision side.
Proof. solve_decision. Defined.
Definition opp (s : side) : side := match s with L => R | R => L end.

Inductive rbcolor := RB_RED | RB_BLACK.
#[export] Instance rbcolor_eq_dec : EqDecision rbcolor.
Proof. solve_decision. Defined.

Record rbnode := RbNode { parent : ptr; left : ptr; right : ptr; color : rbcolor }.

Definition child (s : side) (n : rbnode) : ptr := match s with L => left n | R => right n end.
Definition set_child (s : side) (q : ptr) (n : rbnode) : rbnode :=
  match s with
  | L => RbNode (parent n) q (right n) (color n)
  | R => RbNode (parent n) (left n) q (color n)
  end.
Definition set_parent (q : ptr) (n : rbnode) : rbnode := RbNode q (left n) (right n) (color n).
Definition set_color (c : rbcolor) (n : rbnode) : rbnode := RbNode (parent n) (left n) (right n) c.

Record rbtree (E : Type) := RbTree { root : ptr; nodes : gmap loc rbnode; ext : E }.
Arguments RbTree {E}.
Arguments root {E}.
Arguments nodes {E}.
Arguments ext {E}.

Section Model.
Context {E : Type}.
Variable compare : loc -> loc -> Z.
Variable augment : option (gmap loc rbnode -> loc -> E -> E).
Implicit Type st : rbtree E.

(** [p->field] and [p->field = v]. *)
Definition rd st (p : ptr) : res rbnode :=
  match p with
  | None => Fault
  | Some l => deref (nodes st !! l)
  end.
Definition wr st (p : ptr) (f : rbnode -> rbnode) : res (rbtree E) :=
  match p with
  | None => Fault
  | Some l => let? n := deref (nodes st !! l) in Ok (RbTree (root st) (<[l := f n]> (nodes st)) (ext st))
  end.
Definition set_root st (q : ptr) : rbtree E := RbTree q (nodes st) (ext st).

Definition lib_rbInit st : rbtree E := set_root st NULL.

Definition rb_augment st (node : ptr) : rbtree E :=
  match node, augment with
  | Some l, Some f => RbTree (root st) (nodes st) (f (nodes st) l (ext st))
  | _, _ => st
  end.

(** [rb_rotateLeft] is [rotate L], [rb_rotateRight] is [rotate R]. *)
Definition rotate (s : side) st (x : ptr) : res (rbtree E) :=
  let? nx := rd st x in
  let y := child (opp s) nx in
  let? ny := rd st y in
  let? st := wr st x (set_child (opp s) (child s ny)) in
  let? st := (match child s ny with
              | None => Ok st
              | Some _ => wr st (child s ny) (set_parent x)
              end) in
  let? nx := rd st x in
  let? st := wr st y (set_parent (parent nx)) in
  let? nx := rd st x in
  let? st := (match parent nx with
              | None => Ok (set_root st y)
              | Some _ =>
                  let? np := rd st (parent nx) in
                  if decide (x = child s np) then wr st (parent nx) (set_child s y)
                  else wr st (parent nx) (set_child (opp s) y)
              end) in
  let? st := wr st y (set_child s x) in
  let? st := wr st x (set_parent y) in
  let? ny := rd st y in
  let st := rb_augment st (left ny) in
  let? ny := rd st y in
  Ok (rb_augment st (right ny)).

Definition rb_rotateLeft := rotate L.
Definition rb_rotateRight := rotate R.

(** [y != NULL && y->color == RB_RED] *)
Definition is_red st (y : ptr) : res bool :=
  match y with
  | None => Ok false
  | Some _ => let? n := rd st y in Ok (bool_decide (color n = RB_RED))
  end.

(** One half of the loop body of [lib_rbInsertBalance]: the parent of [z] is
    the [s] child of the grandparent.  The result is the next [z]. *)
Definition insert_body (s : side) st (z : ptr) : res (rbtree E * ptr) :=
  let? nz := rd st z in
  let? np := rd st (parent nz) in
  let? ng := rd st (parent np) in
  let y := child (opp s) ng in
  let? red := is_red st y in
  if red then
    let? st := wr st (parent nz) (set_color RB_BLACK) in
    let? st := wr st y (set_color RB_BLACK) in
    let? st := wr st (parent np) (set_color RB_RED) in
    Ok (st, parent np)
  else if decide (z = child (opp s) np) then
    let z := parent nz in
    let? st := rotate s st z in
    Ok (st, z)
  else
    let? st := wr st (parent nz) (set_color RB_BLACK) in
    let? st := wr st (parent np) (set_color RB_RED) in
    let? st := rotate (opp s) st (parent np) in
    Ok (st, z).

Fixpoint insert_loop (fuel : nat) st (z : ptr) : res (rbtree E) :=
  match fuel with
  | O => NoFuel
  | S fuel =>
      let? nz := rd st z in
      match parent nz with
      | None => Ok st
      | Some _ =>
          let? np := rd st (parent nz) in
          if decide (color np = RB_RED) then
            let? ng := rd st (parent np) in
            let s := if decide (parent nz = left ng) then L else R in
            let? (st, z) := insert_body s st z in
            insert_loop fuel st z
          else Ok st
      end
  end.

(** Every loop of the tree code runs along a path of the tree. *)
Definition path_fuel st : nat := 5 + size (nodes st).

Definition lib_rbInsertBalance st (node : ptr) : res (rbtree E) :=
  let? st := insert_loop (path_fuel st) st node in
  wr st (root st) (set_color RB_BLACK).

(** [lib_rbRemoveBalance] works on a node of the tree or on its local [nil],
    whose only links are its [parent]. *)
Inductive rbref := Nil (par : ptr) | Real (l : loc).

Definition ref_parent st (x : rbref) : res ptr :=
  match x with
  | Nil par => Ok par
  | Real l => let? n := rd st (Some l) in Ok (parent n)
  end.
Definition ref_black st (x : rbref) : res bool :=
  match x with
  | Nil _ => Ok true
  | Real l => let? n := rd st (Some l) in Ok (bool_decide (color n = RB_BLACK))
  end.
(** [x == q] for a link [q] of the tree. *)
Definition ref_eq (x : rbref) (q : ptr) : bool :=
  match x with
  | Nil _ => false
  | Real l => bool_decide (q = Some l)
  end.
Definition is_nil (x : rbref) : bool := match x with Nil _ => true | Real _ => false end.
(** A node pointer the code assigns to [x]; [x->...] faults on NULL. *)
Definition to_ref (q : ptr) : res rbref :=
  match q with
  | None => Fault
  | Some l => Ok (Real l)
  end.

(** [w == NULL || w->color == RB_BLACK] *)
Definition is_black st (w : ptr) : res bool := let? r := is_red st w in Ok (negb r).

(** The second half of the loop body of [lib_rbRemoveBalance]: the sibling [w]
    is black. *)
Definition remove_black (s : side) st (x : rbref) (w : ptr) : res (rbtree E * rbref) :=
  let? nw := rd st w in
  let? bn := is_black st (child s nw) in
  let? bf := is_black st (child (opp s) nw) in
  if bn && bf then
    let? st := wr st w (set_color RB_RED) in
    let? p := ref_parent st x in
    let? x := to_ref p in
    Ok (st, x)
  else if bf then
    let? st := wr st (child s nw) (set_color RB_BLACK) in
    let? st := wr st w (set_color RB_RED) in
    let? st := rotate (opp s) st w in
    Ok (st, x)
  else
    let? p := ref_parent st x in
    let? np := rd st p in
    let? st := wr st w (set_color (color np)) in
    let? st := wr st p (set_color RB_BLACK) in
    let? nw := rd st w in
    let? st := wr st (child (opp s) nw) (set_color RB_BLACK) in
    let? st := rotate s st p in
    let? x := to_ref (root st) in
    Ok (st, x).

(** The loop body: [x] is the [s] child of its parent. *)
Definition remove_body (s : side) st (x : rbref) : res (rbtree E * rbref) :=
  let? p := ref_parent st x in
  let? np := rd st p in
  let w := child (opp s) np in
  let? nw := rd st w in
  if decide (color nw = RB_RED) then
    let? st := wr st w (set_color RB_BLACK) in
    let? st := wr st p (set_color RB_RED) in
    let? st := rotate s st p in
    let? p := ref_parent st x in
    let? np := rd st p in
    remove_black s st x (child (opp s) np)
  else remove_black s st x w.

Fixpoint remove_loop (fuel : nat) st (x : rbref) : res (rbtree E * rbref) :=
  match fuel with
  | O => NoFuel
  | S fuel =>
      if ref_eq x (root st) then Ok (st, x)
      else
        let? black := ref_black st x in
        if black then
          let? p := ref_parent st x in
          let? np := rd st p in
          let s := if ref_eq x (left np) || (is_nil x && bool_decide (left np = NULL)) then L else R in
          let? (st, x) := remove_body s st x in
          remove_loop fuel st x
        else Ok (st, x)
  end.

Definition lib_rbRemoveBalance st (par : ptr) (node : ptr) : res (rbtree E) :=
  let x := match node with None => Nil par | Some l => Real l end in
  match root st with
  | None => Ok st
  | Some _ =>
      let? (st, x) := remove_loop (path_fuel st) st x in
      match x with
      | Nil _ => Ok st
      | Real l => wr st (Some l) (set_color RB_BLACK)
      end
  end.

Definition rb_transplant st (u v : ptr) : res (rbtree E) :=
  let? nu := rd st u in
  let? st := (match parent nu with
              | Some _ =>
                  let? np := rd st (parent nu) in
                  let? st := (if decide (u = left np) then wr st (parent nu) (set_child L v)
                              else wr st (parent nu) (set_child R v)) in
                  let? nu := rd st u in
                  Ok (rb_augment st (parent nu))
              | None => Ok (set_root st v)
              end) in
  let? st := (match v with
              | None => Ok st
              | Some _ => let? nu := rd st u in wr st v (set_parent (parent nu))
              end) in
  Ok (rb_augment st v).

(** The descent of [lib_rbInsert]: the last node [y] and the last comparison;
    [None] when an equal node is found. *)
Fixpoint insert_descend (fuel : nat) st (z : loc) (x y : ptr) (c : Z) : res (option (ptr * Z)) :=
  match fuel with
  | O => NoFuel
  | S fuel =>
      match x with
      | None => Ok (Some (y, c))
      | Some l =>
          let c := compare l z in
          if decide (c = 0) then Ok None
          else
            let? n := rd st x in
            insert_descend fuel st z (if decide (c > 0) then left n else right n) x c
      end
  end.

(** The linking part of [lib_rbInsert]. *)
Definition insert_link st (z : loc) (y : ptr) (c : Z) : res (rbtree E) :=
  let? st := wr st (Some z) (set_parent y) in
  let? st := (match y with
              | None => Ok (set_root st (Some z))
              | Some _ =>
                  if decide (c > 0) then wr st y (set_child L (Some z))
                  else wr st y (set_child R (Some z))
              end) in
  let? st := wr st (Some z) (set_child L NULL) in
  let? st := wr st (Some z) (set_child R NULL) in
  let? st := wr st (Some z) (set_color RB_RED) in
  Ok (rb_augment st (Some z)).

Definition lib_rbInsert st (z : loc) : res (rbtree E * Z) :=
  let? d := insert_descend (path_fuel st) st z (root st) NULL 0 in
  match d with
  | None => Ok (st, - EEXIST)
  | Some (y, c) =>
      let? st := insert_link st z y c in
      let? st := lib_rbInsertBalance st (Some z) in
      Ok (st, EOK)
  end.

(** [while (x->left != NULL) x = x->left;] and its mirror image. *)
Fixpoint extreme_loop (s : side) (fuel : nat) st (x : ptr) : res ptr :=
  match fuel with
  | O => NoFuel
  | S fuel =>
      let? n := rd st x in
      match child s n with
      | None => Ok x
      | Some _ => extreme_loop s fuel st (child s n)
      end
  end.

Definition extreme (s : side) st (node : ptr) : res ptr :=
  match node with
  | None => Ok NULL
  | Some _ => extreme_loop s (path_fuel st) st node
  end.
Definition lib_rbMinimum := extreme L.
Definition lib_rbMaximum := extreme R.

(** [lib_rbRemove], two children: unlink the successor [y] from deep in the
    right subtree of [z] and hang that subtree under [y]. *)
Definition remove_cut st (z : loc) (y yright : ptr) : res (rbtree E) :=
  let? st := rb_transplant st y yright in
  let? nz := rd st (Some z) in
  let? st := wr st y (set_child R (right nz)) in
  let? ny := rd st y in
  wr st (right ny) (set_parent y).

(** Put [y] in the place of [z]. *)
Definition remove_swap st (z : loc) (y : ptr) : res (rbtree E) :=
  let? st := rb_transplant st (Some z) y in
  let? nz := rd st (Some z) in
  let? st := wr st y (set_child L (left nz)) in
  let? ny := rd st y in
  let? st := wr st (left ny) (set_parent y) in
  let? nz := rd st (Some z) in
  wr st y (set_color (color nz)).

(** Augment at the neighbours of the new position of [y]. *)
Definition remove_augment st (y : ptr) : res (rbtree E) :=
  let? ny := rd st y in
  let? t := lib_rbMaximum st (left ny) in
  let st := rb_augment st t in
  let? ny := rd st y in
  let? t := lib_rbMinimum st (right ny) in
  Ok (rb_augment st t).

Definition lib_rbRemove st (z : loc) : res (rbtree E) :=
  let? nz := rd st (Some z) in
  match left nz with
  | None =>
      let? st' := rb_transplant st (Some z) (right nz) in
      if decide (color nz = RB_BLACK) then lib_rbRemoveBalance st' (parent nz) (right nz) else Ok st'
  | Some _ =>
      match right nz with
      | None =>
          let? st' := rb_transplant st (Some z) (left nz) in
          if decide (color nz = RB_BLACK) then lib_rbRemoveBalance st' (parent nz) (left nz) else Ok st'
      | Some _ =>
          let? y := lib_rbMinimum st (right nz) in
          let? ny := rd st y in
          let c := color ny in
          let x := right ny in
          let? (st, p) :=
            (if decide (parent ny = Some z) then Ok (st, y)
             else let? st := remove_cut st z y (right ny) in Ok (st, parent ny)) in
          let? st := remove_swap st z y in
          let? st := remove_augment st y in
          if decide (c = RB_BLACK) then lib_rbRemoveBalance st p x else Ok st
      end
  end.

(** [while (x->parent != NULL && x == x->parent->left) x = x->parent;] and its
    mirror image, with the final [x->parent]. *)
Fixpoint climb_loop (s : side) (fuel : nat) st (x : ptr) : res ptr :=
  match fuel with
  | O => NoFuel
  | S fuel =>
      let? n := rd st x in
      match parent n with
      | None => Ok NULL
      | Some _ =>
          let? np := rd st (parent n) in
          if decide (x = child s np) then climb_loop s fuel st (parent n) else Ok (parent n)
      end
  end.

(** The neighbour on side [s]: [lib_rbPrev] for [L], [lib_rbNext] for [R]. *)
Definition neighbour (s : side) st (node : ptr) : res ptr :=
  let? n := rd st node in
  match child s n with
  | Some _ => extreme (opp s) st (child s n)
  | None => climb_loop s (path_fuel st) st node
  end.
Definition lib_rbPrev := neighbour L.
Definition lib_rbNext := neighbour R.

(** [lib_rbFindEx] takes its own comparison, [probe l] being
    [compare(l, node)]. *)
Fixpoint find_loop (fuel : nat) st (probe : loc -> Z) (it : ptr) : res ptr :=
  match fuel with
  | O => NoFuel
  | S fuel =>
      match it with
      | None => Ok NULL
      | Some l =>
          let c := probe l in
          if decide (c = 0) then Ok it
          else
            let? n := rd st it in
            find_loop fuel st probe (if decide (c > 0) then left n else right n)
      end
  end.

Definition lib_rbFindEx st (root : ptr) (probe : loc -> Z) : res ptr :=
  find_loop (path_fuel st) st probe root.
Definition lib_rbFind st (node : loc) : res ptr := lib_rbFindEx st (root st) (fun l => compare l node).

End Model.
