(* ===== verification/RbShape.v ===== *)
(** * Red-black trees: trees in the heap

    The mathematical tree a heap of nodes represents ([Rep]), positions in it as
    zippers ([path], [plug]), and the lemmas that say what the assignments,
    rotations and transplants of [Rb] do to the represented tree.  Everything
    after this file reasons about trees and paths only. *)

From S2P Require Import Prelude Rb.

(** ** Trees and positions *)
Inductive tree := Lf | Nd (c : rbcolor) (l : tree) (x : loc) (r : tree).

(** [nd s c a x b]: the node whose [s] child is [a]. *)
Definition nd (s : side) (c : rbcolor) (a : tree) (x : loc) (b : tree) : tree :=
  match s with L => Nd c a x b | R => Nd c b x a end.

Definition rootp (t : tree) : ptr := match t with Lf => NULL | Nd _ _ x _ => Some x end.

(** The members in order. *)
Fixpoint locs (t : tree) : list loc :=
  match t with
  | Lf => []
  | Nd _ l x r => locs l ++ x :: locs r
  end.

Record frame := Frame { fside : side; fcolor : rbcolor; floc : loc; fsib : tree }.
Abbreviation path := (list frame).

Definition fill (f : frame) (t : tree) : tree := nd (fside f) (fcolor f) t (floc f) (fsib f).
Definition plug (p : path) (t : tree) : tree := foldl (fun t f => fill f t) t p.

Definition pparent (p : path) : ptr := match p with [] => NULL | f :: _ => Some (floc f) end.

(** Members before and after the hole. *)
Fixpoint pre (p : path) : list loc :=
  match p with
  | [] => []
  | Frame L _ _ _ :: p => pre p
  | Frame R _ x sib :: p => pre p ++ locs sib ++ [x]
  end.
Fixpoint post (p : path) : list loc :=
  match p with
  | [] => []
  | Frame L _ x sib :: p => x :: locs sib ++ post p
  | Frame R _ _ _ :: p => post p
  end.

Lemma plug_cons f p t : plug (f :: p) t = plug p (fill f t).
Proof. reflexivity. Qed.

Lemma plug_app p q t : plug (p ++ q) t = plug q (plug p t).
Proof. unfold plug. by rewrite foldl_app. Qed.

Lemma locs_plug p t : locs (plug p t) = pre p ++ locs t ++ post p.
Proof.
  revert t. induction p as [|[s c x sib] p IH]; intros t; [simpl; by rewrite app_nil_r|].
  rewrite plug_cons, IH. destruct s; simpl; by simplify_list_eq.
Qed.

Lemma rootp_plug p t t' : rootp t = rootp t' -> rootp (plug p t) = rootp (plug p t').
Proof.
  revert t t'. induction p as [|[s c x sib] p IH]; intros t t' E; [done|].
  rewrite !plug_cons. apply IH. by destruct s.
Qed.

(** The locations of a path, apart from their order. *)
Fixpoint plocs (p : path) : list loc :=
  match p with
  | [] => []
  | f :: p => floc f :: locs (fsib f) ++ plocs p
  end.

Lemma plocs_pre_post p : pre p ++ post p ≡ₚ plocs p.
Proof.
  induction p as [|[s c x sib] p IH]; [done|]. destruct s; simpl; rewrite <- IH; solve_Permutation.
Qed.

Lemma locs_plug_perm p t : locs (plug p t) ≡ₚ plocs p ++ locs t.
Proof. rewrite locs_plug, <- plocs_pre_post. solve_Permutation. Qed.

Lemma locs_nd_perm s c a x b : locs (nd s c a x b) ≡ₚ x :: locs a ++ locs b.
Proof. destruct s; simpl; solve_Permutation. Qed.

(** ** Representation *)
Fixpoint rep (h : gmap loc rbnode) (par : ptr) (t : tree) : Prop :=
  match t with
  | Lf => True
  | Nd c l x r => h !! x = Some (RbNode par (rootp l) (rootp r) c) /\ rep h (Some x) l /\ rep h (Some x) r
  end.

(** A node whose [s] child is [a]. *)
Definition mkn (s : side) (par a b : ptr) (c : rbcolor) : rbnode :=
  match s with L => RbNode par a b c | R => RbNode par b a c end.

(** The frames around a hole whose root pointer is [q]. *)
Fixpoint rep_path (h : gmap loc rbnode) (p : path) (q : ptr) : Prop :=
  match p with
  | [] => True
  | f :: p =>
      h !! floc f = Some (mkn (fside f) (pparent p) q (rootp (fsib f)) (fcolor f)) /\
      rep h (Some (floc f)) (fsib f) /\ rep_path h p (Some (floc f))
  end.

(** The root pointer of a plugged tree. *)
Fixpoint proot (p : path) (q : ptr) : ptr :=
  match p with
  | [] => q
  | f :: p => proot p (Some (floc f))
  end.

Lemma rootp_plug_eq p t : rootp (plug p t) = proot p (rootp t).
Proof.
  revert t. induction p as [|[s c x sib] p IH]; intros t; [done|]. rewrite plug_cons, IH. by destruct s.
Qed.

Lemma rep_nd h par s c a x b :
  rep h par (nd s c a x b) <->
  h !! x = Some (mkn s par (rootp a) (rootp b) c) /\ rep h (Some x) a /\ rep h (Some x) b.
Proof. destruct s; simpl; naive_solver. Qed.

Lemma rep_plug h p t : rep h NULL (plug p t) <-> rep_path h p (rootp t) /\ rep h (pparent p) t.
Proof.
  revert t. induction p as [|[s c x sib] p IH]; intros t; [simpl; tauto|].
  rewrite plug_cons, IH. unfold fill. cbn [fside fcolor floc fsib]. rewrite rep_nd. simpl.
  assert (rootp (nd s c t x sib) = Some x) as -> by (by destruct s). tauto.
Qed.

Lemma rootp_nd s c a x b : rootp (nd s c a x b) = Some x.
Proof. by destruct s. Qed.

(** [Rep h0 st T]: the state represents [T], and the nodes outside it are those
    of [h0]. *)
Record Rep {E} (h0 : gmap loc rbnode) (st : rbtree E) (T : tree) : Prop := {
  Rep_root : root st = rootp T;
  Rep_rep : rep (nodes st) NULL T;
  Rep_nodup : NoDup (locs T);
  Rep_frame : forall l, l ∉ locs T -> nodes st !! l = h0 !! l;
}.

Lemma rep_frame h h' par t : (forall l, l ∈ locs t -> h' !! l = h !! l) -> rep h par t -> rep h' par t.
Proof.
  revert par. induction t as [|c l IHl x r IHr]; intros par Hf; [done|]. simpl in *.
  intros (Hx & Hl & Hr). rewrite Hf by set_solver.
  split; [done|]. split; [apply IHl|apply IHr]; auto; intros; apply Hf; set_solver.
Qed.

Lemma rep_path_frame h h' p q : (forall l, l ∈ plocs p -> h' !! l = h !! l) -> rep_path h p q -> rep_path h' p q.
Proof.
  revert q. induction p as [|[s c x sib] p IH]; intros q Hf; [done|]. simpl in *.
  intros (Hx & Hs & Hp). rewrite Hf by set_solver. split; [done|].
  split; [eapply rep_frame; [|done]|apply IH; [|done]]; intros; apply Hf; set_solver.
Qed.

(** Moving a subtree under another parent. *)
Definition reparent (t : tree) (q : ptr) (h : gmap loc rbnode) : gmap loc rbnode :=
  match t with
  | Lf => h
  | Nd _ _ x _ => alter (set_parent q) x h
  end.

Lemma rep_reparent h h' par q t : NoDup (locs t) ->
  (forall l, l ∈ locs t -> h' !! l = reparent t q h !! l) -> rep h par t -> rep h' q t.
Proof.
  destruct t as [|c l x r]; [done|]. simpl. intros Hnd Hf (Hx & Hl & Hr).
  apply NoDup_app in Hnd as (Hnl & Hlr & [Hxr Hnr]%NoDup_cons).
  split; [|split].
  - rewrite Hf by set_solver. by rewrite lookup_alter_eq, Hx.
  - eapply rep_frame; [|done]. intros l' Hl'. rewrite Hf by set_solver.
    apply lookup_alter_ne. intros ->. set_solver.
  - eapply rep_frame; [|done]. intros l' Hl'. rewrite Hf by set_solver.
    apply lookup_alter_ne. intros ->. set_solver.
Qed.

(** Giving the hole of a path another content. *)
Definition relink (p : path) (q : ptr) (h : gmap loc rbnode) : gmap loc rbnode :=
  match p with
  | [] => h
  | f :: _ => alter (set_child (fside f) q) (floc f) h
  end.

Lemma rep_path_relink h h' p q q' : NoDup (plocs p) ->
  (forall l, l ∈ plocs p -> h' !! l = relink p q' h !! l) -> rep_path h p q -> rep_path h' p q'.
Proof.
  destruct p as [|[s c x sib] p]; [done|]. simpl. intros [Hx Hnd]%NoDup_cons Hf (Hl & Hs & Hp).
  split; [|split].
  - rewrite Hf by set_solver. rewrite lookup_alter_eq, Hl. by destruct s.
  - eapply rep_frame; [|done]. intros l Hl'. rewrite Hf by set_solver.
    apply lookup_alter_ne. intros ->. set_solver.
  - eapply rep_path_frame; [|done]. intros l Hl'. rewrite Hf by set_solver.
    apply lookup_alter_ne. intros ->. set_solver.
Qed.

(** ** Assignments as updates of the heap *)

Section Heap.
Context {E : Type} (augment : option (gmap loc rbnode -> loc -> E -> E)).
Implicit Type st : rbtree E.

Lemma alter_insert_lookup (f : rbnode -> rbnode) l (h : gmap loc rbnode) n :
  h !! l = Some n -> <[l := f n]> h = alter f l h.
Proof.
  intros Hl. apply map_eq. intros k. destruct (decide (k = l)) as [->|Hne].
  - by rewrite lookup_insert_eq, lookup_alter_eq, Hl.
  - by rewrite lookup_insert_ne, lookup_alter_ne by done.
Qed.

Lemma rd_ok st l n : nodes st !! l = Some n -> rd st (Some l) = Ok n.
Proof. unfold rd. by intros ->. Qed.

Lemma wr_ok st l n f : nodes st !! l = Some n ->
  wr st (Some l) f = Ok (RbTree (root st) (alter f l (nodes st)) (ext st)).
Proof. intros Hl. unfold wr. rewrite Hl. simpl. by rewrite (alter_insert_lookup _ _ _ _ Hl). Qed.

(** Augmentation does not touch the links. *)
Lemma augment_root st q : root (rb_augment augment st q) = root st.
Proof. by destruct q, augment. Qed.
Lemma augment_nodes st q : nodes (rb_augment augment st q) = nodes st.
Proof. by destruct q, augment. Qed.

Lemma Rep_augment h0 st q T : Rep h0 st T -> Rep h0 (rb_augment augment st q) T.
Proof. intros [? ? ? ?]. by split; rewrite ?augment_root, ?augment_nodes. Qed.

Lemma relink_ne p q h l : l ∉ plocs p -> relink p q h !! l = h !! l.
Proof. destruct p as [|[s c x sib] p]; simpl; [done|]. intros. apply lookup_alter_ne. set_solver. Qed.
Lemma reparent_ne t q h l : l ∉ locs t -> reparent t q h !! l = h !! l.
Proof. destruct t as [|c a x b]; simpl; [done|]. intros. apply lookup_alter_ne. set_solver. Qed.
Lemma relink_cong p q (h h' : gmap loc rbnode) (l : loc) : h !! l = h' !! l -> relink p q h !! l = relink p q h' !! l.
Proof.
  destruct p as [|[s c x sib] p]; simpl; [done|]. intros E'.
  destruct (decide (x = l)) as [->|]; rewrite ?lookup_alter_eq, ?lookup_alter_ne by done; by rewrite E'.
Qed.
Lemma reparent_cong t q (h h' : gmap loc rbnode) (l : loc) : h !! l = h' !! l -> reparent t q h !! l = reparent t q h' !! l.
Proof.
  destruct t as [|c a x b]; simpl; [done|]. intros E'.
  destruct (decide (x = l)) as [->|]; rewrite ?lookup_alter_eq, ?lookup_alter_ne by done; by rewrite E'.
Qed.

(** Disequalities of locations, from the absence of duplicates. *)
Ltac split_nodup H :=
  repeat rewrite ?NoDup_app, ?NoDup_cons, ?not_elem_of_app, ?not_elem_of_cons in H;
  repeat match type of H with _ /\ _ => let H1 := fresh "Hnd" in destruct H as [H1 H] end.
Ltac neq :=
  lazymatch goal with
  | |- ?a <> ?a => fail
  | |- _ <> _ => solve [ done | congruence | set_solver ]
  | H : ?l ∈ ?X |- ?l ∉ ?X => fail
  | |- _ => solve [ done | set_solver ]
  end.
Ltac alt :=
  repeat first
    [ rewrite lookup_alter_ne by neq
    | rewrite relink_ne by neq
    | rewrite reparent_ne by neq ].

(** Reading the frame around a hole: which child link leads to it. *)
Lemma mkn_child s par a b c : child s (mkn s par a b c) = a.
Proof. by destruct s. Qed.
Lemma mkn_child_opp s par a b c : child (opp s) (mkn s par a b c) = b.
Proof. by destruct s. Qed.
Lemma mkn_parent s par a b c : parent (mkn s par a b c) = par.
Proof. by destruct s. Qed.
Lemma mkn_color s par a b c : color (mkn s par a b c) = c.
Proof. by destruct s. Qed.
Lemma set_child_mkn s q par a b c : set_child s q (mkn s par a b c) = mkn s par q b c.
Proof. by destruct s. Qed.
Lemma set_child_opp_mkn s q par a b c : set_child (opp s) q (mkn s par a b c) = mkn s par a q c.
Proof. by destruct s. Qed.
Lemma set_parent_mkn s q par a b c : set_parent q (mkn s par a b c) = mkn s q a b c.
Proof. by destruct s. Qed.
Lemma set_color_mkn s par a b c c' : set_color c' (mkn s par a b c) = mkn s par a b c'.
Proof. by destruct s. Qed.
Lemma opp_opp s : opp (opp s) = s.
Proof. by destruct s. Qed.
Lemma rootp_in t x : rootp t = Some x -> x ∈ locs t.
Proof. destruct t; simpl; [done|]. intros [= ->]. set_solver. Qed.

(** The code that makes the parent of a hole point to its new content, written
    with the side tested first. *)
Definition replace_child (s : side) st (u par v : ptr) : res (rbtree E) :=
  match par with
  | None => Ok (set_root st v)
  | Some _ =>
      let? np := rd st par in
      if decide (u = child s np) then wr st par (set_child s v) else wr st par (set_child (opp s) v)
  end.

Lemma replace_child_ok s st p x q : rep_path (nodes st) p (Some x) -> root st = proot p (Some x) ->
  x ∉ plocs p ->
  replace_child s st (Some x) (pparent p) q
  = Ok (RbTree (proot p q) (relink p q (nodes st)) (ext st)).
Proof.
  intros Hp Hr Hx. destruct p as [|[s' c g sib] p]; simpl in *; [done|].
  destruct Hp as (Hg & _ & _). rewrite Hg. cbn [deref rbind].
  rewrite (alter_insert_lookup _ _ _ _ Hg), (alter_insert_lookup _ _ _ _ Hg), <- Hr.
  assert (Hs : rootp sib <> Some x) by (intros ?%rootp_in; set_solver).
  destruct s, s'; simpl; (case_decide; [try congruence|try congruence]); done.
Qed.

Lemma Rep_lookup h0 st p s c a x b : Rep h0 st (plug p (nd s c a x b)) ->
  nodes st !! x = Some (mkn s (pparent p) (rootp a) (rootp b) c).
Proof. intros [_ [_ H]%rep_plug _ _]. by apply rep_nd in H as (? & _). Qed.

(** ** Colouring *)
Lemma Rep_color h0 st p s c c' a x b : Rep h0 st (plug p (nd s c a x b)) ->
  exists st', wr st (Some x) (set_color c') = Ok st' /\ Rep h0 st' (plug p (nd s c' a x b)).
Proof.
  intros HR. pose proof (Rep_lookup _ _ _ _ _ _ _ _ HR) as Hx. destruct HR as [Hr [Hp Ht]%rep_plug Hnd Hf].
  rewrite (wr_ok _ _ _ _ Hx). eexists. split; [done|]. apply rep_nd in Ht as (_ & Ha & Hb).
  assert (Hperm : forall c, locs (plug p (nd s c a x b)) ≡ₚ plocs p ++ x :: locs a ++ locs b)
    by (intros; by rewrite locs_plug_perm, locs_nd_perm).
  pose proof Hnd as Hnd'. rewrite Hperm in Hnd'. split_nodup Hnd'.
  split; simpl.
  - rewrite Hr, !rootp_plug_eq, !rootp_nd. done.
  - apply rep_plug. rewrite rootp_nd in *. split.
    + eapply rep_path_frame; [|done]. intros l Hl. alt. done.
    + apply rep_nd. split_and!.
      * rewrite lookup_alter_eq, Hx. simpl. by rewrite set_color_mkn.
      * eapply rep_frame; [|done]. intros l Hl. alt. done.
      * eapply rep_frame; [|done]. intros l Hl. alt. done.
  - rewrite Hperm. by rewrite Hperm in Hnd.
  - intros l Hl. rewrite <- Hf by (rewrite Hperm in *; done). rewrite Hperm in Hl. alt. done.
Qed.

(** ** Rotation *)
Definition rotated (s : side) (p : path) (x y : loc) (b : tree) (h : gmap loc rbnode) : gmap loc rbnode :=
  alter (set_parent (Some y)) x (alter (set_child s (Some x)) y
    (relink p (Some y) (alter (set_parent (pparent p)) y (reparent b (Some x)
      (alter (set_child (opp s) (rootp b)) x h))))).

Lemma wr_reparent st t par q : rep (nodes st) par t ->
  match rootp t with None => Ok st | Some _ => wr st (rootp t) (set_parent q) end
  = Ok (RbTree (root st) (reparent t q (nodes st)) (ext st)).
Proof.
  destruct t as [|c a x b]; simpl; [by destruct st|]. intros (Hx & _). rewrite Hx. simpl.
  by rewrite (alter_insert_lookup _ _ _ _ Hx).
Qed.

Lemma rotate_exec s st p c d a x b y e :
  root st = proot p (Some x) -> rep_path (nodes st) p (Some x) ->
  rep (nodes st) (pparent p) (nd s c a x (nd s d b y e)) ->
  NoDup (plocs p ++ x :: y :: locs a ++ locs b ++ locs e) ->
  exists st', rotate augment s st (Some x) = Ok st' /\
    root st' = proot p (Some y) /\ nodes st' = rotated s p x y b (nodes st).
Proof.
  intros Hr Hp Ht Hnd. apply rep_nd in Ht as (Hx & Ha & Hy). rewrite rootp_nd in Hx.
  apply rep_nd in Hy as (Hy & Hb & He). split_nodup Hnd.
  unfold rotate. rewrite (rd_ok _ _ _ Hx). cbn [rbind]. rewrite mkn_child_opp, (rd_ok _ _ _ Hy).
  cbn [rbind]. rewrite mkn_child, (wr_ok _ _ _ _ Hx). cbn [rbind].
  erewrite wr_reparent.
  2:{ cbn [nodes]. eapply rep_frame; [|exact Hb]. intros l Hl. alt. done. }
  cbn [rbind root nodes ext].
  erewrite (rd_ok _ x); [|cbn [nodes]; alt; by rewrite lookup_alter_eq, Hx].
  cbn [rbind]. rewrite set_child_opp_mkn, mkn_parent.
  erewrite (wr_ok _ y); [|cbn [nodes]; alt; exact Hy].
  cbn [rbind root nodes ext].
  erewrite (rd_ok _ x); [|cbn [nodes]; alt; by rewrite lookup_alter_eq, Hx].
  cbn [rbind]. rewrite set_child_opp_mkn, mkn_parent.
  match goal with |- context [match pparent p with Some _ => _ | None => Ok (set_root ?S _) end] =>
    pose proof (replace_child_ok s S p x (Some y)) as Hrc end.
  cbn [rbind root nodes ext] in Hrc. unfold replace_child in Hrc. rewrite Hrc; clear Hrc.
  2:{ eapply rep_path_frame; [|exact Hp]. intros l Hl. alt. done. }
  2:{ done. }
  2:{ set_solver. }
  cbn [rbind root nodes ext].
  erewrite (wr_ok _ y); [|cbn [nodes]; alt; rewrite lookup_alter_eq; alt; by rewrite Hy].
  cbn [rbind root nodes ext].
  erewrite (wr_ok _ x); [|cbn [nodes]; alt; by rewrite lookup_alter_eq, Hx].
  cbn [rbind root nodes ext].
  erewrite (rd_ok _ y); [|cbn [nodes]; alt; rewrite lookup_alter_eq; alt; rewrite lookup_alter_eq; alt; by rewrite Hy].
  cbn [rbind].
  erewrite (rd_ok _ y); [|rewrite augment_nodes; cbn [nodes]; alt; rewrite lookup_alter_eq; alt; rewrite lookup_alter_eq; alt; by rewrite Hy].
  cbn [rbind]. eexists. split; [done|]. rewrite !augment_root, !augment_nodes. done.
Qed.

Lemma Rep_rotate h0 st s p c d a x b y e :
  Rep h0 st (plug p (nd s c a x (nd s d b y e))) ->
  exists st', rotate augment s st (Some x) = Ok st' /\ Rep h0 st' (plug p (nd s d (nd s c a x b) y e)).
Proof.
  intros [Hr [Hp Ht]%rep_plug Hnd Hf]. rewrite rootp_plug_eq, rootp_nd in Hr. rewrite rootp_nd in Hp.
  assert (Hperm : locs (plug p (nd s c a x (nd s d b y e))) ≡ₚ plocs p ++ x :: y :: locs a ++ locs b ++ locs e)
    by (rewrite locs_plug_perm, !locs_nd_perm; solve_Permutation).
  assert (Hperm' : locs (plug p (nd s d (nd s c a x b) y e)) ≡ₚ plocs p ++ x :: y :: locs a ++ locs b ++ locs e)
    by (rewrite locs_plug_perm, !locs_nd_perm; solve_Permutation).
  rewrite Hperm in Hnd.
  destruct (rotate_exec s st p c d a x b y e Hr Hp Ht Hnd) as (st' & Hst & Hr' & Hn').
  exists st'. split; [done|]. apply rep_nd in Ht as (Hx & Ha & Ht). rewrite rootp_nd in Hx.
  apply rep_nd in Ht as (Hy & Hb & He). pose proof Hnd as Hnd'. split_nodup Hnd.
  split; rewrite ?Hn'; unfold rotated.
  - by rewrite Hr', rootp_plug_eq, rootp_nd.
  - apply rep_plug. rewrite rootp_nd. split.
    + eapply (rep_path_relink (nodes st)); [done| |done]. intros l Hl. alt.
      apply relink_cong. alt. done.
    + apply rep_nd. rewrite rootp_nd. split_and!.
      * alt. rewrite lookup_alter_eq. alt. rewrite lookup_alter_eq. alt. rewrite Hy. simpl.
        by rewrite set_parent_mkn, set_child_mkn.
      * apply rep_nd. split_and!.
        -- rewrite lookup_alter_eq. alt. rewrite lookup_alter_eq, Hx. simpl.
           by rewrite set_child_opp_mkn, set_parent_mkn.
        -- eapply rep_frame; [|exact Ha]. intros l Hl. alt. done.
        -- eapply (rep_reparent (nodes st)); [done| |exact Hb]. intros l Hl. alt. apply reparent_cong. alt. done.
      * eapply rep_frame; [|exact He]. intros l Hl. alt. done.
  - by rewrite Hperm'.
  - intros l Hl. rewrite Hperm' in Hl. rewrite <- Hf by (by rewrite Hperm). alt. done.
Qed.

(** ** Attaching a leaf *)

(** The comparison that led to the hole names its side. *)
Definition last_side (p : path) (c : Z) : Prop :=
  match p with
  | [] => True
  | f :: _ => fside f = if decide (c > 0) then L else R
  end.

Lemma attach_link st p (z : loc) c : rep_path (nodes st) p NULL -> last_side p c ->
  root st = proot p NULL ->
  (match pparent p with
  | None => Ok (set_root st (Some z))
  | Some _ =>
      if decide (c > 0) then wr st (pparent p) (set_child L (Some z))
      else wr st (pparent p) (set_child R (Some z))
  end) = Ok (RbTree (proot p (Some z)) (relink p (Some z) (nodes st)) (ext st)).
Proof.
  destruct p as [|[s c' x sib] p]; [done|]. cbn [rep_path pparent last_side fside floc relink proot].
  intros (Hx & _) -> Hr. destruct (decide (c > 0)); rewrite (wr_ok _ _ _ _ Hx), Hr; done.
Qed.

Lemma Rep_attach h0 st p z c n :
  Rep h0 st (plug p Lf) -> z ∉ locs (plug p Lf) -> nodes st !! z = Some n -> last_side p c ->
  exists st', insert_link augment st z (pparent p) c = Ok st' /\ Rep h0 st' (plug p (Nd RB_RED Lf z Lf)).
Proof.
  intros [Hr [Hp _]%rep_plug Hnd Hf] Hz Hn Hc. rewrite rootp_plug_eq in Hr. simpl in Hr, Hp.
  rewrite locs_plug_perm in Hnd, Hz. simpl in Hnd, Hz. rewrite app_nil_r in Hnd, Hz.
  unfold insert_link. rewrite (wr_ok _ _ _ _ Hn). cbn [rbind].
  erewrite attach_link; [|cbn [nodes]; eapply rep_path_frame; [|exact Hp]; intros l Hl; alt; done|done|done].
  cbn [rbind root nodes ext].
  erewrite (wr_ok _ z); [|cbn [nodes]; alt; by rewrite lookup_alter_eq, Hn].
  cbn [rbind root nodes ext].
  erewrite (wr_ok _ z); [|cbn [nodes]; rewrite lookup_alter_eq; alt; by rewrite lookup_alter_eq, Hn].
  cbn [rbind root nodes ext].
  erewrite (wr_ok _ z); [|cbn [nodes]; rewrite !lookup_alter_eq; alt; by rewrite lookup_alter_eq, Hn].
  cbn [rbind root nodes ext]. eexists. split; [done|]. apply Rep_augment. split; cbn [root nodes].
  - by rewrite rootp_plug_eq.
  - apply rep_plug. split.
    + eapply (rep_path_relink (nodes st)); [done| |exact Hp]. intros l Hl. alt. apply relink_cong. alt. done.
    + simpl. split; [|done]. rewrite !lookup_alter_eq. alt. rewrite lookup_alter_eq, Hn. done.
  - rewrite locs_plug_perm. apply NoDup_app. split; [done|]. split; [|apply NoDup_singleton].
    intros l Hl. simpl. set_solver.
  - intros l Hl. rewrite locs_plug_perm in Hl. simpl in Hl. rewrite <- Hf.
    + alt. done.
    + rewrite locs_plug_perm. set_solver.
Qed.

(** ** Transplanting *)
Definition reparent_ptr (v q : ptr) (h : gmap loc rbnode) : gmap loc rbnode :=
  match v with
  | None => h
  | Some x => alter (set_parent q) x h
  end.

Lemma reparent_rootp t q h : reparent t q h = reparent_ptr (rootp t) q h.
Proof. by destruct t. Qed.

Lemma transplant_exec st p u v nu :
  nodes st !! u = Some nu -> parent nu = pparent p -> rep_path (nodes st) p (Some u) ->
  root st = proot p (Some u) -> u ∉ plocs p ->
  (forall y, v = Some y -> (y ∉ plocs p) /\ is_Some (nodes st !! y)) ->
  exists st', rb_transplant augment st (Some u) v = Ok st' /\ root st' = proot p v /\
    nodes st' = reparent_ptr v (pparent p) (relink p v (nodes st)).
Proof.
  intros Hu Hpar Hp Hr Hup Hv. unfold rb_transplant. rewrite (rd_ok _ _ _ Hu). cbn [rbind].
  rewrite Hpar.
  assert (exists st1, ((match pparent p with
              | Some _ =>
                  let? np := rd st (pparent p) in
                  let? st := (if decide (Some u = left np) then wr st (pparent p) (set_child L v)
                              else wr st (pparent p) (set_child R v)) in
                  let? nu := rd st (Some u) in
                  Ok (rb_augment augment st (parent nu))
              | None => Ok (set_root st v)
              end)) = Ok st1 /\ root st1 = proot p v /\ nodes st1 = relink p v (nodes st))
    as (st1 & -> & Hr1 & Hn1).
  { pose proof (replace_child_ok L st p u v Hp Hr Hup) as Hrc. unfold replace_child in Hrc.
    destruct p as [|f p]; [by eexists|]. cbn [pparent] in *.
    apply rbind_inv in Hrc as (np & Hnp & Hrc). rewrite Hnp. cbn [rbind child opp] in *. rewrite Hrc.
    cbn [rbind]. erewrite rd_ok; [|cbn [nodes]; rewrite relink_ne by done; exact Hu].
    cbn [rbind]. eexists. split; [done|]. by rewrite augment_root, augment_nodes. }
  cbn [rbind]. destruct v as [y|].
  - destruct (Hv y eq_refl) as (Hyp & [ny Hny]).
    erewrite rd_ok; [|rewrite Hn1, relink_ne by done; exact Hu]. cbn [rbind]. rewrite Hpar.
    erewrite wr_ok; [|rewrite Hn1, relink_ne by done; exact Hny]. cbn [rbind]. eexists. split; [done|].
    rewrite augment_root, augment_nodes. simpl. by rewrite Hn1.
  - eexists. split; [done|]. by rewrite augment_root, augment_nodes.
Qed.

(** A node with at most one child is replaced by that child. *)
Lemma Rep_transplant h0 st p s c t z nz :
  Rep h0 st (plug p (nd s c t z Lf)) -> nodes st !! z = Some nz ->
  exists st', rb_transplant augment st (Some z) (rootp t) = Ok st' /\
    Rep (<[z := nz]> h0) st' (plug p t).
Proof.
  intros HR Hz. pose proof (Rep_lookup _ _ _ _ _ _ _ _ HR) as Hz'. rewrite Hz in Hz'. injection Hz' as ->.
  destruct HR as [Hr [Hp Ht]%rep_plug Hnd Hf].
  rewrite rootp_plug_eq, rootp_nd in Hr. rewrite rootp_nd in Hp. apply rep_nd in Ht as (_ & Ht & _).
  assert (Hperm : locs (plug p (nd s c t z Lf)) ≡ₚ plocs p ++ z :: locs t)
    by (rewrite locs_plug_perm, locs_nd_perm; simpl; by rewrite app_nil_r).
  rewrite Hperm in Hnd. pose proof Hnd as Hnd'. split_nodup Hnd'.
  destruct (transplant_exec st p z (rootp t) _ Hz) as (st' & Hst & Hr' & Hn'); [by rewrite mkn_parent|done|done|set_solver| |].
  { intros y Hy. split; [apply rootp_in in Hy; set_solver|]. destruct t; simplify_eq/=. by destruct Ht as [-> _]. }
  exists st'. split; [done|]. rewrite <- reparent_rootp in Hn'. split; rewrite ?Hn'.
  - by rewrite rootp_plug_eq.
  - apply rep_plug. split.
    + eapply (rep_path_relink (nodes st)); [done| |exact Hp]. intros l Hl. alt. done.
    + eapply (rep_reparent (nodes st)); [done| |exact Ht]. intros l Hl. apply reparent_cong. alt. done.
  - rewrite locs_plug_perm. apply NoDup_app. split_and!; [done| |done]. set_solver.
  - intros l Hl. rewrite locs_plug_perm in Hl. alt. destruct (decide (l = z)) as [->|Hne].
    + by rewrite lookup_insert_eq.
    + rewrite lookup_insert_ne by done. rewrite <- Hf; [done|]. rewrite Hperm. set_solver.
Qed.

(** The successor [y], with the right subtree already below it, takes the place
    of [z]. *)
Lemma Rep_swap h0 st p z y nz py ly cy cz l r rz :
  root st = proot p (Some z) -> rep_path (nodes st) p (Some z) ->
  nodes st !! z = Some nz -> nz = RbNode (pparent p) (rootp l) rz cz -> rep (nodes st) (Some z) l -> l <> Lf ->
  nodes st !! y = Some (RbNode py ly (rootp r) cy) -> rep (nodes st) (Some y) r ->
  NoDup (plocs p ++ z :: y :: locs l ++ locs r) ->
  (forall k, k ∉ plocs p ++ z :: y :: locs l ++ locs r -> nodes st !! k = h0 !! k) ->
  exists st', remove_swap augment st z (Some y) = Ok st' /\
    Rep (<[z := nz]> h0) st' (plug p (Nd cz l y r)).
Proof.
  intros Hr Hp Hz Enz Hl Hne Hy Hrr Hnd Hf. pose proof Hnd as Hnd'. split_nodup Hnd.
  destruct l as [|cl ll xl rl]; [done|]. set (l := Nd cl ll xl rl) in *.
  assert (Hxl : xl ∈ locs l) by (subst l; simpl; set_solver).
  assert (Hxl' : is_Some (nodes st !! xl)) by (destruct Hl as [-> _]; eauto).
  destruct Hxl' as [nl Hnl].
  destruct (transplant_exec st p z (Some y) nz Hz) as (st1 & Hst & Hr1 & Hn1); [by subst nz|done|done|set_solver| |].
  { intros y' [= <-]. split; [set_solver|by rewrite Hy]. }
  unfold remove_swap. rewrite Hst. cbn [rbind reparent_ptr] in *.
  erewrite (rd_ok st1 z); [|rewrite Hn1; alt; exact Hz]. cbn [rbind].
  erewrite (wr_ok st1 y); [|rewrite Hn1; rewrite lookup_alter_eq; alt; by rewrite Hy].
  cbn [rbind root nodes ext]. rewrite Enz. cbn [left].
  erewrite (rd_ok _ y); [|cbn [nodes]; rewrite lookup_alter_eq, Hn1, lookup_alter_eq; alt; by rewrite Hy].
  cbn [rbind left set_child rootp l].
  erewrite (wr_ok _ xl); [|cbn [nodes]; alt; rewrite Hn1; alt; exact Hnl].
  cbn [rbind root nodes ext].
  erewrite (rd_ok _ z); [|cbn [nodes]; alt; rewrite Hn1; alt; exact Hz]. cbn [rbind].
  erewrite (wr_ok _ y); [|cbn [nodes]; alt; rewrite lookup_alter_eq, Hn1, lookup_alter_eq; alt; by rewrite Hy].
  cbn [root nodes ext]. eexists. split; [done|]. rewrite Hn1, Hr1, Enz. cbn [color]. split; cbn [root nodes].
  - by rewrite rootp_plug_eq.
  - apply rep_plug. split.
    + eapply (rep_path_relink (nodes st)); [done| |exact Hp]. intros k Hk. alt. done.
    + change (Nd cz l y r) with (nd L cz l y r). apply rep_nd. split_and!.
      * rewrite lookup_alter_eq. alt. rewrite !lookup_alter_eq. alt. rewrite Hy. done.
      * eapply (rep_reparent (nodes st)); [done| |exact Hl]. intros k Hk.
        rewrite lookup_alter_ne by neq. change (alter (set_parent (Some y)) xl) with (reparent l (Some y)).
        apply reparent_cong. alt. done.
      * eapply rep_frame; [|exact Hrr]. intros k Hk. alt. done.
  - rewrite locs_plug_perm. simpl. change (locs ll ++ xl :: locs rl) with (locs l).
    assert (Hz' : plocs p ++ z :: y :: locs l ++ locs r ≡ₚ z :: (plocs p ++ locs l ++ y :: locs r))
      by solve_Permutation.
    rewrite Hz' in Hnd'. by apply NoDup_cons in Hnd' as [_ Hnd'].
  - intros k Hk. rewrite locs_plug_perm in Hk. simpl in Hk. change (locs ll ++ xl :: locs rl) with (locs l) in Hk.
    alt. destruct (decide (k = z)) as [->|Hkz].
    + by rewrite lookup_insert_eq, Hz, Enz.
    + rewrite lookup_insert_ne by done. apply Hf. set_solver.
Qed.

End Heap.
