(* ===== verification/RbBalance.v ===== *)
(** * Red-black trees: balancing

    The red-black invariant on trees ([RB]) and on paths ([RBP]), and the proof
    that [lib_rbInsertBalance] and [lib_rbRemoveBalance] restore it, keep the
    order of the members and terminate within their fuel. *)

From S2P Require Import Prelude Rb RbShape.

(** [RB t c n]: no red node has a red child, every path has [n] black nodes,
    and the root (black for a leaf) has colour [c]. *)
Inductive RB : tree -> rbcolor -> nat -> Prop :=
| RB_lf : RB Lf RB_BLACK 0
| RB_red l x r n : RB l RB_BLACK n -> RB r RB_BLACK n -> RB (Nd RB_RED l x r) RB_RED n
| RB_black l x r cl cr n : RB l cl n -> RB r cr n -> RB (Nd RB_BLACK l x r) RB_BLACK (S n).

(** [RBP p c n]: a tree with root colour [c] and black height [n] fits the hole;
    the whole tree has a black root. *)
Inductive RBP : path -> rbcolor -> nat -> Prop :=
| RBP_nil n : RBP [] RB_BLACK n
| RBP_red s x sib p n : RB sib RB_BLACK n -> RBP p RB_RED n -> RBP (Frame s RB_RED x sib :: p) RB_BLACK n
| RBP_black s x sib p c cs n : RB sib cs n -> RBP p RB_BLACK (S n) -> RBP (Frame s RB_BLACK x sib :: p) c n.

Lemma nd_opp s c a x b : nd (opp s) c a x b = nd s c b x a.
Proof. by destruct s. Qed.

Lemma RB_nd_red s a x b n : RB a RB_BLACK n -> RB b RB_BLACK n -> RB (nd s RB_RED a x b) RB_RED n.
Proof. destruct s; by constructor. Qed.
Lemma RB_nd_black s a x b ca cb n : RB a ca n -> RB b cb n -> RB (nd s RB_BLACK a x b) RB_BLACK (S n).
Proof. destruct s; by econstructor. Qed.
Lemma RB_nd_inv s c a x b c' n : RB (nd s c a x b) c' n ->
  c' = c /\ match c with
            | RB_RED => RB a RB_BLACK n /\ RB b RB_BLACK n
            | RB_BLACK => exists ca cb m, n = S m /\ RB a ca m /\ RB b cb m
            end.
Proof. destruct s; inversion 1; subst; naive_solver. Qed.

Lemma RBP_weaken p c n : RBP p c n -> RBP p RB_BLACK n.
Proof. inversion 1; subst; by econstructor. Qed.

Lemma RB_plug p c n t : RBP p c n -> RB t c n -> exists N, RB (plug p t) RB_BLACK N.
Proof.
  intros Hp. revert t. induction Hp as [n|s x sib p n Hs Hp IH|s x sib p c cs n Hs Hp IH]; intros t Ht.
  - by exists n.
  - rewrite plug_cons. apply IH. by apply RB_nd_red.
  - rewrite plug_cons. apply IH. by eapply RB_nd_black.
Qed.

Definition blacken (t : tree) : tree :=
  match t with
  | Lf => Lf
  | Nd _ l x r => Nd RB_BLACK l x r
  end.

Lemma blacken_id t n : RB t RB_BLACK n -> blacken t = t.
Proof. by inversion 1. Qed.
Lemma blacken_nd s c a x b : blacken (nd s c a x b) = nd s RB_BLACK a x b.
Proof. by destruct s. Qed.
Lemma locs_blacken t : locs (blacken t) = locs t.
Proof. by destruct t. Qed.
Lemma blacken_plug_black s x sib p t :
  blacken (plug (Frame s RB_BLACK x sib :: p) t) = blacken (plug p (nd s RB_BLACK t x sib)).
Proof. reflexivity. Qed.

(** What the balancing loops leave: a tree with the same members in the same
    order that is red-black once its root is black. *)
Definition balanced {E} (h0 : gmap loc rbnode) (st : rbtree E) (T : tree) : Prop :=
  exists T' N, Rep h0 st T' /\ locs T' = locs T /\ RB (blacken T') RB_BLACK N /\ T' <> Lf.

Lemma locs_nd_rotate s c d c' d' a x b y e :
  locs (nd s c a x (nd s d b y e)) = locs (nd s d' (nd s c' a x b) y e).
Proof. destruct s; simpl; by simplify_list_eq. Qed.

Lemma locs_nd_color s c c' a a' x b b' : locs a = locs a' -> locs b = locs b' ->
  locs (nd s c a x b) = locs (nd s c' a' x b').
Proof. intros Ha Hb. destruct s; simpl; by rewrite Ha, Hb. Qed.

Lemma locs_plug_eq p t t' : locs t = locs t' -> locs (plug p t) = locs (plug p t').
Proof. intros H. by rewrite !locs_plug, H. Qed.

Lemma plug_not_lf p t : t <> Lf -> plug p t <> Lf.
Proof.
  revert t. induction p as [|[s c x sib] p IH]; intros t Ht; [done|]. rewrite plug_cons. apply IH. by destruct s.
Qed.
Lemma nd_not_lf s c a x b : nd s c a x b <> Lf.
Proof. by destruct s. Qed.

Section Balance.
Context {E : Type} (augment : option (gmap loc rbnode -> loc -> E -> E)).
Implicit Type st : rbtree E.

(** The test that tells on which side of its parent a node is. *)
Lemma which_side {h0 st p s c t g u} : Rep h0 st (plug p (nd s c t g u)) -> t <> Lf ->
  (if decide (rootp t = left (mkn s (pparent p) (rootp t) (rootp u) c)) then L else R) = s.
Proof.
  intros HR Ht. destruct s; simpl; [by rewrite decide_True|]. rewrite decide_False; [done|].
  intros Heq. pose proof (Rep_nodup _ _ _ HR) as Hnd. rewrite locs_plug_perm in Hnd.
  apply NoDup_app in Hnd as (_ & _ & Hnd). simpl in Hnd. apply NoDup_app in Hnd as (_ & Hd & _).
  destruct t as [|? ? x ?]; [done|]. symmetry in Heq. apply rootp_in in Heq. specialize (Hd x Heq).
  apply Hd. simpl. set_solver.
Qed.

Lemma distinct_children {h0 st p s c a g b x} : Rep h0 st (plug p (nd s c a g b)) ->
  rootp a = Some x -> rootp b <> Some x.
Proof.
  intros HR Ha Hb. pose proof (Rep_nodup _ _ _ HR) as Hnd. rewrite locs_plug_perm, locs_nd_perm in Hnd.
  apply NoDup_app in Hnd as (_ & _ & [_ Hnd]%NoDup_cons). apply NoDup_app in Hnd as (_ & Hd & _).
  apply rootp_in in Ha, Hb. by eapply Hd.
Qed.

(** Rotation to the other side. *)
Lemma Rep_rotate_opp h0 st s p c d a x b y e :
  Rep h0 st (plug p (nd s c (nd s d e y b) x a)) ->
  exists st', rotate augment (opp s) st (Some x) = Ok st' /\ Rep h0 st' (plug p (nd s d e y (nd s c b x a))).
Proof.
  intros HR. rewrite <- !(nd_opp s) in HR.
  destruct (Rep_rotate augment h0 st (opp s) p c d a x b y e HR) as (st' & ? & HR').
  rewrite !nd_opp in HR'. eauto.
Qed.

Lemma is_red_spec h0 st p t c n : Rep h0 st (plug p t) -> RB t c n ->
  is_red st (rootp t) = Ok (bool_decide (c = RB_RED)).
Proof.
  intros HR Ht. destruct t as [|d l x r]; simpl; [inversion Ht; subst; done|].
  change (Nd d l x r) with (nd L d l x r) in HR. rewrite (Rep_lookup _ _ _ _ _ _ _ _ HR). simpl.
  by inversion Ht.
Qed.

(** *** Insertion *)

(** The loop stops at a black parent or at the root. *)
Lemma insert_loop_stop h0 st fuel p a z b n :
  Rep h0 st (plug p (nd L RB_RED a z b)) -> RB a RB_BLACK n -> RB b RB_BLACK n ->
  (p = [] \/ RBP p RB_RED n) -> 
  insert_loop augment (S fuel) st (Some z) = Ok st /\ balanced h0 st (plug p (nd L RB_RED a z b)).
Proof.
  intros HR Ha Hb Hp. cbn [insert_loop]. rewrite (rd_ok _ _ _ (Rep_lookup _ _ _ _ _ _ _ _ HR)).
  cbn [rbind]. rewrite mkn_parent. destruct Hp as [->|Hp].
  - split; [done|]. exists (nd L RB_RED a z b), (S n). split; [done|]. split; [done|].
    split; [|done]. by econstructor.
  - inversion Hp as [| |s x sib p' c' cs n' Hsib Hp']; subst. cbn [pparent floc].
    rewrite plug_cons in *. unfold fill in *. cbn [fside fcolor floc fsib] in *.
    rewrite (rd_ok _ _ _ (Rep_lookup _ _ _ _ _ _ _ _ HR)). cbn [rbind].
    rewrite mkn_color, decide_False by done. split; [done|].
    destruct (RB_plug p' RB_BLACK (S n) (nd s RB_BLACK (nd L RB_RED a z b) x sib)) as [N HN]; [done| |].
    { eapply RB_nd_black; [|done]. by apply RB_nd_red. }
    eexists _, N. split; [exact HR|]. split; [done|]. rewrite (blacken_id _ _ HN). split; [done|].
    apply plug_not_lf, nd_not_lf.
Qed.

(** The first steps of an iteration whose parent is red. *)
Lemma insert_loop_step h0 st fuel p s s' a z b px sib g u cu n :
  Rep h0 st (plug p (nd s' RB_BLACK (nd s RB_RED (nd L RB_RED a z b) px sib) g u)) -> RB u cu n ->
  insert_loop augment (S fuel) st (Some z) =
    let? (st, z) :=
      (if bool_decide (cu = RB_RED) then
         let? st := wr st (Some px) (set_color RB_BLACK) in
         let? st := wr st (rootp u) (set_color RB_BLACK) in
         let? st := wr st (Some g) (set_color RB_RED) in
         Ok (st, Some g)
       else if decide (Some z = child (opp s') (mkn s (Some g) (Some z) (rootp sib) RB_RED)) then
         let? st := rotate augment s' st (Some px) in Ok (st, Some px)
       else
         let? st := wr st (Some px) (set_color RB_BLACK) in
         let? st := wr st (Some g) (set_color RB_RED) in
         let? st := rotate augment (opp s') st (Some g) in
         Ok (st, Some z)) in
    insert_loop augment fuel st z.
Proof.
  intros HR Hu. set (t := nd L RB_RED a z b) in *.
  pose proof (Rep_lookup h0 st p _ _ _ _ _ HR) as Hg.
  pose proof (Rep_lookup h0 st (Frame s' RB_BLACK g u :: p) _ _ _ _ _ HR) as Hpx.
  pose proof (Rep_lookup h0 st (Frame s RB_RED px sib :: Frame s' RB_BLACK g u :: p) L _ _ _ _ HR) as Hz.
  rewrite rootp_nd in Hg. replace (rootp t) with (Some z) in Hpx by done. cbn [pparent floc] in Hpx, Hz.
  cbn [insert_loop]. rewrite (rd_ok _ _ _ Hz). cbn [rbind]. rewrite mkn_parent.
  rewrite (rd_ok _ _ _ Hpx). cbn [rbind]. rewrite mkn_color, decide_True, mkn_parent by done.
  rewrite (rd_ok _ _ _ Hg). cbn [rbind].
  pose proof (which_side HR (nd_not_lf _ _ _ _ _)) as Hs. rewrite rootp_nd in Hs. rewrite Hs. clear Hs.
  unfold insert_body. rewrite (rd_ok _ _ _ Hz). cbn [rbind]. rewrite mkn_parent, (rd_ok _ _ _ Hpx).
  cbn [rbind]. rewrite mkn_parent, (rd_ok _ _ _ Hg). cbn [rbind]. rewrite mkn_child_opp.
  rewrite (is_red_spec h0 st (Frame (opp s') RB_BLACK g (nd s RB_RED t px sib) :: p) u cu n); [done| |done].
  rewrite plug_cons; unfold fill; cbn [fside fcolor floc fsib]; by rewrite nd_opp.
Qed.

(** The straight case: recolour and rotate at the grandparent, then stop. *)
Lemma insert_loop_line h0 st fuel p s a z b px sib g u n cu :
  Rep h0 st (plug p (nd s RB_BLACK (nd s RB_RED (nd L RB_RED a z b) px sib) g u)) ->
  RB a RB_BLACK n -> RB b RB_BLACK n -> RB sib RB_BLACK n -> RB u cu n -> cu = RB_BLACK ->
  RBP p RB_BLACK (S n) ->
  exists st', insert_loop augment (S (S fuel)) st (Some z) = Ok st' /\
    balanced h0 st' (plug p (nd s RB_BLACK (nd s RB_RED (nd L RB_RED a z b) px sib) g u)).
Proof.
  intros HR Ha Hb Hsib Hu -> Hp.
  erewrite insert_loop_step; [|exact HR|exact Hu]. set (k := S fuel).
  rewrite bool_decide_false, mkn_child_opp by done. cbv iota. set (t := nd L RB_RED a z b) in *.
  rewrite decide_False by (intros Heq; exact (distinct_children (p := Frame s RB_BLACK g u :: p) HR eq_refl (eq_sym Heq))).
  destruct (Rep_color h0 st (Frame s RB_BLACK g u :: p) s RB_RED RB_BLACK t px sib HR) as (st1 & -> & HR1).
  cbn [rbind]. rewrite plug_cons in HR1. unfold fill in HR1. cbn [fside fcolor floc fsib] in HR1.
  destruct (Rep_color h0 st1 p s RB_BLACK RB_RED _ g u HR1) as (st2 & -> & HR2). cbn [rbind].
  destruct (Rep_rotate_opp h0 st2 s p _ _ u g sib px t HR2) as (st3 & -> & HR3). cbn [rbind]. subst k.
  destruct (insert_loop_stop h0 st3 fuel (Frame s RB_BLACK px (nd s RB_RED sib g u) :: p) a z b n) as [-> HB]; [done|done|done| |].
  { right. econstructor; [by apply RB_nd_red|done]. }
  eexists. split; [done|]. destruct HB as (T' & N & HRT & HL & HB). exists T', N. split; [done|].
  split; [|done]. rewrite HL, plug_cons. apply locs_plug_eq. unfold fill. cbn [fside fcolor floc fsib].
  rewrite <- !(nd_opp s). symmetry. apply locs_nd_rotate.
Qed.

(** Recolouring three nodes moves the violation two levels up. *)
Lemma insert_recolour h0 st p s s' t px sib g u n :
  Rep h0 st (plug p (nd s' RB_BLACK (nd s RB_RED t px sib) g u)) -> RB u RB_RED n ->
  exists st' u', (let? st := wr st (Some px) (set_color RB_BLACK) in
    let? st := wr st (rootp u) (set_color RB_BLACK) in
    wr st (Some g) (set_color RB_RED)) = Ok st' /\
    Rep h0 st' (plug p (nd s' RB_RED (nd s RB_BLACK t px sib) g u')) /\ locs u' = locs u /\ RB u' RB_BLACK (S n).
Proof.
  intros HR Hu. inversion Hu as [|ul ux ur m Hul Hur|]; subst.
  destruct (Rep_color h0 st (Frame s' RB_BLACK g (Nd RB_RED ul ux ur) :: p) s RB_RED RB_BLACK t px sib HR) as (st1 & -> & HR1).
  cbn [rbind]. rewrite plug_cons in HR1. unfold fill in HR1. cbn [fside fcolor floc fsib] in HR1.
  rewrite <- nd_opp in HR1. change (Nd RB_RED ul ux ur) with (nd L RB_RED ul ux ur) in HR1.
  destruct (Rep_color h0 st1 (Frame (opp s') RB_BLACK g (nd s RB_BLACK t px sib) :: p) L RB_RED RB_BLACK ul ux ur HR1) as (st2 & Hst2 & HR2).
  cbn [rootp]. rewrite Hst2. cbn [rbind]. rewrite plug_cons in HR2. unfold fill in HR2.
  cbn [fside fcolor floc fsib] in HR2. rewrite nd_opp in HR2.
  destruct (Rep_color h0 st2 p s' RB_BLACK RB_RED _ g _ HR2) as (st3 & -> & HR3).
  eexists _, _. split; [done|]. split; [exact HR3|]. split; [done|]. by eapply (RB_nd_black L).
Qed.

Lemma balanced_locs h0 st T T' : balanced h0 st T -> locs T = locs T' -> balanced h0 st T'.
Proof. intros (T1 & N & ? & ? & ?) E'. exists T1, N. by rewrite <- E'. Qed.

Lemma insert_loop_spec h0 : forall m p st fuel a z b n,
  (length p <= m)%nat -> (m + 3 <= fuel)%nat ->
  Rep h0 st (plug p (nd L RB_RED a z b)) -> RB a RB_BLACK n -> RB b RB_BLACK n -> RBP p RB_BLACK n ->
  exists st', insert_loop augment fuel st (Some z) = Ok st' /\ balanced h0 st' (plug p (nd L RB_RED a z b)).
Proof.
  induction m as [m IH] using lt_wf_ind. intros p st fuel a z b n Hlen Hfuel HR Ha Hb Hp.
  destruct fuel as [|[|fuel]]; [lia|lia|].
  inversion Hp as [n0|s px sib p1 n0 Hsib Hp1|s px sib p1 c cs n0 Hsib Hp1]; subst.
  { eexists. apply insert_loop_stop with (n := n); auto. }
  2:{ eexists. apply insert_loop_stop with (n := n); auto. right. by econstructor. }
  inversion Hp1 as [| |s' g u p2 c cu n0 Hu Hp2]; subst. cbn [length] in Hlen.
  rewrite !plug_cons in *. unfold fill in *. cbn [fside fcolor floc fsib] in *.
  destruct cu.
  - (* red uncle *)
    erewrite insert_loop_step; [|exact HR|exact Hu]. rewrite bool_decide_true by done. cbv iota.
    destruct (insert_recolour _ _ _ _ _ _ _ _ _ _ _ HR Hu) as (st' & u' & Hst & HR' & Hlu & Hu').
    apply rbind_inv in Hst as (st1 & -> & Hst). apply rbind_inv in Hst as (st2 & E2 & Hst).
    cbn [rbind]. rewrite E2. cbn [rbind]. rewrite Hst. cbn [rbind].
    assert (exists a' b', nd s' RB_RED (nd s RB_BLACK (nd L RB_RED a z b) px sib) g u' = nd L RB_RED a' g b'
              /\ RB a' RB_BLACK (S n) /\ RB b' RB_BLACK (S n)) as (a' & b' & Eq & Ha' & Hb').
    { assert (RB (nd s RB_BLACK (nd L RB_RED a z b) px sib) RB_BLACK (S n))
        by (eapply RB_nd_black; [by apply RB_nd_red|done]).
      destruct s'; eexists _, _; split; [done|by split|done|by split]. }
    rewrite Eq in HR'.
    destruct (IH (m - 2)%nat ltac:(lia) p2 st' (S fuel) a' g b' (S n)) as (st3 & -> & HB); [lia|lia|done..|].
    eexists. split; [done|]. eapply balanced_locs; [exact HB|]. rewrite <- Eq. apply locs_plug_eq.
    apply locs_nd_color; [|done]. by apply locs_nd_color.
  - destruct (decide (s = s')) as [->|Hs].
    + (* straight *) eapply insert_loop_line; eauto.
    + (* bent *)
      assert (s = opp s') as -> by (by destruct s, s').
      erewrite insert_loop_step; [|exact HR|exact Hu]. rewrite bool_decide_false by done. cbv iota.
      rewrite mkn_child, decide_True by done.
      rewrite nd_opp in HR. 
      assert (exists a' b', nd L RB_RED a z b = nd s' RB_RED a' z b' /\ RB a' RB_BLACK n /\ RB b' RB_BLACK n)
        as (a' & b' & Eq & Ha' & Hb').
      { destruct s'; eexists _, _; split; [done|by split|done|by split]. }
      rewrite Eq in *.
      destruct (Rep_rotate augment h0 st s' (Frame s' RB_BLACK g u :: p2) _ _ _ _ _ _ _ HR) as (st1 & -> & HR1).
      cbn [rbind]. rewrite plug_cons in HR1. unfold fill in HR1. cbn [fside fcolor floc fsib] in HR1.
      destruct fuel as [|fuel]; [lia|].
      assert (exists a2 b2, nd s' RB_RED sib px a' = nd L RB_RED a2 px b2 /\ RB a2 RB_BLACK n /\ RB b2 RB_BLACK n)
        as (a2 & b2 & Eq2 & Ha2 & Hb2).
      { destruct s'; eexists _, _; split; [done|by split|done|by split]. }
      rewrite Eq2 in HR1.
      destruct (insert_loop_line h0 st1 fuel p2 s' a2 px b2 z b' g u n RB_BLACK) as (st2 & -> & HB); [done..|].
      eexists. split; [done|]. eapply balanced_locs; [exact HB|]. apply locs_plug_eq.
      apply locs_nd_color; [|done]. rewrite <- Eq2, nd_opp. symmetry. apply locs_nd_rotate.
Qed.


(** *** Removal *)

(** The reference the code keeps to the root of the hole. *)
Definition xref (t : tree) (par : ptr) : rbref :=
  match rootp t with
  | None => Nil par
  | Some x => Real x
  end.

(** [x->color = RB_BLACK] behind the loop. *)
Definition paint st (x : rbref) : res (rbtree E) :=
  match x with
  | Nil _ => Ok st
  | Real l => wr st (Some l) (set_color RB_BLACK)
  end.

(** The loop and the last assignment leave a red-black tree. *)
Definition remove_done (h0 : gmap loc rbnode) (r : res (rbtree E * rbref)) (T : tree) : Prop :=
  exists st x st' T' N, r = Ok (st, x) /\ paint st x = Ok st' /\
    Rep h0 st' T' /\ locs T' = locs T /\ RB T' RB_BLACK N.

Lemma remove_done_locs h0 r T T' : remove_done h0 r T -> locs T = locs T' -> remove_done h0 r T'.
Proof. intros (st & x & st' & T1 & N & ? & ? & ? & ? & ?) E'. exists st, x, st', T1, N. by rewrite <- E'. Qed.

(** The red hole, or the hole at the root: the loop stops. *)
Lemma remove_stop h0 st fuel p s c a x b n :
  Rep h0 st (plug p (nd s c a x b)) -> (p = [] \/ c = RB_RED) -> RBP p RB_BLACK n ->
  RB (nd s RB_BLACK a x b) RB_BLACK n ->
  remove_done h0 (remove_loop augment (S fuel) st (Real x)) (plug p (nd s c a x b)).
Proof.
  intros HR Hc Hp Ht. destruct (Rep_color h0 st p s c RB_BLACK a x b HR) as (st' & Hst & HR').
  destruct (RB_plug p RB_BLACK n _ Hp Ht) as [N HN]. exists st, (Real x), st', (plug p (nd s RB_BLACK a x b)), N.
  split; [|split; [exact Hst|]]; [|split; [exact HR'|]; split; [|exact HN]].
  - cbn [remove_loop]. destruct (ref_eq (Real x) (root st)) eqn:Er; [done|]. destruct Hc as [->| ->].
    + exfalso. pose proof (Rep_root _ _ _ HR) as Hr. simpl in Hr. rewrite rootp_nd in Hr.
      cbn [ref_eq] in Er. by rewrite Hr, bool_decide_true in Er.
    + cbn [ref_black]. rewrite (rd_ok _ _ _ (Rep_lookup _ _ _ _ _ _ _ _ HR)). cbn [rbind].
      rewrite mkn_color, bool_decide_false by done. done.
  - apply locs_plug_eq. by apply locs_nd_color.
Qed.

Lemma root_not_hole h0 st f p t : Rep h0 st (plug (f :: p) t) -> ref_eq (xref t (Some (floc f))) (root st) = false.
Proof.
  intros HR. unfold xref. destruct (rootp t) as [x|] eqn:Ex; [|done]. cbn [ref_eq].
  apply bool_decide_eq_false. rewrite (Rep_root _ _ _ HR), rootp_plug_eq. intros Hx.
  assert (Hin : forall p q, p <> [] -> forall y, proot p q = Some y -> y ∈ plocs p).
  { clear. induction p as [|g p IH]; intros q Hne y; [done|]. simpl. destruct p as [|g' p].
    - intros [= <-]. set_solver.
    - intros Hy. apply IH in Hy; [|done]. set_solver. }
  apply Hin in Hx; [|done]. pose proof (Rep_nodup _ _ _ HR) as Hnd. rewrite locs_plug_perm in Hnd.
  apply NoDup_app in Hnd as (_ & Hd & _). eapply Hd; [exact Hx|]. by apply rootp_in.
Qed.

(** Reading the hole. *)
Lemma xref_parent h0 st f p t : Rep h0 st (plug (f :: p) t) ->
  ref_parent st (xref t (Some (floc f))) = Ok (Some (floc f)).
Proof.
  intros HR. destruct t as [|c l x r]; [done|]. change (Nd c l x r) with (nd L c l x r) in HR.
  unfold xref. cbn [rootp ref_parent]. by rewrite (rd_ok _ _ _ (Rep_lookup _ _ _ _ _ _ _ _ HR)).
Qed.
Lemma xref_black h0 st p t par n : Rep h0 st (plug p t) -> RB t RB_BLACK n -> ref_black st (xref t par) = Ok true.
Proof.
  intros HR Ht. destruct t as [|c l x r]; [done|]. change (Nd c l x r) with (nd L c l x r) in *.
  apply RB_nd_inv in Ht as [<- _]. unfold xref. cbn [rootp ref_black nd].
  rewrite (rd_ok _ _ _ (Rep_lookup _ _ _ _ _ _ _ _ HR)). cbn [rbind]. rewrite mkn_color. done.
Qed.
Lemma xref_side h0 st p s c t px w : Rep h0 st (plug p (nd s c t px w)) -> w <> Lf ->
  (let np := mkn s (pparent p) (rootp t) (rootp w) c in
   if ref_eq (xref t (Some px)) (left np) || (is_nil (xref t (Some px)) && bool_decide (left np = NULL))
   then L else R) = s.
Proof.
  intros HR Hw. cbv zeta. unfold xref. destruct (rootp t) as [x|] eqn:Ex.
  - pose proof (distinct_children HR Ex) as Hne. cbn [ref_eq is_nil andb]. rewrite orb_false_r.
    destruct s; simpl; [by rewrite bool_decide_true|by rewrite bool_decide_false].
  - cbn [ref_eq is_nil andb orb]. destruct w as [|wc wl wx wr]; [done|]. by destruct s.
Qed.

(** One iteration at a black hole below [px]. *)
Lemma remove_loop_step h0 st fuel p s c t px w n :
  Rep h0 st (plug p (nd s c t px w)) -> w <> Lf -> RB t RB_BLACK n ->
  remove_loop augment (S fuel) st (xref t (Some px)) =
    let? (st, x) := remove_body augment s st (xref t (Some px)) in remove_loop augment fuel st x.
Proof.
  intros HR Hw Ht. cbn [remove_loop].
  pose proof (root_not_hole h0 st (Frame s c px w) p t HR) as E1. cbn [floc] in E1. rewrite E1.
  rewrite (xref_black h0 st (Frame s c px w :: p) t _ n HR Ht). cbn [rbind].
  pose proof (xref_parent h0 st (Frame s c px w) p t HR) as E2. cbn [floc] in E2. rewrite E2. cbn [rbind].
  rewrite (rd_ok _ _ _ (Rep_lookup _ _ _ _ _ _ _ _ HR)). cbn [rbind].
  pose proof (xref_side _ _ _ _ _ _ _ _ HR Hw) as E3. cbv zeta in E3. by rewrite E3.
Qed.

Lemma remove_body_black h0 st p s c t px wa wx wb :
  Rep h0 st (plug p (nd s c t px (nd s RB_BLACK wa wx wb))) ->
  remove_body augment s st (xref t (Some px)) = remove_black augment s st (xref t (Some px)) (Some wx).
Proof.
  intros HR. unfold remove_body.
  pose proof (xref_parent h0 st (Frame s c px (nd s RB_BLACK wa wx wb)) p t HR) as E2. cbn [floc] in E2. rewrite E2. cbn [rbind].
  rewrite (rd_ok _ _ _ (Rep_lookup _ _ _ _ _ _ _ _ HR)). cbn [rbind]. rewrite mkn_child_opp, rootp_nd.
  rewrite <- nd_opp in HR.
  pose proof (Rep_lookup h0 st (Frame (opp s) c px t :: p) s RB_BLACK wa wx wb HR) as Hw.
  rewrite (rd_ok _ _ _ Hw). cbn [rbind]. by rewrite mkn_color, decide_False.
Qed.

(** Reading the two children of a black sibling. *)
Lemma remove_black_children h0 st p s c t px wa wx wb ca cb n :
  Rep h0 st (plug p (nd s c t px (nd s RB_BLACK wa wx wb))) -> RB wa ca n -> RB wb cb n ->
  nodes st !! wx = Some (mkn s (Some px) (rootp wa) (rootp wb) RB_BLACK) /\
  is_black st (rootp wa) = Ok (bool_decide (ca = RB_BLACK)) /\
  is_black st (rootp wb) = Ok (bool_decide (cb = RB_BLACK)).
Proof.
  intros HR Ha Hb. rewrite <- nd_opp in HR. split; [exact (Rep_lookup h0 st (Frame (opp s) c px t :: p) s _ _ _ _ HR)|].
  unfold is_black. split.
  - rewrite (is_red_spec h0 st (Frame s RB_BLACK wx wb :: Frame (opp s) c px t :: p) wa ca n HR Ha). by destruct ca.
  - rewrite (is_red_spec h0 st (Frame (opp s) RB_BLACK wx wa :: Frame (opp s) c px t :: p) wb cb n); [by destruct cb| |done].
    rewrite plug_cons. unfold fill. cbn [fside fcolor floc fsib]. by rewrite nd_opp.
Qed.

(** The far child is red: one rotation ends the loop. *)
Lemma remove_far_red h0 st fuel p s c t px wa wx wb n N :
  Rep h0 st (plug p (nd s c t px (nd s RB_BLACK wa wx wb))) -> RB t RB_BLACK n ->
  (exists ca, RB wa ca n) -> RB wb RB_RED n -> RBP p c N -> N = match c with RB_RED => S n | RB_BLACK => S (S n) end ->
  remove_done h0 (let? (st, x) := remove_black augment s st (xref t (Some px)) (Some wx) in
                  remove_loop augment (S fuel) st x)
    (plug p (nd s c t px (nd s RB_BLACK wa wx wb))).
Proof.
  intros HR Ht [ca Ha] Hb Hp HN. unfold remove_black.
  destruct (remove_black_children _ _ _ _ _ _ _ _ _ _ _ _ _ HR Ha Hb) as (Hw & Ea & Eb).
  rewrite (rd_ok _ _ _ Hw). cbn [rbind]. rewrite mkn_child, mkn_child_opp, Ea. cbn [rbind]. rewrite Eb. cbn [rbind].
  rewrite (bool_decide_false (RB_RED = RB_BLACK)) by done. rewrite andb_false_r. cbv iota.
  pose proof (xref_parent h0 st (Frame s c px (nd s RB_BLACK wa wx wb)) p t HR) as E2. cbn [floc] in E2. rewrite E2. cbn [rbind].
  rewrite (rd_ok _ _ _ (Rep_lookup _ _ _ _ _ _ _ _ HR)). cbn [rbind]. rewrite mkn_color.
  rewrite <- nd_opp in HR.
  destruct (Rep_color h0 st (Frame (opp s) c px t :: p) s RB_BLACK c wa wx wb HR) as (st1 & -> & HR1). cbn [rbind].
  rewrite plug_cons in HR1. unfold fill in HR1. cbn [fside fcolor floc fsib] in HR1.
  destruct (Rep_color h0 st1 p (opp s) c RB_BLACK _ px t HR1) as (st2 & -> & HR2). cbn [rbind].
  pose proof (Rep_lookup h0 st2 (Frame (opp s) RB_BLACK px t :: p) s c wa wx wb HR2) as Hw2.
  rewrite (rd_ok _ _ _ Hw2). cbn [rbind]. rewrite mkn_child_opp.
  inversion Hb as [|bl bx br m Hbl Hbr|]; subst. cbn [rootp].
  rewrite <- (nd_opp s c) in HR2. change (Nd RB_RED bl bx br) with (nd L RB_RED bl bx br) in HR2.
  destruct (Rep_color h0 st2 (Frame (opp s) c wx wa :: Frame (opp s) RB_BLACK px t :: p) L RB_RED RB_BLACK bl bx br HR2) as (st3 & -> & HR3). cbn [rbind].
  rewrite !plug_cons in HR3. unfold fill in HR3. cbn [fside fcolor floc fsib] in HR3. rewrite !nd_opp in HR3.
  destruct (Rep_rotate augment h0 st3 s p _ _ _ _ _ _ _ HR3) as (st4 & -> & HR4). cbn [rbind].
  set (T := plug p (nd s c (nd s RB_BLACK t px wa) wx (nd L RB_BLACK bl bx br))) in *.
  assert (exists M, RB T RB_BLACK M) as [M HM].
  { assert (Hn1 : RB (nd s RB_BLACK t px wa) RB_BLACK (S n)) by (by eapply RB_nd_black).
    assert (Hn2 : RB (nd L RB_BLACK bl bx br) RB_BLACK (S n)) by (by eapply RB_nd_black).
    eapply RB_plug; [exact Hp|]. destruct c; [by apply RB_nd_red|by eapply RB_nd_black]. }
  assert (HT : T <> Lf) by apply plug_not_lf, nd_not_lf.
  rewrite (Rep_root _ _ _ HR4). destruct T as [|ct tl tx tr] eqn:ET; [done|]. cbn [rootp to_ref rbind].
  change (Nd ct tl tx tr) with (nd L ct tl tx tr) in *. assert (ct = RB_BLACK) as -> by (by apply RB_nd_inv in HM as [<- _]).
  eapply remove_done_locs; [eapply (remove_stop h0 st4 fuel [] L RB_BLACK tl tx tr M); [done|by left|constructor|done]|].
  change (plug [] ?t) with t. rewrite <- ET. subst T. apply locs_plug_eq. rewrite <- (locs_nd_rotate s c RB_BLACK RB_BLACK c).
  apply locs_nd_color; [done|]. by apply locs_nd_color.
Qed.


(** The near child is red: a rotation makes the far child red. *)
Lemma remove_near_red h0 st fuel p s c t px wa wx wb n N :
  Rep h0 st (plug p (nd s c t px (nd s RB_BLACK wa wx wb))) -> RB t RB_BLACK n ->
  RB wa RB_RED n -> RB wb RB_BLACK n -> RBP p c N -> N = match c with RB_RED => S n | RB_BLACK => S (S n) end ->
  remove_done h0 (let? (st, x) := remove_black augment s st (xref t (Some px)) (Some wx) in
                  remove_loop augment (S (S fuel)) st x)
    (plug p (nd s c t px (nd s RB_BLACK wa wx wb))).
Proof.
  intros HR Ht Ha Hb Hp HN. unfold remove_black.
  destruct (remove_black_children _ _ _ _ _ _ _ _ _ _ _ _ _ HR Ha Hb) as (Hw & Ea & Eb).
  rewrite (rd_ok _ _ _ Hw). cbn [rbind]. rewrite mkn_child, mkn_child_opp, Ea. cbn [rbind]. rewrite Eb. cbn [rbind].
  rewrite (bool_decide_false (RB_RED = RB_BLACK)) by done. cbn [andb]. rewrite bool_decide_true by done. cbv iota.
  assert (exists q y r, wa = nd s RB_RED q y r /\ RB q RB_BLACK n /\ RB r RB_BLACK n) as (q & y & r & -> & Hq & Hr).
  { inversion Ha; subst. destruct s; eexists _, _, _; split; [done|by split|done|by split]. }
  rewrite rootp_nd. rewrite <- nd_opp in HR.
  destruct (Rep_color h0 st (Frame s RB_BLACK wx wb :: Frame (opp s) c px t :: p) s RB_RED RB_BLACK q y r HR) as (st1 & -> & HR1).
  cbn [rbind]. rewrite plug_cons in HR1. unfold fill in HR1. cbn [fside fcolor floc fsib] in HR1.
  destruct (Rep_color h0 st1 (Frame (opp s) c px t :: p) s RB_BLACK RB_RED _ wx wb HR1) as (st2 & -> & HR2). cbn [rbind].
  destruct (Rep_rotate_opp h0 st2 s (Frame (opp s) c px t :: p) _ _ wb wx r y q HR2) as (st3 & -> & HR3). cbn [rbind].
  rewrite plug_cons in HR3. unfold fill in HR3. cbn [fside fcolor floc fsib] in HR3. rewrite nd_opp in HR3.
  rewrite (remove_loop_step h0 st3 (S fuel) p s c t px _ n HR3 (nd_not_lf _ _ _ _ _) Ht).
  rewrite (remove_body_black _ _ _ _ _ _ _ _ _ _ HR3).
  eapply remove_done_locs; [eapply (remove_far_red _ _ fuel _ _ _ _ _ _ _ _ n N HR3); eauto|].
  { by apply RB_nd_red. }
  apply locs_plug_eq, locs_nd_color; [done|].
  destruct s; simpl; by simplify_list_eq.
Qed.

(** A black sibling: the sibling turns red and the hole moves up, or a rotation
    ends the loop. *)
Lemma remove_black_sibling h0 st fuel p s c t px wa wx wb n N :
  Rep h0 st (plug p (nd s c t px (nd s RB_BLACK wa wx wb))) -> RB t RB_BLACK n ->
  RB (nd s RB_BLACK wa wx wb) RB_BLACK (S n) ->
  RBP p c N -> N = match c with RB_RED => S n | RB_BLACK => S (S n) end ->
  (c = RB_BLACK -> forall st', Rep h0 st' (plug p (nd s c t px (nd s RB_RED wa wx wb))) ->
     RB (nd s c t px (nd s RB_RED wa wx wb)) RB_BLACK (S n) ->
     remove_done h0 (remove_loop augment (S (S fuel)) st' (Real px)) (plug p (nd s c t px (nd s RB_RED wa wx wb)))) ->
  remove_done h0 (let? (st, x) := remove_black augment s st (xref t (Some px)) (Some wx) in
                  remove_loop augment (S (S fuel)) st x)
    (plug p (nd s c t px (nd s RB_BLACK wa wx wb))).
Proof.
  intros HR Ht Hw Hp HN HI. apply RB_nd_inv in Hw as (_ & ca & cb & m & [= <-] & Ha & Hb).
  destruct cb; [by eapply remove_far_red; eauto|]. destruct ca; [by eapply remove_near_red; eauto|].
  unfold remove_black.
  destruct (remove_black_children _ _ _ _ _ _ _ _ _ _ _ _ _ HR Ha Hb) as (Hw & Ea & Eb).
  rewrite (rd_ok _ _ _ Hw). cbn [rbind]. rewrite mkn_child, mkn_child_opp, Ea. cbn [rbind]. rewrite Eb. cbn [rbind].
  rewrite bool_decide_true by done. cbn [andb]. cbv iota.
  rewrite <- nd_opp in HR.
  destruct (Rep_color h0 st (Frame (opp s) c px t :: p) s RB_BLACK RB_RED wa wx wb HR) as (st1 & -> & HR1). cbn [rbind].
  rewrite plug_cons in HR1. unfold fill in HR1. cbn [fside fcolor floc fsib] in HR1. rewrite nd_opp in HR1.
  pose proof (xref_parent h0 st1 (Frame s c px (nd s RB_RED wa wx wb)) p t HR1) as E2. cbn [floc] in E2. rewrite E2. cbn [rbind to_ref].
  assert (Hl : locs (plug p (nd s c t px (nd s RB_RED wa wx wb))) = locs (plug p (nd s c t px (nd s RB_BLACK wa wx wb))))
    by (apply locs_plug_eq, locs_nd_color; [done|]; by apply locs_nd_color).
  eapply remove_done_locs; [|exact Hl]. destruct c.
  - eapply (remove_stop _ _ _ _ _ _ _ _ _ (S n)); [exact HR1|by right|subst N; by eapply RBP_weaken|].
    eapply RB_nd_black; [exact Ht|]. by apply RB_nd_red.
  - apply HI; [done|done|]. eapply RB_nd_black; [exact Ht|]. by apply RB_nd_red.
Qed.

(** What the loop assumes of the hole: it lacks one black node. *)
Definition deficient (t : tree) (n : nat) : Prop :=
  RB t RB_BLACK n \/ exists s a x b, t = nd s RB_RED a x b /\ RB (nd s RB_BLACK a x b) RB_BLACK (S n).

Lemma remove_loop_spec h0 : forall p st fuel t n,
  (length p + 4 <= fuel)%nat -> Rep h0 st (plug p t) -> plug p t <> Lf ->
  deficient t n -> RBP p RB_BLACK (S n) ->
  remove_done h0 (remove_loop augment fuel st (xref t (pparent p))) (plug p t).
Proof.
  induction p as [|[s c px w] p IH]; intros st fuel t n Hfuel HR Hne Hd Hp.
  - destruct fuel as [|fuel]; [simpl in Hfuel; lia|]. simpl in Hne.
    destruct Hd as [Ht|(s & a & x & b & -> & Ht)].
    + inversion Ht as [| |l x r cl cr m Hl Hr]; subst; [done|].
      eapply (remove_stop _ _ _ [] L RB_BLACK l x r (S m)); [done|by left|constructor|]. by econstructor.
    + unfold xref. rewrite rootp_nd. eapply remove_stop; [exact HR|by left|exact Hp|done].
  - cbn [length] in Hfuel. destruct fuel as [|[|[|fuel]]]; [lia|lia|lia|]. destruct Hd as [Ht|(s' & a & x & b & -> & Ht)].
    2:{ unfold xref. rewrite rootp_nd. eapply remove_stop; [exact HR|by right|exact Hp|done]. }
    rewrite plug_cons in *. unfold fill in *. cbn [fside fcolor floc fsib pparent] in *.
    assert (Hc : RB w RB_BLACK (S n) /\ RBP p c (match c with RB_RED => S n | RB_BLACK => S (S n) end) \/
                 c = RB_BLACK /\ RB w RB_RED (S n) /\ RBP p RB_BLACK (S (S n))).
    { inversion Hp as [|? ? ? ? ? Hw Hp'|? ? ? ? ? cs ? Hw Hp']; subst; [by left|]. destruct cs; [by right|by left]. }
    assert (Hwl : w <> Lf) by (intros ->; destruct Hc as [[Hw _]|(_ & Hw & _)]; by inversion Hw).
    rewrite (remove_loop_step h0 st _ p s c t px w n HR Hwl Ht).
    destruct Hc as [[Hw Hp']|(-> & Hw & Hp')].
    + assert (exists wa wx wb, w = nd s RB_BLACK wa wx wb) as (wa & wx & wb & ->).
      { inversion Hw; subst. destruct s; eauto. }
      rewrite (remove_body_black _ _ _ _ _ _ _ _ _ _ HR).
      eapply (remove_black_sibling _ _ fuel); [exact HR|exact Ht|exact Hw|exact Hp'|done|].
      intros -> st' HR' Hd. specialize (IH st' (S (S fuel)) _ (S n) ltac:(lia) HR' (plug_not_lf _ _ (nd_not_lf _ _ _ _ _))).
      unfold xref in IH. rewrite rootp_nd in IH. apply IH; [by left|done].
    + assert (exists wa wx wb, w = nd s RB_RED wa wx wb) as (wa & wx & wb & ->).
      { inversion Hw; subst. destruct s; eauto. }
      apply RB_nd_inv in Hw as (_ & Hwa & Hwb).
      assert (exists e y d, wa = nd s RB_BLACK e y d) as (e & y & d & ->).
      { inversion Hwa; subst. destruct s; eauto. }
      unfold remove_body. pose proof (xref_parent h0 st (Frame s RB_BLACK px _) p t HR) as E2. cbn [floc] in E2.
      rewrite E2. cbn [rbind]. rewrite (rd_ok _ _ _ (Rep_lookup _ _ _ _ _ _ _ _ HR)). cbn [rbind].
      rewrite mkn_child_opp, rootp_nd. rewrite <- nd_opp in HR.
      pose proof (Rep_lookup h0 st (Frame (opp s) RB_BLACK px t :: p) s RB_RED _ wx wb HR) as Hwx.
      rewrite (rd_ok _ _ _ Hwx). cbn [rbind]. rewrite mkn_color, decide_True by done.
      destruct (Rep_color h0 st (Frame (opp s) RB_BLACK px t :: p) s RB_RED RB_BLACK _ wx wb HR) as (st1 & -> & HR1).
      cbn [rbind]. rewrite plug_cons in HR1. unfold fill in HR1. cbn [fside fcolor floc fsib] in HR1.
      destruct (Rep_color h0 st1 p (opp s) RB_BLACK RB_RED _ px t HR1) as (st2 & -> & HR2). cbn [rbind].
      rewrite nd_opp in HR2. destruct (Rep_rotate augment h0 st2 s p _ _ _ _ _ _ _ HR2) as (st3 & -> & HR3). cbn [rbind].
      pose proof (xref_parent h0 st3 (Frame s RB_RED px (nd s RB_BLACK e y d)) (Frame s RB_BLACK wx wb :: p) t HR3) as E3.
      cbn [floc] in E3. rewrite E3. cbn [rbind].
      rewrite (rd_ok _ _ _ (Rep_lookup h0 st3 (Frame s RB_BLACK wx wb :: p) _ _ _ _ _ HR3)). cbn [rbind].
      rewrite mkn_child_opp, rootp_nd.
      eapply remove_done_locs.
      * eapply (remove_black_sibling h0 st3 fuel (Frame s RB_BLACK wx wb :: p)); [exact HR3|exact Ht|exact Hwa| |done|done].
        econstructor; [exact Hwb|done].
      * rewrite plug_cons. unfold fill. cbn [fside fcolor floc fsib]. apply locs_plug_eq. symmetry.
        apply locs_nd_rotate.
Qed.

(** ** The two balancing routines *)

Lemma length_path_fuel h0 st p t : Rep h0 st (plug p t) -> (length p <= size (nodes st))%nat.
Proof.
  intros [_ HR Hnd _]. 
  assert (Hlen : (length p <= length (plocs p))%nat).
  { clear. induction p as [|f p IH]; simpl; rewrite ?length_app; lia. }
  assert (Hsub : forall par T, rep (nodes st) par T -> (list_to_set (locs T) : gset loc) ⊆ dom (nodes st)).
  { clear. intros par T. revert par. induction T as [|c l IHl x r IHr]; intros par; simpl; [set_solver|].
    intros (Hx & Hl & Hr). apply IHl in Hl. apply IHr in Hr. apply elem_of_dom_2 in Hx.
    rewrite list_to_set_app. set_solver. }
  apply Hsub in HR. apply subseteq_size in HR. rewrite size_list_to_set in HR by done.
  rewrite size_dom in HR. rewrite locs_plug_perm, length_app in HR. lia.
Qed.

Lemma lib_rbInsertBalance_spec h0 st p z :
  Rep h0 st (plug p (Nd RB_RED Lf z Lf)) -> RBP p RB_BLACK 0 ->
  exists st' T' N, lib_rbInsertBalance augment st (Some z) = Ok st' /\ Rep h0 st' T' /\
    locs T' = locs (plug p (Nd RB_RED Lf z Lf)) /\ RB T' RB_BLACK N.
Proof.
  intros HR Hp. pose proof (length_path_fuel _ _ _ _ HR) as Hlen.
  destruct (insert_loop_spec h0 (length p) p st (path_fuel st) Lf z Lf 0) as (st1 & E1 & T1 & N & HR1 & HL & HB & Hne);
    [lia|unfold path_fuel; lia|done|constructor|constructor|done|].
  unfold lib_rbInsertBalance. rewrite E1. cbn [rbind]. destruct T1 as [|c l x r]; [done|].
  rewrite (Rep_root _ _ _ HR1). destruct (Rep_color h0 st1 [] L c RB_BLACK l x r HR1) as (st2 & E2 & HR2).
  exists st2, (Nd RB_BLACK l x r), N. split; [exact E2|]. split; [exact HR2|]. split; [|done]. exact HL.
Qed.

Lemma lib_rbRemoveBalance_spec h0 st p t n :
  Rep h0 st (plug p t) -> deficient t n -> RBP p RB_BLACK (S n) ->
  exists st' T' N, lib_rbRemoveBalance augment st (pparent p) (rootp t) = Ok st' /\ Rep h0 st' T' /\
    locs T' = locs (plug p t) /\ RB T' RB_BLACK N.
Proof.
  intros HR Hd Hp. unfold lib_rbRemoveBalance. rewrite (Rep_root _ _ _ HR).
  destruct (rootp (plug p t)) as [x|] eqn:Ex.
  - pose proof (length_path_fuel _ _ _ _ HR) as Hlen.
    destruct (remove_loop_spec h0 p st (path_fuel st) t n) as (st1 & x1 & st2 & T2 & N & E1 & E2 & HR2 & HL & HB);
      [unfold path_fuel; lia|done|intros Hlf; by rewrite Hlf in Ex|done|done|].
    unfold xref in E1. rewrite E1. cbn [rbind]. exists st2, T2, N. split; [|done]. exact E2.
  - assert (p = [] /\ t = Lf) as [-> ->].
    { rewrite rootp_plug_eq in Ex. destruct p as [|f p].
      - simpl in Ex. by destruct t.
      - exfalso. simpl in Ex. revert Ex. generalize (floc f). clear. induction p as [|g p IH]; simpl; [done|].
        intros y. apply IH. }
    exists st, Lf, 0%nat. split; [done|]. split; [done|]. split; [done|constructor].
Qed.

End Balance.
