(* ===== verification/RbOps.v ===== *)
(** * Red-black trees: the operations

    Searching, insertion, removal and iteration on the heap, proved against
    sorted lists: the members of the tree in order. *)

From S2P Require Import Prelude Rb RbShape RbBalance.
From Stdlib Require Import Sorting.Sorted.

(** ** Positions *)

Lemma locs_split x t : x ∈ locs t -> exists p c l r, t = plug p (Nd c l x r).
Proof.
  induction t as [|c l IHl y r IHr]; simpl; [set_solver|].
  intros [Hx|[->|Hx]%elem_of_cons]%elem_of_app.
  - destruct (IHl Hx) as (p & c' & l' & r' & ->). exists (p ++ [Frame L c y r]), c', l', r'. by rewrite plug_app.
  - by exists [], c, l, r.
  - destruct (IHr Hx) as (p & c' & l' & r' & ->). exists (p ++ [Frame R c y l]), c', l', r'. by rewrite plug_app.
Qed.

Fixpoint height (t : tree) : nat :=
  match t with
  | Lf => 0
  | Nd _ l _ r => S (Nat.max (height l) (height r))
  end.

Lemma nd_eta s c l x r : exists a b, Nd c l x r = nd s c a x b /\ (s = L -> a = l /\ b = r) /\ (s = R -> a = r /\ b = l).
Proof. destruct s; eexists _, _; split; [done|split; by intros|done|split; by intros]. Qed.

Lemma RB_size t c n : RB t c n -> 2 ^ Z.of_nat n <= Z.of_nat (length (locs t)) + 1.
Proof.
  induction 1; simpl; rewrite ?length_app; simpl length; [lia|lia|].
  replace (Z.of_nat (S n)) with (1 + Z.of_nat n) by lia. rewrite Z.pow_add_r by lia. lia.
Qed.
Lemma RB_height t c n : RB t c n -> (height t <= 2 * n + (if decide (c = RB_RED) then 1 else 0))%nat.
Proof.
  induction 1 as [|l x r n Hl IHl Hr IHr|l x r cl cr n Hl IHl Hr IHr]; cbn [height]; [lia| |].
  - rewrite decide_False in IHl, IHr by done. rewrite decide_True by done. lia.
  - rewrite decide_False by done. repeat case_decide; lia.
Qed.
(** The height is at most twice the logarithm of the number of members. *)
Lemma RB_log t n : RB t RB_BLACK n -> 2 ^ Z.of_nat (height t) <= (Z.of_nat (length (locs t)) + 1) ^ 2.
Proof.
  intros Ht. pose proof (RB_size _ _ _ Ht) as Hs. pose proof (RB_height _ _ _ Ht) as Hh.
  rewrite decide_False in Hh by done.
  assert (2 ^ Z.of_nat (height t) <= 2 ^ (Z.of_nat n * 2)) by (apply Z.pow_le_mono_r; lia).
  rewrite Z.pow_mul_r in * by lia. assert (0 < 2 ^ Z.of_nat n) by lia.
  enough ((2 ^ Z.of_nat n) ^ 2 <= (Z.of_nat (length (locs t)) + 1) ^ 2) by lia.
  apply Z.pow_le_mono_l. lia.
Qed.

(** ** Ordering *)

(** What the tree relies on: [compare] orders the nodes strictly (nodes that
    compare equal are the same key). *)
Class RbOrder (compare : loc -> loc -> Z) : Prop := {
  cmp_flip : forall a b, compare a b < 0 <-> 0 < compare b a;
  cmp_trans : forall a b c, compare a b < 0 -> compare b c < 0 -> compare a c < 0;
}.

(** A probe that is monotone along the members: negative, then zero, then
    positive. *)
Definition probe_mono (probe : loc -> Z) : list loc -> Prop :=
  StronglySorted (fun x y => (probe x > 0 -> probe y > 0) /\ (probe y < 0 -> probe x < 0)).

Definition sorted (compare : loc -> loc -> Z) : list loc -> Prop := StronglySorted (fun a b => compare a b < 0).

Lemma SSorted_app {A} (P : A -> A -> Prop) l1 l2 :
  StronglySorted P (l1 ++ l2) <->
  StronglySorted P l1 /\ StronglySorted P l2 /\ forall a b, a ∈ l1 -> b ∈ l2 -> P a b.
Proof.
  induction l1 as [|x l1 IH]; simpl.
  - split; [intros; split_and!; [constructor|done|set_solver]|tauto].
  - split.
    + intros Hs. inversion Hs as [|? ? Hs' Hf]; subst. apply IH in Hs' as (H1 & H2 & H3).
      apply Forall_app in Hf as [Hf1 Hf2]. split_and!; [by constructor|done|].
      intros a b [->|Ha]%elem_of_cons Hb; [|by apply H3]. rewrite Forall_forall in Hf2. auto.
    + intros (H1 & H2 & H3). inversion H1; subst. constructor.
      * apply IH. split_and!; [done|done|]. intros. apply H3; set_solver.
      * apply Forall_app. split; [done|]. apply Forall_forall. intros b Hb. apply H3; set_solver.
Qed.

Lemma SSorted_cons {A} (P : A -> A -> Prop) x l :
  StronglySorted P (x :: l) <-> StronglySorted P l /\ forall b, b ∈ l -> P x b.
Proof.
  split.
  - intros Hs. inversion Hs as [|? ? ? Hf]; subst. rewrite Forall_forall in Hf. auto.
  - intros [? ?]. constructor; [done|]. by apply Forall_forall.
Qed.

Lemma sorted_probe compare `{!RbOrder compare} z l :
  sorted compare l -> probe_mono (fun x => compare x z) l.
Proof.
  induction 1 as [|x l Hs IH Hf]; [constructor|]. constructor; [done|].
  apply Forall_forall. rewrite Forall_forall in Hf. intros y Hy. specialize (Hf y Hy). split; intros Hc.
  - apply Z.lt_gt, cmp_flip. apply (cmp_trans z x y); [|done]. apply cmp_flip. lia.
  - by apply (cmp_trans x y z).
Qed.

(** Descending past a node. *)
Lemma probe_mono_node probe l x r : probe_mono probe (l ++ x :: r) ->
  probe_mono probe l /\ probe_mono probe r /\
  (probe x > 0 -> forall y, y ∈ r -> probe y > 0) /\ (probe x < 0 -> forall y, y ∈ l -> probe y < 0).
Proof.
  intros (Hl & Hr & Hlr)%SSorted_app. apply SSorted_cons in Hr as [Hr Hx]. split_and!; [done|done| |].
  - intros Hp y Hy. by apply Hx.
  - intros Hp y Hy. destruct (Hlr y x) as [_ H]; [done|set_solver|auto].
Qed.

Section Ops.
Context {E : Type} (augment : option (gmap loc rbnode -> loc -> E -> E)).
Implicit Type st : rbtree E.

(** ** Searching *)
Lemma find_loop_spec h0 st probe : forall t p fuel,
  Rep h0 st (plug p t) -> probe_mono probe (locs t) -> (height t < fuel)%nat ->
  exists o, find_loop fuel st probe (rootp t) = Ok o /\
    match o with
    | Some x => x ∈ locs t /\ probe x = 0
    | None => forall x, x ∈ locs t -> probe x <> 0
    end.
Proof.
  induction t as [|c l IHl x r IHr]; intros p fuel HR Hm Hf; (destruct fuel as [|fuel]; [lia|]); cbn [find_loop rootp].
  { exists None. split; [done|set_solver]. }
  simpl in Hm, Hf. apply probe_mono_node in Hm as (Hml & Hmr & Hgt & Hlt).
  case_decide as Hc. { exists (Some x). split; [done|]. simpl. set_solver. }
  rewrite (rd_ok _ _ _ (Rep_lookup h0 st p L c l x r HR)). cbn [rbind mkn left right].
  case_decide as Hs.
  - destruct (IHl (Frame L c x r :: p) fuel HR Hml ltac:(lia)) as (o & -> & Ho). exists o. split; [done|].
    destruct o; [simpl; set_solver|]. intros y [Hy|[->|Hy]%elem_of_cons]%elem_of_app; [auto|done|].
    specialize (Hgt Hs y Hy). lia.
  - destruct (IHr (Frame R c x l :: p) fuel HR Hmr ltac:(lia)) as (o & -> & Ho). exists o. split; [done|].
    destruct o; [simpl; set_solver|]. intros y [Hy|[->|Hy]%elem_of_cons]%elem_of_app; [|done|auto].
    specialize (Hlt ltac:(lia) y Hy). lia.
Qed.

(** The heap has at least as many nodes as the tree is high. *)
Lemma height_path t : exists p, length p = height t /\ exists t', t = plug p t'.
Proof.
  induction t as [|c l (pl & Hl & tl & El) x r (pr & Hr & tr & Er)]; [by exists []; split; [|exists Lf]|].
  cbn [height]. destruct (Nat.max_spec (height l) (height r)) as [[_ ->]|[_ ->]].
  - exists (pr ++ [Frame R c x l]). rewrite length_app. simpl. split; [lia|]. exists tr. by rewrite plug_app, <- Er.
  - exists (pl ++ [Frame L c x r]). rewrite length_app. simpl. split; [lia|]. exists tl. by rewrite plug_app, <- El.
Qed.
Lemma height_fuel h0 st p t : Rep h0 st (plug p t) -> (length p + height t < path_fuel st)%nat.
Proof.
  intros HR. destruct (height_path t) as (q & Hq & t' & ->). rewrite <- plug_app in HR.
  apply length_path_fuel in HR. rewrite length_app in HR. unfold path_fuel. lia.
Qed.

(** ** Extreme members *)
Lemma extreme_spec s h0 st : forall t p, Rep h0 st (plug p t) -> t <> Lf ->
  exists q c y b, t = plug q (nd s c Lf y b) /\ Forall (fun f => fside f = s) q /\
    forall fuel, (length q < fuel)%nat -> extreme_loop s fuel st (rootp t) = Ok (Some y).
Proof.
  assert (Hstep : forall c a x b p, Rep h0 st (plug p (nd s c a x b)) ->
    (a <> Lf -> exists q c y b', a = plug q (nd s c Lf y b') /\ Forall (fun f => fside f = s) q /\
       forall fuel, (length q < fuel)%nat -> extreme_loop s fuel st (rootp a) = Ok (Some y)) ->
    exists q c' y b', nd s c a x b = plug q (nd s c' Lf y b') /\ Forall (fun f => fside f = s) q /\
       forall fuel, (length q < fuel)%nat -> extreme_loop s fuel st (Some x) = Ok (Some y)).
  { intros c a x b p HR IH. pose proof (Rep_lookup _ _ _ _ _ _ _ _ HR) as Hx. destruct (rootp a) as [y|] eqn:Ea.
    - assert (Hne : a <> Lf) by (by intros ->). destruct (IH Hne) as (q & c' & y' & b' & -> & Hq & Hrun).
      exists (q ++ [Frame s c x b]), c', y', b'. split; [by rewrite plug_app|]. split.
      + apply Forall_app. split; [done|]. by constructor.
      + rewrite length_app. simpl. intros [|fuel] Hf; [lia|]. cbn [extreme_loop]. rewrite (rd_ok _ _ _ Hx). cbn [rbind].
        rewrite mkn_child. apply Hrun. lia.
    - destruct a; [|done]. exists [], c, x, b. split; [done|]. split; [constructor|]. intros [|fuel] Hf; [simpl in Hf; lia|].
      cbn [extreme_loop]. rewrite (rd_ok _ _ _ Hx). cbn [rbind]. by rewrite mkn_child. }
  induction t as [|c l IHl x r IHr]; intros p HR Hne; [done|]. destruct s.
  - apply (Hstep c l x r p HR). intros Hl. by apply (IHl (Frame L c x r :: p)).
  - apply (Hstep c r x l p HR). intros Hr. by apply (IHr (Frame R c x l :: p)).
Qed.

Lemma extreme_ok s h0 st t p : Rep h0 st (plug p t) -> t <> Lf ->
  exists q c y b, t = plug q (nd s c Lf y b) /\ Forall (fun f => fside f = s) q /\
    extreme s st (rootp t) = Ok (Some y).
Proof.
  intros HR Hne. destruct (extreme_spec s h0 st t p HR Hne) as (q & c & y & b & Et & Hq & Hrun).
  exists q, c, y, b. split; [done|]. split; [done|]. unfold extreme. destruct t as [|d l x r]; [done|].
  rewrite <- Hrun with (fuel := path_fuel st); [done|]. rewrite Et, <- plug_app in HR.
  apply length_path_fuel in HR. rewrite length_app in HR. unfold path_fuel. lia.
Qed.

(** The members on one side, nearest first. *)
Definition after (s : side) (p : path) : list loc := match s with R => post p | L => reverse (pre p) end.
Definition elems (s : side) (t : tree) : list loc := match s with R => locs t | L => reverse (locs t) end.

Lemma after_same s c x sib p : after s (Frame s c x sib :: p) = after s p.
Proof. by destruct s. Qed.
Lemma after_opp s c x sib p : after s (Frame (opp s) c x sib :: p) = x :: elems s sib ++ after s p.
Proof.
  destruct s; simpl; [|done]. rewrite !reverse_app. simpl. done.
Qed.

(** Along a spine of [s] frames, the extreme member comes last on side [s]. *)
Lemma elems_extreme s q c y b : Forall (fun f => fside f = s) q ->
  head (elems (opp s) (plug q (nd s c Lf y b))) = Some y.
Proof.
  intros Hq.
  assert (Hpre : (match s with L => pre q | R => post q end) = []).
  { induction Hq as [|[s' c' x sib] q Hs Hq IH]; [by destruct s|]. simpl in Hs. subst s'. by destruct s. }
  destruct s; simpl in *; rewrite locs_plug, Hpre; simpl.
  - done.
  - rewrite !app_nil_r, !reverse_app. done.
Qed.

Lemma climb_spec s h0 st : forall p fuel t, Rep h0 st (plug p t) -> t <> Lf -> (length p < fuel)%nat ->
  climb_loop s fuel st (rootp t) = Ok (head (after s p)).
Proof.
  induction p as [|[s' c g u] p IH]; intros fuel t HR Ht Hf; (destruct fuel as [|fuel]; [simpl in Hf; lia|]);
    cbn [climb_loop]; (destruct t as [|d l x r]; [done|]); cbn [rootp].
  - rewrite (rd_ok _ _ _ (Rep_lookup h0 st [] L d l x r HR)). simpl. by destruct s.
  - rewrite (rd_ok _ _ _ (Rep_lookup h0 st (Frame s' c g u :: p) L d l x r HR)). cbn [rbind mkn parent pparent floc].
    set (t := Nd d l x r) in *.
    pose proof (Rep_lookup h0 st p s' c t g u HR) as Hg. rewrite (rd_ok _ _ _ Hg). cbn [rbind].
    destruct (decide (s' = s)) as [->|Hs].
    + rewrite mkn_child, decide_True by done. rewrite after_same.
      change (Some g) with (rootp (Nd c t g u)).
      rewrite plug_cons in HR. unfold fill in HR. cbn [fside fcolor floc fsib] in HR.
      rewrite <- (IH fuel _ HR (nd_not_lf _ _ _ _ _)) by (simpl in Hf; lia). by rewrite rootp_nd.
    + assert (s' = opp s) as -> by (by destruct s, s'). rewrite after_opp.
      assert (child s (mkn (opp s) (pparent p) (rootp t) (rootp u) c) = rootp u) as -> by (by destruct s).
      rewrite decide_False; [done|]. intros Heq. exact (distinct_children (p := p) HR eq_refl (eq_sym Heq)).
Qed.

Lemma neighbour_spec s h0 st p c a x b : Rep h0 st (plug p (nd s c a x b)) ->
  neighbour s st (Some x) = Ok (head (elems s a ++ after s p)).
Proof.
  intros HR. unfold neighbour. rewrite (rd_ok _ _ _ (Rep_lookup _ _ _ _ _ _ _ _ HR)). cbn [rbind].
  rewrite mkn_child. destruct a as [|d l y r].
  - cbn [rootp]. rewrite <- (rootp_nd s c Lf x b).
    rewrite (climb_spec s h0 st p _ _ HR (nd_not_lf _ _ _ _ _)); [by destruct s|].
    apply length_path_fuel in HR. unfold path_fuel. lia.
  - set (t := Nd d l y r) in *. destruct (extreme_ok (opp s) h0 st t (Frame s c x b :: p) HR) as (q & c' & y' & b' & Et & Hq & Hrun); [done|].
    change (rootp t) with (Some y) in *. rewrite Hrun.
    pose proof (elems_extreme (opp s) q c' y' b' Hq) as He. rewrite <- Et, opp_opp in He.
    by rewrite head_app, He.
Qed.

(** ** Insertion *)

(** Everything before the hole is smaller, everything after it is larger. *)
Definition hole_for (probe : loc -> Z) (p : path) : Prop :=
  Forall (fun x => probe x < 0) (pre p) /\ Forall (fun x => probe x > 0) (post p).

Lemma hole_left probe p c x r : hole_for probe p -> probe x > 0 -> (forall y, y ∈ locs r -> probe y > 0) ->
  hole_for probe (Frame L c x r :: p).
Proof.
  intros [H1 H2] Hx Hr. split; simpl; [done|]. constructor; [done|]. apply Forall_app. split; [by apply Forall_forall|done].
Qed.
Lemma hole_right probe p c x l : hole_for probe p -> probe x < 0 -> (forall y, y ∈ locs l -> probe y < 0) ->
  hole_for probe (Frame R c x l :: p).
Proof.
  intros [H1 H2] Hx Hl. split; simpl; [|done]. apply Forall_app. split; [done|]. apply Forall_app.
  split; [by apply Forall_forall|by constructor].
Qed.

Lemma insert_descend_spec compare h0 st z : forall t p fuel c,
  Rep h0 st (plug p t) -> probe_mono (fun x => compare x z) (locs t) -> (height t < fuel)%nat ->
  last_side p c -> hole_for (fun x => compare x z) p ->
  exists o, insert_descend compare fuel st z (rootp t) (pparent p) c = Ok o /\
    match o with
    | None => exists x, x ∈ locs t /\ compare x z = 0
    | Some (y, c') => exists p', plug p' Lf = plug p t /\ y = pparent p' /\ last_side p' c' /\
                        hole_for (fun x => compare x z) p'
    end.
Proof.
  induction t as [|d l IHl x r IHr]; intros p fuel c HR Hm Hf Hs Hh; (destruct fuel as [|fuel]; [lia|]);
    cbn [insert_descend rootp].
  { eexists. split; [done|]. exists p. done. }
  simpl in Hm, Hf. apply probe_mono_node in Hm as (Hml & Hmr & Hgt & Hlt).
  case_decide as Hc. { eexists. split; [done|]. exists x. simpl. set_solver. }
  rewrite (rd_ok _ _ _ (Rep_lookup h0 st p L d l x r HR)). cbn [rbind mkn left right]. case_decide as Hg.
  - destruct (IHl (Frame L d x r :: p) fuel (compare x z) HR Hml ltac:(lia)) as (o & E1 & Ho).
    { simpl. by rewrite decide_True. } { apply hole_left; auto. }
    exists o. split; [exact E1|]. destruct o as [[y c']|]; [exact Ho|]. destruct Ho as (y & Hy & ?). exists y. simpl. set_solver.
  - destruct (IHr (Frame R d x l :: p) fuel (compare x z) HR Hmr ltac:(lia)) as (o & E1 & Ho).
    { simpl. by rewrite decide_False. } { apply hole_right; auto; [lia|]. apply Hlt. lia. }
    exists o. split; [exact E1|]. destruct o as [[y c']|]; [exact Ho|]. destruct Ho as (y & Hy & ?). exists y. simpl. set_solver.
Qed.

Lemma RB_plug_inv p t N : RB (plug p t) RB_BLACK N -> exists c n, RB t c n /\ RBP p c n.
Proof.
  revert t. induction p as [|[s c x sib] p IH]; intros t Ht; [simpl in Ht; exists RB_BLACK, N; split; [done|constructor]|].
  rewrite plug_cons in Ht. apply IH in Ht as (c' & n & Hn & Hp). apply RB_nd_inv in Hn as [-> Hn]. cbn [fcolor] in *.
  destruct c.
  - destruct Hn as [H1 H2]. exists RB_BLACK, n. split; [done|]. by constructor.
  - destruct Hn as (ca & cb & m & -> & H1 & H2). exists ca, m. split; [done|]. by econstructor.
Qed.

(** Insertion into a sorted list; [None] when a member compares equal. *)
Fixpoint ins (compare : loc -> loc -> Z) (z : loc) (l : list loc) : option (list loc) :=
  match l with
  | [] => Some [z]
  | x :: l =>
      if decide (compare x z = 0) then None
      else if decide (compare x z > 0) then Some (z :: x :: l)
      else (cons x) <$> ins compare z l
  end.

Lemma ins_hole compare z l1 l2 : Forall (fun x => compare x z < 0) l1 -> Forall (fun x => compare x z > 0) l2 ->
  ins compare z (l1 ++ l2) = Some (l1 ++ z :: l2).
Proof.
  intros H1 H2. induction H1 as [|x l1 Hx H1 IH]; simpl.
  - destruct H2 as [|x l2 Hx H2]; [done|]. simpl. rewrite decide_False, decide_True by lia. done.
  - rewrite !decide_False by lia. by rewrite IH.
Qed.

Lemma ins_dup compare z l x : probe_mono (fun x => compare x z) l -> x ∈ l -> compare x z = 0 -> ins compare z l = None.
Proof.
  intros Hm Hx Hc. induction Hm as [|y l Hm IH Hf]; [set_solver|]. simpl. case_decide; [done|].
  apply elem_of_cons in Hx as [->|Hx]; [done|]. rewrite Forall_forall in Hf. destruct (Hf x Hx) as [Hf1 _].
  rewrite decide_False by lia. by rewrite IH.
Qed.

(** [rb_models compare st l]: the tree is a red-black tree whose members, in
    order, are [l]. *)
Definition rb_models (compare : loc -> loc -> Z) st (l : list loc) : Prop :=
  exists T N, Rep (nodes st) st T /\ RB T RB_BLACK N /\ locs T = l /\ sorted compare l.

Lemma Rep_self h0 st T : Rep h0 st T -> Rep (nodes st) st T.
Proof. intros [? ? ? ?]. by split. Qed.

Lemma sorted_hole compare `{!RbOrder compare} z l1 l2 : sorted compare (l1 ++ l2) ->
  Forall (fun x => compare x z < 0) l1 -> Forall (fun x => compare x z > 0) l2 -> sorted compare (l1 ++ z :: l2).
Proof.
  intros (H1 & H2 & H3)%SSorted_app Hl Hr. rewrite Forall_forall in Hl, Hr.
  apply SSorted_app. split_and!; [done| |].
  - apply SSorted_cons. split; [done|]. intros b Hb. apply cmp_flip, Z.gt_lt. by apply Hr.
  - intros a b Ha [->|Hb]%elem_of_cons; [by apply Hl|by apply H3].
Qed.

Lemma lib_rbInsert_spec compare `{!RbOrder compare} st l z :
  rb_models compare st l -> is_Some (nodes st !! z) ->
  match ins compare z l with
  | None => lib_rbInsert compare augment st z = Ok (st, - EEXIST)
  | Some l' => exists st', lib_rbInsert compare augment st z = Ok (st', EOK) /\ rb_models compare st' l' /\
                 forall k, k ∉ l' -> nodes st' !! k = nodes st !! k
  end.
Proof.
  intros (T & N & HR & HB & <- & Hs) [n Hn]. pose proof (sorted_probe compare z _ Hs) as Hm.
  destruct (insert_descend_spec compare (nodes st) st z T [] (path_fuel st) 0) as (o & E1 & Ho);
    [done|done|exact (height_fuel _ _ [] T HR)|done|by split|].
  unfold lib_rbInsert. rewrite (Rep_root _ _ _ HR). cbn [pparent] in E1. rewrite E1. cbn [rbind].
  destruct o as [[y c]|]; [|destruct Ho as (x & Hx & Hc); by rewrite (ins_dup compare z _ x)].
  destruct Ho as (p & Ep & -> & Hls & [Hpre Hpost]). change (plug [] T) with T in Ep. subst T.
  rewrite locs_plug in *. simpl locs in *. rewrite app_nil_l in *. rewrite ins_hole by done.
  assert (Hz : compare z z = 0) by (pose proof (cmp_flip z z); lia).
  assert (Hnz : z ∉ locs (plug p Lf)).
  { rewrite locs_plug. simpl. rewrite Forall_forall in Hpre, Hpost. intros [Hi|Hi]%elem_of_app.
    - specialize (Hpre z Hi). simpl in Hpre. lia.
    - specialize (Hpost z Hi). simpl in Hpost. lia. }
  destruct (Rep_attach augment (nodes st) st p z c n HR Hnz Hn Hls) as (st1 & -> & HR1). cbn [rbind].
  apply RB_plug_inv in HB as (cb & nb & Hlf & Hp). inversion Hlf; subst.
  destruct (lib_rbInsertBalance_spec augment (nodes st) st1 p z HR1 Hp) as (st2 & T2 & N2 & -> & HR2 & HL2 & HB2).
  cbn [rbind]. rewrite locs_plug in HL2. simpl in HL2. exists st2. split; [done|]. split.
  - exists T2, N2. split; [by eapply Rep_self|]. split; [done|]. split; [done|]. by apply sorted_hole.
  - intros k Hk. apply (Rep_frame _ _ _ HR2). by rewrite HL2.
Qed.

(** ** Removal *)

(** Taking out a black node leaves its child one black node short. *)
Lemma deficient_child t c n : RB t c n -> deficient t n.
Proof.
  intros Ht. destruct c; [right|by left]. inversion Ht as [|l x r m Hl Hr|]; subst.
  exists L, l, x, r. split; [done|]. by econstructor.
Qed.

(** The colour of the node taken out decides whether to rebalance. *)
Definition rebalance st (c : rbcolor) (par x : ptr) : res (rbtree E) :=
  if decide (c = RB_BLACK) then lib_rbRemoveBalance augment st par x else Ok st.

Lemma rebalance_spec h0 st p c b n m :
  Rep h0 st (plug p b) -> RBP p c n ->
  (match c with RB_RED => RB b RB_BLACK n | RB_BLACK => n = S m /\ exists cb, RB b cb m end) ->
  exists st' T' N, rebalance st c (pparent p) (rootp b) = Ok st' /\ Rep h0 st' T' /\
    locs T' = locs (plug p b) /\ RB T' RB_BLACK N.
Proof.
  intros HR Hp Hb. unfold rebalance. destruct c.
  - rewrite decide_False by done. destruct (RB_plug p RB_BLACK n b) as [N HN]; [by eapply RBP_weaken|done|].
    by exists st, (plug p b), N.
  - rewrite decide_True by done. destruct Hb as (-> & cb & Hb).
    eapply lib_rbRemoveBalance_spec; [done|by eapply deficient_child|done].
Qed.

Lemma RB_child_inv s c t z n c' : RB (nd s c t z Lf) c' n ->
  c' = c /\ exists m, match c with RB_RED => RB t RB_BLACK n | RB_BLACK => n = S m /\ exists cb, RB t cb m end.
Proof.
  intros [-> H]%RB_nd_inv. split; [done|]. destruct c; [by exists 0%nat; destruct H|].
  destruct H as (ca & cb & m & -> & H & _). exists m. eauto.
Qed.

(** A node with at most one child. *)
Lemma remove_one_child h0 st p s c t z nz N :
  Rep h0 st (plug p (nd s c t z Lf)) -> RB (plug p (nd s c t z Lf)) RB_BLACK N -> nodes st !! z = Some nz ->
  exists st' T' N', (let? st := rb_transplant augment st (Some z) (rootp t) in rebalance st c (pparent p) (rootp t)) = Ok st' /\
    Rep (<[z := nz]> h0) st' T' /\ locs T' = locs (plug p t) /\ RB T' RB_BLACK N'.
Proof.
  intros HR HB Hz. apply RB_plug_inv in HB as (c' & n & Ht & Hp). apply RB_child_inv in Ht as [-> [m Ht]].
  destruct (Rep_transplant augment h0 st p s c t z nz HR Hz) as (st1 & -> & HR1). cbn [rbind].
  by eapply rebalance_spec.
Qed.

Lemma RBP_replace_loc q s c z y l p c' n :
  RBP (q ++ Frame s c z l :: p) c' n -> RBP (q ++ Frame s c y l :: p) c' n.
Proof.
  revert c' n. induction q as [|f q IH]; intros c' n; simpl; inversion 1; subst; econstructor; eauto.
Qed.

(** Unlinking the successor from deep in the right subtree. *)
Lemma remove_cut_spec h0 st p c l z cy b y q f :
  Rep h0 st (plug p (Nd c l z (plug (q ++ [f]) (Nd cy Lf y b)))) ->
  let r' := plug (q ++ [f]) b in
  exists st' py ly, remove_cut augment st z (Some y) (rootp b) = Ok st' /\
    root st' = proot p (Some z) /\ rep_path (nodes st') p (Some z) /\
    nodes st' !! z = Some (RbNode (pparent p) (rootp l) (rootp r') c) /\ rep (nodes st') (Some z) l /\
    nodes st' !! y = Some (RbNode py ly (rootp r') cy) /\ rep (nodes st') (Some y) r' /\
    NoDup (plocs p ++ z :: y :: locs l ++ locs r') /\
    (forall k, k ∉ plocs p ++ z :: y :: locs l ++ locs r' -> nodes st' !! k = h0 !! k).
Proof.
  intros HR r'. set (qf := q ++ [f]) in *.
  assert (HR' : Rep h0 st (plug (qf ++ Frame R c z l :: p) (nd R cy b y Lf))) by (by rewrite plug_app).
  pose proof (Rep_lookup _ _ _ _ _ _ _ _ HR') as Hy.
  destruct (Rep_transplant augment h0 st _ R cy b y _ HR' Hy) as (st1 & E1 & HR1).
  assert (Hnd : NoDup (plocs p ++ z :: y :: locs l ++ locs r')).
  { pose proof (Rep_nodup _ _ _ HR') as Hnd. revert Hnd. apply NoDup_Permutation_proper.
    rewrite plug_app, plug_cons. unfold fill. cbn [fside fcolor floc fsib].
    rewrite locs_plug_perm, locs_nd_perm, locs_plug_perm, locs_nd_perm. unfold r'. rewrite locs_plug_perm. simpl. rewrite app_nil_r.
    solve_Permutation. }
  rewrite plug_app, plug_cons in HR1. unfold fill in HR1. cbn [fside fcolor floc fsib] in HR1.
  fold r' in HR1. pose proof (Rep_lookup _ _ _ _ _ _ _ _ HR1) as Hz. 
  assert (Hperm : locs (plug p (nd R c r' z l)) ≡ₚ plocs p ++ z :: locs r' ++ locs l)
    by (by rewrite locs_plug_perm, locs_nd_perm).
  destruct HR1 as [Hr1 [Hp1 Ht1]%rep_plug Hnd1 Hf1]. rewrite rootp_nd in Hp1. apply rep_nd in Ht1 as (_ & Hrr & Hl).
  rewrite rootp_plug_eq, rootp_nd in Hr1.
  assert (Hy1 : nodes st1 !! y = Some (mkn R (pparent (qf ++ Frame R c z l :: p)) (rootp b) (rootp Lf) cy)).
  { rewrite Hf1; [by rewrite lookup_insert_eq|]. rewrite Hperm.
    apply NoDup_app in Hnd as (_ & Hd & [Hz0 Hnd]%NoDup_cons). apply NoDup_cons in Hnd as [Hy0 _].
    rewrite elem_of_app, elem_of_cons, elem_of_app. set_solver. }
  assert (exists x, rootp r' = Some x /\ x ∈ locs r') as (x & Ex & Hx).
  { assert (exists x, rootp r' = Some x) as [x Ex].
    { unfold r'. rewrite rootp_plug_eq. unfold qf. clear. revert f. induction q as [|g q IH] using rev_ind; intros f; [by eexists|].
      simpl. clear IH. generalize (rootp b). induction q as [|h q IH]; intros o; simpl; [by eexists|]. apply IH. }
    exists x. split; [done|]. by apply rootp_in. }
  assert (exists nx, nodes st1 !! x = Some nx) as [nx Hnx].
  { destruct r' as [|? ? ? ?]; simplify_eq/=. destruct Hrr as [-> _]. eauto. }
  unfold remove_cut. rewrite E1. cbn [rbind]. rewrite (rd_ok _ _ _ Hz). cbn [rbind].
  rewrite (wr_ok _ _ _ _ Hy1). cbn [rbind]. erewrite rd_ok; [|cbn [nodes]; by rewrite lookup_alter_eq, Hy1].
  cbn [rbind mkn set_child right]. rewrite Ex.
  pose proof Hnd as Hnd2. apply NoDup_app in Hnd2 as (Hn1 & Hn2 & [Hn3 Hn4]%NoDup_cons).
  apply NoDup_cons in Hn4 as [Hn4 Hn5]. apply NoDup_app in Hn5 as (Hn5 & Hn6 & Hn7).
  assert (x <> y /\ x <> z /\ (x ∉ plocs p) /\ x ∉ locs l) as (Hxy & Hxz & Hxp & Hxl) by set_solver.
  assert (y <> z /\ (y ∉ plocs p) /\ (y ∉ locs l) /\ y ∉ locs r') as (Hyz & Hyp & Hyl & Hyr) by set_solver.
  erewrite wr_ok; [|cbn [nodes]; rewrite lookup_alter_ne by done; exact Hnx]. cbn [nodes root ext].
  assert (Hout : forall k (g1 g2 : rbnode -> rbnode), k <> x -> k <> y -> alter g1 x (alter g2 y (nodes st1)) !! k = nodes st1 !! k)
    by (intros; by rewrite !lookup_alter_ne).
  eexists _, _, _. split; [done|]. cbn [nodes root]. split_and!.
  - done.
  - eapply rep_path_frame; [|exact Hp1]. intros k Hk. apply Hout; set_solver.
  - rewrite Hout by done. rewrite Hz. cbn [mkn]. by rewrite Ex.
  - eapply rep_frame; [|exact Hl]. intros k Hk. apply Hout; set_solver.
  - rewrite lookup_alter_ne, lookup_alter_eq, Hy1 by done. cbn [mkn fmap option_fmap option_map set_child parent left color]. done.
  - eapply (rep_reparent (nodes st1)); [done| |exact Hrr]. intros k Hk. rewrite reparent_rootp, Ex. simpl.
    destruct (decide (k = x)) as [->|Hkx].
    + rewrite !lookup_alter_eq. by rewrite lookup_alter_ne.
    + rewrite Hout, lookup_alter_ne by set_solver. done.
  - done.
  - intros k Hk. rewrite Hout by set_solver. rewrite Hf1.
    + rewrite lookup_insert_ne by set_solver. done.
    + rewrite Hperm. set_solver.
Qed.

Lemma remove_augment_ok h0 st p c l y r : Rep h0 st (plug p (Nd c l y r)) -> l <> Lf ->
  exists st', remove_augment augment st (Some y) = Ok st' /\ Rep h0 st' (plug p (Nd c l y r)).
Proof.
  intros HR Hl. pose proof (Rep_lookup h0 st p L c l y r HR) as Hy. unfold remove_augment.
  rewrite (rd_ok _ _ _ Hy). cbn [rbind mkn left].
  destruct (extreme_ok R h0 st l (Frame L c y r :: p) HR Hl) as (q & c' & x & b & _ & _ & E1).
  unfold lib_rbMaximum. rewrite E1. cbn [rbind].
  pose proof (Rep_augment augment h0 st (Some x) _ HR) as HR1. set (st1 := rb_augment augment st (Some x)) in *.
  rewrite (rd_ok _ _ _ (Rep_lookup h0 st1 p L c l y r HR1)). cbn [rbind mkn right].
  assert (exists o, lib_rbMinimum st1 (rootp r) = Ok o) as [o ->].
  { destruct r as [|d rl rx rr]; [by eexists|].
    destruct (extreme_ok L h0 st1 (Nd d rl rx rr) (Frame R c y l :: p) HR1) as (? & ? & ? & ? & _ & _ & E2); [done|]. eauto. }
  cbn [rbind]. eexists. split; [done|]. by apply Rep_augment.
Qed.

(** Everything behind the choice of the successor. *)
Lemma remove_two_finish h0 st p c l y q b cy n m :
  Rep h0 st (plug p (Nd c l y (plug q b))) -> l <> Lf -> RBP (q ++ Frame R c y l :: p) cy n ->
  (match cy with RB_RED => RB b RB_BLACK n | RB_BLACK => n = S m /\ exists cb, RB b cb m end) ->
  exists st' T' N, (let? st := remove_augment augment st (Some y) in
                    rebalance st cy (pparent (q ++ Frame R c y l :: p)) (rootp b)) = Ok st' /\
    Rep h0 st' T' /\ locs T' = locs (plug p (Nd c l y (plug q b))) /\ RB T' RB_BLACK N.
Proof.
  intros HR Hl Hp Hb. destruct (remove_augment_ok h0 st p c l y _ HR Hl) as (st1 & -> & HR1). cbn [rbind].
  assert (Eq : plug p (Nd c l y (plug q b)) = plug (q ++ Frame R c y l :: p) b) by (by rewrite plug_app).
  rewrite Eq in *. by eapply rebalance_spec.
Qed.

(** The part of [lib_rbRemove] for a node with two children. *)
Definition remove_two st (z : loc) (y : ptr) (ny : rbnode) : res (rbtree E) :=
  let? (st, p) :=
    (if decide (parent ny = Some z) then Ok (st, y)
     else let? st := remove_cut augment st z y (right ny) in Ok (st, parent ny)) in
  let? st := remove_swap augment st z y in
  let? st := remove_augment augment st y in
  rebalance st (color ny) p (right ny).

Lemma remove_two_spec h0 st p c l z r N :
  Rep h0 st (plug p (Nd c l z r)) -> l <> Lf -> r <> Lf -> RB (plug p (Nd c l z r)) RB_BLACK N ->
  exists y ny st' T' N' nz, lib_rbMinimum st (rootp r) = Ok (Some y) /\ rd st (Some y) = Ok ny /\
    remove_two st z (Some y) ny = Ok st' /\ Rep (<[z := nz]> h0) st' T' /\
    locs T' = pre p ++ locs l ++ locs r ++ post p /\ RB T' RB_BLACK N'.
Proof.
  intros HR Hl Hr HB.
  destruct (extreme_ok L h0 st r (Frame R c z l :: p) HR Hr) as (q & cy & y & b & -> & Hq & E1).
  cbn [nd] in *.
  assert (HR' : Rep h0 st (plug (q ++ Frame R c z l :: p) (Nd cy Lf y b))) by (by rewrite plug_app).
  pose proof (Rep_lookup h0 st _ L _ _ _ _ HR') as Hy. cbn [mkn rootp] in Hy.
  assert (HB' : RB (plug (q ++ Frame R c z l :: p) (Nd cy Lf y b)) RB_BLACK N) by (by rewrite plug_app).
  apply RB_plug_inv in HB' as (c' & n & Ht & Hp). change (Nd cy Lf y b) with (nd R cy b y Lf) in Ht.
  apply RB_child_inv in Ht as [-> [m Hb]]. apply (RBP_replace_loc _ _ _ _ y) in Hp.
  exists y, (RbNode (pparent (q ++ Frame R c z l :: p)) NULL (rootp b) cy).
  assert (Hlocs : locs (plug p (Nd c l y (plug q b))) = pre p ++ locs l ++ locs (plug q (Nd cy Lf y b)) ++ post p).
  { assert (pre q = []) as Hpre.
    { clear -Hq. induction Hq as [|[s' c' x sib] q Hs Hq IH]; [done|]. simpl in Hs. by subst s'. }
    rewrite !locs_plug. simpl. rewrite !locs_plug, Hpre. simpl. by simplify_list_eq. }
  unfold remove_two. cbn [parent right color].
  assert (Hfin : forall st1 nz, Rep (<[z := nz]> h0) st1 (plug p (Nd c l y (plug q b))) ->
    exists st' T' N', (let? st := remove_augment augment st1 (Some y) in
       rebalance st cy (pparent (q ++ Frame R c y l :: p)) (rootp b)) = Ok st' /\
       Rep (<[z := nz]> h0) st' T' /\ locs T' = pre p ++ locs l ++ locs (plug q (Nd cy Lf y b)) ++ post p /\ RB T' RB_BLACK N').
  { intros st1 nz HR1. rewrite <- Hlocs. by eapply remove_two_finish. }
  destruct (decide (q = [])) as [->|Hqne].
  - (* the successor is the right child *)
    rewrite decide_True by done. cbn [rbind].
    pose proof (Rep_lookup h0 st p L _ _ _ _ HR) as Hz. cbn [mkn rootp] in Hz.
    assert (Hperm : locs (plug p (Nd c l z (plug [] (Nd cy Lf y b)))) ≡ₚ plocs p ++ z :: y :: locs l ++ locs b).
    { rewrite locs_plug_perm. simpl. solve_Permutation. }
    destruct HR as [Hroot [Hp0 (_ & Hl0 & _ & _ & Hb0)]%rep_plug Hnd0 Hf0].
    rewrite rootp_plug_eq in Hroot. rewrite Hperm in Hnd0.
    destruct (Rep_swap augment h0 st p z y _ _ _ _ _ l b _ Hroot Hp0 Hz eq_refl Hl0 Hl Hy Hb0 Hnd0) as (st1 & Es & HR1).
    { intros k Hk. apply Hf0. by rewrite Hperm. }
    destruct (Hfin _ _ HR1) as (st' & T' & N' & Ef & HT). exists st', T', N'. eexists.
    split; [exact E1|]. split; [by apply rd_ok|]. rewrite Es. cbn [rbind]. split; [exact Ef|exact HT].
  - destruct (exists_last Hqne) as (q' & f & ->).
    destruct (remove_cut_spec h0 st p c l z cy b y q' f HR) as (st1 & py & ly & Ec & Hroot & Hp0 & Hz0 & Hl0 & Hy0 & Hb0 & Hnd0 & Hf0).
    destruct (Rep_swap augment h0 st1 p z y _ _ _ _ _ l _ _ Hroot Hp0 Hz0 eq_refl Hl0 Hl Hy0 Hb0 Hnd0 Hf0) as (st2 & Es & HR1).
    destruct (Hfin _ _ HR1) as (st' & T' & N' & Ef & HT). exists st', T', N'. eexists.
    split; [exact E1|]. split; [by apply rd_ok|].
    assert (pparent ((q' ++ [f]) ++ Frame R c z l :: p) = pparent ((q' ++ [f]) ++ Frame R c y l :: p) /\
                   pparent ((q' ++ [f]) ++ Frame R c z l :: p) <> Some z) as [Hpar Hnz].
    { pose proof (Rep_nodup _ _ _ HR') as Hnd. rewrite locs_plug_perm in Hnd. apply NoDup_app in Hnd as (Hnd & _ & _).
      destruct (q' ++ [f]) as [|g qq]; [done|]. simpl in *. split; [done|]. intros [= Hg].
      apply NoDup_cons in Hnd as [Hnd _]. apply Hnd. rewrite Hg. clear. rewrite elem_of_app. right.
      induction qq as [|h qq IH]; simpl; set_solver. }
    rewrite decide_False by done. rewrite Ec. cbn [rbind]. rewrite Es. cbn [rbind]. rewrite Hpar.
    split; [exact Ef|exact HT].
Qed.

Lemma filter_out (z : loc) l1 l2 : NoDup (l1 ++ z :: l2) -> filter (fun k => k <> z) (l1 ++ z :: l2) = l1 ++ l2.
Proof.
  intros (H1 & H2 & [Hz H3]%NoDup_cons)%NoDup_app.
  assert (Hid : forall l : list loc, z ∉ l -> filter (fun k => k <> z) l = l).
  { clear. induction l as [|x l IH]; intros Hz; [done|]. rewrite filter_cons, decide_True by set_solver.
    f_equal. apply IH. set_solver. }
  rewrite filter_app, filter_cons, decide_False by (by intros ?). rewrite (Hid l1), (Hid l2) by set_solver. done.
Qed.

Lemma sorted_nodup compare `{!RbOrder compare} l : sorted compare l -> NoDup l.
Proof.
  induction 1 as [|x l Hs IH Hf]; constructor; [|done]. intros Hx. rewrite Forall_forall in Hf.
  specialize (Hf x Hx). pose proof (cmp_flip x x). lia.
Qed.

Lemma lib_rbRemove_spec compare st l z : rb_models compare st l -> z ∈ l ->
  exists st', lib_rbRemove augment st z = Ok st' /\ rb_models compare st' (filter (fun k => k <> z) l) /\
    (forall k, k ∉ l -> nodes st' !! k = nodes st !! k) /\ is_Some (nodes st' !! z).
Proof.
  intros (T & N & HR & HB & <- & Hs) Hz. destruct (locs_split z T Hz) as (p & c & tl & tr & ->).
  pose proof (Rep_nodup _ _ _ HR) as Hnd.
  assert (El : locs (plug p (Nd c tl z tr)) = (pre p ++ locs tl) ++ z :: locs tr ++ post p).
  { rewrite locs_plug. simpl. by simplify_list_eq. }
  assert (Ef : filter (fun k => k <> z) (locs (plug p (Nd c tl z tr))) = pre p ++ locs tl ++ locs tr ++ post p).
  { rewrite El, filter_out by (by rewrite <- El). by simplify_list_eq. }
  assert (Hsf : sorted compare (pre p ++ locs tl ++ locs tr ++ post p)).
  { rewrite El in Hs. apply SSorted_app in Hs as (H1 & [H2 H2']%SSorted_cons & H3).
    rewrite app_assoc. apply SSorted_app. split_and!; [done|done|]. intros. apply H3; set_solver. }
  rewrite Ef.
  assert (Hfin : forall r nz, (exists st' T' N', r = Ok st' /\ Rep (<[z := nz]> (nodes st)) st' T' /\
     locs T' = pre p ++ locs tl ++ locs tr ++ post p /\ RB T' RB_BLACK N') ->
     exists st', r = Ok st' /\ rb_models compare st' (pre p ++ locs tl ++ locs tr ++ post p) /\
       (forall k, k ∉ locs (plug p (Nd c tl z tr)) -> nodes st' !! k = nodes st !! k) /\ is_Some (nodes st' !! z)).
  { intros r nz (st' & T' & N' & -> & HR' & HL & HB'). exists st'. split; [done|].
    split; [exists T', N'; split_and!; [by eapply Rep_self|done|done|done]|].
    assert (Hz' : z ∉ locs T').
    { rewrite HL. rewrite El in Hnd. apply NoDup_app in Hnd as (_ & Hd & [Hz' _]%NoDup_cons). set_solver. }
    split.
    - intros k Hk. rewrite El in Hk. rewrite (Rep_frame _ _ _ HR') by (rewrite HL; set_solver).
      apply lookup_insert_ne. set_solver.
    - rewrite (Rep_frame _ _ _ HR') by done. rewrite lookup_insert_eq. eauto. }
  pose proof (Rep_lookup _ st p L c tl z tr HR) as Hnz. cbn [mkn] in Hnz.
  unfold lib_rbRemove. rewrite (rd_ok _ _ _ Hnz). cbn [rbind left right color parent].
  destruct tl as [|cl ll lx lr].
  - eapply (Hfin _ _). destruct (remove_one_child (nodes st) st p R c tr z _ N HR HB Hnz) as (st' & T' & N' & E1 & HR1 & HL1 & HB1).
    exists st', T', N'. split; [exact E1|]. split; [exact HR1|]. split; [|done]. by rewrite HL1, locs_plug.
  - destruct tr as [|cr rl rx rr].
    + eapply (Hfin _ _). destruct (remove_one_child (nodes st) st p L c (Nd cl ll lx lr) z _ N HR HB Hnz) as (st' & T' & N' & E1 & HR1 & HL1 & HB1).
      exists st', T', N'. split; [exact E1|]. split; [exact HR1|]. split; [|done]. by rewrite HL1, locs_plug.
    + destruct (remove_two_spec (nodes st) st p c (Nd cl ll lx lr) z (Nd cr rl rx rr) N HR) as (y & ny & st' & T' & N' & nz & E1 & E2 & E3 & HR1 & HL1 & HB1); [done..|].
      cbn [rootp] in *. rewrite E1. cbn [rbind]. rewrite E2. cbn [rbind]. apply (Hfin _ nz).
      exists st', T', N'. split; [|split; [exact HR1|split; [done|done]]].
      exact E3.
Qed.

End Ops.

Lemma rep_is_some h par t x : rep h par t -> x ∈ locs t -> is_Some (h !! x).
Proof.
  revert par. induction t as [|c l IHl y r IHr]; intros par; simpl; [set_solver|]. intros (Hy & Hl & Hr).
  intros [Hx|[->|Hx]%elem_of_cons]%elem_of_app; eauto.
Qed.

Lemma rb_models_is_some {E} compare (st : rbtree E) l x : rb_models compare st l -> x ∈ l -> is_Some (nodes st !! x).
Proof. intros (T & N & [_ HR _ _] & _ & <- & _). by eapply rep_is_some. Qed.

Lemma rb_models_init {E} compare (st : rbtree E) : rb_models compare (lib_rbInit st) [].
Proof. exists Lf, 0%nat. split_and!; [by split; [..|constructor|]|constructor|done|constructor]. Qed.

(** ** Programs of operations *)
Inductive rb_op := RInsert (z : loc) | RRemove (z : loc) | RFind (z : loc).
Inductive rb_out := OInsert (err : Z) | ORemove | OFind (x : ptr).

Definition rb_step {E} compare augment (st : rbtree E) (o : rb_op) : res (rbtree E * rb_out) :=
  match o with
  | RInsert z => let? (st, e) := lib_rbInsert compare augment st z in Ok (st, OInsert e)
  | RRemove z => let? st := lib_rbRemove augment st z in Ok (st, ORemove)
  | RFind z => let? x := lib_rbFind compare st z in Ok (st, OFind x)
  end.
Fixpoint rb_run {E} compare augment (st : rbtree E) (os : list rb_op) : res (rbtree E * list rb_out) :=
  match os with
  | [] => Ok (st, [])
  | o :: os =>
      let? (st, r) := rb_step compare augment st o in
      let? (st, rs) := rb_run compare augment st os in
      Ok (st, r :: rs)
  end.

(** The abstract tree is the sorted list of its members. *)
Definition set_next compare (l : list loc) (o : rb_op) : list loc :=
  match o with
  | RInsert z => default l (ins compare z l)
  | RRemove z => filter (fun k => k <> z) l
  | RFind _ => l
  end.
Definition set_out compare (l : list loc) (o : rb_op) (r : rb_out) : Prop :=
  match o, r with
  | RInsert z, OInsert e => e = if ins compare z l is Some _ then EOK else - EEXIST
  | RRemove z, ORemove => True
  | RFind z, OFind (Some x) => x ∈ l /\ compare x z = 0
  | RFind z, OFind None => forall x, x ∈ l -> compare x z <> 0
  | _, _ => False
  end.
Fixpoint set_trace compare (l : list loc) (os : list rb_op) (rs : list rb_out) (l' : list loc) : Prop :=
  match os, rs with
  | [], [] => l' = l
  | o :: os, r :: rs => set_out compare l o r /\ set_trace compare (set_next compare l o) os rs l'
  | _, _ => False
  end.

(** Callers remove members only. *)
Fixpoint legal compare (l : list loc) (os : list rb_op) : Prop :=
  match os with
  | [] => True
  | o :: os => (if o is RRemove z then z ∈ l else True) /\ legal compare (set_next compare l o) os
  end.
Definition op_node (o : rb_op) : loc := match o with RInsert z => z | RRemove z => z | RFind z => z end.

Section Claims.
Context {E : Type} (augment : option (gmap loc rbnode -> loc -> E -> E)).
Context (compare : loc -> loc -> Z) `{!RbOrder compare}.
Implicit Type st : rbtree E.

Lemma lib_rbFind_spec st l probe : rb_models compare st l -> probe_mono probe l ->
  exists o, lib_rbFindEx st (root st) probe = Ok o /\
    match o with
    | Some x => x ∈ l /\ probe x = 0
    | None => forall x, x ∈ l -> probe x <> 0
    end /\
    exists k : nat, 2 ^ Z.of_nat k <= (Z.of_nat (length l) + 1) ^ 2 /\ find_loop (S k) st probe (root st) = Ok o.
Proof.
  intros (T & N & HR & HB & <- & Hs) Hm. rewrite (Rep_root _ _ _ HR).
  destruct (find_loop_spec (nodes st) st probe T [] (path_fuel st) HR Hm) as (o & E1 & Ho); [exact (height_fuel _ _ [] T HR)|].
  exists o. split; [done|]. split; [done|]. exists (height T). split; [by eapply RB_log|].
  assert (Hmono : forall f1 it, find_loop f1 st probe it = Ok o -> forall f2, (exists o2, find_loop f2 st probe it = Ok o2) -> find_loop f2 st probe it = Ok o).
  { induction f1 as [|f1 IH]; intros it Hf f2 [o2 H2]; [done|]. destruct f2 as [|f2]; [done|]. cbn [find_loop] in *.
    destruct it as [y|]; [|done]. case_decide; [done|]. apply rbind_inv in Hf as (n & En & Hf). rewrite En in *. cbn [rbind] in *.
    apply IH; [done|]. by exists o2. }
  eapply Hmono; [exact E1|]. destruct (find_loop_spec (nodes st) st probe T [] (S (height T)) HR Hm) as (o' & E2 & _); [lia|]. eauto.
Qed.

Lemma rb_step_spec st l o : rb_models compare st l -> is_Some (nodes st !! op_node o) ->
  (if o is RRemove z then z ∈ l else True) ->
  exists st' r, rb_step compare augment st o = Ok (st', r) /\ set_out compare l o r /\
    rb_models compare st' (set_next compare l o) /\ forall k, is_Some (nodes st !! k) -> is_Some (nodes st' !! k).
Proof.
  intros HM Hn Ho. destruct o as [z|z|z]; simpl in *.
  - pose proof (lib_rbInsert_spec augment compare st l z HM Hn) as HI. destruct (ins compare z l) as [l'|] eqn:Ei.
    + destruct HI as (st' & -> & HM' & Hf). eexists st', _. split; [done|]. simpl. rewrite ?Ei. split; [done|]. split; [done|].
      intros k Hk. destruct (decide (k ∈ l')) as [Hin|Hin]; [by eapply rb_models_is_some|]. by rewrite Hf.
    + rewrite HI. eexists st, _. split; [done|]. simpl. by rewrite ?Ei.
  - destruct (lib_rbRemove_spec augment compare st l z HM Ho) as (st' & -> & HM' & Hf & Hz).
    eexists st', _. split; [done|]. split; [done|]. split; [done|].
    intros k Hk. destruct (decide (k = z)) as [->|Hkz]; [done|]. destruct (decide (k ∈ l)) as [Hin|Hin]; [|by rewrite Hf].
    eapply rb_models_is_some; [done|]. by apply list_elem_of_filter.
  - destruct (lib_rbFind_spec st l (fun x => compare x z) HM) as (x & E1 & Hx & _).
    { destruct HM as (T & N & _ & _ & _ & Hs). by apply sorted_probe. }
    unfold lib_rbFind. rewrite E1. eexists st, _. split; [done|]. split; [|done]. simpl. by destruct x.
Qed.

Lemma rb_run_spec os : forall st l, rb_models compare st l -> Forall (fun o => is_Some (nodes st !! op_node o)) os ->
  legal compare l os ->
  exists st' rs l', rb_run compare augment st os = Ok (st', rs) /\ set_trace compare l os rs l' /\ rb_models compare st' l'.
Proof.
  induction os as [|o os IH]; intros st l HM Hn Hl; [by exists st, [], l|]. destruct Hl as [Ho Hl].
  apply Forall_cons in Hn as [Hn Hns].
  destruct (rb_step_spec st l o HM Hn Ho) as (st1 & r & E1 & Hr & HM1 & Hd).
  destruct (IH st1 _ HM1) as (st2 & rs & l' & E2 & Ht & HM2); [eapply Forall_impl; [exact Hns|]; simpl; auto|done|].
  exists st2, (r :: rs), l'. simpl. rewrite E1. cbn [rbind]. rewrite E2. done.
Qed.

Lemma extreme_elems s st T : Rep (nodes st) st T -> extreme s st (root st) = Ok (head (elems (opp s) T)).
Proof.
  intros HR. rewrite (Rep_root _ _ _ HR). destruct T as [|c l x r]; [by destruct s|].
  destruct (extreme_ok s (nodes st) st _ [] HR) as (q & c' & y & b & Et & Hq & ->); [done|].
  pose proof (elems_extreme s q c' y b Hq) as He. rewrite <- Et in He. by rewrite He.
Qed.

Lemma head_reverse {A} (l : list A) : head (reverse l) = last l.
Proof. induction l as [|x l IH] using rev_ind; [done|]. by rewrite reverse_snoc, last_snoc. Qed.

Lemma neighbours_spec st l : rb_models compare st l ->
  lib_rbMinimum st (root st) = Ok (head l) /\ lib_rbMaximum st (root st) = Ok (last l) /\
  forall l1 x l2, l = l1 ++ x :: l2 ->
    lib_rbNext st (Some x) = Ok (head l2) /\ lib_rbPrev st (Some x) = Ok (last l1).
Proof.
  intros (T & N & HR & HB & <- & Hs). split; [exact (extreme_elems L st T HR)|]. split.
  { rewrite <- head_reverse. exact (extreme_elems R st T HR). }
  intros l1 x l2 El. destruct (locs_split x T) as (p & c & tl & tr & ->); [rewrite El; set_solver|].
  assert (El' : (pre p ++ locs tl) ++ x :: (locs tr ++ post p) = l1 ++ x :: l2).
  { rewrite <- El, locs_plug. simpl. by simplify_list_eq. }
  assert (l1 = pre p ++ locs tl /\ l2 = locs tr ++ post p) as [-> ->].
  { pose proof (Rep_nodup _ _ _ HR) as Hnd. rewrite El in Hnd. revert Hnd El'. generalize (pre p ++ locs tl) (locs tr ++ post p).
    clear. intros a b. revert a. induction l1 as [|y l1 IH]; intros a Hnd.
    - destruct a as [|z a]; simpl; [by intros [= ->]|]. intros [= -> Hl2]. exfalso.
      apply NoDup_cons in Hnd as [Hnd _]. apply Hnd. rewrite <- Hl2. set_solver.
    - simpl in Hnd. apply NoDup_cons in Hnd as [Hy Hnd]. destruct a as [|z a]; simpl.
      + intros [= -> Hb]. exfalso. apply Hy. set_solver.
      + intros [= -> He]. destruct (IH a Hnd He) as [-> ->]. done. }
  unfold lib_rbNext, lib_rbPrev. split.
  - exact (neighbour_spec R (nodes st) st p c tr x tl HR).
  - rewrite (neighbour_spec L (nodes st) st p c tl x tr HR). simpl. by rewrite <- head_reverse, reverse_app.
Qed.

(** C2: a sequence of insertions, removals and searches on a red-black tree in
    the heap behaves as the same sequence on the sorted list of its members:
    every operation returns (no fault, no endless loop), insertion reports an
    existing key, a search finds a member that compares equal whenever there is
    one, and the tree stays red-black, ordered and correctly linked.  The only
    demand on callers is that removed nodes are members. *)
Theorem rb_program_refines st os :
  Forall (fun o => is_Some (nodes st !! op_node o)) os -> legal compare [] os ->
  exists st' rs l', rb_run compare augment (lib_rbInit st) os = Ok (st', rs) /\
    set_trace compare [] os rs l' /\ rb_models compare st' l'.
Proof. intros. by apply rb_run_spec; [apply rb_models_init|..]. Qed.

(** C25: [lib_rbInsert] of an allocated node either finds a member that compares
    equal, returns [-EEXIST] and changes nothing, or links the node at its place
    in the order and rebalances; no node outside the tree is touched. *)
Theorem rb_insert_correct st l z :
  rb_models compare st l -> is_Some (nodes st !! z) ->
  match ins compare z l with
  | None => lib_rbInsert compare augment st z = Ok (st, - EEXIST)
  | Some l' => exists st', lib_rbInsert compare augment st z = Ok (st', EOK) /\ rb_models compare st' l' /\
                 forall k, k ∉ l' -> nodes st' !! k = nodes st !! k
  end.
Proof. apply lib_rbInsert_spec; exact _. Qed.

(** C26: [lib_rbRemove] of a member unlinks exactly that node, restores the
    red-black invariant and leaves the nodes outside the tree alone. *)
Theorem rb_remove_correct st l z : rb_models compare st l -> z ∈ l ->
  exists st', lib_rbRemove augment st z = Ok st' /\ rb_models compare st' (filter (fun k => k <> z) l) /\
    (forall k, k ∉ l -> nodes st' !! k = nodes st !! k) /\ is_Some (nodes st' !! z).
Proof. apply lib_rbRemove_spec. Qed.

(** C14: a search with any probe that is monotone along the members (the tree's
    own comparison, or the range probes of the memory maps) finds a member with
    probe zero if there is one and returns NULL otherwise, after visiting at
    most twice the binary logarithm of the number of members. *)
Theorem rb_find_logarithmic st l probe : rb_models compare st l -> probe_mono probe l ->
  exists o, lib_rbFindEx st (root st) probe = Ok o /\
    match o with
    | Some x => x ∈ l /\ probe x = 0
    | None => forall x, x ∈ l -> probe x <> 0
    end /\
    exists k : nat, 2 ^ Z.of_nat k <= (Z.of_nat (length l) + 1) ^ 2 /\ find_loop (S k) st probe (root st) = Ok o.
Proof. apply lib_rbFind_spec. Qed.

(** C15: minimum, maximum, successor and predecessor are those of the sorted
    list of members, so iterating from the minimum with [lib_rbNext] visits
    every member in order. *)
Theorem rb_iteration_ordered st l : rb_models compare st l ->
  lib_rbMinimum st (root st) = Ok (head l) /\ lib_rbMaximum st (root st) = Ok (last l) /\
  forall l1 x l2, l = l1 ++ x :: l2 ->
    lib_rbNext st (Some x) = Ok (head l2) /\ lib_rbPrev st (Some x) = Ok (last l1).
Proof. apply neighbours_spec. Qed.

End Claims.

(** ** Witnesses *)

(** Nodes keyed by their number. *)
Definition key_compare (a b : loc) : Z := Zpos a - Zpos b.
#[export] Instance key_order : RbOrder key_compare.
Proof. split; unfold key_compare; intros; lia. Qed.

Definition blank : rbnode := RbNode NULL NULL NULL RB_BLACK.
Definition demo : rbtree unit := RbTree NULL (list_to_map ((fun k => (k, blank)) <$> [1; 2; 3; 4; 5; 6]%positive)) ().
Definition demo_ops : list rb_op :=
  [RInsert 4; RInsert 2; RInsert 6; RInsert 1; RInsert 2; RRemove 4; RFind 6; RInsert 3; RRemove 1]%positive.

Lemma rb_program_refines_witness :
  exists st' rs l', rb_run key_compare None (lib_rbInit demo) demo_ops = Ok (st', rs) /\
    set_trace key_compare [] demo_ops rs l' /\ rb_models key_compare st' l'.
Proof.
  refine (rb_program_refines None key_compare demo demo_ops _ _).
  - apply (bool_decide_unpack _). vm_compute. exact I.
  - repeat split; apply (bool_decide_unpack _); vm_compute; exact I.
Defined.

(** One member, 2. *)
Definition demo1 : rbtree unit := RbTree (Some 2%positive) (nodes demo) ().
Lemma demo1_models : rb_models key_compare demo1 [2%positive].
Proof.
  exists (Nd RB_BLACK Lf 2%positive Lf), 1%nat. split.
  - split; [done|by vm_compute|apply NoDup_singleton|done].
  - split; [by repeat econstructor|]. split; [done|]. by repeat constructor.
Qed.

Lemma rb_insert_correct_witness :
  exists st', lib_rbInsert key_compare None demo1 5%positive = Ok (st', EOK) /\
    rb_models key_compare st' [2; 5]%positive /\ forall k, k ∉ [2; 5]%positive -> nodes st' !! k = nodes demo1 !! k.
Proof. exact (rb_insert_correct None key_compare demo1 [2%positive] 5%positive demo1_models (mk_is_Some _ _ eq_refl)). Defined.

Lemma rb_remove_correct_witness :
  exists st', lib_rbRemove None demo1 2%positive = Ok st' /\
    rb_models key_compare st' (filter (fun k => k <> 2%positive) [2%positive]) /\
    (forall k, k ∉ [2%positive] -> nodes st' !! k = nodes demo1 !! k) /\ is_Some (nodes st' !! 2%positive).
Proof. apply (rb_remove_correct None key_compare); [exact demo1_models|]. by apply list_elem_of_singleton. Defined.

Lemma rb_find_logarithmic_witness :
  exists o, lib_rbFindEx demo1 (root demo1) (fun x => Zpos x - 2) = Ok o /\
    match o with
    | Some x => x ∈ [2%positive] /\ Zpos x - 2 = 0
    | None => forall x, x ∈ [2%positive] -> Zpos x - 2 <> 0
    end /\
    exists k : nat, 2 ^ Z.of_nat k <= (Z.of_nat (length [2%positive]) + 1) ^ 2 /\
      find_loop (S k) demo1 (fun x => Zpos x - 2) (root demo1) = Ok o.
Proof. apply (rb_find_logarithmic key_compare demo1 [2%positive] (fun x => Zpos x - 2) demo1_models). by repeat constructor. Defined.

Lemma rb_iteration_ordered_witness :
  lib_rbMinimum demo1 (root demo1) = Ok (head [2%positive]) /\ lib_rbMaximum demo1 (root demo1) = Ok (last [2%positive]) /\
  forall l1 x l2, [2%positive] = l1 ++ x :: l2 ->
    lib_rbNext demo1 (Some x) = Ok (head l2) /\ lib_rbPrev demo1 (Some x) = Ok (last l1).
Proof. apply (rb_iteration_ordered key_compare). exact demo1_models. Defined.
