(* ===== verification/Zone.v ===== *)
(** * Zones of equal blocks (src/vm/zone.c, src/vm/zone.h)

    A zone is a run of equally sized blocks whose free blocks form a list
    threaded through their first words.  The page allocator and the kernel map,
    which provide the memory, are an interface ([VmOps]); memory is a finite map of
    bytes, and a link is a word of four of them. *)

From S2P Require Import Prelude.

(** ** Interface to the page allocator and the kernel map *)
Record page_t := Page { pg_addr : Z; pg_idx : Z }.

Class VmOps (VM : Type) := {
  (** [vm_pageAlloc(size, PAGE_OWNER_KERNEL | PAGE_KERNEL_HEAP)] *)
  vm_pageAlloc : VM -> Z -> VM * option page_t;
  vm_pageFree : VM -> page_t -> VM;
  (** [vm_mmap(kmap, start, pages, 1 << idx, ...)]; 0 is NULL *)
  vm_mmap : VM -> page_t -> Z -> VM * Z;
  vm_munmap : VM -> Z -> Z -> VM;
}.

(** What zones rely on: an allocation covers the requested size, and a mapping
    of [size] bytes lies inside the address space, above its first 64 KiB. *)
Class VmLaws (VM : Type) `{VmOps VM} : Prop := {
  pageAlloc_size : forall vm size vm' p, vm_pageAlloc vm size = (vm', Some p) ->
    0 <= pg_idx p < 32 /\ size <= 2 ^ pg_idx p;
  mmap_range : forall vm p size vm' v, vm_mmap vm p size = (vm', v) -> v <> 0 ->
    65536 <= v /\ v + size < 2 ^ 32;
}.

(** ** State *)
Record vm_zone_t := Zone {
  blocksz : Z;
  blocks : Z;
  used : Z;
  vaddr : Z;
  first : Z;
  pages : option page_t;
}.

(** Memory, and the words in it. *)
Abbreviation bytes := (gmap Z Z).
Definition ld_word (mem : bytes) (a : Z) : res Z :=
  let? b0 := deref (mem !! a) in
  let? b1 := deref (mem !! (a + 1)) in
  let? b2 := deref (mem !! (a + 2)) in
  let? b3 := deref (mem !! (a + 3)) in
  Ok (b0 + 256 * b1 + 65536 * b2 + 16777216 * b3).
Definition st_word (a v : Z) (mem : bytes) : bytes :=
  <[a := v mod 256]> (<[a + 1 := v / 256 mod 256]> (<[a + 2 := v / 65536 mod 256]> (<[a + 3 := v / 16777216 mod 256]> mem))).

(** ** Operations *)

(** [for (i = 0; i < blocks; i++)
       *((void ** )(vaddr + i * blocksz)) = vaddr + (i + 1) * blocksz;] *)
Fixpoint link_blocks (n : nat) (i vaddr blocksz : Z) (mem : bytes) : bytes :=
  match n with
  | O => mem
  | S n => link_blocks n (i + 1) vaddr blocksz
             (st_word (u32 (vaddr + u32 (i * blocksz))) (u32 (vaddr + u32 ((i + 1) * blocksz))) mem)
  end.

(** The guard [!(blocksz & ~(blocksz - 1))]. *)
Definition pow2_guard (blocksz : Z) : bool :=
  bool_decide (Z.land blocksz (u32 (Z.lnot (u32 (blocksz - 1)))) = 0).

Definition _vm_zoneCreate {VM} `{VmOps VM} (vm : VM) (mem : bytes) (zone : vm_zone_t) (bsz nblocks : Z)
    : VM * bytes * vm_zone_t * Z :=
  if bool_decide (bsz = 0) || bool_decide (nblocks = 0) then (vm, mem, zone, - EINVAL)
  else if pow2_guard bsz then (vm, mem, zone, - EINVAL)
  else
    match vm_pageAlloc vm (u32 (nblocks * bsz)) with
    | (vm, None) => (vm, mem, Zone (blocksz zone) (blocks zone) (used zone) (vaddr zone) (first zone) None, - ENOMEM)
    | (vm, Some p) =>
        let '(vm, v) := vm_mmap vm p (u32 (Z.shiftl 1 (pg_idx p))) in
        if decide (v = 0) then
          (vm_pageFree vm p, mem, Zone (blocksz zone) (blocks zone) (used zone) v (first zone) (Some p), - ENOMEM)
        else
          let mem := link_blocks (Z.to_nat nblocks) 0 v bsz mem in
          let mem := st_word (u32 (v + u32 ((nblocks - 1) * bsz))) 0 mem in
          (vm, mem, Zone bsz nblocks 0 v v (Some p), EOK)
    end.

Definition _vm_zoneDestroy {VM} `{VmOps VM} (vm : VM) (zone : option vm_zone_t) : res (VM * option vm_zone_t * Z) :=
  match zone with
  | None => Ok (vm, None, - EINVAL)
  | Some z =>
      if decide (used z <> 0) then Ok (vm, zone, - EBUSY)
      else
        let? p := deref (pages z) in
        let vm := vm_munmap vm (vaddr z) (u32 (Z.shiftl 1 (pg_idx p))) in
        let vm := vm_pageFree vm p in
        Ok (vm, Some (Zone (blocksz z) (blocks z) (used z) 0 0 None), EOK)
  end.

(** [_vm_zalloc]: the zone, the block (0 is NULL) and its physical address when
    the caller passes a place for it. *)
Definition _vm_zalloc (mem : bytes) (zone : option vm_zone_t) (addr : bool) : res (option vm_zone_t * Z * option Z) :=
  match zone with
  | None => Ok (None, 0, None)
  | Some z =>
      if decide (used z = blocks z) then Ok (zone, 0, None)
      else
        let block := first z in
        let? next := ld_word mem (first z) in
        let z' := Zone (blocksz z) (blocks z) (u32 (used z + 1)) (vaddr z) next (pages z) in
        if addr then
          let? p := deref (pages z) in
          Ok (Some z', block, Some (u32 (pg_addr p + (block - vaddr z))))
        else Ok (Some z', block, None)
  end.

Definition _vm_zfree (mem : bytes) (z : vm_zone_t) (block : Z) : bytes * vm_zone_t :=
  if bool_decide (block < vaddr z) || bool_decide (block >= u32 (vaddr z + u32 (blocksz z * blocks z)))
  then (mem, z)
  else if bool_decide (Z.land block (u32 (Z.lnot (u32 (blocksz z - 1)))) = 0) then (mem, z)
  else (st_word block (first z) mem,
        Zone (blocksz z) (blocks z) (u32 (used z - 1)) (vaddr z) block (pages z)).

(** ** Words *)
Lemma ld_st_same a v mem : 0 <= v < 2 ^ 32 -> ld_word (st_word a v mem) a = Ok v.
Proof.
  intros Hv. unfold ld_word, st_word. rewrite lookup_insert_eq. rewrite !(lookup_insert_ne _ a) by lia. rewrite lookup_insert_eq.
  rewrite !(lookup_insert_ne _ (a + 1)) by lia. rewrite lookup_insert_eq. rewrite (lookup_insert_ne _ (a + 2)) by lia. rewrite lookup_insert_eq.
  cbn [deref rbind]. f_equal. change (2 ^ 32) with 4294967296 in Hv. Z.div_mod_to_equations. lia.
Qed.

Lemma ld_insert_other x y mem a : x < a \/ a + 4 <= x -> ld_word (<[x := y]> mem) a = ld_word mem a.
Proof. intros H. unfold ld_word. by rewrite !lookup_insert_ne by lia. Qed.

Lemma ld_st_other a b v mem : b + 4 <= a \/ a + 4 <= b -> ld_word (st_word a v mem) b = ld_word mem b.
Proof. intros H. unfold st_word. by rewrite !ld_insert_other by lia. Qed.

(** ** Invariant *)

(** The [i]th block. *)
Definition block_at (z : vm_zone_t) (i : Z) : Z := vaddr z + i * blocksz z.

(** [chain mem a fl]: following the links from [a] visits [fl] and ends at NULL. *)
Fixpoint chain (mem : bytes) (a : Z) (fl : list Z) : Prop :=
  match fl with
  | [] => a = 0
  | b :: fl => a = b /\ exists n, ld_word mem b = Ok n /\ chain mem n fl
  end.

(** A block of the zone. *)
Definition is_block (z : vm_zone_t) (b : Z) : Prop := exists i, 0 <= i < blocks z /\ b = block_at z i.

Record zone_ok (mem : bytes) (z : vm_zone_t) (fl : list Z) : Prop := {
  zo_blocksz : 0 < blocksz z;
  zo_blocks : 0 < blocks z < 2 ^ 32;
  zo_low : blocksz z <= vaddr z;
  zo_high : vaddr z + blocks z * blocksz z < 2 ^ 32;
  zo_page : is_Some (pages z);
  zo_free : Forall (is_block z) fl;
  zo_nodup : NoDup fl;
  zo_chain : chain mem (first z) fl;
  zo_used : used z = blocks z - length fl;
}.

Lemma block_nonzero z b : 0 < blocksz z -> blocksz z <= vaddr z -> is_block z b -> b <> 0.
Proof. unfold is_block, block_at. intros ? ? (i & Hi & ->). nia. Qed.

Lemma block_at_inj z i j : 0 < blocksz z -> block_at z i = block_at z j -> i = j.
Proof. unfold block_at. intros. nia. Qed.

(** Two blocks do not share a word. *)
Lemma blocks_apart z b c : 4 <= blocksz z -> is_block z b -> is_block z c -> b <> c -> b + 4 <= c \/ c + 4 <= b.
Proof.
  unfold is_block, block_at. intros Hs (i & Hi & ->) (j & Hj & ->) Hne. assert (i < j \/ j < i) as [?|?] by nia; [left|right]; nia.
Qed.

Lemma chain_frame mem mem' a fl : (forall b, b ∈ fl -> ld_word mem' b = ld_word mem b) -> chain mem a fl -> chain mem' a fl.
Proof.
  revert a. induction fl as [|b fl IH]; intros a Hf; [done|]. intros (-> & n & Hn & Hc). split; [done|].
  exists n. split; [rewrite Hf by set_solver; done|]. apply IH; [|done]. intros. apply Hf. set_solver.
Qed.

(** A zone has no more free blocks than blocks. *)
Lemma free_bound z fl : 0 < blocksz z -> 0 < blocks z -> Forall (is_block z) fl -> NoDup fl -> Z.of_nat (length fl) <= blocks z.
Proof.
  intros Hb Hn Hf Hnd.
  assert (Hsub : forall b, b ∈ fl -> b ∈ (fun i : nat => block_at z i) <$> seq 0 (Z.to_nat (blocks z))).
  { intros b Hb'. rewrite Forall_forall in Hf. destruct (Hf b Hb') as (i & Hi & ->).
    apply list_elem_of_fmap. exists (Z.to_nat i). rewrite Z2Nat.id by lia. split; [done|]. apply elem_of_seq. lia. }
  pose proof (submseteq_length _ _ (NoDup_submseteq _ _ Hnd Hsub)) as Hl.
  rewrite length_fmap, length_seq in Hl. lia.
Qed.

(** The guard of [_vm_zoneCreate] never fires: [blocksz & -blocksz] is the
    lowest set bit. *)
Lemma pow2_guard_dead bsz : 0 < bsz < 2 ^ 32 -> pow2_guard bsz = false.
Proof.
  intros Hb. unfold pow2_guard. apply bool_decide_eq_false. rewrite (u32_small (bsz - 1)) by lia.
  intros H0. destruct bsz as [|p|p]; [lia| |lia].
  assert (Hbit : forall p, exists k, 0 <= k /\ Z.testbit (Zpos p) k = true /\ Z.testbit (Zpos p - 1) k = false).
  { clear. induction p as [p IH|p IH|].
    - exists 0. split; [lia|]. split; [done|]. by replace (Zpos p~1 - 1) with (2 * Zpos p) by lia; rewrite Z.testbit_even_0.
    - destruct IH as (k & Hk & H1 & H2). exists (k + 1). split; [lia|].
      change (Zpos p~0) with (2 * Zpos p). replace (2 * Zpos p - 1) with (2 * (Zpos p - 1) + 1) by lia.
      change (k + 1) with (Z.succ k). rewrite Z.testbit_even_succ, Z.testbit_odd_succ by lia. done.
    - exists 0. done. }
  destruct (Hbit p) as (k & Hk & H1 & H2).
  assert (Hk32 : k < 32).
  { destruct (Z_lt_le_dec k 32); [done|]. rewrite (Z.bits_above_log2 (Zpos p) k) in H1; [done|lia|].
    assert (Z.log2 (Zpos p) < 32) by (apply Z.log2_lt_pow2; lia). lia. }
  apply (f_equal (fun v => Z.testbit v k)) in H0. rewrite Z.land_spec, H1, Z.bits_0 in H0. simpl in H0.
  unfold u32, wrap in H0. rewrite Z.mod_pow2_bits_low, Z.lnot_spec, H2 in H0 by lia. done.
Qed.

Lemma chain_first mem a b fl : chain mem a (b :: fl) -> a = b /\ exists n, ld_word mem a = Ok n /\ chain mem n fl.
Proof. intros (-> & n & Hn & Hc). eauto. Qed.

(** ** Allocation and release *)
Lemma zalloc_some mem z b fl addr : zone_ok mem z (b :: fl) ->
  exists z' o, _vm_zalloc mem (Some z) addr = Ok (Some z', b, o) /\ zone_ok mem z' fl /\
    vaddr z' = vaddr z /\ blocksz z' = blocksz z /\ blocks z' = blocks z.
Proof.
  intros [Hbs Hb Hlo Hhi [p Hp] Hf Hnd Hc Hu]. simpl in Hu.
  apply chain_first in Hc as (Hfb & n & Hn & Hc).
  pose proof (free_bound z (b :: fl) Hbs ltac:(lia) Hf Hnd) as Hlen. simpl in Hlen.
  unfold _vm_zalloc. rewrite decide_False by lia. rewrite Hn. cbn [rbind].
  apply Forall_cons in Hf as [_ Hf]. apply NoDup_cons in Hnd as [_ Hnd].
  destruct addr; rewrite ?Hp; cbn [deref rbind]; eexists _, _; rewrite Hfb; (split; [done|]);
    (split; [split; simpl; try done; [rewrite u32_small; lia]|done]).
Qed.

Lemma zalloc_none mem z addr : zone_ok mem z [] -> _vm_zalloc mem (Some z) addr = Ok (Some z, 0, None).
Proof. intros [? ? ? ? ? ? ? ? Hu]. simpl in Hu. unfold _vm_zalloc. by rewrite decide_True by lia. Qed.

(** The alignment test lets every block of a zone pass. *)
Lemma high_land b s : 0 < s <= b -> b < 2 ^ 32 -> Z.land b (u32 (Z.lnot (u32 (s - 1)))) <> 0.
Proof.
  intros Hs Hb. rewrite (u32_small (s - 1)) by lia. intros H0.
  assert (E : Z.land b (u32 (Z.lnot (s - 1))) = Z.ldiff b (s - 1)).
  { unfold u32, wrap. rewrite <- Z.land_ones, Z.land_comm, <- Z.land_assoc, (Z.land_comm _ b), Z.land_ones by lia.
    rewrite Z.mod_small by lia. rewrite Z.land_comm. symmetry. apply Z.ldiff_land. }
  rewrite E in H0. apply Z.ldiff_le in H0; lia.
Qed.

Lemma is_block_range z b : 0 < blocksz z -> is_block z b -> vaddr z <= b /\ b + blocksz z <= vaddr z + blocks z * blocksz z.
Proof. intros ? (i & Hi & ->). unfold block_at. nia. Qed.

(** The free list starts at NULL or at a block. *)
Lemma first_range mem z fl : zone_ok mem z fl -> 0 <= first z < 2 ^ 32.
Proof.
  intros [Hbs Hb Hlo Hhi _ Hf _ Hc _]. destruct fl as [|b fl]; [cbn in Hc; lia|]. destruct Hc as [-> _].
  apply Forall_cons in Hf as [Hf _]. pose proof (is_block_range z b Hbs Hf). lia.
Qed.

Lemma zfree_ok mem z fl b : 4 <= blocksz z -> zone_ok mem z fl -> is_block z b -> b ∉ fl ->
  exists mem' z', _vm_zfree mem z b = (mem', z') /\ zone_ok mem' z' (b :: fl) /\
    vaddr z' = vaddr z /\ blocksz z' = blocksz z /\ blocks z' = blocks z.
Proof.
  intros Hs4 HZ Hbl Hnin. pose proof (first_range _ _ _ HZ) as Hfr. destruct HZ as [Hbs Hb Hlo Hhi Hp Hf Hnd Hc Hu].
  pose proof (is_block_range z b Hbs Hbl) as [Hr1 Hr2].
  assert (Hnd' : NoDup (b :: fl)) by (by constructor).
  assert (Hf' : Forall (is_block z) (b :: fl)) by (by constructor).
  pose proof (free_bound z (b :: fl) Hbs ltac:(lia) Hf' Hnd') as Hlen. simpl in Hlen.
  unfold _vm_zfree. rewrite (u32_small (blocksz z * blocks z)) by nia.
  rewrite (u32_small (vaddr z + blocksz z * blocks z)) by nia.
  rewrite !bool_decide_false by (try apply high_land; nia). cbn [orb].
  eexists _, _. split; [done|]. split; [|done].
  split; simpl; try done.
  - split; [done|]. exists (first z). split; [by apply ld_st_same|].
    eapply chain_frame; [|exact Hc]. intros c Hcf. apply ld_st_other. rewrite Forall_forall in Hf.
    apply (blocks_apart z); [done|by apply Hf|done|congruence].
  - rewrite u32_small by lia. lia.
Qed.

(** ** Creation *)
Lemma link_blocks_below (n : nat) : forall i v bsz mem a, 0 <= i -> 0 < bsz -> 0 <= v -> v + (i + n) * bsz < 2 ^ 32 ->
  a + 4 <= v + i * bsz -> ld_word (link_blocks n i v bsz mem) a = ld_word mem a.
Proof.
  induction n as [|n IH]; intros i v bsz mem a Hi Hb Hv Hh Ha; cbn [link_blocks]; [done|].
  rewrite IH by nia. rewrite !u32_small by (rewrite ?u32_small; nia). apply ld_st_other. nia.
Qed.

Lemma link_blocks_at (n : nat) : forall (k : nat) i v bsz mem, 0 <= i -> 4 <= bsz -> 0 <= v -> v + (i + n) * bsz < 2 ^ 32 ->
  (k < n)%nat -> ld_word (link_blocks n i v bsz mem) (v + (i + k) * bsz) = Ok (v + (i + k + 1) * bsz).
Proof.
  induction n as [|n IH]; intros k i v bsz mem Hi Hb Hv Hh Hk; [lia|]. cbn [link_blocks].
  destruct k as [|k].
  - rewrite link_blocks_below by nia. rewrite !u32_small by (rewrite ?u32_small; nia).
    replace (v + (i + 0%nat) * bsz) with (v + i * bsz) by lia.
    replace (v + (i + 0%nat + 1) * bsz) with (v + (i + 1) * bsz) by lia. apply ld_st_same. nia.
  - replace (i + S k) with (i + 1 + k) by lia. apply IH; nia.
Qed.

(** All blocks, in address order. *)
Definition all_blocks (z : vm_zone_t) : list Z := (fun i : nat => block_at z i) <$> seq 0 (Z.to_nat (blocks z)).

Lemma chain_linked mem z (m : nat) : forall k : nat,
  (forall j : nat, (k <= j)%nat -> (j < k + m)%nat ->
     ld_word mem (block_at z j) = Ok (if decide (S j = (k + m))%nat then 0 else block_at z (S j))) ->
  chain mem (if decide (m = 0%nat) then 0 else block_at z k) ((fun i : nat => block_at z i) <$> seq k m).
Proof.
  induction m as [|m IH]; intros k H; [done|]. cbn [seq fmap list_fmap chain]. rewrite decide_False by lia. split; [done|].
  eexists. split; [apply H; lia|]. specialize (IH (S k)).
  replace (if decide (S k = (k + S m)%nat) then 0 else block_at z (S k))
    with (if decide (m = 0%nat) then 0 else block_at z (S k)) by (repeat case_decide; done || lia).
  apply IH. intros j Hj1 Hj2. rewrite H by lia. repeat case_decide; done || lia.
Qed.

Lemma zoneCreate_ok {VM} `{VmLaws VM} vm mem zone bsz n vm' mem' z' :
  4 <= bsz <= 65536 -> 0 < n -> n * bsz < 2 ^ 32 ->
  _vm_zoneCreate vm mem zone bsz n = (vm', mem', z', EOK) ->
  zone_ok mem' z' (all_blocks z') /\ blocksz z' = bsz /\ blocks z' = n /\ used z' = 0.
Proof.
  intros Hb Hn Hnb. unfold _vm_zoneCreate. rewrite !bool_decide_false by lia. cbn [orb].
  rewrite pow2_guard_dead by lia. rewrite (u32_small (n * bsz)) by nia.
  destruct (vm_pageAlloc vm (n * bsz)) as [vm1 [p|]] eqn:Ep; [|intros [=]].
  apply pageAlloc_size in Ep as [Hidx Hsz]. rewrite Z.shiftl_mul_pow2, Z.mul_1_l by lia.
  assert (0 < 2 ^ pg_idx p < 2 ^ 32) by (split; [lia|apply Z.pow_lt_mono_r; lia]).
  rewrite (u32_small (2 ^ pg_idx p)) by lia.
  destruct (vm_mmap vm1 p (2 ^ pg_idx p)) as [vm2 v] eqn:Em. case_decide as Hv; [intros [=]|].
  intros [= <- <- <-]. apply mmap_range in Em as [Hv1 Hv2]; [|done].
  assert (Hvn : v + (n - 1) * bsz < v + n * bsz) by nia.
  rewrite !u32_small by (rewrite ?u32_small; nia). split; [|done].
  split; simpl; try done; try lia.
  - apply Forall_forall. intros b (i & -> & Hi)%list_elem_of_fmap. apply elem_of_seq in Hi.
    simpl in Hi. exists i. split; [simpl; lia|done].
  - apply NoDup_fmap_2_strong; [|apply NoDup_seq]. intros i j _ _ Hij%block_at_inj; simpl; lia.
  - set (z := Zone bsz n 0 v v (Some p)). unfold all_blocks. cbn [blocks z].
    pose proof (chain_linked (st_word (v + (n - 1) * bsz) 0 (link_blocks (Z.to_nat n) 0 v bsz mem)) z (Z.to_nat n) 0) as Hch.
    rewrite decide_False in Hch by lia. replace (block_at z 0%nat) with v in Hch by (unfold block_at; simpl; lia).
    apply Hch. intros j _ Hj. unfold block_at. simpl vaddr. simpl blocksz. case_decide.
    + replace (v + j * bsz) with (v + (n - 1) * bsz) by nia. by apply ld_st_same.
    + rewrite ld_st_other by nia. replace (v + j * bsz) with (v + (0 + j) * bsz) by lia.
      rewrite link_blocks_at by nia. f_equal. nia.
  - unfold all_blocks. rewrite length_fmap, length_seq. simpl. lia.
Qed.

(** ** Programs *)

(** What the users of a zone do: allocate, release a block they hold, and store
    bytes into blocks they hold. *)
Inductive zop := ZAlloc | ZFree (b : Z) | ZStore (a v : Z).

Definition zone_step (s : bytes * vm_zone_t) (o : zop) : res (bytes * vm_zone_t * Z) :=
  let '(mem, z) := s in
  match o with
  | ZAlloc =>
      let? (z', b, _) := _vm_zalloc mem (Some z) false in
      let? z' := deref z' in
      Ok (mem, z', b)
  | ZFree b => let '(mem, z) := _vm_zfree mem z b in Ok (mem, z, 0)
  | ZStore a v => Ok (<[a := v]> mem, z, 0)
  end.

Fixpoint zone_run (s : bytes * vm_zone_t) (os : list zop) : res (bytes * vm_zone_t * list Z) :=
  match os with
  | [] => Ok (s, [])
  | o :: os =>
      let? (s, r) := zone_step s o in
      let? (s, rs) := zone_run s os in
      Ok (s, r :: rs)
  end.

(** The specification: a stack of free blocks [fl]. *)
Definition stack_step (fl : list Z) (o : zop) : list Z * Z :=
  match o with
  | ZAlloc => match fl with [] => ([], 0) | b :: fl => (fl, b) end
  | ZFree b => (b :: fl, 0)
  | ZStore _ _ => (fl, 0)
  end.
Fixpoint stack_run (fl : list Z) (os : list zop) : list Z * list Z :=
  match os with
  | [] => (fl, [])
  | o :: os => let '(fl, r) := stack_step fl o in let '(fl, rs) := stack_run fl os in (fl, r :: rs)
  end.

(** A block is held when it is not free. *)
Definition held (z : vm_zone_t) (fl : list Z) (b : Z) : Prop := is_block z b /\ b ∉ fl.
Definition in_held (z : vm_zone_t) (fl : list Z) (a : Z) : Prop := exists b, held z fl b /\ b <= a < b + blocksz z.

Fixpoint zlegal (z : vm_zone_t) (fl : list Z) (os : list zop) : Prop :=
  match os with
  | [] => True
  | o :: os =>
      match o with ZAlloc => True | ZFree b => held z fl b | ZStore a _ => in_held z fl a end /\
      zlegal z (stack_step fl o).1 os
  end.

(** A byte of a held block is not in the link of a free one. *)
Lemma in_held_free z fl a : 4 <= blocksz z -> Forall (is_block z) fl -> in_held z fl a -> forall c, c ∈ fl -> a < c \/ c + 4 <= a.
Proof.
  intros Hb Hf (b & [(i & Hi & ->) Hn] & Hr) c Hc. rewrite Forall_forall in Hf. destruct (Hf c Hc) as (j & Hj & ->).
  assert (i <> j) as Hne by (by intros ->). unfold block_at in *. assert (i < j \/ j < i) as [?|?] by lia; [left|right]; nia.
Qed.

Lemma zlegal_geom z z' fl os : vaddr z' = vaddr z -> blocksz z' = blocksz z -> blocks z' = blocks z ->
  zlegal z fl os -> zlegal z' fl os.
Proof.
  intros E1 E2 E3. revert fl.
  assert (Hb : forall b, is_block z b <-> is_block z' b).
  { intros b. unfold is_block, block_at. by rewrite E1, E2, E3. }
  induction os as [|o os IH]; intros fl; [done|]. intros [Ho Hos]. split; [|by apply IH].
  destruct o as [|b|a v]; [done| |]; unfold in_held, held in *.
  - by rewrite <- Hb.
  - rewrite E2. destruct Ho as (b & [? ?] & ?). exists b. by rewrite <- Hb.
Qed.

Lemma zone_step_ok mem z fl o : 4 <= blocksz z -> zone_ok mem z fl ->
  match o with ZAlloc => True | ZFree b => held z fl b | ZStore a _ => in_held z fl a end ->
  exists mem' z', zone_step (mem, z) o = Ok (mem', z', (stack_step fl o).2) /\
    zone_ok mem' z' (stack_step fl o).1 /\ vaddr z' = vaddr z /\ blocksz z' = blocksz z /\ blocks z' = blocks z.
Proof.
  intros Hs4 Hz Ho. destruct o as [|b|a v]; cbn [zone_step stack_step fst snd].
  - destruct fl as [|b fl].
    + rewrite (zalloc_none _ _ _ Hz). simpl. by exists mem, z.
    + destruct (zalloc_some _ _ _ _ false Hz) as (z' & o & -> & Hz' & ?). simpl. by exists mem, z'.
  - destruct Ho as [Hb Hn]. destruct (zfree_ok _ _ _ _ Hs4 Hz Hb Hn) as (mem' & z' & -> & Hz' & ?). by exists mem', z'.
  - eexists _, _. split; [done|]. split; [|done]. destruct Hz as [? ? ? ? ? Hf ? Hc ?]. split; try done.
    eapply chain_frame; [|exact Hc]. intros b Hb. apply ld_insert_other. by apply (in_held_free z fl).
Qed.

Lemma zone_run_ok os : forall mem z fl, 4 <= blocksz z -> zone_ok mem z fl -> zlegal z fl os ->
  exists mem' z', zone_run (mem, z) os = Ok (mem', z', (stack_run fl os).2) /\ zone_ok mem' z' (stack_run fl os).1.
Proof.
  induction os as [|o os IH]; intros mem z fl Hs4 Hz Hl; [by exists mem, z|]. destruct Hl as [Ho Hl].
  destruct (zone_step_ok mem z fl o Hs4 Hz Ho) as (mem1 & z1 & E1 & Hz1 & H1 & H2 & H3).
  destruct (IH mem1 z1 _ ltac:(lia) Hz1) as (mem2 & z2 & E2 & Hz2); [by eapply zlegal_geom|].
  exists mem2, z2. cbn [zone_run stack_run]. rewrite E1. cbn [rbind]. rewrite E2. cbn [rbind].
  destruct (stack_step fl o) as [fl1 r]. cbn [fst snd] in *. by destruct (stack_run fl1 os).
Qed.

(** C7: a freshly created zone of [n] blocks, each large enough for a link, hands
    out its blocks like a stack that holds each of them once: along any sequence
    of allocations, releases of held blocks and stores into held blocks nothing
    faults, every allocation returns the block the stack holds on top (NULL exactly when all blocks are
    out), and the free list stays intact whatever the holders store. *)
Theorem zone_program_refines {VM} `{VmLaws VM} vm mem zone bsz n vm' mem' z os :
  4 <= bsz <= 65536 -> 0 < n -> n * bsz < 2 ^ 32 ->
  _vm_zoneCreate vm mem zone bsz n = (vm', mem', z, EOK) ->
  zlegal z (all_blocks z) os ->
  exists mem2 z2, zone_run (mem', z) os = Ok (mem2, z2, (stack_run (all_blocks z) os).2) /\
    zone_ok mem2 z2 (stack_run (all_blocks z) os).1.
Proof.
  intros Hb Hn Hnb E Hl. destruct (zoneCreate_ok _ _ _ _ _ _ _ _ Hb Hn Hnb E) as (Hz & Eb & _).
  apply zone_run_ok; [lia|done|done].
Qed.

(** A trivial provider: one page of the requested size at a fixed address. *)
#[export] Instance fixed_vm : VmOps unit := {
  vm_pageAlloc _ size := ((), if decide (0 < size <= 2 ^ 20) then Some (Page 0x80000000 20) else None);
  vm_pageFree _ _ := ();
  vm_mmap _ _ size := ((), if decide (size = 2 ^ 20) then 0xc0000000 else 0);
  vm_munmap _ _ _ := ();
}.
#[export] Instance fixed_vm_laws : VmLaws unit.
Proof.
  split; simpl; intros; case_decide; simplify_eq; simpl; lia.
Qed.

Definition zone0 : vm_zone_t := Zone 0 0 0 0 0 None.
Definition zone_demo := _vm_zoneCreate () ∅ zone0 64 3.

Lemma zone_program_refines_witness :
  let z := zone_demo.1.2 in
  let os := [ZAlloc; ZAlloc; ZStore 0xc0000044 7; ZFree 0xc0000040; ZAlloc; ZAlloc; ZAlloc] in
  exists mem2 z2, zone_run (zone_demo.1.1.2, z) os = Ok (mem2, z2, (stack_run (all_blocks z) os).2) /\
    zone_ok mem2 z2 (stack_run (all_blocks z) os).1.
Proof.
  apply (zone_program_refines () ∅ zone0 64 3 () zone_demo.1.1.2); [lia|lia|lia|vm_compute; reflexivity|].
  repeat split; cbn.
  - exists 0xc0000040. split; [|done]. split; [by exists 1|]. apply (bool_decide_unpack _). by vm_compute.
  - by exists 1.
  - apply (bool_decide_unpack _). by vm_compute.
Defined.

(** C39: the two argument checks of the zone code never reject anything: the
    test for a power of two accepts every block size, and the alignment test
    of [_vm_zfree] accepts every address in the range of the zone, so an address
    inside a block is put on the free list and later handed out. *)
Theorem zone_checks_vacuous mem z fl bsz b :
  0 < bsz < 2 ^ 32 -> zone_ok mem z fl -> vaddr z <= b < vaddr z + blocks z * blocksz z ->
  pow2_guard bsz = false /\
  exists mem' z', _vm_zfree mem z b = (mem', z') /\ first z' = b /\ ld_word mem' b = Ok (first z).
Proof.
  intros Hbsz HZ Hr. pose proof (first_range _ _ _ HZ) as Hfr. destruct HZ as [Hbs Hb Hlo Hhi Hp Hf Hnd Hc Hu]. split; [by apply pow2_guard_dead|].
  unfold _vm_zfree. rewrite (u32_small (blocksz z * blocks z)) by nia.
  rewrite (u32_small (vaddr z + blocksz z * blocks z)) by nia.
  rewrite !bool_decide_false by (try apply high_land; nia). cbn [orb].
  eexists _, _. split; [done|]. split; [done|by apply ld_st_same].
Qed.

Lemma zone_checks_vacuous_witness :
  pow2_guard 24 = false /\
  exists mem' z', _vm_zfree zone_demo.1.1.2 zone_demo.1.2 0xc0000050 = (mem', z') /\ first z' = 0xc0000050 /\
    ld_word mem' 0xc0000050 = Ok (first zone_demo.1.2).
Proof.
  apply (zone_checks_vacuous zone_demo.1.1.2 zone_demo.1.2 (all_blocks zone_demo.1.2)); [lia| |vm_compute; split; [discriminate|reflexivity]].
  apply (zoneCreate_ok () ∅ zone0 64 3 ()); [lia|lia|lia|vm_compute; reflexivity].
Defined.

(** There is no least block size: the links of blocks of two bytes overwrite each
    other, and the second allocation reads its link at an address outside of the
    zone. *)
Definition small_zone := _vm_zoneCreate () ∅ zone0 2 4.
Example zone_small_blocks : small_zone.2 = EOK /\
  (let? (_, z, _) := zone_step (small_zone.1.1.2, small_zone.1.2) ZAlloc in Ok (first z)) = Ok 0x40002 /\
  zone_run (small_zone.1.1.2, small_zone.1.2) [ZAlloc; ZAlloc] = Fault.
Proof. split_and!; vm_compute; reflexivity. Qed.
