(* ===== verification/Page.v ===== *)
(** * The page allocator (src/vm/page.c)

    A buddy allocator over the array of page descriptors: 32 queues of free
    blocks, one per power of two.  A descriptor pointer is an index of the array
    (an integer: the code forms pointers before the array and tests them), the
    queues are the circular lists of [LibList]. *)

From S2P Require Import Prelude LibList LibText.

(** ** State *)
Record page_t := PageD { p_addr : Z; p_idx : Z; p_flags : Z }.

Record pages_t := Pages {
  sizes : list (list nat);   (** free blocks by binary logarithm of their size *)
  parr : list page_t;        (** the descriptors *)
  allocsz : Z;
  bootsz : Z;
  freesz : Z;
}.

Definition SIZE_PAGE : Z := 4096.
Definition SIZE_VM_SIZES : nat := 32.
Definition PAGE_FREE : Z := 1.
Definition PAGE_OWNER_BOOT : Z := 0.
Definition PAGE_SHIFT : Z := firstbit SIZE_PAGE.

Definition set_sizes (s : list (list nat)) (st : pages_t) : pages_t := Pages s (parr st) (allocsz st) (bootsz st) (freesz st).
Definition set_arr (a : list page_t) (st : pages_t) : pages_t := Pages (sizes st) a (allocsz st) (bootsz st) (freesz st).

(** [pages.pages[i]] *)
Definition pg (st : pages_t) (i : Z) : res page_t :=
  if decide (0 <= i) then deref (parr st !! Z.to_nat i) else Fault.
Definition set_pg (st : pages_t) (i : Z) (f : page_t -> page_t) : res pages_t :=
  let? p := pg st i in Ok (set_arr (<[Z.to_nat i := f p]> (parr st)) st).

Definition set_idx (k : Z) (p : page_t) : page_t := PageD (p_addr p) (u8 k) (p_flags p).
Definition set_flags (f : Z) (p : page_t) : page_t := PageD (p_addr p) (p_idx p) (u8 f).

(** [pages.sizes[k]] *)
Definition queue (st : pages_t) (k : Z) : res (list nat) :=
  if decide (0 <= k) then deref (sizes st !! Z.to_nat k) else Fault.
Definition size_add (st : pages_t) (k i : Z) : res pages_t :=
  let? q := queue st k in
  Ok (set_sizes (<[Z.to_nat k := list_add q (Z.to_nat i)]> (sizes st)) st).
Definition size_remove (st : pages_t) (k i : Z) : res pages_t :=
  let? q := queue st k in
  Ok (set_sizes (<[Z.to_nat k := list_del q (Z.to_nat i)]> (sizes st)) st).

(** [(1 << idx) / SIZE_PAGE] *)
Definition npages (idx : Z) : Z := Z.quot (s32 (Z.shiftl 1 idx)) SIZE_PAGE.

(** ** Allocation *)

(** The size class of a request. *)
Definition size_class (size : Z) : Z :=
  let size := if decide (size < SIZE_PAGE) then SIZE_PAGE else size in
  let start := lastbit size in
  if decide (firstbit size < start) then start + 1 else start.

(** [while ((stop < SIZE_VM_SIZES) && (pages.sizes[stop] == NULL)) stop++;] *)
Fixpoint find_segment (n : nat) (st : pages_t) (stop : Z) : res Z :=
  if decide (stop < SIZE_VM_SIZES) then
    let? q := queue st stop in
    match q, n with
    | _ :: _, _ => Ok stop
    | [], O => NoFuel
    | [], S n => find_segment n st (stop + 1)
    end
  else Ok stop.

(** [while (stop > start)]: halve the block [lh]. *)
Fixpoint split_segment (n : nat) (st : pages_t) (lh stop start : Z) : res (pages_t * Z) :=
  if decide (stop > start) then
    match n with
    | O => NoFuel
    | S n =>
        let? st := size_remove st stop lh in
        let stop := stop - 1 in
        let? p := pg st lh in
        let? st := set_pg st lh (set_idx (p_idx p - 1)) in
        let? p := pg st lh in
        let rh := lh + npages (p_idx p) in
        let? st := set_pg st rh (set_idx (p_idx p)) in
        let? st := size_add st stop lh in
        let? st := size_add st stop rh in
        split_segment n st lh stop start
    end
  else Ok (st, stop).

(** Mark [n] pages from [i] on as allocated. *)
Fixpoint mark_alloc (n : nat) (st : pages_t) (i flags : Z) : res pages_t :=
  match n with
  | O => Ok st
  | S n =>
      let? st := set_pg st i (fun p => set_flags (Z.lor (Z.land (p_flags p) (Z.lnot PAGE_FREE)) flags) p) in
      mark_alloc n (Pages (sizes st) (parr st) (u32 (allocsz st + SIZE_PAGE)) (bootsz st) (u32 (freesz st - SIZE_PAGE))) (i + 1) flags
  end.

(** [_page_alloc]: the new state and the descriptor, or NULL. *)
Definition _page_alloc (st : pages_t) (size flags : Z) : res (pages_t * option Z) :=
  let start := size_class size in
  let? stop := find_segment SIZE_VM_SIZES st start in
  if decide (stop = SIZE_VM_SIZES) then Ok (st, None)
  else
    let? q := queue st stop in
    let? lh := deref (head q) in
    let lh := Z.of_nat lh in
    let? (st, stop) := split_segment SIZE_VM_SIZES st lh stop start in
    let? st := size_remove st stop lh in
    let? p := pg st lh in
    let? st := mark_alloc (Z.to_nat (npages (p_idx p))) st lh flags in
    Ok (st, Some lh).

(** [vm_pageAlloc]: the same under the lock. *)
Definition vm_pageAlloc := _page_alloc.

(** ** Release *)
Definition is_free (p : page_t) : bool := bool_decide (Z.land (p_flags p) PAGE_FREE <> 0).

Fixpoint mark_free (n : nat) (st : pages_t) (i : Z) : res pages_t :=
  match n with
  | O => Ok st
  | S n =>
      let? st := set_pg st i (fun p => set_flags (Z.lor (p_flags p) PAGE_FREE) p) in
      mark_free n (Pages (sizes st) (parr st) (u32 (allocsz st - SIZE_PAGE)) (bootsz st) (u32 (freesz st + SIZE_PAGE))) (i + 1)
  end.

(** [if (p->addr & ((1 << (idx + 1)) - 1)) lh = p - ...; else rh = p + ...;] *)
Definition pick_buddy (st : pages_t) (p lh rh idx : Z) : res (Z * Z) :=
  let? d := pg st p in
  if decide (Z.land (p_addr d) (Z.shiftl 1 (idx + 1) - 1) <> 0) then Ok (p - npages idx, rh)
  else Ok (lh, p + npages idx).

(** The loop condition; its operands are evaluated from left to right. *)
Definition can_merge (st : pages_t) (lh rh idx : Z) : res bool :=
  if decide (0 <= lh) then
    if decide (rh < u32 (allocsz st + freesz st) / SIZE_PAGE) then
      let? l := pg st lh in
      let? r := pg st rh in
      Ok (is_free l && is_free r && bool_decide (p_idx l = p_idx r) &&
          bool_decide (u32 (p_addr l + Z.shiftl 1 (p_idx l)) = p_addr r) && bool_decide (idx < SIZE_VM_SIZES))
    else Ok false
  else Ok false.

Fixpoint merge_loop (fuel : nat) (st : pages_t) (p lh rh idx : Z) : res (pages_t * Z * Z) :=
  match fuel with
  | O => NoFuel
  | S fuel =>
      let? m := can_merge st lh rh idx in
      if m then
        let? st := (if decide (p = lh) then size_remove st idx rh else size_remove st idx lh) in
        let? st := set_pg st rh (set_idx PAGE_SHIFT) in
        let? l := pg st lh in
        let? st := set_pg st lh (set_idx (p_idx l + 1)) in
        let idx := idx + 1 in
        let p := lh in
        let? (lh, rh) := pick_buddy st p lh rh idx in
        merge_loop fuel st p lh rh idx
      else Ok (st, p, idx)
  end.

(** [_page_free]: releasing a free page stops the kernel, [Fault] here. *)
Definition _page_free (st : pages_t) (p : Z) : res pages_t :=
  let? d := pg st p in
  if is_free d then Fault
  else
    let idx := p_idx d in
    let? st := mark_free (Z.to_nat (npages idx)) st p in
    let? (lh, rh) := pick_buddy st p p p idx in
    let? (st, p, idx) := merge_loop (S SIZE_VM_SIZES) st p lh rh idx in
    size_add st idx p.

Definition vm_pageFree := _page_free.

(** ** Lookup by address *)
Definition _page_get_cmp (a : Z) (p : page_t) : Z :=
  if decide (a = p_addr p) then 0 else if decide (a > p_addr p) then 1 else -1.

Definition _page_get (st : pages_t) (addr : Z) : res (option Z) :=
  let np := u32 (freesz st + allocsz st) / SIZE_PAGE in
  let addr := Z.land addr (u32 (Z.lnot (SIZE_PAGE - 1))) in
  BSearch.lib_bsearch (fun i => let? p := pg st i in Ok (_page_get_cmp addr p)) np.

(** [resolve] is [pmap_resolve]; an address with no page is a NULL
    dereference. *)
Definition vm_pageFreeAt (st : pages_t) (resolve : Z -> Z) (vaddr : Z) : res pages_t :=
  let? p := _page_get st (resolve vaddr) in
  let? p := deref p in
  _page_free st p.

Definition vm_pageGetStats (st : pages_t) : Z := freesz st.

(** ** Initialisation *)

(** [for (k = 0; (k < ((1 << idx) / SIZE_PAGE) - 1) && (i + k < pages.freesz + pages.allocsz - 1); k++)]
    up to the first page that is not free. *)
Fixpoint run_length (fuel : nat) (st : pages_t) (i k lim : Z) : res Z :=
  match fuel with
  | O => NoFuel
  | S fuel =>
      if decide (k < lim /\ i + k < u32 (u32 (freesz st + allocsz st) - 1)) then
        let? p := pg st (i + 1 + k) in
        if is_free p then run_length fuel st i (k + 1) lim else Ok k
      else Ok k
  end.

Fixpoint init_loop (fuel : nat) (st : pages_t) (i : Z) : res pages_t :=
  match fuel with
  | O => NoFuel
  | S fuel =>
      if decide (i < u32 (allocsz st + freesz st) / SIZE_PAGE) then
        let? p := pg st i in
        if negb (is_free p) then init_loop fuel st (i + 1)
        else
          let idx := firstbit (p_addr p) in
          let idx := if decide (idx >= SIZE_VM_SIZES) then SIZE_VM_SIZES - 1 else idx in
          let? k := run_length (S (length (parr st))) st i 0 (u32 (npages idx - 1)) in
          let idx := lastbit ((1 + k) * SIZE_PAGE) in
          let? st := set_pg st i (set_idx idx) in
          let? st := size_add st idx i in
          init_loop fuel st (i + Z.shiftl 1 idx / SIZE_PAGE)
      else Ok st
  end.

Definition _page_initSizes (st : pages_t) : res pages_t :=
  init_loop (S (length (parr st))) (set_sizes (<[Z.to_nat PAGE_SHIFT := []]> (sizes st)) st) 0.

(** The descriptors [_page_init] collects: [src] are the pages reported by
    [pmap_getPage], in order. *)
Fixpoint page_collect (st : pages_t) (src : list page_t) : res pages_t :=
  match src with
  | [] => Ok st
  | p :: src =>
      let i := Z.of_nat (length (parr st)) in
      if is_free p then
        let st := Pages (sizes st) (parr st ++ [set_idx PAGE_SHIFT p]) (allocsz st) (bootsz st) (u32 (freesz st + SIZE_PAGE)) in
        let? st := size_add st PAGE_SHIFT i in
        page_collect st src
      else
        let boot := if decide (Z.land (Z.shiftr (p_flags p) 1) 7 = PAGE_OWNER_BOOT) then SIZE_PAGE else 0 in
        page_collect (Pages (sizes st) (parr st ++ [set_idx 0 p]) (u32 (allocsz st + SIZE_PAGE)) (u32 (bootsz st + boot)) (freesz st)) src
  end.

Definition PAGE_KERNEL_PTABLE : Z := Z.lor (Z.shiftl 1 1) (Z.shiftl 3 4).
Definition PAGE_KERNEL_HEAP : Z := Z.lor (Z.shiftl 1 1) (Z.shiftl 6 4).

(** ** Blocks *)

(** Pages in a block of size class [k]. *)
Definition npg (k : nat) : nat := 2 ^ (k - 12).

Lemma npg_pos k : (0 < npg k)%nat.
Proof. unfold npg. apply Nat.neq_0_lt_0, Nat.pow_nonzero. lia. Qed.
Lemma npg_S k : (12 <= k)%nat -> npg (S k) = (2 * npg k)%nat.
Proof. intros. unfold npg. by replace (S k - 12)%nat with (S (k - 12)) by lia. Qed.
Lemma npg_mono k k' : (k <= k')%nat -> (npg k <= npg k')%nat.
Proof. intros. unfold npg. apply Nat.pow_le_mono_r; lia. Qed.
Lemma npg_bytes k : (12 <= k)%nat -> SIZE_PAGE * npg k = 2 ^ k.
Proof.
  intros. unfold npg, SIZE_PAGE. rewrite Nat2Z.inj_pow. change 4096 with (2 ^ 12). change (Z.of_nat 2) with 2.
  rewrite <- Z.pow_add_r by lia. f_equal. lia.
Qed.
Lemma npages_npg k : (12 <= k <= 30)%nat -> npages (Z.of_nat k) = npg k.
Proof.
  intros Hk. unfold npages. rewrite Z.shiftl_mul_pow2, Z.mul_1_l by lia.
  assert (2 ^ Z.of_nat k < 2 ^ 31) by (apply Z.pow_lt_mono_r; lia).
  rewrite s32_small by lia. rewrite <- npg_bytes by lia. unfold SIZE_PAGE.
  rewrite Z.quot_div_nonneg by lia. rewrite Z.mul_comm, Z.div_mul by lia. done.
Qed.

Definition overlap (b1 b2 : nat * nat) : Prop :=
  (b1.1 < b2.1 + npg b2.2)%nat /\ (b2.1 < b1.1 + npg b1.2)%nat.

(** A block lies in the array, is contiguous in memory, aligned to its size, and
    its first descriptor carries its class. *)
Record block_ok (a : list page_t) (b : nat * nat) : Prop := {
  bo_class : (12 <= b.2 <= 30)%nat;
  bo_in : (b.1 + npg b.2 <= length a)%nat;
  bo_idx : exists p, a !! b.1 = Some p /\ p_idx p = Z.of_nat b.2 /\ (2 ^ Z.of_nat b.2 | p_addr p);
  bo_contig : forall j p0 p, (j < npg b.2)%nat -> a !! b.1 = Some p0 -> a !! (b.1 + j)%nat = Some p -> p_addr p = p_addr p0 + SIZE_PAGE * j;
}.

Definition block_flags (a : list page_t) (free : bool) (b : nat * nat) : Prop :=
  forall j p, (j < npg b.2)%nat -> a !! (b.1 + j)%nat = Some p -> is_free p = free.

Definition queued (s : list (list nat)) (b : nat * nat) : Prop := exists q, s !! b.2 = Some q /\ b.1 ∈ q.

(** The number of free descriptors. *)
Definition nfree (a : list page_t) : Z := length (filter (fun p => is_free p = true) a).

(** The invariant: [al] are the allocated blocks, [fl] the free blocks the code
    holds outside the queues for the moment. *)
Record page_inv (st : pages_t) (al fl : gset (nat * nat)) : Prop := {
  pi_sizes : length (sizes st) = SIZE_VM_SIZES;
  pi_small : SIZE_PAGE * length (parr st) < 2 ^ 31;
  pi_addr : forall i p, parr st !! i = Some p -> 0 <= p_addr p < 2 ^ 32 /\ (SIZE_PAGE | p_addr p) /\ 0 <= p_flags p < 256;
  pi_sorted : forall i j p q, parr st !! i = Some p -> parr st !! j = Some q -> (i < j)%nat -> p_addr p < p_addr q;
  pi_ok : forall b, queued (sizes st) b \/ b ∈ fl \/ b ∈ al -> block_ok (parr st) b;
  pi_free : forall b, queued (sizes st) b \/ b ∈ fl -> block_flags (parr st) true b;
  pi_alloc : forall b, b ∈ al -> block_flags (parr st) false b;
  pi_disj : forall b b', queued (sizes st) b \/ b ∈ fl \/ b ∈ al -> queued (sizes st) b' \/ b' ∈ fl \/ b' ∈ al ->
    overlap b b' -> b = b';
  pi_nodup : forall k q, sizes st !! k = Some q -> NoDup q;
  pi_held : forall b, b ∈ fl -> ~ queued (sizes st) b;
  pi_cover : forall j p, parr st !! j = Some p -> is_free p = true ->
    exists b, (queued (sizes st) b \/ b ∈ fl) /\ (b.1 <= j < b.1 + npg b.2)%nat;
  pi_freesz : freesz st = SIZE_PAGE * nfree (parr st);
  pi_allocsz : allocsz st = SIZE_PAGE * (length (parr st) - nfree (parr st));
}.

(** *** Changing the queues only *)
Lemma page_inv_queues st al fl fl' s' :
  page_inv st al fl -> length s' = SIZE_VM_SIZES ->
  (forall b, (queued s' b \/ b ∈ fl') <-> (queued (sizes st) b \/ b ∈ fl)) ->
  (forall k q, s' !! k = Some q -> NoDup q) -> (forall b, b ∈ fl' -> ~ queued s' b) ->
  page_inv (set_sizes s' st) al fl'.
Proof.
  intros [Hs Hsm Ha Hso Hok Hf Hal Hd Hn Hh Hc Hfs Has] Hs' Heq Hn' Hh'.
  assert (Heq3 : forall b, (queued s' b \/ b ∈ fl' \/ b ∈ al) -> (queued (sizes st) b \/ b ∈ fl \/ b ∈ al)).
  { intros b Hb. specialize (Heq b). naive_solver. }
  split; simpl; try done.
  - intros b Hb. by apply Hok, Heq3.
  - intros b Hb. by apply Hf, Heq.
  - intros b b' Hb Hb'. apply Hd; by apply Heq3.
  - intros j p Hj Hp. destruct (Hc j p Hj Hp) as (b & Hb & Hr). exists b. split; [by apply Heq|done].
Qed.

Lemma list_del_elem (q : list nat) i j : NoDup q -> j ∈ list_del q i <-> j ∈ q /\ j <> i.
Proof.
  induction 1 as [|x q Hx Hq IH]; simpl; [set_solver|]. case_decide as E.
  - subst. set_solver.
  - rewrite !elem_of_cons, IH. naive_solver.
Qed.
Lemma list_del_nodup (q : list nat) i : NoDup q -> NoDup (list_del q i).
Proof.
  induction 1 as [|x q Hx Hq IH]; simpl; [constructor|]. case_decide; [done|]. constructor; [|done].
  rewrite list_del_elem by done. naive_solver.
Qed.

Lemma queue_lookup st (k : nat) q : sizes st !! k = Some q -> queue st k = Ok q.
Proof. intros H. unfold queue. rewrite decide_True, Nat2Z.id by lia. by rewrite H. Qed.

Lemma size_remove_inv st al fl i k : page_inv st al fl -> queued (sizes st) (i, k) ->
  exists s', size_remove st (Z.of_nat k) (Z.of_nat i) = Ok (set_sizes s' st) /\
    page_inv (set_sizes s' st) al ({[(i, k)]} ∪ fl) /\
    forall b, queued s' b <-> queued (sizes st) b /\ b <> (i, k).
Proof.
  intros HI (q & Hq & Hi). simpl in Hq, Hi. unfold size_remove. rewrite (queue_lookup _ _ _ Hq). cbn [rbind].
  rewrite !Nat2Z.id. eexists. split; [done|].
  pose proof (pi_nodup _ _ _ HI _ _ Hq) as Hnd. pose proof (pi_held _ _ _ HI) as Hh.
  assert (Hkl : (k < length (sizes st))%nat) by (by apply lookup_lt_Some in Hq).
  assert (Hqd : forall b, queued (<[k := list_del q i]> (sizes st)) b <-> queued (sizes st) b /\ b <> (i, k)).
  { intros [j k']. unfold queued. simpl. destruct (decide (k' = k)) as [->|Hne].
    - rewrite list_lookup_insert_eq by done. split.
      + intros (? & [= <-] & Hj). apply list_del_elem in Hj as [Hj ?]; [|done]. split; [eauto|congruence].
      + intros [(q' & Hq' & Hj) Hne]. rewrite Hq in Hq'. simplify_eq. eexists. split; [done|]. apply list_del_elem; [done|].
        split; [done|]. congruence.
    - rewrite list_lookup_insert_ne by done. naive_solver. }
  split; [|exact Hqd]. apply (page_inv_queues st al fl); [done| | | |].
  - rewrite length_insert. apply (pi_sizes _ _ _ HI).
  - intros b. rewrite Hqd, elem_of_union, elem_of_singleton. destruct (decide (b = (i, k))) as [->|]; [|naive_solver].
    split; [intros _|by intros _; right; left]. left. exists q. done.
  - intros k' q' H. destruct (decide (k' = k)) as [->|Hne].
    + rewrite list_lookup_insert_eq in H by done. simplify_eq. by apply list_del_nodup.
    + rewrite list_lookup_insert_ne in H by done. by eapply pi_nodup.
  - intros b [->%elem_of_singleton|Hb]%elem_of_union; rewrite Hqd; [naive_solver|]. intros [? ?]. by eapply Hh.
Qed.

Lemma size_add_inv st al fl i k : page_inv st al fl -> (i, k) ∈ fl ->
  exists s', size_add st (Z.of_nat k) (Z.of_nat i) = Ok (set_sizes s' st) /\
    page_inv (set_sizes s' st) al (fl ∖ {[(i, k)]}) /\
    forall b, queued s' b <-> queued (sizes st) b \/ b = (i, k).
Proof.
  intros HI Hi. pose proof (pi_ok _ _ _ HI (i, k) (or_intror (or_introl Hi))) as [Hk _ _ _]. simpl in Hk.
  pose proof (pi_sizes _ _ _ HI) as Hs. unfold SIZE_VM_SIZES in Hs.
  destruct (lookup_lt_is_Some_2 (sizes st) k) as [q Hq]; [lia|].
  unfold size_add. rewrite (queue_lookup _ _ _ Hq). cbn [rbind]. rewrite !Nat2Z.id. eexists. split; [done|].
  pose proof (pi_nodup _ _ _ HI _ _ Hq) as Hnd. pose proof (pi_held _ _ _ HI) as Hh.
  assert (Hkl : (k < length (sizes st))%nat) by lia.
  assert (Hqd : forall b, queued (<[k := list_add q i]> (sizes st)) b <-> queued (sizes st) b \/ b = (i, k)).
  { intros [j k']. unfold queued, list_add. simpl. destruct (decide (k' = k)) as [->|Hne].
    - rewrite list_lookup_insert_eq by done. split.
      + intros (? & [= <-] & [Hj|Hj%list_elem_of_singleton]%elem_of_app); [left; eauto|right; by subst].
      + intros [(q' & Hq' & Hj)|[= <-]]; [rewrite Hq in Hq'; simplify_eq|]; eexists; (split; [done|]); set_solver.
    - rewrite list_lookup_insert_ne by done. naive_solver. }
  split; [|exact Hqd]. apply (page_inv_queues st al fl); [done| | | |].
  - rewrite length_insert. apply (pi_sizes _ _ _ HI).
  - intros b. rewrite Hqd, elem_of_difference, elem_of_singleton. destruct (decide (b = (i, k))) as [->|]; naive_solver.
  - intros k' q' H. destruct (decide (k' = k)) as [->|Hne].
    + rewrite list_lookup_insert_eq in H by done. simplify_eq. unfold list_add. apply NoDup_app. split_and!; [done| |apply NoDup_singleton].
      intros j Hj ->%list_elem_of_singleton. apply (Hh _ Hi). by exists q.
    + rewrite list_lookup_insert_ne in H by done. by eapply pi_nodup.
  - intros b [Hb Hne]%elem_of_difference. rewrite Hqd. intros [?| ->]; [by eapply Hh|set_solver].
Qed.

(** *** Changing size classes of descriptors only *)
Definition same_af : list page_t -> list page_t -> Prop :=
  Forall2 (fun p p' => p_addr p = p_addr p' /\ p_flags p = p_flags p').

Lemma same_af_refl a : same_af a a.
Proof. by apply Forall2_same_length_lookup_2; [|intros; simplify_eq]. Qed.

Lemma same_af_insert a a' i p k : same_af a a' -> a' !! i = Some p -> same_af a (<[i := set_idx k p]> a').
Proof.
  intros Ha Hi. destruct (Forall2_lookup_r _ _ _ _ _ Ha Hi) as (p0 & H0 & HP).
  rewrite <- (list_insert_id a i p0 H0). apply Forall2_insert; [done|]. done.
Qed.

Lemma same_af_lookup a a' i p' : same_af a a' -> a' !! i = Some p' ->
  exists p, a !! i = Some p /\ p_addr p = p_addr p' /\ p_flags p = p_flags p'.
Proof. intros Ha Hi. destruct (Forall2_lookup_r _ _ _ _ _ Ha Hi) as (p & ? & ?). eauto. Qed.

Lemma same_af_trans a1 a2 a3 : same_af a1 a2 -> same_af a2 a3 -> same_af a1 a3.
Proof.
  unfold same_af. intros H. revert a3. induction H as [|p q l1 l2 [Ha Hf] _ IH]; intros a3 H3; inversion_clear H3 as [|? r ? ? [Ha' Hf'] H3'];
    constructor; [split; congruence|by apply IH].
Qed.
Lemma same_af_sym a a' : same_af a a' -> same_af a' a.
Proof. unfold same_af. induction 1 as [|p q l l' [? ?] _ IH]; constructor; [done|exact IH]. Qed.

Lemma is_free_flags p p' : p_flags p = p_flags p' -> is_free p = is_free p'.
Proof. unfold is_free. by intros ->. Qed.

Lemma same_af_nfree a a' : same_af a a' -> nfree a = nfree a'.
Proof.
  unfold nfree. induction 1 as [|p p' a a' [_ Hp] Ha IH]; [done|]. rewrite !filter_cons.
  rewrite (is_free_flags _ _ Hp). case_decide; simpl; lia.
Qed.

Lemma same_af_flags a a' f b : same_af a a' -> block_flags a f b -> block_flags a' f b.
Proof.
  intros Ha Hb j p' Hj Hp'. destruct (same_af_lookup _ _ _ _ Ha Hp') as (p & Hp & _ & Hfl).
  rewrite <- (is_free_flags _ _ Hfl). by eapply Hb.
Qed.

Lemma same_af_contig a a' b : same_af a a' ->
  (forall j p0 p, (j < npg b.2)%nat -> a !! b.1 = Some p0 -> a !! (b.1 + j)%nat = Some p -> p_addr p = p_addr p0 + SIZE_PAGE * j) ->
  (forall j p0 p, (j < npg b.2)%nat -> a' !! b.1 = Some p0 -> a' !! (b.1 + j)%nat = Some p -> p_addr p = p_addr p0 + SIZE_PAGE * j).
Proof.
  intros Ha Hc j p0' p' Hj H0 Hp. destruct (same_af_lookup _ _ _ _ Ha H0) as (q0 & E0 & A0 & _).
  destruct (same_af_lookup _ _ _ _ Ha Hp) as (q & E & A & _). rewrite <- A0, <- A. by eapply Hc.
Qed.

Lemma same_af_block a a' b : same_af a a' -> a' !! b.1 = a !! b.1 -> block_ok a b -> block_ok a' b.
Proof.
  intros Ha He [H1 H2 H3 H4]. split; [done| | |].
  - by rewrite <- (Forall2_length _ _ _ Ha).
  - by rewrite He.
  - by eapply same_af_contig.
Qed.

(** Replacing some blocks the code holds by others that cover the same pages. *)
Lemma page_inv_reblock st al fl a' old new :
  page_inv st al (old ∪ fl) -> same_af (parr st) a' -> old ## fl ->
  (forall b, queued (sizes st) b \/ b ∈ fl \/ b ∈ al -> a' !! b.1 = parr st !! b.1) ->
  (forall b, b ∈ new -> block_ok a' b) ->
  (forall b, b ∈ new -> forall j, (b.1 <= j < b.1 + npg b.2)%nat -> exists c, c ∈ old /\ (c.1 <= j < c.1 + npg c.2)%nat) ->
  (forall c, c ∈ old -> forall j, (c.1 <= j < c.1 + npg c.2)%nat -> exists b, b ∈ new /\ (b.1 <= j < b.1 + npg b.2)%nat) ->
  (forall b b', b ∈ new -> b' ∈ new -> overlap b b' -> b = b') ->
  page_inv (set_arr a' st) al (new ∪ fl).
Proof.
  intros [Hs Hsm Ha Hso Hok Hf Hal Hd Hn Hh Hc Hfs Has] Haf Hdisj Hkeep Hnew Hno Hon Hnn.
  pose proof (Forall2_length _ _ _ Haf) as Hlen.
  (* a kept block does not overlap a new one *)
  assert (Hcross : forall b b', b ∈ new -> queued (sizes st) b' \/ b' ∈ fl \/ b' ∈ al -> ~ overlap b b').
  { intros b b' Hb Hb' [Ho1 Ho2].
    set (j := Nat.max b.1 b'.1).
    destruct (Hno b Hb j) as (c & Hc' & Hj); [unfold j; pose proof (npg_pos b.2); lia|].
    assert (c = b') as ->.
    { apply Hd; [set_solver|set_solver|]. unfold overlap, j in *. pose proof (npg_pos b'.2). lia. }
    destruct Hb' as [Hq|[Hfl|Hal']].
    - by apply (Hh b'); [set_solver|].
    - set_solver.
    - pose proof (Hal b' Hal') as Hfl1. pose proof (Hf b' (or_intror (elem_of_union_l _ _ _ Hc'))) as Hfl2.
      destruct (Hok b' (or_intror (or_intror Hal'))) as [_ Hin (p & Hp & _) _].
      specialize (Hfl1 0%nat p (npg_pos _)). specialize (Hfl2 0%nat p (npg_pos _)).
      rewrite Nat.add_0_r in Hfl1, Hfl2. rewrite Hfl1 in Hfl2 by done. by apply Hfl2 in Hp. }
  assert (Hov : forall b b', overlap b b' -> overlap b' b) by (unfold overlap; tauto).
  split; simpl; try done.
  - by rewrite <- Hlen.
  - intros i p' Hi. destruct (same_af_lookup _ _ _ _ Haf Hi) as (p & Hp & Ea & Ef). rewrite <- Ea, <- Ef. by eapply Ha.
  - intros i j p' q' Hi Hj. destruct (same_af_lookup _ _ _ _ Haf Hi) as (p & Hp & Ea & _).
    destruct (same_af_lookup _ _ _ _ Haf Hj) as (q & Hq & Eq & _). rewrite <- Ea, <- Eq. by eapply Hso.
  - intros b Hb. destruct (decide (b ∈ new)) as [Hin|Hin]; [by apply Hnew|].
    assert (Hb' : queued (sizes st) b \/ b ∈ fl \/ b ∈ al) by set_solver.
    eapply same_af_block; [done|by apply Hkeep|]. apply Hok. set_solver.
  - intros b Hb. destruct (decide (b ∈ new)) as [Hin|Hin].
    + intros j p' Hj Hp'. destruct (same_af_lookup _ _ _ _ Haf Hp') as (p & Hp & _ & Ef). rewrite <- (is_free_flags _ _ Ef).
      destruct (Hno b Hin (b.1 + j)%nat) as (c & Hc' & Hj'); [lia|].
      eapply (Hf c ltac:(set_solver) (b.1 + j - c.1)%nat p); [lia|]. by replace (c.1 + (b.1 + j - c.1))%nat with (b.1 + j)%nat by lia.
    + eapply same_af_flags; [done|]. apply Hf. set_solver.
  - intros b Hb. eapply same_af_flags; [done|]. by apply Hal.
  - intros b b' Hb Hb' Ho. destruct (decide (b ∈ new)) as [Hin|Hin], (decide (b' ∈ new)) as [Hin'|Hin'].
    + by apply Hnn.
    + exfalso. eapply (Hcross b b'); [done|set_solver|done].
    + exfalso. eapply (Hcross b' b); [done|set_solver|by apply Hov].
    + apply Hd; [set_solver|set_solver|done].
  - intros b [Hb|Hb]%elem_of_union; [|apply Hh; set_solver]. intros Hq.
    eapply (Hcross b b); [done|by left|]. unfold overlap. pose proof (npg_pos b.2). lia.
  - intros j p' Hj Hfr. destruct (same_af_lookup _ _ _ _ Haf Hj) as (p & Hp & _ & Ef). rewrite <- (is_free_flags _ _ Ef) in Hfr.
    destruct (Hc j p Hp Hfr) as (b & Hb & Hr). destruct (decide (b ∈ old)) as [Ho|Ho].
    + destruct (Hon b Ho j Hr) as (b' & Hb' & Hr'). exists b'. set_solver.
    + exists b. set_solver.
  - by rewrite <- (same_af_nfree _ _ Haf).
  - by rewrite <- (same_af_nfree _ _ Haf), <- Hlen.
Qed.

(** Reading and writing descriptors. *)
Lemma pg_ok st (i : nat) p : parr st !! i = Some p -> pg st i = Ok p.
Proof. intros H. unfold pg. rewrite decide_True, Nat2Z.id by lia. by rewrite H. Qed.
Lemma set_pg_ok st (i : nat) p f : parr st !! i = Some p -> set_pg st i f = Ok (set_arr (<[i := f p]> (parr st)) st).
Proof. intros H. unfold set_pg. rewrite (pg_ok _ _ _ H). cbn [rbind]. by rewrite Nat2Z.id. Qed.

Lemma set_pg_inv st (i : nat) f st' : set_pg st i f = Ok st' -> exists p, parr st !! i = Some p /\ st' = set_arr (<[i := f p]> (parr st)) st.
Proof.
  unfold set_pg, pg. rewrite decide_True, Nat2Z.id by lia. destruct (parr st !! i) as [p|]; cbn [deref rbind]; [|done].
  intros [= <-]. eauto.
Qed.

(** Changing the class of a descriptor or the queues keeps addresses and flags. *)
Lemma set_idx_af st i k st' : set_pg st i (set_idx k) = Ok st' -> same_af (parr st) (parr st').
Proof.
  unfold set_pg, pg. case_decide; [|done]. destruct (parr st !! Z.to_nat i) as [p|] eqn:E; cbn [deref rbind]; [|done].
  intros [= <-]. apply same_af_insert; [apply same_af_refl|done].
Qed.
Lemma size_add_parr st k i st' : size_add st k i = Ok st' -> parr st' = parr st.
Proof. unfold size_add. intros (q & _ & [= <-])%rbind_inv. done. Qed.
Lemma size_remove_parr st k i st' : size_remove st k i = Ok st' -> parr st' = parr st.
Proof. unfold size_remove. intros (q & _ & [= <-])%rbind_inv. done. Qed.

Lemma block_lookup a b j : block_ok a b -> (j < npg b.2)%nat -> exists p, a !! (b.1 + j)%nat = Some p.
Proof. intros [_ Hin _ _] Hj. apply lookup_lt_is_Some_2. lia. Qed.

(** A block that starts inside another one is that one. *)
Lemma kept_outside st al fl b c j : page_inv st al fl -> queued (sizes st) b \/ b ∈ fl \/ b ∈ al ->
  queued (sizes st) c \/ c ∈ fl \/ c ∈ al -> b <> c -> (j < npg c.2)%nat -> b.1 <> (c.1 + j)%nat.
Proof.
  intros HI Hb Hc Hne Hj He. apply Hne. eapply (pi_disj _ _ _ HI); [done|done|].
  unfold overlap. pose proof (npg_pos b.2). lia.
Qed.

Lemma u8_small k : 0 <= k < 256 -> u8 k = k.
Proof. intros. by apply wrap_small. Qed.

(** Halving a block. *)
Definition halved (a : list page_t) (i k : nat) (p q : page_t) : list page_t :=
  <[(i + npg k)%nat := set_idx k q]> (<[i := set_idx k p]> a).

Lemma split_inv st al fl i k p q : page_inv st al ({[(i, S k)]} ∪ fl) -> (i, S k) ∉ fl -> (12 <= k)%nat ->
  parr st !! i = Some p -> parr st !! (i + npg k)%nat = Some q ->
  page_inv (set_arr (halved (parr st) i k p q) st) al ({[(i, k); ((i + npg k)%nat, k)]} ∪ fl).
Proof.
  intros HI Hnf Hk Hp Hq. pose proof (npg_pos k) as Hpos. pose proof (npg_S k Hk) as HS.
  assert (Hblk : block_ok (parr st) (i, S k)) by (eapply pi_ok; [exact HI|set_solver]).
  destruct Hblk as [Hcl Hin (p' & Hp' & Hidx & Hal) Hcon]. simpl in *. rewrite Hp in Hp'. simplify_eq.
  assert (Haf : same_af (parr st) (halved (parr st) i k p' q)).
  { unfold halved. apply same_af_insert; [apply same_af_insert; [apply same_af_refl|done]|].
    rewrite list_lookup_insert_ne by lia. done. }
  pose proof (Forall2_length _ _ _ Haf) as Hlen.
  assert (Hki : halved (parr st) i k p' q !! i = Some (set_idx k p')).
  { unfold halved. rewrite list_lookup_insert_ne, list_lookup_insert_eq by (try apply lookup_lt_Some in Hp; lia). done. }
  assert (Hkr : halved (parr st) i k p' q !! (i + npg k)%nat = Some (set_idx k q)).
  { unfold halved. rewrite list_lookup_insert_eq; [done|]. rewrite length_insert. by apply lookup_lt_Some in Hq. }
  assert (Hdiv : (2 ^ Z.of_nat k | p_addr p')).
  { eapply Z.divide_trans; [|exact Hal]. exists 2. replace (Z.of_nat (S k)) with (1 + Z.of_nat k) by lia. rewrite Z.pow_add_r by lia. lia. }
  assert (Haq : p_addr q = p_addr p' + 2 ^ Z.of_nat k).
  { rewrite (Hcon (npg k) p' q) by (done || lia). by rewrite npg_bytes. }
  eapply page_inv_reblock; [exact HI|done|set_solver|..].
  - intros b Hb. unfold halved.
    assert (Hb' : queued (sizes st) b \/ b ∈ {[(i, S k)]} ∪ fl \/ b ∈ al) by set_solver.
    assert (Hne : b <> (i, S k)).
    { intros ->. destruct Hb as [Hb|[Hb|Hb]]; [by apply (pi_held _ _ _ HI (i, S k)); [set_solver|]|done|].
      pose proof (pi_alloc _ _ _ HI _ Hb 0%nat p' (npg_pos _)) as H1.
      pose proof (pi_free _ _ _ HI (i, S k) ltac:(set_solver) 0%nat p' (npg_pos _)) as H2. simpl in H1, H2.
      rewrite Nat.add_0_r in H1, H2. rewrite H1 in H2 by done. by apply H2 in Hp. }
    assert (Hc' : queued (sizes st) (i, S k) \/ (i, S k) ∈ {[(i, S k)]} ∪ fl \/ (i, S k) ∈ al) by set_solver.
    pose proof (kept_outside _ _ _ b (i, S k) 0 HI Hb' Hc' Hne (npg_pos _)) as H1.
    pose proof (kept_outside _ _ _ b (i, S k) (npg k) HI Hb' Hc' Hne ltac:(simpl; lia)) as H2. simpl in H1, H2.
    rewrite !list_lookup_insert_ne by lia. done.
  - intros b [->%elem_of_singleton| ->%elem_of_singleton]%elem_of_union; split; simpl; try lia.
    + eexists. split; [exact Hki|]. simpl. split; [apply u8_small; lia|done].
    + intros j p0 p1 Hj H0 H1. eapply (same_af_contig _ _ (i, S k) Haf); simpl; [exact Hcon|lia|done|done].
    + eexists. split; [exact Hkr|]. simpl. split; [apply u8_small; lia|]. rewrite Haq. apply Z.divide_add_r; [done|apply Z.divide_refl].
    + intros j p0 p1 Hj H0 H1. rewrite Hkr in H0. simplify_eq. simpl.
      pose proof (same_af_contig _ _ (i, S k) Haf Hcon (npg k + j)%nat _ p1 ltac:(simpl; lia) Hki) as Hc1. simpl in Hc1.
      rewrite Hc1 by (by rewrite Nat.add_assoc). rewrite Haq, <- (npg_bytes k) by done. unfold SIZE_PAGE. lia.
  - intros b Hb j Hj. exists (i, S k). split; [set_solver|]. simpl.
    apply elem_of_union in Hb as [->%elem_of_singleton| ->%elem_of_singleton]; simpl in *; lia.
  - intros c ->%elem_of_singleton j Hj. simpl in Hj. destruct (decide (j < i + npg k)%nat).
    + exists (i, k). split; [set_solver|simpl; lia].
    + exists ((i + npg k)%nat, k). split; [set_solver|simpl; lia].
  - intros b b' [->%elem_of_singleton| ->%elem_of_singleton]%elem_of_union
      [->%elem_of_singleton| ->%elem_of_singleton]%elem_of_union; unfold overlap; simpl; try done; lia.
Qed.

(** Joining two buddies. *)
Lemma merge_inv st al fl i k p q : page_inv st al ({[(i, k); ((i + npg k)%nat, k)]} ∪ fl) ->
  {[(i, k); ((i + npg k)%nat, k)]} ## fl ->
  parr st !! i = Some p -> parr st !! (i + npg k)%nat = Some q ->
  (2 ^ Z.of_nat (S k) | p_addr p) -> p_addr q = p_addr p + 2 ^ Z.of_nat k ->
  page_inv (set_arr (<[i := set_idx (S k) p]> (<[(i + npg k)%nat := set_idx PAGE_SHIFT q]> (parr st))) st) al ({[(i, S k)]} ∪ fl).
Proof.
  intros HI Hnf Hp Hq Hal Haq. pose proof (npg_pos k) as Hpos.
  assert (Hb1 : block_ok (parr st) (i, k)) by (eapply pi_ok; [exact HI|set_solver]).
  assert (Hb2 : block_ok (parr st) ((i + npg k)%nat, k)) by (eapply pi_ok; [exact HI|set_solver]).
  destruct Hb1 as [Hcl Hin1 _ Hcon1], Hb2 as [_ Hin2 _ Hcon2]. simpl in *.
  pose proof (npg_S k ltac:(lia)) as HS. pose proof (npg_bytes (S k) ltac:(lia)) as HB.
  pose proof (pi_small _ _ _ HI) as Hsm.
  assert (HSk : (S k <= 30)%nat).
  { assert (2 ^ Z.of_nat (S k) < 2 ^ 31) as Hlt by (unfold SIZE_PAGE in *; lia). apply Z.pow_lt_mono_r_iff in Hlt; lia. }
  set (a' := <[i := set_idx (S k) p]> (<[(i + npg k)%nat := set_idx PAGE_SHIFT q]> (parr st))).
  assert (Haf : same_af (parr st) a').
  { unfold a'. apply same_af_insert; [apply same_af_insert; [apply same_af_refl|done]|].
    rewrite list_lookup_insert_ne by lia. done. }
  pose proof (Forall2_length _ _ _ Haf) as Hlen.
  assert (Hki : a' !! i = Some (set_idx (S k) p)).
  { unfold a'. rewrite list_lookup_insert_eq; [done|]. rewrite length_insert. by apply lookup_lt_Some in Hp. }
  eapply page_inv_reblock; [exact HI|done|done|..].
  - intros b Hb. unfold a'.
    assert (Hb' : queued (sizes st) b \/ b ∈ {[(i, k); ((i + npg k)%nat, k)]} ∪ fl \/ b ∈ al) by set_solver.
    assert (Hne : forall c, c ∈ ({[(i, k); ((i + npg k)%nat, k)]} : gset _) -> b.1 <> c.1).
    { intros c Hc He. assert (b = c) as ->.
      { eapply (pi_disj _ _ _ HI); [done|set_solver|]. unfold overlap. pose proof (npg_pos b.2). pose proof (npg_pos c.2). lia. }
      destruct Hb as [Hb|[Hb|Hb]]; [by apply (pi_held _ _ _ HI c); [set_solver|]|set_solver|].
      destruct (pi_ok _ _ _ HI c (or_intror (or_intror Hb))) as [_ _ (pc & Hpc & _) _].
      pose proof (pi_alloc _ _ _ HI _ Hb 0%nat pc (npg_pos _)) as H1.
      pose proof (pi_free _ _ _ HI c ltac:(set_solver) 0%nat pc (npg_pos _)) as H2.
      rewrite Nat.add_0_r in H1, H2. rewrite H1 in H2 by done. by apply H2 in Hpc. }
    pose proof (Hne (i, k) ltac:(set_solver)). pose proof (Hne ((i + npg k)%nat, k) ltac:(set_solver)). simpl in *.
    rewrite !list_lookup_insert_ne by lia. done.
  - intros b ->%elem_of_singleton. split; simpl; try lia.
    + eexists. split; [exact Hki|]. simpl. split; [apply u8_small; lia|done].
    + intros j p0 p1 Hj H0 H1. rewrite Hki in H0. simplify_eq. simpl.
      destruct (same_af_lookup _ _ _ _ Haf H1) as (p1' & Hp1 & <- & _).
      destruct (decide (j < npg k)%nat) as [Hlt|Hge]; [by apply (Hcon1 j p p1')|].
      assert (Hj' : p_addr p1' = p_addr q + SIZE_PAGE * (j - npg k)%nat).
      { apply Hcon2; [lia|done|]. by replace (i + npg k + (j - npg k))%nat with (i + j)%nat by lia. }
      rewrite Hj', Haq, <- (npg_bytes k) by lia. unfold SIZE_PAGE. lia.
  - intros b ->%elem_of_singleton j Hj. simpl in Hj. destruct (decide (j < i + npg k)%nat).
    + exists (i, k). split; [set_solver|simpl; lia].
    + exists ((i + npg k)%nat, k). split; [set_solver|simpl; lia].
  - intros c Hc j Hj. exists (i, S k). split; [set_solver|]. simpl.
    apply elem_of_union in Hc as [->%elem_of_singleton| ->%elem_of_singleton]; simpl in *; lia.
  - intros b b' ->%elem_of_singleton ->%elem_of_singleton _. done.
Qed.
