(* ===== verification/PageOps.v ===== *)
(** * The page allocator: correctness of its operations (src/vm/page.c)

    Allocation and release keep the invariant of [Page]; allocation returns an
    aligned, contiguous block of free memory large enough for the request, or
    NULL when no free block is large enough; release gives the block back and
    merges it with the buddies that [coalesce] describes.  Initialisation at boot
    ([boot]) establishes the invariant for arrays with contiguous free runs. *)

From S2P Require Import Prelude LibList LibText Page.

(** ** Marking *)
Lemma nfree_insert a i p p' : a !! i = Some p ->
  nfree (<[i := p']> a) = nfree a - (if is_free p then 1 else 0) + (if is_free p' then 1 else 0).
Proof.
  unfold nfree. revert i. induction a as [|x a IH]; intros [|i] Hi; simpl in Hi; [done|done| |].
  - simplify_eq. simpl. rewrite !filter_cons. destruct (is_free p), (is_free p'); simpl; lia.
  - simpl. rewrite !filter_cons. specialize (IH i Hi). destruct (is_free x); simpl; lia.
Qed.

Lemma nfree_bound a : 0 <= nfree a <= length a.
Proof. unfold nfree. pose proof (length_filter (fun p => is_free p = true) a). lia. Qed.

(** A relabelling of the pages [i .. i + n) by [f], all others kept. *)
Definition relabelled (a a' : list page_t) (i n : nat) (f : bool) : Prop :=
  length a' = length a /\
  forall j p', a' !! j = Some p' -> exists p, a !! j = Some p /\ p_addr p = p_addr p' /\ p_idx p = p_idx p' /\
    0 <= p_flags p' < 256 /\ if decide (i <= j < i + n)%nat then is_free p' = f else p_flags p = p_flags p'.

Definition counts_ok (st : pages_t) : Prop :=
  freesz st = SIZE_PAGE * nfree (parr st) /\ allocsz st = SIZE_PAGE * (length (parr st) - nfree (parr st)) /\
  SIZE_PAGE * length (parr st) < 2 ^ 31.

Lemma relabelled_step a a' i n f p p' :
  a !! i = Some p -> p_addr p' = p_addr p -> p_idx p' = p_idx p -> is_free p' = f ->
  (forall j q, a !! j = Some q -> 0 <= p_flags q < 256) -> 0 <= p_flags p' < 256 ->
  relabelled (<[i := p']> a) a' (S i) n f -> relabelled a a' i (S n) f.
Proof.
  intros Hp Ea Ei Ef Hfl Hfp [Hlen Hr]. rewrite length_insert in Hlen. split; [done|]. intros j q' Hj.
  destruct (Hr j q' Hj) as (q & Hq & Aq & Iq & Fq & Hif). destruct (decide (j = i)) as [->|Hne].
  - rewrite list_lookup_insert_eq in Hq by (by apply lookup_lt_Some in Hp). simplify_eq.
    exists p. split; [done|]. split; [congruence|]. split; [congruence|]. split; [done|].
    rewrite decide_True by lia. rewrite decide_False in Hif by lia. unfold is_free in *. by rewrite <- Hif.
  - rewrite list_lookup_insert_ne in Hq by done. exists q. do 4 (split; [done|]).
    destruct (decide (i <= j < i + S n)%nat), (decide (S i <= j < S i + n)%nat); try done; lia.
Qed.

Lemma relabelled_nil a i f : (forall j q, a !! j = Some q -> 0 <= p_flags q < 256) -> relabelled a a i 0 f.
Proof. intros Hfl. split; [done|]. intros j p Hj. exists p. rewrite decide_False by lia. naive_solver. Qed.

Lemma insert_flags_range (a : list page_t) i p : (forall j q, a !! j = Some q -> 0 <= p_flags q < 256) -> 0 <= p_flags p < 256 ->
  forall j q, <[i := p]> a !! j = Some q -> 0 <= p_flags q < 256.
Proof.
  intros Ha Hp j q Hj. destruct (decide (j = i)) as [->|Hne].
  - pose proof (lookup_lt_Some _ _ _ Hj) as Hl. rewrite length_insert in Hl. rewrite list_lookup_insert_eq in Hj by done. by simplify_eq.
  - rewrite list_lookup_insert_ne in Hj by done. by eapply Ha.
Qed.

Lemma flag_bit x : (Z.land x 1 <> 0) <-> Z.odd x = true.
Proof.
  change 1 with (Z.ones 1). rewrite Z.land_ones by lia. change (2 ^ 1) with 2. rewrite Zmod_odd. destruct (Z.odd x); split; intros; done || lia.
Qed.

Lemma is_free_alloc_flags p flags : 0 <= flags < 256 -> Z.land flags PAGE_FREE = 0 -> 0 <= p_flags p < 256 ->
  let p' := set_flags (Z.lor (Z.land (p_flags p) (Z.lnot PAGE_FREE)) flags) p in
  is_free p' = false /\ 0 <= p_flags p' < 256.
Proof.
  intros Hf Hb Hp p'. split; [|apply wrap_range; lia]. unfold p', is_free, set_flags, u8, wrap. cbn [p_flags].
  apply bool_decide_eq_false. intros H%flag_bit. rewrite <- Z.bit0_odd in H.
  rewrite Z.mod_pow2_bits_low, Z.lor_spec, Z.land_spec, Z.lnot_spec in H by lia.
  assert (Z.testbit flags 0 = false) as E.
  { apply (f_equal (fun v => Z.testbit v 0)) in Hb. rewrite Z.land_spec, Z.bits_0 in Hb. by rewrite andb_true_r in Hb. }
  rewrite E in H. simpl in H. rewrite andb_false_r in H. done.
Qed.

Lemma is_free_free_flags p : 0 <= p_flags p < 256 ->
  let p' := set_flags (Z.lor (p_flags p) PAGE_FREE) p in is_free p' = true /\ 0 <= p_flags p' < 256.
Proof.
  intros Hp p'. split; [|apply wrap_range; lia]. unfold p', is_free, set_flags, u8, wrap. cbn [p_flags].
  apply bool_decide_eq_true, flag_bit. rewrite <- Z.bit0_odd, Z.mod_pow2_bits_low, Z.lor_spec by lia. apply orb_true_r.
Qed.

Lemma mark_alloc_spec flags n : 0 <= flags < 256 -> Z.land flags PAGE_FREE = 0 -> forall st i,
  counts_ok st -> (forall j q, parr st !! j = Some q -> 0 <= p_flags q < 256) ->
  (forall j, (j < n)%nat -> exists p, parr st !! (i + j)%nat = Some p /\ is_free p = true) ->
  exists st', mark_alloc n st (Z.of_nat i) flags = Ok st' /\ sizes st' = sizes st /\ counts_ok st' /\
    relabelled (parr st) (parr st') i n false.
Proof.
  intros Hf Hb. induction n as [|n IH]; intros st i Hc Hfl Hr; cbn [mark_alloc].
  { exists st. split; [done|]. split; [done|]. split; [done|]. by apply relabelled_nil. }
  destruct (Hr 0%nat ltac:(lia)) as (p & Hp & Hfr). rewrite Nat.add_0_r in Hp.
  destruct (is_free_alloc_flags p flags Hf Hb (Hfl _ _ Hp)) as [Hnf Hrng]. cbv zeta in *.
  rewrite (set_pg_ok _ _ _ _ Hp). cbn [rbind sizes parr allocsz bootsz freesz set_arr].
  set (p' := set_flags _ p) in *. set (a1 := <[i := p']> (parr st)).
  destruct Hc as (Hc1 & Hc2 & Hc3).
  assert (Hn1 : nfree a1 = nfree (parr st) - 1) by (unfold a1; rewrite (nfree_insert _ _ _ p' Hp), Hfr, Hnf; simpl; lia).
  assert (Hl1 : length a1 = length (parr st)) by apply length_insert.
  pose proof (nfree_bound a1) as Hnb. pose proof (nfree_bound (parr st)) as Hnb0.
  replace (Z.of_nat i + 1) with (Z.of_nat (S i)) by lia.
  destruct (IH (Pages (sizes st) a1 (u32 (allocsz st + SIZE_PAGE)) (bootsz st) (u32 (freesz st - SIZE_PAGE))) (S i))
    as (st' & E & Hs & Hc' & Hrel); cbn [sizes parr allocsz bootsz freesz].
  - unfold counts_ok. cbn [parr allocsz freesz]. unfold SIZE_PAGE in *. rewrite !u32_small by lia. split_and!; lia.
  - by apply insert_flags_range.
  - intros j Hj. destruct (Hr (S j) ltac:(lia)) as (q & Hq & Hqf). replace (S i + j)%nat with (i + S j)%nat by lia.
    exists q. split; [|done]. unfold a1. rewrite list_lookup_insert_ne by lia. done.
  - exists st'. split; [exact E|]. split; [done|]. split; [done|]. by apply (relabelled_step _ _ _ _ _ p p').
Qed.

Lemma mark_free_spec n : forall st i,
  counts_ok st -> (forall j q, parr st !! j = Some q -> 0 <= p_flags q < 256) ->
  (forall j, (j < n)%nat -> exists p, parr st !! (i + j)%nat = Some p /\ is_free p = false) ->
  exists st', mark_free n st (Z.of_nat i) = Ok st' /\ sizes st' = sizes st /\ counts_ok st' /\
    relabelled (parr st) (parr st') i n true.
Proof.
  induction n as [|n IH]; intros st i Hc Hfl Hr; cbn [mark_free].
  { exists st. split; [done|]. split; [done|]. split; [done|]. by apply relabelled_nil. }
  destruct (Hr 0%nat ltac:(lia)) as (p & Hp & Hfr). rewrite Nat.add_0_r in Hp.
  destruct (is_free_free_flags p (Hfl _ _ Hp)) as [Hnf Hrng]. cbv zeta in *.
  rewrite (set_pg_ok _ _ _ _ Hp). cbn [rbind sizes parr allocsz bootsz freesz set_arr].
  set (p' := set_flags _ p) in *. set (a1 := <[i := p']> (parr st)).
  destruct Hc as (Hc1 & Hc2 & Hc3).
  assert (Hn1 : nfree a1 = nfree (parr st) + 1) by (unfold a1; rewrite (nfree_insert _ _ _ p' Hp), Hfr, Hnf; simpl; lia).
  assert (Hl1 : length a1 = length (parr st)) by apply length_insert.
  pose proof (nfree_bound a1) as Hnb. pose proof (nfree_bound (parr st)) as Hnb0.
  replace (Z.of_nat i + 1) with (Z.of_nat (S i)) by lia.
  destruct (IH (Pages (sizes st) a1 (u32 (allocsz st - SIZE_PAGE)) (bootsz st) (u32 (freesz st + SIZE_PAGE))) (S i))
    as (st' & E & Hs & Hc' & Hrel); cbn [sizes parr allocsz bootsz freesz].
  - unfold counts_ok. cbn [parr allocsz freesz]. unfold SIZE_PAGE in *. rewrite !u32_small by lia. split_and!; lia.
  - by apply insert_flags_range.
  - intros j Hj. destruct (Hr (S j) ltac:(lia)) as (q & Hq & Hqf). replace (S i + j)%nat with (i + S j)%nat by lia.
    exists q. split; [|done]. unfold a1. rewrite list_lookup_insert_ne by lia. done.
  - exists st'. split; [exact E|]. split; [done|]. split; [done|]. by apply (relabelled_step _ _ _ _ _ p p').
Qed.

(** The same descriptors but for their classes and for the flags of the pages of the
    block [c], which [f] changes. *)
Definition repainted (a a' : list page_t) (c : nat * nat) (f : Z -> Z) : Prop :=
  length a' = length a /\
  forall j p', a' !! j = Some p' -> exists p, a !! j = Some p /\ p_addr p' = p_addr p /\
    p_flags p' = if decide (c.1 <= j < c.1 + npg c.2)%nat then f (p_flags p) else p_flags p.

Definition flags_alloc (flags x : Z) : Z := u8 (Z.lor (Z.land x (Z.lnot PAGE_FREE)) flags).
Definition flags_free (x : Z) : Z := u8 (Z.lor x PAGE_FREE).

Lemma repainted_af a a1 a2 a3 c f : same_af a a1 -> repainted a1 a2 c f -> same_af a2 a3 -> repainted a a3 c f.
Proof.
  intros H1 [Hl H] H3. split; [by rewrite <- (Forall2_length _ _ _ H3), Hl, (Forall2_length _ _ _ H1)|].
  intros j p3 Hj. destruct (same_af_lookup _ _ _ _ H3 Hj) as (p2 & Hp2 & <- & <-). destruct (H _ _ Hp2) as (p1 & Hp1 & -> & ->).
  destruct (same_af_lookup _ _ _ _ H1 Hp1) as (p0 & Hp0 & E1 & E2). exists p0. by rewrite E1, E2.
Qed.

(** One page more at the front of those that are painted. *)
Lemma repaint_cons (a a' : list page_t) i n f p : a !! i = Some p ->
  (forall j, a' !! j = (if decide (S i <= j < S i + n)%nat then f else id) <$> <[i := f p]> a !! j) ->
  forall j, a' !! j = (if decide (i <= j < i + S n)%nat then f else id) <$> a !! j.
Proof.
  intros Hp H j. rewrite H. destruct (decide (j = i)) as [->|Hne].
  - rewrite list_lookup_insert_eq, Hp by (by eapply lookup_lt_Some). rewrite decide_False, decide_True by lia. done.
  - rewrite list_lookup_insert_ne by done. destruct (decide (S i <= j < S i + n)%nat), (decide (i <= j < i + S n)%nat); done || lia.
Qed.

Lemma repaint_nil (a : list page_t) i f j : a !! j = (if decide (i <= j < i + 0)%nat then f else id) <$> a !! j.
Proof. rewrite decide_False by lia. by rewrite option_fmap_id. Qed.

Lemma repaint (a a' : list page_t) c (f : Z -> Z) : (forall x, u8 (f x) = f x) ->
  (forall j, a' !! j = (if decide (c.1 <= j < c.1 + npg c.2)%nat then (fun p => set_flags (f (p_flags p)) p) else id) <$> a !! j) -> repainted a a' c f.
Proof.
  intros Hf H. split.
  - apply Nat.le_antisymm; apply Nat.nlt_ge; intros Hl.
    + destruct (lookup_lt_is_Some_2 _ _ Hl) as [x Hx]. rewrite H, (lookup_ge_None_2 a) in Hx by done. done.
    + destruct (lookup_lt_is_Some_2 _ _ Hl) as [x Hx]. assert (a' !! length a' = None) as E by (by apply lookup_ge_None_2). rewrite H, Hx in E. done.
  - intros j p' Hj. rewrite H in Hj. destruct (a !! j) as [p|]; [|done]. exists p. split; [done|].
    case_decide; injection Hj as <-; [|done]. split; [done|]. apply Hf.
Qed.

Lemma mark_alloc_paint flags n : forall st i st', mark_alloc n st (Z.of_nat i) flags = Ok st' ->
  forall j, parr st' !! j = (if decide (i <= j < i + n)%nat then (fun p => set_flags (Z.lor (Z.land (p_flags p) (Z.lnot PAGE_FREE)) flags) p) else id) <$> parr st !! j.
Proof.
  induction n as [|n IH]; intros st i st' E; cbn [mark_alloc] in E.
  - injection E as <-. intros j. apply repaint_nil.
  - apply rbind_inv in E as (s1 & E1 & E). apply set_pg_inv in E1 as (p & Hp & ->). replace (Z.of_nat i + 1) with (Z.of_nat (S i)) in E by lia.
    eapply repaint_cons; [exact Hp|]. apply (IH _ _ _ E).
Qed.

Lemma mark_free_paint n : forall st i st', mark_free n st (Z.of_nat i) = Ok st' ->
  forall j, parr st' !! j = (if decide (i <= j < i + n)%nat then (fun p => set_flags (Z.lor (p_flags p) PAGE_FREE) p) else id) <$> parr st !! j.
Proof.
  induction n as [|n IH]; intros st i st' E; cbn [mark_free] in E.
  - injection E as <-. intros j. apply repaint_nil.
  - apply rbind_inv in E as (s1 & E1 & E). apply set_pg_inv in E1 as (p & Hp & ->). replace (Z.of_nat i + 1) with (Z.of_nat (S i)) in E by lia.
    eapply repaint_cons; [exact Hp|]. apply (IH _ _ _ E).
Qed.

Lemma u8_u8 x : u8 (u8 x) = u8 x.
Proof. apply u8_small, wrap_range. lia. Qed.

Lemma mark_alloc_repainted flags c st st' : mark_alloc (npg c.2) st (Z.of_nat c.1) flags = Ok st' -> repainted (parr st) (parr st') c (flags_alloc flags).
Proof.
  intros E. apply repaint; [intros; apply u8_u8|]. intros j. rewrite (mark_alloc_paint _ _ _ _ _ E). case_decide; [|done].
  destruct (parr st !! j); [|done]. cbn [fmap option_fmap option_map]. unfold set_flags, flags_alloc. by rewrite u8_u8.
Qed.

Lemma mark_free_repainted c st st' : mark_free (npg c.2) st (Z.of_nat c.1) = Ok st' -> repainted (parr st) (parr st') c flags_free.
Proof.
  intros E. apply repaint; [intros; apply u8_u8|]. intros j. rewrite (mark_free_paint _ _ _ _ E). case_decide; [|done].
  destruct (parr st !! j); [|done]. cbn [fmap option_fmap option_map]. unfold set_flags, flags_free. by rewrite u8_u8.
Qed.

(** Moving one block between the allocated and the free ones. *)
Lemma page_inv_reflag st st' al fl al' fl' c f :
  page_inv st al fl -> sizes st' = sizes st -> counts_ok st' ->
  relabelled (parr st) (parr st') c.1 (npg c.2) f ->
  c ∈ al \/ c ∈ fl -> (forall b, b ∈ al' \/ b ∈ fl' -> b ∈ al \/ b ∈ fl) ->
  (forall b, b <> c -> (b ∈ al' -> b ∈ al) /\ (b ∈ fl' <-> b ∈ fl)) ->
  (c ∈ fl' <-> f = true) -> (c ∈ al' -> f = false) -> ~ queued (sizes st) c ->
  page_inv st' al' fl'.
Proof.
  intros [Hs Hsm Ha Hso Hok Hf Hal Hd Hn Hh Hc Hfs Has] Es (Hc1 & Hc2 & Hc3) [Hlen Hrel] Hcin Hback Hother Hcfl Hcal Hcq.
  assert (Hall : forall b, queued (sizes st) b \/ b ∈ fl' \/ b ∈ al' -> queued (sizes st) b \/ b ∈ fl \/ b ∈ al).
  { intros b [Hb|Hb]; [by left|]. right. specialize (Hback b). tauto. }
  assert (Hcall : queued (sizes st) c \/ c ∈ fl \/ c ∈ al) by tauto.
  (* a page of another block is not relabelled *)
  assert (Hout : forall b j, b <> c -> queued (sizes st) b \/ b ∈ fl \/ b ∈ al -> (j < npg b.2)%nat ->
                   ~ (c.1 <= b.1 + j < c.1 + npg c.2)%nat).
  { intros b j Hne Hb Hj Hr. apply Hne. apply Hd; [done|done|]. unfold overlap. lia. }
  assert (Hflg : forall b f', b <> c -> queued (sizes st) b \/ b ∈ fl \/ b ∈ al -> block_flags (parr st) f' b -> block_flags (parr st') f' b).
  { intros b f' Hne Hb Hbf j p' Hj Hp'. destruct (Hrel _ _ Hp') as (p & Hp & _ & _ & _ & Hif).
    rewrite decide_False in Hif by (by apply Hout). rewrite <- (is_free_flags _ _ Hif). by eapply Hbf. }
  assert (Hflc : block_flags (parr st') f c).
  { intros j p' Hj Hp'. destruct (Hrel _ _ Hp') as (p & Hp & _ & _ & _ & Hif). rewrite decide_True in Hif by lia. done. }
  split; rewrite ?Es; try done.
  - intros i p' Hi. destruct (Hrel _ _ Hi) as (p & Hp & Ea & _ & Hfl & _). rewrite <- Ea. by destruct (Ha _ _ Hp) as (? & ? & _).
  - intros i j p' q' Hi Hj. destruct (Hrel _ _ Hi) as (p & Hp & Ea & _). destruct (Hrel _ _ Hj) as (q & Hq & Eq & _).
    rewrite <- Ea, <- Eq. by eapply Hso.
  - intros b Hb. destruct (Hok b (Hall b Hb)) as [H1 H2 (p & Hp & Hi & Hdv) H4]. split; [done|by rewrite Hlen| |].
    + destruct (lookup_lt_is_Some_2 (parr st') b.1) as [p' Hp']; [rewrite Hlen; by apply lookup_lt_Some in Hp|].
      destruct (Hrel _ _ Hp') as (q & Hq & Ea & Ei & _). rewrite Hp in Hq. simplify_eq. exists p'. by rewrite <- Ea, <- Ei.
    + intros j p0 p1 Hj H0 H1'. destruct (Hrel _ _ H0) as (q0 & Hq0 & <- & _). destruct (Hrel _ _ H1') as (q1 & Hq1 & <- & _). by eapply H4.
  - intros b Hb. destruct (decide (b = c)) as [->|Hne].
    + assert (f = true) as -> by (apply Hcfl; tauto). done.
    + apply Hflg; [done|apply Hall; tauto|]. apply Hf. destruct (Hother b Hne) as [_ Hiff]. tauto.
  - intros b Hb. destruct (decide (b = c)) as [->|Hne].
    + rewrite (Hcal Hb) in Hflc. done.
    + apply Hflg; [done|apply Hall; tauto|]. apply Hal. by apply Hother.
  - intros b b' Hb Hb'. apply Hd; by apply Hall.
  - intros b Hb. destruct (decide (b = c)) as [->|Hne]; [done|]. apply Hh. by apply Hother.
  - intros j p' Hj Hfr. destruct (Hrel _ _ Hj) as (p & Hp & _ & _ & _ & Hif). case_decide as Hr.
    + exists c. split; [right; apply Hcfl; congruence|done].
    + rewrite <- (is_free_flags _ _ Hif) in Hfr. destruct (Hc j p Hp Hfr) as (b & Hb & Hrb). exists b. split; [|done].
      assert (b <> c) by (intros ->; done). destruct (Hother b) as [_ Hiff]; [done|]. tauto.
Qed.

Lemma page_inv_counts st al fl : page_inv st al fl -> counts_ok st /\ forall j q, parr st !! j = Some q -> 0 <= p_flags q < 256.
Proof.
  intros HI. split; [split_and!; [apply (pi_freesz _ _ _ HI)|apply (pi_allocsz _ _ _ HI)|apply (pi_small _ _ _ HI)]|].
  intros j q Hq. by destruct (pi_addr _ _ _ HI _ _ Hq) as (_ & _ & ?).
Qed.

Lemma mark_alloc_inv st al fl c flags : page_inv st al ({[c]} ∪ fl) -> c ∉ fl -> 0 <= flags < 256 -> Z.land flags PAGE_FREE = 0 ->
  exists st', mark_alloc (npg c.2) st (Z.of_nat c.1) flags = Ok st' /\ page_inv st' ({[c]} ∪ al) fl.
Proof.
  intros HI Hcf Hf Hb. destruct (page_inv_counts _ _ _ HI) as [Hcn Hfl].
  assert (Hblk : block_ok (parr st) c) by (eapply pi_ok; [exact HI|set_solver]).
  assert (Hbf : block_flags (parr st) true c) by (eapply pi_free; [exact HI|set_solver]).
  destruct (mark_alloc_spec flags (npg c.2) Hf Hb st c.1 Hcn Hfl) as (st' & E & Es & Hc' & Hrel).
  { intros j Hj. destruct (block_lookup _ _ _ Hblk Hj) as [p Hp]. exists p. split; [done|]. by eapply Hbf. }
  exists st'. split; [done|]. eapply (page_inv_reflag st); [exact HI|done|done|exact Hrel|..].
  - set_solver.
  - set_solver.
  - intros b Hne. set_solver.
  - set_solver.
  - done.
  - apply (pi_held _ _ _ HI). set_solver.
Qed.

Lemma mark_free_inv st al fl c : page_inv st ({[c]} ∪ al) fl -> c ∉ al ->
  exists st', mark_free (npg c.2) st (Z.of_nat c.1) = Ok st' /\ page_inv st' al ({[c]} ∪ fl) /\ sizes st' = sizes st.
Proof.
  intros HI Hca. destruct (page_inv_counts _ _ _ HI) as [Hcn Hfl].
  assert (Hblk : block_ok (parr st) c) by (eapply pi_ok; [exact HI|set_solver]).
  assert (Hbf : block_flags (parr st) false c) by (eapply pi_alloc; [exact HI|set_solver]).
  destruct (mark_free_spec (npg c.2) st c.1 Hcn Hfl) as (st' & E & Es & Hc' & Hrel).
  { intros j Hj. destruct (block_lookup _ _ _ Hblk Hj) as [p Hp]. exists p. split; [done|]. by eapply Hbf. }
  exists st'. split; [done|]. split; [|done]. eapply (page_inv_reflag st); [exact HI|done|done|exact Hrel|..].
  - set_solver.
  - set_solver.
  - intros b Hne. set_solver.
  - set_solver.
  - set_solver.
  - intros Hq. destruct (block_lookup _ _ 0%nat Hblk (npg_pos _)) as [p Hp].
    pose proof (pi_free _ _ _ HI c (or_introl Hq) 0%nat p (npg_pos _) Hp) as H1.
    pose proof (Hbf 0%nat p (npg_pos _) Hp) as H2. congruence.
Qed.

(** ** Allocation *)
Lemma pos_ctz_divide p : (2 ^ pos_ctz p | Zpos p) /\ 0 <= pos_ctz p.
Proof.
  induction p as [p IH|p IH|]; simpl; [split; [apply Z.divide_1_l|lia]| |split; [apply Z.divide_1_l|lia]].
  destruct IH as [[q Hq] H0]. split; [|lia]. rewrite Z.pow_add_r by lia. exists q. lia.
Qed.

(** The class of a request: the smallest block that is large enough. *)
Lemma size_class_spec size : 0 <= size < 2 ^ 32 ->
  12 <= size_class size <= 32 /\ size <= 2 ^ size_class size /\
  forall k, 12 <= k -> size <= 2 ^ k -> size_class size <= k.
Proof.
  intros Hs. unfold size_class. set (v := if decide (size < SIZE_PAGE) then SIZE_PAGE else size).
  assert (Hv : 2 ^ 12 <= v < 2 ^ 32 /\ size <= v /\ forall k, 12 <= k -> size <= 2 ^ k -> v <= 2 ^ k).
  { unfold v, SIZE_PAGE. case_decide; (split; [lia|]); (split; [lia|]); intros k Hk Hle; [|done].
    change 4096 with (2 ^ 12). apply Z.pow_le_mono_r; lia. }
  clearbody v. destruct Hv as (Hv & Hsv & Hmin). unfold lastbit.
  pose proof (Z.log2_spec v ltac:(lia)) as [Hl1 Hl2].
  assert (Hl : 12 <= Z.log2 v < 32) by (split; [apply Z.log2_le_pow2; lia|apply Z.log2_lt_pow2; lia]).
  case_decide as Hf.
  - split; [lia|]. split; [unfold Z.succ in Hl2; lia|]. intros k Hk Hle. specialize (Hmin k Hk Hle).
    destruct (Z_lt_le_dec (Z.log2 v) k) as [|Hge]; [lia|]. exfalso.
    assert (2 ^ k <= 2 ^ Z.log2 v) by (apply Z.pow_le_mono_r; lia).
    assert (Heq : v = 2 ^ Z.log2 v) by lia.
    rewrite Heq in Hf at 1. destruct v as [|p|p]; try lia.
    assert (Hfb : forall n, firstbit (2 ^ Z.of_nat n) = Z.of_nat n).
    { clear. induction n as [|n IH]; [done|]. replace (Z.of_nat (S n)) with (1 + Z.of_nat n) by lia. rewrite Z.pow_add_r by lia.
      change (2 ^ 1) with 2. destruct (2 ^ Z.of_nat n) as [|q|q] eqn:Eq; [lia| |lia].
      change (1 + pos_ctz q = 1 + Z.of_nat n). change (pos_ctz q = Z.of_nat n) in IH. lia. }
    rewrite <- (Z2Nat.id (Z.log2 (Zpos p))) in Hf by lia. rewrite Hfb in Hf. lia.
  - split; [lia|]. split.
    + destruct v as [|p|p]; try lia. change (firstbit (Zpos p)) with (pos_ctz p) in Hf. destruct (pos_ctz_divide p) as [Hd H0].
      assert (Hd' : (2 ^ Z.log2 (Zpos p) | Zpos p)).
      { eapply Z.divide_trans; [|exact Hd]. exists (2 ^ (pos_ctz p - Z.log2 (Zpos p))). rewrite <- Z.pow_add_r by lia. f_equal. lia. }
      destruct Hd' as [q Hq]. unfold Z.succ in Hl2. rewrite Z.pow_add_r in Hl2 by lia.
      change (2 ^ 1) with 2 in Hl2. set (P := 2 ^ Z.log2 (Zpos p)) in *. assert (q = 1) by nia. nia.
    + intros k Hk Hle. specialize (Hmin k Hk Hle). destruct (Z_lt_le_dec k (Z.log2 v)) as [Hlt|]; [|lia]. exfalso.
      assert (2 ^ k < 2 ^ Z.log2 v) by (apply Z.pow_lt_mono_r; lia). lia.
Qed.

Lemma find_segment_spec st n : length (sizes st) = SIZE_VM_SIZES -> forall start, 0 <= start <= 32 -> 32 - start <= Z.of_nat n ->
  exists stop : nat, find_segment n st start = Ok (Z.of_nat stop) /\ start <= Z.of_nat stop <= 32 /\
    (forall k q, start <= Z.of_nat k < Z.of_nat stop -> sizes st !! k = Some q -> q = []) /\
    ((stop < 32)%nat -> exists i q, sizes st !! stop = Some (i :: q)).
Proof.
  intros Hlen. induction n as [|n IH]; intros start Hs Hn; cbn [find_segment].
  - rewrite decide_False by (unfold SIZE_VM_SIZES; lia). exists (Z.to_nat start). split; [f_equal; lia|]. split; [lia|].
    split; [intros; lia|lia].
  - case_decide as Hlt; unfold SIZE_VM_SIZES in Hlt.
    + destruct (lookup_lt_is_Some_2 (sizes st) (Z.to_nat start)) as [q Hq]; [unfold SIZE_VM_SIZES in Hlen; lia|].
      assert (queue st start = Ok q) as -> by (rewrite <- (queue_lookup _ _ _ Hq); f_equal; lia). cbn [rbind].
      destruct q as [|i q].
      * destruct (IH (start + 1)) as (stop & E & Hr & He & Hne); [lia|lia|]. exists stop. split; [done|]. split; [lia|]. split; [|done].
        intros k q Hk Hkq. destruct (decide (k = Z.to_nat start)) as [->|Hne']; [rewrite Hq in Hkq; by simplify_eq|].
        eapply He; [|done]. lia.
      * exists (Z.to_nat start). split; [f_equal; lia|]. split; [lia|]. split; [intros; lia|]. intros _. eauto.
    + exists (Z.to_nat start). split; [f_equal; lia|]. split; [lia|]. split; [intros; lia|lia].
Qed.

Lemma split_step_inv st al i k : page_inv st al ∅ -> queued (sizes st) (i, S k) -> (12 <= k)%nat ->
  exists st', (let? st := size_remove st (Z.of_nat (S k)) i in
    let? p := pg st i in
    let? st := set_pg st i (set_idx (p_idx p - 1)) in
    let? p := pg st i in
    let rh := i + npages (p_idx p) in
    let? st := set_pg st rh (set_idx (p_idx p)) in
    let? st := size_add st (Z.of_nat k) i in
    size_add st (Z.of_nat k) rh) = Ok st' /\ page_inv st' al ∅ /\ queued (sizes st') (i, k).
Proof.
  intros HI Hq Hk. destruct (size_remove_inv _ _ _ _ _ HI Hq) as (s1 & -> & HI1 & _). cbn [rbind].
  assert (Hblk : block_ok (parr st) (i, S k)) by (eapply pi_ok; [exact HI|by left]).
  pose proof Hblk as [Hcl Hin (p & Hp & Hidx & _) _]. simpl in *.
  pose proof (npg_S k Hk) as HS. pose proof (npg_pos k) as Hpos.
  destruct (block_lookup _ _ (npg k) Hblk) as [q Hqq]; [simpl; lia|]. simpl in Hqq.
  rewrite (pg_ok (set_sizes s1 st) i p Hp). cbn [rbind]. rewrite (set_pg_ok (set_sizes s1 st) i p _ Hp). cbn [rbind].
  assert (Hil : (i < length (parr st))%nat) by (by apply lookup_lt_Some in Hp).
  replace (p_idx p - 1) with (Z.of_nat k) by lia.
  rewrite (pg_ok _ i (set_idx k p)) by (simpl; by rewrite list_lookup_insert_eq). cbn [rbind].
  change (p_idx (set_idx k p)) with (u8 k). rewrite u8_small by lia. rewrite npages_npg by lia.
  replace (Z.of_nat i + Z.of_nat (npg k)) with (Z.of_nat (i + npg k)) by lia.
  rewrite (set_pg_ok _ (i + npg k) q) by (simpl; rewrite list_lookup_insert_ne by lia; done). cbn [rbind parr set_arr sizes].
  pose proof (split_inv (set_sizes s1 st) al ∅ i k p q HI1 ltac:(set_solver) Hk Hp Hqq) as HI2.
  unfold halved in HI2. cbn [parr set_sizes] in HI2.
  change (set_arr ?a (set_arr ?b ?c)) with (set_arr a c).
  destruct (size_add_inv _ _ _ i k HI2) as (s3 & E3 & HI3 & Hq3); [set_solver|].
  cbn [parr set_sizes set_arr sizes allocsz bootsz freesz] in *. rewrite E3. cbn [rbind].
  destruct (size_add_inv _ _ _ (i + npg k)%nat k HI3) as (s4 & E4 & HI4 & Hq4).
  { rewrite elem_of_difference, elem_of_singleton. split; [set_solver|]. intros [= ?]. lia. }
  eexists. split; [exact E4|].
  assert (Hempty : ({[(i, k); ((i + npg k)%nat, k)]} ∪ ∅) ∖ {[(i, k)]} ∖ {[((i + npg k)%nat, k)]} = (∅ : gset (nat * nat))) by set_solver.
  rewrite Hempty in HI4. split; [exact HI4|]. apply Hq4. left. apply Hq3. by right.
Qed.

Lemma split_segment_spec al i n : forall st k start, page_inv st al ∅ -> queued (sizes st) (i, k) ->
  (12 <= start <= k)%nat -> (k - start <= n)%nat ->
  exists st', split_segment n st i k start = Ok (st', Z.of_nat start) /\ page_inv st' al ∅ /\ queued (sizes st') (i, start).
Proof.
  induction n as [|n IH]; intros st k start HI Hq Hs Hn; cbn [split_segment].
  - assert (k = start) as -> by lia. rewrite decide_False by lia. eauto.
  - case_decide as Hgt; [|assert (k = start) as -> by lia; by eauto].
    destruct k as [|k]; [lia|]. replace (Z.of_nat (S k) - 1) with (Z.of_nat k) by lia.
    destruct (split_step_inv st al i k HI Hq ltac:(lia)) as (st' & E & HI' & Hq').
    destruct (IH st' k start HI' Hq') as (st2 & E2 & HI2); [lia|lia|]. exists st2. split; [|done].
    rewrite <- E2. clear E2 IH.
    apply rbind_inv in E as (s1 & -> & E). cbn [rbind]. apply rbind_inv in E as (p1 & -> & E). cbn [rbind].
    apply rbind_inv in E as (s2 & -> & E). cbn [rbind]. apply rbind_inv in E as (p2 & -> & E). cbn [rbind].
    apply rbind_inv in E as (s3 & -> & E). cbn [rbind]. apply rbind_inv in E as (s4 & -> & E). cbn [rbind].
    by rewrite E.
Qed.

Lemma split_segment_af n : forall st lh stop start r, split_segment n st lh stop start = Ok r -> same_af (parr st) (parr r.1).
Proof.
  induction n as [|n IH]; intros st lh stop start r E; cbn [split_segment] in E; case_decide; try done; try (injection E as <-; apply same_af_refl).
  apply rbind_inv in E as (s1 & E1%size_remove_parr & E). apply rbind_inv in E as (p1 & _ & E). apply rbind_inv in E as (s2 & E2%set_idx_af & E).
  apply rbind_inv in E as (p2 & _ & E). cbv zeta in E. apply rbind_inv in E as (s3 & E3%set_idx_af & E).
  apply rbind_inv in E as (s4 & E4%size_add_parr & E). apply rbind_inv in E as (s5 & E5%size_add_parr & E). apply IH in E.
  rewrite E5, E4 in E. rewrite E1 in E2. by eapply same_af_trans, same_af_trans.
Qed.

Lemma page_alloc_spec st al size flags : page_inv st al ∅ -> 0 <= size < 2 ^ 32 -> 0 <= flags < 256 -> Z.land flags PAGE_FREE = 0 ->
  let k := Z.to_nat (size_class size) in
  (exists st' i, _page_alloc st size flags = Ok (st', Some (Z.of_nat i)) /\ page_inv st' ({[(i, k)]} ∪ al) ∅ /\ ~ (i, k) ∈ al /\
     block_flags (parr st) true (i, k) /\ repainted (parr st) (parr st') (i, k) (flags_alloc flags)) \/
  (_page_alloc st size flags = Ok (st, None) /\ forall b, queued (sizes st) b -> (b.2 < k)%nat).
Proof.
  intros HI Hs Hf Hb k. destruct (size_class_spec size Hs) as (Hc & _ & _).
  destruct (find_segment_spec st SIZE_VM_SIZES (pi_sizes _ _ _ HI) (size_class size)) as (stop & E & Hr & He & Hne); [lia|unfold SIZE_VM_SIZES; lia|].
  unfold _page_alloc. rewrite E. cbn [rbind]. case_decide as Hd.
  - right. split; [done|]. intros [i k'] (q & Hq & Hi). cbn [fst snd] in *. unfold SIZE_VM_SIZES in *.
    destruct (decide (k' < k)%nat) as [|Hge]; [done|]. exfalso.
    assert (q = []) as ->; [|by apply not_elem_of_nil in Hi]. eapply He; [|done]. apply lookup_lt_Some in Hq. pose proof (pi_sizes _ _ _ HI). unfold SIZE_VM_SIZES in *. lia.
  - left. unfold SIZE_VM_SIZES in Hd. destruct Hne as (i & q & Hq); [lia|]. rewrite (queue_lookup _ _ _ Hq). cbn [rbind head deref].
    replace (size_class size) with (Z.of_nat k) by lia.
    destruct (split_segment_spec al i SIZE_VM_SIZES st stop k HI) as (st1 & E1 & HI1 & Hq1); [exists (i :: q); split; [done|by left]|lia|unfold SIZE_VM_SIZES; lia|].
    rewrite E1. cbn [rbind]. destruct (size_remove_inv _ _ _ _ _ HI1 Hq1) as (s2 & -> & HI2 & _). cbn [rbind].
    assert (Hblk : block_ok (parr st1) (i, k)) by (eapply pi_ok; [exact HI1|by left]).
    destruct Hblk as [Hcl _ (p & Hp & Hidx & _) _]. cbn [fst snd] in *.
    rewrite (pg_ok (set_sizes s2 st1) i p Hp). cbn [rbind]. rewrite Hidx, npages_npg, Nat2Z.id by lia.
    destruct (mark_alloc_inv _ _ _ (i, k) flags HI2) as (st3 & E3 & HI3); [apply not_elem_of_empty|done|done|]. cbn [fst snd] in E3. rewrite E3. cbn [rbind].
    apply split_segment_af in E1. cbn [fst] in E1.
    exists st3, i. split; [done|]. split; [done|]. split; [|split].
    2: { eapply same_af_flags; [by apply same_af_sym|]. apply (pi_free _ _ _ HI1). by left. }
    2: { eapply repainted_af; [exact E1|by apply (mark_alloc_repainted flags (i, k) (set_sizes s2 st1))|apply same_af_refl]. }
    intros Hal. pose proof (pi_alloc _ _ _ HI1 _ Hal 0%nat p (npg_pos _)) as H1.
    pose proof (pi_free _ _ _ HI1 _ (or_introl Hq1) 0%nat p (npg_pos _)) as H2. cbn [fst snd] in *. rewrite Nat.add_0_r in *.
    rewrite H1 in H2 by done. by apply H2 in Hp.
Qed.

(** ** Release *)

(** A block at the left of its pair, and two blocks of class [k] side by side in
    memory, the left one at [l]. *)
Definition left_child (a : list page_t) (p k : nat) : Prop := exists d, a !! p = Some d /\ p_addr d mod 2 ^ Z.of_nat (S k) = 0.
Definition adjacent (a : list page_t) (l k : nat) : Prop :=
  exists dl dr, a !! l = Some dl /\ a !! (l + npg k)%nat = Some dr /\ p_addr dr = p_addr dl + 2 ^ Z.of_nat k.
Definition inside (b c : nat * nat) : Prop := (c.1 <= b.1)%nat /\ (b.1 + npg b.2 <= c.1 + npg c.2)%nat.

(** What merging does, on the free blocks [Q] there are: the released block joins
    its buddy, left or right; a block that has been merged ([first] is false) grows
    to the right only. *)
Inductive coalesce (a : list page_t) (Q : nat * nat -> Prop) : bool -> nat -> nat -> nat -> nat -> Prop :=
| co_right first p k p' k' : left_child a p k -> Q ((p + npg k)%nat, k) -> adjacent a p k ->
    coalesce a Q false p (S k) p' k' -> coalesce a Q first p k p' k'
| co_left l k p' k' : ~ left_child a (l + npg k) k -> Q (l, k) -> adjacent a l k ->
    coalesce a Q false l (S k) p' k' -> coalesce a Q true (l + npg k) k p' k'
| co_stop first p k : (left_child a p k -> Q ((p + npg k)%nat, k) -> ~ adjacent a p k) ->
    (~ left_child a p k -> first = true -> forall l, p = (l + npg k)%nat -> Q (l, k) -> ~ adjacent a l k) ->
    coalesce a Q first p k p k.

(** The two buddies the loop looks at.  After a merge the code moves only one of
    its two pointers, so the left-buddy case meets a stale right pointer. *)
Inductive buddies (a : list page_t) (p k : nat) : bool -> Z -> Z -> Prop :=
| Right first d : a !! p = Some d -> p_addr d mod 2 ^ Z.of_nat (S k) = 0 -> buddies a p k first p (Z.of_nat p + npg k)
| Left d : a !! p = Some d -> p_addr d mod 2 ^ Z.of_nat (S k) <> 0 -> buddies a p k true (Z.of_nat p - npg k) p
| Stale d rh r : a !! p = Some d -> p_addr d mod 2 ^ Z.of_nat (S k) <> 0 -> (p < rh)%nat -> a !! rh = Some r -> p_idx r = 12 ->
    buddies a p k false (Z.of_nat p - npg k) rh.

Lemma pick_buddy_spec st (p k : nat) lh rh d : parr st !! p = Some d -> (k <= 30)%nat -> (12 <= k)%nat -> 0 <= p_addr d ->
  pick_buddy st p lh rh k = Ok (if decide (p_addr d mod 2 ^ Z.of_nat (S k) = 0) then (lh, Z.of_nat p + npg k) else (Z.of_nat p - npg k, rh)).
Proof.
  intros Hd Hk Hk' Ha. unfold pick_buddy. rewrite (pg_ok _ _ _ Hd). cbn [rbind]. rewrite npages_npg by lia.
  rewrite Z.shiftl_mul_pow2, Z.mul_1_l by lia. replace (Z.of_nat k + 1) with (Z.of_nat (S k)) by lia.
  rewrite land_pow2_mod by lia. by case_decide as H1; case_decide as H2.
Qed.

Lemma total_pages st al fl : page_inv st al fl -> u32 (allocsz st + freesz st) / SIZE_PAGE = length (parr st).
Proof.
  intros HI. pose proof (pi_freesz _ _ _ HI). pose proof (pi_allocsz _ _ _ HI). pose proof (pi_small _ _ _ HI).
  unfold SIZE_PAGE in *. rewrite u32_small by lia. replace (allocsz st + freesz st) with (length (parr st) * 4096) by lia.
  by rewrite Z.div_mul.
Qed.

(** Addresses grow by at least a page per descriptor. *)
Lemma addr_gap st al fl i j p q : page_inv st al fl -> parr st !! i = Some p -> parr st !! j = Some q -> (i < j)%nat ->
  p_addr p + SIZE_PAGE <= p_addr q.
Proof.
  intros HI Hp Hq Hij. pose proof (pi_sorted _ _ _ HI _ _ _ _ Hp Hq Hij).
  destruct (pi_addr _ _ _ HI _ _ Hp) as (_ & [x Hx] & _). destruct (pi_addr _ _ _ HI _ _ Hq) as (_ & [y Hy] & _).
  unfold SIZE_PAGE in *. nia.
Qed.

(** A free page of the right class next to the block is a free block. *)
Lemma right_buddy_queued st al p k r : page_inv st al {[(p, k)]} -> parr st !! (p + npg k)%nat = Some r ->
  is_free r = true -> p_idx r = Z.of_nat k -> queued (sizes st) ((p + npg k)%nat, k).
Proof.
  intros HI Hr Hfr Hidx. destruct (pi_cover _ _ _ HI _ _ Hr Hfr) as ([i k'] & Hb & Hrg). simpl in Hrg.
  pose proof (npg_pos k) as Hpos. destruct (decide (i = p + npg k)%nat) as [->|Hne].
  - assert (Hk : k' = k).
    { destruct (pi_ok _ _ _ HI ((p + npg k)%nat, k')) as [_ _ (r' & Hr' & Hi' & _) _]; [tauto|]. simpl in *. rewrite Hr in Hr'. simplify_eq. lia. }
    subst k'. destruct Hb as [Hb|Hb]; [done|]. apply elem_of_singleton in Hb. injection Hb. lia.
  - exfalso. assert (Heq : (i, k') = (p, k)).
    { apply (pi_disj _ _ _ HI); [tauto|right; left; set_solver|]. unfold overlap. simpl. lia. }
    injection Heq as -> ->. lia.
Qed.

Lemma left_buddy_queued st al lh k d l : page_inv st al {[((lh + npg k)%nat, k)]} ->
  parr st !! (lh + npg k)%nat = Some d -> parr st !! lh = Some l -> is_free l = true -> p_idx l = Z.of_nat k ->
  p_addr d = p_addr l + 2 ^ Z.of_nat k -> ~ (2 ^ Z.of_nat (S k) | p_addr d) -> queued (sizes st) (lh, k).
Proof.
  intros HI Hd Hl Hfr Hidx Hadj Hodd. set (p := (lh + npg k)%nat) in *.
  assert (Hpb : block_ok (parr st) (p, k)) by (apply (pi_ok _ _ _ HI); right; left; set_solver).
  destruct Hpb as [Hcl _ (d' & Hd' & _ & Hald) _]. simpl in *. rewrite Hd in Hd'. injection Hd' as <-.
  destruct (pi_cover _ _ _ HI _ _ Hl Hfr) as ([i k'] & Hb & Hrg). simpl in Hrg.
  pose proof (npg_pos k) as Hpos. destruct (decide (i = lh)) as [->|Hne].
  - assert (Hk : k' = k).
    { destruct (pi_ok _ _ _ HI (lh, k')) as [_ _ (r' & Hr' & Hi' & _) _]; [tauto|]. simpl in *. rewrite Hl in Hr'. simplify_eq. lia. }
    subst k'. destruct Hb as [Hb|Hb]; [done|]. apply elem_of_singleton in Hb. injection Hb. unfold p. lia.
  - exfalso.
    assert (Hdis : ~ overlap (i, k') (p, k)).
    { intros Ho. assert (Heq : (i, k') = (p, k)) by (apply (pi_disj _ _ _ HI); [tauto|right; left; set_solver|done]).
      injection Heq as -> ->. unfold p in Hrg. lia. }
    destruct (pi_ok _ _ _ HI (i, k')) as [Hcl' Hin' (b0 & Hb0 & _ & Hal') Hcon']; [tauto|]. simpl in *.
    assert (Hlh : p_addr l = p_addr b0 + SIZE_PAGE * (lh - i)%nat).
    { apply Hcon'; [lia|done|]. by replace (i + (lh - i))%nat with lh by lia. }
    destruct Hald as [u Hu], Hal' as [v Hv]. pose proof (npg_bytes k' ltac:(lia)) as HB'. unfold SIZE_PAGE in *.
    destruct (decide (k' <= k)%nat) as [Hle|Hgt].
    + (* the block would be aligned at the buddy *)
      assert (Hpw : 2 ^ Z.of_nat k = 2 ^ Z.of_nat (k - k') * 2 ^ Z.of_nat k') by (rewrite <- Z.pow_add_r by lia; f_equal; lia).
      set (P := 2 ^ Z.of_nat k') in *. set (Q := 2 ^ Z.of_nat (k - k')) in *.
      assert (He : 4096 * (lh - i)%nat = P * (u * Q - Q - v)) by (rewrite Hpw in *; lia).
      assert (Hr : 0 < 4096 * (lh - i)%nat < P) by lia. rewrite He in Hr.
      revert Hr. generalize (u * Q - Q - v). clearbody P. clear. intros x Hr.
      assert (x <= 0 \/ 1 <= x) as [Hx|Hx] by lia; nia.
    + (* the block would contain [p] *)
      assert (Hsk : 2 ^ Z.of_nat (S k) = 2 * 2 ^ Z.of_nat k) by (replace (Z.of_nat (S k)) with (1 + Z.of_nat k) by lia; by rewrite Z.pow_add_r by lia).
      assert (Hpw : 2 ^ Z.of_nat k' = 2 ^ Z.of_nat (k' - S k) * (2 * 2 ^ Z.of_nat k)).
      { rewrite <- Hsk, <- Z.pow_add_r by lia. f_equal. lia. }
      assert (Hu1 : exists w, u = 2 * w + 1).
      { destruct (Z.Even_or_Odd u) as [[w Hw]|[w Hw]]; [|eauto]. exfalso. apply Hodd. exists w. rewrite Hu, Hw, Hsk. ring. }
      destruct Hu1 as [w Hw]. set (P := 2 ^ Z.of_nat k) in *. set (Q := 2 ^ Z.of_nat (k' - S k)) in *.
      assert (HP : 4096 * npg k = P) by (apply (npg_bytes k); lia).
      assert (0 < P /\ 0 < Q) as [HP0 HQ0] by (split; unfold P, Q; lia).
      assert (Hlw : p_addr l = 2 * P * w) by (subst u; lia).
      assert (Hbw : p_addr b0 = 2 * P * (v * Q)) by (rewrite Hv, Hpw; ring).
      rewrite Hpw in HB'.
      assert (Hrange : 0 <= 2 * P * (w - v * Q) < 2 * P * Q).
      { replace (2 * P * (w - v * Q)) with (p_addr l - p_addr b0) by (rewrite Hlw, Hbw; ring). lia. }
      assert (Hwq : 0 <= w - v * Q < Q) by (clear -Hrange HP0; nia).
      (* the page of the block at the address of [p] *)
      set (m := (lh - i + npg k)%nat).
      assert (Hm : (m < npg k')%nat).
      { unfold m. assert (4096 * (lh - i)%nat = 2 * P * (w - v * Q)) by lia.
        assert (2 * P * (w - v * Q) + P < 2 * P * Q) by (clear -Hwq HP0; nia). lia. }
      apply Hdis. unfold overlap. simpl. unfold p, m in *. lia.
Qed.

(** What a positive loop test means. *)
Record mergeable (st : pages_t) (p k l : nat) : Prop := {
  mg_l : exists dl dr, parr st !! l = Some dl /\ parr st !! (l + npg k)%nat = Some dr /\ p_idx dl = Z.of_nat k /\
           (2 ^ Z.of_nat (S k) | p_addr dl) /\ p_addr dr = p_addr dl + 2 ^ Z.of_nat k;
  mg_buddy : p = l /\ queued (sizes st) ((l + npg k)%nat, k) \/ p = (l + npg k)%nat /\ queued (sizes st) (l, k);
}.

Lemma adjacent_no_wrap x y k : 0 <= x -> x < y < 2 ^ 32 -> (k <= 30)%nat -> u32 (x + 2 ^ Z.of_nat k) = y -> y = x + 2 ^ Z.of_nat k.
Proof.
  intros Hx Hy Hk Hu. assert (2 ^ Z.of_nat k <= 2 ^ 30) by (apply Z.pow_le_mono_r; lia).
  destruct (decide (x + 2 ^ Z.of_nat k < 2 ^ 32)); [by rewrite u32_small in Hu by lia|].
  unfold u32, wrap in Hu. rewrite mod_once in Hu by lia. lia.
Qed.

Lemma is_free_and a b c d e : a && b && c && d && e = true -> a = true /\ b = true /\ c = true /\ d = true.
Proof. destruct a, b, c, d, e; done. Qed.

(** The test holds for two free blocks side by side. *)
Lemma merge_test st al fl l r k dl dr : page_inv st al fl -> parr st !! l = Some dl -> parr st !! r = Some dr ->
  queued (sizes st) (l, k) \/ (l, k) ∈ fl -> queued (sizes st) (r, k) \/ (r, k) ∈ fl -> p_addr dr = p_addr dl + 2 ^ Z.of_nat k ->
  is_free dl && is_free dr && bool_decide (p_idx dl = p_idx dr) && bool_decide (u32 (p_addr dl + Z.shiftl 1 (p_idx dl)) = p_addr dr) &&
  bool_decide (Z.of_nat k < SIZE_VM_SIZES) = true.
Proof.
  intros HI Hl Hr Hbl Hbr Ha.
  destruct (pi_ok _ _ _ HI (l, k) ltac:(tauto)) as [Hcl _ (d1 & H1 & I1 & _) _]. destruct (pi_ok _ _ _ HI (r, k) ltac:(tauto)) as [_ _ (d2 & H2 & I2 & _) _].
  cbn [fst snd] in *. rewrite Hl in H1. rewrite Hr in H2. injection H1 as <-. injection H2 as <-.
  assert (is_free dl = true) as -> by (eapply (pi_free _ _ _ HI (l, k) Hbl 0%nat); [apply npg_pos|cbn [fst]; by rewrite Nat.add_0_r]).
  assert (is_free dr = true) as -> by (eapply (pi_free _ _ _ HI (r, k) Hbr 0%nat); [apply npg_pos|cbn [fst]; by rewrite Nat.add_0_r]).
  destruct (pi_addr _ _ _ HI _ _ Hr) as [Hdr _]. destruct (pi_addr _ _ _ HI _ _ Hl) as [Hdl _].
  rewrite I1, I2, Z.shiftl_mul_pow2, Z.mul_1_l, <- Ha by lia. rewrite u32_small by lia. rewrite !bool_decide_eq_true_2 by (done || (unfold SIZE_VM_SIZES; lia)). done.
Qed.

Lemma can_merge_right st al (p k : nat) d : page_inv st al {[(p, k)]} -> parr st !! p = Some d -> p_addr d mod 2 ^ Z.of_nat (S k) = 0 ->
  exists m, can_merge st p (Z.of_nat p + npg k) k = Ok m /\ (m = true -> mergeable st p k p) /\
    (queued (sizes st) ((p + npg k)%nat, k) -> adjacent (parr st) p k -> m = true).
Proof.
  intros HI Hd Hdv.
  assert (Hpb : block_ok (parr st) (p, k)) by (apply (pi_ok _ _ _ HI); right; left; by apply elem_of_singleton).
  destruct Hpb as [Hcl Hin (d' & Hd' & Hidx & _) _]. cbn [fst snd] in *. rewrite Hd in Hd'. injection Hd' as <-.
  unfold can_merge. rewrite (total_pages _ _ _ HI), decide_True by lia.
  case_decide as Hr; [|eexists; split; [done|]; split; [done|]; intros _ (? & ? & _ & Hx%lookup_lt_Some & _); lia].
  destruct (lookup_lt_is_Some_2 (parr st) (p + npg k)) as [r Hr']; [lia|].
  rewrite (pg_ok _ _ _ Hd). cbn [rbind]. replace (Z.of_nat p + Z.of_nat (npg k)) with (Z.of_nat (p + npg k)) by lia.
  rewrite (pg_ok _ _ _ Hr'). cbn [rbind]. eexists. split; [done|]. split.
  2: { intros Hq (dl & dr & Hdl & Hdr & Hadj). eapply merge_test; [exact HI|exact Hd|exact Hr'|by right; apply elem_of_singleton|by left|congruence]. }
  intros (_ & Hfr & Hi & Ha)%is_free_and.
  apply bool_decide_eq_true in Hi, Ha. pose proof (npg_pos k) as Hpos.
  rewrite Hidx, Z.shiftl_mul_pow2, Z.mul_1_l in Ha by lia.
  pose proof (pi_sorted _ _ _ HI _ _ _ _ Hd Hr' ltac:(lia)) as Hs.
  destruct (pi_addr _ _ _ HI _ _ Hd) as [Had _]. destruct (pi_addr _ _ _ HI _ _ Hr') as [Har _].
  apply adjacent_no_wrap in Ha; [|lia|lia|lia]. split.
  - exists d, r. do 3 (split; [done|]). split; [|done]. apply Z.mod_divide; lia.
  - left. split; [done|]. eapply right_buddy_queued; [exact HI|done|done|]. by rewrite <- Hi.
Qed.

Lemma can_merge_left st al (p k : nat) d : page_inv st al {[(p, k)]} -> parr st !! p = Some d -> p_addr d mod 2 ^ Z.of_nat (S k) <> 0 ->
  exists m, can_merge st (Z.of_nat p - npg k) p k = Ok m /\ (m = true -> (npg k <= p)%nat /\ mergeable st p k (p - npg k)) /\
    (forall l, p = (l + npg k)%nat -> queued (sizes st) (l, k) -> adjacent (parr st) l k -> m = true).
Proof.
  intros HI Hd Hdv.
  assert (Hpb : block_ok (parr st) (p, k)) by (apply (pi_ok _ _ _ HI); right; left; by apply elem_of_singleton).
  destruct Hpb as [Hcl Hin (d' & Hd' & Hidx & Hald) _]. cbn [fst snd] in *. rewrite Hd in Hd'. injection Hd' as <-.
  pose proof (npg_pos k) as Hpos.
  unfold can_merge. rewrite (total_pages _ _ _ HI). case_decide as Hl; [|eexists; split; [done|]; split; [done|]; intros; lia].
  assert (Hlp : (p < length (parr st))%nat) by (by apply lookup_lt_Some in Hd). rewrite decide_True by lia.
  set (l := (p - npg k)%nat). assert (El : p = (l + npg k)%nat) by (unfold l; lia).
  replace (Z.of_nat p - Z.of_nat (npg k)) with (Z.of_nat l) by (unfold l; lia).
  destruct (lookup_lt_is_Some_2 (parr st) l) as [dl Hdl]; [lia|].
  rewrite (pg_ok _ _ _ Hdl). cbn [rbind]. rewrite (pg_ok _ _ _ Hd). cbn [rbind].
  eexists. split; [done|]. split.
  2: { intros l' El' Hq (x & y & Hx & Hy & Hadj). assert (l' = l) as -> by lia.
       eapply merge_test; [exact HI|exact Hdl|exact Hd|by left|by right; apply elem_of_singleton|congruence]. }
  intros (Hfr & _ & Hi & Ha)%is_free_and. split; [lia|].
  apply bool_decide_eq_true in Hi, Ha. rewrite Hi, Hidx, Z.shiftl_mul_pow2, Z.mul_1_l in Ha by lia.
  pose proof (pi_sorted _ _ _ HI _ _ _ _ Hdl Hd ltac:(lia)) as Hs.
  destruct (pi_addr _ _ _ HI _ _ Hdl) as [Hadl _]. destruct (pi_addr _ _ _ HI _ _ Hd) as [Had _].
  apply adjacent_no_wrap in Ha; [|lia|lia|lia].
  assert (Hodd : ~ (2 ^ Z.of_nat (S k) | p_addr d)) by (intros Hx; apply Hdv; apply Z.mod_divide; [lia|done]).
  clearbody l. subst p. split.
  - exists dl, d. do 3 (split; [congruence|]). split; [|done].
    assert (Hsk : 2 ^ Z.of_nat (S k) = 2 * 2 ^ Z.of_nat k) by (replace (Z.of_nat (S k)) with (1 + Z.of_nat k) by lia; by rewrite Z.pow_add_r by lia).
    destruct Hald as [u Hu]. destruct (Z.Even_or_Odd u) as [[w Hw]|[w Hw]].
    + exfalso. apply Hodd. exists w. rewrite Hu, Hw, Hsk. ring.
    + exists w. rewrite Hsk. subst u. lia.
  - right. split; [done|]. eapply left_buddy_queued; [exact HI|exact Hd|exact Hdl|done|congruence|done|done].
Qed.

Lemma can_merge_stale st al (p k rh : nat) r : page_inv st al {[(p, k)]} -> (p < rh)%nat -> parr st !! rh = Some r -> p_idx r = 12 ->
  can_merge st (Z.of_nat p - npg k) rh k = Ok false.
Proof.
  intros HI Hprh Hr Hidx. pose proof (npg_pos k) as Hpos.
  unfold can_merge. rewrite (total_pages _ _ _ HI). case_decide as Hl; [|done].
  assert (Hlr : (rh < length (parr st))%nat) by (by apply lookup_lt_Some in Hr). rewrite decide_True by lia.
  set (l := (p - npg k)%nat). replace (Z.of_nat p - Z.of_nat (npg k)) with (Z.of_nat l) by (unfold l; lia).
  destruct (lookup_lt_is_Some_2 (parr st) l) as [dl Hdl]; [unfold l; lia|].
  destruct (lookup_lt_is_Some_2 (parr st) p) as [d Hd]; [lia|].
  rewrite (pg_ok _ _ _ Hdl). cbn [rbind]. rewrite (pg_ok _ _ _ Hr). cbn [rbind]. f_equal.
  apply not_true_is_false. intros (_ & _ & Hi & Ha)%is_free_and. apply bool_decide_eq_true in Hi, Ha.
  rewrite Hi, Hidx in Ha. change (Z.shiftl 1 12) with SIZE_PAGE in Ha.
  pose proof (addr_gap _ _ _ _ _ _ _ HI Hdl Hd ltac:(unfold l; lia)) as H1.
  pose proof (addr_gap _ _ _ _ _ _ _ HI Hd Hr ltac:(lia)) as H2.
  destruct (pi_addr _ _ _ HI _ _ Hr) as [Har _]. destruct (pi_addr _ _ _ HI _ _ Hdl) as [Hadl _].
  unfold SIZE_PAGE in *. rewrite u32_small in Ha by lia. lia.
Qed.

(** The free blocks that are left are those outside of the merged one. *)
Lemma merged_queues st al (p k l : nat) b c : page_inv st al {[(p, k)]} -> (12 <= k)%nat -> queued (sizes st) c ->
  ({[c]} ∪ {[(p, k)]} : gset (nat * nat)) = {[(l, k); ((l + npg k)%nat, k)]} ->
  queued (sizes st) b /\ b <> c <-> queued (sizes st) b /\ ~ inside b (l, S k).
Proof.
  intros HI Hk Hc Heq. pose proof (npg_S k Hk) as HS. pose proof (npg_pos k) as Hpos.
  assert (inside c (l, S k)) as Hin.
  { assert (c ∈ ({[(l, k); ((l + npg k)%nat, k)]} : gset (nat * nat))) as [->%elem_of_singleton| ->%elem_of_singleton]%elem_of_union by (rewrite <- Heq; set_solver);
      unfold inside; cbn [fst snd]; lia. }
  split; intros [Hb Hx]; (split; [done|]); [|by intros ->].
  intros Hi. pose proof (npg_pos b.2) as Hpb.
  assert (exists d, d ∈ ({[c]} ∪ {[(p, k)]} : gset (nat * nat)) /\ overlap b d) as (d & Hd & Ho).
  { rewrite Heq. unfold inside in Hi. cbn [fst snd] in Hi. destruct (decide (b.1 < l + npg k)%nat).
    - exists (l, k). split; [set_solver|]. unfold overlap. cbn [fst snd]. lia.
    - exists ((l + npg k)%nat, k). split; [set_solver|]. unfold overlap. cbn [fst snd]. lia. }
  apply elem_of_union in Hd as [->%elem_of_singleton| ->%elem_of_singleton].
  - apply Hx. apply (pi_disj _ _ _ HI); [by left|by left|done].
  - assert (b = (p, k)) as -> by (apply (pi_disj _ _ _ HI); [by left|right; left; by apply elem_of_singleton|done]).
    by apply (pi_held _ _ _ HI (p, k)); [apply elem_of_singleton|].
Qed.

(** One merge: the buddy leaves its queue and the pair becomes one block. *)
Lemma merge_step st al (p k l : nat) : page_inv st al {[(p, k)]} -> mergeable st p k l ->
  exists st', (let? st := (if decide (Z.of_nat p = Z.of_nat l) then size_remove st k (Z.of_nat l + npg k) else size_remove st k l) in
    let? st := set_pg st (Z.of_nat l + npg k) (set_idx PAGE_SHIFT) in
    let? dl := pg st l in
    set_pg st l (set_idx (p_idx dl + 1))) = Ok st' /\ page_inv st' al {[(l, S k)]} /\ (k < 30)%nat /\
    (exists r, parr st' !! (l + npg k)%nat = Some r /\ p_idx r = 12) /\ same_af (parr st) (parr st') /\
    (forall b, queued (sizes st') b <-> queued (sizes st) b /\ ~ inside b (l, S k)).
Proof.
  intros HI HM. pose proof HM as [(dl & dr & Hdl & Hdr & Hidx & Hdv & Hadj) Hb]. pose proof (npg_pos k) as Hpos.
  replace (Z.of_nat l + Z.of_nat (npg k)) with (Z.of_nat (l + npg k)) by lia.
  set (c := if decide (p = l) then ((l + npg k)%nat, k) else (l, k)).
  assert (Hc : queued (sizes st) c /\ ({[c]} ∪ {[(p, k)]} : gset (nat * nat)) = {[(l, k); ((l + npg k)%nat, k)]}).
  { unfold c. destruct Hb as [[-> Hq]|[-> Hq]]; [rewrite decide_True by done|rewrite decide_False by lia]; split; set_solver. }
  destruct Hc as [Hq Heq]. destruct c as [ci ck] eqn:Ec.
  assert (ck = k) as -> by (unfold c in Ec; case_decide; congruence).
  destruct (size_remove_inv _ _ _ _ _ HI Hq) as (s1 & E1 & HI1 & Hqs). rewrite Heq in HI1.
  assert (E1' : (if decide (Z.of_nat p = Z.of_nat l) then size_remove st k (l + npg k)%nat else size_remove st k l) = Ok (set_sizes s1 st)).
  { unfold c in Ec. destruct (decide (p = l)) as [->|Hne]; injection Ec as <-; [rewrite decide_True by done|rewrite decide_False by lia]; done. }
  rewrite E1'. cbn [rbind]. rewrite (set_pg_ok (set_sizes s1 st) _ dr) by done. cbn [rbind].
  assert (Hll : (l < length (parr st))%nat) by (by apply lookup_lt_Some in Hdl).
  assert (Hrl : (l + npg k < length (parr st))%nat) by (by apply lookup_lt_Some in Hdr).
  rewrite (pg_ok _ l dl) by (cbn [parr set_arr set_sizes]; rewrite list_lookup_insert_ne by lia; done). cbn [rbind].
  rewrite (set_pg_ok _ l dl) by (cbn [parr set_arr set_sizes]; rewrite list_lookup_insert_ne by lia; done).
  cbn [parr set_arr set_sizes]. eexists. split; [done|].
  assert (HI2 : page_inv (set_sizes s1 st) al ({[(l, k); ((l + npg k)%nat, k)]} ∪ ∅)) by (by rewrite union_empty_r_L).
  pose proof (merge_inv _ al ∅ l k dl dr HI2 ltac:(apply disjoint_empty_r) Hdl Hdr Hdv Hadj) as HI3. rewrite union_empty_r_L in HI3.
  rewrite Hidx. replace (Z.of_nat k + 1) with (Z.of_nat (S k)) by lia. split; [exact HI3|]. split.
  - assert (Hpb : block_ok (parr (set_arr (<[l:=set_idx (S k) dl]> (<[(l + npg k)%nat:=set_idx PAGE_SHIFT dr]> (parr (set_sizes s1 st)))) (set_sizes s1 st))) (l, S k)).
    { apply (pi_ok _ _ _ HI3). right. left. by apply elem_of_singleton. }
    destruct Hpb as [Hcl _ _ _]. cbn [snd] in Hcl. lia.
  - split; [|split].
    + exists (set_idx PAGE_SHIFT dr). cbn [parr set_arr]. rewrite list_lookup_insert_ne by lia.
      by rewrite list_lookup_insert_eq by done.
    + cbn [parr set_arr]. apply same_af_insert; [apply same_af_insert; [apply same_af_refl|done]|]. by rewrite list_lookup_insert_ne by lia.
    + intros b. cbn [sizes set_arr set_sizes]. rewrite Hqs. destruct (pi_ok _ _ _ HI (p, k)) as [Hk _ _ _]; [right; left; by apply elem_of_singleton|]. apply (merged_queues st al p k l b (ci, k) HI); [cbn [snd] in Hk; lia|done|done].
Qed.

(** Addresses decide which block is at the left of its pair. *)
Lemma left_child_iff a a0 p k d : same_af a0 a -> a !! p = Some d -> left_child a0 p k <-> p_addr d mod 2 ^ Z.of_nat (S k) = 0.
Proof.
  intros Haf Hd. destruct (same_af_lookup _ _ _ _ Haf Hd) as (d0 & Hd0 & E & _). unfold left_child. rewrite <- E. split; [|by eauto].
  intros (x & Hx & ?). congruence.
Qed.
Lemma adjacent_af a a0 l k : same_af a0 a -> adjacent a0 l k -> adjacent a l k.
Proof.
  intros Haf (dl & dr & Hl & Hr & E). apply same_af_sym in Haf.
  destruct (same_af_lookup _ _ _ _ Haf Hl) as (xl & Hxl & El & _). destruct (same_af_lookup _ _ _ _ Haf Hr) as (xr & Hxr & Er & _).
  exists xl, xr. split_and!; [done|done|congruence].
Qed.
Lemma mergeable_adjacent st p k l : mergeable st p k l -> adjacent (parr st) l k.
Proof. intros [(dl & dr & Hl & Hr & _ & _ & E) _]. exists dl, dr. done. Qed.
Lemma buddy_outside p k l : (p = l \/ p = (l + npg k)%nat) -> ~ inside (l, k) (p, k) \/ p = l.
Proof. pose proof (npg_pos k). unfold inside. cbn [fst snd]. lia. Qed.

(** What the loop's test finds out. *)
Lemma test_ok st al p k first lh rh a0 (Q0 : nat * nat -> Prop) : page_inv st al {[(p, k)]} -> buddies (parr st) p k first lh rh -> same_af a0 (parr st) ->
  (forall b, queued (sizes st) b <-> Q0 b /\ ~ inside b (p, k)) ->
  exists m, can_merge st lh rh k = Ok m /\
    if m : bool then exists l : nat, lh = Z.of_nat l /\ rh = Z.of_nat l + npg k /\ mergeable st p k l /\
                (forall p' k', coalesce a0 Q0 false l (S k) p' k' -> coalesce a0 Q0 first p k p' k')
    else coalesce a0 Q0 first p k p k.
Proof.
  intros HI Hb Haf HQ. pose proof (npg_pos k) as Hpos. pose proof (same_af_sym _ _ Haf) as Haf'.
  assert (forall l, (l = p + npg k \/ p = l + npg k)%nat -> Q0 (l, k) -> queued (sizes st) (l, k)) as HQ'.
  { intros l Hl Hq. apply HQ. split; [done|]. unfold inside. cbn [fst snd]. lia. }
  destruct Hb as [first d Hd Hdv|d Hd Hdv|d rh r Hd Hdv Hlt Hr Hi]; pose proof (left_child_iff _ _ _ k _ Haf Hd) as Hlc.
  - destruct (can_merge_right _ _ _ _ _ HI Hd Hdv) as (m & E & Hm & Hc). exists m. split; [done|]. destruct m.
    + specialize (Hm eq_refl). exists p. do 3 (split; [done|]). intros p' k' Hco.
      apply co_right; [by apply Hlc| |eapply adjacent_af; [exact Haf'|by eapply mergeable_adjacent]|done].
      destruct Hm as [_ [[_ Hq]|[Hp _]]]; [by apply HQ in Hq as [? _]|lia].
    + apply co_stop; [|intros Hn; by destruct Hn; apply Hlc]. intros _ Hq Hadj.
      assert (false = true); [|done]. apply Hc; [apply HQ'; [by left|done]|by eapply adjacent_af].
  - destruct (can_merge_left _ _ _ _ _ HI Hd Hdv) as (m & E & Hm & Hc). exists m. split; [done|]. destruct m.
    + destruct (Hm eq_refl) as [Hle HM]. exists (p - npg k)%nat. split; [lia|]. split; [lia|]. split; [done|]. intros p' k' Hco.
      destruct HM as [HM1 [[Hp _]|[Hp Hq]]]; [lia|]. rewrite Hp.
      apply co_left; [rewrite <- Hp; by rewrite Hlc|by apply HQ in Hq as [? _]| |done].
      eapply adjacent_af; [exact Haf'|]. destruct HM1 as (dl & dr & Hl & Hr & _ & _ & Ea). exists dl, dr. done.
    + apply co_stop; [intros Hl; by apply Hlc in Hl|]. intros _ _ l Hp Hq Hadj.
      assert (false = true); [|done]. apply (Hc l Hp); [apply HQ'; [by right|done]|by eapply adjacent_af].
  - exists false. split; [by eapply can_merge_stale|]. apply co_stop; [intros Hl; by apply Hlc in Hl|done].
Qed.

Lemma inside_merged p k l b : (12 <= k)%nat -> (p = l \/ p = l + npg k)%nat -> inside b (p, k) -> inside b (l, S k).
Proof. intros Hk Hp [H1 H2]. pose proof (npg_S k Hk). unfold inside in *. cbn [fst snd] in *. destruct Hp; lia. Qed.

Lemma free_alloc_disjoint st al fl b c : page_inv st al fl -> queued (sizes st) b \/ b ∈ fl -> c ∈ al -> ~ overlap b c.
Proof.
  intros HI Hb Hc Ho. assert (b = c) as -> by (apply (pi_disj _ _ _ HI); tauto).
  destruct (pi_ok _ _ _ HI c ltac:(tauto)) as [_ _ (d & Hd & _) _].
  pose proof (pi_free _ _ _ HI c Hb 0%nat d (npg_pos _)) as H1. pose proof (pi_alloc _ _ _ HI c Hc 0%nat d (npg_pos _)) as H2.
  rewrite Nat.add_0_r in H1, H2. rewrite (H1 Hd) in H2. by specialize (H2 Hd).
Qed.

(** Only addresses matter to what is merged. *)
Definition same_addr (a a' : list page_t) : Prop :=
  length a' = length a /\ forall j p', a' !! j = Some p' -> exists p, a !! j = Some p /\ p_addr p' = p_addr p.
Lemma same_addr_lookup a a' j p : same_addr a a' -> a !! j = Some p -> exists p', a' !! j = Some p' /\ p_addr p' = p_addr p.
Proof.
  intros [Hl H] Hj. destruct (lookup_lt_is_Some_2 a' j) as [p' Hp']; [rewrite Hl; by eapply lookup_lt_Some|].
  destruct (H _ _ Hp') as (x & Hx & E). rewrite Hj in Hx. injection Hx as <-. eauto.
Qed.
Lemma left_child_addr a a' p k : same_addr a a' -> left_child a p k <-> left_child a' p k.
Proof.
  intros H. unfold left_child. split; intros (d & Hd & E).
  - destruct (same_addr_lookup _ _ _ _ H Hd) as (d' & Hd' & Ea). exists d'. by rewrite Ea.
  - destruct (proj2 H _ _ Hd) as (d' & Hd' & Ea). exists d'. by rewrite <- Ea.
Qed.
Lemma adjacent_addr a a' l k : same_addr a a' -> adjacent a l k <-> adjacent a' l k.
Proof.
  intros H. unfold adjacent. split; intros (d1 & d2 & H1 & H2 & E).
  - destruct (same_addr_lookup _ _ _ _ H H1) as (x1 & ? & E1). destruct (same_addr_lookup _ _ _ _ H H2) as (x2 & ? & E2). exists x1, x2. by rewrite E1, E2.
  - destruct (proj2 H _ _ H1) as (x1 & ? & E1). destruct (proj2 H _ _ H2) as (x2 & ? & E2). exists x1, x2. by rewrite <- E1, <- E2.
Qed.
Lemma coalesce_addr a a' Q first p k p' k' : same_addr a a' -> coalesce a' Q first p k p' k' -> coalesce a Q first p k p' k'.
Proof.
  intros H. induction 1 as [first p k p' k' Hl Hq Ha _ IH|l k p' k' Hl Hq Ha _ IH|first p k H1 H2].
  - apply co_right; [by eapply left_child_addr|done|by eapply adjacent_addr|done].
  - apply co_left; [by rewrite left_child_addr|done|by eapply adjacent_addr|done].
  - apply co_stop; [intros Hl Hq Ha; apply H1; [by rewrite <- left_child_addr|done|by rewrite <- adjacent_addr]|].
    intros Hl Hf l -> Hq Ha. apply (H2 ltac:(by rewrite <- left_child_addr) Hf l); [done|done|by rewrite <- adjacent_addr].
Qed.

Lemma merge_loop_spec al a0 (Q0 : nat * nat -> Prop) n : forall st (p k : nat) first lh rh, page_inv st al {[(p, k)]} -> buddies (parr st) p k first lh rh -> (30 - k < n)%nat ->
  same_af a0 (parr st) -> (forall b, queued (sizes st) b <-> Q0 b /\ ~ inside b (p, k)) ->
  exists st' p' k', merge_loop n st p lh rh k = Ok (st', Z.of_nat p', Z.of_nat k') /\ page_inv st' al {[(p', k')]} /\
    same_af a0 (parr st') /\ coalesce a0 Q0 first p k p' k' /\ (forall b, queued (sizes st') b <-> Q0 b /\ ~ inside b (p', k')).
Proof.
  induction n as [|n IH]; intros st p k first lh rh HI Hb Hn Haf HQ; [lia|]. cbn [merge_loop].
  destruct (test_ok _ _ _ _ _ _ _ _ _ HI Hb Haf HQ) as (m & -> & Hm). cbn [rbind].
  destruct m; [|by exists st, p, k]. destruct Hm as (l & -> & -> & HM & Hco).
  destruct (merge_step _ _ _ _ _ HI HM) as (st1 & E1 & HI1 & Hk & (r & Hr & Hri) & Haf1 & Hq1).
  apply rbind_inv in E1 as (s1 & -> & E1). cbn [rbind]. apply rbind_inv in E1 as (s2 & -> & E1). cbn [rbind].
  apply rbind_inv in E1 as (dl & -> & E1). cbn [rbind]. rewrite E1. cbn [rbind].
  assert (Hpb : block_ok (parr st1) (l, S k)) by (apply (pi_ok _ _ _ HI1); right; left; by apply elem_of_singleton).
  assert (Hp0 : block_ok (parr st) (p, k)) by (apply (pi_ok _ _ _ HI); right; left; by apply elem_of_singleton).
  destruct Hpb as [Hcl _ (d & Hd & _) _], Hp0 as [Hk0 _ _ _]. cbn [fst snd] in *.
  replace (Z.of_nat k + 1) with (Z.of_nat (S k)) by lia.
  destruct (pi_addr _ _ _ HI1 _ _ Hd) as [Had _].
  rewrite (pick_buddy_spec _ _ _ _ _ d) by (done || lia). cbn [rbind]. pose proof (npg_pos k).
  assert (forall b, queued (sizes st1) b <-> Q0 b /\ ~ inside b (l, S k)) as HQ1.
  { intros b. rewrite Hq1, HQ. destruct HM as [_ HM]. pose proof (inside_merged p k l b ltac:(lia) ltac:(tauto)). tauto. }
  assert (exists lh rh, (if decide (p_addr d mod 2 ^ Z.of_nat (S (S k)) = 0) then (Z.of_nat l, Z.of_nat l + Z.of_nat (npg (S k)))
             else (Z.of_nat l - Z.of_nat (npg (S k)), Z.of_nat l + Z.of_nat (npg k))) = (lh, rh) /\ buddies (parr st1) l (S k) false lh rh) as (lh & rh & -> & Hb1).
  { case_decide; eexists _, _; (split; [done|]); [by eapply Right|]. replace (Z.of_nat l + Z.of_nat (npg k)) with (Z.of_nat (l + npg k)) by lia.
    eapply Stale; [done|done|lia|exact Hr|done]. }
  cbn [rbind]. destruct (IH st1 l (S k) false lh rh HI1 Hb1) as (st' & p' & k' & E & HI' & Haf' & Hco' & HQ'); [lia|by eapply same_af_trans|done|].
  exists st', p', k'. split_and!; [done|done|done|by apply Hco|done].
Qed.

Lemma page_free_spec st al p k : page_inv st ({[(p, k)]} ∪ al) ∅ -> (p, k) ∉ al ->
  exists st' p' k', _page_free st (Z.of_nat p) = Ok st' /\ page_inv st' al ∅ /\ repainted (parr st) (parr st') (p, k) flags_free /\
    coalesce (parr st) (queued (sizes st)) true p k p' k' /\
    (forall b, queued (sizes st') b <-> b = (p', k') \/ queued (sizes st) b /\ ~ inside b (p', k')).
Proof.
  intros HI Hn.
  assert (Hin : (p, k) ∈ ({[(p, k)]} ∪ al : gset (nat * nat))) by (apply elem_of_union_l; by apply elem_of_singleton).
  destruct (pi_ok _ _ _ HI (p, k)) as [Hcl _ (d & Hd & Hidx & _) _]; [tauto|]. cbn [fst snd] in *.
  assert (Hfr : is_free d = false).
  { eapply (pi_alloc _ _ _ HI (p, k) Hin 0%nat); [apply npg_pos|]. cbn [fst]. by rewrite Nat.add_0_r. }
  unfold _page_free. rewrite (pg_ok _ _ _ Hd). cbn [rbind]. rewrite Hfr, Hidx, npages_npg, Nat2Z.id by lia.
  destruct (mark_free_inv st al ∅ (p, k) HI Hn) as (st1 & E1 & HI1 & Hs1). cbn [fst snd] in E1. rewrite E1. cbn [rbind].
  rewrite union_empty_r_L in HI1. pose proof (mark_free_repainted (p, k) _ _ E1) as Hrp.
  assert (Hpb : block_ok (parr st1) (p, k)) by (apply (pi_ok _ _ _ HI1); right; left; by apply elem_of_singleton).
  destruct Hpb as [_ _ (d1 & Hd1 & _) _]. cbn [fst] in Hd1. destruct (pi_addr _ _ _ HI1 _ _ Hd1) as [Had _].
  rewrite (pick_buddy_spec _ _ _ _ _ d1) by (done || lia). cbn [rbind].
  assert (Hb : exists lh rh, (if decide (p_addr d1 mod 2 ^ Z.of_nat (S k) = 0) then (Z.of_nat p, Z.of_nat p + Z.of_nat (npg k))
                 else (Z.of_nat p - Z.of_nat (npg k), Z.of_nat p)) = (lh, rh) /\ buddies (parr st1) p k true lh rh).
  { case_decide; eexists _, _; (split; [done|]); [by eapply Right|by eapply Left]. }
  destruct Hb as (lh & rh & -> & Hb). cbn [rbind].
  destruct (merge_loop_spec al (parr st1) (queued (sizes st)) (S SIZE_VM_SIZES) st1 p k true lh rh HI1 Hb) as (st2 & p2 & k2 & -> & HI2 & Haf2 & Hco & HQ);
    [unfold SIZE_VM_SIZES; lia|apply same_af_refl| |].
  { intros b. rewrite Hs1. split; [|by intros [? _]]. intros Hq. split; [done|]. intros Hi. eapply (free_alloc_disjoint _ _ _ b (p, k) HI); [by left|done|].
    unfold overlap, inside in *. cbn [fst snd] in *. pose proof (npg_pos b.2). lia. }
  cbn [rbind]. destruct (size_add_inv _ _ _ p2 k2 HI2) as (s3 & E3 & HI3 & Hq3); [by apply elem_of_singleton|].
  rewrite E3. eexists _, p2, k2. split; [done|]. rewrite difference_diag_L in HI3. split_and!.
  - done.
  - eapply repainted_af; [apply same_af_refl|exact Hrp|exact Haf2].
  - eapply coalesce_addr; [|exact Hco]. destruct Hrp as [Hl Hrp]. split; [done|]. intros j q' Hq'. destruct (Hrp _ _ Hq') as (q & Hq & Ea & _). eauto.
  - intros b. rewrite Hq3, HQ. tauto.
Qed.

(** ** Initialisation *)

(** Neighbours that are both free are contiguous. *)
Definition free_runs (a : list page_t) : Prop :=
  forall j p q, a !! j = Some p -> a !! S j = Some q -> is_free p = true -> is_free q = true -> p_addr q = p_addr p + SIZE_PAGE.

(** The invariant while the pages below [i] are queued. *)
Record init_inv (st : pages_t) (i : nat) : Prop := {
  ii_sizes : length (sizes st) = SIZE_VM_SIZES;
  ii_small : SIZE_PAGE * length (parr st) < 2 ^ 31;
  ii_addr : forall j p, parr st !! j = Some p -> 0 <= p_addr p < 2 ^ 32 /\ (SIZE_PAGE | p_addr p) /\ 0 <= p_flags p < 256 /\
    (is_free p = true -> 0 < p_addr p);
  ii_sorted : forall i j p q, parr st !! i = Some p -> parr st !! j = Some q -> (i < j)%nat -> p_addr p < p_addr q;
  ii_run : free_runs (parr st);
  ii_last : forall p, parr st !! (length (parr st) - 1)%nat = Some p -> is_free p = false;
  ii_ok : forall b, queued (sizes st) b -> block_ok (parr st) b /\ (b.1 + npg b.2 <= i)%nat;
  ii_free : forall b, queued (sizes st) b -> block_flags (parr st) true b;
  ii_disj : forall b b', queued (sizes st) b -> queued (sizes st) b' -> overlap b b' -> b = b';
  ii_nodup : forall k q, sizes st !! k = Some q -> NoDup q;
  ii_cover : forall j p, (j < i)%nat -> parr st !! j = Some p -> is_free p = true ->
    exists b, queued (sizes st) b /\ (b.1 <= j < b.1 + npg b.2)%nat;
  ii_freesz : freesz st = SIZE_PAGE * nfree (parr st);
  ii_allocsz : allocsz st = SIZE_PAGE * (length (parr st) - nfree (parr st));
}.

Lemma contig_addr (a : list page_t) i p n : free_runs a -> (forall j, (j < n)%nat -> exists q, a !! (i + j)%nat = Some q /\ is_free q = true) ->
  a !! i = Some p -> forall j q, (j < n)%nat -> a !! (i + j)%nat = Some q -> p_addr q = p_addr p + SIZE_PAGE * j.
Proof.
  intros Hc Hrun Hp. induction j as [|j IH]; intros q Hj Hq.
  - rewrite Nat.add_0_r, Hp in Hq. injection Hq as <-. lia.
  - destruct (Hrun j ltac:(lia)) as (q' & Hq' & Hf'). destruct (Hrun (S j) Hj) as (q2 & Hq2 & Hf). rewrite Hq in Hq2. injection Hq2 as <-.
    rewrite (Hc (i + j)%nat q' q Hq'), (IH q' ltac:(lia) Hq') by (done || by rewrite <- Hq; f_equal; lia). unfold SIZE_PAGE. lia.
Qed.

Lemma run_length_spec st i lim : init_inv st i -> forall fuel (k : nat),
  (forall j, (j <= k)%nat -> exists p, parr st !! (i + j)%nat = Some p /\ is_free p = true) ->
  (length (parr st) < i + k + fuel)%nat -> Z.of_nat k <= Z.max 0 lim ->
  exists k' : nat, run_length fuel st i k lim = Ok (Z.of_nat k') /\ Z.of_nat k' <= Z.max 0 lim /\
    forall j, (j <= k')%nat -> exists p, parr st !! (i + j)%nat = Some p /\ is_free p = true.
Proof.
  intros HI. induction fuel as [|fuel IH]; intros k Hk Hf Hlim.
  { destruct (Hk k ltac:(lia)) as (p & Hp & _). apply lookup_lt_Some in Hp. lia. }
  cbn [run_length]. case_decide as Hc; [|eauto].
  destruct (Hk k ltac:(lia)) as (p & Hp & Hfr). pose proof (lookup_lt_Some _ _ _ Hp) as Hlt.
  assert (Hin : (i + S k < length (parr st))%nat).
  { destruct (decide (i + k = length (parr st) - 1)%nat) as [He|]; [|lia]. exfalso.
    rewrite He in Hp. rewrite (ii_last _ _ HI p Hp) in Hfr. done. }
  destruct (lookup_lt_is_Some_2 (parr st) (i + S k)) as [q Hq]; [done|].
  replace (Z.of_nat i + 1 + Z.of_nat k) with (Z.of_nat (i + S k)) by lia. rewrite (pg_ok _ _ _ Hq). cbn [rbind].
  destruct (is_free q) eqn:Hqf; [|eauto].
  replace (Z.of_nat k + 1) with (Z.of_nat (S k)) by lia. apply IH; [|lia|lia].
  intros j Hj. destruct (decide (j = S k)) as [->|]; [eauto|]. apply Hk. lia.
Qed.

Lemma firstbit_divide v : 0 < v -> (2 ^ firstbit v | v) /\ 0 <= firstbit v.
Proof. intros Hv. destruct v as [|p|p]; [lia| |lia]. apply pos_ctz_divide. Qed.

Lemma firstbit_ge v k : 0 < v -> 0 <= k -> (2 ^ k | v) -> k <= firstbit v.
Proof.
  intros Hv Hk. destruct v as [|p|p]; [lia| |lia]. change (firstbit (Zpos p)) with (pos_ctz p). clear Hv. revert k Hk.
  induction p as [p IH|p IH|]; intros k Hk Hd; simpl.
  - destruct (decide (k = 0)) as [->|Hne]; [lia|]. exfalso. destruct Hd as [q Hq].
    replace k with (1 + (k - 1)) in Hq by lia. rewrite Z.pow_add_r in Hq by lia. lia.
  - destruct (decide (k = 0)) as [->|Hne]; [pose proof (pos_ctz_divide p); lia|].
    assert (k - 1 <= pos_ctz p); [|lia]. apply IH; [lia|]. destruct Hd as [q Hq]. exists q.
    replace k with (1 + (k - 1)) in Hq by lia. rewrite Z.pow_add_r in Hq by lia. lia.
  - destruct (decide (k = 0)) as [->|Hne]; [lia|]. exfalso. destruct Hd as [q Hq].
    replace k with (1 + (k - 1)) in Hq by lia. rewrite Z.pow_add_r in Hq by lia. lia.
Qed.

(** The class of a run of free pages keeps it inside the run and aligned. *)
Lemma run_class addr k (n : nat) : 0 < addr < 2 ^ 32 -> (SIZE_PAGE | addr) -> SIZE_PAGE * n < 2 ^ 31 -> (S k <= n)%nat ->
  let idx0 := firstbit addr in
  let idx := if decide (idx0 >= SIZE_VM_SIZES) then SIZE_VM_SIZES - 1 else idx0 in
  Z.of_nat k <= Z.max 0 (u32 (npages idx - 1)) ->
  exists c : nat, lastbit ((1 + k) * SIZE_PAGE) = Z.of_nat c /\ (12 <= c <= 30)%nat /\ (npg c <= S k)%nat /\ (2 ^ Z.of_nat c | addr).
Proof.
  intros Ha Hdiv Hn Hk idx0 idx Hlim. unfold lastbit.
  destruct (firstbit_divide addr ltac:(lia)) as [Hdv _]. fold idx0 in Hdv.
  assert (H12 : 12 <= idx0) by (apply firstbit_ge; [lia|lia|exact Hdiv]).
  assert (Hi32 : idx0 < 32).
  { assert (2 ^ idx0 <= addr) by (apply Z.divide_pos_le; [lia|done]).
    apply (Z.pow_lt_mono_r_iff 2); lia. }
  assert (Hidx : idx = idx0) by (unfold idx; rewrite decide_False by (unfold SIZE_VM_SIZES; lia); done).
  rewrite Hidx in Hlim.
  set (v := (1 + k) * SIZE_PAGE). assert (Hv : 0 < v < 2 ^ 31) by (unfold v, SIZE_PAGE in *; lia).
  pose proof (Z.log2_spec v ltac:(lia)) as [Hl1 _].
  assert (Hlg : 12 <= Z.log2 v < 31) by (split; [apply Z.log2_le_pow2; unfold v, SIZE_PAGE in *; lia|apply Z.log2_lt_pow2; lia]).
  exists (Z.to_nat (Z.log2 v)). split; [lia|]. split; [lia|].
  assert (HB : SIZE_PAGE * npg (Z.to_nat (Z.log2 v)) = 2 ^ Z.log2 v) by (rewrite npg_bytes by lia; f_equal; lia).
  split; [unfold v, SIZE_PAGE in *; lia|]. rewrite Z2Nat.id by lia.
  eapply Z.divide_trans; [|exact Hdv].
  assert (Hle : Z.log2 v <= idx0).
  { destruct (decide (idx0 = 31)) as [->|Hne]; [lia|]. apply (Z.pow_le_mono_r_iff 2); [lia|lia|].
    assert (Hnp : npages idx0 = npg (Z.to_nat idx0)) by (rewrite <- npages_npg by lia; f_equal; lia).
    pose proof (npg_bytes (Z.to_nat idx0) ltac:(lia)) as HB0. rewrite Z2Nat.id in HB0 by lia.
    pose proof (npg_pos (Z.to_nat idx0)). assert (2 ^ idx0 < 2 ^ 31) by (apply Z.pow_lt_mono_r; lia).
    rewrite Hnp in Hlim. unfold SIZE_PAGE in *. rewrite u32_small in Hlim by lia. unfold v in *. lia. }
  exists (2 ^ (idx0 - Z.log2 v)). rewrite <- Z.pow_add_r by lia. f_equal. lia.
Qed.

Lemma init_total st i : init_inv st i -> u32 (allocsz st + freesz st) / SIZE_PAGE = length (parr st).
Proof.
  intros [_ Hsm _ _ _ _ _ _ _ _ _ Hf Ha]. unfold SIZE_PAGE in *. rewrite u32_small by (pose proof (nfree_bound (parr st)); lia).
  replace (allocsz st + freesz st) with (length (parr st) * 4096) by lia. by rewrite Z.div_mul.
Qed.

Lemma init_skip st i p : init_inv st i -> parr st !! i = Some p -> is_free p = false -> init_inv st (S i).
Proof.
  intros [Hs Hsm Had Hso Hco Hla Hok Hfr Hd Hnd Hcv Hf Ha] Hp Hn. split; try done.
  - intros b Hb. destruct (Hok b Hb). split; [done|lia].
  - intros j q Hj Hq Hqf. destruct (decide (j = i)) as [->|]; [congruence|]. apply (Hcv j q); [lia|done|done].
Qed.

Lemma init_add st i p c : init_inv st i -> parr st !! i = Some p -> (12 <= c <= 30)%nat ->
  (forall j, (j < npg c)%nat -> exists q, parr st !! (i + j)%nat = Some q /\ is_free q = true) -> (2 ^ Z.of_nat c | p_addr p) ->
  exists st', (let? st := set_pg st i (set_idx c) in size_add st c i) = Ok st' /\ init_inv st' (i + npg c) /\
    same_af (parr st) (parr st').
Proof.
  intros [Hs Hsm Had Hso Hco Hla Hok Hfr Hd Hnd Hcv Hf Ha] Hp Hc Hrun Hdv.
  destruct (lookup_lt_is_Some_2 (sizes st) c) as [q Hq]; [rewrite Hs; unfold SIZE_VM_SIZES; lia|].
  rewrite (set_pg_ok _ _ _ _ Hp). cbn [rbind]. unfold size_add.
  rewrite (queue_lookup (set_arr _ st) _ _ Hq). cbn [rbind sizes set_arr set_sizes parr allocsz bootsz freesz]. rewrite !Nat2Z.id.
  set (a' := <[i := set_idx c p]> (parr st)). set (s' := <[c := list_add q i]> (sizes st)).
  eexists. split; [done|].
  assert (Haf : same_af (parr st) a') by (apply same_af_insert; [apply same_af_refl|done]).
  pose proof (Forall2_length _ _ _ Haf) as Hlen. pose proof (npg_pos c) as Hpos.
  assert (Hil : (i < length (parr st))%nat) by (by apply lookup_lt_Some in Hp).
  assert (Hq' : forall b, queued s' b <-> queued (sizes st) b \/ b = (i, c)).
  { intros [j k']. unfold queued, s', list_add. cbn [fst snd]. destruct (decide (k' = c)) as [->|Hne].
    - rewrite list_lookup_insert_eq by (by apply lookup_lt_Some in Hq). split.
      + intros (? & [= <-] & [Hj|Hj%list_elem_of_singleton]%elem_of_app); [left; eauto|right; by subst].
      + intros [(q' & Hq' & Hj)|[= <-]]; [rewrite Hq in Hq'; simplify_eq|]; eexists; (split; [done|]); apply elem_of_app; [by left|right; by apply list_elem_of_singleton].
    - rewrite list_lookup_insert_ne by done. naive_solver. }
  assert (Hnew : block_ok a' (i, c)).
  { split; cbn [fst snd].
    - done.
    - destruct (Hrun (npg c - 1)%nat ltac:(lia)) as (q1 & Hq1 & _). apply lookup_lt_Some in Hq1. lia.
    - exists (set_idx c p). unfold a'. rewrite list_lookup_insert_eq by done. split; [done|]. cbn [p_idx p_addr set_idx]. split; [apply u8_small; lia|done].
    - apply (same_af_contig (parr st) a' (i, c) Haf). cbn [fst snd]. intros j p0 p1 Hj H0 H1. by eapply (contig_addr _ i _ (npg c)). }
  assert (Hnewf : block_flags a' true (i, c)).
  { eapply same_af_flags; [exact Haf|]. intros j q1 Hj Hq1. cbn [fst snd] in *. destruct (Hrun j Hj) as (q2 & Hq2 & ?). congruence. }
  split; [|exact Haf].
  split; cbn [sizes parr allocsz bootsz freesz set_sizes set_arr].
  - unfold s'. by rewrite length_insert.
  - by rewrite <- Hlen.
  - intros j r Hr. destruct (same_af_lookup _ _ _ _ Haf Hr) as (r0 & Hr0 & <- & E). rewrite <- (is_free_flags _ _ E), <- E. by eapply Had.
  - intros j1 j2 r1 r2 Hr1 Hr2. destruct (same_af_lookup _ _ _ _ Haf Hr1) as (x1 & Hx1 & <- & _).
    destruct (same_af_lookup _ _ _ _ Haf Hr2) as (x2 & Hx2 & <- & _). by eapply Hso.
  - intros j r1 r2 Hr1 Hr2. destruct (same_af_lookup _ _ _ _ Haf Hr1) as (x1 & Hx1 & <- & E1).
    destruct (same_af_lookup _ _ _ _ Haf Hr2) as (x2 & Hx2 & <- & E2). rewrite <- (is_free_flags _ _ E1), <- (is_free_flags _ _ E2). by eapply Hco.
  - intros r Hr. rewrite <- Hlen in Hr. destruct (same_af_lookup _ _ _ _ Haf Hr) as (r0 & Hr0 & _ & Efl). rewrite <- (is_free_flags _ _ Efl). by apply Hla.
  - intros b [Hb| ->]%Hq'; [|split; [done|cbn [fst snd]; lia]]. destruct (Hok b Hb) as [Hbk Hbi]. split; [|lia].
    eapply same_af_block; [exact Haf| |done]. unfold a'. apply list_lookup_insert_ne. pose proof (npg_pos b.2). lia.
  - intros b [Hb| ->]%Hq'; [|done]. eapply same_af_flags; [exact Haf|]. by apply Hfr.
  - intros b b' [Hb| ->]%Hq' [Hb'| ->]%Hq' Ho; [by apply Hd| | |done]; exfalso; unfold overlap in Ho; cbn [fst snd] in Ho.
    + destruct (Hok b Hb). lia.
    + destruct (Hok b' Hb'). lia.
  - intros k q1 Hq1. unfold s' in Hq1. destruct (decide (k = c)) as [->|Hne].
    + rewrite list_lookup_insert_eq in Hq1 by (by apply lookup_lt_Some in Hq). injection Hq1 as <-. unfold list_add.
      apply NoDup_app. split_and!; [by eapply Hnd| |apply NoDup_singleton]. intros j Hj ->%list_elem_of_singleton.
      destruct (Hok (i, c)) as [_ Hbi]; [by exists q|]. cbn [fst snd] in Hbi. lia.
    + rewrite list_lookup_insert_ne in Hq1 by done. by eapply Hnd.
  - intros j r Hj Hr Hrf. destruct (decide (j < i)%nat).
    + destruct (same_af_lookup _ _ _ _ Haf Hr) as (r0 & Hr0 & _ & Efl). rewrite <- (is_free_flags _ _ Efl) in Hrf.
      destruct (Hcv j r0) as (b & Hb & Hrg); [done|done|done|]. exists b. split; [apply Hq'; by left|done].
    + exists (i, c). split; [apply Hq'; by right|]. cbn [fst snd]. lia.
  - by rewrite <- (same_af_nfree _ _ Haf).
  - by rewrite <- (same_af_nfree _ _ Haf), <- Hlen.
Qed.

Lemma init_loop_spec n : forall st i, init_inv st i -> (i <= length (parr st))%nat -> (length (parr st) - i < n)%nat ->
  exists st', init_loop n st i = Ok st' /\ init_inv st' (length (parr st')) /\ same_af (parr st) (parr st').
Proof.
  induction n as [|n IH]; intros st i HI Hi Hn; [lia|]. cbn [init_loop]. rewrite (init_total _ _ HI).
  case_decide as Hlt; [|assert (i = length (parr st)) as -> by lia; exists st; split_and!; [done|done|apply same_af_refl]].
  destruct (lookup_lt_is_Some_2 (parr st) i) as [p Hp]; [lia|]. rewrite (pg_ok _ _ _ Hp). cbn [rbind].
  destruct (is_free p) eqn:Hf; cbn [negb].
  - destruct (ii_addr _ _ HI _ _ Hp) as (Ha & Hdv & _ & Ha0). specialize (Ha0 Hf).
    set (idx := if decide (firstbit (p_addr p) >= SIZE_VM_SIZES) then _ else _).
    destruct (run_length_spec st i (u32 (npages idx - 1)) HI (S (length (parr st))) 0) as (k & E & Hk & Hrun).
    { intros j Hj. exists p. by replace (i + j)%nat with i by lia. } { lia. } { lia. }
    change (Z.of_nat 0) with 0 in E. rewrite E. cbn [rbind].
    destruct (Hrun k ltac:(lia)) as (q & Hq & _). apply lookup_lt_Some in Hq.
    destruct (run_class (p_addr p) k (length (parr st)) ltac:(lia) Hdv (ii_small _ _ HI) ltac:(lia) Hk) as (c & -> & Hc & Hnpg & Hal).
    destruct (init_add st i p c HI Hp Hc) as (st1 & E1 & HI1 & Haf1); [|done|].
    { intros j Hj. apply Hrun. lia. }
    apply rbind_inv in E1 as (s1 & -> & E1). cbn [rbind]. rewrite E1. cbn [rbind].
    assert (Z.of_nat i + Z.shiftl 1 (Z.of_nat c) / SIZE_PAGE = Z.of_nat (i + npg c)) as ->.
    { rewrite Z.shiftl_mul_pow2, Z.mul_1_l, <- npg_bytes by lia. unfold SIZE_PAGE. rewrite Z.mul_comm, Z.div_mul by lia. lia. }
    pose proof (Forall2_length _ _ _ Haf1) as Hl1. pose proof (npg_pos c).
    destruct (IH st1 (i + npg c)%nat HI1) as (st' & E' & HI' & Haf'); [lia|lia|]. exists st'. split_and!; [done|done|by eapply same_af_trans].
  - replace (Z.of_nat i + 1) with (Z.of_nat (S i)) by lia. apply IH; [by eapply init_skip|lia|lia].
Qed.

Lemma init_done st : init_inv st (length (parr st)) -> page_inv st ∅ ∅.
Proof.
  intros [Hs Hsm Had Hso Hco Hla Hok Hfr Hd Hnd Hcv Hf Ha]. split; try done.
  - intros j p Hp. destruct (Had _ _ Hp) as (? & ? & ? & _). split_and!; [lia|lia|done|lia|lia].
  - intros b [Hb|[Hb|Hb]]; [by apply Hok|by apply not_elem_of_empty in Hb..].
  - intros b [Hb|Hb]; [by apply Hfr|by apply not_elem_of_empty in Hb].
  - intros b b' [Hb|[Hb|Hb]] [Hb'|[Hb'|Hb']]; try (by apply not_elem_of_empty in Hb); try (by apply not_elem_of_empty in Hb'). by apply Hd.
  - intros j p Hp Hpf. destruct (Hcv j p) as (b & Hb & Hr); [by apply lookup_lt_Some in Hp|done|done|]. eauto.
Qed.

(** *** The pages reported at boot *)
Definition boot (src : list page_t) : res pages_t :=
  let? st := page_collect (Pages (replicate 32 []) [] 0 0 0) src in _page_initSizes st.

(** Pages in the order of their addresses; free pages that follow each other in the
    report are contiguous, none is page 0, and the last page is in use. *)
Record boot_ok (src : list page_t) : Prop := {
  bk_small : SIZE_PAGE * length src < 2 ^ 31;
  bk_addr : forall j p, src !! j = Some p -> 0 <= p_addr p < 2 ^ 32 /\ (SIZE_PAGE | p_addr p) /\ 0 <= p_flags p < 256 /\
    (is_free p = true -> 0 < p_addr p);
  bk_sorted : forall i j p q, src !! i = Some p -> src !! j = Some q -> (i < j)%nat -> p_addr p < p_addr q;
  bk_run : free_runs src;
  bk_last : forall p, src !! (length src - 1)%nat = Some p -> is_free p = false;
}.

Lemma nfree_app a b : nfree (a ++ b) = nfree a + nfree b.
Proof. unfold nfree. rewrite filter_app, length_app. lia. Qed.

Lemma nfree_single p : nfree [p] = if is_free p then 1 else 0.
Proof. unfold nfree. rewrite filter_cons, filter_nil. by destruct (is_free p). Qed.

(** Only the queue of single pages is used. *)
Definition only_single (s : list (list nat)) : Prop := length s = SIZE_VM_SIZES /\ forall k q, s !! k = Some q -> k <> 12%nat -> q = [].

Lemma page_collect_spec src : forall st, counts_ok st -> SIZE_PAGE * (length (parr st) + length src) < 2 ^ 31 -> only_single (sizes st) ->
  exists st', page_collect st src = Ok st' /\ counts_ok st' /\ only_single (sizes st') /\ exists a, parr st' = parr st ++ a /\ same_af src a.
Proof.
  induction src as [|p src IH]; intros st Hc Hl [Hs1 Hs2]; cbn [page_collect].
  { exists st. split_and!; [done|apply Hc..|done|done|]. exists []. rewrite app_nil_r. split; [done|constructor]. }
  destruct Hc as (H1 & H2 & H3). pose proof (nfree_bound (parr st)) as Hb. cbn [length] in Hl.
  assert (forall q : page_t, counts_ok (Pages (sizes st) (parr st ++ [q]) (if is_free q then allocsz st else u32 (allocsz st + SIZE_PAGE)) 0
            (if is_free q then u32 (freesz st + SIZE_PAGE) else freesz st))) as Hcq.
  { intros q. unfold counts_ok. cbn [parr allocsz freesz]. rewrite nfree_app, nfree_single, length_app. cbn [length].
    unfold SIZE_PAGE in *. destruct (is_free q); rewrite ?u32_small by lia; split_and!; lia. }
  assert (forall s' : pages_t, counts_ok s' -> SIZE_PAGE * (length (parr s') + length src) < 2 ^ 31 -> only_single (sizes s') -> forall q, parr s' = parr st ++ [q] ->
            p_addr p = p_addr q /\ p_flags p = p_flags q ->
            exists st', page_collect s' src = Ok st' /\ counts_ok st' /\ only_single (sizes st') /\ exists a, parr st' = parr st ++ a /\ same_af (p :: src) a) as Hgo.
  { intros s' Hc' Hl' Hs' q Eq Epq. destruct (IH s' Hc' Hl' Hs') as (st' & -> & Hc2 & Hs2' & a & Ea & Haf). exists st'. do 3 (split; [done|]).
    exists (q :: a). rewrite Ea, Eq, <- app_assoc. split; [done|]. by constructor. }
  destruct (is_free p) eqn:Hf.
  - destruct (lookup_lt_is_Some_2 (sizes st) 12) as [q Hq]; [rewrite Hs1; unfold SIZE_VM_SIZES; lia|].
    unfold size_add. change PAGE_SHIFT with (Z.of_nat 12) at 2. rewrite (queue_lookup (Pages _ _ _ _ _) 12 q Hq). cbn [rbind].
    eapply (Hgo _ _ _ _ (set_idx PAGE_SHIFT p)); [done..|]. done.
  - eapply (Hgo _ _ _ _ (set_idx 0 p)); [done..|]. done.
    Unshelve.
    + specialize (Hcq (set_idx PAGE_SHIFT p)). rewrite (is_free_flags (set_idx PAGE_SHIFT p) p eq_refl), Hf in Hcq. exact Hcq.
    + cbn [parr set_sizes]. rewrite length_app. cbn. lia.
    + split; cbn [sizes set_sizes]; [by rewrite length_insert|]. intros k q' Hk Hne. rewrite list_lookup_insert_ne in Hk by done. by eapply Hs2.
    + specialize (Hcq (set_idx 0 p)). rewrite (is_free_flags (set_idx 0 p) p eq_refl), Hf in Hcq. exact Hcq.
    + cbn [parr]. rewrite length_app. cbn. lia.
    + by split.
Qed.

(** With the queue of single pages emptied, no page is queued. *)
Lemma boot_init src st : boot_ok src -> counts_ok st -> only_single (sizes st) -> same_af src (parr st) ->
  init_inv (set_sizes (<[Z.to_nat PAGE_SHIFT := []]> (sizes st)) st) 0.
Proof.
  intros [Hsm Had Hso Hrun Hla] (Hc1 & Hc2 & Hc3) [Hs1 Hs2] Haf. change (Z.to_nat PAGE_SHIFT) with 12%nat.
  assert (forall k q, <[12%nat := []]> (sizes st) !! k = Some q -> q = []) as Hq.
  { intros k q Hk. destruct (decide (k = 12%nat)) as [->|Hne]; [|rewrite list_lookup_insert_ne in Hk by done; by eapply Hs2].
    rewrite list_lookup_insert_eq in Hk by (rewrite Hs1; unfold SIZE_VM_SIZES; lia). by injection Hk as <-. }
  assert (forall b, ~ queued (<[12%nat := []]> (sizes st)) b) as Hnq.
  { intros b (q & Hk & Hi). apply Hq in Hk as ->. by apply not_elem_of_nil in Hi. }
  assert (forall j p', parr st !! j = Some p' -> exists p, src !! j = Some p /\ p_addr p = p_addr p' /\ p_flags p = p_flags p' /\ is_free p = is_free p') as Hlk.
  { intros j p' Hj. destruct (same_af_lookup _ _ _ _ Haf Hj) as (p & Hp & E1 & E2). exists p. split_and!; [done..|by apply is_free_flags]. }
  split; cbn [sizes parr allocsz bootsz freesz set_sizes].
  - by rewrite length_insert.
  - done.
  - intros j p' Hj. destruct (Hlk _ _ Hj) as (p & Hp & <- & <- & <-). by eapply Had.
  - intros i j p' q' Hi Hj. destruct (Hlk _ _ Hi) as (p & Hp & <- & _). destruct (Hlk _ _ Hj) as (q & Hq' & <- & _). by eapply Hso.
  - intros j p' q' Hp' Hq'. destruct (Hlk _ _ Hp') as (p & Hp & <- & _ & <-). destruct (Hlk _ _ Hq') as (q & Hqq & <- & _ & <-). by eapply Hrun.
  - intros p' Hp'. destruct (Hlk _ _ Hp') as (p & Hp & _ & _ & <-). apply Hla. by rewrite (Forall2_length _ _ _ Haf).
  - intros b Hb. by apply Hnq in Hb.
  - intros b Hb. by apply Hnq in Hb.
  - intros b b' Hb. by apply Hnq in Hb.
  - intros k q Hk. apply Hq in Hk as ->. constructor.
  - intros j p Hj. lia.
  - done.
  - done.
Qed.

Lemma boot_spec src : boot_ok src -> exists st, boot src = Ok st /\ page_inv st ∅ ∅ /\ same_af src (parr st).
Proof.
  intros Hb. unfold boot.
  destruct (page_collect_spec src (Pages (replicate 32 []) [] 0 0 0)) as (st & -> & Hc & Hs & a & Ea & Haf).
  { by vm_compute. }
  { cbn [parr length]. apply (bk_small _ Hb). }
  { split; [done|]. intros k q Hk _. by apply lookup_replicate in Hk as [-> _]. }
  cbn [rbind parr app] in *. rewrite <- Ea in Haf. unfold _page_initSizes.
  destruct (init_loop_spec (S (length (parr st))) _ 0 (boot_init src st Hb Hc Hs Haf)) as (st' & E & HI & Haf'); [lia|cbn [parr set_sizes]; lia|].
  exists st'. split_and!; [done|by apply init_done|]. eapply same_af_trans; [exact Haf|exact Haf'].
Qed.

(** ** Claims *)


(** C4: [_page_free] of an allocated block terminates without a fault and keeps the
    invariant.  The pages of the block, and no others, become free; the block is
    merged as [coalesce] says, with every buddy it describes, and afterwards the
    free blocks are the merged one and those before that are not inside of it. *)
Theorem page_free_correct st al p k :
  page_inv st ({[(p, k)]} ∪ al) ∅ -> (p, k) ∉ al ->
  exists st' p' k', _page_free st (Z.of_nat p) = Ok st' /\ page_inv st' al ∅ /\ repainted (parr st) (parr st') (p, k) flags_free /\
    coalesce (parr st) (queued (sizes st)) true p k p' k' /\
    (forall b, queued (sizes st') b <-> b = (p', k') \/ queued (sizes st) b /\ ~ inside b (p', k')).
Proof. apply page_free_spec. Qed.


(** C37: merging is incomplete.  After a merge the loop moves only one of its two
    pointers: a released block that joins its free right buddy is never merged with
    the free block at the left of both, although these two are buddies side by
    side in memory; both stay queued. *)
Theorem page_free_incomplete st al l k :
  let p := (l + npg (S k))%nat in
  page_inv st ({[(p, k)]} ∪ al) ∅ -> (p, k) ∉ al ->
  left_child (parr st) p k -> queued (sizes st) ((p + npg k)%nat, k) -> adjacent (parr st) p k ->
  ~ left_child (parr st) p (S k) -> queued (sizes st) (l, S k) -> adjacent (parr st) l (S k) ->
  exists st', _page_free st (Z.of_nat p) = Ok st' /\ queued (sizes st') (l, S k) /\ queued (sizes st') (p, S k).
Proof.
  intros p HI Hn Hl Hr Ha Hl' Hq Ha'. destruct (page_free_spec st al p k HI Hn) as (st' & p' & k' & E & _ & _ & Hco & HQ).
  assert (p' = p /\ k' = S k) as [-> ->].
  { clearbody p. inversion Hco as [? ? ? ? ? _ _ _ Hco'|l0 ? ? ? Hx _ _ _ E1|? ? ? Hst]; simplify_eq; [|done|by destruct Hst].
    inversion Hco' as [? ? ? ? ? Hx| |]; by simplify_eq. }
  exists st'. split; [done|]. rewrite !HQ. split; [right|by left]. split; [done|]. unfold inside, p. cbn [fst snd]. pose proof (npg_pos (S k)). lia.
Qed.

(** Five pages from 0x10000 on, the last one in use by the boot loader. *)
Definition demo_src : list page_t := (fun i : nat => PageD (0x10000 + 4096 * i) 0 (if decide (i = 4%nat) then 0 else 1)) <$> seq 0 5.
Definition demo_pages : pages_t :=
  Eval vm_compute in match boot demo_src with Ok st => st | _ => Pages [] [] 0 0 0 end.

Ltac small_index j H :=
  destruct j as [|[|[|[|[|j]]]]]; [injection H as <-..|destruct j; discriminate H].

Lemma demo_boot_ok : boot_ok demo_src.
Proof.
  assert (forall j p, demo_src !! j = Some p -> (j < 5)%nat /\ p_addr p = 0x10000 + 4096 * j) as Ha.
  { intros j p Hj. small_index j Hj; (split; [lia|reflexivity]). }
  split.
  - by vm_compute.
  - intros j p Hp. destruct (Ha j p Hp) as [Hj ->]. split; [lia|]. split; [exists (16 + j); unfold SIZE_PAGE; lia|]. split; [|lia].
    small_index j Hp; vm_compute; split; done.
  - intros i j p q Hp Hq Hij. destruct (Ha i p Hp) as [_ ->]. destruct (Ha j q Hq) as [_ ->]. lia.
  - intros j p q Hp Hq _ _. destruct (Ha j p Hp) as [_ ->]. destruct (Ha (S j) q Hq) as [_ ->]. unfold SIZE_PAGE. lia.
  - intros p Hp. by injection Hp as <-.
Qed.

Lemma demo_inv : page_inv demo_pages ∅ ∅.
Proof.
  destruct (boot_spec demo_src demo_boot_ok) as (st' & E & HI' & _).
  assert (demo_pages = st') as ->; [|done]. vm_compute in E. by injection E as <-.
Qed.



(** Two blocks are allocated, of two pages and of one; the first is released. *)
Definition result (c : res (pages_t * option Z)) : pages_t := match c with Ok (st, _) => st | _ => demo_pages end.
Definition demo_two : pages_t := Eval vm_compute in result (_page_alloc (result (_page_alloc demo_pages 8192 PAGE_KERNEL_HEAP)) 4096 PAGE_KERNEL_HEAP).
Definition demo_freed : pages_t := Eval vm_compute in match _page_free demo_two 0 with Ok st => st | _ => demo_pages end.

Lemma demo_alloc st al size st' (i : nat) : page_inv st al ∅ -> 0 <= size < 2 ^ 32 -> _page_alloc st size PAGE_KERNEL_HEAP = Ok (st', Some (Z.of_nat i)) ->
  page_inv st' ({[(i, Z.to_nat (size_class size))]} ∪ al) ∅ /\ ~ (i, Z.to_nat (size_class size)) ∈ al.
Proof.
  intros HI Hs E. destruct (page_alloc_spec st al size PAGE_KERNEL_HEAP HI Hs) as [(s2 & j & E2 & HI2 & Hn & _)|[E2 _]]; [by vm_compute|by vm_compute| |congruence].
  rewrite E in E2. injection E2 as <- Ej. apply Nat2Z.inj in Ej as <-. done.
Qed.

Lemma demo_two_inv : page_inv demo_two ({[(0, 13)]} ∪ {[(2, 12)]})%nat ∅.
Proof.
  destruct (demo_alloc demo_pages ∅ 8192 (result (_page_alloc demo_pages 8192 PAGE_KERNEL_HEAP)) 0 demo_inv) as [H1 _]; [lia|by vm_compute|].
  destruct (demo_alloc _ _ 4096 demo_two 2 H1) as [H2 _]; [lia|by vm_compute|].
  change (Z.to_nat (size_class 8192)) with 13%nat in H2. change (Z.to_nat (size_class 4096)) with 12%nat in H2.
  by rewrite union_empty_r_L, (union_comm_L {[(2%nat, 12%nat)]}) in H2.
Qed.

Lemma page_free_correct_witness :
  exists st' p' k', _page_free demo_two 0 = Ok st' /\ page_inv st' {[(2, 12)]}%nat ∅ /\ repainted (parr demo_two) (parr st') (0, 13)%nat flags_free /\
    coalesce (parr demo_two) (queued (sizes demo_two)) true 0 13 p' k' /\
    (forall b, queued (sizes st') b <-> b = (p', k') \/ queued (sizes demo_two) b /\ ~ inside b (p', k')).
Proof. apply (page_free_correct demo_two {[(2, 12)]}%nat 0 13 demo_two_inv). apply (bool_decide_unpack _). by vm_compute. Defined.

Lemma demo_freed_inv : page_inv demo_freed {[(2, 12)]}%nat ∅.
Proof.
  destruct (page_free_spec demo_two {[(2, 12)]}%nat 0 13 demo_two_inv) as (st' & p' & k' & E & HI & _); [apply (bool_decide_unpack _); by vm_compute|].
  assert (demo_freed = st') as ->; [|done]. vm_compute in E. by injection E as <-.
Qed.

(** Page 2 joins page 3; the block of the pages 0 and 1 stays on its own. *)
Lemma page_free_incomplete_witness :
  exists st', _page_free demo_freed 2 = Ok st' /\ queued (sizes st') (0, 13)%nat /\ queued (sizes st') (2, 13)%nat.
Proof.
  apply (page_free_incomplete demo_freed ∅ 0 12).
  - rewrite union_empty_r_L. exact demo_freed_inv.
  - apply not_elem_of_empty.
  - eexists. split; reflexivity.
  - eexists. split; [reflexivity|]. apply (bool_decide_unpack _). by vm_compute.
  - eexists _, _. split_and!; reflexivity.
  - intros (d & Hd & E). injection Hd as <-. vm_compute in E. discriminate E.
  - eexists. split; [reflexivity|]. apply (bool_decide_unpack _). by vm_compute.
  - eexists _, _. split_and!; reflexivity.
Defined.

(** [_page_initSizes] bounds its scan by a byte count where it means a page
    count, and does not look at addresses: with a free last page it reads the
    descriptor behind the array (a fault of the model), and two free pages with
    a hole of physical memory between them become one block. *)
Example page_init_flaws :
  boot [PageD 0x12000 0 1] = Fault /\
  exists st, boot [PageD 0x12000 0 1; PageD 0x20000 0 1; PageD 0x21000 0 0] = Ok st /\
    queued (sizes st) (0%nat, 13%nat) /\ ~ block_ok (parr st) (0%nat, 13%nat).
Proof.
  split; [by vm_compute|]. eexists. split; [vm_compute; reflexivity|]. split.
  - eexists. split; [reflexivity|]. apply (bool_decide_unpack _). by vm_compute.
  - intros [_ _ _ Hc]. specialize (Hc 1%nat _ _ ltac:(vm_compute; lia) eq_refl eq_refl). vm_compute in Hc. discriminate Hc.
Qed.

(** C27: [_page_get] returns the descriptor of the page that contains a physical
    address, and NULL exactly when no described page contains it. *)
Theorem page_get_correct st al fl addr : page_inv st al fl -> 0 <= addr < 2 ^ 32 ->
  exists o, _page_get st addr = Ok o /\
    match o with
    | Some i => exists p, 0 <= i /\ parr st !! Z.to_nat i = Some p /\ p_addr p <= addr < p_addr p + SIZE_PAGE
    | None => forall i p, parr st !! i = Some p -> ~ (p_addr p <= addr < p_addr p + SIZE_PAGE)
    end.
Proof.
  intros HI Ha. unfold _page_get.
  assert (Hnp : u32 (freesz st + allocsz st) / SIZE_PAGE = length (parr st)).
  { rewrite Z.add_comm. by eapply total_pages. }
  rewrite Hnp. set (a := Z.land addr _).
  assert (Ea : a = addr / SIZE_PAGE * SIZE_PAGE).
  { unfold a, u32, wrap. rewrite <- Z.land_ones, (Z.land_comm _ (Z.ones 32)), Z.land_assoc, Z.land_ones, (Z.mod_small addr) by lia.
    change SIZE_PAGE with (2 ^ 12). replace (2 ^ 12 - 1) with (Z.ones 12) by done.
    change (Z.land addr (Z.lnot (Z.ones 12))) with (Z.land addr (Z.lnot (Z.ones 12))).
    rewrite <- Z.ldiff_land, Z.ldiff_ones_r, Z.shiftl_mul_pow2, Z.shiftr_div_pow2 by lia. done. }
  clearbody a. set (f := fun i => match parr st !! Z.to_nat i with Some p => _page_get_cmp a p | None => 0 end).
  pose proof (pi_small _ _ _ HI) as Hsm.
  destruct (BSearch.lib_bsearch_spec (fun i => let? p := pg st i in Ok (_page_get_cmp a p)) f (length (parr st))) as (o & E & Ho).
  - intros i Hi. destruct (lookup_lt_is_Some_2 (parr st) (Z.to_nat i)) as [p Hp]; [lia|].
    unfold pg. rewrite decide_True by lia. unfold f. rewrite Hp. done.
  - intros i j Hij Hj. destruct (lookup_lt_is_Some_2 (parr st) (Z.to_nat i)) as [p Hp]; [lia|].
    destruct (lookup_lt_is_Some_2 (parr st) (Z.to_nat j)) as [q Hq]; [lia|].
    pose proof (pi_sorted _ _ _ HI _ _ _ _ Hp Hq ltac:(lia)). unfold f. rewrite Hp, Hq. unfold _page_get_cmp.
    repeat case_decide; lia.
  - unfold SIZE_PAGE in *. lia.
  - exists o. split; [done|]. unfold BSearch.search_result in Ho.
    assert (Hcmp : forall p, (SIZE_PAGE | p_addr p) -> (_page_get_cmp a p = 0 <-> p_addr p <= addr < p_addr p + SIZE_PAGE)).
    { intros p [q Hq]. unfold _page_get_cmp. pose proof (Z.div_mod addr SIZE_PAGE). pose proof (Z.mod_pos_bound addr SIZE_PAGE).
      unfold SIZE_PAGE in *. repeat case_decide; split; intros; lia. }
    destruct o as [i|].
    + destruct Ho as [Hi Hf]. destruct (lookup_lt_is_Some_2 (parr st) (Z.to_nat i)) as [p Hp]; [lia|].
      exists p. split; [lia|]. split; [done|]. unfold f in Hf. rewrite Hp in Hf. apply Hcmp; [|done].
      by destruct (pi_addr _ _ _ HI _ _ Hp) as (_ & ? & _).
    + intros i p Hp. specialize (Ho (Z.of_nat i)). unfold f in Ho. rewrite Nat2Z.id, Hp in Ho.
      rewrite <- Hcmp by (by destruct (pi_addr _ _ _ HI _ _ Hp) as (_ & ? & _)). apply Ho. apply lookup_lt_Some in Hp. lia.
Qed.

Lemma page_get_correct_witness :
  exists o, _page_get demo_pages 0x13456 = Ok o /\
    match o with
    | Some i => exists p, 0 <= i /\ parr demo_pages !! Z.to_nat i = Some p /\ p_addr p <= 0x13456 < p_addr p + SIZE_PAGE
    | None => forall i p, parr demo_pages !! i = Some p -> ~ (p_addr p <= 0x13456 < p_addr p + SIZE_PAGE)
    end.
Proof. apply (page_get_correct demo_pages ∅ ∅); [exact demo_inv|lia]. Defined.
