(* ===== verification/Pmap.v ===== *)
(** * Page tables of ARMv7-A (hal/armv7a/zynq7000/pmap.c, pmap.h)

    An address space is a directory of 4096 words; four consecutive words refer to
    the four quarters of one page, which holds the 1024 entries of 4 MB.  The
    kernel reaches a table through one page of scratch mapping ([sptab]).  Physical
    memory is the map [frames] from the addresses of the pages that hold tables to
    their words; barriers and cache maintenance have no effect on it.  [walk] is the
    hardware's translation.

    [pmap_isolated]: whatever sequence of [pmap_create], [pmap_enter] and
    [pmap_remove] on any number of address spaces, the hardware translates every
    address as the last successful call for its page in its space said. *)

From S2P Require Import Prelude Bits Page.

Definition has (x bit : Z) : bool := negb (Z.land x bit =? 0).

Definition PGHD_PRESENT : Z := 0x20.
Definition PGHD_NOT_CACHED : Z := 0x10.
Definition PGHD_USER : Z := 0x08.
Definition PGHD_WRITE : Z := 0x04.
Definition PGHD_EXEC : Z := 0x02.
Definition PGHD_DEV : Z := 0x01.

Definition VADDR_KERNEL : Z := 0xc0000000.
Definition VADDR_USR_MAX : Z := 0x80000000.

Definition TT2S_NOTGLOBAL : Z := 0x800.
Definition TT2S_READONLY : Z := 0x200.
Definition TT2S_SHARED_DEV : Z := 0x004.
Definition TT2S_CACHED : Z := 0x00c.
Definition TT2S_NOTCACHED : Z := 0x040.
Definition TT2S_PL0ACCESS : Z := 0x020.
Definition TT2S_ACCESSFLAG : Z := 0x010.
Definition TT2S_SMALLPAGE : Z := 0x002.
Definition TT2S_EXECNEVER : Z := 0x001.

Definition lors (l : list Z) : Z := foldr Z.lor 0 l.

(** [attrMap], the rows of the table in its order. *)
Definition attr_row (access : bool) (mem : Z) (never ro user : bool) : Z :=
  lors [TT2S_SMALLPAGE; if access then TT2S_ACCESSFLAG else 0; mem; if never then TT2S_EXECNEVER else 0; if ro then TT2S_READONLY else 0;
        if user then Z.lor TT2S_PL0ACCESS TT2S_NOTGLOBAL else 0].
Definition attr_half (cached : Z) : list Z := [
  attr_row true cached true true false; attr_row true TT2S_SHARED_DEV true true false;
  attr_row true cached false true false; attr_row true TT2S_SHARED_DEV false true false;
  attr_row true cached true false false; attr_row true TT2S_SHARED_DEV true false false;
  attr_row true cached false false false; attr_row true TT2S_SHARED_DEV false false false;
  attr_row false cached true true true; attr_row false TT2S_SHARED_DEV true true true;
  attr_row false cached false true true; attr_row false TT2S_SHARED_DEV false true true;
  attr_row true cached true false true; attr_row true TT2S_SHARED_DEV true false true;
  attr_row true cached false false true; attr_row true TT2S_SHARED_DEV false false true ].
Definition attrMap : list Z := attr_half TT2S_CACHED ++ attr_half TT2S_NOTCACHED.

Definition pdi (va : Z) : Z := Z.shiftr va 20.
Definition pti (va : Z) : Z := Z.land (Z.shiftr va 12) 0x3ff.
(** [e & ~0xfff] *)
Definition frame_of (e : Z) : Z := Z.land e (2 ^ 32 - 2 ^ 12).

Record tables := Tables { frames : gmap Z (list Z); sptab : Z }.

(** Accesses through the scratch mapping. *)
Definition sp_read (t : tables) (i : Z) : res Z := let? l := deref (frames t !! sptab t) in deref (l !! Z.to_nat i).
Definition sp_write (t : tables) (i v : Z) : res tables :=
  let? l := deref (frames t !! sptab t) in
  if decide (Z.to_nat i < length l)%nat then Ok (Tables (<[sptab t := <[Z.to_nat i := v]> l]> (frames t)) (sptab t)) else Fault.
Definition sp_clear (t : tables) : res tables :=
  let? l := deref (frames t !! sptab t) in Ok (Tables (<[sptab t := replicate 1024 0]> (frames t)) (sptab t)).

Definition _pmap_mapScratch (t : tables) (pa : Z) : tables := Tables (frames t) (frame_of pa).

(** The word of a mapping, and [_pmap_writeEntry] of the table in the scratch
    mapping. *)
Definition entry_word (pa attr : Z) : res Z :=
  if has attr PGHD_PRESENT then let? a := deref (attrMap !! Z.to_nat (Z.land attr 0x1f)) in Ok (Z.lor (frame_of pa) a) else Ok 0.
Definition _pmap_writeEntry (t : tables) (va pa attr : Z) : res tables := let? w := entry_word pa attr in sp_write t (pti va) w.

Definition pd_at (pd : list Z) (i : Z) : res Z := deref (pd !! Z.to_nat i).

(** [_pmap_addTable] *)
Definition _pmap_addTable (pd : list Z) (i pa : Z) : list Z :=
  let pa := Z.lor (frame_of pa) 1 in
  let i := Z.to_nat (Z.land i (2 ^ 32 - 2 ^ 2)) in
  <[(i + 3)%nat := u32 (pa + 0xc00)]> (<[(i + 2)%nat := u32 (pa + 0x800)]> (<[(i + 1)%nat := u32 (pa + 0x400)]> (<[i := pa]> pd))).

(** [pmap_enter]; [cur] says that the address space is the one in use.  A page
    without caches is mapped in the scratch mapping at the end when it is not. *)
Definition pmap_enter (t : tables) (pd : list Z) (cur : bool) (pa va attr : Z) (alloc : option Z) : res (tables * list Z * Z) :=
  let? e := pd_at pd (pdi va) in
  let? r :=
    (if e =? 0 then
       match alloc with
       | None => Ok None
       | Some a => let? t := sp_clear (_pmap_mapScratch t a) in Ok (Some (t, _pmap_addTable pd (pdi va) a))
       end
     else Ok (Some (_pmap_mapScratch t e, pd))) in
  match r with
  | None => Ok (t, pd, - EFAULT)
  | Some (t, pd) =>
      let? t := _pmap_writeEntry t va pa attr in
      if negb (has attr PGHD_PRESENT) then Ok (t, pd, EOK)
      else if (has attr PGHD_EXEC || has attr PGHD_NOT_CACHED || has attr PGHD_DEV) && negb cur then Ok (_pmap_mapScratch t pa, pd, EOK)
      else Ok (t, pd, EOK)
  end.

Definition pmap_remove (t : tables) (pd : list Z) (va : Z) : res (tables * Z) :=
  let? e := pd_at pd (pdi va) in
  if e =? 0 then Ok (t, EOK)
  else
    let t := _pmap_mapScratch t e in
    let? w := sp_read t (pti va) in
    if w =? 0 then Ok (t, EOK) else let? t := _pmap_writeEntry t va 0 0 in Ok (t, EOK).

Definition pmap_resolve (t : tables) (pd : list Z) (va : Z) : res (tables * Z) :=
  let? e := pd_at pd (pdi va) in
  if e =? 0 then Ok (t, 0) else let t := _pmap_mapScratch t e in let? w := sp_read t (pti va) in Ok (t, w).

(** [pmap_create]: the words below the kernel are cleared and the others copied
    from the kernel's directory. *)
Definition user_words : nat := Z.to_nat (Z.shiftr VADDR_KERNEL 20).
Definition pmap_create (kpd : list Z) : list Z := replicate user_words 0 ++ drop user_words kpd.

(** [pmap_destroy], once the space has no ASID: the next page that holds a table,
    or 0, and the new [*i]. *)
Definition destroy_max : Z := Z.shiftr (Z.land (VADDR_USR_MAX + SIZE_PAGE - 1) (2 ^ 32 - 2 ^ 12)) 20.
Fixpoint destroy_scan (fuel : nat) (pd : list Z) (i : Z) : res (Z * Z) :=
  match fuel with
  | O => NoFuel
  | S fuel =>
      if i <? destroy_max then
        let? e := pd_at pd i in
        if negb (e =? 0) then Ok (frame_of e, i + 4) else destroy_scan fuel pd (i + 4)
      else Ok (0, i)
  end.
Definition pmap_destroy (pd : list Z) (i : Z) : res (Z * Z) := destroy_scan 513 pd i.

(** [_pmap_kernelSpaceExpand]: tables for the range up to [end_]; the caller has
    one page for them. *)
Fixpoint expand_loop (fuel : nat) (t : tables) (pd : list Z) (cur : bool) (vaddr start end_ : Z) (dp : option Z) : res (tables * list Z * Z * Z) :=
  match fuel with
  | O => NoFuel
  | S fuel =>
      if vaddr <? end_ then
        let? (t, pd, e) := pmap_enter t pd cur 0 vaddr (Z.lnot PGHD_PRESENT) None in
        let? (t, pd, dp, e) :=
          (if e <? 0 then let? (t, pd, e) := pmap_enter t pd cur 0 vaddr (Z.lnot PGHD_PRESENT) dp in Ok (t, pd, None, e) else Ok (t, pd, dp, e)) in
        if e <? 0 then Ok (t, pd, start, - ENOMEM) else expand_loop fuel t pd cur (u32 (vaddr + Z.shiftl SIZE_PAGE 10)) vaddr end_ dp
      else Ok (t, pd, start, EOK)
  end.
Definition _pmap_kernelSpaceExpand (t : tables) (pd : list Z) (cur : bool) (start end_ : Z) (dp : option Z) : res (tables * list Z * Z * Z) :=
  let vaddr := Z.land (u32 (start + SIZE_PAGE - 1)) (2 ^ 32 - 2 ^ 12) in
  if end_ <=? vaddr then Ok (t, pd, start, EOK)
  else expand_loop 1025 t pd cur (if vaddr <? VADDR_KERNEL then VADDR_KERNEL else vaddr) start end_ dp.

(** ** The hardware

    A directory word with low bits 01 is the address of a table of 256 words; a
    table word with bit 1 set maps a page. *)
Definition walk (t : tables) (pd : list Z) (va : Z) : option (Z * Z) :=
  e ← pd !! Z.to_nat (Z.shiftr va 20);
  if Z.land e 3 =? 1 then
    let at_ := Z.land e (2 ^ 32 - 2 ^ 10) + 4 * Z.land (Z.shiftr va 12) 0xff in
    l ← frames t !! frame_of at_;
    w ← l !! Z.to_nat (Z.land at_ 0xfff / 4);
    if Z.testbit w 1 then Some (frame_of w + Z.land va 0xfff, Z.land w 0xfff) else None
  else None.

(** ** Addresses and words *)
Lemma frame_of_eq e : 0 <= e < 2 ^ 32 -> frame_of e = 4096 * (e / 4096).
Proof. intros. apply (land_high 12); lia. Qed.

Lemma frame_of_add f d : 0 <= f -> f + 4095 < 2 ^ 32 -> f mod 4096 = 0 -> 0 <= d < 4096 -> frame_of (f + d) = f.
Proof.
  intros Hf0 Hf Hm Hd. rewrite frame_of_eq by lia. pose proof (Z.div_mod f 4096). replace (f + d) with (d + (f / 4096) * 4096) by lia.
  rewrite Z.div_add, Z.div_small by lia. lia.
Qed.

Lemma frame_top f : 0 <= f < 2 ^ 32 -> f mod 4096 = 0 -> f + 4095 < 2 ^ 32.
Proof. intros Hf Hm. pose proof (Z.div_mod f 4096). pose proof (Z.div_lt_upper_bound f 4096 (2 ^ 20)). lia. Qed.

Lemma frame_of_frame e : 0 <= e < 2 ^ 32 -> frame_of e mod 4096 = 0 /\ 0 <= frame_of e <= e.
Proof.
  intros. rewrite frame_of_eq by lia. split; [rewrite Z.mul_comm; by apply Z.mod_mul|]. pose proof (Z.div_pos e 4096). pose proof (Z.mul_div_le e 4096). lia.
Qed.

Lemma lor_low k f a : 0 <= k -> f mod 2 ^ k = 0 -> 0 <= a < 2 ^ k -> Z.lor f a = f + a.
Proof.
  intros Hk Hf Ha. symmetry. apply Z.add_nocarry_lor. apply Z.bits_inj. intros i. rewrite Z.bits_0, Z.land_spec.
  destruct (Z.lt_ge_cases i k) as [Hi|Hi].
  - destruct (Z.lt_ge_cases i 0); [by rewrite Z.testbit_neg_r|]. replace (Z.testbit f i) with false; [done|].
    rewrite <- (Z.mod_pow2_bits_low f k i) by lia. by rewrite Hf, Z.testbit_0_l.
  - replace (Z.testbit a i) with false; [apply andb_false_r|]. rewrite <- (Z.mod_small a (2 ^ k)) by lia. by rewrite Z.mod_pow2_bits_high by lia.
Qed.

Lemma pdi_eq va : pdi va = 4 * (va / 2 ^ 22) + (va / 2 ^ 20) mod 4.
Proof.
  unfold pdi. rewrite Z.shiftr_div_pow2 by lia. replace (va / 2 ^ 22) with (va / 2 ^ 20 / 4) by (rewrite Z.div_div by lia; done). apply Z.div_mod. lia.
Qed.
Lemma pti_eq va : pti va = (va / 4096) mod 1024.
Proof. unfold pti. rewrite Z.shiftr_div_pow2 by lia. apply (Z.land_ones _ 10). lia. Qed.
Lemma group_bounds va : 0 <= va < 2 ^ 32 -> 0 <= va / 2 ^ 22 < 1024.
Proof. intros. split; [apply Z.div_pos; lia|apply Z.div_lt_upper_bound; lia]. Qed.
Lemma page_split va : va / 4096 = 1024 * (va / 2 ^ 22) + (va / 4096) mod 1024.
Proof. replace (va / 2 ^ 22) with (va / 4096 / 1024) by (rewrite Z.div_div by lia; done). apply Z.div_mod. lia. Qed.

Definition attr_word (attr : Z) : Z := default 0 (attrMap !! Z.to_nat (Z.land attr 0x1f)).

(** Every word of [attrMap] fits below the address of a frame and marks a small
    page. *)
Lemma attr_word_ok attr : attrMap !! Z.to_nat (Z.land attr 0x1f) = Some (attr_word attr) /\ 0 < attr_word attr < 4096 /\ Z.testbit (attr_word attr) 1 = true.
Proof.
  unfold attr_word. change 0x1f with (Z.ones 5). rewrite Z.land_ones by lia. pose proof (Z.mod_pos_bound attr (2 ^ 5)).
  assert (Forall (fun w => 0 < w < 4096 /\ Z.testbit w 1 = true) attrMap) as Hf by (repeat constructor).
  destruct (attrMap !! Z.to_nat (attr mod 2 ^ 5)) as [w|] eqn:E.
  - split; [done|]. by apply (Forall_lookup_1 _ _ _ _ Hf E).
  - apply lookup_ge_None in E. change (length attrMap) with 32%nat in E. lia.
Qed.

(** The word of a mapping: its frame and attributes can be read back. *)
Definition word_of (x : option (Z * Z)) : Z := match x with Some (f, a) => f + a | None => 0 end.
Definition entry_of (pa attr : Z) : option (Z * Z) := if has attr PGHD_PRESENT then Some (frame_of pa, attr_word attr) else None.
Definition entry_ok (x : option (Z * Z)) : Prop :=
  match x with Some (f, a) => 0 <= f < 2 ^ 32 /\ f mod 4096 = 0 /\ 0 < a < 4096 /\ Z.testbit a 1 = true | None => True end.

Lemma entry_of_ok pa attr : 0 <= pa < 2 ^ 32 -> entry_ok (entry_of pa attr).
Proof.
  intros Hp. unfold entry_of. destruct (has attr PGHD_PRESENT); [|done]. destruct (frame_of_frame pa Hp) as [? ?].
  destruct (attr_word_ok attr) as (_ & ? & ?). cbn. split_and!; done || lia.
Qed.
Lemma entry_word_eq pa attr : 0 <= pa < 2 ^ 32 -> entry_word pa attr = Ok (word_of (entry_of pa attr)).
Proof.
  intros Hp. unfold entry_word, entry_of. destruct (has attr PGHD_PRESENT); [|done]. destruct (attr_word_ok attr) as (-> & Ha & _).
  cbn [deref rbind word_of]. f_equal. apply (lor_low 12); [lia|by apply frame_of_frame|lia].
Qed.

Lemma word_read x : entry_ok x -> (if Z.testbit (word_of x) 1 then Some (frame_of (word_of x), Z.land (word_of x) 0xfff) else None) = x.
Proof.
  destruct x as [[f a]|]; [|done]. cbn [word_of entry_ok]. intros (Hf & Hm & Ha & Hb). pose proof (frame_top f Hf Hm).
  rewrite <- (lor_low 12 f a), Z.lor_spec, Hb, orb_true_r by (done || lia). rewrite (lor_low 12) by (done || lia).
  rewrite frame_of_add by lia. change 0xfff with (Z.ones 12). rewrite Z.land_ones by lia. change (2 ^ 12) with 4096.
  rewrite Z.add_mod, Hm, Z.add_0_l, Z.mod_mod, Z.mod_small by lia. done.
Qed.

(** ** One address space *)
Record table_at (t : tables) (pd : list Z) (g f : Z) (l : list Z) : Prop := {
  ta_frame : 0 < f < 2 ^ 32 /\ f mod 4096 = 0;
  ta_words : forall j, 0 <= j < 4 -> pd !! Z.to_nat (4 * g + j) = Some (f + 1 + 1024 * j);
  ta_page : frames t !! f = Some l;
  ta_len : length l = 1024%nat
}.
Definition no_table (pd : list Z) (g : Z) : Prop := forall j, 0 <= j < 4 -> pd !! Z.to_nat (4 * g + j) = Some 0.

Lemma pd_at_table t pd f l va : table_at t pd (va / 2 ^ 22) f l ->
  exists e, pd_at pd (pdi va) = Ok e /\ (e =? 0) = false /\ frame_of e = f /\ e = f + 1 + 1024 * ((va / 2 ^ 20) mod 4).
Proof.
  intros [[Hf Hm] Hw _ _]. pose proof (Z.mod_pos_bound (va / 2 ^ 20) 4). eexists. unfold pd_at. rewrite pdi_eq, Hw by lia. split_and!; [done|lia| |done].
  rewrite <- Z.add_assoc. pose proof (frame_top f). apply frame_of_add; lia.
Qed.

Lemma pd_at_none pd va : no_table pd (va / 2 ^ 22) -> pd_at pd (pdi va) = Ok 0.
Proof. intros Hw. pose proof (Z.mod_pos_bound (va / 2 ^ 20) 4). unfold pd_at. rewrite pdi_eq, Hw by lia. done. Qed.

Lemma walk_none t pd va : no_table pd (va / 2 ^ 22) -> walk t pd va = None.
Proof. intros Hw. unfold walk. pose proof (pd_at_none pd va Hw) as E. unfold pd_at in E. apply deref_inv in E. unfold pdi in E. by rewrite E. Qed.

Lemma walk_table t pd va f l : table_at t pd (va / 2 ^ 22) f l ->
  walk t pd va = w ← l !! Z.to_nat (pti va); if Z.testbit w 1 then Some (frame_of w + Z.land va 0xfff, Z.land w 0xfff) else None.
Proof.
  intros Ht. destruct (pd_at_table _ _ _ _ _ Ht) as (e & E & _ & _ & He). destruct Ht as [[Hf Hm] _ Hl _]. unfold pd_at in E. apply deref_inv in E.
  unfold walk. unfold pdi in E. rewrite E. cbn [mbind option_bind]. set (j := (va / 2 ^ 20) mod 4) in *. assert (0 <= j < 4) by (apply Z.mod_pos_bound; lia).
  pose proof (frame_top f). pose proof (Z.div_mod f 4096).
  assert (Z.land e 3 = 1) as ->.
  { change 3 with (Z.ones 2). rewrite Z.land_ones by lia. subst e. replace (f + 1 + 1024 * j) with (1 + (1024 * (f / 4096) + 256 * j) * 2 ^ 2) by lia.
    rewrite Z.mod_add by lia. done. }
  cbn [Z.eqb Pos.eqb]. assert (Z.land e (2 ^ 32 - 2 ^ 10) = f + 1024 * j) as ->.
  { rewrite (land_high 10) by lia. subst e. change (2 ^ 10) with 1024. replace (f + 1 + 1024 * j) with (1 + (4 * (f / 4096) + j) * 1024) by lia.
    rewrite Z.div_add, Z.div_small by lia. lia. }
  change 0xff with (Z.ones 8). rewrite Z.land_ones, Z.shiftr_div_pow2 by lia. change (2 ^ 12) with 4096. change (2 ^ 8) with 256.
  set (x := (va / 4096) mod 256). assert (0 <= x < 256) by (apply Z.mod_pos_bound; lia). rewrite <- Z.add_assoc, frame_of_add, Hl by lia.
  cbn [mbind option_bind]. assert (Z.land (f + (1024 * j + 4 * x)) 0xfff / 4 = pti va) as ->; [|done].
  change 0xfff with (Z.ones 12). rewrite Z.land_ones by lia. change (2 ^ 12) with 4096. rewrite Z.add_mod, Hm, Z.add_0_l, Z.mod_mod, Z.mod_small by lia.
  replace (1024 * j + 4 * x) with ((256 * j + x) * 4) by lia. rewrite Z.div_mul by lia. rewrite pti_eq. unfold j, x.
  replace (va / 2 ^ 20) with (va / 4096 / 256) by (rewrite Z.div_div by lia; done). rewrite (Z.rem_mul_r _ 256 4) by lia. lia.
Qed.

(** ** Address spaces

    The kernel's directory holds the tables from [VADDR_KERNEL] on; every other
    directory those below. *)
Definition kernel_sp : loc := 1.
Record system := System { sys_t : tables; spaces : gmap loc (list Z) }.
Definition in_range (k : loc) (g : Z) : Prop := if decide (k = kernel_sp) then 768 <= g < 1024 else 0 <= g < 768.

(** What the spaces should show: for every space the mapped pages. *)
Abbreviation views := (gmap loc (gmap Z (Z * Z))).
Definition shown (M : views) (k : loc) (n : Z) : option (Z * Z) := m ← M !! k; m !! n.
Definition show (k : loc) (n : Z) (x : option (Z * Z)) (M : views) : views :=
  <[k := match x with Some e => <[n := e]> (default ∅ (M !! k)) | None => delete n (default ∅ (M !! k)) end]> M.

Lemma shown_show M k n x k' n' : shown (show k n x M) k' n' = if decide (k' = k /\ n' = n) then x else shown M k' n'.
Proof.
  unfold shown, show. destruct (decide (k' = k)) as [->|].
  2: { rewrite lookup_insert_ne by done. rewrite decide_False by tauto. done. }
  rewrite lookup_insert_eq. cbn. destruct (decide (n' = n)) as [->|].
  - rewrite decide_True by done. destruct x; [by rewrite lookup_insert_eq|by rewrite lookup_delete_eq].
  - rewrite decide_False by tauto. destruct x; [rewrite lookup_insert_ne by done|rewrite lookup_delete_ne by done]; by destruct (M !! k).
Qed.

Inductive pm_op :=
| PEnter (k : loc) (cur : bool) (pa va attr : Z) (alloc : option Z)
| PRemove (k : loc) (va : Z)
| PCreate (k : loc)
| PDrop (k : loc).

Definition pm_step (s : system) (o : pm_op) : res (system * Z) :=
  match o with
  | PEnter k cur pa va attr alloc =>
      let? pd := deref (spaces s !! k) in
      let? (t, pd, e) := pmap_enter (sys_t s) pd cur pa va attr alloc in
      Ok (System t (<[k := pd]> (spaces s)), e)
  | PRemove k va =>
      let? pd := deref (spaces s !! k) in
      let? (t, e) := pmap_remove (sys_t s) pd va in
      Ok (System t (spaces s), e)
  | PCreate k =>
      let? kpd := deref (spaces s !! kernel_sp) in
      Ok (System (sys_t s) (<[k := pmap_create kpd]> (spaces s)), EOK)
  | PDrop k => Ok (System (sys_t s) (delete k (spaces s)), EOK)
  end.

(** The page allocator hands out pages that hold no table. *)
Definition is_table (s : system) (k : loc) (g f : Z) : Prop := exists pd l, spaces s !! k = Some pd /\ in_range k g /\ table_at (sys_t s) pd g f l.
Definition free_frame (s : system) (f : Z) : Prop :=
  0 < f < 2 ^ 32 /\ f mod 4096 = 0 /\ is_Some (frames (sys_t s) !! f) /\ forall k g, ~ is_table s k g f.

Definition pm_legal (s : system) (o : pm_op) : Prop :=
  match o with
  | PEnter k cur pa va attr alloc => is_Some (spaces s !! k) /\ 0 <= va < 2 ^ 32 /\ in_range k (va / 2 ^ 22) /\ 0 <= pa < 2 ^ 32 /\
      (forall f, alloc = Some f -> free_frame s f)
  | PRemove k va => is_Some (spaces s !! k) /\ 0 <= va < 2 ^ 32 /\ in_range k (va / 2 ^ 22)
  | PCreate k => k <> kernel_sp /\ is_Some (spaces s !! kernel_sp) /\ spaces s !! k = None
  | PDrop k => k <> kernel_sp
  end.

(** What a call that returned [e] changes. *)
Definition pm_spec (M : views) (o : pm_op) (e : Z) : views :=
  match o with
  | PEnter k _ pa va attr _ => if e =? EOK then show k (va / 4096) (entry_of pa attr) M else M
  | PRemove k va => show k (va / 4096) None M
  | PCreate k => <[k := ∅]> M
  | PDrop k => delete k M
  end.

Definition group_ok (t : tables) (pd : list Z) (M : views) (k : loc) (g : Z) : Prop :=
  (no_table pd g /\ forall i, 0 <= i < 1024 -> shown M k (1024 * g + i) = None) \/
  (exists f l, table_at t pd g f l /\ forall i, 0 <= i < 1024 -> l !! Z.to_nat i = Some (word_of (shown M k (1024 * g + i)))).

Record pm_inv (s : system) (M : views) : Prop := {
  pm_len : forall k pd, spaces s !! k = Some pd -> length pd = 4096%nat;
  pm_group : forall k pd g, spaces s !! k = Some pd -> in_range k g -> group_ok (sys_t s) pd M k g;
  pm_alone : forall k1 g1 k2 g2 f, is_table s k1 g1 f -> is_table s k2 g2 f -> k1 = k2 /\ g1 = g2;
  pm_entry : forall k n, entry_ok (shown M k n)
}.

(** A table is determined by its directory. *)
Lemma table_at_eq t1 t2 pd g f1 l1 f2 l2 : table_at t1 pd g f1 l1 -> table_at t2 pd g f2 l2 -> f1 = f2.
Proof. intros [_ H1 _ _] [_ H2 _ _]. specialize (H1 0 ltac:(lia)). specialize (H2 0 ltac:(lia)). rewrite H1 in H2. injection H2. lia. Qed.

Lemma no_table_at t pd g f l : no_table pd g -> table_at t pd g f l -> False.
Proof. intros H1 [[? _] H2 _ _]. specialize (H1 0 ltac:(lia)). specialize (H2 0 ltac:(lia)). rewrite H1 in H2. injection H2. lia. Qed.

(** A store into a page that is not this table leaves the table. *)
Lemma table_at_frame (t t' : tables) pd g f l : table_at t pd g f l -> frames t' !! f = frames t !! f -> table_at t' pd g f l.
Proof. intros [? ? Hp ?] E. split; try done. by rewrite E. Qed.

(** One word of a table changes. *)
Lemma write_inv t sp M k pd g f l i x sps : pm_inv (System t sps) M -> sps !! k = Some pd -> in_range k g -> table_at t pd g f l ->
  0 <= i < 1024 -> entry_ok x ->
  pm_inv (System (Tables (<[f := <[Z.to_nat i := word_of x]> l]> (frames t)) sp) sps) (show k (1024 * g + i) x M).
Proof.
  intros Hi Hk Hg Ht Hii Hx. pose proof Ht as [Hf Hw Hp Hl]. set (t' := Tables _ sp).
  assert (forall k' pd' g' f' l', sps !! k' = Some pd' -> in_range k' g' -> table_at t pd' g' f' l' -> (k' = k /\ g' = g /\ f' = f) \/ f' <> f) as Hsplit.
  { intros k' pd' g' f' l' Hk' Hg' Ht'. destruct (decide (f' = f)) as [->|]; [left|by right].
    destruct (pm_alone _ _ Hi k' g' k g f) as [-> ->]; [by exists pd', l'|by exists pd, l|done]. }
  assert (table_at t' pd g f (<[Z.to_nat i := word_of x]> l)) as Ht2.
  { split; [done|done|cbn; by rewrite lookup_insert_eq|by rewrite length_insert]. }
  assert (forall k' pd' g' f' l', sps !! k' = Some pd' -> in_range k' g' -> table_at t' pd' g' f' l' -> exists l2, table_at t pd' g' f' l2) as Hback.
  { intros k' pd' g' f' l' Hk' Hg' Ht'. destruct (pm_group _ _ Hi k' pd' g' Hk' Hg') as [[Hn _]|(f2 & l2 & Ht3 & _)]; [by edestruct no_table_at|].
    rewrite <- (table_at_eq _ _ _ _ _ _ _ _ Ht3 Ht'). eauto. }
  split; cbn [spaces sys_t].
  - apply (pm_len _ _ Hi).
  - intros k' pd' g' Hk' Hg'. destruct (pm_group _ _ Hi k' pd' g' Hk' Hg') as [[Hn Hs]|(f' & l' & Ht' & Hs)].
    + left. split; [done|]. intros i' Hi'. rewrite shown_show. rewrite decide_False; [by apply Hs|]. intros [-> E].
      assert (g' = g) as -> by lia. cbn in Hk'. rewrite Hk in Hk'. injection Hk' as <-. by eapply no_table_at.
    + right. destruct (Hsplit _ _ _ _ _ Hk' Hg' Ht') as [(-> & -> & ->)|Hne].
      * cbn in Hk'. rewrite Hk in Hk'. injection Hk' as <-. cbn in Ht'. rewrite (ta_page _ _ _ _ _ Ht') in Hp. injection Hp as <-. exists f. eexists. split; [done|].
        intros i' Hi'. rewrite shown_show. destruct (decide (i' = i)) as [->|].
        -- rewrite decide_True by done. apply list_lookup_insert_eq. lia.
        -- rewrite decide_False by lia. rewrite list_lookup_insert_ne by lia. by apply Hs.
      * exists f', l'. split; [eapply table_at_frame; [done|]; cbn; by rewrite lookup_insert_ne|]. intros i' Hi'. rewrite shown_show.
        rewrite decide_False; [by apply Hs|]. intros [-> E]. assert (g' = g) as -> by lia. cbn in Hk'. rewrite Hk in Hk'. injection Hk' as <-.
        by destruct Hne; eapply table_at_eq.
  - intros k1 g1 k2 g2 f' (pd1 & l1 & Hk1 & Hg1 & Ht1) (pd2 & l2' & Hk2 & Hg2 & Ht2'). destruct (Hback _ _ _ _ _ Hk1 Hg1 Ht1) as [? ?].
    destruct (Hback _ _ _ _ _ Hk2 Hg2 Ht2') as [? ?]. by apply (pm_alone _ _ Hi k1 g1 k2 g2 f'); [exists pd1|exists pd2]; eauto.
  - intros k' n. rewrite shown_show. case_decide; [done|apply (pm_entry _ _ Hi)].
Qed.

Lemma addTable_spec pd va f : length pd = 4096%nat -> 0 <= va < 2 ^ 32 -> 0 < f < 2 ^ 32 -> f mod 4096 = 0 ->
  length (_pmap_addTable pd (pdi va) f) = 4096%nat /\
  (forall j, 0 <= j < 4 -> _pmap_addTable pd (pdi va) f !! Z.to_nat (4 * (va / 2 ^ 22) + j) = Some (f + 1 + 1024 * j)) /\
  (forall n, ~ 4 * (va / 2 ^ 22) <= Z.of_nat n < 4 * (va / 2 ^ 22) + 4 -> _pmap_addTable pd (pdi va) f !! n = pd !! n).
Proof.
  intros Hl Hva Hf Hm. pose proof (frame_top f ltac:(lia) Hm). pose proof (group_bounds va Hva) as Hg. set (g := va / 2 ^ 22) in *.
  unfold _pmap_addTable. replace (frame_of f) with f by (rewrite <- (Z.add_0_r f) at 2; rewrite frame_of_add; lia).
  rewrite (lor_low 12) by (done || lia). pose proof (Z.mod_pos_bound (va / 2 ^ 20) 4). pose proof (pdi_eq va) as Ep. fold g in Ep.
  rewrite (land_high 2), Ep by lia. change (2 ^ 2) with 4.
  replace ((4 * g + (va / 2 ^ 20) mod 4) / 4) with g by (rewrite Z.mul_comm, Z.div_add_l, Z.div_small by lia; lia). rewrite !u32_small by lia.
  split; [by rewrite !length_insert|]. split.
  - intros j Hj. assert (j = 0 \/ j = 1 \/ j = 2 \/ j = 3) as [-> | [-> | [-> | ->]]] by lia;
      repeat (rewrite list_lookup_insert_ne by lia);
      (match goal with |- <[?a := _]> _ !! ?b = _ => replace b with a by lia end); rewrite list_lookup_insert_eq by (rewrite ?length_insert; lia); f_equal; lia.
  - intros n Hn. by rewrite !list_lookup_insert_ne by lia.
Qed.

(** Giving the directory of [k] a table for the group of [va] leaves the words of
    all other groups. *)
Lemma other_words (sps : gmap loc (list Z)) k pd pd' (g : Z) : sps !! k = Some pd -> 0 <= g ->
  (forall n, ~ 4 * g <= Z.of_nat n < 4 * g + 4 -> pd' !! n = pd !! n) ->
  forall k' g' pd2, <[k := pd']> sps !! k' = Some pd2 -> in_range k' g' -> ~ (k' = k /\ g' = g) ->
  exists pd1, sps !! k' = Some pd1 /\ forall j, 0 <= j < 4 -> pd1 !! Z.to_nat (4 * g' + j) = pd2 !! Z.to_nat (4 * g' + j).
Proof.
  intros Hk Hg Ho k' g' pd2 Hk' Hg' Hne. assert (0 <= g') by (unfold in_range in Hg'; case_decide; lia).
  destruct (decide (k' = k)) as [->|]; [|rewrite lookup_insert_ne in Hk' by done; by exists pd2].
  rewrite lookup_insert_eq in Hk'. injection Hk' as <-. exists pd. split; [done|]. intros j Hj. symmetry. apply Ho. lia.
Qed.

Lemma add_inv t sp M k pd va f sps : pm_inv (System t sps) M -> sps !! k = Some pd -> in_range k (va / 2 ^ 22) -> no_table pd (va / 2 ^ 22) ->
  0 <= va < 2 ^ 32 -> free_frame (System t sps) f ->
  let t' := Tables (<[f := replicate 1024 0]> (frames t)) sp in let pd' := _pmap_addTable pd (pdi va) f in
  pm_inv (System t' (<[k := pd']> sps)) M /\ table_at t' pd' (va / 2 ^ 22) f (replicate 1024 0).
Proof.
  intros Hi Hk Hg Hn Hva (Hf & Hm & _ & Hfree) t' pd'. set (g := va / 2 ^ 22) in *.
  destruct (addTable_spec pd va f (pm_len _ _ Hi k pd Hk) Hva Hf Hm) as (Hl & Hw & Ho). fold g pd' in Hl, Hw, Ho.
  assert (table_at t' pd' g f (replicate 1024 0)) as Ht by (split; [done|done|cbn; by rewrite lookup_insert_eq|done]). split; [|done].
  pose proof (other_words sps k pd pd' g Hk ltac:(pose proof (group_bounds va Hva); lia) Ho) as Hpd.
  assert (forall k' g' pd2 f' l', <[k := pd']> sps !! k' = Some pd2 -> in_range k' g' -> table_at t' pd2 g' f' l' ->
            (k' = k /\ g' = g /\ f' = f) \/ is_table (System t sps) k' g' f') as Hback.
  { intros k' g' pd2 f' l' Hk' Hg' Ht'. destruct (decide (k' = k /\ g' = g)) as [[-> ->]|Hne].
    { left. rewrite lookup_insert_eq in Hk'. injection Hk' as <-. split_and!; [done..|by eapply table_at_eq]. }
    right. destruct (Hpd k' g' pd2 Hk' Hg' Hne) as (pd1 & Hk1 & Hj). specialize (Hj 0 ltac:(lia)).
    pose proof (ta_words _ _ _ _ _ Ht' 0 ltac:(lia)) as Hw'. pose proof (ta_frame _ _ _ _ _ Ht') as [? _].
    destruct (pm_group _ _ Hi k' pd1 g' Hk1 Hg') as [[Hn' _]|(f2 & l2 & Ht2 & _)].
    - specialize (Hn' 0 ltac:(lia)). rewrite Hj, Hw' in Hn'. injection Hn'. lia.
    - exists pd1, l2. split; [done|]. split; [done|]. assert (f2 = f') as <-; [|done].
      pose proof (ta_words _ _ _ _ _ Ht2 0 ltac:(lia)) as Hw2. rewrite Hj, Hw' in Hw2. injection Hw2. lia. }
  split; cbn [spaces sys_t].
  - intros k' pd2 Hk'. destruct (decide (k' = k)) as [->|]; [rewrite lookup_insert_eq in Hk'; by injection Hk' as <-|].
    rewrite lookup_insert_ne in Hk' by done. by apply (pm_len _ _ Hi k').
  - intros k' pd2 g' Hk' Hg'. destruct (decide (k' = k /\ g' = g)) as [[-> ->]|Hne].
    { rewrite lookup_insert_eq in Hk'. injection Hk' as <-. right. exists f, (replicate 1024 0). split; [done|]. intros i Hii.
      destruct (pm_group _ _ Hi k pd g Hk Hg') as [[_ Hs]|(? & ? & ? & _)]; [|by edestruct no_table_at].
      rewrite Hs by done. apply lookup_replicate_2. lia. }
    destruct (Hpd k' g' pd2 Hk' Hg' Hne) as (pd1 & Hk1 & Hj).
    destruct (pm_group _ _ Hi k' pd1 g' Hk1 Hg') as [[Hn' Hs]|(f2 & l2 & Ht2 & Hs)].
    + left. split; [|done]. intros j Hjj. rewrite <- Hj by done. by apply Hn'.
    + right. exists f2, l2. split; [|done]. pose proof Ht2 as [? Hw2 Hp2 ?]. split; [done| | |done].
      * intros j Hjj. rewrite <- Hj by done. by apply Hw2.
      * cbn. rewrite lookup_insert_ne; [done|]. intros <-. destruct (Hfree k' g'). by exists pd1, l2.
  - intros k1 g1 k2 g2 f' (pd1 & l1 & Hk1 & Hg1 & Ht1) (pd2 & l2 & Hk2 & Hg2 & Ht2).
    destruct (Hback _ _ _ _ _ Hk1 Hg1 Ht1) as [(-> & -> & E1)|T1]; destruct (Hback _ _ _ _ _ Hk2 Hg2 Ht2) as [(-> & -> & E2)|T2].
    + done.
    + destruct (Hfree k2 g2). by rewrite <- E1.
    + destruct (Hfree k1 g1). by rewrite <- E2.
    + by apply (pm_alone _ _ Hi k1 g1 k2 g2 f').
  - apply (pm_entry _ _ Hi).
Qed.

(** ** The calls *)
Lemma same_sp t sps M sp : pm_inv (System t sps) M -> pm_inv (System (Tables (frames t) sp) sps) M.
Proof.
  intros [H1 H2 H3 H4]. assert (forall pd g f l, table_at t pd g f l <-> table_at (Tables (frames t) sp) pd g f l) as Ht.
  { intros pd g f l. split; intros [? ? ? ?]; by split. }
  split; [done| | |done].
  - intros k pd g Hk Hg. destruct (H2 k pd g Hk Hg) as [?|(f & l & ? & ?)]; [by left|right]. exists f, l. by rewrite <- Ht.
  - intros k1 g1 k2 g2 f (pd1 & l1 & Hk1 & Hg1 & Ht1) (pd2 & l2 & Hk2 & Hg2 & Ht2). cbn in *. rewrite <- Ht in Ht1, Ht2.
    apply (H3 k1 g1 k2 g2 f); [by exists pd1, l1|by exists pd2, l2].
Qed.

(** [_pmap_writeEntry] into the table of [va]. *)
Lemma writeEntry_ok t sps M k pd va pa attr f l : pm_inv (System t sps) M -> sps !! k = Some pd -> in_range k (va / 2 ^ 22) ->
  table_at t pd (va / 2 ^ 22) f l -> sptab t = f -> 0 <= pa < 2 ^ 32 ->
  exists t', _pmap_writeEntry t va pa attr = Ok t' /\ pm_inv (System t' sps) (show k (va / 4096) (entry_of pa attr) M).
Proof.
  intros Hi Hk Hg Ht Hsp Hpa. unfold _pmap_writeEntry. rewrite entry_word_eq by done. cbn [rbind]. unfold sp_write. pose proof Ht as [_ _ Hp Hl].
  rewrite Hsp, Hp. cbn [deref rbind]. pose proof (Z.mod_pos_bound (va / 4096) 1024). rewrite pti_eq, decide_True by lia.
  eexists. split; [done|]. pose proof (write_inv t f M k pd _ f l ((va / 4096) mod 1024) (entry_of pa attr) sps Hi Hk Hg Ht ltac:(lia) (entry_of_ok _ _ Hpa)) as Hi'.
  by rewrite <- page_split in Hi'.
Qed.

Lemma table_enter_ok t sps M k pd cur pa va attr alloc : pm_inv (System t sps) M -> sps !! k = Some pd -> in_range k (va / 2 ^ 22) -> 0 <= va < 2 ^ 32 ->
  0 <= pa < 2 ^ 32 -> (forall f, alloc = Some f -> free_frame (System t sps) f) ->
  exists t' pd' e, pmap_enter t pd cur pa va attr alloc = Ok (t', pd', e) /\
    pm_inv (System t' (<[k := pd']> sps)) (if e =? EOK then show k (va / 4096) (entry_of pa attr) M else M) /\
    (e = EOK \/ e = - EFAULT /\ alloc = None /\ no_table pd (va / 2 ^ 22) /\ t' = t /\ pd' = pd).
Proof.
  intros Hi Hk Hg Hva Hpa Hal. unfold pmap_enter.
  assert (forall t0 pd0 f l, pm_inv (System t0 (<[k := pd0]> sps)) M -> table_at t0 pd0 (va / 2 ^ 22) f l -> sptab t0 = f ->
    exists t', (let? t := _pmap_writeEntry t0 va pa attr in
      if negb (has attr PGHD_PRESENT) then Ok (t, pd0, EOK)
      else if (has attr PGHD_EXEC || has attr PGHD_NOT_CACHED || has attr PGHD_DEV) && negb cur then Ok (_pmap_mapScratch t pa, pd0, EOK) else Ok (t, pd0, EOK))
      = Ok (t', pd0, EOK) /\ pm_inv (System t' (<[k := pd0]> sps)) (show k (va / 4096) (entry_of pa attr) M)) as Hwr.
  { intros t0 pd0 f l Hi0 Ht0 Hs0. destruct (writeEntry_ok t0 _ M k pd0 va pa attr f l Hi0) as (t1 & -> & Hi1); [by rewrite lookup_insert_eq|done..|].
    cbn [rbind]. destruct (negb _); [eauto|]. destruct (_ && _); [|eauto]. eexists. split; [done|]. by apply same_sp. }
  destruct (pm_group _ _ Hi k pd _ Hk Hg) as [[Hn _]|(f & l & Ht & _)].
  - rewrite (pd_at_none _ _ Hn). cbn [rbind Z.eqb]. destruct alloc as [a|].
    + specialize (Hal a eq_refl). pose proof Hal as (Ha & Hm & [l0 Hl0] & _). pose proof (frame_top a). change (_pmap_mapScratch t a) with (Tables (frames t) (frame_of a)).
      unfold sp_clear. cbn [sptab frames] in *.
      replace (frame_of a) with a by (rewrite <- (Z.add_0_r a) at 2; rewrite frame_of_add; lia). cbn in Hl0. rewrite Hl0. cbn [deref rbind].
      destruct (add_inv t a M k pd va a sps Hi Hk Hg Hn Hva Hal) as [Hi1 Ht1]. destruct (Hwr _ _ _ _ Hi1 Ht1 eq_refl) as (t' & -> & Hi').
      eexists _, _, _. split; [done|]. split; [done|by left].
    + eexists _, _, _. split; [done|]. split; [cbn; by rewrite insert_id|]. right. by split_and!.
  - destruct (pd_at_table _ _ _ _ _ Ht) as (e & -> & E0 & Ef & _). cbn [rbind]. rewrite E0. cbn [rbind].
    destruct (Hwr (_pmap_mapScratch t e) pd f l) as (t' & -> & Hi'); [rewrite insert_id by done; by apply same_sp|by destruct Ht|done|].
    eexists _, _, _. split; [done|]. split; [done|by left].
Qed.

Lemma remove_ok t sps M k pd va : pm_inv (System t sps) M -> sps !! k = Some pd -> in_range k (va / 2 ^ 22) -> 0 <= va < 2 ^ 32 ->
  exists t', pmap_remove t pd va = Ok (t', EOK) /\ pm_inv (System t' sps) (show k (va / 4096) None M).
Proof.
  intros Hi Hk Hg Hva. unfold pmap_remove. assert (shown M k (va / 4096) = None -> forall t', pm_inv (System t' sps) M -> pm_inv (System t' sps) (show k (va / 4096) None M)) as Hsame.
  { intros Hs t' Hi'. assert (forall k' n, shown (show k (va / 4096) None M) k' n = shown M k' n) as Hv.
    { intros k' n. rewrite shown_show. case_decide as Hd; [|done]. by destruct Hd as [-> ->]. }
    destruct Hi' as [H1 H2 H3 H4]. split; [done| |done|intros; by rewrite Hv]. intros k' pd' g' Hk' Hg'.
    destruct (H2 k' pd' g' Hk' Hg') as [[? Hx]|(f & l & ? & Hx)]; [left|right].
    - split; [done|]. intros i Hi'. rewrite Hv. by apply Hx.
    - exists f, l. split; [done|]. intros i Hi'. rewrite Hv. by apply Hx. }
  pose proof (Z.mod_pos_bound (va / 4096) 1024) as Hmod. destruct (pm_group _ _ Hi k pd _ Hk Hg) as [[Hn Hs]|(f & l & Ht & Hs)].
  - rewrite (pd_at_none _ _ Hn). eexists. split; [done|]. apply Hsame; [|done]. rewrite <- (Hs ((va / 4096) mod 1024)) by lia. by rewrite <- page_split.
  - destruct (pd_at_table _ _ _ _ _ Ht) as (e & -> & E0 & Ef & _). cbn [rbind]. rewrite E0. unfold sp_read, _pmap_mapScratch. cbn [frames sptab].
    pose proof Ht as [_ _ Hp _]. rewrite Ef. cbn in Hp. rewrite Hp. cbn [deref rbind]. rewrite pti_eq, Hs, <- page_split by lia. cbn [deref rbind].
    destruct (Z.eqb_spec (word_of (shown M k (va / 4096))) 0) as [E|E].
    + eexists. split; [done|]. apply Hsame; [|by apply same_sp]. pose proof (pm_entry _ _ Hi k (va / 4096)) as He.
      destruct (shown M k (va / 4096)) as [[f' a']|]; [|done]. cbn in He, E. lia.
    + destruct (writeEntry_ok (Tables (frames t) f) sps M k pd va 0 0 f l) as (t' & -> & Hi'); [by apply same_sp|done|done|by destruct Ht|done|lia|].
      eexists. split; [done|]. exact Hi'.
Qed.

Lemma space_create_ok t sps M k kpd : pm_inv (System t sps) M -> sps !! kernel_sp = Some kpd -> k <> kernel_sp -> sps !! k = None ->
  pm_inv (System t (<[k := pmap_create kpd]> sps)) (<[k := ∅]> M).
Proof.
  intros Hi Hkp Hk Hfree. pose proof (pm_len _ _ Hi _ _ Hkp) as Hl.
  assert (forall g, in_range k g -> no_table (pmap_create kpd) g) as Hno.
  { intros g Hg j Hj. unfold in_range in Hg. rewrite decide_False in Hg by done. unfold pmap_create.
    change user_words with 3072%nat. rewrite lookup_app_l by (rewrite length_replicate; lia). apply lookup_replicate_2. lia. }
  assert (forall k' n, shown (<[k := ∅]> M) k' n = if decide (k' = k) then None else shown M k' n) as Hsh.
  { intros k' n. unfold shown. rewrite lookup_insert. repeat case_decide; by subst. }
  assert (forall k' g f, is_table (System t (<[k := pmap_create kpd]> sps)) k' g f -> is_table (System t sps) k' g f) as Hback.
  { intros k' g f (pd & l & Hk' & Hg & Ht). cbn in Hk'. rewrite lookup_insert in Hk'. case_decide; [|by exists pd, l].
    injection Hk' as <-. subst. by edestruct no_table_at; [apply Hno|]. }
  split; cbn [spaces sys_t].
  - intros k' pd Hk'. rewrite lookup_insert in Hk'. case_decide; [|by apply (pm_len _ _ Hi k')]. injection Hk' as <-. unfold pmap_create.
    rewrite length_app, length_replicate, length_drop, Hl. done.
  - intros k' pd g Hk' Hg. rewrite lookup_insert in Hk'. case_decide as Hd.
    + injection Hk' as <-. subst k'. left. split; [by apply Hno|]. intros i _. rewrite Hsh. by rewrite decide_True.
    + destruct (pm_group _ _ Hi k' pd g Hk' Hg) as [[? Hs]|(f & l & ? & Hs)]; [left|right].
      * split; [done|]. intros i Hii. rewrite Hsh, decide_False by done. by apply Hs.
      * exists f, l. split; [done|]. intros i Hii. rewrite Hsh, decide_False by done. by apply Hs.
  - intros k1 g1 k2 g2 f T1%Hback T2%Hback. by apply (pm_alone _ _ Hi k1 g1 k2 g2 f).
  - intros k' n. rewrite Hsh. case_decide; [done|apply (pm_entry _ _ Hi)].
Qed.

Lemma drop_ok t sps M k : pm_inv (System t sps) M -> pm_inv (System t (delete k sps)) (delete k M).
Proof.
  intros Hi. assert (forall k' n, shown (delete k M) k' n = if decide (k' = k) then None else shown M k' n) as Hsh.
  { intros k' n. unfold shown. destruct (decide (k' = k)) as [->|]; [by rewrite lookup_delete_eq|by rewrite lookup_delete_ne]. }
  split; cbn [spaces sys_t].
  - intros k' pd [_ Hk']%lookup_delete_Some. by apply (pm_len _ _ Hi k').
  - intros k' pd g [Hne Hk']%lookup_delete_Some Hg.
    destruct (pm_group _ _ Hi k' pd g Hk' Hg) as [[? Hs]|(f & l & ? & Hs)]; [left|right].
    + split; [done|]. intros i Hii. rewrite Hsh, decide_False by done. by apply Hs.
    + exists f, l. split; [done|]. intros i Hii. rewrite Hsh, decide_False by done. by apply Hs.
  - intros k1 g1 k2 g2 f (pd1 & l1 & Hk1 & Hg1 & Ht1) (pd2 & l2 & Hk2 & Hg2 & Ht2). cbn in Hk1, Hk2.
    apply lookup_delete_Some in Hk1 as [_ Hk1]. apply lookup_delete_Some in Hk2 as [_ Hk2].
    apply (pm_alone _ _ Hi k1 g1 k2 g2 f); [by exists pd1, l1|by exists pd2, l2].
  - intros k' n. rewrite Hsh. case_decide; [done|apply (pm_entry _ _ Hi)].
Qed.

(** The kernel starts with tables that show [M], of the kernel's space alone. *)
Inductive pm_reach : system -> views -> Prop :=
| pm_boot t kpd M : pm_inv (System t {[kernel_sp := kpd]}) M -> pm_reach (System t {[kernel_sp := kpd]}) M
| pm_call s M o s' e : pm_reach s M -> pm_legal s o -> pm_step s o = Ok (s', e) -> pm_reach s' (pm_spec M o e).

Lemma pm_step_ok s M o : pm_inv s M -> pm_legal s o ->
  exists s' e, pm_step s o = Ok (s', e) /\ pm_inv s' (pm_spec M o e) /\ (e = EOK \/ e = - EFAULT /\ s' = s).
Proof.
  intros Hi Hl. destruct s as [t sps]. destruct o as [k cur pa va attr alloc|k va|k|k]; cbn [pm_legal pm_step pm_spec spaces sys_t] in *.
  - destruct Hl as ([pd Hk] & Hva & Hg & Hpa & Hal). rewrite Hk. cbn [deref rbind].
    destruct (table_enter_ok t sps M k pd cur pa va attr alloc Hi Hk Hg Hva Hpa Hal) as (t' & pd' & e & -> & Hi' & He). cbn [rbind].
    eexists _, _. split; [done|]. split; [done|]. destruct He as [|(-> & _ & _ & -> & ->)]; [by left|right]. by rewrite insert_id.
  - destruct Hl as ([pd Hk] & Hva & Hg). rewrite Hk. cbn [deref rbind]. destruct (remove_ok t sps M k pd va Hi Hk Hg Hva) as (t' & -> & Hi').
    cbn [rbind]. eexists _, _. split; [done|]. split; [done|by left].
  - destruct Hl as (Hne & [kpd Hk] & Hf). rewrite Hk. cbn [deref rbind]. eexists _, _. split; [done|]. split; [by apply space_create_ok|by left].
  - eexists _, _. split; [done|]. split; [by apply drop_ok|by left].
Qed.

Lemma pm_reach_inv s M : pm_reach s M -> pm_inv s M.
Proof.
  induction 1 as [t kpd M Hi|s M o s' e _ IH Hl Hs]; [done|]. destruct (pm_step_ok s M o IH Hl) as (s2 & e2 & E & Hi & _). congruence.
Qed.

Lemma walk_shown s M k pd va : pm_inv s M -> spaces s !! k = Some pd -> in_range k (va / 2 ^ 22) ->
  walk (sys_t s) pd va = (fun x => (x.1 + Z.land va 0xfff, x.2)) <$> shown M k (va / 4096) /\
  exists t', pmap_resolve (sys_t s) pd va = Ok (t', word_of (shown M k (va / 4096))).
Proof.
  intros Hi Hk Hg. pose proof (Z.mod_pos_bound (va / 4096) 1024) as Hm. pose proof (pm_entry _ _ Hi k (va / 4096)) as He. unfold pmap_resolve.
  destruct (pm_group _ _ Hi k pd _ Hk Hg) as [[Hn Hs]|(f & l & Ht & Hs)].
  - specialize (Hs _ (Hm ltac:(lia))). rewrite <- page_split in Hs. rewrite walk_none, (pd_at_none _ _ Hn), Hs by done. cbn. eauto.
  - specialize (Hs _ (Hm ltac:(lia))). rewrite <- page_split, <- pti_eq in Hs. rewrite (walk_table _ _ _ _ _ Ht), Hs. cbn [mbind option_bind].
    split.
    + etransitivity; [|apply (f_equal (fmap (fun x => (x.1 + Z.land va 0xfff, x.2))) (word_read _ He))]. by destruct (Z.testbit _ 1).
    + destruct (pd_at_table _ _ _ _ _ Ht) as (e & -> & E0 & Ef & _). cbn [rbind]. rewrite E0. unfold sp_read, _pmap_mapScratch. cbn [frames sptab].
      rewrite Ef, (ta_page _ _ _ _ _ Ht). cbn [deref rbind]. rewrite Hs. cbn. eauto.
Qed.


(** ** Permissions

    The access permissions of a small page (the model without access flag faults):
    bit 9 makes a page read-only, bit 5 with it or with bit 4 opens it to user
    mode; bit 0 forbids execution, bit 11 makes it private to the ASID. *)
Definition may (w : Z) (user write : bool) : bool :=
  match Z.testbit w 9, Z.testbit w 5, Z.testbit w 4 with
  | false, false, false => false
  | false, false, true => negb user
  | false, true, false => negb (user && write)
  | false, true, true => true
  | true, false, false => false
  | true, false, true => negb user && negb write
  | true, true, _ => negb write
  end.
Definition may_exec (w : Z) : bool := negb (Z.testbit w 0).
Definition private (w : Z) : bool := Z.testbit w 11.

Lemma has_low attr c : 0 <= c < 32 -> has (Z.land attr 0x1f) c = has attr c.
Proof.
  intros Hc. unfold has. f_equal. f_equal. rewrite <- Z.land_assoc. f_equal. rewrite Z.land_comm. change 0x1f with (Z.ones 5).
  rewrite Z.land_ones by lia. apply Z.mod_small. done.
Qed.

(** The words of [attrMap] grant what the attributes ask for: user mode reads a
    page iff it was entered with [PGHD_USER] and writes it iff with [PGHD_USER] and
    [PGHD_WRITE]; the kernel writes it iff with [PGHD_WRITE] and always reads it;
    it is executed iff with [PGHD_EXEC]; user pages are private to their ASID. *)
Theorem attr_permissions attr : let w := attr_word attr in
  may w true false = has attr PGHD_USER /\ may w true true = has attr PGHD_USER && has attr PGHD_WRITE /\ may w false true = has attr PGHD_WRITE /\
  may w false false = true /\ may_exec w = has attr PGHD_EXEC /\ private w = has attr PGHD_USER.
Proof.
  cbn zeta. rewrite <- !(has_low attr) by done. unfold attr_word. change 0x1f with (Z.ones 5). rewrite Z.land_ones by lia.
  pose proof (Z.mod_pos_bound attr (2 ^ 5) ltac:(lia)) as Hb. set (x := attr mod 2 ^ 5) in *. rewrite <- (Z2Nat.id x) by lia.
  assert (Z.to_nat x < 32)%nat as Hn by lia. rewrite Nat2Z.id. revert Hn. generalize (Z.to_nat x). intros n Hn.
  do 32 (destruct n as [|n]; [vm_compute; by split_and!|]). lia.
Qed.

(** ** Releasing the tables

    [vm_mapDestroy] calls [pmap_destroy] until it returns 0. *)
Fixpoint destroy_all (fuel : nat) (pd : list Z) (i : Z) : res (list Z) :=
  match fuel with
  | O => NoFuel
  | S fuel => let? (a, i) := pmap_destroy pd i in if a =? 0 then Ok [] else let? l := destroy_all fuel pd i in Ok (a :: l)
  end.

(** The pages of the tables of the groups from [g] on, in order. *)
Definition tables_from (pd : list Z) (g : Z) : list Z :=
  omap (fun g => match pd !! Z.to_nat (4 * g) with Some e => if e =? 0 then None else Some (frame_of e) | None => None end) (seqZ g (512 - g)).

Lemma omap_length_le {A B} (f : A -> option B) l : (length (omap f l) <= length l)%nat.
Proof. induction l as [|x l IH]; cbn; [lia|]. destruct (f x); cbn; lia. Qed.

Lemma NoDup_omap {A B} (f : A -> option B) l : NoDup l -> (forall x y z, x ∈ l -> y ∈ l -> f x = Some z -> f y = Some z -> x = y) -> NoDup (omap f l).
Proof.
  induction 1 as [|x l Hx _ IH]; intros Hinj; cbn; [constructor|].
  assert (NoDup (omap f l)) as Hl by (apply IH; intros; eapply Hinj; eauto; by right). destruct (f x) as [z|] eqn:E; [|done].
  constructor; [|done]. rewrite list_elem_of_omap. intros (y & Hy & Ey). destruct Hx. rewrite (Hinj x y z); [done|by left|by right|done|done].
Qed.

Lemma destroy_scan_spec pd : (forall g, 0 <= g < 512 -> no_table pd g \/ exists t f l, table_at t pd g f l) -> forall (fuel : nat) g, 0 <= g <= 512 ->
  512 - g < fuel -> exists a i, destroy_scan fuel pd (4 * g) = Ok (a, i) /\
    match tables_from pd g with [] => a = 0 | f :: r => a = f /\ f <> 0 /\ exists g', i = 4 * g' /\ g < g' <= 512 /\ r = tables_from pd g' end.
Proof.
  intros Hok. induction fuel as [|fuel IH]; intros g Hg Hf; [lia|]. cbn [destroy_scan]. change destroy_max with 2048.
  destruct (Z.ltb_spec (4 * g) 2048) as [Hlt|].
  - unfold tables_from. rewrite (seqZ_cons g) by lia. cbn [omap list_omap]. replace (Z.pred (512 - g)) with (512 - Z.succ g) by lia.
    destruct (Hok g ltac:(lia)) as [Hn|(t & f & l & Ht)].
    + unfold pd_at. pose proof (Hn 0 ltac:(lia)) as E. rewrite Z.add_0_r in E. rewrite E. cbn [deref rbind Z.eqb negb].
      replace (4 * g + 4) with (4 * Z.succ g) by lia. destruct (IH (Z.succ g) ltac:(lia) ltac:(lia)) as (a & i & -> & Hm). exists a, i. split; [done|].
      change (omap _ (seqZ (Z.succ g) (512 - Z.succ g))) with (tables_from pd (Z.succ g)). destruct (tables_from pd (Z.succ g)); [done|].
      destruct Hm as (? & ? & g' & ? & ? & ?). split_and!; [done..|]. exists g'. split_and!; (done || lia).
    + pose proof Ht as [[Hf0 Hm] Hw _ _]. pose proof (Hw 0 ltac:(lia)) as E. rewrite Z.mul_0_r, !Z.add_0_r in E. unfold pd_at. rewrite E. cbn [deref rbind].
      rewrite (proj2 (Z.eqb_neq (f + 1) 0)) by lia. cbn [negb]. pose proof (frame_top f). rewrite frame_of_add by lia. eexists _, _. split; [done|].
      split_and!; [done|lia|]. exists (Z.succ g). split_and!; [lia..|done].
  - exists 0, (4 * g). split; [done|]. unfold tables_from. replace g with 512 by lia. done.
Qed.

Lemma tables_destroy_spec pd : (forall g, 0 <= g < 512 -> no_table pd g \/ exists t f l, table_at t pd g f l) -> forall fuel g, 0 <= g <= 512 ->
  (length (tables_from pd g) < fuel)%nat -> destroy_all fuel pd (4 * g) = Ok (tables_from pd g).
Proof.
  intros Hok. induction fuel as [|fuel IH]; intros g Hg Hf; [lia|]. cbn [destroy_all]. unfold pmap_destroy.
  destruct (destroy_scan_spec pd Hok 513 g Hg ltac:(lia)) as (a & i & -> & Hm). cbn [rbind]. destruct (tables_from pd g) as [|f r]; [by subst|].
  destruct Hm as (-> & Hf0 & g' & -> & Hg' & ->). rewrite (proj2 (Z.eqb_neq f 0)) by done. cbn [length] in Hf. by rewrite IH by lia.
Qed.

(** The release of an address space gives back every page that holds one of its
    tables, each once, and no other. *)
Theorem destroy_returns_tables s M k pd : pm_reach s M -> spaces s !! k = Some pd -> k <> kernel_sp ->
  exists l, destroy_all 513 pd 0 = Ok l /\ NoDup l /\ forall f, f ∈ l <-> exists g, 0 <= g < 512 /\ is_table s k g f.
Proof.
  intros Hr Hk Hne. pose proof (pm_reach_inv _ _ Hr) as Hi.
  assert (forall g, 0 <= g < 512 -> in_range k g) as Hg by (intros; unfold in_range; rewrite decide_False by done; lia).
  assert (forall g, 0 <= g < 512 -> no_table pd g \/ exists t f l, table_at t pd g f l) as Hok.
  { intros g Hgg. destruct (pm_group _ _ Hi k pd g Hk (Hg g Hgg)) as [[? _]|(f & l & ? & _)]; [by left|right; eauto]. }
  assert (forall g f, 0 <= g < 512 -> (match pd !! Z.to_nat (4 * g) with Some e => if e =? 0 then None else Some (frame_of e) | None => None end) = Some f
            <-> is_table s k g f) as Hin.
  { intros g f Hgg. destruct (pm_group _ _ Hi k pd g Hk (Hg g Hgg)) as [[Hn _]|(f' & l & Ht & _)].
    - pose proof (Hn 0 ltac:(lia)) as E. rewrite Z.add_0_r in E. rewrite E. cbn. split; [done|]. intros (pd' & l & Hk' & _ & Ht'). simplify_eq. by edestruct no_table_at.
    - pose proof Ht as [[Hf0 Hm] Hw _ _]. pose proof (Hw 0 ltac:(lia)) as E. rewrite Z.mul_0_r, !Z.add_0_r in E. rewrite E.
      rewrite (proj2 (Z.eqb_neq (f' + 1) 0)) by lia. pose proof (frame_top f'). rewrite frame_of_add by lia. split.
      + intros [= <-]. exists pd, l. eauto.
      + intros (pd' & l' & Hk' & _ & Ht'). simplify_eq. f_equal. by eapply table_at_eq. }
  exists (tables_from pd 0). split.
  { apply (tables_destroy_spec pd Hok 513 0); [lia|]. unfold tables_from. eapply Nat.le_lt_trans; [apply omap_length_le|]. rewrite length_seqZ. lia. }
  split.
  - unfold tables_from. apply NoDup_omap; [apply NoDup_seqZ|]. intros g1 g2 f H1%elem_of_seqZ H2%elem_of_seqZ E1 E2.
    apply Hin in E1; [|lia]. apply Hin in E2; [|lia]. by apply (pm_alone _ _ Hi k g1 k g2 f).
  - intros f. unfold tables_from. rewrite list_elem_of_omap. split.
    + intros (g & Hgg%elem_of_seqZ & E). exists g. split; [lia|]. apply Hin; [lia|done].
    + intros (g & Hgg & T). exists g. rewrite elem_of_seqZ. split; [lia|]. apply Hin; [lia|done].
Qed.

(** ** A system with one table *)
Definition empty_pd : list Z := replicate 4096 0.
Definition demo_tables : tables := Tables {[65536 := replicate 1024 7]} 0.
Definition demo_kernel : system := System demo_tables {[kernel_sp := empty_pd]}.
Definition demo_user_space : system := System demo_tables (<[2%positive := pmap_create empty_pd]> {[kernel_sp := empty_pd]}).
Definition demo_enter : pm_op := PEnter 2 true 0x100000 0x8000 (Z.lor PGHD_PRESENT (Z.lor PGHD_USER PGHD_WRITE)) (Some 65536).

Lemma empty_no_table g : 0 <= g < 1024 -> no_table empty_pd g.
Proof. intros Hg j Hj. apply lookup_replicate_2. lia. Qed.

Lemma demo_boot_inv : pm_inv demo_kernel ∅.
Proof.
  split; cbn [spaces sys_t demo_kernel].
  - intros k pd [_ <-]%lookup_singleton_Some. reflexivity.
  - intros k pd g [<- <-]%lookup_singleton_Some Hg. left. split; [|done]. apply empty_no_table. unfold in_range in Hg. rewrite decide_True in Hg by done. lia.
  - intros k1 g1 k2 g2 f (pd & l & Hk & Hg & Ht). cbn [spaces demo_kernel] in Hk. apply lookup_singleton_Some in Hk as [<- <-]. edestruct no_table_at; [apply (empty_no_table g1)|exact Ht].
    unfold in_range in Hg. rewrite decide_True in Hg by done. lia.
  - done.
Qed.

Lemma demo_legal : pm_legal demo_user_space demo_enter.
Proof.
  cbn. split_and!; [by eexists|lia|lia|unfold in_range; rewrite decide_False by done; vm_compute; by split|lia|lia|]. intros f [= <-].
  split_and!; [lia|lia|done|by eexists|]. intros k g (pd & l & Hk & Hg & [[? _] Hw _ _]). specialize (Hw 0 ltac:(lia)). cbn in Hk.
  assert (pd = empty_pd) as ->.
  { rewrite lookup_insert in Hk. case_decide; [by injection Hk as <-|]. by apply lookup_singleton_Some in Hk as [_ <-]. }
  apply lookup_replicate in Hw as [Hw _]. lia.
Qed.

Lemma demo_space_reach : pm_reach demo_user_space (<[2%positive := ∅]> ∅).
Proof.
  apply (pm_call demo_kernel ∅ (PCreate 2) demo_user_space EOK); [by apply pm_boot, demo_boot_inv| |reflexivity].
  split_and!; [done|by eexists|done].
Qed.

