(* ===== verification/PageMap.v ===== *)
(** * Mapping of pages (src/vm/page.c over hal/armv7a/zynq7000/pmap.c)

    [_page_map] enters a page into the tables of an address space and gives them a
    page for a new table when one is missing; [_page_sbrk] extends the kernel's heap.
    [page_map_correct] composes the page allocator with the page tables. *)

From S2P Require Import Prelude LibList LibText Page PageOps Bits Pmap.

(** The physical address of the page passed for a table. *)
Definition alloc_addr (st : pages_t) (ap : option Z) : res (option Z) :=
  match ap with
  | None => Ok None
  | Some i => let? d := pg st i in Ok (Some (p_addr d))
  end.

(** [while (pmap_enter(...) < 0)] *)
Fixpoint page_map_loop (fuel : nat) (st : pages_t) (t : tables) (pd : list Z) (cur : bool) (vaddr pa attrs : Z) (ap : option Z)
    : res (pages_t * tables * list Z * Z) :=
  match fuel with
  | O => NoFuel
  | S fuel =>
      let? a := alloc_addr st ap in
      let? (t, pd, e) := pmap_enter t pd cur pa vaddr attrs a in
      if decide (e < 0) then
        let? (st, ap) := _page_alloc st SIZE_PAGE PAGE_KERNEL_PTABLE in
        match ap with
        | None => Ok (st, t, pd, - ENOMEM)
        | Some _ => page_map_loop fuel st t pd cur vaddr pa attrs ap
        end
      else Ok (st, t, pd, EOK)
  end.

(** Two attempts are enough: the tables have two levels. *)
Definition _page_map (st : pages_t) (t : tables) (pd : list Z) (cur : bool) (vaddr pa attrs : Z) : res (pages_t * tables * list Z * Z) :=
  page_map_loop 2 st t pd cur vaddr pa attrs None.

(** [page_map]: the same under the lock. *)
Definition page_map := _page_map.

(** [_page_sbrk]: one more page of kernel heap at [*end]; the new [*end]. *)
Definition _page_sbrk (st : pages_t) (t : tables) (pd : list Z) (cur : bool) (end_ : Z) : res (pages_t * tables * list Z * Z * Z) :=
  let? (st, np) := _page_alloc st SIZE_PAGE PAGE_KERNEL_HEAP in
  match np with
  | None => Ok (st, t, pd, end_, - ENOMEM)
  | Some np =>
      let? p := pg st np in
      let? (st, t, pd, e) := page_map_loop 2 st t pd cur end_ (p_addr p) (Z.lor PGHD_WRITE PGHD_PRESENT) None in
      if decide (e = EOK) then Ok (st, t, pd, u32 (end_ + SIZE_PAGE), EOK) else Ok (st, t, pd, end_, e)
  end.

(** ** The allocator's free pages hold no tables *)
Definition linked (st : pages_t) (s : system) : Prop :=
  forall j p, parr st !! j = Some p -> is_free p = true -> free_frame s (p_addr p).

Lemma sp_write_frames t i v t' : sp_write t i v = Ok t' -> forall f, is_Some (frames t !! f) -> is_Some (frames t' !! f).
Proof.
  unfold sp_write. intros (l & _ & E)%rbind_inv f Hf. case_decide; [|done]. injection E as <-. cbn. rewrite lookup_insert. by case_decide.
Qed.

(** What [pmap_enter] does to the directory and to the pages that hold tables. *)
Lemma enter_directory t pd cur pa va attr alloc t' pd' e e0 : pd_at pd (pdi va) = Ok e0 -> pmap_enter t pd cur pa va attr alloc = Ok (t', pd', e) ->
  (forall f, is_Some (frames t !! f) -> is_Some (frames t' !! f)) /\
  pd' = (if e0 =? 0 then match alloc with Some a => _pmap_addTable pd (pdi va) a | None => pd end else pd).
Proof.
  intros Ee. unfold pmap_enter. rewrite Ee. cbn [rbind]. intros (r & Hr & E)%rbind_inv.
  assert (forall t0 pd0, r = Some (t0, pd0) -> (forall f, is_Some (frames t !! f) -> is_Some (frames t0 !! f)) /\
            pd0 = (if e0 =? 0 then match alloc with Some a => _pmap_addTable pd (pdi va) a | None => pd end else pd)) as Hpd.
  { intros t0 pd0 ->. destruct (e0 =? 0); [|by injection Hr as <- <-]. destruct alloc as [a|]; [|done].
    apply rbind_inv in Hr as (t1 & H1 & [= <- <-]). split; [|done]. unfold sp_clear in H1. apply rbind_inv in H1 as (l & _ & [= <-]).
    intros f Hf. cbn. rewrite lookup_insert. by case_decide. }
  destruct r as [[t0 pd0]|].
  - destruct (Hpd t0 pd0 eq_refl) as [Hf ->]. apply rbind_inv in E as (t1 & H1 & E). unfold _pmap_writeEntry in H1. apply rbind_inv in H1 as (w & _ & H1).
    assert (forall f, is_Some (frames t !! f) -> is_Some (frames t1 !! f)) as Hf1 by (intros f Hx; eapply sp_write_frames; [exact H1|by apply Hf]).
    destruct (negb _); [by injection E as <- <- _|]. destruct (_ && _); by injection E as <- <- _.
  - injection E as <- <- _. split; [done|]. destruct (e0 =? 0); [|done]. destruct alloc; [|done]. apply rbind_inv in Hr as (? & _ & ?). done.
Qed.

(** A directory word says where a table is. *)
Lemma words_table t sps M k pd g f : pm_inv (System t sps) M -> sps !! k = Some pd -> in_range k g -> 0 < f ->
  pd !! Z.to_nat (4 * g) = Some (f + 1) -> is_table (System t sps) k g f.
Proof.
  intros Hi Hk Hg Hf Hw. destruct (pm_group _ _ Hi k pd g Hk Hg) as [[Hn _]|(f' & l & Ht & _)].
  - specialize (Hn 0 ltac:(lia)). rewrite Z.add_0_r, Hw in Hn. injection Hn. lia.
  - pose proof (ta_words _ _ _ _ _ Ht 0 ltac:(lia)) as E. rewrite Z.add_0_r, Hw in E. injection E as E. assert (f' = f) as -> by lia. exists pd, l. done.
Qed.
Lemma table_word s k g f : is_table s k g f -> exists pd, spaces s !! k = Some pd /\ in_range k g /\ 0 < f /\ pd !! Z.to_nat (4 * g) = Some (f + 1).
Proof.
  intros (pd & l & Hk & Hg & [[Hf _] Hw _ _]). exists pd. split_and!; [done|done|lia|]. specialize (Hw 0 ltac:(lia)). by rewrite Z.mul_0_r, !Z.add_0_r in Hw.
Qed.

Lemma in_range_bounds k g : in_range k g -> 0 <= g < 1024.
Proof. unfold in_range. case_decide; lia. Qed.

(** A page that is not used for the new table stays free of tables. *)
Lemma enter_keeps t sps M k pd cur pa va attr alloc t' pd' e f : pm_inv (System t sps) M -> sps !! k = Some pd -> 0 <= va < 2 ^ 32 ->
  (forall a, alloc = Some a -> free_frame (System t sps) a) ->
  pmap_enter t pd cur pa va attr alloc = Ok (t', pd', e) -> alloc <> Some f -> free_frame (System t sps) f -> free_frame (System t' (<[k := pd']> sps)) f.
Proof.
  intros Hi Hk Hva Hal E Hne (Hf & Hm & Hfr & Hnt).
  destruct (pd_at pd (pdi va)) as [e0| |] eqn:Ee; [|by unfold pmap_enter in E; rewrite Ee in E..].
  destruct (enter_directory _ _ _ _ _ _ _ _ _ _ _ Ee E) as [Hdom Epd]. split_and!; [lia|lia|done|by apply Hdom|].
  intros k2 g (pd2 & Hk2 & Hg & Hf0 & Hw)%table_word. cbn [spaces] in Hk2. apply (Hnt k2 g).
  destruct (decide (k2 = k)) as [->|Hnk]; [rewrite lookup_insert_eq in Hk2|rewrite lookup_insert_ne in Hk2 by done; by eapply words_table].
  injection Hk2 as <-. eapply words_table; [done..|]. rewrite Epd in Hw. destruct (e0 =? 0); [|done]. destruct alloc as [a|]; [|done].
  destruct (Hal a eq_refl) as (Ha & Ham & _). destruct (addTable_spec pd va a (pm_len _ _ Hi _ _ Hk) Hva Ha Ham) as (_ & H1 & H2).
  pose proof (in_range_bounds _ _ Hg). pose proof (group_bounds va Hva). destruct (decide (g = va / 2 ^ 22)) as [->|Hng].
  - specialize (H1 0 ltac:(lia)). rewrite Z.add_0_r, Hw in H1. injection H1 as H1. destruct Hne. f_equal. lia.
  - rewrite H2 in Hw by lia. done.
Qed.

Lemma enter_linked st t sps M k pd cur pa va attr alloc t' pd' e : linked st (System t sps) -> pm_inv (System t sps) M -> sps !! k = Some pd -> 0 <= va < 2 ^ 32 ->
  (forall a, alloc = Some a -> free_frame (System t sps) a /\ forall j p, parr st !! j = Some p -> is_free p = true -> p_addr p <> a) ->
  pmap_enter t pd cur pa va attr alloc = Ok (t', pd', e) -> linked st (System t' (<[k := pd']> sps)).
Proof.
  intros HL Hi Hk Hva Hal E j p Hj Hf. eapply enter_keeps; [done..| |exact E| |by eapply HL]; [intros a Ha; by apply Hal|].
  intros ->. destruct (Hal _ eq_refl) as [_ Hx]. by apply (Hx j p).
Qed.

(** No free block means no free page. *)
Lemma no_free_pages st al : page_inv st al ∅ -> (forall b, queued (sizes st) b -> (b.2 < 12)%nat) -> forall j p, parr st !! j = Some p -> is_free p = false.
Proof.
  intros HI Hq j p Hj. destruct (is_free p) eqn:E; [|done]. destruct (pi_cover _ _ _ HI _ _ Hj E) as (b & [Hb|Hb] & _); [|by apply not_elem_of_empty in Hb].
  destruct (pi_ok _ _ _ HI b (or_introl Hb)) as [Hc _ _ _]. specialize (Hq b Hb). lia.
Qed.

Lemma class_page : Z.to_nat (size_class SIZE_PAGE) = 12%nat.
Proof. reflexivity. Qed.

(** The page the allocator hands out for a table: it was free, all others that are
    free were free before. *)
Lemma table_page st al s : page_inv st al ∅ -> linked st s ->
  (exists st' i p, _page_alloc st SIZE_PAGE PAGE_KERNEL_PTABLE = Ok (st', Some (Z.of_nat i)) /\ page_inv st' ({[(i, 12%nat)]} ∪ al) ∅ /\
     parr st !! i = Some p /\ is_free p = true /\ (exists p', parr st' !! i = Some p' /\ p_addr p' = p_addr p) /\ free_frame s (p_addr p) /\ linked st' s /\
     forall j q, parr st' !! j = Some q -> is_free q = true -> p_addr q <> p_addr p) \/
  (_page_alloc st SIZE_PAGE PAGE_KERNEL_PTABLE = Ok (st, None) /\ forall j p, parr st !! j = Some p -> is_free p = false).
Proof.
  intros HI HL. destruct (page_alloc_spec st al SIZE_PAGE PAGE_KERNEL_PTABLE HI) as [(st' & i & E & HI' & _ & Hbf & Hl & Hrp)|[E Hq]];
    [by vm_compute|by vm_compute|by vm_compute| |right; split; [done|]; eapply no_free_pages; [exact HI|]; by rewrite <- class_page].
  rewrite class_page in *. left.
  assert (block_ok (parr st') (i, 12%nat)) as [_ _ (p' & Hp' & _) _] by (apply (pi_ok _ _ _ HI'); set_solver). cbn [fst] in Hp'.
  assert (is_free p' = false) as Hnf by (eapply (pi_alloc _ _ _ HI' (i, 12%nat) ltac:(set_solver) 0%nat); [apply npg_pos|cbn [fst]; by rewrite Nat.add_0_r]).
  destruct (Hrp _ _ Hp') as (p & Hp & Ea & _).
  assert (is_free p = true) as Hpf by (apply (Hbf 0%nat p); [apply npg_pos|cbn [fst]; by rewrite Nat.add_0_r]).
  assert (forall j q, parr st' !! j = Some q -> is_free q = true -> j <> i /\ exists q0, parr st !! j = Some q0 /\ p_addr q = p_addr q0 /\ is_free q0 = true) as Hother.
  { intros j q Hj Hq. assert (j <> i) as Hne by (intros ->; congruence). split; [done|]. destruct (Hrp _ _ Hj) as (q0 & Hq0 & Eq & Ef).
    cbn [fst snd] in Ef. change (npg 12) with 1%nat in Ef. rewrite decide_False in Ef by lia. exists q0. split_and!; [done|done|]. by rewrite <- (is_free_flags _ _ Ef). }
  exists st', i, p. split_and!; [done|done|done|done|by eauto|by eapply HL| |].
  - intros j q Hj Hq. destruct (Hother j q Hj Hq) as (_ & q0 & Hq0 & -> & Hf0). by eapply HL.
  - intros j q Hj Hq Ex. destruct (Hother j q Hj Hq) as (Hne & q0 & Hq0 & E0 & _). rewrite Ex in E0.
    destruct (Nat.lt_trichotomy i j) as [Hlt|[->|Hlt]]; [|done|].
    + pose proof (pi_sorted _ _ _ HI _ _ _ _ Hp Hq0 Hlt). lia.
    + pose proof (pi_sorted _ _ _ HI _ _ _ _ Hq0 Hp Hlt). lia.
Qed.

(** ** Mapping *)

(** What a mapping that succeeded leaves: the space shows the page at the address and
    is otherwise as before, and the hardware translates the address so. *)
Definition mapped (t : tables) (sps : gmap loc (list Z)) (M : views) (k : loc) (va pa attrs : Z) : Prop :=
  pm_inv (System t sps) (show k (va / 4096) (entry_of pa attrs) M) /\
  exists pd, sps !! k = Some pd /\ walk t pd va = (fun x => (x.1 + Z.land va 0xfff, x.2)) <$> entry_of pa attrs.

Lemma mapped_ok t sps M k pd va pa attrs : pm_inv (System t sps) (show k (va / 4096) (entry_of pa attrs) M) -> sps !! k = Some pd ->
  in_range k (va / 2 ^ 22) -> mapped t sps M k va pa attrs.
Proof.
  intros Hi Hk Hg. split; [done|]. exists pd. split; [done|]. destruct (walk_shown _ _ _ _ va Hi Hk Hg) as [E _]. cbn [sys_t] in E.
  rewrite E, shown_show. by rewrite decide_True.
Qed.

(** The second attempt, with a page for the table, succeeds. *)
Lemma second_attempt st t sps M k pd cur va pa attrs (i : nat) p : pm_inv (System t sps) M -> linked st (System t sps) -> sps !! k = Some pd ->
  in_range k (va / 2 ^ 22) -> 0 <= va < 2 ^ 32 -> 0 <= pa < 2 ^ 32 -> no_table pd (va / 2 ^ 22) ->
  parr st !! i = Some p -> free_frame (System t sps) (p_addr p) -> (forall j q, parr st !! j = Some q -> is_free q = true -> p_addr q <> p_addr p) ->
  exists t' pd', page_map_loop 1 st t pd cur va pa attrs (Some (Z.of_nat i)) = Ok (st, t', pd', EOK) /\ linked st (System t' (<[k := pd']> sps)) /\
    mapped t' (<[k := pd']> sps) M k va pa attrs /\ is_table (System t' (<[k := pd']> sps)) k (va / 2 ^ 22) (p_addr p).
Proof.
  intros Hi HL Hk Hg Hva Hpa Hnt Hp Hff Hother. cbn [page_map_loop alloc_addr]. rewrite (pg_ok _ _ _ Hp). cbn [rbind].
  assert (forall f, Some (p_addr p) = Some f -> free_frame (System t sps) f) as Hal by (by intros f [= <-]).
  destruct (table_enter_ok t sps M k pd cur pa va attrs (Some (p_addr p)) Hi Hk Hg Hva Hpa Hal) as (t' & pd' & e & E & Hi' & He).
  destruct He as [->|(_ & ? & _)]; [|done]. rewrite E. cbn [rbind]. rewrite decide_False by done. exists t', pd'. split; [done|]. cbn in Hi'.
  destruct (enter_directory _ _ _ _ _ _ _ _ _ _ _ (pd_at_none _ _ Hnt) E) as [_ Epd]. cbn in Epd.
  pose proof Hff as (Hf & Hm & _). destruct (addTable_spec pd va (p_addr p) (pm_len _ _ Hi _ _ Hk) Hva Hf Hm) as (_ & Hw & _). rewrite <- Epd in Hw.
  split_and!.
  - apply (enter_linked st t sps M k pd cur pa va attrs (Some (p_addr p)) t' pd' EOK HL Hi Hk Hva); [|exact E]. intros a [= <-]. done.
  - eapply mapped_ok; [done|apply lookup_insert_eq|done].
  - eapply words_table; [done|apply lookup_insert_eq|done|lia|]. specialize (Hw 0 ltac:(lia)). by rewrite Z.mul_0_r, !Z.add_0_r in Hw.
Qed.


(** ** A mapping that needs a table *)
Definition demo_frames : tables := Tables (list_to_map ((fun p => (p_addr p, replicate 1024 7)) <$> parr demo_pages)) 0.

Lemma demo_frames_lookup j p : parr demo_pages !! j = Some p -> frames demo_frames !! p_addr p = Some (replicate 1024 7).
Proof. intros H. destruct j as [|[|[|[|[|j]]]]]; [injection H as <-; reflexivity..|destruct j; discriminate H]. Qed.

Lemma demo_frames_inv : pm_inv (System demo_frames {[kernel_sp := empty_pd]}) ∅.
Proof.
  destruct demo_boot_inv as [H1 H2 H3 H4]. split; cbn [spaces sys_t].
  - exact H1.
  - intros k pd g [<- <-]%lookup_singleton_Some Hg. left. split; [|done]. apply empty_no_table. by eapply in_range_bounds.
  - intros k1 g1 k2 g2 f (pd & Hk & Hg & Hf & Hw)%table_word. cbn [spaces] in Hk. apply lookup_singleton_Some in Hk as [<- <-].
    apply lookup_replicate in Hw as [Hw _]. lia.
  - exact H4.
Qed.

Lemma demo_linked : linked demo_pages (System demo_frames {[kernel_sp := empty_pd]}).
Proof.
  intros j p Hj _. pose proof (pi_addr _ _ _ demo_inv _ _ Hj) as (Ha & [x Hx] & _). unfold SIZE_PAGE in Hx. split_and!.
  - destruct j as [|[|[|[|[|j]]]]]; [injection Hj as <-; cbn; lia..|destruct j; discriminate Hj].
  - lia.
  - rewrite Hx. apply Z.mod_mul. lia.
  - cbn [sys_t]. rewrite (demo_frames_lookup j p Hj). eauto.
  - intros k g (pd & Hk & Hg & Hf & Hw)%table_word. cbn [spaces] in Hk. apply lookup_singleton_Some in Hk as [<- <-]. apply lookup_replicate in Hw as [Hw _]. lia.
Qed.

