(* ===== verification/Names.v ===== *)
(** * Names of ports (src/proc/name.c)

    The cache of registered names, the resolution of paths through the servers,
    and the requests the kernel sends to file servers.  Strings are lists of
    characters without the final NUL ([Bits.CString] relates them to memory).
    Registration is a machine of steps between the releases of [dcache_lock].
    The servers are a parameter: [proc_send] takes their state, a port and a
    message and returns the new state, the transport result and the reply. *)

From S2P Require Import Prelude Bits.
Import CString.

Record oid_t := Oid { port : Z; id : Z }.
#[export] Instance oid_eq_dec : EqDecision oid_t.
Proof. solve_decision. Defined.

(** ** Messages *)
Inductive msg_body :=
| mtOpen (oid : oid_t) (flags : Z)
| mtClose (oid : oid_t) (flags : Z)
| mtCreate (type mode : Z) (dev dir : oid_t)
| mtLink (dir oid : oid_t)
| mtUnlink (dir oid : oid_t)
| mtRead (oid : oid_t) (offs len mode : Z)
| mtWrite (oid : oid_t) (offs len mode : Z)
| mtGetAttr (oid : oid_t) (type : Z)
| mtLookup (dir : oid_t).

Record msg_t := Msg {
  body : msg_body;
  i_size : Z;
  i_data : list Z;      (** the bytes at [i.data] *)
  o_size : Z;           (** room at [o.data] *)
}.

Record reply_t := Reply {
  r_io_err : Z;
  r_create_err : Z;
  r_create_oid : oid_t;
  r_attr_err : Z;
  r_attr_val : Z;
  r_lookup_err : Z;
  r_lookup_fil : oid_t;
  r_lookup_dev : oid_t;
  r_data : list Z;      (** the bytes written to [o.data] *)
}.

(** ** The cache *)
Record dcache_entry_t := Entry { e_oid : oid_t; e_name : list Z }.

#[export] Instance entry_eq_dec : EqDecision dcache_entry_t.
Proof. solve_decision. Defined.

Record name_common := Names {
  root_registered : bool;
  root_oid : oid_t;
  dcache : list (list dcache_entry_t);
}.

Definition HASH_LEN : Z := 5.

Fixpoint hash_loop (str : list Z) (hash : Z) : Z :=
  match str with
  | [] => hash
  | c :: str => hash_loop str (u32 (hash + (Z.shiftl c 4 + Z.shiftr c 4 * 11)))
  end.

Definition dcache_strHash (str : list Z) : Z := Z.land (hash_loop str 0) (Z.shiftl 1 HASH_LEN - 1).

(** [name_common.dcache[hash]] *)
Definition bucket (st : name_common) (hash : Z) : list dcache_entry_t := default [] (dcache st !! Z.to_nat hash).
Definition set_bucket (st : name_common) (hash : Z) (b : list dcache_entry_t) : name_common :=
  Names (root_registered st) (root_oid st) (<[Z.to_nat hash := b]> (dcache st)).

Fixpoint entry_lookup (b : list dcache_entry_t) (name : list Z) : option dcache_entry_t :=
  match b with
  | [] => None
  | e :: b => if decide (e_name e = name) then Some e else entry_lookup b name
  end.

Definition _dcache_entryLookup (st : name_common) (hash : Z) (name : list Z) : option dcache_entry_t :=
  entry_lookup (bucket st hash) name.

Definition c_slash : Z := 47.
Definition is_root (name : list Z) : bool := bool_decide (name = [c_slash]).

(** *** Registration

    [proc_portRegister] takes [dcache_lock] twice, for the test whether the name
    exists and for linking the new entry, and runs unlocked in between.  A call is
    its arguments and the place it has reached; a step runs up to the next release
    of the lock or to the return.  [c_mem] says whether [vm_kmalloc] succeeds,
    [c_junk] is the [id] of fresh memory, kept when the caller passes no object. *)
Inductive reg_pc := RegEntry | RegChecked | RegReturned (e : Z).
Record reg_call := RegCall { c_port : Z; c_name : list Z; c_oid : option oid_t; c_mem : bool; c_junk : Z; c_pc : reg_pc }.

Definition at_pc (c : reg_call) (p : reg_pc) : reg_call := RegCall (c_port c) (c_name c) (c_oid c) (c_mem c) (c_junk c) p.

Definition register_check (st : name_common) (name : list Z) : bool :=
  bool_decide (_dcache_entryLookup st (dcache_strHash name) name = None).
Definition register_link (st : name_common) (port i : Z) (name : list Z) : name_common :=
  let hash := dcache_strHash name in
  set_bucket st hash (Entry (Oid port i) name :: bucket st hash).

Definition register_step (st : name_common) (c : reg_call) : name_common * reg_call :=
  match c_pc c with
  | RegEntry => (st, at_pc c (if register_check st (c_name c) then RegChecked else RegReturned (- EEXIST)))
  | RegChecked =>
      if is_root (c_name c) then
        let i := match c_oid c with Some o => id o | None => id (root_oid st) end in
        (Names true (Oid (c_port c) i) (dcache st), at_pc c (RegReturned EOK))
      else if c_mem c then
        let i := match c_oid c with Some o => id o | None => c_junk c end in
        (register_link st (c_port c) i (c_name c), at_pc c (RegReturned EOK))
      else (st, at_pc c (RegReturned (- ENOMEM)))
  | RegReturned _ => (st, c)
  end.

(** Calls of several threads: [sched] names the call that takes the next step. *)
Fixpoint register_run (st : name_common) (cs : list reg_call) (sched : list nat) : name_common * list reg_call :=
  match sched with
  | [] => (st, cs)
  | k :: sched =>
      match cs !! k with
      | Some c => let (st, c) := register_step st c in register_run st (<[k := c]> cs) sched
      | None => register_run st cs sched
      end
  end.

(** A call that nothing interleaves with. *)
Definition proc_portRegister (st : name_common) (mem : bool) (junk port : Z) (name : list Z) (oid : option oid_t)
    : name_common * Z :=
  let (st, c) := register_step st (RegCall port name oid mem junk RegEntry) in
  let (st, c) := register_step st c in
  (st, match c_pc c with RegReturned e => e | _ => EOK end).

(** The entries before the first one called [name], and those behind it. *)
Fixpoint split_bucket (b : list dcache_entry_t) (name : list Z) : option (list dcache_entry_t * list dcache_entry_t) :=
  match b with
  | [] => None
  | e :: b =>
      if decide (e_name e = name) then Some ([], b)
      else match split_bucket b name with
           | Some (l, r) => Some (e :: l, r)
           | None => None
           end
  end.

Definition proc_portUnregister (st : name_common) (name : list Z) : name_common :=
  let hash := dcache_strHash name in
  match split_bucket (bucket st hash) name with
  | None => st
  | Some ([], _) => set_bucket st hash []           (* dcache[hash] = NULL *)
  | Some (l, r) => set_bucket st hash (l ++ r)      (* prev->next = entry->next *)
  end.

Definition _name_init (st : name_common) : name_common := Names false (root_oid st) (replicate 32 []).

(** ** Resolving paths *)
Section Send.
Context {W : Type} (proc_send : W -> Z -> msg_t -> W * Z * reply_t).

(** [while (pptr[--i] != '/');] on the first [i] characters. *)
Fixpoint last_slash (n : nat) (pptr : list Z) : res nat :=
  match n with
  | O => Fault
  | S n => let? c := deref (pptr !! n) in if decide (c = c_slash) then Ok n else last_slash n pptr
  end.

(** The search for a starting point: the final [i] and the server. *)
Fixpoint search_start (fuel : nat) (st : name_common) (name : list Z) (i : nat) (srv : oid_t) : res (nat * oid_t) :=
  match fuel with
  | O => NoFuel
  | S fuel =>
      if decide (1 < i)%nat then
        let? i := last_slash i name in
        if decide (i = 0%nat) then Ok (i, srv)
        else
          let pptr := take i name in
          match _dcache_entryLookup st (dcache_strHash pptr) pptr with
          | Some e => Ok (i, e_oid e)
          | None => search_start fuel st name i srv
          end
      else Ok (i, srv)
  end.

(** The request for what is left of the path behind position [i]: its size
    [len - i], and [hal_memcpy(pptr, name + i + 1, len - i)], the NUL included. *)
Definition lookup_size (name : list Z) (i : Z) : Z := u32 (Z.of_nat (length name) - i).
Definition lookup_copy (name : list Z) (i : Z) : res (list Z) :=
  memcpy (replicate (S (length name)) 0) 0 (drop (Z.to_nat (i + 1)) (name ++ [0])) (lookup_size name i).
Definition lookup_msg (name : list Z) (i : Z) (srv : oid_t) (data : list Z) : msg_t :=
  Msg (mtLookup srv) (lookup_size name i) (take (Z.to_nat (lookup_size name i)) data) 0.

(** [do { ... } while (i != len);]: the servers, the result and the last reply. *)
Fixpoint query_loop (fuel : nat) (w : W) (name : list Z) (i : Z) (srv : oid_t) : res (W * Z * reply_t) :=
  match fuel with
  | O => NoFuel
  | S fuel =>
      let len := Z.of_nat (length name) in
      let? data := lookup_copy name i in
      let '(w, err, r) := proc_send w (port srv) (lookup_msg name i srv data) in
      if decide (err < 0) then Ok (w, err, r)
      else
        let err := r_lookup_err r in
        if decide (err < 0) then Ok (w, err, r)
        else if decide (u32 (i + err) > len) then Ok (w, - EINVAL, r)
        else
          let i := u32 (i + (err + 1)) in
          if decide (i <> len) then query_loop fuel w name i (r_lookup_dev r) else Ok (w, err, r)
  end.

(** [proc_portLookup]: the servers, the result, and what is stored through
    [file] and [dev] when the caller passes them. *)
Definition proc_portLookup (w : W) (st : name_common) (mem_path mem_msg : bool) (name : option (list Z)) (file dev : bool)
    : res (W * Z * option oid_t * option oid_t) :=
  let out o := (if file then Some o else None, if dev then Some o else None) in
  match name with
  | None => Ok (w, - EINVAL, None, None)
  | Some name =>
      if negb file && negb dev then Ok (w, - EINVAL, None, None)
      else if is_root name then
        if root_registered st then let '(f, d) := out (root_oid st) in Ok (w, EOK, f, d)
        else Ok (w, - EINVAL, None, None)
      else
        match _dcache_entryLookup st (dcache_strHash name) name with
        | Some e => let '(f, d) := out (e_oid e) in Ok (w, EOK, f, d)
        | None =>
            if decide (head name <> Some c_slash) then Ok (w, - ENOENT, None, None)
            else
              let len := length name in
              if bool_decide (16 <= Z.of_nat len) && negb mem_path then Ok (w, - ENOMEM, None, None)
              else
                let? (i, srv) := search_start (S len) st name len (root_oid st) in
                if negb (root_registered st) && bool_decide (i = 0%nat) then Ok (w, - EINVAL, None, None)
                else if negb mem_msg then Ok (w, - ENOMEM, None, None)
                else
                  let? (w, err, r) := query_loop (S (S len)) w name (Z.of_nat i) srv in
                  Ok (w, if decide (err < 0) then err else EOK,
                      if file then Some (r_lookup_fil r) else None, if dev then Some (r_lookup_dev r) else None)
        end
  end.

(** [proc_lookup]: [file->id] is cleared first; what is stored through [file]
    replaces it. *)
Definition proc_lookup (w : W) (st : name_common) (mem_path mem_msg : bool) (name : option (list Z)) (file : option oid_t) (dev : bool)
    : res (W * Z * option oid_t * option oid_t) :=
  let file := match file with Some o => Some (Oid (port o) 0) | None => None end in
  let? (w, err, f, d) := proc_portLookup w st mem_path mem_msg name (bool_decide (is_Some file)) dev in
  Ok (w, err, match f with Some o => Some o | None => file end, d).

(** ** Requests *)

(** The common shape: build a message, send it to the object's port, return the
    transport error or what [result] takes from the reply. *)
Definition proc_open (w : W) (mem : bool) (oid : oid_t) (mode : Z) : W * Z :=
  if mem then
    let '(w, err, r) := proc_send w (port oid) (Msg (mtOpen oid mode) 0 [] 0) in
    (w, if decide (err = 0) then r_io_err r else err)
  else (w, - ENOMEM).

Definition proc_close (w : W) (mem : bool) (oid : oid_t) (mode : Z) : W * Z :=
  if mem then
    let '(w, err, r) := proc_send w (port oid) (Msg (mtClose oid mode) 0 [] 0) in
    (w, if decide (err = EOK) then r_io_err r else err)
  else (w, - ENOMEM).

Definition proc_create (w : W) (mem : bool) (prt type mode : Z) (dev dir : oid_t) (name : option (list Z)) : W * Z * option oid_t :=
  if mem then
    let data := match name with None => [] | Some s => s ++ [0] end in
    let '(w, err, r) := proc_send w prt (Msg (mtCreate type mode dev dir) (length data) data 0) in
    (w, if decide (err = 0) then r_create_err r else err, Some (r_create_oid r))
  else (w, - ENOMEM, None).

Definition proc_link (w : W) (mem : bool) (dir oid : oid_t) (name : list Z) : W * Z :=
  if mem then
    let '(w, err, r) := proc_send w (port dir) (Msg (mtLink dir oid) (length name + 1) (name ++ [0]) 0) in
    (w, if decide (err = 0) then r_io_err r else err)
  else (w, - ENOMEM).

Definition proc_unlink (w : W) (mem : bool) (dir oid : oid_t) (name : list Z) : W * Z :=
  if mem then
    let '(w, err, r) := proc_send w (port dir) (Msg (mtUnlink dir oid) (length name + 1) (name ++ [0]) 0) in
    (w, if decide (err = 0) then r_io_err r else err)
  else (w, - ENOMEM).

(** [proc_read]: the bytes the server stores in the caller's buffer come with
    the result. *)
Definition proc_read (w : W) (mem : bool) (oid : oid_t) (offs sz mode : Z) : W * Z * list Z :=
  if mem then
    let '(w, err, r) := proc_send w (port oid) (Msg (mtRead oid offs 0 mode) 0 [] sz) in
    (w, if decide (err >= 0) then r_io_err r else err, r_data r)
  else (w, - ENOMEM, []).

Definition proc_write (w : W) (mem : bool) (oid : oid_t) (offs : Z) (buf : list Z) (mode : Z) : W * Z :=
  if mem then
    let '(w, err, r) := proc_send w (port oid) (Msg (mtWrite oid offs 0 mode) (length buf) buf 0) in
    (w, if decide (err >= 0) then r_io_err r else err)
  else (w, - ENOMEM).

Definition atSize : Z := 3.

Definition proc_size (w : W) (mem : bool) (oid : oid_t) : W * Z :=
  if mem then
    let '(w, err, r) := proc_send w (port oid) (Msg (mtGetAttr oid atSize) 0 [] 0) in
    (w, if decide (err = EOK) then (if decide (r_attr_err r = EOK) then r_attr_val r else r_attr_err r) else err)
  else (w, - ENOMEM).

End Send.

(** ** The cache as a finite map *)

Definition find (st : name_common) (name : list Z) : option oid_t :=
  e_oid <$> _dcache_entryLookup st (dcache_strHash name) name.

(** Every entry sits in the bucket of its hash, and no name occurs twice. *)
Record names_ok (st : name_common) : Prop := {
  no_len : length (dcache st) = 32%nat;
  no_hash : forall h e, 0 <= h -> e ∈ bucket st h -> dcache_strHash (e_name e) = h;
  no_dup : forall h, 0 <= h -> NoDup (e_name <$> bucket st h);
}.

Lemma hash_range name : 0 <= dcache_strHash name < 32.
Proof. unfold dcache_strHash. change (Z.shiftl 1 HASH_LEN - 1) with (2 ^ 5 - 1). rewrite land_pow2_mod by lia. apply Z.mod_pos_bound. lia. Qed.

Lemma bucket_set st h h' b : length (dcache st) = 32%nat -> 0 <= h < 32 -> 0 <= h' ->
  bucket (set_bucket st h b) h' = if decide (h = h') then b else bucket st h'.
Proof.
  intros Hl Hh Hh'. unfold bucket, set_bucket. cbn [dcache]. case_decide as E.
  - subst. by rewrite list_lookup_insert_eq by lia.
  - rewrite list_lookup_insert_ne by lia. done.
Qed.

Lemma entry_lookup_name b name e : entry_lookup b name = Some e -> e ∈ b /\ e_name e = name.
Proof.
  induction b as [|x b IH]; simpl; [done|]. case_decide; [intros [= ->]; set_solver|intros Hx%IH; set_solver].
Qed.
Lemma entry_lookup_none b name : entry_lookup b name = None <-> name ∉ e_name <$> b.
Proof.
  induction b as [|x b IH]; simpl; [split; [intros; apply not_elem_of_nil|done]|]. case_decide as E.
  - split; [done|]. rewrite not_elem_of_cons. intros [? _]. congruence.
  - rewrite IH, not_elem_of_cons. naive_solver.
Qed.

Lemma register_link_ok st port i name : names_ok st -> find st name = None -> names_ok (register_link st port i name).
Proof.
  intros [Hl Hh Hd] Hf. pose proof (hash_range name) as Hr. unfold register_link.
  assert (Hb : forall h, 0 <= h -> bucket (set_bucket st (dcache_strHash name) (Entry (Oid port i) name :: bucket st (dcache_strHash name))) h
    = if decide (dcache_strHash name = h) then Entry (Oid port i) name :: bucket st h else bucket st h).
  { intros h Hh0. rewrite bucket_set by done. case_decide; by subst. }
  split.
  - unfold set_bucket. cbn [dcache]. by rewrite length_insert.
  - intros h e Hh0. rewrite Hb by done. case_decide; [intros [->|]%elem_of_cons|]; [done|by apply Hh|by apply Hh].
  - intros h Hh0. rewrite Hb by done. case_decide as E; [|by apply Hd]. cbn [fmap list_fmap e_name]. constructor; [|by apply Hd]. subst h.
    apply entry_lookup_none. unfold find, _dcache_entryLookup in Hf. by destruct (entry_lookup _ _).
Qed.

Lemma find_link st port i name n : names_ok st ->
  find (register_link st port i name) n = if decide (n = name) then Some (Oid port i) else find st n.
Proof.
  intros [Hl Hh Hd]. pose proof (hash_range name). pose proof (hash_range n).
  unfold find, _dcache_entryLookup, register_link. rewrite bucket_set by lia.
  destruct (decide (n = name)) as [->|Hne].
  - rewrite decide_True by done. cbn [entry_lookup e_name]. by rewrite decide_True by done.
  - case_decide as E; [|done]. cbn [entry_lookup e_name]. rewrite decide_False by congruence. by rewrite E.
Qed.

Lemma find_none st name : find st name = None <-> register_check st name = true.
Proof. unfold find, register_check. rewrite bool_decide_eq_true. destruct (_dcache_entryLookup _ _ _); split; done. Qed.

(** The state of [name_common] after [_name_init]. *)
Definition no_names : name_common := _name_init (Names false (Oid 0 0) []).

Lemma no_names_ok : names_ok no_names.
Proof.
  assert (Hb : forall h, bucket no_names h = []).
  { intros h. unfold bucket, no_names, _name_init. cbn [dcache]. destruct (replicate 32 [] !! Z.to_nat h) eqn:E; [|done].
    apply lookup_replicate in E as [-> _]. done. }
  split; [done| |]; intros h; rewrite Hb; [intros e _ []%not_elem_of_nil|intros _; constructor].
Qed.

(** C17: registration, on every branch of an undisturbed call.  A name in use is
    refused with [-EEXIST] and nothing changes; a free name with no memory for
    its entry gives [-ENOMEM] and nothing changes; a free name with memory gives
    EOK, makes exactly that name resolve to the given port and object (the object
    of fresh memory when none is given), and leaves all other names and the root
    alone; the root is kept apart from the cache and gets the port and the object
    given, or keeps its object.  The cache stays well formed. *)
Theorem register_correct st mem junk prt name oid : names_ok st ->
  let (st', e) := proc_portRegister st mem junk prt name oid in
  names_ok st' /\
  (find st name <> None -> e = - EEXIST /\ st' = st) /\
  (find st name = None -> is_root name = false -> mem = false -> e = - ENOMEM /\ st' = st) /\
  (find st name = None -> is_root name = false -> mem = true ->
     e = EOK /\ root_registered st' = root_registered st /\ root_oid st' = root_oid st /\
     forall n, find st' n = if decide (n = name) then Some (Oid prt (match oid with Some o => id o | None => junk end)) else find st n) /\
  (find st name = None -> is_root name = true ->
     e = EOK /\ root_registered st' = true /\ root_oid st' = Oid prt (match oid with Some o => id o | None => id (root_oid st) end) /\
     dcache st' = dcache st).
Proof.
  intros Hok. unfold proc_portRegister, register_step. cbn. destruct (register_check st name) eqn:E; cbn.
  - apply find_none in E. destruct (is_root name); [|destruct mem]; cbn.
    + split; [by destruct Hok; split|]. split_and!; done.
    + split; [by apply register_link_ok|]. split_and!; try done. intros _ _ _. split_and!; [done..|]. intros n. by apply find_link.
    + split; [done|]. split_and!; done.
  - rewrite find_none, E. split; [done|]. split_and!; done.
Qed.

Lemma register_correct_witness :
  let (st', e) := proc_portRegister no_names true 0 7 [97; 98] (Some (Oid 1 5)) in
  names_ok st' /\ e = EOK /\ forall n, find st' n = if decide (n = [97; 98]) then Some (Oid 7 5) else find no_names n.
Proof.
  pose proof (register_correct no_names true 0 7 [97; 98] (Some (Oid 1 5)) no_names_ok) as H.
  destruct (proc_portRegister no_names true 0 7 [97; 98] (Some (Oid 1 5))) as [st' e].
  destruct H as (Hok & _ & _ & H & _). split; [exact Hok|]. destruct H as (? & _ & _ & ?); [by vm_compute..|]. by split.
Defined.

(** ** Removing a name *)
Lemma split_bucket_some b name l r : split_bucket b name = Some (l, r) ->
  exists e, b = l ++ e :: r /\ e_name e = name /\ name ∉ e_name <$> l.
Proof.
  revert l. induction b as [|x b IH]; intros l; simpl; [done|]. case_decide as E.
  - intros [= <- <-]. exists x. split; [done|]. split; [done|]. apply not_elem_of_nil.
  - destruct (split_bucket b name) as [[l' r']|]; [|done]. intros [= <- <-].
    destruct (IH l' eq_refl) as (e & -> & He & Hn). exists e. split; [done|]. split; [done|].
    cbn [fmap list_fmap]. apply not_elem_of_cons. split; [congruence|done].
Qed.
Lemma split_bucket_none b name : split_bucket b name = None -> entry_lookup b name = None.
Proof.
  induction b as [|x b IH]; simpl; [done|]. case_decide; [done|]. destruct (split_bucket b name) as [[? ?]|]; [done|auto].
Qed.

Lemma entry_lookup_app l r name : entry_lookup (l ++ r) name = match entry_lookup l name with Some e => Some e | None => entry_lookup r name end.
Proof. induction l as [|x l IH]; simpl; [done|]. case_decide; [done|]. apply IH. Qed.

(** The name at the head of its bucket. *)
Definition bucket_head (st : name_common) (name : list Z) : bool :=
  bool_decide (e_name <$> head (bucket st (dcache_strHash name)) = Some name).

Lemma set_bucket_ok st h b : names_ok st -> 0 <= h < 32 -> b ⊆ bucket st h -> NoDup (e_name <$> b) -> names_ok (set_bucket st h b).
Proof.
  intros [Hl Hh Hd] Hr Hb Hnb. split.
  - unfold set_bucket. cbn [dcache]. by rewrite length_insert.
  - intros h' e Hh'. rewrite bucket_set by done. case_decide; [subst; intros He; apply Hh; [done|by apply Hb]|by apply Hh].
  - intros h' Hh'. rewrite bucket_set by done. case_decide; [done|by apply Hd].
Qed.

(** C33: [proc_portUnregister] keeps the cache well formed and removes the name;
    all other names keep their meaning, with one exception: when the name is at
    the head of its bucket, the code stores NULL in the bucket, and every other
    name of that bucket is lost. *)
Theorem unregister_exact st name n : names_ok st ->
  names_ok (proc_portUnregister st name) /\
  find (proc_portUnregister st name) n =
    if decide (n = name) then None
    else if decide (dcache_strHash n = dcache_strHash name /\ bucket_head st name = true) then None
    else find st n.
Proof.
  intros Hok. pose proof (hash_range name) as Hr. pose proof (hash_range n) as Hrn. unfold proc_portUnregister, bucket_head.
  pose proof (no_dup _ Hok (dcache_strHash name) ltac:(lia)) as Hnd.
  destruct (split_bucket (bucket st (dcache_strHash name)) name) as [[l r]|] eqn:Es.
  - apply split_bucket_some in Es as (e & Eb & He & Hnl).
    rewrite Eb, fmap_app, fmap_cons in Hnd. apply NoDup_app in Hnd as (Hn1 & Hn2 & [Hn3 Hn4]%NoDup_cons).
    rewrite He in Hn2, Hn3.
    destruct l as [|x l].
    + split; [apply set_bucket_ok; [done|lia|apply list_subseteq_nil|constructor]|].
      unfold find, _dcache_entryLookup. rewrite bucket_set by (try apply (no_len _ Hok); lia). rewrite Eb. cbn [app head fmap option_fmap option_map].
      rewrite (bool_decide_true (Some (e_name e) = Some name)) by congruence.
      destruct (decide (n = name)) as [->|Hne]; [by rewrite decide_True|].
      destruct (decide (dcache_strHash name = dcache_strHash n)) as [E|E].
      * rewrite decide_True by (by rewrite E). done.
      * rewrite decide_False by (by intros [? _]). done.
    + split.
      { apply set_bucket_ok; [done|lia| |].
        - rewrite Eb. intros y. rewrite !elem_of_app, !elem_of_cons. tauto.
        - rewrite fmap_app. apply NoDup_app. split_and!; [done| |done]. intros y Hy Hy'. apply (Hn2 y Hy). by apply elem_of_cons; right. }
      unfold find, _dcache_entryLookup. rewrite bucket_set by (try apply (no_len _ Hok); lia).
      rewrite Eb. cbn [app head fmap option_fmap option_map].
      cbn [fmap list_fmap] in Hnl. apply not_elem_of_cons in Hnl as [Hx Hnl].
      rewrite (bool_decide_false (Some (e_name x) = Some name)) by congruence.
      rewrite (decide_False (P := dcache_strHash n = _ /\ false = true)) by (by intros [_ ?]).
      destruct (decide (n = name)) as [->|Hne].
      * rewrite decide_True by done.
        assert (entry_lookup ((x :: l) ++ r) name = None) as Hnone; [|cbn [app] in Hnone; by rewrite Hnone].
        apply entry_lookup_none. rewrite fmap_app. cbn [fmap list_fmap]. rewrite elem_of_app, elem_of_cons.
        intros [[?|?]|?]; [congruence|done|done].
      * case_decide as E; [|done].
        change (x :: l ++ r) with ((x :: l) ++ r). rewrite <- E, Eb. rewrite !entry_lookup_app. cbn [entry_lookup].
        rewrite (decide_False (P := e_name e = n)) by congruence. done.
  - split; [done|]. apply split_bucket_none in Es.
    destruct (decide (n = name)) as [->|Hne]; [unfold find, _dcache_entryLookup; by rewrite Es|].
    rewrite decide_False; [done|]. intros [_ Hh%bool_decide_eq_true].
    apply entry_lookup_none in Es. apply Es. destruct (bucket st (dcache_strHash name)) as [|y b]; [done|].
    cbn in Hh. injection Hh as Hh. rewrite <- Hh. cbn [fmap list_fmap]. apply elem_of_cons. by left.
Qed.

(** Two names of one bucket, "a" and "c", and what is left of the first one
    after the second is unregistered. *)
Definition two_names : name_common :=
  (proc_portRegister (proc_portRegister no_names true 0 1 [97] (Some (Oid 0 11))).1
     true 0 2 [99] (Some (Oid 0 22))).1.

Lemma two_names_ok : names_ok two_names.
Proof.
  pose proof (register_link_ok no_names 1 11 [97] no_names_ok ltac:(by vm_compute)) as H1.
  exact (register_link_ok _ 2 22 [99] H1 ltac:(by vm_compute)).
Qed.

Lemma unregister_exact_witness :
  names_ok (proc_portUnregister two_names [99]) /\
  find two_names [97] = Some (Oid 1 11) /\ find (proc_portUnregister two_names [99]) [97] = None.
Proof.
  destruct (unregister_exact two_names [99] [97] two_names_ok) as [Hok Hf].
  split; [exact Hok|]. split; [by vm_compute|]. rewrite Hf. by vm_compute.
Defined.

(** The two steps of a registration that finds its name free. *)
Lemma register_step_check st c : c_pc c = RegEntry -> find st (c_name c) = None -> register_step st c = (st, at_pc c RegChecked).
Proof. intros Hp Hf%find_none. unfold register_step. by rewrite Hp, Hf. Qed.

Lemma register_step_link st c : c_pc c = RegChecked -> is_root (c_name c) = false -> c_mem c = true ->
  register_step st c = (register_link st (c_port c) (match c_oid c with Some o => id o | None => c_junk c end) (c_name c), at_pc c (RegReturned EOK)).
Proof. intros Hp Hr Hm. unfold register_step. by rewrite Hp, Hr, Hm. Qed.

Lemma link_twice_bad st name p1 p2 i1 i2 : names_ok st -> find st name = None ->
  ~ names_ok (register_link (register_link st p1 i1 name) p2 i2 name).
Proof.
  intros Hok Hf Hok2. pose proof (register_link_ok st p1 i1 name Hok Hf) as Hok1. pose proof (hash_range name).
  pose proof (no_dup _ Hok2 (dcache_strHash name) ltac:(lia)) as Hnd. unfold register_link at 1 in Hnd.
  rewrite bucket_set, decide_True in Hnd by (try apply (no_len _ Hok1); done || lia).
  unfold register_link in Hnd. rewrite bucket_set, decide_True in Hnd by (try apply (no_len _ Hok); done || lia).
  cbn [fmap list_fmap e_name] in Hnd. apply NoDup_cons in Hnd as [Hn _]. apply Hn. apply elem_of_cons. by left.
Qed.

(** C34: registration is not atomic.  [dcache_lock] is released between the test
    and the linking, so of two calls for the same free name that take their steps
    in turn both return EOK, where one after the other the second is refused with
    [-EEXIST]: the second entry hides the first one, whose registration was
    reported as successful, and the cache holds the name twice. *)
Theorem register_race st c1 c2 : names_ok st -> c_name c1 = c_name c2 -> find st (c_name c1) = None -> is_root (c_name c1) = false ->
  c_mem c1 = true -> c_mem c2 = true -> c_pc c1 = RegEntry -> c_pc c2 = RegEntry ->
  (let (st', cs) := register_run st [c1; c2] [0; 1; 0; 1]%nat in
   cs = [at_pc c1 (RegReturned EOK); at_pc c2 (RegReturned EOK)] /\ ~ names_ok st' /\
   find st' (c_name c1) = Some (Oid (c_port c2) (match c_oid c2 with Some o => id o | None => c_junk c2 end))) /\
  (let (st', cs) := register_run st [c1; c2] [0; 0; 1; 1]%nat in
   cs = [at_pc c1 (RegReturned EOK); at_pc c2 (RegReturned (- EEXIST))] /\ names_ok st' /\
   find st' (c_name c1) = Some (Oid (c_port c1) (match c_oid c1 with Some o => id o | None => c_junk c1 end))).
Proof.
  intros Hok En Hf Hr Hm1 Hm2 Hp1 Hp2. cbn [register_run lookup list_lookup insert list_insert].
  rewrite (register_step_check st c1) by done. cbn [lookup list_lookup insert list_insert]. split.
  - rewrite (register_step_check st c2) by (by rewrite <- ?En). cbn [lookup list_lookup insert list_insert].
    rewrite !register_step_link by (cbn [at_pc c_pc c_name c_mem]; by rewrite <- ?En). cbn. rewrite <- En. split_and!; [done|by apply link_twice_bad|].
    rewrite find_link, decide_True by (done || by apply register_link_ok). done.
  - rewrite register_step_link by done. cbn [lookup list_lookup insert list_insert at_pc c_port c_oid c_junk c_name c_mem].
    set (i := match c_oid c1 with Some o => id o | None => c_junk c1 end). set (st1 := register_link st (c_port c1) i (c_name c1)).
    assert (find st1 (c_name c1) = Some (Oid (c_port c1) i)) as Hf1 by (unfold st1; by rewrite find_link, decide_True).
    assert (register_check st1 (c_name c2) = false) as Hc.
    { rewrite <- En. apply not_true_is_false. intros Hx%find_none. congruence. }
    assert (register_step st1 c2 = (st1, at_pc c2 (RegReturned (- EEXIST)))) as -> by (unfold register_step; by rewrite Hp2, Hc).
    cbn. split_and!; [done|by apply register_link_ok|done].
Qed.

Lemma register_race_witness :
  let c1 := RegCall 5 [98] (Some (Oid 0 1)) true 0 RegEntry in
  let c2 := RegCall 6 [98] (Some (Oid 0 2)) true 0 RegEntry in
  let (st', cs) := register_run two_names [c1; c2] [0; 1; 0; 1]%nat in
  cs = [at_pc c1 (RegReturned EOK); at_pc c2 (RegReturned EOK)] /\ ~ names_ok st' /\ find st' [98] = Some (Oid 6 2).
Proof.
  intros c1 c2. destruct (register_race two_names c1 c2) as [H _]; [exact two_names_ok|reflexivity|by vm_compute|reflexivity..|exact H].
Defined.

(** ** Resolving a path *)

Lemma last_slash_spec name (n : nat) : head name = Some c_slash -> (0 < n <= length name)%nat ->
  exists i, last_slash n name = Ok i /\ (i < n)%nat /\ name !! i = Some c_slash /\
    forall j, (i < j < n)%nat -> name !! j <> Some c_slash.
Proof.
  intros Hh. induction n as [|n IH]; intros Hn; [lia|]. cbn [last_slash].
  destruct (lookup_lt_is_Some_2 name n) as [c Hc]; [lia|]. rewrite Hc. cbn [deref rbind]. case_decide as E.
  - subst. exists n. split; [done|]. split; [lia|]. split; [done|]. intros; lia.
  - destruct n as [|n]; [destruct name; simplify_eq/=|].
    destruct IH as (i & Ei & Hi & His & Hbet); [lia|]. exists i. split; [done|]. split; [lia|]. split; [done|].
    intros j Hj. destruct (decide (j = S n)) as [->|]; [congruence|]. apply Hbet. lia.
Qed.

(** No registered directory of [name] lies at or behind position [i]. *)
Definition no_prefix (st : name_common) (name : list Z) (i : nat) : Prop :=
  forall j, (i <= j < length name)%nat -> (0 < j)%nat -> name !! j = Some c_slash -> find st (take j name) = None.

Lemma search_start_spec st name srv : head name = Some c_slash -> forall fuel i, (i < fuel)%nat -> (i <= length name)%nat -> no_prefix st name i ->
  exists k s, search_start fuel st name i srv = Ok (k, s) /\
    (((0 < k < length name)%nat /\ name !! k = Some c_slash /\ find st (take k name) = Some s /\ no_prefix st name (S k)) \/
     ((k <= 1)%nat /\ s = srv /\ no_prefix st name 1)).
Proof.
  intros Hh. induction fuel as [|fuel IH]; intros i Hf Hi Hnp; [lia|]. cbn [search_start]. case_decide as E.
  - destruct (last_slash_spec name i Hh ltac:(lia)) as (k & Ek & Hk & Hks & Hbet). rewrite Ek. cbn [rbind].
    assert (Hnp' : no_prefix st name (S k)).
    { intros j Hj Hj0 Hjs. destruct (decide (j < i)%nat); [exfalso; apply (Hbet j); [lia|done]|]. apply Hnp; [lia|lia|done]. }
    case_decide as E0.
    + subst k. exists 0%nat, srv. split; [done|]. right. split; [lia|]. split; [done|done].
    + assert (Hfd : find st (take k name) = e_oid <$> _dcache_entryLookup st (dcache_strHash (take k name)) (take k name)) by done.
      destruct (_dcache_entryLookup st (dcache_strHash (take k name)) (take k name)) as [e|].
      * exists k, (e_oid e). split; [done|]. left. split; [lia|]. split; [done|]. split; [done|done].
      * apply IH; [lia|lia|]. intros j Hj Hj0 Hjs. destruct (decide (j = k)) as [->|]; [done|]. apply Hnp'; [lia|lia|done].
  - exists i, srv. split; [done|]. right. split; [lia|]. split; [done|]. intros j Hj Hj0. apply Hnp; lia.
Qed.

(** C18: path resolution starts at the longest registered directory: for an
    absolute path, [proc_portLookup] asks the server registered under the longest
    prefix of the path that ends before a slash, and the root server when no
    such prefix is registered. *)
Theorem lookup_longest_prefix st name : head name = Some c_slash ->
  exists k s, search_start (S (length name)) st name (length name) (root_oid st) = Ok (k, s) /\
    (((0 < k < length name)%nat /\ name !! k = Some c_slash /\ find st (take k name) = Some s /\
      forall j, (k < j < length name)%nat -> name !! j = Some c_slash -> find st (take j name) = None) \/
     ((k <= 1)%nat /\ s = root_oid st /\
      forall j, (0 < j < length name)%nat -> name !! j = Some c_slash -> find st (take j name) = None)).
Proof.
  intros Hh. destruct (search_start_spec st name (root_oid st) Hh (S (length name)) (length name)) as (k & s & E & H); [lia|lia|intros j; lia|].
  exists k, s. split; [done|]. destruct H as [(H1 & H2 & H3 & H4)|(H1 & H2 & H3)]; [left|right].
  - do 3 (split; [done|]). intros j Hj. apply H4; lia.
  - do 2 (split; [done|]). intros j Hj. apply H3; lia.
Qed.

(** "/a/b/c" with "/a" registered *)
Definition dir_names : name_common := register_link (Names true (Oid 9 0) (replicate 32 [])) 3 4 [47; 97].

Lemma lookup_longest_prefix_witness :
  let name := [47; 97; 47; 98; 47; 99] in
  exists k s, search_start (S (length name)) dir_names name (length name) (root_oid dir_names) = Ok (k, s) /\
    (((0 < k < length name)%nat /\ name !! k = Some c_slash /\ find dir_names (take k name) = Some s /\
      forall j, (k < j < length name)%nat -> name !! j = Some c_slash -> find dir_names (take j name) = None) \/
     ((k <= 1)%nat /\ s = root_oid dir_names /\
      forall j, (0 < j < length name)%nat -> name !! j = Some c_slash -> find dir_names (take j name) = None)).
Proof. cbv zeta. apply lookup_longest_prefix. reflexivity. Defined.

Section Query.
Context {W : Type} (proc_send : W -> Z -> msg_t -> W * Z * reply_t).

(** A server that resolves at most the characters it was sent (the data ends
    with a NUL, so at most [i_size - 1] of them). *)
Definition honest : Prop := forall w p m dir, body m = mtLookup dir -> r_lookup_err (proc_send w p m).2 < i_size m.

Lemma query_loop_ok : honest -> forall fuel w name (i : nat) srv,
  Z.of_nat (length name) < 2 ^ 31 -> (i < length name)%nat -> (length name - i <= fuel)%nat ->
  exists w' err r, query_loop proc_send fuel w name i srv = Ok (w', err, r).
Proof.
  intros Hh. induction fuel as [|fuel IH]; intros w name i srv Hl Hi Hf; [lia|]. cbn [query_loop].
  unfold lookup_copy, lookup_size. rewrite (u32_small (length name - i)) by lia.
  destruct (memcpy_spec (replicate (S (length name)) 0) 0 (drop (Z.to_nat (Z.of_nat i + 1)) (name ++ [0])) (length name - i)) as (data & -> & _);
    [lia|lia|rewrite length_replicate; lia|rewrite length_drop, length_app; simpl; lia|].
  cbn [rbind]. set (m := lookup_msg _ _ _ _). pose proof (Hh w (port srv) m srv eq_refl) as Hsz. cbn [i_size m lookup_msg] in Hsz. unfold lookup_size in Hsz.
  rewrite (u32_small (length name - i)) in Hsz by lia.
  destruct (proc_send w (port srv) m) as [[w1 e] r]. cbn [snd] in Hsz. case_decide as E1; [eauto|]. case_decide as E2; [eauto|].
  rewrite (u32_small (i + r_lookup_err r)) by lia. rewrite decide_False by lia.
  rewrite u32_small by lia. case_decide as E3; [|eauto].
  replace (i + (r_lookup_err r + 1)) with (Z.of_nat (i + S (Z.to_nat (r_lookup_err r)))) in * by lia.
  apply IH; [done|lia|lia].
Qed.

(** C19: with servers that resolve no more characters than they are sent,
    [proc_portLookup] always returns: the walk over the servers ends after at
    most as many requests as the path has characters, and no copy leaves its
    buffer. *)
Theorem lookup_terminates w st mp mm name file dev : honest -> Z.of_nat (length name) < 2 ^ 31 -> name <> [] ->
  exists w' e f d, proc_portLookup proc_send w st mp mm (Some name) file dev = Ok (w', e, f, d).
Proof.
  intros Hh Hl Hne. unfold proc_portLookup. destruct (negb file && negb dev); [eauto 10|].
  destruct (is_root name) eqn:Er. { destruct (root_registered st); eauto 10. }
  destruct (_dcache_entryLookup st (dcache_strHash name) name); [eauto 10|].
  case_decide as Hs; [eauto 10|].
  destruct (bool_decide _ && negb mp); [eauto 10|].
  destruct (search_start_spec st name (root_oid st) Hs (S (length name)) (length name)) as (k & s & -> & H); [lia|lia|intros j; lia|].
  cbn [rbind]. destruct (negb (root_registered st) && _); [eauto 10|]. destruct mm; cbn [negb]; [|eauto 10].
  assert (Hk : (k < length name)%nat).
  { destruct H as [(? & _)|(? & _)]; [lia|]. destruct name as [|x [|y name]]; [done| |simpl; lia].
    simpl in Hs. injection Hs as ->. done. }
  destruct (query_loop_ok Hh (S (S (length name))) w name k s Hl Hk ltac:(lia)) as (w' & err & r & ->). cbn [rbind]. eauto 10.
Qed.

(** C35: the check of a server's answer is off by one.  When a server, asked
    for the rest of a path behind position [i], claims one character more than
    the path has left, the answer passes the test [i + err > len]: [i] becomes
    [len + 1], the loop does not see [i == len] and goes on to the next request,
    whose copy has the wrapped length [len - i = 2^32 - 1] and leaves its
    buffers. *)
Theorem lookup_overrun fuel w name (i : nat) srv : Z.of_nat (length name) < 2 ^ 31 -> (i < length name)%nat ->
  (forall data, lookup_copy name i = Ok data ->
     0 <= (proc_send w (port srv) (lookup_msg name i srv data)).1.2 /\
     r_lookup_err (proc_send w (port srv) (lookup_msg name i srv data)).2 = Z.of_nat (length name) - i) ->
  let next := Z.of_nat (length name) + 1 in
  (exists w' srv', query_loop proc_send (S (S fuel)) w name i srv = query_loop proc_send (S fuel) w' name next srv') /\
  lookup_size name next = 2 ^ 32 - 1 /\ lookup_copy name next = Fault /\
  query_loop proc_send (S (S fuel)) w name i srv = Fault.
Proof.
  intros Hl Hi Hans next.
  assert (lookup_size name next = 2 ^ 32 - 1) as Hsz.
  { unfold lookup_size, next. replace (_ - _) with (2 ^ 32 - 1 + (-1) * 2 ^ 32) by lia. unfold u32, wrap. by rewrite Z_mod_plus_full. }
  assert (lookup_copy name next = Fault) as Hc.
  { unfold lookup_copy, memcpy. rewrite Hsz, length_replicate. rewrite decide_False; [done|]. lia. }
  assert (exists w' srv', query_loop proc_send (S (S fuel)) w name i srv = query_loop proc_send (S fuel) w' name next srv') as Hq.
  { assert (exists data, lookup_copy name i = Ok data) as [data Hd].
    { unfold lookup_copy, lookup_size. rewrite (u32_small (length name - i)) by lia. unfold memcpy. rewrite decide_True; [eauto|].
      rewrite length_replicate, length_drop, length_app. simpl. lia. }
    destruct (Hans data Hd) as [He Hr]. cbn [query_loop]. rewrite Hd. cbn [rbind].
    destruct (proc_send w (port srv) (lookup_msg name i srv data)) as [[w1 e] r]. cbn [fst snd] in He, Hr. rewrite Hr.
    rewrite !(decide_False (P := _ < 0)) by lia. rewrite (u32_small (i + _)) by lia. rewrite decide_False by lia.
    replace (i + (length name - i + 1)) with next by (unfold next; lia). rewrite u32_small by (unfold next; lia).
    rewrite decide_True by (unfold next; lia). eauto. }
  split_and!; [done|done|done|]. destruct Hq as (w' & srv' & ->). cbn [query_loop]. by rewrite Hc.
Qed.

End Query.

(** A server that resolves one character per request. *)
Definition step_server (w : unit) (p : Z) (m : msg_t) : unit * Z * reply_t :=
  ((), EOK, Reply 0 0 (Oid 0 0) 0 0 (Z.min 1 (i_size m - 1)) (Oid p 1) (Oid p 2) []).

Lemma lookup_terminates_witness :
  exists w' e f d, proc_portLookup step_server () dir_names true true (Some [47; 97; 47; 98; 47; 99]) true true = Ok (w', e, f, d).
Proof. apply lookup_terminates; [|by vm_compute|done]. intros w p m dir _. unfold step_server. cbn. lia. Defined.

(** A server that claims one character too many. *)
Definition greedy_server (w : unit) (p : Z) (m : msg_t) : unit * Z * reply_t :=
  ((), EOK, Reply 0 0 (Oid 0 0) 0 0 (i_size m) (Oid p 1) (Oid p 2) []).

Lemma lookup_overrun_witness :
  query_loop greedy_server 4 () [47; 120] 0%nat (Oid 9 0) = Fault /\
  proc_portLookup greedy_server () dir_names true true (Some [47; 120]) true true = Fault.
Proof.
  split; [|by vm_compute]. apply (lookup_overrun greedy_server 2 () [47; 120] 0%nat (Oid 9 0)); [by vm_compute|simpl; lia|].
  intros data _. done.
Defined.
