(* ===== verification/Threads.v ===== *)
(** * Thread manager (proc/threads.c, proc/threads.h)

    The scheduler's state and every operation that moves a thread between its
    places: the eight ready queues, the processors' current slots, wait queues,
    the tree of sleeping threads, the ghost list of ended threads and the
    processes' own thread lists.

    Queues are the rings of lib/list.c and are represented by the sequence
    [list_program_refines] of [LibList] relates them to ([list_add],
    [list_del]); the two trees are those of lib/rb.c, represented by their
    ordered member list, with the insertion [ins] and the removal of
    [RbOps].  An unlink of a node that is not linked is a [Fault].

    [hal_getTimer], [hal_cpuGetID] and the value in the saved context are
    arguments of the operations; [hal_cpuPushSignal] and the timer macros
    differ between processors and are the fields of the class [Hal].  Each
    operation is one critical section of [threads_common.spinlock].  The
    performance monitor ([_perf_*]), the stack canary and the NDEBUG checks are
    not modelled. *)

From S2P Require Import Prelude.
From S2P Require Import LibList.
From S2P Require Import RbOps.

(** ** Processor-dependent operations *)
Class Hal := {
  hal_cpuGetCount : nat;
  TIMER_US2CYC : Z -> Z;
  TIMER_CYC2US : Z -> Z;
  (** [hal_cpuPushSignal] on the kernel stack of a thread, for a signal *)
  hal_cpuPushSignal : loc -> Z -> Z;
}.

(** ** Data *)
Inductive tstate := READY | SLEEP.

#[export] Instance tstate_eq_dec : EqDecision tstate.
Proof. solve_decision. Defined.

(** [thread_t]; [wait] is the address of the queue head the thread waits on,
    [retval] the return-value register of its saved context. *)
Record thread := Thread {
  thread_id : Z; refs : Z; process : ptr;
  wait : ptr; wakeup : Z;
  priority : nat; exit : bool; state : tstate; interruptible : bool;
  sigmask : Z; sigpend : Z;
  startTime : Z; cpuTime : Z; lastTime : Z;
  retval : Z }.

Definition set_refs (n : Z) (t : thread) : thread :=
  Thread (thread_id t) n (process t) (wait t) (wakeup t) (priority t) (exit t) (state t) (interruptible t)
    (sigmask t) (sigpend t) (startTime t) (cpuTime t) (lastTime t) (retval t).
(** The scheduling fields: [state], [wait], [wakeup], [interruptible]. *)
Definition set_sched (st : tstate) (q : ptr) (w : Z) (i : bool) (t : thread) : thread :=
  Thread (thread_id t) (refs t) (process t) q w (priority t) (exit t) st i
    (sigmask t) (sigpend t) (startTime t) (cpuTime t) (lastTime t) (retval t).
Definition set_exit (t : thread) : thread :=
  Thread (thread_id t) (refs t) (process t) (wait t) (wakeup t) (priority t) true (state t) (interruptible t)
    (sigmask t) (sigpend t) (startTime t) (cpuTime t) (lastTime t) (retval t).
Definition set_sigpend (v : Z) (t : thread) : thread :=
  Thread (thread_id t) (refs t) (process t) (wait t) (wakeup t) (priority t) (exit t) (state t) (interruptible t)
    (sigmask t) v (startTime t) (cpuTime t) (lastTime t) (retval t).
Definition set_times (cpu last : Z) (t : thread) : thread :=
  Thread (thread_id t) (refs t) (process t) (wait t) (wakeup t) (priority t) (exit t) (state t) (interruptible t)
    (sigmask t) (sigpend t) (startTime t) cpu last (retval t).
Definition set_retval (v : Z) (t : thread) : thread :=
  Thread (thread_id t) (refs t) (process t) (wait t) (wakeup t) (priority t) (exit t) (state t) (interruptible t)
    (sigmask t) (sigpend t) (startTime t) (cpuTime t) (lastTime t) v.

(** A queue head [thread_t *]: the value [(void * )-1] of a wakeup that found
    nobody waiting, or a ring (NULL when it is empty). *)
Inductive wqueue := Token | Waiters (l : list loc).

(** The part of [process_t] the thread manager works on: the rings of its
    threads and of its ended threads, the address of the [reaper] head, the
    pending signals, whether [sighandler] and [pmapp] are set. *)
Record proc := Proc {
  p_threads : list loc; p_ghosts : list loc; p_reaper : loc;
  p_sigpend : Z; sighandler : bool; pmapp : bool }.

(** [threads_common], the thread and process objects and the queue heads. *)
Record common := Common {
  ready : list (list loc);
  current : list ptr;
  sleeping : list loc;
  idtree : list loc;
  ghosts : list loc;
  executions : Z;
  utcoffs : Z;
  hptimer : Z;  (** the last [hal_setWakeup] *)
  queues : gmap loc wqueue;
  threads : gmap loc thread;
  procs : gmap loc proc }.

(** The address of the head [threads_common.reaper]. *)
Definition reaper : loc := 1%positive.

Definition NPRIO : nat := 8.

Definition set_ready r (s : common) : common :=
  Common r (current s) (sleeping s) (idtree s) (ghosts s) (executions s) (utcoffs s) (hptimer s) (queues s) (threads s) (procs s).
Definition set_current c (s : common) : common :=
  Common (ready s) c (sleeping s) (idtree s) (ghosts s) (executions s) (utcoffs s) (hptimer s) (queues s) (threads s) (procs s).
Definition set_sleeping l (s : common) : common :=
  Common (ready s) (current s) l (idtree s) (ghosts s) (executions s) (utcoffs s) (hptimer s) (queues s) (threads s) (procs s).
Definition set_idtree l (s : common) : common :=
  Common (ready s) (current s) (sleeping s) l (ghosts s) (executions s) (utcoffs s) (hptimer s) (queues s) (threads s) (procs s).
Definition set_ghosts g (s : common) : common :=
  Common (ready s) (current s) (sleeping s) (idtree s) g (executions s) (utcoffs s) (hptimer s) (queues s) (threads s) (procs s).
Definition set_executions e (s : common) : common :=
  Common (ready s) (current s) (sleeping s) (idtree s) (ghosts s) e (utcoffs s) (hptimer s) (queues s) (threads s) (procs s).
Definition set_utcoffs o (s : common) : common :=
  Common (ready s) (current s) (sleeping s) (idtree s) (ghosts s) (executions s) o (hptimer s) (queues s) (threads s) (procs s).
Definition set_hptimer w (s : common) : common :=
  Common (ready s) (current s) (sleeping s) (idtree s) (ghosts s) (executions s) (utcoffs s) w (queues s) (threads s) (procs s).
Definition set_queues q (s : common) : common :=
  Common (ready s) (current s) (sleeping s) (idtree s) (ghosts s) (executions s) (utcoffs s) (hptimer s) q (threads s) (procs s).
Definition set_threads t (s : common) : common :=
  Common (ready s) (current s) (sleeping s) (idtree s) (ghosts s) (executions s) (utcoffs s) (hptimer s) (queues s) t (procs s).
Definition set_procs p (s : common) : common :=
  Common (ready s) (current s) (sleeping s) (idtree s) (ghosts s) (executions s) (utcoffs s) (hptimer s) (queues s) (threads s) p.

(** ** Access to the objects *)
Definition thr (s : common) (t : loc) : res thread := deref (threads s !! t).
Definition upd (f : thread -> thread) (t : loc) (s : common) : common := set_threads (alter f t (threads s)) s.

(** [LIST_REMOVE] and [LIST_ADD] on the ring behind a queue head. *)
Definition queue_remove (s : common) (q t : loc) : res common :=
  match queues s !! q with
  | Some (Waiters l) => if decide (t ∈ l) then Ok (set_queues (<[q := Waiters (list_del l t)]> (queues s)) s) else Fault
  | _ => Fault
  end.

Definition queue_add (s : common) (q t : loc) : res common :=
  match queues s !! q with
  | Some (Waiters l) => Ok (set_queues (<[q := Waiters (list_add l t)]> (queues s)) s)
  | _ => Fault
  end.

(** [LIST_ADD] on [threads_common.ready[p]]. *)
Definition ready_add (s : common) (p : nat) (t : loc) : res common :=
  let? l := deref (ready s !! p) in
  Ok (set_ready (<[p := list_add l t]> (ready s)) s).

Definition ghosts_add (s : common) (t : loc) : common := set_ghosts (list_add (ghosts s) t) s.

(** [threads_common.current[cpu]]; an index beyond the array is a fault. *)
Definition on_cpu (s : common) (cpu : nat) : res ptr := deref (current s !! cpu).

(** ** Comparison functions of the two trees *)
Definition wakeup_of (th : gmap loc thread) (t : loc) : Z := from_option wakeup 0 (th !! t).
Definition id_of (th : gmap loc thread) (t : loc) : Z := from_option thread_id 0 (th !! t).

Definition threads_sleepcmp (th : gmap loc thread) (t1 t2 : loc) : Z :=
  if wakeup_of th t2 <? wakeup_of th t1 then 1
  else if wakeup_of th t1 <? wakeup_of th t2 then -1
  else if id_of th t1 <? id_of th t2 then -1
  else if id_of th t2 <? id_of th t1 then 1
  else 0.

Definition threads_idcmp (th : gmap loc thread) (t1 t2 : loc) : Z :=
  if id_of th t1 <? id_of th t2 then -1
  else if id_of th t2 <? id_of th t1 then 1
  else 0.

(** [lib_rbInsert] and [lib_rbRemove] on the member lists of the trees. *)
Definition sleeping_insert (s : common) (t : loc) : common :=
  match ins (threads_sleepcmp (threads s)) t (sleeping s) with
  | Some l => set_sleeping l s
  | None => s
  end.

Definition sleeping_remove (s : common) (t : loc) : res common :=
  if decide (t ∈ sleeping s) then Ok (set_sleeping (filter (fun k => k <> t) (sleeping s)) s) else Fault.

Definition idtree_insert (s : common) (t : loc) : common :=
  match ins (threads_idcmp (threads s)) t (idtree s) with
  | Some l => set_idtree l s
  | None => s
  end.

Definition idtree_remove (s : common) (t : loc) : res common :=
  if decide (t ∈ idtree s) then Ok (set_idtree (filter (fun k => k <> t) (idtree s)) s) else Fault.

Section Ops.
Context `{Hal}.

(** ** Time management *)
Definition SYSTICK_INTERVAL : Z := 1000.

(** The high-precision timer variant (HPTIMER_IRQ). *)
Definition _threads_updateWakeup (s : common) (now : Z) (min : ptr) : res common :=
  let t := match min with Some t => Some t | None => head (sleeping s) end in
  let? wake :=
    match t with
    | Some t =>
        let? th := thr s t in
        Ok (if wakeup th <=? now then 1 else u64 (wakeup th - now))
    | None => Ok (TIMER_US2CYC SYSTICK_INTERVAL)
    end in
  let wake :=
    if TIMER_US2CYC (SYSTICK_INTERVAL + SYSTICK_INTERVAL / 8) <? wake then TIMER_US2CYC SYSTICK_INTERVAL else wake in
  Ok (set_hptimer wake s).

(** ** Sleeping and waiting *)
Definition _proc_threadDequeue (s : common) (t : loc) : res common :=
  let? th := thr s t in
  let? s := match wait th with
            | Some q => queue_remove s q t
            | None => Ok s
            end in
  let? s := if wakeup th =? 0 then Ok s else sleeping_remove s t in
  let s := upd (set_sched READY None 0 false) t s in
  if decide (Some t ∈ current s) then Ok s else ready_add s (priority th) t.

(** [_proc_threadEnqueue] by the thread on [cpu]. *)
Definition _proc_threadEnqueue (s : common) (cpu : nat) (queue : loc) (timeout : Z) (intr : bool) (now : Z) : res common :=
  let? q := deref (queues s !! queue) in
  match q with
  | Token => Ok (set_queues (<[queue := Waiters []]> (queues s)) s)
  | Waiters _ =>
      let? cur := on_cpu s cpu in
      let? t := deref cur in
      let? _ := thr s t in
      let? s := queue_add s queue t in
      let s := upd (set_sched SLEEP (Some queue) 0 intr) t s in
      if timeout =? 0 then Ok s
      else
        let s := upd (set_sched SLEEP (Some queue) (u64 (now + TIMER_US2CYC timeout)) intr) t s in
        let s := sleeping_insert s t in
        _threads_updateWakeup s now None
  end.

Definition _proc_threadWakeup (s : common) (queue : loc) : res common :=
  let? q := deref (queues s !! queue) in
  match q with
  | Waiters (t :: _) => _proc_threadDequeue s t
  | _ => Ok s
  end.

Definition proc_threadWakeup (s : common) (queue : loc) : res (common * Z) :=
  let? q := deref (queues s !! queue) in
  match q with
  | Waiters (_ :: _) =>
      let? s := _proc_threadWakeup s queue in
      Ok (s, 1)
  | _ => Ok (set_queues (<[queue := Token]> (queues s)) s, 0)
  end.

(** [while ( *queue != NULL) { _proc_threadWakeup(queue); ret++; }] *)
Fixpoint broadcast_loop (fuel : nat) (s : common) (queue : loc) (ret : Z) : res (common * Z) :=
  match fuel with
  | O => NoFuel
  | S fuel =>
      let? q := deref (queues s !! queue) in
      match q with
      | Waiters [] => Ok (s, ret)
      | _ =>
          let? s := _proc_threadWakeup s queue in
          broadcast_loop fuel s queue (ret + 1)
      end
  end.

Definition queue_fuel (s : common) : nat := 2 + size (threads s).

Definition proc_threadBroadcast (s : common) (queue : loc) : res (common * Z) :=
  let? q := deref (queues s !! queue) in
  match q with
  | Token => Ok (s, 0)
  | Waiters _ => broadcast_loop (queue_fuel s) s queue 0
  end.

(** ** Timer interrupt *)
Fixpoint timeintr_loop (fuel : nat) (s : common) (now : Z) : res (common * ptr) :=
  match fuel with
  | O => NoFuel
  | S fuel =>
      match head (sleeping s) with
      | None => Ok (s, None)
      | Some t =>
          let? th := thr s t in
          if now <? wakeup th then Ok (s, Some t)
          else
            let? s := _proc_threadDequeue s t in
            timeintr_loop fuel (upd (set_retval (- ETIME)) t s) now
      end
  end.

Definition threads_timeintr (s : common) (cpu : nat) (now : Z) : res common :=
  match cpu with
  | S _ => Ok s
  | O =>
      let? r := timeintr_loop (1 + length (sleeping s)) s now in
      let (s, t) := r : common * ptr in
      _threads_updateWakeup s now t
  end.

(** ** Scheduler *)
Definition threads_cpuTimeCalc (s : common) (cur selected : ptr) (timer : Z) : common :=
  let now := TIMER_CYC2US timer in
  let s := match cur with
           | Some c => upd (fun th => set_times (u64 (cpuTime th + (now - lastTime th))) now th) c s
           | None => s
           end in
  match selected with
  | Some t => if decide (cur = selected) then s else upd (fun th => set_times (cpuTime th) now th) t s
  | None => s
  end.

(** The loop that takes the next thread; the threads it meets that were told
    to exit go to the ghost list. *)
Fixpoint select_loop (fuel : nat) (s : common) (i : nat) : res (common * ptr) :=
  match fuel with
  | O => NoFuel
  | S fuel =>
      if decide (i < NPRIO)%nat then
        let? l := deref (ready s !! i) in
        match l with
        | [] => select_loop fuel s (i + 1)
        | t :: _ =>
            let s := set_ready (<[i := list_del l t]> (ready s)) s in
            let? th := thr s t in
            if negb (exit th) then Ok (s, Some t)
            else
              let s := ghosts_add s t in
              let? s := _proc_threadWakeup s reaper in
              select_loop fuel s i
        end
      else Ok (s, None)
  end.

Definition queue_length (s : common) (q : loc) : nat :=
  match queues s !! q with Some (Waiters l) => length l | _ => 0 end.

Definition select_fuel (s : common) : nat := 1 + NPRIO + length (concat (ready s)) + queue_length s reaper.

(** Signals pending for the thread that was selected. *)
Definition schedule_signals (s : common) (t : loc) : res common :=
  let? th := thr s t in
  match process th with
  | None => Ok s
  | Some p =>
      let? pr := deref (procs s !! p) in
      if negb (pmapp pr) then Ok s
      else
        let sig := Z.land (Z.lor (sigpend th) (p_sigpend pr)) (u32 (Z.lnot (sigmask th))) in
        if (sig =? 0) || negb (sighandler pr) then Ok s
        else
          let sig := lastbit sig in
          if hal_cpuPushSignal t sig =? EOK then
            let clear v := Z.land v (u32 (Z.lnot (Z.shiftl 1 sig))) in
            let s := upd (set_sigpend (clear (sigpend th))) t s in
            Ok (set_procs (<[p := Proc (p_threads pr) (p_ghosts pr) (p_reaper pr) (clear (p_sigpend pr)) (sighandler pr) (pmapp pr)]> (procs s)) s)
          else Ok s
  end.

(** [threads_schedule] on [cpu]; [context] is the return value in the context
    the interrupt or [hal_cpuReschedule] saved. *)
Definition threads_schedule (s : common) (cpu : nat) (context : Z) (timer : Z) : res common :=
  let s := set_executions (u32 (executions s + 1)) s in
  let? cur := on_cpu s cpu in
  let s := set_current (<[cpu := None]> (current s)) s in
  let? s := match cur with
            | None => Ok s
            | Some c =>
                let? th := thr s c in
                let s := upd (set_retval context) c s in
                if decide (state th = READY) then ready_add s (priority th) c else Ok s
            end in
  let? r := select_loop (select_fuel s) s 0 in
  let (s, selected) := r : common * ptr in
  let? s := match selected with
            | None => Ok s
            | Some t => schedule_signals (set_current (<[cpu := Some t]> (current s)) s) t
            end in
  Ok (threads_cpuTimeCalc s cur selected timer).

Definition proc_current (s : common) (cpu : nat) : res ptr := on_cpu s cpu.

(** The scheduler entered by the running thread, with EOK as its default
    return value. *)
Definition hal_cpuReschedule (s : common) (cpu : nat) (timer : Z) : res common := threads_schedule s cpu EOK timer.

(** ** Waiting: the operations that block

    The result says whether the caller returned at once; otherwise the
    thread left its processor and its return value is the [retval] it is
    resumed with. *)
Definition proc_threadWaitEx (s : common) (cpu : nat) (queue : loc) (timeout : Z) (intr : bool) (now : Z) : res (common * bool) :=
  let? s := _proc_threadEnqueue s cpu queue timeout intr now in
  let? q := deref (queues s !! queue) in
  match q with
  | Waiters [] => Ok (s, true)
  | _ =>
      let? s := hal_cpuReschedule s cpu now in
      Ok (s, false)
  end.

Definition _proc_threadWait (s : common) (cpu : nat) (queue : loc) (timeout : Z) (now : Z) : res (common * bool) :=
  proc_threadWaitEx s cpu queue timeout false now.
Definition proc_threadWait (s : common) (cpu : nat) (queue : loc) (timeout now : Z) := proc_threadWaitEx s cpu queue timeout false now.
Definition proc_threadWaitInterruptible (s : common) (cpu : nat) (queue : loc) (timeout now : Z) := proc_threadWaitEx s cpu queue timeout true now.

(** [proc_threadSleep] up to its [hal_cpuReschedule]. *)
Definition sleep_enter (s : common) (cpu : nat) (us : Z) (now : Z) : res common :=
  let? cur := on_cpu s cpu in
  let? t := deref cur in
  let? _ := thr s t in
  let s := upd (set_sched SLEEP None (u64 (now + TIMER_US2CYC us)) true) t s in
  let s := sleeping_insert s t in
  _threads_updateWakeup s now None.

Definition proc_threadSleep (s : common) (cpu : nat) (us : Z) (now : Z) : res common :=
  let? s := sleep_enter s cpu us now in
  hal_cpuReschedule s cpu now.

(** The value [proc_threadSleep] returns to the resumed thread. *)
Definition sleep_result (err : Z) : Z := if err =? - ETIME then EOK else err.

Definition proc_threadWakeupYield (s : common) (cpu : nat) (queue : loc) (now : Z) : res common :=
  let? q := deref (queues s !! queue) in
  match q with
  | Waiters (_ :: _) =>
      let? s := _proc_threadWakeup s queue in
      hal_cpuReschedule s cpu now
  | _ => Ok (set_queues (<[queue := Token]> (queues s)) s)
  end.

Definition proc_threadBroadcastYield (s : common) (cpu : nat) (queue : loc) (now : Z) : res common :=
  let? q := deref (queues s !! queue) in
  match q with
  | Waiters (_ :: _) =>
      let? r := broadcast_loop (queue_fuel s) s queue 0 in
      hal_cpuReschedule r.1 cpu now
  | _ => Ok (set_queues (<[queue := Token]> (queues s)) s)
  end.

(** ** Threads management *)

(** [proc_threadCreate]: [mem] is the thread object [vm_kmalloc] returned,
    [kstack] whether the kernel stack was allocated, [nid] the identifier that
    [thread_alloc] found.  [thread_alloc] links the thread in the tree of
    identifiers, and the second insertion finds it there. *)
Definition proc_threadCreate (s : common) (mem : ptr) (kstack : bool) (nid : Z) (proc : ptr) (prio : nat) (timer : Z) : res (common * Z) :=
  if decide (NPRIO <= prio)%nat then Ok (s, - EINVAL)
  else
    match mem with
    | None => Ok (s, - ENOMEM)
    | Some t =>
        if negb kstack then Ok (s, - ENOMEM)
        else
          let now := TIMER_CYC2US timer in
          let th := Thread nid 1 proc None 0 prio false READY false 0 0 now 0 now EOK in
          let s := set_threads (<[t := th]> (threads s)) s in
          let s := if nid =? 0 then s else idtree_insert s t in
          let? s := match proc with
                    | None => Ok s
                    | Some p =>
                        let? pr := deref (procs s !! p) in
                        Ok (set_procs (<[p := Proc (list_add (p_threads pr) t) (p_ghosts pr) (p_reaper pr) (p_sigpend pr) (sighandler pr) (pmapp pr)]> (procs s)) s)
                    end in
          let s := idtree_insert s t in
          let? s := ready_add s prio t in
          Ok (s, EOK)
    end.

Definition _thread_interrupt (s : common) (t : loc) : res common :=
  let? s := _proc_threadDequeue s t in
  Ok (upd (set_retval (- EINTR)) t s).

(** [proc_threadEnd] up to its [hal_cpuReschedule]. *)
Definition end_enter (s : common) (cpu : nat) : res common :=
  let? cur := on_cpu s cpu in
  let? t := deref cur in
  let s := set_current (<[cpu := None]> (current s)) s in
  let s := ghosts_add s t in
  _proc_threadWakeup s reaper.

Definition proc_threadEnd (s : common) (cpu : nat) (now : Z) : res common :=
  let? s := end_enter s cpu in
  hal_cpuReschedule s cpu now.

Definition _proc_threadExit (s : common) (t : loc) : res common :=
  let? th := thr s t in
  let s := upd set_exit t s in
  if interruptible th then _thread_interrupt s t else Ok s.

(** The walk over a process' ring of threads. *)
Fixpoint destroy_loop (s : common) (ts : list loc) : res common :=
  match ts with
  | [] => Ok s
  | t :: ts =>
      let? s := _proc_threadExit s t in
      destroy_loop s ts
  end.

Definition proc_threadsDestroy (s : common) (p : loc) : res common :=
  let? pr := deref (procs s !! p) in
  destroy_loop s (p_threads pr).

(** [thread_destroy]; the reference to the process it drops ([proc_put]) is
    outside the thread manager. *)
Definition thread_destroy (s : common) (t : loc) : res common :=
  let? th := thr s t in
  match process th with
  | None => Ok (set_threads (delete t (threads s)) s)
  | Some p =>
      let? pr := deref (procs s !! p) in
      if decide (t ∈ p_threads pr) then
        let pr := Proc (list_del (p_threads pr) t) (list_add (p_ghosts pr) t) (p_reaper pr) (p_sigpend pr) (sighandler pr) (pmapp pr) in
        let s := set_procs (<[p := pr]> (procs s)) s in
        _proc_threadWakeup s (p_reaper pr)
      else Fault
  end.

Definition threads_findThread (s : common) (tid : Z) : common * ptr :=
  match list_find (fun t => id_of (threads s) t = tid) (idtree s) with
  | Some (_, t) => (upd (fun th => set_refs (refs th + 1) th) t s, Some t)
  | None => (s, None)
  end.

Definition threads_put (s : common) (t : loc) : res common :=
  let? th := thr s t in
  let remaining := refs th - 1 in
  let s := upd (set_refs remaining) t s in
  if remaining =? 0 then
    let? s := idtree_remove s t in
    thread_destroy s t
  else Ok s.

(** One turn of [proc_reap] on [cpu]: with no ghost the caller waits on the
    reaper queue, otherwise the first ghost is taken and released. *)
Definition proc_reap (s : common) (cpu : nat) (now : Z) : res (common * ptr) :=
  match ghosts s with
  | [] =>
      let? r := _proc_threadWait s cpu reaper 0 now in
      Ok (r.1, None)
  | g :: _ =>
      let s := set_ghosts (list_del (ghosts s) g) s in
      let? s := threads_put s g in
      Ok (s, Some g)
  end.

(** One turn of [proc_join] on [cpu]: the identifier of an ended thread of the
    caller's process, whose object is freed, or a wait. *)
Definition proc_join (s : common) (cpu : nat) (timeout now : Z) : res (common * option Z) :=
  let? cur := on_cpu s cpu in
  let? t := deref cur in
  let? th := thr s t in
  let? p := deref (process th) in
  let? pr := deref (procs s !! p) in
  match p_ghosts pr with
  | [] =>
      let? r := _proc_threadWait s cpu (p_reaper pr) timeout now in
      Ok (r.1, None)
  | g :: _ =>
      let? gh := thr s g in
      let pr := Proc (p_threads pr) (list_del (p_ghosts pr) g) (p_reaper pr) (p_sigpend pr) (sighandler pr) (pmapp pr) in
      let s := set_procs (<[p := pr]> (procs s)) s in
      Ok (set_threads (delete g (threads s)) s, Some (thread_id gh))
  end.

(** ** Time *)
Definition proc_uptime (timer : Z) : Z := TIMER_CYC2US timer.
Definition proc_gettime (s : common) (timer : Z) : Z * Z := (TIMER_CYC2US timer, utcoffs s).
Definition proc_settime (s : common) (offs : Z) : common * Z := (set_utcoffs offs s, EOK).

Definition proc_nextWakeup (s : common) (now : Z) : res Z :=
  match head (sleeping s) with
  | None => Ok 0
  | Some t =>
      let? th := thr s t in
      Ok (if wakeup th <=? now then 0 else u64 (wakeup th - now))
  end.

(** ** Signals *)
Definition signal_kill : Z := 1.
Definition signal_segv : Z := 2.
Definition signal_illegal : Z := 3.

(** The first thread of the process that does not mask the signal; it is
    interrupted if it sleeps interruptibly. *)
Fixpoint sig_loop (s : common) (ts : list loc) (sigbit : Z) : res common :=
  match ts with
  | [] => Ok s
  | t :: ts =>
      let? th := thr s t in
      if Z.land sigbit (Z.lnot (sigmask th)) =? 0 then sig_loop s ts sigbit
      else if interruptible th then _thread_interrupt s t
      else Ok s
  end.

(** The default action that precedes the critical section: [proc_kill]. *)
Definition sigpost_kill (s : common) (p : loc) (sig : Z) : res common :=
  let? pr := deref (procs s !! p) in
  let fatal := (sig =? signal_segv) || (sig =? signal_illegal) in
  if (fatal && negb (sighandler pr)) || (sig =? signal_kill) then proc_threadsDestroy s p else Ok s.

(** The critical section of [threads_sigpost], with the flag [kill]. *)
Definition sigpost_deliver (s : common) (p : loc) (thread : ptr) (sig : Z) : res (common * bool) :=
  let sigbit := Z.shiftl 1 sig in
  let? pr := deref (procs s !! p) in
  let to_process :=
    let s := set_procs (<[p := Proc (p_threads pr) (p_ghosts pr) (p_reaper pr) (u32 (Z.lor (p_sigpend pr) sigbit)) (sighandler pr) (pmapp pr)]> (procs s)) s in
    match p_threads pr with
    | [] => Fault
    | ts => let? s := sig_loop s ts sigbit in Ok (s, false)
    end in
  match thread with
  | None => to_process
  | Some t =>
      if hal_cpuPushSignal t sig =? EOK then to_process
      else
        let? th := thr s t in
        let s := upd (set_sigpend (u32 (Z.lor (sigpend th) sigbit))) t s in
        if (sig =? signal_segv) || (sig =? signal_illegal) then
          let? s := _proc_threadExit s t in
          Ok (s, true)
        else Ok (s, false)
  end.

Definition threads_sigpost (s : common) (cpu : nat) (p : loc) (thread : ptr) (sig : Z) (now : Z) : res (common * Z) :=
  if sig =? 0 then Ok (s, EOK)
  else
    let? s := sigpost_kill s p sig in
    let? r := sigpost_deliver s p thread sig in
    let (s, kill) := r : common * bool in
    let? s := hal_cpuReschedule s cpu now in
    let? s := if kill then proc_threadsDestroy s p else Ok s in
    Ok (s, EOK).

(** ** Initialization *)

(** The empty queues and trees. *)
Definition threads_reset : common :=
  Common (replicate NPRIO []) (replicate hal_cpuGetCount None) [] [] [] 0 0 0 {[reaper := Waiters []]} ∅ ∅.

(** The idle threads, one per processor; [mems] are the outcomes of the
    allocations [proc_threadCreate] makes for them. *)
Fixpoint idle_loop (s : common) (mems : list (ptr * bool * Z)) (timer : Z) : res common :=
  match mems with
  | [] => Ok s
  | (mem, kstack, nid) :: mems =>
      let? r := proc_threadCreate s mem kstack nid None (NPRIO - 1) timer in
      idle_loop r.1 mems timer
  end.

Definition _threads_init (mems : list (ptr * bool * Z)) (timer : Z) : res common :=
  idle_loop threads_reset (take hal_cpuGetCount mems) timer.

End Ops.
