(* ===== verification/ThreadsInv.v ===== *)
(** * Thread manager: the scheduler invariant

    Every live thread has exactly one place.  A thread in state READY is on
    the ready queue of its priority, current on one processor, or on the ghost
    list; a thread in state SLEEP is on the queue its [wait] names and, with a
    deadline, in the sleeping tree (and may still be current on a processor
    that has not rescheduled).  The lemmas show that the primitive
    transitions of [Threads] return and keep the invariant. *)

From Stdlib Require Import ZArith Lia.
From S2P Require Import Prelude.
From S2P Require Import LibList.
From S2P Require Import RbOps.
From S2P Require Import Threads.

(** ** Lists *)
Lemma list_del_perm {A} `{EqDecision A} (l : list A) x : x ∈ l -> l ≡ₚ x :: list_del l x.
Proof.
  induction l as [|y l IH]; [by intros ?%not_elem_of_nil|]. simpl. intros Hx. case_decide as E.
  - by subst.
  - apply elem_of_cons in Hx as [->|Hx]; [done|]. rewrite (IH Hx) at 1. by rewrite (perm_swap x y).
Qed.

Lemma list_del_NoDup {A} `{EqDecision A} (l : list A) x : NoDup l -> x ∈ l -> NoDup (list_del l x) /\ forall y, y ∈ list_del l x <-> y ∈ l /\ y <> x.
Proof.
  intros Hn Hx. pose proof (list_del_perm l x Hx) as Hp. rewrite Hp in Hn. apply NoDup_cons in Hn as [Hnx Hn].
  split; [done|]. intros y. assert (y ∈ l <-> y = x \/ y ∈ list_del l x) as -> by (rewrite Hp at 1; apply elem_of_cons).
  split; [|naive_solver]. intros Hy. split; [by right|]. intros ->. done.
Qed.

Lemma list_del_head {A} `{EqDecision A} (x : A) l : list_del (x :: l) x = l.
Proof. simpl. by rewrite decide_True. Qed.

Lemma concat_insert_perm {A} (rs : list (list A)) p l l' : rs !! p = Some l ->
  concat (<[p := l']> rs) ++ l ≡ₚ concat rs ++ l'.
Proof.
  revert p. induction rs as [|r rs IH]; intros [|p]; simpl; intros Hp; simplify_eq.
  - rewrite <- !(assoc_L (++)). rewrite (Permutation_app_comm (concat rs) l), (Permutation_app_comm (concat rs) l').
    rewrite !(assoc_L (++)). by rewrite (Permutation_app_comm l' l).
  - by rewrite <- !(assoc_L (++)), (IH p Hp).
Qed.

Lemma elem_of_concat_lookup {A} (rs : list (list A)) (x : A) : x ∈ concat rs <-> exists p l, rs !! p = Some l /\ x ∈ l.
Proof.
  induction rs as [|r rs IH]; simpl.
  - split; [by intros ?%not_elem_of_nil|]. intros (p & l & Hp & _). by rewrite lookup_nil in Hp.
  - rewrite elem_of_app, IH. split.
    + intros [Hx|(p & l & Hp & Hx)]; [by exists 0%nat, r|by exists (S p), l].
    + intros ([|p] & l & Hp & Hx); simplify_eq/=; [by left|right; eauto].
Qed.

Lemma filter_ext_in {A} (P Q : A -> Prop) `{!forall x, Decision (P x), !forall x, Decision (Q x)} (l : list A) :
  (forall x, x ∈ l -> P x <-> Q x) -> filter P l = filter Q l.
Proof.
  induction l as [|x l IH]; intros Hpq; [done|]. rewrite !filter_cons, IH by (intros y Hy; apply Hpq; by right).
  assert (P x <-> Q x) by (apply Hpq; by left). repeat case_decide; tauto.
Qed.

Lemma filter_all {A} (P : A -> Prop) `{!forall x, Decision (P x)} (l : list A) : Forall P l -> filter P l = l.
Proof. induction 1 as [|x l Hx Hl IH]; [done|]. by rewrite filter_cons, decide_True, IH. Qed.

(** The threads on the processors. *)
Definition running (cur : list ptr) : list loc := omap (fun o => o) cur.

Lemma running_elem cur t : t ∈ running cur <-> Some t ∈ cur.
Proof.
  unfold running. rewrite list_elem_of_omap. split.
  - intros (o & Ho & ->). done.
  - intros Ho. by exists (Some t).
Qed.

Lemma running_insert_perm cur c o o' : cur !! c = Some o ->
  running (<[c := o']> cur) ++ option_list o ≡ₚ running cur ++ option_list o'.
Proof.
  revert c. unfold running. induction cur as [|r cur IH]; intros [|c]; simpl; intros Hp; simplify_eq.
  - destruct o, o'; simpl; rewrite ?(right_id_L [] (++)), <- ?Permutation_cons_append; auto using perm_swap.
  - destruct r; simpl; by rewrite (IH c Hp).
Qed.

(** ** The order of the sleeping tree *)
#[export] Instance sleepcmp_order th : RbOrder (threads_sleepcmp th).
Proof.
  split.
  - intros a b. unfold threads_sleepcmp. repeat case_match; lia.
  - intros a b c. unfold threads_sleepcmp. repeat case_match; lia.
Qed.

Lemma sleepcmp_eq th a b : threads_sleepcmp th a b = 0 -> wakeup_of th a = wakeup_of th b /\ id_of th a = id_of th b.
Proof. unfold threads_sleepcmp. repeat case_match; lia. Qed.

Lemma sleepcmp_lt th a b : threads_sleepcmp th a b < 0 -> wakeup_of th a <= wakeup_of th b.
Proof. unfold threads_sleepcmp. repeat case_match; lia. Qed.

Lemma sorted_ext cmp cmp' l : (forall a b, a ∈ l -> b ∈ l -> cmp a b = cmp' a b) -> sorted cmp l -> sorted cmp' l.
Proof.
  intros He Hs. induction Hs as [|x l Hs IH Hf]; [constructor|]. constructor.
  - apply IH. intros a b Ha Hb. apply He; by right.
  - rewrite Forall_forall in *. intros y Hy. rewrite <- He; [auto|by left|by right].
Qed.

Lemma sorted_filter cmp (P : loc -> Prop) `{!forall x, Decision (P x)} l : sorted cmp l -> sorted cmp (filter P l).
Proof.
  intros Hs. induction Hs as [|x l Hs IH Hf]; [constructor|]. rewrite filter_cons. case_decide; [|done].
  constructor; [done|]. rewrite Forall_forall in *. intros y [_ Hy]%list_elem_of_filter. auto.
Qed.

Lemma ins_fresh cmp `{!RbOrder cmp} z l : sorted cmp l -> (forall x, x ∈ l -> cmp x z <> 0) ->
  exists l', ins cmp z l = Some l' /\ sorted cmp l' /\ (l' ≡ₚ z :: l).
Proof.
  intros Hs Hne. induction Hs as [|x l Hs IH Hf]; simpl.
  - exists [z]. split_and!; [done| |done]. repeat constructor.
  - rewrite decide_False by (apply Hne; left). case_decide as Hc.
    + exists (z :: x :: l). split_and!; [done| |done]. apply Z.gt_lt, cmp_flip in Hc.
      constructor; [by constructor|]. constructor; [done|]. rewrite Forall_forall in *. intros y Hy.
      by apply (cmp_trans z x y); [|apply Hf].
    + destruct IH as (l' & -> & Hs' & Hp). { intros y Hy. apply Hne. by right. }
      exists (x :: l'). split_and!; [done| |].
      * constructor; [done|]. rewrite Hp. constructor; [|done]. assert (cmp x z <> 0) by (apply Hne; left). lia.
      * rewrite Hp. apply perm_swap.
Qed.

Lemma sorted_NoDup cmp `{!RbOrder cmp} l : sorted cmp l -> NoDup l.
Proof.
  intros Hs. induction Hs as [|x l Hs IH Hf]; constructor; [|done]. intros Hx. rewrite Forall_forall in Hf.
  specialize (Hf x Hx). pose proof (proj1 (cmp_flip x x) Hf). lia.
Qed.

(** ** The invariant *)
Definition homes (s : common) : list loc := concat (ready s) ++ running (current s) ++ ghosts s.

(** [dn]: the threads already taken off the ghost list. *)
Definition thread_ok (dn : gset loc) (s : common) (t : loc) (th : thread) : Prop :=
  (priority th < NPRIO)%nat /\
  match state th with
  | READY => wait th = None /\ wakeup th = 0 /\ interruptible th = false /\ (t ∉ dn -> t ∈ homes s)
  | SLEEP =>
      (wait th <> None \/ wakeup th <> 0) /\ (t ∉ dn) /\
      (forall q, wait th = Some q -> exists l, queues s !! q = Some (Waiters l) /\ t ∈ l) /\
      (wakeup th <> 0 -> t ∈ sleeping s)
  end.

Record sched_inv (dn : gset loc) (s : common) : Prop := {
  i_len : length (ready s) = NPRIO;
  i_nodup : NoDup (homes s);
  i_home : forall t, t ∈ homes s -> is_Some (threads s !! t) /\ t ∉ dn;
  i_ready : forall p l t, ready s !! p = Some l -> t ∈ l ->
    exists th, threads s !! t = Some th /\ priority th = p /\ state th = READY;
  i_ghost : forall t, t ∈ ghosts s -> exists th, threads s !! t = Some th /\ state th = READY;
  i_thread : forall t th, threads s !! t = Some th -> thread_ok dn s t th;
  i_queue : forall q l, queues s !! q = Some (Waiters l) ->
    NoDup l /\ forall t, t ∈ l -> exists th, threads s !! t = Some th /\ wait th = Some q;
  i_sorted : sorted (threads_sleepcmp (threads s)) (sleeping s);
  i_sleeping : forall t, t ∈ sleeping s -> exists th, threads s !! t = Some th /\ wakeup th <> 0;
  i_ids : forall t1 t2 th1 th2, threads s !! t1 = Some th1 -> threads s !! t2 = Some th2 ->
    thread_id th1 = thread_id th2 -> t1 = t2;
  i_reaper : is_Some (queues s !! reaper);
  i_process : forall t th p, threads s !! t = Some th -> process th = Some p -> is_Some (procs s !! p);
}.

(** Facts every proof below uses. *)
Lemma inv_cur_lookup dn s c t : sched_inv dn s -> current s !! c = Some (Some t) ->
  exists th, threads s !! t = Some th /\ thread_ok dn s t th /\ (t ∉ dn) /\ t ∈ homes s.
Proof.
  intros Hi Hc. assert (t ∈ homes s) as Ht.
  { unfold homes. rewrite !elem_of_app, running_elem. right; left. by eapply list_elem_of_lookup_2. }
  destruct (i_home _ _ Hi t Ht) as [[th Hth] Hn]. exists th. split_and!; [done| |done|done]. by apply (i_thread _ _ Hi).
Qed.

Lemma inv_ready_lookup dn s p : sched_inv dn s -> (p < NPRIO)%nat -> exists l, ready s !! p = Some l.
Proof. intros Hi Hp. apply lookup_lt_is_Some_2. by rewrite (i_len _ _ Hi). Qed.

(** A sleeping thread is on no ready queue and no ghost. *)
Lemma inv_sleep_home dn s t th : sched_inv dn s -> threads s !! t = Some th -> state th = SLEEP ->
  t ∈ homes s -> Some t ∈ current s.
Proof.
  intros Hi Hth Hst. unfold homes. rewrite !elem_of_app, running_elem. intros [Hr|[Hc|Hg]]; [|done|].
  - apply elem_of_concat_lookup in Hr as (p & l & Hp & Hr).
    destruct (i_ready _ _ Hi _ _ _ Hp Hr) as (th' & ? & _ & ?). simplify_eq. congruence.
  - destruct (i_ghost _ _ Hi t Hg) as (th' & ? & ?). simplify_eq. congruence.
Qed.

(** *** Frames *)

(** The fields the invariant looks at. *)
Definition same_sched (a b : thread) : Prop :=
  thread_id a = thread_id b /\ process a = process b /\ wait a = wait b /\ wakeup a = wakeup b /\ priority a = priority b /\
  state a = state b /\ interruptible a = interruptible b.

Definition same_threads (m m' : gmap loc thread) : Prop := forall t, option_Forall2 same_sched (m !! t) (m' !! t).

Lemma same_threads_fwd m m' t a : same_threads m m' -> m !! t = Some a -> exists b, m' !! t = Some b /\ same_sched a b.
Proof. intros Hm Ha. specialize (Hm t). rewrite Ha in Hm. inversion Hm; subst; eauto. Qed.

Lemma same_threads_bwd m m' t b : same_threads m m' -> m' !! t = Some b -> exists a, m !! t = Some a /\ same_sched a b.
Proof. intros Hm Hb. specialize (Hm t). rewrite Hb in Hm. inversion Hm; subst; eauto. Qed.

Lemma same_threads_cmp m m' a b : same_threads m m' -> threads_sleepcmp m a b = threads_sleepcmp m' a b.
Proof.
  intros Hm. unfold threads_sleepcmp, wakeup_of, id_of.
  pose proof (Hm a) as Ha. pose proof (Hm b) as Hb.
  destruct Ha as [x x' (H1 & _ & _ & H2 & _)|]; destruct Hb as [y y' (H3 & _ & _ & H4 & _)|]; simpl; by rewrite ?H1, ?H2, ?H3, ?H4.
Qed.

Lemma inv_threads dn s m : same_threads (threads s) m -> sched_inv dn s -> sched_inv dn (set_threads m s).
Proof.
  intros Hm [Hlen Hnd Hh Hr Hg Ht Hq Hso Hsl Hid Hre Hpr].
  assert (forall t, is_Some (threads s !! t) -> is_Some (m !! t)) as Hdom.
  { intros t [a Ha]. destruct (same_threads_fwd _ _ _ _ Hm Ha) as (b & -> & _). eauto. }
  constructor; cbn; [done|done| | | | | | | | |done|].
  - intros t Hin. destruct (Hh t Hin). split; [by apply Hdom|done].
  - intros p l t Hp Hin. destruct (Hr p l t Hp Hin) as (a & Ha & Hpa & Hst).
    destruct (same_threads_fwd _ _ _ _ Hm Ha) as (b & Hb & _ & _ & _ & _ & Ep & Es & _).
    exists b. split_and!; [done|congruence|congruence].
  - intros t Hin. destruct (Hg t Hin) as (a & Ha & Hst).
    destruct (same_threads_fwd _ _ _ _ Hm Ha) as (b & Hb & _ & _ & _ & _ & Ep & Es & _).
    exists b. split; [done|congruence].
  - intros t b Hb. destruct (same_threads_bwd _ _ _ _ Hm Hb) as (a & Ha & Ei & _ & Ew & Eu & Ep & Es & En).
    pose proof (Ht t a Ha) as [Hp Hok]. split; [by rewrite <- Ep|]. rewrite <- Es, <- Ew, <- Eu, <- En. exact Hok.
  - intros q l Hl. destruct (Hq q l Hl) as [Hn Hin]. split; [done|]. intros t Htl.
    destruct (Hin t Htl) as (a & Ha & Hw). destruct (same_threads_fwd _ _ _ _ Hm Ha) as (b & Hb & _ & _ & Ew & _).
    exists b. split; [done|congruence].
  - apply (sorted_ext (threads_sleepcmp (threads s))); [|done]. intros. by apply same_threads_cmp.
  - intros t Hin. destruct (Hsl t Hin) as (a & Ha & Hw). destruct (same_threads_fwd _ _ _ _ Hm Ha) as (b & Hb & _ & _ & _ & Ew & _).
    exists b. split; [done|congruence].
  - intros t1 t2 b1 b2 H1 H2 E. destruct (same_threads_bwd _ _ _ _ Hm H1) as (a1 & Ha1 & E1 & _).
    destruct (same_threads_bwd _ _ _ _ Hm H2) as (a2 & Ha2 & E2 & _). apply (Hid t1 t2 a1 a2); [done|done|congruence].
  - intros t b p Hb Ep. destruct (same_threads_bwd _ _ _ _ Hm Hb) as (a & Ha & _ & Epr & _). apply (Hpr t a p Ha). congruence.
Qed.

Lemma same_threads_alter m f t : (forall th, same_sched th (f th)) -> same_threads m (alter f t m).
Proof.
  intros Hf t'. destruct (decide (t' = t)) as [->|Hne].
  - rewrite lookup_alter_eq. destruct (m !! t); constructor. apply Hf.
  - rewrite lookup_alter_ne by done. destruct (m !! t'); constructor. by repeat split.
Qed.

Lemma inv_upd dn s f t : (forall th, same_sched th (f th)) -> sched_inv dn s -> sched_inv dn (upd f t s).
Proof. intros Hf Hi. apply inv_threads; [by apply same_threads_alter|done]. Qed.

(** The invariant ignores the counters, the timer, the tree of identifiers and
    what the processes hold. *)
Lemma inv_hptimer dn s w : sched_inv dn s -> sched_inv dn (set_hptimer w s).
Proof. by intros []. Qed.
Lemma inv_executions dn s w : sched_inv dn s -> sched_inv dn (set_executions w s).
Proof. by intros []. Qed.
Lemma inv_utcoffs dn s w : sched_inv dn s -> sched_inv dn (set_utcoffs w s).
Proof. by intros []. Qed.
Lemma inv_idtree dn s w : sched_inv dn s -> sched_inv dn (set_idtree w s).
Proof. by intros []. Qed.
Lemma inv_procs dn s w : (forall p, is_Some (procs s !! p) -> is_Some (w !! p)) -> sched_inv dn s -> sched_inv dn (set_procs w s).
Proof. intros Hw []. constructor; try done. cbn. eauto. Qed.

(** Moves between the ready queues, the processors and the ghost list. *)
Lemma inv_homes dn s s' :
  sched_inv dn s ->
  threads s' = threads s -> queues s' = queues s -> sleeping s' = sleeping s -> procs s' = procs s ->
  length (ready s') = NPRIO -> NoDup (homes s') -> (forall t, t ∈ homes s' -> t ∈ homes s) ->
  (forall t th, threads s !! t = Some th -> state th = READY -> t ∈ homes s -> t ∈ homes s') ->
  (forall p l t, ready s' !! p = Some l -> t ∈ l -> exists th, threads s !! t = Some th /\ priority th = p /\ state th = READY) ->
  (forall t, t ∈ ghosts s' -> exists th, threads s !! t = Some th /\ state th = READY) ->
  sched_inv dn s'.
Proof.
  intros [Hlen Hnd Hh Hr Hg Ht Hq Hso Hsl Hid Hre Hpr] Et Eq Es Epr Hl Hn Hin Hkeep Hr' Hg'.
  constructor; rewrite ?Et, ?Eq, ?Es, ?Epr; try done.
  - intros t Hx. auto.
  - intros t th Hth. destruct (Ht t th Hth) as [Hp Hok]. split; [done|]. destruct (state th) eqn:Est.
    + destruct Hok as (? & ? & ? & Hx). split_and!; [done..|]. intros Hd. eapply Hkeep; eauto.
    + by rewrite Eq, Es.
Qed.

(** *** Waking a thread *)
Definition del_waiter (t : loc) (w : wqueue) : wqueue :=
  match w with Token => Token | Waiters l => Waiters (list_del l t) end.

(** The state after [t], whose record is [th], was woken. *)
Definition woken (s : common) (t : loc) (th : thread) : common :=
  Common
    (if decide (Some t ∈ current s) then ready s else alter (fun l => list_add l t) (priority th) (ready s))
    (current s) (filter (fun k => k <> t) (sleeping s)) (idtree s) (ghosts s) (executions s) (utcoffs s) (hptimer s)
    (del_waiter t <$> queues s) (alter (set_sched READY None 0 false) t (threads s)) (procs s).

Lemma list_del_notin {A} `{EqDecision A} (l : list A) x : x ∉ l -> list_del l x = l.
Proof.
  induction l as [|y l IH]; [done|]. rewrite not_elem_of_cons. intros [Hne Hn]. simpl.
  rewrite decide_False by congruence. by rewrite IH.
Qed.

Lemma filter_notin (l : list loc) x : x ∉ l -> filter (fun k => k <> x) l = l.
Proof.
  induction l as [|y l IH]; [done|]. rewrite not_elem_of_cons. intros [Hne Hn].
  rewrite filter_cons, decide_True by congruence. by rewrite IH.
Qed.

(** On every queue but the one it waits on, [list_del] of the thread changes
    nothing. *)
Lemma inv_del_waiter dn s t th q l : sched_inv dn s -> threads s !! t = Some th ->
  queues s !! q = Some (Waiters l) -> wait th <> Some q -> list_del l t = l.
Proof.
  intros Hi Hth Hl Hne. apply list_del_notin. intros Hin.
  destruct (i_queue _ _ Hi q l Hl) as [_ Hw]. destruct (Hw t Hin) as (th' & ? & ?). by simplify_eq.
Qed.

Lemma queues_del dn s t th : sched_inv dn s -> threads s !! t = Some th ->
  del_waiter t <$> queues s =
  match wait th with
  | Some q => match queues s !! q with
              | Some (Waiters l) => <[q := Waiters (list_del l t)]> (queues s)
              | _ => queues s
              end
  | None => queues s
  end.
Proof.
  intros Hi Hth. apply map_eq. intros k. rewrite lookup_fmap.
  assert (wait th <> Some k -> del_waiter t <$> queues s !! k = queues s !! k) as Hid.
  { intros Hne. destruct (queues s !! k) as [[|l]|] eqn:E; simpl; [done| |done].
    by rewrite (inv_del_waiter dn s t th k l). }
  destruct (wait th) as [q|]; [|by apply Hid]. destruct (decide (q = k)) as [->|Hne].
  - destruct (queues s !! k) as [[|l]|] eqn:E; simpl; by rewrite ?lookup_insert_eq.
  - rewrite Hid by congruence. destruct (queues s !! q) as [[|l]|]; by rewrite ?lookup_insert_ne.
Qed.

Lemma alter_insert_list (l : list (list loc)) p x y : l !! p = Some x -> <[p := list_add x y]> l = alter (fun l => list_add l y) p l.
Proof.
  revert p. induction l as [|z l IH]; intros [|p]; simpl; intros; simplify_eq; [done|]. f_equal. by apply IH.
Qed.

Lemma dequeue_eq dn s t th : sched_inv dn s -> threads s !! t = Some th -> state th = SLEEP ->
  _proc_threadDequeue s t = Ok (woken s t th).
Proof.
  intros Hi Hth Hst. destruct (i_thread _ _ Hi t th Hth) as [Hp Hok]. rewrite Hst in Hok.
  destruct Hok as (Hsome & Hdn & Hq & Hw).
  unfold _proc_threadDequeue, thr. run_step Hth.
  assert (exists s1, match wait th with Some q => queue_remove s q t | None => Ok s end = Ok s1 /\
    s1 = set_queues (del_waiter t <$> queues s) s) as (s1 & -> & ->).
  { rewrite (queues_del dn s t th Hi Hth). unfold queue_remove. destruct (wait th) as [q|]; [|eexists; split; [done|by destruct s]].
    destruct (Hq q eq_refl) as (l & -> & Hin). rewrite decide_True by done. eauto. }
  cbn [rbind].
  assert ((if wakeup th =? 0 then Ok (set_queues (del_waiter t <$> queues s) s) else sleeping_remove (set_queues (del_waiter t <$> queues s) s) t)
    = Ok (set_sleeping (filter (fun k => k <> t) (sleeping s)) (set_queues (del_waiter t <$> queues s) s))) as ->.
  { destruct (Z.eqb_spec (wakeup th) 0) as [E|E].
    - rewrite filter_notin; [by destruct s|]. intros Hin. destruct (i_sleeping _ _ Hi t Hin) as (th' & ? & ?). by simplify_eq.
    - unfold sleeping_remove. cbn [sleeping set_queues]. by rewrite decide_True by auto. }
  cbn [rbind upd set_threads set_sleeping set_queues current threads]. unfold woken. case_decide as Hc; [done|].
  unfold ready_add. cbn. destruct (inv_ready_lookup dn s (priority th) Hi Hp) as [l Hl].
  run_step Hl. unfold set_ready. cbn. by rewrite (alter_insert_list _ _ _ _ Hl).
Qed.

Lemma homes_ready_add s p t : (p < length (ready s))%nat ->
  homes (set_ready (alter (fun l => list_add l t) p (ready s)) s) ≡ₚ (t :: homes s).
Proof.
  intros Hp. unfold homes. cbn. apply lookup_lt_is_Some_2 in Hp as [l Hl].
  rewrite <- (alter_insert_list _ _ _ _ Hl). pose proof (concat_insert_perm (ready s) p l (list_add l t) Hl) as Hc.
  unfold list_add in Hc at 2. rewrite (Permutation_app_comm l [t]) in Hc. simpl in Hc.
  rewrite <- Permutation_middle in Hc. change (t :: concat (ready s) ++ l) with ((t :: concat (ready s)) ++ l) in Hc.
  apply Permutation_app_inv_r in Hc. by rewrite Hc.
Qed.

Lemma homes_woken dn s t th : sched_inv dn s -> threads s !! t = Some th -> state th = SLEEP ->
  NoDup (homes (woken s t th)) /\ forall t', t' ∈ homes (woken s t th) <-> t' = t \/ t' ∈ homes s.
Proof.
  intros Hi Hth Hst. pose proof (i_nodup _ _ Hi) as Hnd. destruct (i_thread _ _ Hi t th Hth) as [Hp _].
  unfold woken. case_decide as Hc.
  - change (homes _) with (homes s) at 1 2. split; [done|]. intros t'. split; [by right|].
    intros [->|]; [|done]. unfold homes. rewrite !elem_of_app, running_elem. auto.
  - assert (homes (woken s t th) ≡ₚ t :: homes s) as Hh.
    { rewrite <- (homes_ready_add s (priority th) t) by (rewrite (i_len _ _ Hi); done). unfold woken. by rewrite decide_False. }
    unfold woken in Hh. rewrite decide_False in Hh by done. split.
    + rewrite Hh. constructor; [|done]. intros Hin. by apply Hc, (inv_sleep_home dn s t th).
    + intros t'. rewrite Hh. apply elem_of_cons.
Qed.

Lemma wakeup_of_alter m t f t' : t' <> t -> wakeup_of (alter f t m) t' = wakeup_of m t'.
Proof. intros. unfold wakeup_of. by rewrite lookup_alter_ne. Qed.

Lemma id_of_alter m t f t' : (forall th, thread_id (f th) = thread_id th) -> id_of (alter f t m) t' = id_of m t'.
Proof.
  intros Hf. unfold id_of. destruct (decide (t' = t)) as [->|]; [|by rewrite lookup_alter_ne].
  rewrite lookup_alter_eq. by destruct (m !! t); simpl.
Qed.

Lemma sleepcmp_alter m t f a b : (forall th, thread_id (f th) = thread_id th) -> a <> t -> b <> t ->
  threads_sleepcmp m a b = threads_sleepcmp (alter f t m) a b.
Proof. intros Hf Ha Hb. unfold threads_sleepcmp. by rewrite !(id_of_alter _ _ _ _ Hf), !wakeup_of_alter. Qed.

Lemma alter_ids (m : gmap loc thread) t f : (forall th, thread_id (f th) = thread_id th) ->
  (forall t1 t2 (a b : thread), m !! t1 = Some a -> m !! t2 = Some b -> thread_id a = thread_id b -> t1 = t2) ->
  forall t1 t2 a b, alter f t m !! t1 = Some a -> alter f t m !! t2 = Some b -> thread_id a = thread_id b -> t1 = t2.
Proof.
  intros Hf Hid t1 t2 a b H1 H2 E.
  apply lookup_alter_Some in H1 as [(-> & a0 & H1 & ->)|[? H1]]; apply lookup_alter_Some in H2 as [(-> & b0 & H2 & ->)|[? H2]];
    rewrite ?Hf in E; eauto.
Qed.

Lemma ready_alter_inv (rs : list (list loc)) f p i l : alter f p rs !! i = Some l ->
  (i = p /\ exists y, rs !! p = Some y /\ l = f y) \/ rs !! i = Some l.
Proof.
  destruct (decide (i = p)) as [->|Hne].
  - rewrite list_lookup_alter_eq. intros (y & -> & Hy)%fmap_Some. left. eauto.
  - rewrite list_lookup_alter_ne by done. by right.
Qed.

Lemma inv_woken dn s t th : sched_inv dn s -> threads s !! t = Some th -> state th = SLEEP -> sched_inv dn (woken s t th).
Proof.
  intros Hi Hth Hst. destruct (homes_woken dn s t th Hi Hth Hst) as [Hnd Hin].
  pose proof (i_thread _ _ Hi t th Hth) as [Hp Hok]. rewrite Hst in Hok. destruct Hok as (Hsome & Hdn & Hq & Hw).
  destruct Hi as [Hlen _ Hh Hr Hg Ht Hqu Hso Hsl Hid Hre Hpr].
  constructor; cbn [threads queues sleeping ready ghosts woken current procs]; [|done| | | | | | | | | |].
  - case_decide; [done|]. by rewrite length_alter.
  - intros t' [->|Hx]%Hin; (split; [apply lookup_alter_is_Some|]); [by rewrite Hth|done|apply Hh, Hx|apply Hh, Hx].
  - intros p l t' Hl Ht'.
    assert ((t' = t /\ p = priority th) \/ exists l', ready s !! p = Some l' /\ t' ∈ l') as [[-> ->]|(l' & Hl' & Ht'')].
    { case_decide; [eauto|]. apply ready_alter_inv in Hl as [(-> & y & Hy & ->)|Hy]; [|eauto].
      unfold list_add in Ht'. apply elem_of_app in Ht' as [Hx|Hx%list_elem_of_singleton]; subst; eauto. }
    + rewrite lookup_alter_eq, Hth. eexists. by split_and!.
    + destruct (Hr p l' t' Hl' Ht'') as (a & Ha & ? & ?). rewrite lookup_alter_ne; [eauto|]. intros ->. simplify_eq. congruence.
  - intros t' Hx. destruct (Hg t' Hx) as (a & Ha & ?). rewrite lookup_alter_ne; [eauto|]. intros ->. simplify_eq. congruence.
  - intros t' a [(-> & b & Hb & ->)|[Hne Ha]]%lookup_alter_Some.
    + simplify_eq. split; [done|]. cbn. split_and!; [done..|]. intros _. apply Hin. by left.
    + destruct (Ht t' a Ha) as [? Hok]. split; [done|]. destruct (state a).
      * destruct Hok as (? & ? & ? & Hx). split_and!; [done..|]. intros. apply Hin. auto.
      * destruct Hok as (? & ? & Hx & Hy). split_and!; [done..| |].
        -- intros q Eq. destruct (Hx q Eq) as (l & El & Hl). cbn. rewrite lookup_fmap, El. eexists. split; [done|].
           destruct (decide (t ∈ l)) as [Htl|]; [|by rewrite list_del_notin].
           apply (list_del_NoDup l t); [by apply (Hqu q)|done|]. split; [done|congruence].
        -- intros Hwk. cbn. apply list_elem_of_filter. auto.
  - intros q l. rewrite lookup_fmap. intros (w & Hw' & Ew)%fmap_Some. destruct w as [|l0]; simplify_eq/=.
    destruct (Hqu q l0 Hw') as [Hn0 Hin0]. destruct (decide (t ∈ l0)) as [Htl|Htl].
    + destruct (list_del_NoDup l0 t Hn0 Htl) as [Hn1 Hin1]. split; [done|]. intros t' [Ht' Hne]%Hin1.
      rewrite lookup_alter_ne by done. auto.
    + rewrite list_del_notin by done. split; [done|]. intros t' Ht'. rewrite lookup_alter_ne; [auto|]. congruence.
  - apply (sorted_ext (threads_sleepcmp (threads s))); [|by apply sorted_filter].
    intros a b [? _]%list_elem_of_filter [? _]%list_elem_of_filter. by apply sleepcmp_alter.
  - intros t' [? Hx]%list_elem_of_filter. rewrite lookup_alter_ne by done. auto.
  - by apply alter_ids.
  - rewrite lookup_fmap. destruct Hre as [w ->]. eauto.
  - intros t' a p [(-> & b & Hb & ->)|[_ Ha]]%lookup_alter_Some; eauto.
Qed.

Lemma dequeue_ok dn s t th : sched_inv dn s -> threads s !! t = Some th -> state th = SLEEP ->
  _proc_threadDequeue s t = Ok (woken s t th) /\ sched_inv dn (woken s t th).
Proof. intros. split; [by eapply dequeue_eq|by apply inv_woken]. Qed.

(** *** Putting the running thread to sleep *)
Definition add_waiter (t : loc) (w : wqueue) : wqueue :=
  match w with Token => Token | Waiters l => Waiters (list_add l t) end.

(** The running thread [t] starts to wait on [q] (if any) until [w] (if not
    zero); [l] are then the members of the sleeping tree. *)
Definition asleep (s : common) (t : loc) (q : ptr) (w : Z) (i : bool) (l : list loc) : common :=
  Common (ready s) (current s) l (idtree s) (ghosts s) (executions s) (utcoffs s) (hptimer s)
    (match q with Some q => alter (add_waiter t) q (queues s) | None => queues s end)
    (alter (set_sched SLEEP q w i) t (threads s)) (procs s).

(** [t] runs on a processor and is not about to leave it. *)
Definition runs (s : common) (t : loc) (th : thread) : Prop :=
  Some t ∈ current s /\ threads s !! t = Some th /\ state th = READY.

Lemma runs_home dn s t th : sched_inv dn s -> runs s t th ->
  (t ∉ concat (ready s)) /\ (t ∉ ghosts s) /\ (t ∉ sleeping s) /\ (t ∉ dn) /\
  (priority th < NPRIO)%nat /\ forall q l, queues s !! q = Some (Waiters l) -> t ∉ l.
Proof.
  intros Hi (Hc & Hth & Hst). pose proof (i_nodup _ _ Hi) as Hnd. unfold homes in Hnd.
  apply NoDup_app in Hnd as (_ & Hd1 & Hnd). apply NoDup_app in Hnd as (_ & Hd2 & _).
  apply running_elem in Hc. destruct (i_home _ _ Hi t) as [_ Hdn].
  { unfold homes. rewrite !elem_of_app. auto. }
  destruct (i_thread _ _ Hi t th Hth) as [Hp Hok]. rewrite Hst in Hok. destruct Hok as (Hw & Hwk & _ & _).
  split_and!; [| | |done|done|].
  - intros Hx. apply (Hd1 t Hx). rewrite elem_of_app. by left.
  - intros Hx. by apply (Hd2 t).
  - intros Hx. destruct (i_sleeping _ _ Hi t Hx) as (? & ? & ?). by simplify_eq.
  - intros q l Hl Hx. destruct (i_queue _ _ Hi q l Hl) as [_ Hq]. destruct (Hq t Hx) as (? & ? & ?). by simplify_eq.
Qed.

Lemma asleep_queue s t q l : queues s !! q = Some (Waiters l) ->
  alter (add_waiter t) q (queues s) = <[q := Waiters (list_add l t)]> (queues s).
Proof.
  intros Hl. apply map_eq. intros k. destruct (decide (k = q)) as [->|Hne].
  - by rewrite lookup_alter_eq, lookup_insert_eq, Hl.
  - by rewrite lookup_alter_ne, lookup_insert_ne by done.
Qed.

Lemma inv_asleep dn s t th q w i l : sched_inv dn s -> runs s t th ->
  (forall q', q = Some q' -> exists l, queues s !! q' = Some (Waiters l)) ->
  (q <> None \/ w <> 0) ->
  sorted (threads_sleepcmp (alter (set_sched SLEEP q w i) t (threads s))) l ->
  (forall t', t' ∈ l <-> (t' = t /\ w <> 0) \/ t' ∈ sleeping s) ->
  sched_inv dn (asleep s t q w i l).
Proof.
  intros Hi Hrun Hq Hqw Hsort Hmem. destruct (runs_home dn s t th Hi Hrun) as (Hnr & Hng & Hns & Hdn & Hp & Hnq).
  destruct Hrun as (Hc & Hth & Hst). destruct Hi as [Hlen Hnd Hh Hr Hg Ht Hqu Hso Hsl Hid Hre Hpr].
  assert (forall k l, queues (asleep s t q w i l) !! k =
    if decide (q = Some k) then add_waiter t <$> queues s !! k else queues s !! k) as Hql.
  { intros k l'. cbn. destruct q as [q|]; [|done]. case_decide as E; [simplify_eq; by rewrite lookup_alter_eq|].
    by rewrite lookup_alter_ne by congruence. }
  assert (forall t', t' ∈ concat (ready s) \/ t' ∈ ghosts s \/ t' ∈ sleeping s -> t' <> t) as Hne.
  { intros t' Hx ->. tauto. }
  constructor; cbn [threads sleeping ready ghosts asleep current procs]; [done|done| | | | | |done| | | |].
  - intros t' Hx. destruct (Hh t' Hx). split; [by apply lookup_alter_is_Some|done].
  - intros p l' t' Hl Hx. rewrite lookup_alter_ne; [eauto|]. apply not_eq_sym, Hne. left. apply elem_of_concat_lookup. eauto.
  - intros t' Hx. rewrite lookup_alter_ne; [eauto|]. apply not_eq_sym, Hne. auto.
  - intros t' a [(-> & b & Hb & ->)|[Hnt Ha]]%lookup_alter_Some.
    + simplify_eq. split; [done|]. cbn [state set_sched wait wakeup]. split_and!; [done|done| |].
      * intros k ->. destruct (Hq k eq_refl) as [lk Hlk]. rewrite Hql, decide_True, Hlk by done. eexists. split; [done|].
        unfold list_add. apply elem_of_app. right. by apply list_elem_of_singleton.
      * intros Hw. apply Hmem. by left.
    + destruct (Ht t' a Ha) as [? Hok]. split; [done|]. destruct (state a); [exact Hok|].
      destruct Hok as (? & ? & Hx & Hy). split_and!; [done..| |].
      * intros k Ek. destruct (Hx k Ek) as (lk & Elk & Hlk). rewrite Hql, Elk. case_decide; [|eauto].
        eexists. split; [done|]. unfold list_add. apply elem_of_app. by left.
      * intros Hwk. apply Hmem. auto.
  - intros k lk. rewrite Hql. case_decide as E.
    + subst q. destruct (Hq k eq_refl) as [l0 Hl0]. rewrite Hl0. intros [= <-]. destruct (Hqu k l0 Hl0) as [Hn0 Hin0]. split.
      * unfold list_add. rewrite <- Permutation_cons_append. constructor; [|done]. by eapply Hnq.
      * intros t' [Hx|Hx%list_elem_of_singleton]%elem_of_app.
        -- rewrite lookup_alter_ne; [auto|]. intros ->. by eapply Hnq.
        -- subst t'. rewrite lookup_alter_eq, Hth. by eexists.
    + intros Hlk. destruct (Hqu k lk Hlk) as [Hn0 Hin0]. split; [done|]. intros t' Hx.
      rewrite lookup_alter_ne; [auto|]. intros ->. by eapply Hnq.
  - intros t' [[-> Hw]|Hx]%Hmem.
    + rewrite lookup_alter_eq, Hth. eexists. split; [done|]. done.
    + rewrite lookup_alter_ne; [auto|]. apply not_eq_sym, Hne. auto.
  - by apply alter_ids.
  - rewrite Hql. destruct Hre as [x ->]. case_decide; eauto.
  - intros t' a p [(-> & b & Hb & ->)|[_ Ha]]%lookup_alter_Some; eauto.
Qed.

(** A thread that is asleep nowhere fits in the sleeping tree. *)
Lemma sleeping_insert_ok dn s t th q w i s1 : sched_inv dn s -> runs s t th -> w <> 0 ->
  threads s1 = alter (set_sched SLEEP q w i) t (threads s) -> sleeping s1 = sleeping s ->
  exists l, sleeping_insert s1 t = set_sleeping l s1 /\ sorted (threads_sleepcmp (threads s1)) l /\
    forall t', t' ∈ l <-> (t' = t /\ w <> 0) \/ t' ∈ sleeping s.
Proof.
  intros Hi Hrun Hw Et Es. destruct (runs_home dn s t th Hi Hrun) as (_ & _ & Hns & _). destruct Hrun as (_ & Hth & _).
  destruct (ins_fresh (threads_sleepcmp (threads s1)) t (sleeping s1)) as (l & El & Hsort & Hperm).
  - rewrite Es, Et. apply (sorted_ext (threads_sleepcmp (threads s))); [|apply (i_sorted _ _ Hi)].
    intros a b Ha Hb. apply sleepcmp_alter; [done| |]; by intros ->.
  - rewrite Es, Et. intros x Hx [_ E]%sleepcmp_eq. rewrite !id_of_alter in E by done.
    destruct (i_sleeping _ _ Hi x Hx) as (a & Ha & _). unfold id_of in E. rewrite Ha, Hth in E. simpl in E.
    apply Hns. by rewrite <- (i_ids _ _ Hi x t a th).
  - exists l. split_and!; [unfold sleeping_insert; by rewrite El|done|]. intros t'. rewrite Hperm, Es, elem_of_cons. naive_solver.
Qed.

Lemma inv_head_sleeping dn s t : sched_inv dn s -> head (sleeping s) = Some t ->
  exists th, threads s !! t = Some th /\ wakeup th <> 0 /\ state th = SLEEP.
Proof.
  intros Hi Hh. assert (t ∈ sleeping s) as Hin by (destruct (sleeping s); simplify_eq/=; by left).
  destruct (i_sleeping _ _ Hi t Hin) as (th & Hth & Hw). exists th. split_and!; [done|done|].
  destruct (i_thread _ _ Hi t th Hth) as [_ Hok]. destruct (state th); [|done]. destruct Hok as (_ & ? & _). done.
Qed.
