(* ===== verification/ThreadsOps.v ===== *)
(** * Thread manager: the operations

    Each operation of [Threads] returns and keeps the scheduler invariant; the
    functional contracts of waiting, waking, the timer interrupt and the
    scheduler; reachability of the scheduler's state machine. *)

From Stdlib Require Import ZArith Lia.
From S2P Require Import Prelude.
From S2P Require Import LibList.
From S2P Require Import RbOps.
From S2P Require Import Threads.
From S2P Require Import ThreadsInv.

Create HintDb sched.
#[export] Hint Resolve inv_hptimer inv_executions inv_utcoffs inv_idtree inv_procs inv_woken : sched.

Section Ops.
Context `{Hal}.
Implicit Types (s : common) (dn : gset loc).

Lemma same_sched_refl a : same_sched a a.
Proof. by repeat split. Qed.

Lemma inv_retval dn s v t : sched_inv dn s -> sched_inv dn (upd (set_retval v) t s).
Proof. apply inv_upd. by repeat split. Qed.
Lemma inv_exit dn s t : sched_inv dn s -> sched_inv dn (upd set_exit t s).
Proof. apply inv_upd. by repeat split. Qed.
Lemma inv_sigpend dn s v t : sched_inv dn s -> sched_inv dn (upd (set_sigpend v) t s).
Proof. apply inv_upd. by repeat split. Qed.
#[local] Hint Resolve inv_retval inv_exit inv_sigpend : sched.

(** ** Timer *)
Lemma updateWakeup_ok dn s now m : sched_inv dn s -> (forall t, m = Some t -> is_Some (threads s !! t)) ->
  exists w, _threads_updateWakeup s now m = Ok (set_hptimer w s).
Proof.
  intros Hi Hm. unfold _threads_updateWakeup, thr. destruct m as [t|].
  - destruct (Hm t eq_refl) as [th ->]. simpl. eauto.
  - destruct (head (sleeping s)) as [t|] eqn:E; simpl; [|eauto].
    destruct (inv_head_sleeping dn s t Hi E) as (th & -> & _). simpl. eauto.
Qed.

(** ** Waiting *)
Lemma alter_sched_twice st q w i st' q' w' i' (m : gmap loc thread) t :
  alter (set_sched st q w i) t (alter (set_sched st' q' w' i') t m) = alter (set_sched st q w i) t m.
Proof.
  apply map_eq. intros k. destruct (decide (k = t)) as [->|].
  - rewrite !lookup_alter_eq. by destruct (m !! t).
  - by rewrite !lookup_alter_ne.
Qed.

(** The deadline that a timeout stands for. *)
Definition deadline (timeout now : Z) : Z := if timeout =? 0 then 0 else u64 (now + TIMER_US2CYC timeout).

Lemma enqueue_wait dn s cpu t th q l timeout intr now : sched_inv dn s ->
  current s !! cpu = Some (Some t) -> runs s t th -> queues s !! q = Some (Waiters l) ->
  (timeout <> 0 -> deadline timeout now <> 0) ->
  exists l' h, _proc_threadEnqueue s cpu q timeout intr now = Ok (set_hptimer h (asleep s t (Some q) (deadline timeout now) intr l')) /\
    sched_inv dn (asleep s t (Some q) (deadline timeout now) intr l').
Proof.
  intros Hi Hc Hrun Hq Hd. pose proof Hrun as (_ & Hth & _).
  unfold _proc_threadEnqueue, on_cpu, thr, queue_add. rewrite Hq, Hc. cbn [deref rbind].
  run_step Hth.
  unfold deadline in *. destruct (Z.eqb_spec timeout 0) as [->|Hne].
  - exists (sleeping s), (hptimer s). split.
    + unfold asleep. by rewrite (asleep_queue s t q l).
    + eapply inv_asleep; [done|done| | | |].
      * intros q' [= <-]. eauto.
      * by left.
      * apply (sorted_ext (threads_sleepcmp (threads s))); [|apply (i_sorted _ _ Hi)].
        destruct (runs_home dn s t th Hi Hrun) as (_ & _ & Hns & _). intros a b Ha Hb. apply sleepcmp_alter; [done| |]; by intros ->.
      * intros t'. split; [by right|]. by intros [[_ ?]|].
  - set (w := u64 _) in *. unfold upd. cbn [threads set_threads set_queues]. rewrite alter_sched_twice.
    set (s1 := set_threads _ _). destruct (sleeping_insert_ok dn s t th (Some q) w intr s1) as (l' & El & Hsort & Hmem); [done..|by apply Hd|done|done|].
    rewrite El. assert (set_sleeping l' s1 = asleep s t (Some q) w intr l') as ->.
    { unfold s1, asleep. by rewrite (asleep_queue s t q l). }
    assert (sched_inv dn (asleep s t (Some q) w intr l')) as Hi'.
    { eapply inv_asleep; [done|done| | |done|done]; [|by left]. intros q' [= <-]. eauto. }
    destruct (updateWakeup_ok dn _ now None Hi') as [h Eh]; [done|]. eauto.
Qed.

Lemma enqueue_token s cpu q timeout intr now : queues s !! q = Some Token ->
  _proc_threadEnqueue s cpu q timeout intr now = Ok (set_queues (<[q := Waiters []]> (queues s)) s).
Proof. intros Hq. unfold _proc_threadEnqueue. by rewrite Hq. Qed.

(** Replacing an empty head by the token, or the token by an empty head. *)
Lemma inv_token dn s q w w' : sched_inv dn s -> queues s !! q = Some w -> (w = Token \/ w = Waiters []) ->
  (w' = Token \/ w' = Waiters []) -> sched_inv dn (set_queues (<[q := w']> (queues s)) s).
Proof.
  intros [Hlen Hnd Hh Hr Hg Ht Hq Hso Hsl Hid Hre Hpr] Hw H1 H2. constructor; cbn; try done.
  - intros t th Hth. destruct (Ht t th Hth) as [Hp Hok]. split; [done|]. destruct (state th); [done|].
    destruct Hok as (? & ? & Hx & ?). split_and!; [done..| |done]. intros k Ek. destruct (Hx k Ek) as (l & El & Hl). cbn.
    rewrite lookup_insert_ne; [eauto|]. intros ->. rewrite Hw in El. simplify_eq. destruct H1; simplify_eq. by apply not_elem_of_nil in Hl.
  - intros k l. destruct (decide (k = q)) as [->|Hne].
    + rewrite lookup_insert_eq. intros [= ->]. destruct H2; simplify_eq. split; [constructor|]. by intros t ?%not_elem_of_nil.
    + rewrite lookup_insert_ne by done. auto.
  - by apply lookup_insert_is_Some'; right.
Qed.

Lemma enqueue_ok dn s cpu t th q timeout intr now : sched_inv dn s ->
  current s !! cpu = Some (Some t) -> runs s t th -> is_Some (queues s !! q) ->
  (timeout <> 0 -> deadline timeout now <> 0) ->
  exists s', _proc_threadEnqueue s cpu q timeout intr now = Ok s' /\ sched_inv dn s' /\ current s' = current s.
Proof.
  intros Hi Hc Hrun [[|l] Hq] Hd.
  - rewrite enqueue_token by done. eexists. split_and!; [done| |done]. eapply inv_token; eauto.
  - destruct (enqueue_wait dn s cpu t th q l timeout intr now) as (l' & h & -> & Hi'); [done..|].
    eexists. split_and!; [done| |done]. auto with sched.
Qed.

Lemma sleep_enter_ok dn s cpu t th us now : sched_inv dn s ->
  current s !! cpu = Some (Some t) -> runs s t th -> u64 (now + TIMER_US2CYC us) <> 0 ->
  exists l' h, sleep_enter s cpu us now = Ok (set_hptimer h (asleep s t None (u64 (now + TIMER_US2CYC us)) true l')) /\
    sched_inv dn (asleep s t None (u64 (now + TIMER_US2CYC us)) true l').
Proof.
  intros Hi Hc Hrun Hw. pose proof Hrun as (_ & Hth & _). set (w := u64 _) in *.
  unfold sleep_enter, on_cpu, thr. run_step Hc. run_step Hth. fold w.
  set (s1 := upd _ _ _). destruct (sleeping_insert_ok dn s t th None w true s1) as (l' & El & Hsort & Hmem); [done..|].
  rewrite El. change (set_sleeping l' s1) with (asleep s t None w true l').
  assert (sched_inv dn (asleep s t None w true l')) as Hi'.
  { eapply inv_asleep; [done|done|done|by right|done|done]. }
  destruct (updateWakeup_ok dn _ now None Hi') as [h Eh]; [done|]. eauto.
Qed.

(** ** Waking *)
Lemma waiter_sleeps dn s q l t : sched_inv dn s -> queues s !! q = Some (Waiters l) -> t ∈ l ->
  exists th, threads s !! t = Some th /\ wait th = Some q /\ state th = SLEEP.
Proof.
  intros Hi Hq Hin. destruct (i_queue _ _ Hi q l Hq) as [_ Hl]. destruct (Hl t Hin) as (th & Hth & Hw).
  exists th. split_and!; [done|done|]. destruct (i_thread _ _ Hi t th Hth) as [_ Hok].
  destruct (state th); [|done]. destruct Hok as (? & _). congruence.
Qed.

Lemma wakeup_head dn s q t l : sched_inv dn s -> queues s !! q = Some (Waiters (t :: l)) ->
  exists th, threads s !! t = Some th /\ wait th = Some q /\ state th = SLEEP /\
    _proc_threadWakeup s q = Ok (woken s t th) /\ sched_inv dn (woken s t th).
Proof.
  intros Hi Hq. destruct (waiter_sleeps dn s q (t :: l) t Hi Hq) as (th & Hth & Hw & Hst); [by left|].
  exists th. destruct (dequeue_ok dn s t th Hi Hth Hst) as [He Hi'].
  split_and!; [done|done|done| |done]. unfold _proc_threadWakeup. by rewrite Hq.
Qed.

Lemma woken_queue s t th q l : queues s !! q = Some (Waiters l) -> queues (woken s t th) !! q = Some (Waiters (list_del l t)).
Proof. intros Hq. cbn. by rewrite lookup_fmap, Hq. Qed.

Lemma wakeup_ok dn s q : sched_inv dn s -> is_Some (queues s !! q) ->
  exists s', _proc_threadWakeup s q = Ok s' /\ sched_inv dn s' /\ current s' = current s /\ ghosts s' = ghosts s /\
    (length (concat (ready s')) + queue_length s' q <= length (concat (ready s)) + queue_length s q)%nat.
Proof.
  intros Hi [[|[|t l]] Hq]; [by exists s; unfold _proc_threadWakeup; rewrite Hq..|].
  destruct (wakeup_head dn s q t l Hi Hq) as (th & Hth & Hw & Hst & -> & Hi'). eexists. split_and!; [done|done|done|done|].
  unfold queue_length. rewrite (woken_queue s t th q _ Hq), Hq, list_del_head. unfold woken. cbn [ready length].
  case_decide; [lia|]. destruct (i_thread _ _ Hi t th Hth) as [Hp _].
  destruct (inv_ready_lookup dn s (priority th) Hi Hp) as [r Hr].
  pose proof (concat_insert_perm (ready s) (priority th) r (list_add r t) Hr) as Hperm.
  rewrite (alter_insert_list _ _ _ _ Hr) in Hperm. apply Permutation_length in Hperm.
  rewrite !length_app in Hperm. unfold list_add in Hperm at 2. rewrite length_app in Hperm. simpl in *. lia.
Qed.

(** All waiters of a queue, woken one after the other. *)
Fixpoint wake_all (s : common) (ts : list loc) : common :=
  match ts with
  | [] => s
  | t :: ts => match threads s !! t with Some th => wake_all (woken s t th) ts | None => wake_all s ts end
  end.

Lemma broadcast_loop_ok dn s q l fuel ret : sched_inv dn s -> queues s !! q = Some (Waiters l) -> (length l < fuel)%nat ->
  broadcast_loop fuel s q ret = Ok (wake_all s l, ret + length l) /\ sched_inv dn (wake_all s l) /\
  queues (wake_all s l) !! q = Some (Waiters []) /\ current (wake_all s l) = current s.
Proof.
  revert s ret fuel. induction l as [|t l IH]; intros s ret [|fuel] Hi Hq Hf; simpl in Hf; try lia.
  - simpl. rewrite Hq. simpl. rewrite Z.add_0_r. done.
  - destruct (wakeup_head dn s q t l Hi Hq) as (th & Hth & Hw & Hst & Ew & Hi'). simpl. rewrite Hq. simpl. rewrite Ew. simpl.
    rewrite Hth. pose proof (woken_queue s t th q _ Hq) as Hq'. rewrite list_del_head in Hq'.
    destruct (IH (woken s t th) (ret + 1) fuel Hi' Hq') as (-> & ? & ? & ?); [lia|]. split_and!; [|done|done|done].
    do 2 f_equal. lia.
Qed.

Lemma queue_length_bound dn s q l : sched_inv dn s -> queues s !! q = Some (Waiters l) -> (length l <= size (threads s))%nat.
Proof.
  intros Hi Hq. destruct (i_queue _ _ Hi q l Hq) as [Hn Hin]. rewrite <- (size_dom (D := gset loc)), <- (size_list_to_set (C := gset loc) l Hn).
  apply subseteq_size. intros t (th & Hth & _)%elem_of_list_to_set%Hin. apply elem_of_dom. eauto.
Qed.

Lemma broadcast_ok dn s q l : sched_inv dn s -> queues s !! q = Some (Waiters l) ->
  broadcast_loop (queue_fuel s) s q 0 = Ok (wake_all s l, Z.of_nat (length l)) /\ sched_inv dn (wake_all s l) /\
  queues (wake_all s l) !! q = Some (Waiters []) /\ current (wake_all s l) = current s.
Proof.
  intros Hi Hq. pose proof (queue_length_bound dn s q l Hi Hq).
  apply (broadcast_loop_ok dn s q l (queue_fuel s) 0); [done|done|]. unfold queue_fuel. lia.
Qed.

(** ** Timer interrupt *)

(** What the interrupt at [now] makes of a thread. *)
Definition after_tick (now : Z) (th : thread) : thread :=
  if decide (wakeup th <> 0 /\ wakeup th <= now) then set_retval (- ETIME) (set_sched READY None 0 false th) else th.

Lemma sorted_wakeup_le th t l : sorted (threads_sleepcmp th) (t :: l) -> forall t', t' ∈ l -> wakeup_of th t <= wakeup_of th t'.
Proof.
  intros Hs t' Hin. apply SSorted_cons in Hs as [_ Hs]. by apply sleepcmp_lt, Hs.
Qed.

Lemma timeintr_loop_ok dn now fuel : forall s, sched_inv dn s -> (length (sleeping s) < fuel)%nat ->
  exists s', timeintr_loop fuel s now = Ok (s', head (sleeping s')) /\ sched_inv dn s' /\
    current s' = current s /\ ghosts s' = ghosts s /\
    sleeping s' = filter (fun t => now < wakeup_of (threads s) t) (sleeping s) /\
    threads s' = after_tick now <$> threads s.
Proof.
  induction fuel as [|fuel IH]; intros s Hi Hf; [lia|]. cbn [timeintr_loop].
  pose proof (i_sorted _ _ Hi) as Hso. pose proof (inv_head_sleeping dn s) as Hhd.
  assert (forall t th, threads s !! t = Some th -> wakeup th <> 0 -> t ∈ sleeping s) as Hsl.
  { intros t th Hth Hw. destruct (i_thread _ _ Hi t th Hth) as [_ Hok]. destruct (state th).
    - by destruct Hok as (_ & ? & _).
    - by apply Hok. }
  destruct (sleeping s) as [|t l] eqn:Es; simpl in Hf |- *.
  - exists s. rewrite Es. split_and!; [done..|]. symmetry. apply map_eq. intros k. rewrite lookup_fmap.
    destruct (threads s !! k) as [th|] eqn:Ek; [|done]. simpl. unfold after_tick. rewrite decide_False; [done|].
    intros [Hw _]. by apply not_elem_of_nil with k, (Hsl k th).
  - destruct (Hhd t Hi eq_refl) as (th & Hth & Hw & Hst). unfold thr. rewrite Hth. simpl.
    assert (wakeup_of (threads s) t = wakeup th) as Ewt by (unfold wakeup_of; by rewrite Hth).
    destruct (Z.ltb_spec now (wakeup th)) as [Hlt|Hge].
    + exists s. rewrite Es. split_and!; [done..| |].
      * rewrite filter_all; [done|]. apply Forall_forall. intros t' [->|Hin]%elem_of_cons; [lia|].
        pose proof (sorted_wakeup_le _ _ _ Hso t' Hin). lia.
      * symmetry. apply map_eq. intros k. rewrite lookup_fmap. destruct (threads s !! k) as [a|] eqn:Ek; [|done].
        simpl. unfold after_tick. rewrite decide_False; [done|]. intros [Ha Hle].
        pose proof (Hsl k a Ek Ha) as [->|Hin]%elem_of_cons; [simplify_eq; lia|].
        pose proof (sorted_wakeup_le _ _ _ Hso k Hin) as Hle'. rewrite Ewt in Hle'. unfold wakeup_of in Hle'. rewrite Ek in Hle'. simpl in Hle'. lia.
    + destruct (dequeue_ok dn s t th Hi Hth Hst) as [-> Hi']. cbn [rbind].
      set (s1 := upd (set_retval (- ETIME)) t (woken s t th)).
      assert (sched_inv dn s1) as Hi1 by (unfold s1; auto with sched).
      assert (t ∉ l) as Hnt. { apply (sorted_NoDup _) in Hso. by apply NoDup_cons in Hso as [? _]. }
      assert (sleeping s1 = l) as Es1.
      { cbn. rewrite Es, filter_cons, decide_False by tauto. by apply filter_notin. }
      destruct (IH s1 Hi1) as (s' & -> & Hi2 & Ec & Eg & Ess & Et); [rewrite Es1; lia|].
      exists s'. split_and!; [done|done|by rewrite Ec|by rewrite Eg| |].
      * rewrite Ess, Es1, filter_cons, decide_False by lia. apply filter_ext_in.
        intros x Hx. cbn. rewrite !wakeup_of_alter; [done|by intros ->..].
      * rewrite Et. apply map_eq. intros k. rewrite !lookup_fmap. cbn. destruct (decide (k = t)) as [->|Hk].
        -- rewrite !lookup_alter_eq, Hth. simpl. unfold after_tick. f_equal. rewrite decide_False by (cbn; tauto).
           by rewrite decide_True.
        -- by rewrite !lookup_alter_ne.
Qed.

(** ** Scheduler *)
Lemma homes_take s i t l : ready s !! i = Some (t :: l) -> homes s ≡ₚ t :: homes (set_ready (<[i := l]> (ready s)) s).
Proof.
  intros Hl. unfold homes. cbn. pose proof (concat_insert_perm (ready s) i (t :: l) l Hl) as Hp.
  change (concat (<[i:=l]> (ready s)) ++ t :: l) with (concat (<[i:=l]> (ready s)) ++ ([t] ++ l)) in Hp.
  rewrite (assoc_L (++)) in Hp. apply Permutation_app_inv_r in Hp. rewrite <- Permutation_cons_append in Hp. by rewrite <- Hp.
Qed.

Lemma homes_current s c o o' : current s !! c = Some o ->
  homes (set_current (<[c := o']> (current s)) s) ++ option_list o ≡ₚ homes s ++ option_list o'.
Proof.
  intros Hc. unfold homes. cbn. pose proof (running_insert_perm (current s) c o o' Hc) as Hp.
  rewrite <- !(assoc_L (++)). apply Permutation_app_head.
  rewrite (Permutation_app_comm (ghosts s) (option_list o)), (Permutation_app_comm (ghosts s) (option_list o')).
  by rewrite !(assoc_L (++)), Hp.
Qed.

Lemma ready_insert_inv (rs : list (list loc)) i t l p l' t' : rs !! i = Some (t :: l) ->
  <[i := l]> rs !! p = Some l' -> t' ∈ l' -> exists l'', rs !! p = Some l'' /\ t' ∈ l''.
Proof.
  intros Hi. destruct (decide (p = i)) as [->|Hne].
  - rewrite list_lookup_insert_eq by (by eapply lookup_lt_Some). intros [= <-] Hin. eexists. split; [done|]. by right.
  - rewrite list_lookup_insert_ne by done. eauto.
Qed.

(** A permutation of the places keeps the invariant. *)
Lemma inv_homes_perm dn s s' : sched_inv dn s ->
  threads s' = threads s -> queues s' = queues s -> sleeping s' = sleeping s -> procs s' = procs s -> length (ready s') = NPRIO ->
  homes s' ≡ₚ homes s ->
  (forall p l t, ready s' !! p = Some l -> t ∈ l -> exists th, threads s !! t = Some th /\ priority th = p /\ state th = READY) ->
  (forall t, t ∈ ghosts s' -> exists th, threads s !! t = Some th /\ state th = READY) ->
  sched_inv dn s'.
Proof.
  intros Hi Et Eq Es Epr Hl Hp Hr Hg. eapply (inv_homes dn s s'); try done.
  - rewrite Hp. apply (i_nodup _ _ Hi).
  - intros t. by rewrite Hp.
  - intros t th _ _. by rewrite Hp.
Qed.

Lemma inv_take_current dn s cpu i t l : sched_inv dn s -> current s !! cpu = Some None -> ready s !! i = Some (t :: l) ->
  let s1 := set_ready (<[i := l]> (ready s)) s in
  sched_inv dn (set_current (<[cpu := Some t]> (current s1)) s1).
Proof.
  intros Hi Hc Hl s1. eapply (inv_homes_perm dn s); [done|done|done|done|done| | | |apply (i_ghost _ _ Hi)].
  - cbn. rewrite length_insert. apply (i_len _ _ Hi).
  - pose proof (homes_current s1 cpu None (Some t) Hc) as Hp. simpl in Hp. rewrite (right_id_L [] (++)) in Hp.
    rewrite <- Permutation_cons_append in Hp. etrans; [exact Hp|]. symmetry. by apply homes_take.
  - intros p l' t' Hp Hin. destruct (ready_insert_inv _ _ _ _ _ _ _ Hl Hp Hin) as (l'' & ? & ?). by eapply (i_ready _ _ Hi).
Qed.

Lemma inv_take_ghost dn s i t l : sched_inv dn s -> ready s !! i = Some (t :: l) ->
  sched_inv dn (ghosts_add (set_ready (<[i := l]> (ready s)) s) t).
Proof.
  intros Hi Hl. eapply (inv_homes_perm dn s); [done|done|done|done|done| | | |].
  - cbn. rewrite length_insert. apply (i_len _ _ Hi).
  - rewrite (homes_take s i t l Hl). unfold homes, list_add. cbn. unfold list_add. rewrite !(assoc_L (++)).
    by rewrite <- Permutation_cons_append.
  - intros p l' t' Hp Hin. destruct (ready_insert_inv _ _ _ _ _ _ _ Hl Hp Hin) as (l'' & ? & ?). by eapply (i_ready _ _ Hi).
  - intros t' [Hin|Hx%list_elem_of_singleton]%elem_of_app; [by apply (i_ghost _ _ Hi)|]. subst.
    destruct (i_ready _ _ Hi i (t :: l) t) as (th & ? & _ & ?); [done|by left|eauto].
Qed.

Lemma concat_take_length (rs : list (list loc)) i t l : rs !! i = Some (t :: l) ->
  length (concat rs) = S (length (concat (<[i := l]> rs))).
Proof.
  intros Hl. pose proof (concat_insert_perm rs i (t :: l) l Hl) as Hp%Permutation_length.
  rewrite !length_app in Hp. simpl in Hp. lia.
Qed.

Lemma select_loop_ok dn cpu fuel : forall s i, sched_inv dn s -> current s !! cpu = Some None ->
  (NPRIO - i + length (concat (ready s)) + queue_length s reaper < fuel)%nat ->
  exists s' o, select_loop fuel s i = Ok (s', o) /\ current s' = current s /\
    match o with
    | None => sched_inv dn s'
    | Some t => sched_inv dn (set_current (<[cpu := Some t]> (current s')) s') /\
        exists th, threads s' !! t = Some th /\ exit th = false
    end.
Proof.
  induction fuel as [|fuel IH]; intros s i Hi Hc Hf; [lia|]. cbn [select_loop].
  destruct (decide (i < NPRIO)%nat) as [Hlt|Hge]; [|eauto].
  destruct (inv_ready_lookup dn s i Hi Hlt) as [l Hl]. run_step Hl. destruct l as [|t l].
  - apply IH; [done|done|lia].
  - rewrite list_del_head. destruct (i_ready _ _ Hi i (t :: l) t) as (th & Hth & Hp & Hst); [done|by left|].
    unfold thr. cbn [threads set_ready]. run_step Hth. destruct (exit th) eqn:Ex; cbn [negb].
    + pose proof (inv_take_ghost dn s i t l Hi Hl) as Hi1. set (s1 := ghosts_add _ t) in *.
      destruct (wakeup_ok dn s1 reaper Hi1) as (s2 & -> & Hi2 & Ec2 & _ & Hlen); [apply (i_reaper _ _ Hi)|].
      cbn [rbind]. destruct (IH s2 i Hi2) as (s' & o & -> & Ec & Ho).
      * by rewrite Ec2.
      * pose proof (concat_take_length _ _ _ _ Hl) as Hcl. change (queue_length s1 reaper) with (queue_length s reaper) in Hlen.
        change (ready s1) with (<[i:=l]> (ready s)) in Hlen. lia.
      * exists s', o. split_and!; [done| |done]. by rewrite Ec, Ec2.
    + exists (set_ready (<[i := l]> (ready s)) s), (Some t). split_and!; [done|done| |].
      * by eapply inv_take_current.
      * exists th. done.
Qed.

(** With no thread told to exit, the head of the first queue that is not
    empty. *)
Lemma select_loop_pick dn s p t l fuel i : sched_inv dn s -> (i <= p < NPRIO)%nat -> (p - i < fuel)%nat ->
  (forall j, (i <= j < p)%nat -> ready s !! j = Some []) -> ready s !! p = Some (t :: l) ->
  (forall th, threads s !! t = Some th -> exit th = false) ->
  select_loop fuel s i = Ok (set_ready (<[p := l]> (ready s)) s, Some t).
Proof.
  revert i. induction fuel as [|fuel IH]; intros i Hi Hp Hf He Hl Hx; [lia|]. cbn [select_loop].
  rewrite decide_True by lia. destruct (decide (i = p)) as [->|Hne].
  - run_step Hl. rewrite list_del_head. unfold thr. cbn [threads set_ready].
    destruct (i_ready _ _ Hi p (t :: l) t) as (th & Hth & _ & _); [done|by left|]. run_step Hth.
    by rewrite (Hx th Hth).
  - rewrite (He i) by lia. cbn [deref rbind]. apply IH; [done|lia|lia| |done|done]. intros j Hj. apply He. lia.
Qed.

(** The first half of the scheduler: the current thread leaves the processor
    and, unless it sleeps, goes to the end of its queue. *)
Definition parked (s : common) (cpu : nat) (cur : ptr) (context : Z) : common :=
  let s := set_current (<[cpu := None]> (current s)) (set_executions (u32 (executions s + 1)) s) in
  match cur with
  | None => s
  | Some c =>
      let s' := upd (set_retval context) c s in
      match threads s !! c with
      | Some th => if decide (state th = READY) then set_ready (alter (fun l => list_add l c) (priority th) (ready s)) s' else s'
      | None => s'
      end
  end.

Lemma parked_current s cpu cur context : current (parked s cpu cur context) = <[cpu := None]> (current s).
Proof. unfold parked. destruct cur as [c|]; [|done]. cbn. destruct (threads s !! c) as [th|]; [|done]. by case_decide. Qed.

Lemma inv_parked dn s cpu cur context : sched_inv dn s -> current s !! cpu = Some cur -> sched_inv dn (parked s cpu cur context).
Proof.
  intros Hi Hc. unfold parked. destruct cur as [c|].
  2: { rewrite list_insert_id by done. change (set_current (current s) (set_executions _ s)) with (set_executions (u32 (executions s + 1)) s). auto with sched. }
  destruct (inv_cur_lookup dn s cpu c Hi Hc) as (th & Hth & Hok & Hdn & Hh). cbn [threads set_current set_executions]. rewrite Hth.
  pose proof (homes_current s cpu (Some c) None Hc) as Hp. simpl in Hp. rewrite (right_id_L [] (++)) in Hp.
  rewrite <- Permutation_cons_append in Hp. pose proof (i_nodup _ _ Hi) as Hnd. destruct Hok as [Hpr _].
  case_decide as Hst.
  - match goal with |- sched_inv dn (set_ready ?r (upd ?f ?t ?x)) => change (set_ready r (upd f t x)) with (upd f t (set_ready r x)) end.
    apply inv_retval. eapply (inv_homes_perm dn s); [done|done|done|done|done| | | |apply (i_ghost _ _ Hi)].
    + cbn. rewrite length_alter. apply (i_len _ _ Hi).
    + rewrite <- Hp. apply (homes_ready_add (set_current (<[cpu := None]> (current s)) s)). cbn. by rewrite (i_len _ _ Hi).
    + cbn. intros p l t Hl Hin. apply ready_alter_inv in Hl as [(-> & y & Hy & ->)|Hy]; [|by eapply (i_ready _ _ Hi)].
      unfold list_add in Hin. apply elem_of_app in Hin as [Hin|Hin%list_elem_of_singleton]; [by eapply (i_ready _ _ Hi)|subst; eauto].
  - apply inv_retval. rewrite <- Hp in Hnd. apply NoDup_cons in Hnd as [_ Hnd].
    assert (forall t, t ∈ homes s <-> t = c \/ t ∈ homes (set_current (<[cpu := None]> (current s)) s)) as Hin.
    { intros t. rewrite <- Hp. apply elem_of_cons. }
    eapply (inv_homes dn s); [done|done|done|done|done|apply (i_len _ _ Hi)|done| | |apply (i_ready _ _ Hi)|apply (i_ghost _ _ Hi)].
    + intros t Ht. apply Hin. by right.
    + intros t a Ha Hs [->|?]%Hin; [congruence|done].
Qed.

Lemma signals_ok dn s t : sched_inv dn s -> is_Some (threads s !! t) ->
  exists m ps, schedule_signals s t = Ok (set_procs ps (set_threads m s)) /\ same_threads (threads s) m /\
    sched_inv dn (set_procs ps (set_threads m s)).
Proof.
  intros Hi [th Hth].
  assert (exists m ps, Ok s = Ok (set_procs ps (set_threads m s)) /\ same_threads (threads s) m /\ sched_inv dn (set_procs ps (set_threads m s))) as Hid.
  { exists (threads s), (procs s). split; [by destruct s|]. split; [|by destruct s].
    intros k. destruct (threads s !! k); constructor. apply same_sched_refl. }
  unfold schedule_signals, thr. run_step Hth.
  destruct (process th) as [p|] eqn:Ep; [|done]. destruct (i_process _ _ Hi t th p Hth Ep) as [pr Hpr]. run_step Hpr.
  destruct (pmapp pr); cbn [negb]; [|done]. destruct (_ || _); [done|]. destruct (_ =? EOK); [|done].
  eexists _, _. split; [reflexivity|]. split.
  - apply same_threads_alter. by repeat split.
  - apply inv_procs; [|by apply inv_sigpend]. intros p' Hp'. by apply lookup_insert_is_Some'; right.
Qed.

Lemma inv_times dn s cur sel timer : sched_inv dn s -> sched_inv dn (threads_cpuTimeCalc s cur sel timer).
Proof.
  intros Hi. unfold threads_cpuTimeCalc. destruct cur as [c|], sel as [t|]; try case_decide; try done;
    repeat (apply inv_upd; [by repeat split|]); done.
Qed.

Lemma cpuTimeCalc_frame s cur sel timer : exists m, threads_cpuTimeCalc s cur sel timer = set_threads m s.
Proof.
  exists (threads (threads_cpuTimeCalc s cur sel timer)). destruct s.
  unfold threads_cpuTimeCalc. destruct cur as [c|], sel as [t|]; try case_decide; reflexivity.
Qed.

(** The scheduler in one equation: park, select, install. *)
Lemma schedule_eq dn s cpu cur context timer : sched_inv dn s -> current s !! cpu = Some cur ->
  threads_schedule s cpu context timer =
    (let? r := select_loop (select_fuel (parked s cpu cur context)) (parked s cpu cur context) 0 in
     let (s1, selected) := r : common * ptr in
     let? s2 := match selected with
                | None => Ok s1
                | Some t => schedule_signals (set_current (<[cpu := Some t]> (current s1)) s1) t
                end in
     Ok (threads_cpuTimeCalc s2 cur selected timer)).
Proof.
  intros Hi Hc. unfold threads_schedule, on_cpu. cbn [current set_executions]. run_step Hc.
  unfold parked. destruct cur as [c|]; [|done]. destruct (inv_cur_lookup dn s cpu c Hi Hc) as (th & Hth & [Hp _] & _).
  unfold thr. cbn [threads set_current set_executions]. run_step Hth. case_decide as Hst; [|done].
  unfold ready_add. destruct (inv_ready_lookup dn s (priority th) Hi Hp) as [l Hl]. cbn [ready upd set_threads set_current set_executions].
  run_step Hl. by rewrite (alter_insert_list _ _ _ _ Hl).
Qed.

Lemma schedule_ok dn s cpu context timer : sched_inv dn s -> (cpu < length (current s))%nat ->
  exists s', threads_schedule s cpu context timer = Ok s' /\ sched_inv dn s' /\ length (current s') = length (current s).
Proof.
  intros Hi Hlt. destruct (lookup_lt_is_Some_2 _ _ Hlt) as [cur Hc]. rewrite (schedule_eq dn s cpu cur) by done.
  pose proof (inv_parked dn s cpu cur context Hi Hc) as Hi1. set (s1 := parked s cpu cur context) in *.
  assert (current s1 !! cpu = Some None) as Hc1 by (unfold s1; rewrite parked_current; by apply list_lookup_insert_eq).
  assert (length (current s1) = length (current s)) as Hl1 by (unfold s1; by rewrite parked_current, length_insert).
  destruct (select_loop_ok dn cpu (select_fuel s1) s1 0 Hi1 Hc1) as (s2 & o & -> & Ec & Ho); [unfold select_fuel; lia|]. cbn [rbind].
  destruct o as [t|].
  - destruct Ho as [Hi2 (th & Hth & _)]. destruct (signals_ok dn _ t Hi2) as (m & ps & -> & _ & Hi3); [cbn; eauto|]. cbn [rbind].
    eexists. split; [done|]. split; [by apply inv_times|]. destruct (cpuTimeCalc_frame (set_procs ps (set_threads m (set_current (<[cpu:=Some t]> (current s2)) s2))) cur (Some t) timer) as [m' ->].
    cbn. rewrite length_insert. congruence.
  - cbn [rbind]. eexists. split; [done|]. split; [by apply inv_times|]. destruct (cpuTimeCalc_frame s2 cur None timer) as [m' ->]. cbn. congruence.
Qed.

(** ** Ending and interrupting threads *)
Lemma interrupt_ok dn s t th : sched_inv dn s -> threads s !! t = Some th -> state th = SLEEP ->
  exists s', _thread_interrupt s t = Ok s' /\ sched_inv dn s' /\ current s' = current s /\
    forall k, is_Some (threads s !! k) -> is_Some (threads s' !! k).
Proof.
  intros Hi Hth Hst. unfold _thread_interrupt. destruct (dequeue_ok dn s t th Hi Hth Hst) as [-> Hi']. cbn [rbind].
  eexists. split_and!; [done|auto with sched|done|]. intros k Hk. cbn. by rewrite !lookup_alter_is_Some.
Qed.

(** Only sleeping threads are interruptible. *)
Lemma interruptible_sleeps dn s t th : sched_inv dn s -> threads s !! t = Some th -> interruptible th = true -> state th = SLEEP.
Proof.
  intros Hi Hth Hint. destruct (i_thread _ _ Hi t th Hth) as [_ Hok]. destruct (state th); [|done].
  destruct Hok as (_ & _ & ? & _). congruence.
Qed.

Lemma threadExit_ok dn s t : sched_inv dn s -> is_Some (threads s !! t) ->
  exists s', _proc_threadExit s t = Ok s' /\ sched_inv dn s' /\ current s' = current s /\
    forall k, is_Some (threads s !! k) -> is_Some (threads s' !! k).
Proof.
  intros Hi [th Hth]. unfold _proc_threadExit, thr. run_step Hth.
  assert (forall k, is_Some (threads s !! k) -> is_Some (threads (upd set_exit t s) !! k)) as Hdom.
  { intros k. cbn. by rewrite lookup_alter_is_Some. }
  destruct (interruptible th) eqn:Hint; [|eexists; split_and!; [done|auto with sched|done|done]].
  destruct (interrupt_ok dn (upd set_exit t s) t (set_exit th)) as (s' & -> & ? & ? & ?); [auto with sched| | |].
  - cbn. by rewrite lookup_alter_eq, Hth.
  - exact (interruptible_sleeps dn s t th Hi Hth Hint).
  - eexists. split_and!; [done|done|done|auto].
Qed.

Lemma destroy_loop_ok dn ts : forall s, sched_inv dn s -> (forall t, t ∈ ts -> is_Some (threads s !! t)) ->
  exists s', destroy_loop s ts = Ok s' /\ sched_inv dn s' /\ current s' = current s.
Proof.
  induction ts as [|t ts IH]; intros s Hi Hts; simpl; [eauto|].
  destruct (threadExit_ok dn s t Hi) as (s1 & -> & Hi1 & Ec & Hdom); [apply Hts; by left|]. cbn [rbind].
  destruct (IH s1 Hi1) as (s' & -> & ? & ?).
  - intros k Hk. apply Hdom, Hts. by right.
  - eexists. split_and!; [done|done|congruence].
Qed.

Lemma sig_loop_ok dn ts sigbit s : sched_inv dn s -> (forall t, t ∈ ts -> is_Some (threads s !! t)) ->
  exists s', sig_loop s ts sigbit = Ok s' /\ sched_inv dn s' /\ current s' = current s.
Proof.
  intros Hi. induction ts as [|t ts IH]; intros Hts; simpl; [eauto|].
  destruct (Hts t) as [th Hth]; [by left|]. unfold thr. run_step Hth. destruct (_ =? 0).
  - apply IH. intros k Hk. apply Hts. by right.
  - destruct (interruptible th) eqn:Hint; [|eauto].
    destruct (interrupt_ok dn s t th) as (s' & -> & ? & ? & _); [done|done|by eapply interruptible_sleeps|eauto].
Qed.

(** The running thread becomes a ghost. *)
Lemma inv_end dn s cpu t th : sched_inv dn s -> current s !! cpu = Some (Some t) -> runs s t th ->
  sched_inv dn (ghosts_add (set_current (<[cpu := None]> (current s)) s) t).
Proof.
  intros Hi Hc (_ & Hth & Hst). eapply (inv_homes_perm dn s); [done|done|done|done|done|apply (i_len _ _ Hi)| |apply (i_ready _ _ Hi)|].
  - pose proof (homes_current s cpu (Some t) None Hc) as Hp. simpl in Hp. rewrite (right_id_L [] (++)) in Hp. rewrite <- Hp.
    unfold homes. cbn. unfold list_add. by rewrite !(assoc_L (++)).
  - intros t' [Hin|Hx%list_elem_of_singleton]%elem_of_app; [by apply (i_ghost _ _ Hi)|subst; eauto].
Qed.

Lemma end_enter_ok dn s cpu t th : sched_inv dn s -> current s !! cpu = Some (Some t) -> runs s t th ->
  exists s', end_enter s cpu = Ok s' /\ sched_inv dn s' /\ current s' = <[cpu := None]> (current s).
Proof.
  intros Hi Hc Hrun. unfold end_enter, on_cpu. run_step Hc.
  destruct (wakeup_ok dn _ reaper (inv_end dn s cpu t th Hi Hc Hrun)) as (s' & -> & ? & Ec & _); [apply (i_reaper _ _ Hi)|eauto].
Qed.

(** A ghost leaves the list for good. *)
Lemma inv_reap dn s g l : sched_inv dn s -> ghosts s = g :: l -> sched_inv ({[g]} ∪ dn) (set_ghosts l s).
Proof.
  intros Hi Hg. pose proof (i_ghost _ _ Hi g) as Hgh. rewrite Hg in Hgh. destruct Hgh as (thg & Hthg & Hsg); [by left|].
  destruct Hi as [Hlen Hnd Hh Hr Hgs Ht Hq Hso Hsl Hid Hre Hpr].
  assert (homes s ≡ₚ g :: homes (set_ghosts l s)) as Hp.
  { unfold homes. cbn. rewrite Hg. rewrite !(assoc_L (++)). by rewrite <- Permutation_middle. }
  rewrite Hp in Hnd. apply NoDup_cons in Hnd as [Hng Hnd].
  assert (forall t, t ∈ homes s <-> t = g \/ t ∈ homes (set_ghosts l s)) as Hin by (intros t; rewrite Hp; apply elem_of_cons).
  constructor; try done.
  - intros t Hx. assert (t <> g) by (by intros ->). destruct (Hh t) as [? ?]; [apply Hin; auto|]. split; [done|]. set_solver.
  - intros t Hx. apply Hgs. rewrite Hg. by right.
  - intros t th Hth. destruct (Ht t th Hth) as [? Hok]. split; [done|]. destruct (state th) eqn:Est.
    + destruct Hok as (? & ? & ? & Hx). split_and!; [done..|]. intros Hd. rewrite not_elem_of_union, not_elem_of_singleton in Hd.
      destruct Hd as [Hne Hd]. by apply Hx, Hin in Hd as [?|?].
    + destruct Hok as (? & Hd & ? & ?). split_and!; [done| |done|done]. rewrite not_elem_of_union, not_elem_of_singleton.
      split; [|done]. intros ->. cbn in Hth. congruence.
Qed.

(** A new thread. *)
Lemma inv_new dn s t th : sched_inv dn s -> threads s !! t = None -> t ∉ dn ->
  state th = READY -> wait th = None -> wakeup th = 0 -> interruptible th = false -> (priority th < NPRIO)%nat ->
  (forall k a, threads s !! k = Some a -> thread_id a <> thread_id th) ->
  (forall p, process th = Some p -> is_Some (procs s !! p)) ->
  sched_inv dn (set_ready (alter (fun l => list_add l t) (priority th) (ready s)) (set_threads (<[t := th]> (threads s)) s)).
Proof.
  intros Hi Hn Hdn Hst Hw Hwk Hint Hpri Hfresh Hproc.
  assert (homes (set_ready (alter (fun l => list_add l t) (priority th) (ready s)) s) ≡ₚ t :: homes s) as Hp.
  { apply homes_ready_add. by rewrite (i_len _ _ Hi). }
  change (homes (set_ready _ s)) with (homes (set_ready (alter (fun l => list_add l t) (priority th) (ready s)) (set_threads (<[t := th]> (threads s)) s))) in Hp.
  set (s' := set_ready _ _) in *.
  destruct Hi as [Hlen Hnd Hh Hr Hg Ht Hq Hso Hsl Hid Hre Hpr].
  assert (forall k, is_Some (threads s !! k) -> k <> t) as Hne by (intros k Hk ->; rewrite Hn in Hk; by destruct Hk).
  assert (forall k, k ∈ homes s' <-> k = t \/ k ∈ homes s) as Hin by (intros k; rewrite Hp; apply elem_of_cons).
  assert (forall k a, threads s !! k = Some a -> <[t := th]> (threads s) !! k = Some a) as Hold.
  { intros k a Ha. rewrite lookup_insert_ne; [done|]. apply not_eq_sym, Hne. eauto. }
  constructor; cbn [threads s' set_ready set_threads sleeping ghosts queues procs].
  - unfold s'. cbn. by rewrite length_alter.
  - rewrite Hp. constructor; [|done]. intros Hx. by destruct (Hne t (proj1 (Hh t Hx))).
  - intros k [->|Hx]%Hin; [by rewrite lookup_insert_eq|]. destruct (Hh k Hx) as [[a Ha] ?]. split; [|done]. rewrite (Hold k a Ha). eauto.
  - unfold s'. cbn. intros p l k Hl Hk. apply ready_alter_inv in Hl as [(-> & y & Hy & ->)|Hy].
    + unfold list_add in Hk. apply elem_of_app in Hk as [Hk|Hk%list_elem_of_singleton].
      * destruct (Hr _ _ k Hy Hk) as (a & Ha & ? & ?). eauto.
      * subst. rewrite lookup_insert_eq. eauto.
    + destruct (Hr _ _ k Hy Hk) as (a & Ha & ? & ?). eauto.
  - intros k Hk. destruct (Hg k Hk) as (a & Ha & ?). eauto.
  - intros k a [[<- <-]|[? Ha]]%lookup_insert_Some.
    + split; [done|]. rewrite Hst. split_and!; [done..|]. intros _. apply Hin. by left.
    + destruct (Ht k a Ha) as [? Hok]. split; [done|]. destruct (state a); [|done].
      destruct Hok as (? & ? & ? & Hx). split_and!; [done..|]. intros. apply Hin. auto.
  - intros q l Hl. destruct (Hq q l Hl) as [? Hw']. split; [done|]. intros k Hk. destruct (Hw' k Hk) as (a & ? & ?). eauto.
  - apply (sorted_ext (threads_sleepcmp (threads s))); [|done]. intros a b Ha Hb.
    unfold threads_sleepcmp, wakeup_of, id_of. destruct (Hsl a Ha) as (xa & Hxa & _). destruct (Hsl b Hb) as (xb & Hxb & _).
    by rewrite (Hold a xa Hxa), (Hold b xb Hxb), Hxa, Hxb.
  - intros k Hk. destruct (Hsl k Hk) as (a & ? & ?). eauto.
  - intros t1 t2 a b [[<- <-]|[? Ha]]%lookup_insert_Some [[<- <-]|[? Hb]]%lookup_insert_Some E; [done| | |eauto].
    + by destruct (Hfresh t2 b Hb).
    + by destruct (Hfresh t1 a Ha).
  - done.
  - intros k a p [[<- <-]|[? Ha]]%lookup_insert_Some; eauto.
Qed.
End Ops.
