(* ===== verification/ThreadsOwn.v ===== *)
(** * Thread manager: ownership of thread objects

    References ([refs]), the tree of identifiers and the processes' thread
    rings.  Scheduling never touches them ([own_same], a frame of every
    scheduler operation); [threads_put], [thread_destroy], [proc_reap] and
    [proc_join] move a thread from its process' threads to its ghosts and free
    it, and keep [own_inv]. *)

From Stdlib Require Import ZArith Lia.
From S2P Require Import Prelude.
From S2P Require Import LibList.
From S2P Require Import RbOps.
From S2P Require Import Threads.
From S2P Require Import ThreadsInv.
From S2P Require Import ThreadsOps.

(** ** What scheduling leaves alone *)
Definition same_owner (a b : thread) : Prop := refs a = refs b /\ process a = process b /\ thread_id a = thread_id b.
Definition same_rings (a b : proc) : Prop := p_threads a = p_threads b /\ p_ghosts a = p_ghosts b /\ p_reaper a = p_reaper b.

Record own_same (s s' : common) : Prop := {
  os_id : idtree s' = idtree s;
  os_threads : forall t, option_Forall2 same_owner (threads s !! t) (threads s' !! t);
  os_procs : forall p, option_Forall2 same_rings (procs s !! p) (procs s' !! p);
  os_queues : forall q, is_Some (queues s !! q) -> is_Some (queues s' !! q);
  os_cpus : length (current s') = length (current s);
}.

#[export] Instance own_same_preorder : PreOrder own_same.
Proof.
  split.
  - intros s. split; [done| | |done|done]; intros k.
    + destruct (threads s !! k); by constructor.
    + destruct (procs s !! k); by constructor.
  - intros s1 s2 s3 [Hi1 Ht1 Hp1 Hq1 Hc1] [Hi2 Ht2 Hp2 Hq2 Hc2]. split; [congruence| | |auto|congruence]; intros k.
    + pose proof (Ht1 k) as H1. pose proof (Ht2 k) as H2. destruct H1 as [a b (? & ? & ?)|]; [|done].
      inversion H2 as [? c (? & ? & ?)|]; subst. constructor. split_and!; congruence.
    + pose proof (Hp1 k) as H1. pose proof (Hp2 k) as H2. destruct H1 as [a b (? & ? & ?)|]; [|done].
      inversion H2 as [? c (? & ? & ?)|]; subst. constructor. split_and!; congruence.
Qed.

(** A change of the other components only. *)
Lemma own_frame s s' : idtree s' = idtree s -> threads s' = threads s -> procs s' = procs s -> queues s' = queues s ->
  length (current s') = length (current s) -> own_same s s'.
Proof.
  intros Ei Et Ep Eq Ec. split; [done| | |by rewrite Eq|done]; intros k; rewrite ?Et, ?Ep.
  - destruct (threads s !! k); by constructor.
  - destruct (procs s !! k); by constructor.
Qed.

Lemma own_upd f t s : (forall th, same_owner th (f th)) -> own_same s (upd f t s).
Proof.
  intros Hf. split; [done| | |done|done]; intros k; cbn.
  - destruct (decide (k = t)) as [->|].
    + rewrite lookup_alter_eq. destruct (threads s !! t); constructor. apply Hf.
    + rewrite lookup_alter_ne by done. destruct (threads s !! k); by constructor.
  - destruct (procs s !! k); by constructor.
Qed.

Lemma own_queues s m : (forall q, is_Some (queues s !! q) -> is_Some (m !! q)) -> own_same s (set_queues m s).
Proof.
  intros Hm. split; [done| | |done|done]; intros k; cbn.
  - destruct (threads s !! k); by constructor.
  - destruct (procs s !! k); by constructor.
Qed.

Lemma own_queue_insert s q w : own_same s (set_queues (<[q := w]> (queues s)) s).
Proof. apply own_queues. intros k Hk. by apply lookup_insert_is_Some'; right. Qed.

Lemma own_procs s p pr pr' : procs s !! p = Some pr -> same_rings pr pr' -> own_same s (set_procs (<[p := pr']> (procs s)) s).
Proof.
  intros Hp Hr. split; [done| | |done|done]; intros k; cbn.
  - destruct (threads s !! k); by constructor.
  - destruct (decide (k = p)) as [->|].
    + rewrite lookup_insert_eq, Hp. by constructor.
    + rewrite lookup_insert_ne by done. destruct (procs s !! k); by constructor.
Qed.

(** [own_solve] chains the frames of the primitive updates. *)
Ltac own_solve :=
  repeat first
    [ reflexivity
    | (apply own_frame; [reflexivity|reflexivity|reflexivity|reflexivity|cbn; rewrite ?length_insert; reflexivity])
    | eassumption
    | (apply own_queue_insert)
    | (apply own_upd; intros; split_and!; reflexivity)
    | (etransitivity; [|apply own_upd; intros; split_and!; reflexivity])
    | (etransitivity; [|apply own_queue_insert]) ].

Section Frames.
Context `{Hal}.

Lemma own_ready_add s p t s' : ready_add s p t = Ok s' -> own_same s s'.
Proof. unfold ready_add. intros (l & _ & E)%rbind_inv. simplify_eq. own_solve. Qed.

Lemma own_sleeping_insert s t : own_same s (sleeping_insert s t).
Proof. unfold sleeping_insert. case_match; own_solve. Qed.

Lemma own_updateWakeup s now m s' : _threads_updateWakeup s now m = Ok s' -> own_same s s'.
Proof. unfold _threads_updateWakeup. intros (w & _ & E)%rbind_inv. simplify_eq. own_solve. Qed.

Lemma own_dequeue s t s' : _proc_threadDequeue s t = Ok s' -> own_same s s'.
Proof.
  unfold _proc_threadDequeue. intros (th & _ & E)%rbind_inv. apply rbind_inv in E as (s1 & E1 & E).
  apply rbind_inv in E as (s2 & E2 & E).
  assert (own_same s s1) as H1.
  { unfold queue_remove in E1. repeat case_match; simplify_eq; own_solve. }
  assert (own_same s1 s2) as H2.
  { unfold sleeping_remove in E2. repeat case_match; simplify_eq; own_solve. }
  etrans; [exact H1|]. etrans; [exact H2|]. case_decide; simplify_eq; [own_solve|].
  apply own_ready_add in E. etrans; [|exact E]. own_solve.
Qed.

Lemma own_enqueue s cpu q timeout intr now s' : _proc_threadEnqueue s cpu q timeout intr now = Ok s' -> own_same s s'.
Proof.
  unfold _proc_threadEnqueue. intros ([|l] & _ & E)%rbind_inv; [simplify_eq; own_solve|].
  apply rbind_inv in E as (cur & _ & E). apply rbind_inv in E as (t & _ & E). apply rbind_inv in E as (th & _ & E).
  apply rbind_inv in E as (s1 & E1 & E). assert (own_same s s1) as H1.
  { unfold queue_add in E1. repeat case_match; simplify_eq; own_solve. }
  etrans; [exact H1|]. case_match; simplify_eq; [own_solve|]. apply own_updateWakeup in E. etrans; [|exact E].
  etrans; [|apply own_sleeping_insert]. own_solve.
Qed.

Lemma own_wakeup s q s' : _proc_threadWakeup s q = Ok s' -> own_same s s'.
Proof.
  unfold _proc_threadWakeup. intros ([|[|t l]] & _ & E)%rbind_inv; simplify_eq; try reflexivity. by eapply own_dequeue.
Qed.

Lemma own_broadcast fuel : forall s q ret r, broadcast_loop fuel s q ret = Ok r -> own_same s r.1.
Proof.
  induction fuel as [|fuel IH]; intros s q ret r E; [done|]. simpl in E. apply rbind_inv in E as (w & _ & E).
  destruct w as [|[|t l]]; simplify_eq; [|reflexivity|]; apply rbind_inv in E as (s1 & E1 & E);
    (etrans; [eapply own_wakeup, E1|by eapply IH]).
Qed.

Lemma own_timeintr fuel : forall s now r, timeintr_loop fuel s now = Ok r -> own_same s r.1.
Proof.
  induction fuel as [|fuel IH]; intros s now r E; [done|]. simpl in E. destruct (head (sleeping s)) as [t|]; simplify_eq; [|reflexivity].
  apply rbind_inv in E as (th & _ & E). case_match; simplify_eq; [reflexivity|]. apply rbind_inv in E as (s1 & E1 & E).
  etrans; [eapply own_dequeue, E1|]. etrans; [|by eapply IH]. own_solve.
Qed.

Lemma own_tick s cpu now s' : threads_timeintr s cpu now = Ok s' -> own_same s s'.
Proof.
  unfold threads_timeintr. destruct cpu; intros E; simplify_eq; [|reflexivity]. apply rbind_inv in E as ([s1 o] & E1 & E).
  apply own_timeintr in E1. apply own_updateWakeup in E. by etrans.
Qed.

Lemma own_select fuel : forall s i r, select_loop fuel s i = Ok r -> own_same s r.1.
Proof.
  induction fuel as [|fuel IH]; intros s i r E; [done|]. simpl in E. case_decide; simplify_eq; [|reflexivity].
  apply rbind_inv in E as ([|t l] & _ & E); [by eapply IH|]. apply rbind_inv in E as (th & _ & E).
  destruct (exit th); simplify_eq/=; [|own_solve]. apply rbind_inv in E as (s1 & E1 & E). apply own_wakeup in E1. apply IH in E.
  etrans; [|exact E]. etrans; [|exact E1]. own_solve.
Qed.

Lemma own_signals s t s' : schedule_signals s t = Ok s' -> own_same s s'.
Proof.
  unfold schedule_signals. intros (th & _ & E)%rbind_inv. destruct (process th) as [p|]; simplify_eq; [|reflexivity].
  apply rbind_inv in E as (pr & Hp%deref_inv & E). repeat case_match; simplify_eq; try reflexivity.
  match goal with |- own_same s (set_procs _ ?u) => transitivity u end; [apply own_upd; by intros|].
  match goal with |- own_same ?u _ => by eapply (own_procs u p pr) end.
Qed.

Lemma own_times s cur sel timer : own_same s (threads_cpuTimeCalc s cur sel timer).
Proof. unfold threads_cpuTimeCalc. destruct cur, sel; try case_decide; own_solve. Qed.

Lemma own_schedule s cpu context timer s' : threads_schedule s cpu context timer = Ok s' -> own_same s s'.
Proof.
  unfold threads_schedule. intros (cur & _ & E)%rbind_inv. apply rbind_inv in E as (s1 & E1 & E).
  assert (own_same s s1) as H1.
  { destruct cur as [c|]; simplify_eq; [|own_solve]. apply rbind_inv in E1 as (th & _ & E1).
    case_decide; simplify_eq; [|etransitivity; [|apply own_upd; by intros]; own_solve].
    etrans; [|eapply own_ready_add, E1]. etransitivity; [|apply own_upd; by intros]; own_solve. }
  apply rbind_inv in E as ([s2 o] & E2 & E). apply own_select in E2. apply rbind_inv in E as (s3 & E3 & E). simplify_eq.
  etrans; [exact H1|]. etrans; [exact E2|]. etrans; [|apply own_times].
  destruct o as [t|]; simplify_eq; [|reflexivity]. etrans; [|eapply own_signals, E3]. own_solve.
Qed.

Lemma own_interrupt s t s' : _thread_interrupt s t = Ok s' -> own_same s s'.
Proof. unfold _thread_interrupt. intros (s1 & E1%own_dequeue & E)%rbind_inv. simplify_eq. etrans; [exact E1|]. own_solve. Qed.

Lemma own_exit s t s' : _proc_threadExit s t = Ok s' -> own_same s s'.
Proof.
  unfold _proc_threadExit. intros (th & _ & E)%rbind_inv. case_match; simplify_eq; [|own_solve].
  apply own_interrupt in E. etrans; [|exact E]. own_solve.
Qed.

Lemma own_destroy ts : forall s s', destroy_loop s ts = Ok s' -> own_same s s'.
Proof.
  induction ts as [|t ts IH]; intros s s' E; simplify_eq/=; [reflexivity|]. apply rbind_inv in E as (s1 & E1%own_exit & E).
  etrans; [exact E1|]. by apply IH.
Qed.

Lemma own_sig ts sigbit : forall s s', sig_loop s ts sigbit = Ok s' -> own_same s s'.
Proof.
  induction ts as [|t ts IH]; intros s s' E; simplify_eq/=; [reflexivity|]. apply rbind_inv in E as (th & _ & E).
  case_match; [by apply IH|]. case_match; simplify_eq; [by eapply own_interrupt|reflexivity].
Qed.

Lemma own_sleep s cpu us now s' : sleep_enter s cpu us now = Ok s' -> own_same s s'.
Proof.
  unfold sleep_enter. intros (c & _ & E)%rbind_inv. apply rbind_inv in E as (t & _ & E). apply rbind_inv in E as (th & _ & E).
  apply own_updateWakeup in E. etrans; [|exact E]. etrans; [|apply own_sleeping_insert]. own_solve.
Qed.

Lemma own_end s cpu s' : end_enter s cpu = Ok s' -> own_same s s'.
Proof.
  unfold end_enter. intros (c & _ & E)%rbind_inv. apply rbind_inv in E as (t & _ & E). apply own_wakeup in E.
  etrans; [|exact E]. own_solve.
Qed.

End Frames.

(** ** The ownership invariant *)
Definition ring_ok (dn : gset loc) (s : common) (p : loc) (pr : proc) : Prop :=
  NoDup (p_threads pr) /\ NoDup (p_ghosts pr) /\ is_Some (queues s !! p_reaper pr) /\
  (forall t, t ∈ p_threads pr -> exists th, threads s !! t = Some th /\ process th = Some p /\ 0 < refs th) /\
  (forall t, t ∈ p_ghosts pr -> exists th, threads s !! t = Some th /\ process th = Some p /\ refs th = 0).

Record own_inv (dn : gset loc) (s : common) : Prop := {
  o_dn : forall t, t ∈ dn -> is_Some (threads s !! t);
  o_refs : forall t th, threads s !! t = Some th -> 0 <= refs th /\ (t ∉ dn -> 0 < refs th) /\ (process th = None -> 0 < refs th);
  o_id : forall t, t ∈ idtree s <-> exists th, threads s !! t = Some th /\ 0 < refs th;
  o_sorted : sorted (threads_idcmp (threads s)) (idtree s);
  o_ring : forall t th p, threads s !! t = Some th -> process th = Some p ->
    exists pr, procs s !! p = Some pr /\ (if decide (refs th = 0) then t ∈ p_ghosts pr else t ∈ p_threads pr);
  o_rings : forall p pr, procs s !! p = Some pr -> ring_ok dn s p pr;
}.

Lemma os_fwd s s' t a : own_same s s' -> threads s !! t = Some a -> exists b, threads s' !! t = Some b /\ same_owner a b.
Proof. intros Hs Ha. pose proof (os_threads _ _ Hs t) as Ht. rewrite Ha in Ht. inversion Ht; subst; eauto. Qed.

Lemma os_bwd s s' t b : own_same s s' -> threads s' !! t = Some b -> exists a, threads s !! t = Some a /\ same_owner a b.
Proof. intros Hs Ha. pose proof (os_threads _ _ Hs t) as Ht. rewrite Ha in Ht. inversion Ht; subst; eauto. Qed.

Lemma os_idcmp s s' a b : own_same s s' -> threads_idcmp (threads s) a b = threads_idcmp (threads s') a b.
Proof.
  intros Hs. unfold threads_idcmp, id_of. pose proof (os_threads _ _ Hs a) as Ha. pose proof (os_threads _ _ Hs b) as Hb.
  destruct Ha as [x x' (_ & _ & H1)|]; destruct Hb as [y y' (_ & _ & H2)|]; simpl; by rewrite ?H1, ?H2.
Qed.

Lemma own_inv_same dn s s' : own_same s s' -> own_inv dn s -> own_inv dn s'.
Proof.
  intros Hs [Hdn Hrefs Hid Hso Hring Hrings]. split.
  - intros t Ht. destruct (Hdn t Ht) as [a Ha]. destruct (os_fwd _ _ _ _ Hs Ha) as (b & -> & _). eauto.
  - intros t b Hb. destruct (os_bwd _ _ _ _ Hs Hb) as (a & Ha & <- & <- & _). eauto.
  - intros t. rewrite (os_id _ _ Hs), Hid. split.
    + intros (a & Ha & ?). destruct (os_fwd _ _ _ _ Hs Ha) as (b & Hb & E & _). exists b. by rewrite <- E.
    + intros (b & Hb & ?). destruct (os_bwd _ _ _ _ Hs Hb) as (a & Ha & E & _). rewrite <- E in *. eauto.
  - rewrite (os_id _ _ Hs). apply (sorted_ext (threads_idcmp (threads s))); [|done]. intros. by apply os_idcmp.
  - intros t b p Hb. destruct (os_bwd _ _ _ _ Hs Hb) as (a & Ha & <- & <- & _). intros Hp.
    destruct (Hring t a p Ha Hp) as (pr & Hpr & Hin). pose proof (os_procs _ _ Hs p) as Hp'. rewrite Hpr in Hp'.
    inversion Hp' as [? pr' (E1 & E2 & _)|]; subst. exists pr'. split; [done|]. by rewrite <- E1, <- E2.
  - intros p pr' Hpr'. pose proof (os_procs _ _ Hs p) as Hp'. rewrite Hpr' in Hp'. inversion Hp' as [pr ? (E1 & E2 & E3) E4|]; subst.
    destruct (Hrings p pr) as (? & ? & ? & Ht & Hg); [done|]. unfold ring_ok. rewrite <- E1, <- E2, <- E3. split_and!; [done|done| | |].
    + by apply (os_queues _ _ Hs).
    + intros t Hin. destruct (Ht t Hin) as (a & Ha & ? & ?). destruct (os_fwd _ _ _ _ Hs Ha) as (b & Hb & E & E' & _).
      exists b. by rewrite <- E, <- E'.
    + intros t Hin. destruct (Hg t Hin) as (a & Ha & ? & ?). destruct (os_fwd _ _ _ _ Hs Ha) as (b & Hb & E & E' & _).
      exists b. by rewrite <- E, <- E'.
Qed.

(** Both invariants; [dn] are the threads that left the ghost list. *)
Definition thr_inv (dn : gset loc) (s : common) : Prop := sched_inv dn s /\ own_inv dn s.

Lemma inv_refs dn s n t : sched_inv dn s -> sched_inv dn (upd (set_refs n) t s).
Proof. apply inv_upd. by repeat split. Qed.

Lemma idcmp_alter m t f a b : (forall th, thread_id (f th) = thread_id th) -> threads_idcmp m a b = threads_idcmp (alter f t m) a b.
Proof. intros Hf. unfold threads_idcmp. by rewrite !(id_of_alter _ _ _ _ Hf). Qed.

(** Taking or dropping a reference that is not the last. *)
Lemma own_refs dn s t th n : own_inv dn s -> threads s !! t = Some th -> 0 < refs th -> 0 < n -> own_inv dn (upd (set_refs n) t s).
Proof.
  intros [Hdn Hrefs Hid Hso Hring Hrings] Hth Hr Hn.
  assert (forall k a, threads s !! k = Some a -> exists b, threads (upd (set_refs n) t s) !! k = Some b /\
    process b = process a /\ (0 < refs a <-> 0 < refs b) /\ (refs a = 0 <-> refs b = 0)) as Hfwd.
  { intros k a Ha. cbn. destruct (decide (k = t)) as [->|]; [|rewrite lookup_alter_ne by done; eauto].
    rewrite lookup_alter_eq, Ha. simplify_eq. eexists. split; [done|]. cbn. split_and!; [done|lia|lia]. }
  split; cbn [threads upd set_threads idtree procs].
  - intros k Hk. destruct (Hdn k Hk) as [a Ha]. destruct (Hfwd k a Ha) as (b & Hb & _). cbn in Hb. rewrite Hb. eauto.
  - intros k b [(<- & a & Ha & ->)|[_ Hb]]%lookup_alter_Some; [cbn; split_and!; auto; lia|by apply Hrefs].
  - intros k. rewrite Hid. split.
    + intros (a & Ha & Hp). destruct (Hfwd k a Ha) as (b & Hb & _ & E & _). exists b. split; [done|]. by apply E.
    + intros (b & [(<- & a & Ha & ->)|[_ Hb]]%lookup_alter_Some & Hp); simplify_eq; eauto.
  - apply (sorted_ext (threads_idcmp (threads s))); [|done]. intros. by apply idcmp_alter.
  - intros k b p [(<- & a & Ha & ->)|[_ Hb]]%lookup_alter_Some Hp; [|by apply Hring]. simplify_eq. cbn in *.
    destruct (Hring t th p Hth Hp) as (pr & Hpr & Hin). exists pr. split; [done|]. rewrite decide_False in Hin by lia. by rewrite decide_False by lia.
  - intros p pr Hpr. destruct (Hrings p pr Hpr) as (? & ? & ? & Ht & Hg). unfold ring_ok. split_and!; [done|done|done| |].
    + intros k Hk. destruct (Ht k Hk) as (a & Ha & Hp & ?). destruct (Hfwd k a Ha) as (b & Hb & Eb & E & _).
      exists b. split_and!; [done|by rewrite Eb|by apply E].
    + intros k Hk. destruct (Hg k Hk) as (a & Ha & Hp & ?). destruct (Hfwd k a Ha) as (b & Hb & Eb & _ & E).
      exists b. split_and!; [done|by rewrite Eb|by apply E].
Qed.

(** A thread that left the ghost list can be freed. *)
Lemma inv_delete dn s t : sched_inv dn s -> t ∈ dn -> sched_inv (dn ∖ {[t]}) (set_threads (delete t (threads s)) s).
Proof.
  intros [Hlen Hnd Hh Hr Hg Ht Hq Hso Hsl Hid Hre Hpr] Hdn.
  assert (t ∉ homes s) as Hnh by (intros Hx; by destruct (Hh t Hx)).
  assert (forall th, threads s !! t = Some th -> wait th = None /\ wakeup th = 0) as Hidle.
  { intros th Hth. destruct (Ht t th Hth) as [_ Hok]. destruct (state th); [by destruct Hok as (? & ? & _)|]. by destruct Hok as (_ & ? & _). }
  assert (forall k a, threads s !! k = Some a -> k <> t -> delete t (threads s) !! k = Some a) as Hold.
  { intros k a Ha Hne. by rewrite lookup_delete_ne. }
  assert (forall k, k ∈ sleeping s -> k <> t) as Hsne.
  { intros k Hk ->. destruct (Hsl t Hk) as (a & Ha & Hw). destruct (Hidle a Ha). done. }
  constructor; cbn; try done.
  - intros k Hx. destruct (Hh k Hx) as [[a Ha] ?]. split; [|set_solver]. rewrite (Hold k a Ha); [eauto|]. by intros ->.
  - intros p l k Hl Hk. destruct (Hr p l k Hl Hk) as (a & Ha & ? & ?). exists a. split_and!; [|done|done].
    apply Hold; [done|]. intros ->. apply Hnh. unfold homes. rewrite !elem_of_app. left. apply elem_of_concat_lookup. eauto.
  - intros k Hk. destruct (Hg k Hk) as (a & Ha & ?). exists a. split; [|done]. apply Hold; [done|]. intros ->. apply Hnh.
    unfold homes. rewrite !elem_of_app. auto.
  - intros k a [Hne Ha]%lookup_delete_Some. destruct (Ht k a Ha) as [? Hok]. split; [done|]. destruct (state a).
    + destruct Hok as (? & ? & ? & Hx). split_and!; [done..|]. intros Hk. apply Hx. set_solver.
    + destruct Hok as (? & ? & ? & ?). split_and!; [done|set_solver|done|done].
  - intros q l Hl. destruct (Hq q l Hl) as [? Hw]. split; [done|]. intros k Hk. destruct (Hw k Hk) as (a & Ha & Hwa).
    exists a. split; [|done]. apply Hold; [done|]. intros ->. destruct (Hidle a Ha). congruence.
  - apply (sorted_ext (threads_sleepcmp (threads s))); [|done]. intros a b Ha Hb.
    unfold threads_sleepcmp, wakeup_of, id_of. by rewrite !lookup_delete_ne by (apply not_eq_sym; auto).
  - intros k Hk. destruct (Hsl k Hk) as (a & Ha & ?). exists a. split; [|done]. apply Hold; auto.
  - intros t1 t2 a b [_ Ha]%lookup_delete_Some [_ Hb]%lookup_delete_Some. by apply Hid.
  - intros k a p [_ Ha]%lookup_delete_Some. eauto.
Qed.

Lemma idtree_filter dn s t : own_inv dn s -> forall k, k ∈ filter (fun k => k <> t) (idtree s) <-> k <> t /\ exists th, threads s !! k = Some th /\ 0 < refs th.
Proof. intros Ho k. by rewrite list_elem_of_filter, (o_id _ _ Ho). Qed.

(** The last reference to a thread of no process: the object is freed. *)
Lemma own_free dn s t th : own_inv dn s -> threads s !! t = Some th -> process th = None ->
  own_inv (dn ∖ {[t]}) (set_threads (delete t (threads s)) (set_idtree (filter (fun k => k <> t) (idtree s)) s)).
Proof.
  intros Ho Hth Hp. pose proof (idtree_filter dn s t Ho) as Hf. destruct Ho as [Hdn Hrefs Hid Hso Hring Hrings].
  assert (forall k a p, threads s !! k = Some a -> process a = Some p -> delete t (threads s) !! k = Some a) as Hold.
  { intros k a p Ha Hpa. rewrite lookup_delete_ne; [done|]. intros ->. congruence. }
  split; cbn.
  - intros k [Hk Hne]%elem_of_difference. rewrite lookup_delete_ne by set_solver. auto.
  - intros k a [Hne Ha]%lookup_delete_Some. destruct (Hrefs k a Ha) as (? & Hx & ?). split_and!; [done| |done]. intros ?. apply Hx. set_solver.
  - intros k. rewrite Hf. split.
    + intros [Hne (a & Ha & ?)]. exists a. by rewrite lookup_delete_ne.
    + intros (a & [Hne Ha]%lookup_delete_Some & ?). split; [congruence|eauto].
  - apply (sorted_ext (threads_idcmp (threads s))); [|by apply sorted_filter].
    intros a b [? _]%list_elem_of_filter [? _]%list_elem_of_filter. unfold threads_idcmp, id_of. by rewrite !lookup_delete_ne.
  - intros k a p [_ Ha]%lookup_delete_Some. eauto.
  - intros p pr Hpr. destruct (Hrings p pr Hpr) as (? & ? & ? & Ht & Hg). split_and!; [done|done|done| |].
    + intros k Hk. destruct (Ht k Hk) as (a & Ha & ? & ?). exists a. cbn. split_and!; eauto.
    + intros k Hk. destruct (Hg k Hk) as (a & Ha & ? & ?). exists a. cbn. split_and!; eauto.
Qed.

(** The last reference to a thread of a process: it moves to the process'
    ghosts. *)
Definition retire (pr : proc) (t : loc) : proc :=
  Proc (list_del (p_threads pr) t) (list_add (p_ghosts pr) t) (p_reaper pr) (p_sigpend pr) (sighandler pr) (pmapp pr).

Lemma own_retire dn s t th p pr : own_inv dn s -> t ∈ dn -> threads s !! t = Some th -> 0 < refs th ->
  process th = Some p -> procs s !! p = Some pr ->
  own_inv dn (set_procs (<[p := retire pr t]> (procs s)) (set_idtree (filter (fun k => k <> t) (idtree s)) (upd (set_refs 0) t s))).
Proof.
  intros Ho Htd Hth Hr Hp Hpr. pose proof (idtree_filter dn s t Ho) as Hf. destruct Ho as [Hdn Hrefs Hid Hso Hring Hrings].
  assert (t ∈ p_threads pr) as Htin.
  { destruct (Hring t th p Hth Hp) as (pr' & ? & Hin). simplify_eq. by rewrite decide_False in Hin by lia. }
  assert (t ∉ p_ghosts pr) as Htng.
  { intros Hx. destruct (Hrings p pr Hpr) as (_ & _ & _ & _ & Hg). destruct (Hg t Hx) as (a & ? & _ & ?). simplify_eq. lia. }
  destruct (list_del_NoDup (p_threads pr) t) as [Hnd1 Hin1]; [by apply (Hrings p)|done|].
  split; cbn.
  - intros k Hk. rewrite lookup_alter_is_Some. auto.
  - intros k b [(<- & a & Ha & ->)|[_ Hb]]%lookup_alter_Some; [|by apply Hrefs]. simplify_eq. cbn. split_and!; [done|done|congruence].
  - intros k. rewrite Hf. split.
    + intros [Hne (a & Ha & ?)]. exists a. by rewrite lookup_alter_ne.
    + intros (a & [(<- & b & Hb & ->)|[Hne Ha]]%lookup_alter_Some & ?); [cbn in *; lia|split; [congruence|eauto]].
  - apply (sorted_ext (threads_idcmp (threads s))); [|by apply sorted_filter]. intros. by apply idcmp_alter.
  - intros k b p' [(<- & a & Ha & ->)|[Hne Hb]]%lookup_alter_Some Hp'.
    + simplify_eq. cbn in *. simplify_eq. exists (retire pr t). rewrite lookup_insert_eq. split; [done|].
      unfold retire, list_add. cbn. apply elem_of_app. right. by apply list_elem_of_singleton.
    + destruct (Hring k b p' Hb Hp') as (pr' & Hpr' & Hin). destruct (decide (p' = p)) as [->|Hpp].
      * simplify_eq. exists (retire pr t). rewrite lookup_insert_eq. split; [done|]. case_decide; unfold retire, list_add; cbn.
        -- apply elem_of_app. by left.
        -- apply Hin1. split; [done|congruence].
      * exists pr'. by rewrite lookup_insert_ne.
  - intros p' pr' [[<- <-]|[Hpp Hpr']]%lookup_insert_Some.
    + destruct (Hrings p pr Hpr) as (Hn1 & Hn2 & ? & Ht & Hg). split_and!; cbn; [done| |done| |].
      * unfold list_add. rewrite <- Permutation_cons_append. by constructor.
      * intros k [Hk Hne]%Hin1. destruct (Ht k Hk) as (a & ? & ? & ?). exists a. by rewrite lookup_alter_ne.
      * unfold list_add. intros k [Hk|Hk%list_elem_of_singleton]%elem_of_app.
        -- destruct (Hg k Hk) as (a & ? & ? & ?). exists a. rewrite lookup_alter_ne; [done|]. by intros ->.
        -- subst. rewrite lookup_alter_eq, Hth. eexists. split_and!; [done|done|done].
    + destruct (Hrings p' pr' Hpr') as (? & ? & ? & Ht & Hg).
      assert (forall k a, threads s !! k = Some a -> process a = Some p' -> alter (set_refs 0) t (threads s) !! k = Some a) as Hold.
      { intros k a Ha Hpa. rewrite lookup_alter_ne; [done|]. intros ->. by simplify_eq. }
      split_and!; cbn; [done|done|done| |].
      * intros k Hk. destruct (Ht k Hk) as (a & ? & ? & ?). exists a. split_and!; auto.
      * intros k Hk. destruct (Hg k Hk) as (a & ? & ? & ?). exists a. split_and!; auto.
Qed.

(** ** Releasing a thread *)
Section Release.
Context `{Hal}.

Lemma restrict_dn dn s : own_inv dn s -> dn ∩ dom (threads s) = dn.
Proof. intros Ho. apply set_eq. intros t. rewrite elem_of_intersection, elem_of_dom. split; [tauto|]. intros Ht. split; [done|by apply (o_dn _ _ Ho)]. Qed.

Lemma restrict_delete dn s t : own_inv dn s -> dn ∩ dom (delete t (threads s)) = dn ∖ {[t]}.
Proof.
  intros Ho. apply set_eq. intros k. rewrite dom_delete, elem_of_intersection, !elem_of_difference, elem_of_dom.
  split; [tauto|]. intros [Hk Hne]. split_and!; [done|by apply (o_dn _ _ Ho)|done].
Qed.

Lemma delete_alter_thread (m : gmap loc thread) f t : delete t (alter f t m) = delete t m.
Proof.
  apply map_eq. intros k. destruct (decide (k = t)) as [->|]; [by rewrite !lookup_delete_eq|].
  by rewrite !lookup_delete_ne, lookup_alter_ne.
Qed.

(** The operations keep both invariants; the threads that are done are those
    that still exist. *)
Lemma put_ok dn s t th : thr_inv dn s -> threads s !! t = Some th -> 0 < refs th -> (refs th = 1 -> t ∈ dn) ->
  exists s', threads_put s t = Ok s' /\ thr_inv (dn ∩ dom (threads s')) s' /\ length (current s') = length (current s).
Proof.
  intros [Hi Ho] Hth Hr Hlast. unfold threads_put, thr. run_step Hth.
  destruct (Z.eqb_spec (refs th - 1) 0) as [E|E].
  2: { eexists. split; [done|]. split; [|done]. assert (own_inv dn (upd (set_refs (refs th - 1)) t s)) as Ho' by (eapply own_refs; eauto; lia).
       rewrite (restrict_dn dn _ Ho'). split; [by apply inv_refs|done]. }
  rewrite E. assert (t ∈ dn) as Hd by (apply Hlast; lia). unfold idtree_remove. cbn [idtree upd set_threads].
  rewrite decide_True by (apply (o_id _ _ Ho); eauto). cbn [rbind]. unfold thread_destroy, thr. cbn [threads set_idtree set_threads upd].
  rewrite lookup_alter_eq, Hth. cbn [fmap option_fmap option_map deref rbind process set_refs].
  destruct (process th) as [p|] eqn:Ep.
  - destruct (o_ring _ _ Ho t th p Hth Ep) as (pr & Hpr & Hin). rewrite decide_False in Hin by lia.
    cbn [procs set_idtree upd set_threads]. run_step Hpr. rewrite decide_True by done.
    pose proof (own_retire dn s t th p pr Ho Hd Hth Hr Ep Hpr) as Ho1. unfold upd in Ho1. set (s1 := set_procs _ _) in *.
    assert (sched_inv dn s1) as Hi1.
    { apply inv_procs; [intros k Hk; by apply lookup_insert_is_Some'; right|]. apply inv_idtree. by apply inv_refs. }
    cbn [p_reaper retire]. destruct (wakeup_ok dn s1 (p_reaper pr) Hi1) as (s2 & E2 & Hi2 & Ec & _); [by apply (o_rings _ _ Ho p)|].
    exists s2. split; [exact E2|]. apply own_wakeup in E2. pose proof (own_inv_same dn s1 s2 E2 Ho1) as Ho2.
    split; [by rewrite (restrict_dn dn s2 Ho2)|by rewrite Ec].
  - eexists. split; [done|]. split; [|done]. cbn [threads set_threads set_idtree].
    rewrite delete_alter_thread. rewrite (restrict_delete dn s t Ho). split.
    + apply inv_idtree with (w := filter (fun k => k <> t) (idtree s)) in Hi. by apply (inv_delete _ _ t) in Hi.
    + by apply (own_free dn s t th).
Qed.

Lemma own_mono dn dn' s : own_inv dn s -> dn ⊆ dn' -> (forall t, t ∈ dn' -> is_Some (threads s !! t)) -> own_inv dn' s.
Proof.
  intros [Hdn Hrefs Hid Hso Hring Hrings] Hsub Hd. split; try done. intros t th Hth. destruct (Hrefs t th Hth) as (? & Hx & ?).
  split_and!; [done| |done]. intros Hn. apply Hx. set_solver.
Qed.

(** [proc_reap] with a ghost to take. *)
Lemma reap_ok dn s cpu now g l : thr_inv dn s -> ghosts s = g :: l ->
  exists s', proc_reap s cpu now = Ok (s', Some g) /\ thr_inv (({[g]} ∪ dn) ∩ dom (threads s')) s' /\
    length (current s') = length (current s).
Proof.
  intros [Hi Ho] Hg. destruct (i_ghost _ _ Hi g) as (th & Hth & _); [rewrite Hg; by left|].
  pose proof (inv_reap dn s g l Hi Hg) as Hi1. assert (g ∉ dn) as Hgd.
  { apply (i_home _ _ Hi). unfold homes. rewrite Hg, !elem_of_app. right; right; by left. }
  destruct (o_refs _ _ Ho g th Hth) as (_ & Hpos & _).
  assert (own_inv ({[g]} ∪ dn) (set_ghosts l s)) as Ho1.
  { apply (own_inv_same _ s); [by apply own_frame|]. apply (own_mono dn); [done|set_solver|].
    intros t [Ht%elem_of_singleton|Ht]%elem_of_union; [subst; eauto|by apply (o_dn _ _ Ho)]. }
  destruct (put_ok ({[g]} ∪ dn) (set_ghosts l s) g th (conj Hi1 Ho1) Hth) as (s' & Es & Hinv & Hc); [auto|set_solver|].
  exists s'. split_and!; [|done|done]. unfold proc_reap. rewrite Hg, list_del_head, Es. done.
Qed.

(** [proc_join] with an ended thread to report. *)
Lemma own_join dn s p pr g l th : own_inv dn s -> procs s !! p = Some pr -> p_ghosts pr = g :: l -> threads s !! g = Some th ->
  own_inv (dn ∖ {[g]}) (set_threads (delete g (threads s))
    (set_procs (<[p := Proc (p_threads pr) l (p_reaper pr) (p_sigpend pr) (sighandler pr) (pmapp pr)]> (procs s)) s)).
Proof.
  intros Ho Hpr Hg Hth. destruct (o_rings _ _ Ho p pr Hpr) as (Hn1 & Hn2 & Hq & Htin & Hgin). rewrite Hg in Hn2, Hgin.
  destruct (Hgin g) as (th' & ? & Hgp & Hg0); [by left|]. simplify_eq. apply NoDup_cons in Hn2 as [Hgl Hn2].
  assert (forall k a, threads s !! k = Some a -> 0 < refs a -> k <> g) as Hpos by (intros k a Ha Hp ->; simplify_eq; lia).
  destruct Ho as [Hdn Hrefs Hid Hso Hring Hrings]. split; cbn.
  - intros k [Hk Hne]%elem_of_difference. rewrite lookup_delete_ne by set_solver. auto.
  - intros k a [Hne Ha]%lookup_delete_Some. destruct (Hrefs k a Ha) as (? & Hx & ?). split_and!; [done| |done]. intros ?. apply Hx. set_solver.
  - intros k. rewrite Hid. split.
    + intros (a & Ha & Hp). exists a. split; [|done]. rewrite lookup_delete_ne; [done|]. by apply not_eq_sym, (Hpos k a).
    + intros (a & [Hne Ha]%lookup_delete_Some & ?). eauto.
  - apply (sorted_ext (threads_idcmp (threads s))); [|done]. intros a b (xa & Ha & Pa)%Hid (xb & Hb & Pb)%Hid.
    unfold threads_idcmp, id_of. by rewrite !lookup_delete_ne by (apply not_eq_sym; eauto).
  - intros k a p' [Hne Ha]%lookup_delete_Some Hp'. destruct (Hring k a p' Ha Hp') as (pr' & Hpr' & Hin).
    destruct (decide (p' = p)) as [->|Hpp]; [|exists pr'; by rewrite lookup_insert_ne].
    simplify_eq. rewrite lookup_insert_eq. eexists. split; [done|]. cbn. case_decide; [|done].
    rewrite Hg in Hin. apply elem_of_cons in Hin as [->|]; done.
  - intros p' pr' [[<- <-]|[Hpp Hpr']]%lookup_insert_Some.
    + split_and!; cbn; [done|done|done| |].
      * intros k Hk. destruct (Htin k Hk) as (a & Ha & ? & ?). exists a. rewrite lookup_delete_ne; [done|]. by apply not_eq_sym, (Hpos k a).
      * intros k Hk. destruct (Hgin k) as (a & Ha & ? & ?); [by right|]. exists a. rewrite lookup_delete_ne; [done|]. by intros ->.
    + destruct (Hrings p' pr' Hpr') as (? & ? & ? & Ht & Hgh).
      assert (forall k a, threads s !! k = Some a -> process a = Some p' -> delete g (threads s) !! k = Some a) as Hold.
      { intros k a Ha Hpa. rewrite lookup_delete_ne; [done|]. intros ->. congruence. }
      split_and!; cbn; [done|done|done| |].
      * intros k Hk. destruct (Ht k Hk) as (a & ? & ? & ?). exists a. split_and!; auto.
      * intros k Hk. destruct (Hgh k Hk) as (a & ? & ? & ?). exists a. split_and!; auto.
Qed.

Lemma join_ok dn s cpu timeout now t th p pr g l : thr_inv dn s -> current s !! cpu = Some (Some t) -> threads s !! t = Some th ->
  process th = Some p -> procs s !! p = Some pr -> p_ghosts pr = g :: l ->
  exists s' gh, proc_join s cpu timeout now = Ok (s', Some (thread_id gh)) /\ threads s !! g = Some gh /\
    thr_inv (dn ∩ dom (threads s')) s' /\ length (current s') = length (current s).
Proof.
  intros [Hi Ho] Hc Hth Hp Hpr Hg. unfold proc_join, on_cpu, thr. run_step Hc. run_step Hth.
  run_step Hp. run_step Hpr. rewrite Hg.
  destruct (o_rings _ _ Ho p pr Hpr) as (_ & _ & _ & _ & Hgin). destruct (Hgin g) as (gh & Hgh & _ & H0); [rewrite Hg; by left|].
  run_step Hgh. rewrite list_del_head. assert (g ∈ dn) as Hgd.
  { destruct (o_refs _ _ Ho g gh Hgh) as (_ & Hx & _). destruct (decide (g ∈ dn)) as [|Hn]; [done|]. specialize (Hx Hn). lia. }
  eexists _, gh. split_and!; [done|done| |done].
  cbn [threads set_threads set_procs]. rewrite (restrict_delete dn s g Ho). split; [|by eapply own_join].
  match goal with |- context [set_procs ?w s] => assert (sched_inv dn (set_procs w s)) as Hi1 end.
  { apply inv_procs; [|done]. intros k Hk. by apply lookup_insert_is_Some'; right. }
  by apply (inv_delete _ _ g) in Hi1.
Qed.

Lemma find_ok dn s tid : thr_inv dn s -> thr_inv dn (threads_findThread s tid).1 /\
  length (current (threads_findThread s tid).1) = length (current s).
Proof.
  intros [Hi Ho]. unfold threads_findThread. destruct (list_find _ _) as [[i t]|] eqn:E; [|done].
  apply list_find_Some in E as (Hin & _ & _). apply list_elem_of_lookup_2 in Hin. apply (o_id _ _ Ho) in Hin as (th & Hth & Hr).
  cbn [fst]. split; [|done].
  assert (upd (fun th => set_refs (refs th + 1) th) t s = upd (set_refs (refs th + 1)) t s) as ->.
  { unfold upd. f_equal. apply map_eq. intros k. destruct (decide (k = t)) as [->|]; [by rewrite !lookup_alter_eq, Hth|by rewrite !lookup_alter_ne]. }
  split; [by apply inv_refs|]. apply (own_refs dn s t th); [done|done|done|lia].
Qed.
End Release.

(** ** Creating a thread *)
#[export] Instance idcmp_order th : RbOrder (threads_idcmp th).
Proof.
  split.
  - intros a b. unfold threads_idcmp. repeat case_match; lia.
  - intros a b c. unfold threads_idcmp. repeat case_match; lia.
Qed.

Lemma idcmp_self m t : threads_idcmp m t t = 0.
Proof. unfold threads_idcmp. by rewrite Z.ltb_irrefl. Qed.

(** The process with the new thread on its ring. *)
Definition enlist (ps : gmap loc proc) (p : ptr) (t : loc) : gmap loc proc :=
  match p with
  | None => ps
  | Some p => alter (fun pr => Proc (list_add (p_threads pr) t) (p_ghosts pr) (p_reaper pr) (p_sigpend pr) (sighandler pr) (pmapp pr)) p ps
  end.

Lemma enlist_lookup ps p t k pr : enlist ps p t !! k = Some pr ->
  exists pr0, ps !! k = Some pr0 /\ p_ghosts pr = p_ghosts pr0 /\ p_reaper pr = p_reaper pr0 /\
    p_threads pr = if decide (p = Some k) then list_add (p_threads pr0) t else p_threads pr0.
Proof.
  unfold enlist. destruct p as [p|].
  - intros [(<- & a & Ha & ->)|[Hne Ha]]%lookup_alter_Some.
    + exists a. by rewrite decide_True.
    + exists pr. by rewrite decide_False by congruence.
  - intros Ha. exists pr. done.
Qed.

Lemma enlist_some ps p t k pr0 : ps !! k = Some pr0 -> exists pr, enlist ps p t !! k = Some pr.
Proof.
  intros Hk. unfold enlist. destruct p as [p|]; [|eauto]. destruct (decide (k = p)) as [->|].
  - rewrite lookup_alter_eq, Hk. eauto.
  - rewrite lookup_alter_ne by done. eauto.
Qed.

Lemma own_new dn s t th l : own_inv dn s -> threads s !! t = None -> refs th = 1 ->
  (forall p, process th = Some p -> is_Some (procs s !! p)) ->
  sorted (threads_idcmp (<[t := th]> (threads s))) l -> (l ≡ₚ t :: idtree s) ->
  forall s', threads s' = <[t := th]> (threads s) -> idtree s' = l -> procs s' = enlist (procs s) (process th) t ->
  queues s' = queues s -> own_inv dn s'.
Proof.
  intros [Hdn Hrefs Hid Hso Hring Hrings] Hn Hr Hproc Hsort Hperm s' Et Ei Ep Eq.
  assert (forall k a, threads s !! k = Some a -> <[t := th]> (threads s) !! k = Some a) as Hold.
  { intros k a Ha. rewrite lookup_insert_ne; [done|]. intros ->. congruence. }
  split; rewrite ?Et, ?Ei, ?Ep; [| | |done| |].
  - intros k Hk. destruct (Hdn k Hk) as [a Ha]. rewrite (Hold k a Ha). eauto.
  - intros k a [[<- <-]|[_ Ha]]%lookup_insert_Some; [split_and!; [lia|lia|lia]|by apply Hrefs].
  - intros k. rewrite Hperm, elem_of_cons, Hid. split.
    + intros [->|(a & Ha & ?)]; [exists th; rewrite lookup_insert_eq; split; [done|lia]|eauto].
    + intros (a & [[<- <-]|[_ Ha]]%lookup_insert_Some & ?); [by left|eauto].
  - intros k a p [[<- <-]|[Hne Ha]]%lookup_insert_Some Hpa.
    + destruct (Hproc p Hpa) as [pr0 Hpr0]. destruct (enlist_some _ (process th) t _ _ Hpr0) as [pr Hpr]. exists pr. split; [done|].
      destruct (enlist_lookup _ _ _ _ _ Hpr) as (pr1 & ? & _ & _ & E). rewrite decide_False by lia. rewrite E, decide_True by done.
      unfold list_add. apply elem_of_app. right. by apply list_elem_of_singleton.
    + destruct (Hring k a p Ha Hpa) as (pr0 & Hpr0 & Hin). destruct (enlist_some _ (process th) t _ _ Hpr0) as [pr Hpr]. exists pr. split; [done|].
      destruct (enlist_lookup _ _ _ _ _ Hpr) as (pr1 & ? & Eg & _ & E). simplify_eq. rewrite Eg, E. destruct (decide (refs a = 0)); [done|].
      case_decide; [|done]. unfold list_add. apply elem_of_app. by left.
  - intros p pr Hpr. destruct (enlist_lookup _ _ _ _ _ Hpr) as (pr0 & Hpr0 & Eg & Er & E).
    destruct (Hrings p pr0 Hpr0) as (Hn1 & Hn2 & Hq & Ht & Hg). unfold ring_ok. rewrite Eg, Er, E, Eq, Et. split_and!; [| | | |].
    + case_decide; [|done]. unfold list_add. rewrite <- Permutation_cons_append. constructor; [|done].
      intros Hx. destruct (Ht t Hx) as (a & ? & _). congruence.
    + done.
    + done.
    + intros k Hk. assert (k ∈ p_threads pr0 \/ k = t /\ process th = Some p) as [Hk'|[-> ?]].
      { case_decide; [|by left]. unfold list_add in Hk. apply elem_of_app in Hk as [|Hx%list_elem_of_singleton]; auto. }
      * destruct (Ht k Hk') as (a & ? & ? & ?). exists a. split_and!; auto.
      * exists th. rewrite lookup_insert_eq. split_and!; [done|done|lia].
    + intros k Hk. destruct (Hg k Hk) as (a & ? & ? & ?). exists a. split_and!; auto.
Qed.

Lemma enlist_insert ps p t pr : ps !! p = Some pr ->
  <[p := Proc (list_add (p_threads pr) t) (p_ghosts pr) (p_reaper pr) (p_sigpend pr) (sighandler pr) (pmapp pr)]> ps = enlist ps (Some p) t.
Proof.
  intros Hp. apply map_eq. intros k. unfold enlist. destruct (decide (k = p)) as [->|].
  - by rewrite lookup_insert_eq, lookup_alter_eq, Hp.
  - by rewrite lookup_insert_ne, lookup_alter_ne.
Qed.

(** [proc_threadCreate] with the memory, a fresh identifier and an existing
    process: the thread is linked once in the tree of identifiers, although it
    is inserted twice. *)
Lemma create_ok `{Hal} dn s t nid p prio timer : thr_inv dn s -> threads s !! t = None -> nid <> 0 -> (prio < NPRIO)%nat ->
  (forall k a, threads s !! k = Some a -> thread_id a <> nid) -> (forall q, p = Some q -> is_Some (procs s !! q)) ->
  exists s' l, proc_threadCreate s (Some t) true nid p prio timer = Ok (s', EOK) /\ thr_inv dn s' /\
    current s' = current s /\ idtree s' = l /\ l ≡ₚ (t :: idtree s).
Proof.
  intros [Hi Ho] Hn Hnid Hprio Hfresh Hproc. unfold proc_threadCreate. rewrite decide_False by lia. cbn [negb].
  set (th := Thread nid 1 p None 0 prio false READY false 0 0 (TIMER_CYC2US timer) 0 (TIMER_CYC2US timer) EOK).
  set (s0 := set_threads (<[t := th]> (threads s)) s). rewrite (proj2 (Z.eqb_neq nid 0) Hnid).
  destruct (ins_fresh (threads_idcmp (threads s0)) t (idtree s)) as (l & El & Hsort & Hperm).
  { apply (sorted_ext (threads_idcmp (threads s))); [|apply (o_sorted _ _ Ho)].
    intros a b (xa & Ha & _)%(o_id _ _ Ho) (xb & Hb & _)%(o_id _ _ Ho). unfold threads_idcmp, id_of. cbn.
    rewrite !lookup_insert_ne; [done|congruence..]. }
  { intros x (a & Ha & _)%(o_id _ _ Ho). unfold threads_idcmp, id_of. cbn.
    rewrite lookup_insert_eq, lookup_insert_ne, Ha by congruence. cbn. pose proof (Hfresh x a Ha). repeat case_match; lia. }
  assert (idtree_insert s0 t = set_idtree l s0) as -> by (unfold idtree_insert; change (idtree s0) with (idtree s); by rewrite El).
  assert (t ∈ l) as Htl by (rewrite Hperm; by left).
  assert (exists s1, match p with None => Ok (set_idtree l s0) | Some p => let? pr := deref (procs (set_idtree l s0) !! p) in
      Ok (set_procs (<[p := Proc (list_add (p_threads pr) t) (p_ghosts pr) (p_reaper pr) (p_sigpend pr) (sighandler pr) (pmapp pr)]> (procs (set_idtree l s0))) (set_idtree l s0)) end
      = Ok s1 /\ s1 = set_procs (enlist (procs s) p t) (set_idtree l s0)) as (s1 & -> & ->).
  { destruct p as [p|]; [|eexists; split; [done|by destruct s]]. destruct (Hproc p eq_refl) as [pr Hpr].
    cbn [procs set_idtree s0 set_threads]. run_step Hpr. rewrite (enlist_insert _ _ _ _ Hpr). eauto. }
  cbn [rbind]. set (s1 := set_procs _ _).
  assert (idtree_insert s1 t = s1) as ->.
  { unfold idtree_insert. cbn [threads idtree s1 s0 set_procs set_idtree set_threads].
    rewrite (ins_dup _ t l t); [done| |done|apply idcmp_self]. by apply sorted_probe; [exact _|]. }
  unfold ready_add. cbn [ready s1 s0 set_procs set_idtree set_threads].
  destruct (inv_ready_lookup dn s prio Hi Hprio) as [r Hr]. run_step Hr. rewrite (alter_insert_list _ _ _ _ Hr).
  eexists _, l. split_and!; [done| |done|done|done]. split.
  - assert (sched_inv dn (set_ready (alter (fun l => list_add l t) (priority th) (ready s)) s0)) as Hi1.
    { apply (inv_new dn s t th); try done. intros Hd. destruct (o_dn _ _ Ho t Hd) as [? ?]. congruence. }
    apply (inv_idtree _ _ l) in Hi1. apply (inv_procs _ _ (enlist (procs s) p t)) in Hi1; [done|].
    intros k [pr Hk]. by eapply enlist_some.
  - by eapply (own_new dn s t th l).
Qed.
