(* ===== verification/ThreadsProg.v ===== *)
(** * Thread manager: the state machine and its theorems

    The operations of the thread manager as the steps of one machine,
    interleaved in any order on any processors; every reachable state
    satisfies the invariants and every enabled operation returns. *)

From Stdlib Require Import ZArith Lia.
From S2P Require Import Prelude.
From S2P Require Import LibList.
From S2P Require Import RbOps.
From S2P Require Import Threads.
From S2P Require Import ThreadsInv.
From S2P Require Import ThreadsOps.
From S2P Require Import ThreadsOwn.

Inductive sched_op :=
| ONewQueue (q : loc)
| ONewProc (p q : loc) (handler mapped : bool)
| OCreate (mem : ptr) (kstack : bool) (nid : Z) (p : ptr) (prio : nat) (timer : Z)
| OEnqueue (cpu : nat) (q : loc) (timeout : Z) (intr : bool) (now : Z)
| OWait (cpu : nat) (q : loc) (timeout : Z) (intr : bool) (now : Z)
| OSleep (cpu : nat) (us now : Z)
| OWakeup (q : loc)
| OWakeupYield (cpu : nat) (q : loc) (now : Z)
| OBroadcast (q : loc)
| OBroadcastYield (cpu : nat) (q : loc) (now : Z)
| OTick (cpu : nat) (now : Z)
| OSchedule (cpu : nat) (context now : Z)
| OEnd (cpu : nat) (now : Z)
| OKill (p : loc)
| OSignal (cpu : nat) (p : loc) (t : ptr) (sig now : Z)
| OReap (cpu : nat) (now : Z)
| OFind (tid : Z)
| OPut (t : loc)
| OJoin (cpu : nat) (timeout now : Z)
| OSettime (offs : Z).

Section Machine.
Context `{Hal}.

Definition fst_res {A} (r : res (common * A)) : res common := let? x := r in Ok x.1.

Definition exec (o : sched_op) (s : common) : res common :=
  match o with
  | ONewQueue q => Ok (set_queues (<[q := Waiters []]> (queues s)) s)
  | ONewProc p q h m => Ok (set_procs (<[p := Proc [] [] q 0 h m]> (procs s)) s)
  | OCreate mem kstack nid p prio timer => fst_res (proc_threadCreate s mem kstack nid p prio timer)
  | OEnqueue cpu q timeout intr now => _proc_threadEnqueue s cpu q timeout intr now
  | OWait cpu q timeout intr now => fst_res (proc_threadWaitEx s cpu q timeout intr now)
  | OSleep cpu us now => proc_threadSleep s cpu us now
  | OWakeup q => fst_res (proc_threadWakeup s q)
  | OWakeupYield cpu q now => proc_threadWakeupYield s cpu q now
  | OBroadcast q => fst_res (proc_threadBroadcast s q)
  | OBroadcastYield cpu q now => proc_threadBroadcastYield s cpu q now
  | OTick cpu now => threads_timeintr s cpu now
  | OSchedule cpu context now => threads_schedule s cpu context now
  | OEnd cpu now => proc_threadEnd s cpu now
  | OKill p => proc_threadsDestroy s p
  | OSignal cpu p t sig now => fst_res (threads_sigpost s cpu p t sig now)
  | OReap cpu now => fst_res (proc_reap s cpu now)
  | OFind tid => Ok (threads_findThread s tid).1
  | OPut t => threads_put s t
  | OJoin cpu timeout now => fst_res (proc_join s cpu timeout now)
  | OSettime offs => Ok (proc_settime s offs).1
  end.

(** A thread runs on [cpu] (and has not begun to wait). *)
Definition thread_on (s : common) (cpu : nat) (t : loc) (th : thread) : Prop :=
  current s !! cpu = Some (Some t) /\ threads s !! t = Some th /\ state th = READY.

(** When an operation may be issued: by a thread that runs, on objects that
    exist, with deadlines that do not fall on the value 0 that means none. *)
Definition enabled (dn : gset loc) (s : common) (o : sched_op) : Prop :=
  match o with
  | ONewQueue q => queues s !! q = None
  | ONewProc p q _ _ => procs s !! p = None /\ is_Some (queues s !! q)
  | OCreate (Some t) true nid p prio _ =>
      (prio < NPRIO)%nat -> threads s !! t = None /\ nid <> 0 /\
      (forall k a, threads s !! k = Some a -> thread_id a <> nid) /\ forall q, p = Some q -> is_Some (procs s !! q)
  | OCreate _ _ _ _ _ _ => True
  | OEnqueue cpu q timeout _ now | OWait cpu q timeout _ now =>
      (exists t th, thread_on s cpu t th) /\ is_Some (queues s !! q) /\ (timeout <> 0 -> deadline timeout now <> 0)
  | OSleep cpu us now => (exists t th, thread_on s cpu t th) /\ u64 (now + TIMER_US2CYC us) <> 0
  | OWakeup q | OBroadcast q => is_Some (queues s !! q)
  | OWakeupYield cpu q _ | OBroadcastYield cpu q _ => is_Some (queues s !! q) /\ (cpu < length (current s))%nat
  | OTick _ _ => True
  | OSchedule cpu _ _ => (cpu < length (current s))%nat
  | OEnd cpu _ => exists t th, thread_on s cpu t th
  | OKill p => is_Some (procs s !! p)
  | OSignal cpu p t _ _ =>
      (cpu < length (current s))%nat /\ (exists pr, procs s !! p = Some pr /\ p_threads pr <> []) /\
      forall k, t = Some k -> is_Some (threads s !! k)
  | OReap cpu _ => exists t th, thread_on s cpu t th
  | OFind _ | OSettime _ => True
  | OPut t => exists th, threads s !! t = Some th /\ 0 < refs th /\ (refs th = 1 -> t ∈ dn)
  | OJoin cpu timeout now =>
      exists t th p, thread_on s cpu t th /\ process th = Some p /\ (timeout <> 0 -> deadline timeout now <> 0)
  end.

(** The ghosts taken so far whose objects still exist. *)
Definition dn_after (dn : gset loc) (s : common) (o : sched_op) (s' : common) : gset loc :=
  (match o with OReap _ _ => match ghosts s with g :: _ => {[g]} | [] => ∅ end | _ => ∅ end ∪ dn) ∩ dom (threads s').

Inductive reach : gset loc -> common -> Prop :=
| reach_init : reach ∅ threads_reset
| reach_step dn s o s' : reach dn s -> enabled dn s o -> exec o s = Ok s' -> reach (dn_after dn s o s') s'.

(** ** Every step keeps the invariants *)
Lemma thread_on_runs s cpu t th : thread_on s cpu t th -> runs s t th.
Proof. intros (Hc & Ht & Hs). split_and!; [by eapply list_elem_of_lookup_2|done|done]. Qed.

Lemma keep dn s s' : sched_inv dn s' -> own_inv dn s -> own_same s s' -> thr_inv dn s' /\ dn ∩ dom (threads s') = dn.
Proof. intros Hi Ho Hs. pose proof (own_inv_same dn s s' Hs Ho) as Ho'. split; [by split|by apply (restrict_dn dn s')]. Qed.

Lemma cpu_lookup s cpu t th : thread_on s cpu t th -> (cpu < length (current s))%nat.
Proof. intros (Hc & _). by eapply lookup_lt_Some. Qed.

Lemma waitEx_ok dn s cpu t th q timeout intr now : sched_inv dn s -> thread_on s cpu t th -> is_Some (queues s !! q) ->
  (timeout <> 0 -> deadline timeout now <> 0) ->
  exists s' b, proc_threadWaitEx s cpu q timeout intr now = Ok (s', b) /\ sched_inv dn s' /\ own_same s s'.
Proof.
  intros Hi Hon Hq Hd. unfold proc_threadWaitEx. pose proof Hon as (Hc & _).
  destruct (enqueue_ok dn s cpu t th q timeout intr now Hi Hc (thread_on_runs _ _ _ _ Hon) Hq Hd) as (s1 & E1 & Hi1 & Ec1).
  rewrite E1. pose proof (own_enqueue _ _ _ _ _ _ _ E1) as Ho1. cbn [rbind].
  destruct (os_queues _ _ Ho1 q Hq) as [w ->]. cbn [deref rbind].
  assert (exists s' b, (let? s2 := hal_cpuReschedule s1 cpu now in Ok (s2, false)) = Ok (s', b) /\ sched_inv dn s' /\ own_same s s') as Hre.
  { unfold hal_cpuReschedule. destruct (schedule_ok dn s1 cpu EOK now Hi1) as (s2 & E2 & Hi2 & _).
    { rewrite Ec1. by eapply lookup_lt_Some. }
    rewrite E2. eexists _, _. split_and!; [done|done|]. etrans; [exact Ho1|]. by eapply own_schedule. }
  destruct w as [|[|]]; [done| |done]. eauto.
Qed.

Lemma reschedule_ok dn s s1 cpu now : sched_inv dn s1 -> own_same s s1 -> (cpu < length (current s))%nat ->
  exists s', hal_cpuReschedule s1 cpu now = Ok s' /\ sched_inv dn s' /\ own_same s s'.
Proof.
  intros Hi Hs Hc. unfold hal_cpuReschedule. destruct (schedule_ok dn s1 cpu EOK now Hi) as (s2 & E2 & Hi2 & _).
  { by rewrite (os_cpus _ _ Hs). }
  exists s2. split_and!; [done|done|]. etrans; [exact Hs|]. by eapply own_schedule.
Qed.

Lemma kill_ok dn s p pr : thr_inv dn s -> procs s !! p = Some pr ->
  exists s', proc_threadsDestroy s p = Ok s' /\ sched_inv dn s' /\ own_same s s'.
Proof.
  intros [Hi Ho] Hp. unfold proc_threadsDestroy. run_step Hp.
  destruct (destroy_loop_ok dn (p_threads pr) s Hi) as (s' & E & Hi' & _).
  - intros t Ht. destruct (o_rings _ _ Ho p pr Hp) as (_ & _ & _ & Hin & _). destruct (Hin t Ht) as (? & ? & _). eauto.
  - exists s'. split_and!; [done|done|]. by eapply own_destroy.
Qed.

Lemma deliver_ok dn s p pr t sig : thr_inv dn s -> procs s !! p = Some pr -> p_threads pr <> [] ->
  (forall k, t = Some k -> is_Some (threads s !! k)) ->
  exists s' b, sigpost_deliver s p t sig = Ok (s', b) /\ sched_inv dn s' /\ own_same s s'.
Proof.
  intros [Hi Ho] Hp Hne Ht. unfold sigpost_deliver. run_step Hp.
  set (pr' := Proc _ _ _ _ _ _). assert (own_same s (set_procs (<[p := pr']> (procs s)) s)) as Ho1 by (by apply (own_procs s p pr)).
  assert (sched_inv dn (set_procs (<[p := pr']> (procs s)) s)) as Hi1.
  { apply inv_procs; [|done]. intros k Hk. by apply lookup_insert_is_Some'; right. }
  set (s1 := set_procs _ s) in *. set (tp := match p_threads pr with [] => _ | _ => _ end).
  assert (exists s' b, tp = Ok (s', b) /\ sched_inv dn s' /\ own_same s s') as Htp.
  { unfold tp. destruct (p_threads pr) as [|k ts] eqn:Ets; [done|]. rewrite <- Ets.
    destruct (sig_loop_ok dn (p_threads pr) (Z.shiftl 1 sig) s1 Hi1) as (s2 & E2 & Hi2 & _).
    - intros x Hx. destruct (o_rings _ _ Ho p pr Hp) as (_ & _ & _ & Hin & _). destruct (Hin x Hx) as (a & ? & _). exists a. done.
    - rewrite E2. eexists _, _. split_and!; [done|done|]. etrans; [exact Ho1|]. by eapply own_sig. }
  clearbody tp. destruct t as [t|]; [|done]. case_match; [done|]. destruct (Ht t eq_refl) as [th Hth]. unfold thr. run_step Hth.
  set (s2 := upd _ t s). assert (own_same s s2) as Ho2 by (apply own_upd; by intros).
  assert (sched_inv dn s2) as Hi2 by (by apply inv_sigpend).
  case_match; [|eexists _, _; split_and!; [done|done|done]].
  destruct (threadExit_ok dn s2 t Hi2) as (s3 & E3 & Hi3 & _).
  { cbn. rewrite lookup_alter_is_Some. eauto. }
  rewrite E3. eexists _, _. split_and!; [done|done|]. etrans; [exact Ho2|]. by eapply own_exit.
Qed.

Lemma sigpost_ok dn s cpu p pr t sig now : thr_inv dn s -> (cpu < length (current s))%nat -> procs s !! p = Some pr -> p_threads pr <> [] ->
  (forall k, t = Some k -> is_Some (threads s !! k)) ->
  exists s' r, threads_sigpost s cpu p t sig now = Ok (s', r) /\ sched_inv dn s' /\ own_same s s'.
Proof.
  intros Hinv Hc Hp Hne Ht. pose proof Hinv as [Hi Ho]. unfold threads_sigpost. case_match; [by eexists _, _|].
  assert (exists s1, sigpost_kill s p sig = Ok s1 /\ sched_inv dn s1 /\ own_same s s1) as (s1 & -> & Hi1 & Ho1).
  { unfold sigpost_kill. run_step Hp. case_match; [by eapply kill_ok|]. by eexists. }
  cbn [rbind]. pose proof (own_inv_same dn s s1 Ho1 Ho) as Hw1. pose proof (os_procs _ _ Ho1 p) as Hp1. rewrite Hp in Hp1.
  inversion Hp1 as [? pr1 (Et & _ & _) E1 E2|]; subst. symmetry in E2.
  destruct (deliver_ok dn s1 p pr1 t sig (conj Hi1 Hw1) E2) as (s2 & b & -> & Hi2 & Ho2).
  { by rewrite <- Et. }
  { intros k Hk. destruct (Ht k Hk) as [a Ha]. destruct (os_fwd _ _ _ _ Ho1 Ha) as (? & -> & _). eauto. }
  cbn [rbind]. assert (own_same s s2) as Ho12 by (by etrans). destruct (reschedule_ok dn s s2 cpu now Hi2 Ho12 Hc) as (s3 & -> & Hi3 & Ho3).
  cbn [rbind]. destruct b; [|by eexists _, _]. pose proof (os_procs _ _ Ho3 p) as Hp3. rewrite Hp in Hp3.
  inversion Hp3 as [? pr3 _ E3 E4|]; subst. symmetry in E4.
  destruct (kill_ok dn s3 p pr3) as (s4 & -> & Hi4 & Ho4); [split; [done|by eapply own_inv_same]|done|].
  eexists _, _. split_and!; [done|done|by etrans].
Qed.

(** A new queue head, a new process. *)
Lemma inv_new_queue dn s q : sched_inv dn s -> queues s !! q = None -> sched_inv dn (set_queues (<[q := Waiters []]> (queues s)) s).
Proof.
  intros [Hlen Hnd Hh Hr Hg Ht Hq Hso Hsl Hid Hre Hpr] Hn. constructor; cbn; try done.
  - intros t th Hth. destruct (Ht t th Hth) as [Hp Hok]. split; [done|]. destruct (state th); [done|].
    destruct Hok as (? & ? & Hx & ?). split_and!; [done..| |done]. intros k Ek. destruct (Hx k Ek) as (l & El & Hl). cbn.
    rewrite lookup_insert_ne; [eauto|]. intros ->. congruence.
  - intros k l [[<- [= <-]]|[_ Hl]]%lookup_insert_Some; [|by apply Hq]. split; [constructor|]. by intros t ?%not_elem_of_nil.
  - by apply lookup_insert_is_Some'; right.
Qed.

Lemma own_new_proc dn s p q h m : own_inv dn s -> procs s !! p = None -> is_Some (queues s !! q) ->
  own_inv dn (set_procs (<[p := Proc [] [] q 0 h m]> (procs s)) s).
Proof.
  intros [Hdn Hrefs Hid Hso Hring Hrings] Hp Hq. split; cbn; try done.
  - intros t th k Hth Hk. destruct (Hring t th k Hth Hk) as (pr & Hpr & ?). exists pr. split; [|done].
    rewrite lookup_insert_ne; [done|]. intros ->. congruence.
  - intros k pr [[<- <-]|[_ Hk]]%lookup_insert_Some; [|by apply Hrings].
    split_and!; cbn; [constructor|constructor|done| |]; by intros t ?%not_elem_of_nil.
Qed.

Lemma wakeup_api_ok dn s q : sched_inv dn s -> is_Some (queues s !! q) ->
  exists s' r, proc_threadWakeup s q = Ok (s', r) /\ sched_inv dn s' /\ own_same s s'.
Proof.
  intros Hi [w Hq]. unfold proc_threadWakeup. run_step Hq.
  assert (w = Token \/ w = Waiters [] -> exists s' r, Ok (set_queues (<[q := Token]> (queues s)) s, 0) = Ok (s', r) /\ sched_inv dn s' /\ own_same s s') as Htok.
  { intros Hw. eexists _, _. split_and!; [done|eapply inv_token; eauto|apply own_queue_insert]. }
  destruct w as [|[|t l]]; [auto|auto|]. destruct (wakeup_ok dn s q Hi) as (s' & E & Hi' & _); [eauto|]. rewrite E.
  eexists _, _. split_and!; [done|done|]. by eapply own_wakeup.
Qed.

Lemma broadcast_api_ok dn s q l : sched_inv dn s -> queues s !! q = Some (Waiters l) ->
  exists r, broadcast_loop (queue_fuel s) s q 0 = Ok r /\ sched_inv dn r.1 /\ own_same s r.1.
Proof.
  intros Hi Hq. destruct (broadcast_ok dn s q l Hi Hq) as (E & Hi' & _). eexists. split; [exact E|]. split; [exact Hi'|].
  apply (own_broadcast _ _ _ _ _ E).
Qed.

Lemma tick_ok dn s cpu now : sched_inv dn s -> exists s', threads_timeintr s cpu now = Ok s' /\ sched_inv dn s'.
Proof.
  intros Hi. unfold threads_timeintr. destruct cpu; [|eauto].
  destruct (timeintr_loop_ok dn now (1 + length (sleeping s)) s Hi) as (s1 & -> & Hi1 & _); [lia|]. cbn [rbind].
  destruct (updateWakeup_ok dn s1 now (head (sleeping s1)) Hi1) as [w ->].
  { intros t Ht. destruct (inv_head_sleeping dn s1 t Hi1 Ht) as (th & -> & _). eauto. }
  eexists. split; [done|]. by apply inv_hptimer.
Qed.

Lemma create_fail s mem kstack nid p prio timer :
  (mem = None \/ kstack = false \/ (NPRIO <= prio)%nat) -> exists e, proc_threadCreate s mem kstack nid p prio timer = Ok (s, e) /\ e < 0.
Proof.
  intros Hf. unfold proc_threadCreate. case_decide; [by exists (- EINVAL)|]. destruct mem as [t|]; [|by exists (- ENOMEM)].
  destruct kstack; cbn [negb]; [|by exists (- ENOMEM)]. destruct Hf as [?|[?|?]]; [done|done|lia].
Qed.

(** Operations that leave the ownership alone. *)
Definition frames (o : sched_op) : bool :=
  match o with
  | ONewQueue _ | OEnqueue _ _ _ _ _ | OWait _ _ _ _ _ | OSleep _ _ _ | OWakeup _ | OWakeupYield _ _ _ | OBroadcast _
  | OBroadcastYield _ _ _ | OTick _ _ | OSchedule _ _ _ | OEnd _ _ | OKill _ | OSignal _ _ _ _ _ | OSettime _ => true
  | _ => false
  end.

Lemma step_frame dn s o : thr_inv dn s -> enabled dn s o -> frames o = true ->
  exists s', exec o s = Ok s' /\ sched_inv dn s' /\ own_same s s'.
Proof.
  intros Hinv He Hf. pose proof Hinv as [Hi Ho]. destruct o; try discriminate Hf; cbn [exec enabled fst_res] in *; clear Hf.
  - eexists. split_and!; [done|by apply inv_new_queue|apply own_queue_insert].
  - destruct He as ((t & th & Hon) & Hq & Hd). pose proof Hon as (Hc & _).
    destruct (enqueue_ok dn s cpu t th q timeout intr now Hi Hc (thread_on_runs _ _ _ _ Hon) Hq Hd) as (s1 & E1 & Hi1 & _).
    exists s1. split_and!; [done|done|]. by eapply own_enqueue.
  - destruct He as ((t & th & Hon) & Hq & Hd).
    destruct (waitEx_ok dn s cpu t th q timeout intr now Hi Hon Hq Hd) as (s' & b & -> & ? & ?). cbn. eauto.
  - destruct He as ((t & th & Hon) & Hd). pose proof Hon as (Hc & _).
    destruct (sleep_enter_ok dn s cpu t th us now Hi Hc (thread_on_runs _ _ _ _ Hon) Hd) as (l & h & E1 & Hi1).
    unfold proc_threadSleep. rewrite E1. cbn [rbind]. apply own_sleep in E1.
    apply (reschedule_ok dn s); [by apply inv_hptimer|done|by eapply cpu_lookup].
  - destruct (wakeup_api_ok dn s q Hi He) as (s' & r & -> & ? & ?). cbn. eauto.
  - destruct He as [[w Hq] Hc]. unfold proc_threadWakeupYield. run_step Hq.
    assert (w = Token \/ w = Waiters [] -> exists s', Ok (set_queues (<[q := Token]> (queues s)) s) = Ok s' /\ sched_inv dn s' /\ own_same s s') as Htok.
    { intros Hw. eexists. split_and!; [done|eapply inv_token; eauto|apply own_queue_insert]. }
    destruct w as [|[|t l]]; [auto|auto|]. destruct (wakeup_ok dn s q Hi) as (s' & E & Hi' & _); [eauto|]. rewrite E. cbn [rbind].
    apply own_wakeup in E. by apply (reschedule_ok dn s).
  - destruct He as [w Hq]. unfold proc_threadBroadcast. run_step Hq. destruct w as [|l]; [by eexists|].
    destruct (broadcast_api_ok dn s q l Hi Hq) as (r & -> & ? & ?). cbn. eauto.
  - destruct He as [[w Hq] Hc]. unfold proc_threadBroadcastYield. run_step Hq.
    assert (w = Token \/ w = Waiters [] -> exists s', Ok (set_queues (<[q := Token]> (queues s)) s) = Ok s' /\ sched_inv dn s' /\ own_same s s') as Htok.
    { intros Hw. eexists. split_and!; [done|eapply inv_token; eauto|apply own_queue_insert]. }
    destruct w as [|[|t l]]; [auto|auto|]. destruct (broadcast_api_ok dn s q (t :: l) Hi Hq) as (r & -> & Hi' & Ho'). cbn [rbind].
    by apply (reschedule_ok dn s).
  - destruct (tick_ok dn s cpu now Hi) as (s' & E & Hi'). exists s'. split_and!; [done|done|]. by eapply own_tick.
  - destruct (schedule_ok dn s cpu context now Hi He) as (s' & E & Hi' & _). exists s'. split_and!; [done|done|]. by eapply own_schedule.
  - destruct He as (t & th & Hon). pose proof Hon as (Hc & _).
    destruct (end_enter_ok dn s cpu t th Hi Hc (thread_on_runs _ _ _ _ Hon)) as (s1 & E1 & Hi1 & _).
    unfold proc_threadEnd. rewrite E1. cbn [rbind]. apply own_end in E1. apply (reschedule_ok dn s); [done|done|by eapply cpu_lookup].
  - destruct He as [pr Hp]. by eapply kill_ok.
  - destruct He as (Hc & (pr & Hp & Hne) & Ht). destruct (sigpost_ok dn s cpu p pr t sig now Hinv Hc Hp Hne Ht) as (s' & r & -> & ? & ?). cbn. eauto.
  - eexists. split_and!; [done|by apply inv_utcoffs|by apply own_frame].
Qed.

Lemma step_ok dn s o : thr_inv dn s -> enabled dn s o -> exists s', exec o s = Ok s' /\ thr_inv (dn_after dn s o s') s'.
Proof.
  intros Hinv He. pose proof Hinv as [Hi Ho]. destruct (frames o) eqn:Hf.
  { destruct (step_frame dn s o Hinv He Hf) as (s' & E & Hi' & Hs'). exists s'. split; [done|].
    destruct (keep dn s s' Hi' Ho Hs') as [? Hdn]. unfold dn_after. destruct o; try discriminate Hf; by rewrite (left_id_L ∅ (∪)), Hdn. }
  assert (forall s', thr_inv dn s' -> (forall c n, o <> OReap c n) -> thr_inv (dn_after dn s o s') s') as Hkeep.
  { intros s' [Hi' Ho'] Hne. unfold dn_after. destruct o; try (by rewrite (left_id_L ∅ (∪)), (restrict_dn dn s' Ho')). by destruct (Hne cpu now). }
  destruct o; try discriminate Hf; cbn [exec enabled fst_res] in *; clear Hf.
  - destruct He as [Hp Hq]. eexists. split; [done|]. apply Hkeep; [|done]. split; [|by apply own_new_proc].
    apply inv_procs; [|done]. intros k Hk. by apply lookup_insert_is_Some'; right.
  - assert (forall e, proc_threadCreate s mem kstack nid p prio timer = Ok (s, e) ->
      exists s', fst_res (proc_threadCreate s mem kstack nid p prio timer) = Ok s' /\ thr_inv (dn_after dn s (OCreate mem kstack nid p prio timer) s') s') as Hfail.
    { intros e ->. exists s. split; [done|]. by apply Hkeep. }
    destruct mem as [t|]; [|destruct (create_fail s None kstack nid p prio timer) as (e & ? & _); eauto].
    destruct kstack; [|destruct (create_fail s (Some t) false nid p prio timer) as (e & ? & _); eauto].
    destruct (decide (prio < NPRIO)%nat) as [Hlt|]; [|destruct (create_fail s (Some t) true nid p prio timer) as (e & ? & _); eauto; right; right; lia].
    destruct (He Hlt) as (Hn & Hnid & Hfr & Hpr). destruct (create_ok dn s t nid p prio timer Hinv Hn Hnid Hlt Hfr Hpr) as (s' & l & -> & Hi' & _).
    exists s'. split; [done|]. by apply Hkeep.
  - destruct He as (t & th & Hon). destruct (ghosts s) as [|g l] eqn:Hg.
    + unfold proc_reap. rewrite Hg. destruct (waitEx_ok dn s cpu t th reaper 0 false now Hi Hon (i_reaper _ _ Hi)) as (s' & b & E & Hi' & Hs'); [done|].
      unfold _proc_threadWait. rewrite E. exists s'. split; [done|]. destruct (keep dn s s' Hi' Ho Hs') as [? Hdn].
      unfold dn_after. rewrite Hg. by rewrite (left_id_L ∅ (∪)), Hdn.
    + destruct (reap_ok dn s cpu now g l Hinv Hg) as (s' & -> & ? & _). exists s'. split; [done|]. unfold dn_after. by rewrite Hg.
  - eexists. split; [done|]. apply Hkeep; [|done]. by apply find_ok.
  - destruct He as (th & Hth & Hr & Hl). destruct (put_ok dn s t th Hinv Hth Hr Hl) as (s' & -> & ? & _). exists s'. split; [done|].
    unfold dn_after. by rewrite (left_id_L ∅ (∪)).
  - destruct He as (t & th & p & Hon & Hp & Hd). pose proof Hon as (Hc & Hth & _).
    destruct (o_ring _ _ Ho t th p Hth Hp) as (pr & Hpr & _). destruct (p_ghosts pr) as [|g l] eqn:Hg.
    + unfold proc_join, on_cpu, thr. run_step Hc. run_step Hth. run_step Hp.
      run_step Hpr. rewrite Hg.
      destruct (waitEx_ok dn s cpu t th (p_reaper pr) timeout false now Hi Hon) as (s' & b & E & Hi' & Hs'); [by apply (o_rings _ _ Ho p)|done|].
      unfold _proc_threadWait. rewrite E. exists s'. split; [done|]. destruct (keep dn s s' Hi' Ho Hs') as [? Hdn].
      unfold dn_after. by rewrite (left_id_L ∅ (∪)), Hdn.
    + destruct (join_ok dn s cpu timeout now t th p pr g l Hinv Hc Hth Hp Hpr Hg) as (s' & gh & -> & _ & ? & _).
      exists s'. split; [done|]. unfold dn_after. by rewrite (left_id_L ∅ (∪)).
Qed.

Lemma inv_reset : thr_inv ∅ threads_reset.
Proof.
  assert (forall p l, replicate NPRIO (@nil loc) !! p = Some l -> l = []) as Hnil by (intros p l [-> _]%lookup_replicate; done).
  assert (homes threads_reset = []) as Hh.
  { unfold homes, threads_reset. cbn [ready current ghosts]. rewrite (right_id_L [] (++)). unfold running.
    assert (concat (replicate NPRIO (@nil loc)) = []) as -> by done. simpl. induction hal_cpuGetCount as [|n IH]; [done|]. exact IH. }
  split; constructor; try (intros; cbn in *; rewrite ?lookup_empty in *; done).
  - by rewrite Hh; constructor.
  - rewrite Hh. by intros t ?%not_elem_of_nil.
  - cbn [ready threads_reset]. intros p l t Hl Ht. rewrite (Hnil p l Hl) in Ht. by apply not_elem_of_nil in Ht.
  - by intros t ?%not_elem_of_nil.
  - cbn. intros q l Hq. apply lookup_singleton_Some in Hq as [_ [= <-]]. split; [constructor|]. by intros t ?%not_elem_of_nil.
  - constructor.
  - by intros t ?%not_elem_of_nil.
  - intros t. cbn. split; [by intros ?%not_elem_of_nil|]. intros (th & Hth & _). by rewrite lookup_empty in Hth.
  - constructor.
Qed.

Lemma reach_inv dn s : reach dn s -> thr_inv dn s.
Proof.
  induction 1 as [|dn s o s' Hr IH He Hx]; [apply inv_reset|]. destruct (step_ok dn s o IH He) as (s1 & E & Hs1). rewrite Hx in E. by injection E as <-.
Qed.

(** ** Where a thread is *)
Definition exactly_one (a b c : Prop) : Prop := (a /\ ~ b /\ ~ c) \/ (~ a /\ b /\ ~ c) \/ (~ a /\ ~ b /\ c).

Lemma place_unique dn s : sched_inv dn s -> forall t th, threads s !! t = Some th -> t ∉ dn -> state th = READY ->
  exactly_one (t ∈ concat (ready s)) (Some t ∈ current s) (t ∈ ghosts s).
Proof.
  intros Hi t th Hth Hd Hst. pose proof (i_nodup _ _ Hi) as Hnd. destruct (i_thread _ _ Hi t th Hth) as [_ Hok]. rewrite Hst in Hok.
  destruct Hok as (_ & _ & _ & Hh). specialize (Hh Hd). unfold homes in *.
  apply NoDup_app in Hnd as (_ & Hd1 & Hnd). apply NoDup_app in Hnd as (_ & Hd2 & _).
  setoid_rewrite elem_of_app in Hd1. rewrite !elem_of_app in Hh. pose proof (running_elem (current s) t).
  specialize (Hd1 t). specialize (Hd2 t). unfold exactly_one. tauto.
Qed.

(** What a thread's record says about where it is. *)
Definition located (s : common) (t : loc) (th : thread) : Prop :=
  match state th with
  | READY => exactly_one (t ∈ concat (ready s)) (Some t ∈ current s) (t ∈ ghosts s) /\
      (forall q l, queues s !! q = Some (Waiters l) -> t ∉ l) /\ (t ∉ sleeping s)
  | SLEEP => (t ∉ concat (ready s)) /\ (t ∉ ghosts s) /\ (wait th <> None \/ wakeup th <> 0) /\
      (forall q, wait th = Some q <-> exists l, queues s !! q = Some (Waiters l) /\ t ∈ l) /\
      (wakeup th <> 0 <-> t ∈ sleeping s)
  end.

Lemma inv_located dn s t th : sched_inv dn s -> threads s !! t = Some th -> t ∉ dn -> located s t th.
Proof.
  intros Hi Hth Hd. unfold located. destruct (i_thread _ _ Hi t th Hth) as [_ Hok]. destruct (state th) eqn:Hst.
  - destruct Hok as (Hw & Hk & _). split_and!; [by eapply place_unique| |].
    + intros q l Hq Hin. destruct (i_queue _ _ Hi q l Hq) as [_ Hx]. destruct (Hx t Hin) as (? & ? & ?). by simplify_eq.
    + intros Hin. destruct (i_sleeping _ _ Hi t Hin) as (? & ? & ?). by simplify_eq.
  - destruct Hok as (Hw & _ & Hq & Hk). split_and!; [| |done| |].
    + intros (p & l & Hp & Hin)%elem_of_concat_lookup. destruct (i_ready _ _ Hi p l t Hp Hin) as (? & ? & _ & ?). congruence.
    + intros Hin. destruct (i_ghost _ _ Hi t Hin) as (? & ? & ?). congruence.
    + intros q. split; [by apply Hq|]. intros (l & Hl & Hin). destruct (i_queue _ _ Hi q l Hl) as [_ Hx]. destruct (Hx t Hin) as (? & ? & ?). by simplify_eq.
    + split; [done|]. intros Hin. destruct (i_sleeping _ _ Hi t Hin) as (? & ? & ?). by simplify_eq.
Qed.

(** ** Waking everybody *)
Lemma wake_all_threads l : forall s k, NoDup l -> (forall t, t ∈ l -> is_Some (threads s !! t)) ->
  threads (wake_all s l) !! k = if decide (k ∈ l) then set_sched READY None 0 false <$> threads s !! k else threads s !! k.
Proof.
  induction l as [|t l IH]; intros s k Hn Hs; [done|]. apply NoDup_cons in Hn as [Hnt Hn].
  destruct (Hs t) as [th Hth]; [by left|]. cbn [wake_all]. rewrite Hth. rewrite IH; [|done|].
  2: { intros x Hx. cbn. rewrite lookup_alter_is_Some. apply Hs. by right. }
  cbn [threads woken]. destruct (decide (k = t)) as [->|Hne].
  - by rewrite decide_False, decide_True, lookup_alter_eq by (done || by left).
  - rewrite lookup_alter_ne by done. destruct (decide (k ∈ l)).
    + by rewrite decide_True by (by right).
    + by rewrite decide_False by (by rewrite not_elem_of_cons).
Qed.

Definition priority_of (s : common) (t : loc) : nat := from_option priority 0%nat (threads s !! t).

(** The waiters go to the ends of their ready queues in the order they came. *)
Lemma wake_all_ready l : forall s p, NoDup l -> (forall t, t ∈ l -> is_Some (threads s !! t)) ->
  ready (wake_all s l) !! p = (fun r => r ++ filter (fun t => priority_of s t = p /\ Some t ∉ current s) l) <$> ready s !! p.
Proof.
  induction l as [|t l IH]; intros s p Hn Hs.
  { cbn. destruct (ready s !! p); cbn; [by rewrite (right_id_L [] (++))|done]. }
  apply NoDup_cons in Hn as [Hnt Hn]. destruct (Hs t) as [th Hth]; [by left|]. cbn [wake_all]. rewrite Hth. rewrite IH; [|done|].
  2: { intros x Hx. cbn. rewrite lookup_alter_is_Some. apply Hs. by right. }
  assert (filter (fun x => priority_of (woken s t th) x = p /\ Some x ∉ current (woken s t th)) l =
    filter (fun x => priority_of s x = p /\ Some x ∉ current s) l) as ->.
  { apply filter_ext_in. intros x Hx. unfold priority_of. cbn. by rewrite lookup_alter_ne by (by intros ->). }
  rewrite filter_cons. assert (priority_of s t = priority th) as Ep by (unfold priority_of; by rewrite Hth). rewrite Ep.
  unfold woken. cbn [ready]. destruct (decide (Some t ∈ current s)) as [Hc|Hc].
  - rewrite (decide_False (P := priority th = p /\ _)) by tauto. done.
  - destruct (decide (priority th = p)) as [<-|Hne].
    + rewrite list_lookup_alter_eq. rewrite (decide_True (P := priority th = _ /\ _)) by done.
      destruct (ready s !! priority th); [|done]. cbn. unfold list_add. by rewrite <- (assoc_L (++)).
    + rewrite list_lookup_alter_ne by done. by rewrite (decide_False (P := priority th = p /\ _)) by tauto.
Qed.

(** ** One turn of the scheduler *)
(** A thread that is not about to sleep. *)
Definition wait_free (s : common) (t : loc) : Prop := state <$> threads s !! t = Some READY.
#[local] Instance wait_free_dec s t : Decision (wait_free s t).
Proof. unfold wait_free. apply _. Defined.

Definition exit_of (m : gmap loc thread) (t : loc) : option bool := exit <$> m !! t.

Lemma exit_of_alter f t m k : (forall th, exit (f th) = exit th) -> exit_of (alter f t m) k = exit_of m k.
Proof.
  intros Hf. unfold exit_of. destruct (decide (k = t)) as [->|]; [|by rewrite lookup_alter_ne].
  rewrite lookup_alter_eq. destruct (m !! t); [|done]. cbn. by rewrite Hf.
Qed.

Lemma signals_exit s t s' k : schedule_signals s t = Ok s' -> exit_of (threads s') k = exit_of (threads s) k.
Proof.
  unfold schedule_signals. intros (th & _ & E)%rbind_inv. destruct (process th) as [p|]; simplify_eq; [|done].
  apply rbind_inv in E as (pr & _ & E). repeat case_match; simplify_eq; try done. cbn. by apply exit_of_alter.
Qed.

Lemma times_exit s cur sel timer k : exit_of (threads (threads_cpuTimeCalc s cur sel timer)) k = exit_of (threads s) k.
Proof.
  unfold threads_cpuTimeCalc. destruct cur, sel; try case_decide; cbn; rewrite ?exit_of_alter by done; done.
Qed.

Lemma same_trans m1 m2 m3 : same_threads m1 m2 -> same_threads m2 m3 -> same_threads m1 m3.
Proof.
  intros H1 H2 k. pose proof (H1 k) as A1. pose proof (H2 k) as A2. destruct A1 as [x y B1|]; [|done].
  inversion A2 as [? z B2|]; subst. constructor. destruct B1 as (? & ? & ? & ? & ? & ? & ?), B2 as (? & ? & ? & ? & ? & ? & ?).
  repeat split; congruence.
Qed.

Lemma times_same s cur sel timer : same_threads (threads s) (threads (threads_cpuTimeCalc s cur sel timer)).
Proof.
  assert (forall m : gmap loc thread, same_threads m m) as Hrefl by (intros m k; destruct (m !! k); constructor; apply same_sched_refl).
  unfold threads_cpuTimeCalc. destruct cur, sel; try case_decide; cbn; try apply Hrefl; try (apply same_threads_alter; by repeat split).
  eapply same_trans; apply same_threads_alter; by repeat split.
Qed.

Lemma parked_same s cpu cur context : same_threads (threads s) (threads (parked s cpu cur context)) /\
  forall k, exit_of (threads (parked s cpu cur context)) k = exit_of (threads s) k.
Proof.
  unfold parked. destruct cur as [c|].
  - cbn. assert (same_threads (threads s) (alter (set_retval context) c (threads s))) as Hs by (apply same_threads_alter; by repeat split).
    assert (forall k, exit_of (alter (set_retval context) c (threads s)) k = exit_of (threads s) k) as He by (intros; by apply exit_of_alter).
    destruct (threads s !! c) as [th|]; [case_decide|]; done.
  - split; [|done]. intros k. cbn. destruct (threads s !! k); constructor; apply same_sched_refl.
Qed.

(** The turn when the first thread to take is not told to exit. *)
Lemma schedule_pick dn s cpu cur context timer p t l : sched_inv dn s -> current s !! cpu = Some cur ->
  let s1 := parked s cpu cur context in
  ready s1 !! p = Some (t :: l) -> (forall j, (j < p)%nat -> ready s1 !! j = Some []) -> exit_of (threads s) t = Some false ->
  exists s', threads_schedule s cpu context timer = Ok s' /\ sched_inv dn s' /\
    current s' = <[cpu := Some t]> (current s) /\ ready s' = <[p := l]> (ready s1) /\ ghosts s' = ghosts s /\
    same_threads (threads s) (threads s') /\ forall k, exit_of (threads s') k = exit_of (threads s) k.
Proof.
  intros Hi Hc s1 Hl Hj Hx. rewrite (schedule_eq dn s cpu cur) by done. fold s1.
  pose proof (inv_parked dn s cpu cur context Hi Hc) as Hi1. fold s1 in Hi1. destruct (parked_same s cpu cur context) as [Hsame Hex]. fold s1 in Hsame, Hex.
  assert (p < NPRIO)%nat as Hp by (rewrite <- (i_len _ _ Hi1); by eapply lookup_lt_Some).
  rewrite (select_loop_pick dn s1 p t l) ; [|done|lia| |intros; apply Hj; lia|done|].
  2: { unfold select_fuel. lia. }
  2: { intros th Hth. specialize (Hex t). rewrite Hx in Hex. unfold exit_of in Hex. rewrite Hth in Hex. by injection Hex. }
  cbn [rbind]. assert (current s1 !! cpu = Some None) as Hc1 by (unfold s1; rewrite parked_current; apply list_lookup_insert_eq; by eapply lookup_lt_Some).
  pose proof (inv_take_current dn s1 cpu p t l Hi1 Hc1 Hl) as Hi2. cbv zeta in Hi2. cbn [current set_ready] in *. set (s2 := set_current _ _) in *.
  destruct (i_ready _ _ Hi1 p (t :: l) t Hl) as (th & Hth & _); [by left|].
  destruct (signals_ok dn s2 t Hi2) as (m & ps & E3 & Hm & Hi3); [cbn; eauto|]. rewrite E3. cbn [rbind].
  pose proof (fun k => signals_exit _ _ _ k E3) as Hex3. set (s3 := set_procs ps (set_threads m s2)) in *.
  eexists. split; [done|]. split; [by apply inv_times|].
  destruct (cpuTimeCalc_frame s3 cur (Some t) timer) as [m' E']. pose proof (times_same s3 cur (Some t) timer) as Hts.
  pose proof (fun k => times_exit s3 cur (Some t) timer k) as Hte. rewrite E' in *. cbn [current ready ghosts set_threads threads] in *. split_and!.
  - change (current s3) with (<[cpu := Some t]> (current s1)). unfold s1. by rewrite parked_current, list_insert_insert_eq.
  - done.
  - change (ghosts s3) with (ghosts s1). unfold s1, parked. destruct cur; [|done]. cbn. by repeat case_match.
  - apply (same_trans _ (threads s1)); [done|]. by apply (same_trans _ m).
  - intros k. rewrite Hte, Hex3. exact (Hex k).
Qed.

(** ** Theorems *)

(** C1: the thread manager under any interleaving of its operations on any
    processors: every enabled operation returns (no fault, no endless loop), every
    live thread is in exactly the place its state says (one ready queue, one
    processor or the ghost list when it is READY; the queue it waits on and the
    sleeping tree when it sleeps), and a ready queue holds threads of its
    priority only. *)
Theorem threads_safe dn s : reach dn s ->
  (forall o, enabled dn s o -> exists s', exec o s = Ok s') /\
  (forall t th, threads s !! t = Some th -> t ∉ dn -> located s t th) /\
  (forall p l t, ready s !! p = Some l -> t ∈ l -> exists th, threads s !! t = Some th /\ priority th = p /\ state th = READY).
Proof.
  intros Hr%reach_inv. split_and!.
  - intros o He. destruct (step_ok dn s o Hr He) as (s' & ? & _). eauto.
  - intros t th Hth Hd. destruct Hr as [Hi _]. by eapply inv_located.
  - apply (i_ready _ _ (proj1 Hr)).
Qed.

(** C6: no wakeup is lost.  [proc_threadWakeup] wakes the thread that waits
    longest, which becomes READY with its wait and deadline cancelled, at the end
    of its ready queue (or on the processor it has not left yet); with nobody
    waiting it leaves a token, and the next wait on the queue returns at once,
    consumes the token and leaves the caller running. *)
Theorem wakeup_not_lost dn s q : reach dn s -> is_Some (queues s !! q) ->
  exists s' r, proc_threadWakeup s q = Ok (s', r) /\
    match queues s !! q with
    | Some (Waiters (t :: l)) => r = 1 /\ queues s' !! q = Some (Waiters l) /\
        exists th, threads s !! t = Some th /\ threads s' !! t = Some (set_sched READY None 0 false th) /\ (t ∉ sleeping s') /\
          (Some t ∈ current s \/ exists rq, ready s !! priority th = Some rq /\ ready s' !! priority th = Some (rq ++ [t]))
    | _ => r = 0 /\ queues s' !! q = Some Token /\ threads s' = threads s /\
        forall cpu t th timeout intr now, thread_on s' cpu t th ->
          exists s'', proc_threadWaitEx s' cpu q timeout intr now = Ok (s'', true) /\
            queues s'' !! q = Some (Waiters []) /\ thread_on s'' cpu t th
    end.
Proof.
  intros [Hi _]%reach_inv [w Hq]. unfold proc_threadWakeup. run_step Hq.
  assert (forall s', queues s' !! q = Some Token -> forall cpu t th timeout intr now, thread_on s' cpu t th ->
    exists s'', proc_threadWaitEx s' cpu q timeout intr now = Ok (s'', true) /\ queues s'' !! q = Some (Waiters []) /\ thread_on s'' cpu t th) as Htok.
  { intros s' Hs' cpu t th timeout intr now Hon. unfold proc_threadWaitEx. rewrite enqueue_token by done. cbn. rewrite !lookup_insert_eq. cbn.
    eexists. split_and!; [done|by cbn; rewrite lookup_insert_eq|done]. }
  destruct w as [|[|t l]].
  1, 2: eexists _, _; split_and!; [done|done|by cbn; rewrite lookup_insert_eq|done|]; apply Htok; cbn; by rewrite lookup_insert_eq.
  destruct (wakeup_head dn s q t l Hi Hq) as (th & Hth & Hw & Hst & -> & Hi').
  eexists _, _. split_and!; [done|done| |].
  - rewrite (woken_queue s t th q _ Hq). by rewrite list_del_head.
  - exists th. split_and!; [done|by cbn; rewrite lookup_alter_eq, Hth| |].
    + cbn. by intros [? _]%list_elem_of_filter.
    + destruct (decide (Some t ∈ current s)); [by left|right]. destruct (i_thread _ _ Hi t th Hth) as [Hp _].
      destruct (inv_ready_lookup dn s (priority th) Hi Hp) as [rq Hrq]. exists rq. split; [done|]. cbn. rewrite decide_False by done.
      by rewrite list_lookup_alter_eq, Hrq.
Qed.

(** C9: the timer interrupt wakes exactly the threads whose deadline has
    passed: each returns [-ETIME], is READY and on its ready queue or processor,
    waits nowhere; every other thread is untouched, and the sleeping tree keeps
    the threads whose deadline lies ahead. *)
Theorem timeintr_correct dn s now : reach dn s ->
  exists s', threads_timeintr s 0 now = Ok s' /\
    (forall t, threads s' !! t = after_tick now <$> threads s !! t) /\
    (forall t, t ∈ sleeping s' <-> exists th, threads s !! t = Some th /\ wakeup th <> 0 /\ now < wakeup th) /\
    (forall t th, threads s !! t = Some th -> wakeup th <> 0 -> wakeup th <= now ->
       (t ∈ concat (ready s') \/ Some t ∈ current s') /\ forall q l, queues s' !! q = Some (Waiters l) -> t ∉ l).
Proof.
  intros [Hi _]%reach_inv. unfold threads_timeintr.
  destruct (timeintr_loop_ok dn now (1 + length (sleeping s)) s Hi) as (s1 & -> & Hi1 & Ec & Eg & Es & Et); [lia|]. cbn [rbind].
  destruct (updateWakeup_ok dn s1 now (head (sleeping s1)) Hi1) as [w ->].
  { intros t Ht. destruct (inv_head_sleeping dn s1 t Hi1 Ht) as (th & -> & _). eauto. }
  assert (forall t th, threads s !! t = Some th -> wakeup th <> 0 -> t ∈ sleeping s /\ state th = SLEEP /\ t ∉ dn) as Hsl.
  { intros t th Hth Hw. destruct (i_thread _ _ Hi t th Hth) as [_ Hok]. destruct (state th); [by destruct Hok as (_ & ? & _)|].
    destruct Hok as (_ & ? & _ & ?). auto. }
  eexists. split; [done|]. cbn. split_and!.
  - intros t. by rewrite Et, lookup_fmap.
  - intros t. rewrite Es, list_elem_of_filter. unfold wakeup_of. split.
    + intros [Hn Hin]. destruct (i_sleeping _ _ Hi t Hin) as (th & Hth & Hw). rewrite Hth in Hn. eauto.
    + intros (th & Hth & Hw & Hn). rewrite Hth. split; [done|]. by apply (Hsl t th).
  - intros t th Hth Hw Hle. destruct (Hsl t th Hth Hw) as (Hin & Hst & Hd).
    assert (threads s1 !! t = Some (after_tick now th)) as Ht1 by (by rewrite Et, lookup_fmap, Hth).
    pose proof (inv_located dn s t th Hi Hth Hd) as Hloc. unfold located in Hloc. rewrite Hst in Hloc. destruct Hloc as (_ & Hng & _).
    pose proof (inv_located dn s1 t _ Hi1 Ht1 Hd) as Hloc1. unfold located, after_tick in Hloc1. rewrite decide_True in Hloc1 by done. cbn in Hloc1.
    destruct Hloc1 as (Hone & Hq & _). split; [|done]. rewrite Eg in Hone. unfold exactly_one in Hone. tauto.
Qed.

(** C21: [proc_threadBroadcast] wakes every waiter and no one else: the count
    it returns is their number, the queue is left empty, each of them is READY
    without a deadline, and they go to the ends of their ready queues in the
    order in which they began to wait.  A pending token is left alone. *)
Theorem broadcast_correct dn s q w : reach dn s -> queues s !! q = Some w ->
  match w with
  | Token => proc_threadBroadcast s q = Ok (s, 0)
  | Waiters l => exists s', proc_threadBroadcast s q = Ok (s', Z.of_nat (length l)) /\ queues s' !! q = Some (Waiters []) /\
      (forall k, threads s' !! k = if decide (k ∈ l) then set_sched READY None 0 false <$> threads s !! k else threads s !! k) /\
      (forall p, ready s' !! p = (fun r => r ++ filter (fun t => priority_of s t = p /\ Some t ∉ current s) l) <$> ready s !! p)
  end.
Proof.
  intros [Hi _]%reach_inv Hq. unfold proc_threadBroadcast. run_step Hq. destruct w as [|l]; [done|].
  destruct (broadcast_ok dn s q l Hi Hq) as (-> & _ & Hq' & _). destruct (i_queue _ _ Hi q l Hq) as [Hn Hin].
  assert (forall t, t ∈ l -> is_Some (threads s !! t)) as Hs by (intros t Ht; destruct (Hin t Ht) as (? & ? & _); eauto).
  eexists. split_and!; [done|done| |].
  - intros k. by apply wake_all_threads.
  - intros p. by apply wake_all_ready.
Qed.

(** C10: the scheduler.  The thread on the processor leaves it and, unless it
    sleeps, goes to the end of its priority's queue; then the head of the first
    queue that is not empty gets the processor.  The other threads keep their
    places. *)
Theorem schedule_priority dn s cpu cur context timer p t l : reach dn s -> current s !! cpu = Some cur ->
  let rq := match cur with
            | Some c => if decide (wait_free s c) then alter (fun l => l ++ [c]) (priority_of s c) (ready s) else ready s
            | None => ready s
            end in
  rq !! p = Some (t :: l) -> (forall j, (j < p)%nat -> rq !! j = Some []) -> exit_of (threads s) t = Some false ->
  exists s', threads_schedule s cpu context timer = Ok s' /\
    current s' = <[cpu := Some t]> (current s) /\ ready s' = <[p := l]> rq /\ ghosts s' = ghosts s.
Proof.
  intros [Hi _]%reach_inv Hc rq Hl Hj Hx.
  assert (ready (parked s cpu cur context) = rq) as Er.
  { unfold parked, rq. destruct cur as [c|]; [|done]. cbn [threads set_current set_executions].
    destruct (inv_cur_lookup dn s cpu c Hi Hc) as (th & Hth & _).
    assert (wait_free s c <-> state th = READY) as Hw by (unfold wait_free; rewrite Hth; cbn; split; congruence).
    assert (priority_of s c = priority th) as -> by (unfold priority_of; by rewrite Hth). rewrite Hth.
    repeat case_decide; try done; tauto. }
  rewrite <- Er in *. destruct (schedule_pick dn s cpu cur context timer p t l Hi Hc Hl Hj Hx) as (s' & ? & _ & ? & ? & ? & _). eauto.
Qed.

(** Repeated turns of the scheduler on one processor. *)
Fixpoint turns (n : nat) (s : common) (cpu : nat) (timer : Z) : res common :=
  match n with
  | O => Ok s
  | S n => let? s := threads_schedule s cpu EOK timer in turns n s cpu timer
  end.

Lemma round_robin_inv dn cpu timer n : forall s c thc l k, sched_inv dn s -> thread_on s cpu c thc ->
  ready s !! priority thc = Some l -> (forall j, (j < priority thc)%nat -> ready s !! j = Some []) ->
  Forall (fun t => exit_of (threads s) t = Some false) (c :: l) -> (c :: l) !! n = Some k ->
  exists s', turns n s cpu timer = Ok s' /\ current s' !! cpu = Some (Some k).
Proof.
  induction n as [|n IH]; intros s c thc l k Hi (Hc & Hth & Hst) Hl Hj Hx Hk; simpl in *.
  { simplify_eq. eauto. }
  destruct l as [|t l]; [done|]. set (p := priority thc) in *.
  assert (ready (parked s cpu (Some c) EOK) = <[p := (t :: l) ++ [c]]> (ready s)) as Er.
  { unfold parked. cbn. rewrite Hth, decide_True by done. cbn. fold p. symmetry. by apply (alter_insert_list _ _ (t :: l)). }
  assert (p < length (ready s))%nat as Hlen by (by eapply lookup_lt_Some).
  destruct (schedule_pick dn s cpu (Some c) EOK timer p t (l ++ [c]) Hi Hc) as (s' & -> & Hi' & Ec & Erd & _ & Hsame & Hex').
  { rewrite Er. by rewrite list_lookup_insert_eq. }
  { intros j Hjp. rewrite Er, list_lookup_insert_ne by lia. auto. }
  { rewrite Forall_forall in Hx. apply Hx. by right; left. }
  cbn [rbind]. destruct (i_ready _ _ Hi p (t :: l) t Hl) as (tht & Htht & Hpt & Hstt); [by left|].
  destruct (same_threads_fwd _ _ _ _ Hsame Htht) as (tht' & Htht' & _ & _ & _ & _ & Ep & Es & _).
  assert (priority tht' = p) as Ep' by congruence.
  apply (IH s' t tht' (l ++ [c])); [done| | | | |].
  - split_and!; [|done|congruence]. rewrite Ec. apply list_lookup_insert_eq. by eapply lookup_lt_Some.
  - rewrite Ep', Erd, Er, list_insert_insert_eq. by apply list_lookup_insert_eq.
  - rewrite Ep'. intros j Hjp. rewrite Erd, Er, list_insert_insert_eq, list_lookup_insert_ne by lia. auto.
  - rewrite Forall_forall in *. intros x Hin. rewrite Hex'. apply Hx. rewrite !elem_of_cons, elem_of_app, list_elem_of_singleton in Hin.
    rewrite !elem_of_cons. tauto.
  - destruct n as [|n]; simpl in Hk |- *; [done|]. rewrite lookup_app_l; [done|]. by eapply lookup_lt_Some.
Qed.

(** C11: no ready thread of the highest priority starves.  While nobody of
    higher priority is ready, the threads of the running thread's priority take
    turns in the order of the queue: the one at distance [n] behind the running
    thread gets the processor at the [n]-th turn of the scheduler. *)
Theorem round_robin dn s cpu timer c thc l n k : reach dn s -> thread_on s cpu c thc ->
  ready s !! priority thc = Some l -> (forall j, (j < priority thc)%nat -> ready s !! j = Some []) ->
  Forall (fun t => exit_of (threads s) t = Some false) (c :: l) -> (c :: l) !! n = Some k ->
  exists s', turns n s cpu timer = Ok s' /\ current s' !! cpu = Some (Some k).
Proof. intros [Hi _]%reach_inv. by eapply round_robin_inv. Qed.
End Machine.

(** ** A concrete run

    One processor; two threads of priority 3 are created, the first runs, then
    waits on a queue for at most 100 ticks, and the second gets the processor. *)
#[local] Instance demo_hal : Hal := {| hal_cpuGetCount := 1; TIMER_US2CYC x := x; TIMER_CYC2US x := x; hal_cpuPushSignal _ _ := - EINVAL |}.

Definition demo_ops : list sched_op :=
  [OCreate (Some 10%positive) true 1 None 3 0; OCreate (Some 11%positive) true 2 None 3 0; ONewQueue 2%positive; OSchedule 0 0 5].
Definition demo_wait : sched_op := OWait 0 2%positive 100 true 7.

Fixpoint demo_run (s : common) (os : list sched_op) : res common :=
  match os with
  | [] => Ok s
  | o :: os => let? s := exec o s in demo_run s os
  end.

Definition demo_get (r : res common) : common := match r with Ok s => s | _ => threads_reset end.
Definition demo1 : common := Eval vm_compute in demo_get (demo_run threads_reset (take 1 demo_ops)).
Definition demo2 : common := Eval vm_compute in demo_get (demo_run threads_reset (take 2 demo_ops)).
Definition demo3 : common := Eval vm_compute in demo_get (demo_run threads_reset (take 3 demo_ops)).
Definition demo4 : common := Eval vm_compute in demo_get (demo_run threads_reset demo_ops).
Definition demo5 : common := Eval vm_compute in demo_get (exec demo_wait demo4).

Lemma demo_fresh1 k a : threads demo1 !! k = Some a -> thread_id a <> 2.
Proof.
  change (threads demo1) with (<[10%positive := Thread 1 1 None None 0 3 false READY false 0 0 0 0 0 0]> (∅ : gmap loc thread)).
  intros [[_ <-]|[_ Hx]]%lookup_insert_Some; [done|]. by rewrite lookup_empty in Hx.
Qed.

Lemma demo_reach4 : exists dn, reach dn demo4.
Proof.
  assert (exists dn, reach dn demo1) as [dn1 H1].
  { eexists. eapply (reach_step ∅ threads_reset (OCreate (Some 10%positive) true 1 None 3 0)); [apply reach_init| |by vm_compute].
    intros _. split_and!; [done|done|by intros k a|done]. }
  assert (exists dn, reach dn demo2) as [dn2 H2].
  { eexists. eapply (reach_step dn1 demo1 (OCreate (Some 11%positive) true 2 None 3 0)); [done| |by vm_compute].
    intros _. split_and!; [done|done|apply demo_fresh1|done]. }
  assert (exists dn, reach dn demo3) as [dn3 H3].
  { eexists. eapply (reach_step dn2 demo2 (ONewQueue 2%positive)); [done|by vm_compute|by vm_compute]. }
  eexists. eapply (reach_step dn3 demo3 (OSchedule 0 0 5)); [done|cbn; lia|by vm_compute].
Qed.

Definition demo_thread : thread := Thread 1 1 None None 0 3 false READY false 0 0 0 0 5 0.

Lemma demo_on : thread_on demo4 0 10%positive demo_thread.
Proof. repeat split. Qed.

Lemma demo_reach5 : exists dn, reach dn demo5.
Proof.
  destruct demo_reach4 as [dn Hr]. eexists. eapply (reach_step dn demo4 demo_wait); [done| |by vm_compute].
  split_and!; [exists 10%positive, demo_thread; apply demo_on|by eexists|by intros].
Qed.

Lemma threads_safe_witness : exists dn : gset loc, (exists s', exec (OSchedule 0 0 9) demo4 = Ok s') /\
  forall t th, threads demo4 !! t = Some th -> t ∉ dn -> located demo4 t th.
Proof.
  destruct demo_reach4 as [dn Hr]. exists dn. destruct (threads_safe dn demo4 Hr) as (Hex & Hloc & _). split; [|exact Hloc].
  apply Hex. cbn. lia.
Defined.

Lemma wakeup_not_lost_witness : exists s', proc_threadWakeup demo5 2%positive = Ok (s', 1) /\ queues s' !! 2%positive = Some (Waiters []).
Proof.
  destruct demo_reach5 as [dn Hr]. destruct (wakeup_not_lost dn demo5 2%positive Hr) as (s' & r & E & Hx); [by eexists|].
  change (queues demo5 !! 2%positive) with (Some (Waiters [10%positive])) in Hx. destruct Hx as (-> & Hq & _). eauto.
Defined.

Lemma timeintr_correct_witness : exists s' th, threads_timeintr demo5 0 200 = Ok s' /\ threads s' !! 10%positive = Some th /\ retval th = - ETIME.
Proof.
  destruct demo_reach5 as [dn Hr]. destruct (timeintr_correct dn demo5 200 Hr) as (s' & E & Ht & _).
  eexists s', _. split_and!; [exact E|rewrite Ht; vm_compute; reflexivity|reflexivity].
Defined.

Lemma broadcast_correct_witness : exists s', proc_threadBroadcast demo5 2%positive = Ok (s', 1) /\ queues s' !! 2%positive = Some (Waiters []).
Proof.
  destruct demo_reach5 as [dn Hr]. destruct (broadcast_correct dn demo5 2%positive (Waiters [10%positive]) Hr) as (s' & E & Hq & _); [reflexivity|]. eauto.
Defined.

Lemma schedule_priority_witness : exists s', threads_schedule demo4 0 0 9 = Ok s' /\ current s' = [Some 11%positive].
Proof.
  destruct demo_reach4 as [dn Hr].
  destruct (schedule_priority dn demo4 0 (Some 10%positive) 0 9 3 11%positive [10%positive] Hr) as (s' & E & Hc & _).
  - reflexivity.
  - vm_compute. reflexivity.
  - intros [|[|[|j]]] Hj; [vm_compute; reflexivity..|lia].
  - reflexivity.
  - exists s'. split; [exact E|]. rewrite Hc. reflexivity.
Defined.

Lemma round_robin_witness : exists s', turns 1 demo4 0 9 = Ok s' /\ current s' !! 0%nat = Some (Some 11%positive).
Proof.
  destruct demo_reach4 as [dn Hr].
  apply (round_robin dn demo4 0 9 10%positive demo_thread [11%positive] 1 11%positive Hr); [apply demo_on|reflexivity| |repeat constructor|reflexivity].
  intros [|[|[|j]]] Hj; [reflexivity..|cbn in Hj; lia].
Defined.
