(* ===== verification/Locks.v ===== *)
(** * Sleeping locks (proc/threads.c, proc/lock.h)

    [proc_lockSet], [proc_lockTry], [proc_lockClear], [proc_lockSet2] and
    [proc_lockWait], run by any number of threads.  What the thread manager
    promises to the locks is the class [WaitQueue] (a FIFO with the token of a
    wakeup that found nobody), and [threads_wait_queue] discharges it with the
    operations of [Threads].

    Every critical section of [lock->spinlock] is one step; between the steps the
    threads interleave freely.  Threads may be told to exit at any time
    ([_proc_threadExit]): one that is off the queues becomes a ghost when the
    scheduler next selects it, whatever it was doing, and one that sleeps where it
    cannot be interrupted does so once it is woken.  [held] is the set of (thread, lock) pairs of the
    calls that returned EOK without a matching [proc_lockClear]; the code keeps no
    such record. *)

From Stdlib Require Import ZArith Lia.
From S2P Require Import Prelude.
From S2P Require Import LibList.
From S2P Require Import Threads.
From S2P Require Import ThreadsInv.
From S2P Require Import ThreadsOps.
From S2P Require Import ThreadsProg.

(** ** Wait queues as the locks see them *)

(** The caller joins the queue ([true]: it sleeps) or consumes the token. *)
Definition q_wait (q : wqueue) (t : loc) : wqueue * bool :=
  match q with
  | Token => (Waiters [], false)
  | Waiters l => (Waiters (list_add l t), true)
  end.

(** [proc_threadWakeup]: the thread that waits longest, or a token. *)
Definition q_wakeup (q : wqueue) : wqueue * ptr :=
  match q with
  | Waiters (t :: l) => (Waiters l, Some t)
  | _ => (Token, None)
  end.

Class WaitQueue (S : Type) := {
  wq_inv : S -> Prop;
  wq_at : S -> loc -> option wqueue;
  wq_running : S -> nat -> loc -> Prop;
  wq_wait : S -> nat -> loc -> res S;
  wq_wakeup : S -> loc -> res S;
  wq_wait_spec s cpu t q w : wq_inv s -> wq_running s cpu t -> wq_at s q = Some w ->
    exists s', wq_wait s cpu q = Ok s' /\ wq_inv s' /\ wq_at s' q = Some (q_wait w t).1;
  wq_wakeup_spec s q w : wq_inv s -> wq_at s q = Some w ->
    exists s', wq_wakeup s q = Ok s' /\ wq_inv s' /\ wq_at s' q = Some (q_wakeup w).1;
}.

(** The thread manager keeps the promise: the critical sections of
    [proc_threadWaitEx] (without a timeout) and of [proc_threadWakeup]. *)
Section Discharge.
Context `{Hal}.

Definition mgr_running (s : common) (cpu : nat) (t : loc) : Prop := exists th, thread_on s cpu t th.

Lemma mgr_wait_spec (s : common) cpu t q w : (exists dn, sched_inv dn s) -> mgr_running s cpu t -> queues s !! q = Some w ->
  exists s', _proc_threadEnqueue s cpu q 0 false 0 = Ok s' /\ (exists dn, sched_inv dn s') /\ queues s' !! q = Some (q_wait w t).1.
Proof.
  intros [dn Hi] (th & Hon) Hq. pose proof Hon as (Hc & _). destruct w as [|l].
  - rewrite enqueue_token by done. eexists. split_and!; [done| |by cbn; rewrite lookup_insert_eq].
    exists dn. eapply inv_token; eauto.
  - destruct (enqueue_wait dn s cpu t th q l 0 false 0 Hi Hc (thread_on_runs _ _ _ _ Hon) Hq) as (l' & h & -> & Hi'); [done|].
    eexists. split_and!; [done|exists dn; by apply inv_hptimer|]. cbn. by rewrite lookup_alter_eq, Hq.
Qed.

Lemma mgr_wakeup_spec (s : common) q w : (exists dn, sched_inv dn s) -> queues s !! q = Some w ->
  exists s', (let? r := proc_threadWakeup s q in Ok r.1) = Ok s' /\ (exists dn, sched_inv dn s') /\ queues s' !! q = Some (q_wakeup w).1.
Proof.
  intros [dn Hi] Hq. unfold proc_threadWakeup. run_step Hq.
  assert (w = Token \/ w = Waiters [] -> (exists dn, sched_inv dn (set_queues (<[q := Token]> (queues s)) s))) as Htok.
  { intros Hw. exists dn. eapply inv_token; eauto. }
  destruct w as [|[|t l]].
  1, 2: eexists; split_and!; [done|auto|by cbn; rewrite lookup_insert_eq].
  destruct (wakeup_head dn s q t l Hi Hq) as (th & Hth & _ & _ & -> & Hi'). eexists. split_and!; [done|eauto|].
  cbn [rbind fst]. rewrite (woken_queue s t th q _ Hq). by rewrite list_del_head.
Qed.

#[export] Instance threads_wait_queue : WaitQueue common := {|
  wq_inv s := exists dn, sched_inv dn s;
  wq_at s q := queues s !! q;
  wq_running := mgr_running;
  wq_wait s cpu q := _proc_threadEnqueue s cpu q 0 false 0;
  wq_wakeup s q := let? r := proc_threadWakeup s q in Ok r.1;
  wq_wait_spec := mgr_wait_spec;
  wq_wakeup_spec := mgr_wakeup_spec;
|}.
End Discharge.

(** ** Locks *)
Record lock := Lock { v : Z; queue : wqueue }.

Definition proc_lockInit : lock := Lock 1 (Waiters []).

(** One test of [while (lock->v == 0)] in [_proc_lockSet] by thread [t], with
    the wait it leads to. *)
Inductive turn := Acquired | Blocked | Again.

Definition _proc_lockSet (lk : lock) (t : loc) : lock * turn :=
  if v lk =? 0 then
    let (q, sleeps) := q_wait (queue lk) t in
    (Lock 0 q, if sleeps then Blocked else Again)
  else (Lock 0 (queue lk), Acquired).

(** [started] is [hal_started()]: before it the routines return [-EINVAL]. *)
Definition proc_lockTry (started : bool) (lk : lock) : lock * Z :=
  if started then (Lock 0 (queue lk), if v lk =? 0 then - EBUSY else EOK) else (lk, - EINVAL).

(** [_proc_lockClear]: the result says whether a thread was woken. *)
Definition _proc_lockClear (lk : lock) : lock * Z :=
  match queue lk with
  | Token | Waiters [] => (Lock 1 (queue lk), 0)
  | q => (Lock 1 (q_wakeup q).1, 1)
  end.

(** ** The machine: the kernel after [hal_started] *)

(** Where a thread is in the lock routines: outside, in the loop of
    [_proc_lockSet] (runnable, or asleep in its wait), in the wait of
    [proc_lockWait] on a condition, or in [proc_lockSet2] about to try the
    second lock or to drop the first; or gone, a ghost on [threads_common.ghosts]
    that was there. *)
Inductive pc :=
| Out
| Setting (l : loc) (intr : bool) (k : option loc)
| Asleep (l : loc) (intr : bool) (k : option loc)
| CondWait (c l : loc)
| Trying (l1 l2 : loc)
| Backing (l1 l2 : loc)
| Ghost (p : pc).

(** [exiting]: the threads whose [exit] flag is set. *)
Record lstate := LState {
  locks : gmap loc lock; conds : gmap loc wqueue; pcs : gmap loc pc; held : gset (loc * loc); exiting : gset loc }.

Definition pc_of (s : lstate) (t : loc) : pc := default Out (pcs s !! t).
Definition goto (t : loc) (p : pc) (s : lstate) : lstate := LState (locks s) (conds s) (<[t := p]> (pcs s)) (held s) (exiting s).
Definition put_lock (l : loc) (lk : lock) (s : lstate) : lstate := LState (<[l := lk]> (locks s)) (conds s) (pcs s) (held s) (exiting s).
Definition put_cond (c : loc) (q : wqueue) (s : lstate) : lstate := LState (locks s) (<[c := q]> (conds s)) (pcs s) (held s) (exiting s).
Definition grant (t l : loc) (s : lstate) : lstate := LState (locks s) (conds s) (pcs s) ({[(t, l)]} ∪ held s) (exiting s).
Definition ungrant (t l : loc) (s : lstate) : lstate := LState (locks s) (conds s) (pcs s) (held s ∖ {[(t, l)]}) (exiting s).
Definition told (t : loc) (s : lstate) : lstate := LState (locks s) (conds s) (pcs s) (held s) ({[t]} ∪ exiting s).

Definition waiting (q : wqueue) (t : loc) : Prop := match q with Waiters l => t ∈ l | Token => False end.
#[export] Instance waiting_dec q t : Decision (waiting q t).
Proof. destruct q; cbn; apply _. Defined.

Definition leave_queue (q : wqueue) (t : loc) : wqueue := match q with Waiters l => Waiters (list_del l t) | Token => Token end.

(** After [proc_lockSet(l)] returned EOK inside [proc_lockSet2] the thread goes
    on to try the other lock. *)
Definition after_set (l : loc) (k : option loc) : pc := match k with None => Out | Some l2 => Trying l l2 end.

(** [_thread_interrupt]: an interruptible sleeper leaves its queue (a thread that
    is off the queues is not interruptible). *)
Definition interrupt_wait (t : loc) (s : lstate) : lstate :=
  match pc_of s t with
  | Asleep l true _ => match locks s !! l with Some lk => put_lock l (Lock (v lk) (leave_queue (queue lk) t)) s | None => s end
  | CondWait c _ => match conds s !! c with Some q => put_cond c (leave_queue q t) s | None => s end
  | _ => s
  end.

(** The thread is on a queue of sleepers. *)
Definition sleeps_on (s : lstate) (t : loc) : Prop :=
  match pc_of s t with
  | Asleep l _ _ => match locks s !! l with Some lk => waiting (queue lk) t | None => False end
  | CondWait c _ => match conds s !! c with Some q => waiting q t | None => False end
  | _ => False
  end.

(** A step is labelled with the thread that takes it; signals, interrupts, the
    order to exit and the scheduler's disposal of an exiting thread are not steps
    of the thread they happen to. *)
Inductive lstep : option loc -> lstate -> lstate -> Prop :=
(** [proc_lockSet], [proc_lockSetInterruptible], [proc_lockSet2] are called. *)
| ls_call t l intr s : pc_of s t = Out -> is_Some (locks s !! l) ->
    lstep (Some t) s (goto t (Setting l intr None) s)
| ls_call2 t l1 l2 s : pc_of s t = Out -> is_Some (locks s !! l1) -> is_Some (locks s !! l2) -> l1 <> l2 ->
    lstep (Some t) s (goto t (Setting l1 false (Some l2)) s)
(** One turn of [_proc_lockSet]. *)
| ls_turn t l intr k lk s : pc_of s t = Setting l intr k -> locks s !! l = Some lk ->
    lstep (Some t) s (match _proc_lockSet lk t with
             | (lk', Acquired) => goto t (after_set l k) (grant t l (put_lock l lk' s))
             | (lk', Blocked) => goto t (Asleep l intr k) (put_lock l lk' s)
             | (lk', Again) => goto t (Setting l intr k) (put_lock l lk' s)
             end)
(** The wait returns: the thread was taken off the queue and is selected by the
    scheduler, which does not select exiting threads. *)
| ls_resume t l intr k lk s : pc_of s t = Asleep l intr k -> locks s !! l = Some lk -> ~ waiting (queue lk) t -> t ∉ exiting s ->
    lstep (Some t) s (goto t (Setting l intr k) s)
(** The wait is interrupted and returns [-EINTR]; interrupted before it gave up
    its processor, the thread loses that result ([hal_cpuSetReturnValue] writes to
    a context that is saved again) and goes on as if woken. *)
| ls_interrupt t l lk s : pc_of s t = Asleep l true None -> locks s !! l = Some lk -> waiting (queue lk) t -> t ∉ exiting s ->
    lstep None s (goto t Out (put_lock l (Lock (v lk) (leave_queue (queue lk) t)) s))
| ls_interrupt_early t s : lstep None s (interrupt_wait t s)
(** [_proc_threadExit], and [threads_schedule] on a ready thread with [exit]. *)
| ls_exit t s : lstep None s (told t (interrupt_wait t s))
| ls_ghost t s : t ∈ exiting s -> ~ sleeps_on s t -> (forall p, pc_of s t <> Ghost p) ->
    lstep None s (goto t (Ghost (pc_of s t)) s)
(** [proc_lockTry]. *)
| ls_try t l lk s : pc_of s t = Out -> locks s !! l = Some lk ->
    lstep (Some t) s (goto t Out (let (lk', e) := proc_lockTry true lk in if e =? EOK then grant t l (put_lock l lk' s) else put_lock l lk' s))
(** [proc_lockClear] by a holder. *)
| ls_clear t l lk s : pc_of s t = Out -> (t, l) ∈ held s -> locks s !! l = Some lk ->
    lstep (Some t) s (goto t Out (ungrant t l (put_lock l (_proc_lockClear lk).1 s)))
(** [proc_lockSet2]: try the second lock; on failure drop the first one, take
    the other and swap. *)
| ls_try2 t l1 l2 lk s : pc_of s t = Trying l1 l2 -> locks s !! l2 = Some lk ->
    lstep (Some t) s (let (lk', e) := proc_lockTry true lk in
             if e =? EOK then goto t Out (grant t l2 (put_lock l2 lk' s)) else goto t (Backing l1 l2) (put_lock l2 lk' s))
| ls_back t l1 l2 lk s : pc_of s t = Backing l1 l2 -> locks s !! l1 = Some lk ->
    lstep (Some t) s (goto t (Setting l2 false (Some l1)) (ungrant t l1 (put_lock l1 (_proc_lockClear lk).1 s)))
(** [proc_lockWait]: drop the lock, wait on the condition, take it again
    (unless interrupted). *)
| ls_wait t l c lk q s : pc_of s t = Out -> (t, l) ∈ held s -> locks s !! l = Some lk -> conds s !! c = Some q ->
    lstep (Some t) s (goto t (if (q_wait q t).2 then CondWait c l else Setting l false None)
               (put_cond c (q_wait q t).1 (ungrant t l (put_lock l (_proc_lockClear lk).1 s))))
| ls_signal c q s : conds s !! c = Some q -> lstep None s (put_cond c (q_wakeup q).1 s)
| ls_wait_done t c l q s : pc_of s t = CondWait c l -> conds s !! c = Some q -> t ∉ exiting s ->
    lstep (Some t) s (goto t (Setting l false None) (put_cond c (leave_queue q t) s))
| ls_wait_intr t c l q s : pc_of s t = CondWait c l -> conds s !! c = Some q -> waiting q t -> t ∉ exiting s ->
    lstep None s (goto t Out (put_cond c (leave_queue q t) s)).

(** From initialised locks, with no thread in the routines. *)
Inductive lreach : lstate -> Prop :=
| lreach_init ls cs : (forall l lk, ls !! l = Some lk -> lk = proc_lockInit) -> lreach (LState ls cs ∅ ∅ ∅)
| lreach_step a s s' : lreach s -> lstep a s s' -> lreach s'.

(** ** The invariant *)

(** A thread that will look at the lock again without being woken. *)
Definition on_the_way (s : lstate) (l : loc) (q : wqueue) (t : loc) : Prop :=
  exists intr k, pc_of s t = Setting l intr k \/ (pc_of s t = Asleep l intr k /\ ~ waiting q t).

(** A ghost that was, when it went. *)
Definition gone_on_the_way (s : lstate) (l : loc) (t : loc) : Prop :=
  exists intr k, pc_of s t = Ghost (Setting l intr k) \/ pc_of s t = Ghost (Asleep l intr k).

Record lock_ok (s : lstate) (l : loc) (lk : lock) : Prop := {
  lo_bit : v lk = 0 \/ v lk = 1;
  lo_held : v lk = 0 <-> exists t, (t, l) ∈ held s;
  lo_nodup : forall q, queue lk = Waiters q -> NoDup q;
  lo_asleep : forall t, waiting (queue lk) t -> exists intr k, pc_of s t = Asleep l intr k;
  lo_wake : v lk = 1 -> (exists t, waiting (queue lk) t) -> exists t, on_the_way s l (queue lk) t \/ gone_on_the_way s l t;
}.

(** What a program counter says about the locks the thread holds. *)
Definition pc_ok (s : lstate) (t : loc) : Prop :=
  match pc_of s t with
  | Setting l _ (Some l2) | Asleep l _ (Some l2) => l <> l2 /\ is_Some (locks s !! l2)
  | CondWait _ l => is_Some (locks s !! l)
  | Trying l1 l2 | Backing l1 l2 => l1 <> l2 /\ (t, l1) ∈ held s /\ is_Some (locks s !! l1)
  | Ghost _ => t ∈ exiting s
  | _ => True
  end.

Record linv (s : lstate) : Prop := {
  li_lock : forall l lk, locks s !! l = Some lk -> lock_ok s l lk;
  li_one : forall t t' l, (t, l) ∈ held s -> (t', l) ∈ held s -> t = t';
  li_pc : forall t, pc_ok s t;
}.

Lemma pc_goto t p s t' : pc_of (goto t p s) t' = if decide (t' = t) then p else pc_of s t'.
Proof. unfold pc_of, goto. cbn. case_decide; [subst; by rewrite lookup_insert_eq|by rewrite lookup_insert_ne]. Qed.

(** The lock a program counter is, or was, busy with. *)
Fixpoint busy (p : pc) (l : loc) : Prop :=
  match p with Setting l' _ _ | Asleep l' _ _ => l' = l | Ghost p => busy p l | _ => False end.

(** A step of [t] that is about another lock. *)
Lemma lock_frame s s' t l lk : lock_ok s l lk -> (forall t', t' <> t -> pc_of s' t' = pc_of s t') ->
  (pc_of s' t = pc_of s t \/ ~ busy (pc_of s t) l) -> (forall t', (t', l) ∈ held s' <-> (t', l) ∈ held s) -> lock_ok s' l lk.
Proof.
  intros [Hb Hh Hn Ha Hw] Hpc Ht Hheld.
  assert (forall t' p, busy p l -> pc_of s t' = p -> pc_of s' t' = p) as Hkeep.
  { intros t' p Hbusy Ep. destruct (decide (t' = t)) as [->|Hne]; [|by rewrite Hpc]. destruct Ht as [->|Hnb]; [done|]. by rewrite Ep in Hnb. }
  split; [done| |done| |].
  - by setoid_rewrite Hheld.
  - intros t' Hx. destruct (Ha t' Hx) as (intr & k & Ep). exists intr, k. by apply Hkeep.
  - intros Hv Hx. destruct (Hw Hv Hx) as (t' & [(intr & k & [Ep|[Ep Hnw]])|(intr & k & [Ep|Ep])]); exists t'; [left|left|right|right]; exists intr, k;
      [left|right; split; [|done]|left|right]; by apply Hkeep.
Qed.

(** Steps of [t] in the routines of lock [l]: the other locks, the holders and
    the other threads are as before. *)
Lemma linv_update s t l lk lk' p h cs : linv s -> locks s !! l = Some lk ->
  (p = pc_of s t \/ forall l', l' <> l -> ~ busy (pc_of s t) l') ->
  (forall t' l', l' <> l -> (t', l') ∈ h <-> (t', l') ∈ held s) ->
  (forall t' t'', (t', l) ∈ h -> (t'', l) ∈ h -> t' = t'') ->
  (forall t', t' <> t -> (t', l) ∈ held s -> (t', l) ∈ h) ->
  forall s', s' = LState (<[l := lk']> (locks s)) cs (<[t := p]> (pcs s)) h (exiting s) -> lock_ok s' l lk' -> pc_ok s' t -> linv s'.
Proof.
  intros [Hl H1 Hp] Hlk Hbusy Hh Hh1 Hkeep s' -> Hok Hpc. set (s' := LState _ _ _ _ _) in *.
  assert (forall t', t' <> t -> pc_of s' t' = pc_of s t') as Hother by (intros t' Hne; unfold pc_of, s'; cbn; by rewrite lookup_insert_ne).
  assert (pc_of s' t = p) as Ht by (unfold pc_of, s'; cbn; by rewrite lookup_insert_eq).
  split.
  - cbn. intros l' lk0 [[<- <-]|[Hne Hl0]]%lookup_insert_Some; [done|].
    apply (lock_frame s s' t); [by apply Hl|done| |intros; by apply Hh].
    rewrite Ht. destruct Hbusy as [->|Hnb]; [by left|right]. apply Hnb. congruence.
  - cbn. intros t' t'' l'. destruct (decide (l' = l)) as [->|Hne]; [by apply Hh1|]. rewrite !Hh by done. apply H1.
  - intros t'. destruct (decide (t' = t)) as [->|Hne]; [done|]. specialize (Hp t'). unfold pc_ok in *. rewrite Hother by done.
    assert (forall l', is_Some (locks s !! l') -> is_Some (locks s' !! l')) as Hdom by (intros l' Hx; cbn; by apply lookup_insert_is_Some'; right).
    destruct (pc_of s t') as [|l0 i k|l0 i k|c0 l0|l1 l2|l1 l2|p0]; [done|destruct k as [l2|]; [|done]; naive_solver..|auto| | |done].
    + destruct Hp as (? & Hx & ?). split_and!; [done| |auto]. destruct (decide (l1 = l)) as [->|]; [by apply Hkeep|by apply Hh].
    + destruct Hp as (? & Hx & ?). split_and!; [done| |auto]. destruct (decide (l1 = l)) as [->|]; [by apply Hkeep|by apply Hh].
Qed.


(** *** The three ways a lock changes *)
Lemma ok_acquire s s' t l lk : lock_ok s l lk -> v lk = 1 -> (forall t', t' <> t -> pc_of s' t' = pc_of s t') ->
  ~ waiting (queue lk) t -> (t, l) ∈ held s' -> lock_ok s' l (Lock 0 (queue lk)).
Proof.
  intros [Hb Hh Hn Ha Hw] Hv Hpc Hnt Hin. split; cbn; [by left| |done| |done].
  - split; [eauto|done].
  - intros t' Hx. rewrite Hpc; [by apply Ha|]. intros ->. done.
Qed.

Lemma ok_clear s s' t l lk : lock_ok s l lk -> (forall t', t' <> t -> pc_of s' t' = pc_of s t') -> ~ busy (pc_of s t) l ->
  (forall t', (t', l) ∉ held s') -> lock_ok s' l (_proc_lockClear lk).1.
Proof.
  intros [Hb Hh Hn Ha Hw] Hpc Hnb Hheld. unfold _proc_lockClear.
  assert (forall t', waiting (queue lk) t' -> t' <> t) as Hne.
  { intros t' Hx ->. destruct (Ha t Hx) as (i & k & E). by rewrite E in Hnb. }
  assert (forall q, (forall t', waiting q t' -> waiting (queue lk) t') -> (forall l, q = Waiters l -> NoDup l) ->
    ((exists t', waiting q t') -> exists t', on_the_way s' l q t' \/ gone_on_the_way s' l t') -> lock_ok s' l (Lock 1 q)) as Hgen.
  { intros q Hsub Hnd Hway. split; cbn; [by right| |done| |by intros _].
    - split; [done|]. intros [t' Hx]. by apply Hheld in Hx.
    - intros t' Hx%Hsub. rewrite Hpc by auto. auto. }
  destruct (queue lk) as [|[|x q]] eqn:Eq; cbn.
  - apply Hgen; [done|done|]. by intros [t' ?].
  - apply Hgen; [done|done|]. by intros [t' ?%not_elem_of_nil].
  - apply Hgen; [intros t'; by right| |].
    + intros l0 [= <-]. specialize (Hn (x :: q) eq_refl). by apply NoDup_cons in Hn as [_ ?].
    + intros _. exists x. left. destruct (Ha x) as (i & k & E); [by left|]. exists i, k. right. split.
      * rewrite Hpc; [done|]. apply Hne. by left.
      * cbn. specialize (Hn (x :: q) eq_refl). by apply NoDup_cons in Hn as [? _].
Qed.

Lemma ok_sleep s s' t l lk q : lock_ok s l lk -> v lk = 0 -> queue lk = Waiters q -> (forall t', t' <> t -> pc_of s' t' = pc_of s t') ->
  ~ waiting (queue lk) t -> (exists i k, pc_of s' t = Asleep l i k) -> (forall t', (t', l) ∈ held s' <-> (t', l) ∈ held s) ->
  lock_ok s' l (Lock 0 (Waiters (list_add q t))).
Proof.
  intros [Hb Hh Hn Ha Hw] Hv Hq Hpc Hnt Hpt Hheld. rewrite Hq in *. unfold list_add. split; cbn; [by left| | | |done].
  - setoid_rewrite Hheld. rewrite <- Hh. done.
  - intros l0 [= <-]. rewrite <- Permutation_cons_append. constructor; [done|by apply Hn].
  - intros t' [Hx|Hx%list_elem_of_singleton]%elem_of_app; [|by subst]. rewrite Hpc; [by apply Ha|]. intros ->. done.
Qed.

(** *** Holders *)
Lemma free_no_holder s l lk : lock_ok s l lk -> v lk = 1 -> forall t, (t, l) ∉ held s.
Proof. intros [_ Hh _ _ _] Hv t Hin. assert (v lk = 0) by (apply Hh; eauto). lia. Qed.

Lemma not_asleep s l lk t : lock_ok s l lk -> (forall i k, pc_of s t <> Asleep l i k) -> ~ waiting (queue lk) t.
Proof. intros Hok Hn Hw. destruct (lo_asleep _ _ _ Hok t Hw) as (i & k & E). by apply (Hn i k). Qed.

(** [held] after a grant or a drop, away from the pair. *)
Lemma held_grant_other s t l t' l' : l' <> l -> (t', l') ∈ ({[(t, l)]} ∪ held s) <-> (t', l') ∈ held s.
Proof. intros Hne. rewrite elem_of_union, elem_of_singleton. naive_solver. Qed.

Lemma held_drop_other s t l t' l' : l' <> l -> (t', l') ∈ (held s ∖ {[(t, l)]}) <-> (t', l') ∈ held s.
Proof. intros Hne. rewrite elem_of_difference, elem_of_singleton. naive_solver. Qed.

Lemma held_grant_one s t l t1 t2 : (forall t', (t', l) ∉ held s) ->
  (t1, l) ∈ ({[(t, l)]} ∪ held s) -> (t2, l) ∈ ({[(t, l)]} ∪ held s) -> t1 = t2.
Proof.
  intros Hn. rewrite !elem_of_union, !elem_of_singleton. intros [H1|H1] [H2|H2]; try (by apply Hn in H1); try (by apply Hn in H2). congruence.
Qed.

Lemma held_drop_none s t l : (forall t t', (t, l) ∈ held s -> (t', l) ∈ held s -> t = t') -> (t, l) ∈ held s ->
  forall t', (t', l) ∉ held s ∖ {[(t, l)]}.
Proof.
  intros H1 Hin t' [Hx Hne]%elem_of_difference. apply Hne. apply elem_of_singleton. f_equal. by apply H1.
Qed.

Section Step.
Variables (s : lstate) (Hi : linv s).

Lemma pcs_other t p ls cs h t' : t' <> t -> pc_of (LState ls cs (<[t := p]> (pcs s)) h (exiting s)) t' = pc_of s t'.
Proof. intros Hne. unfold pc_of. cbn. by rewrite lookup_insert_ne. Qed.

Lemma pcs_self t p ls cs h : pc_of (LState ls cs (<[t := p]> (pcs s)) h (exiting s)) t = p.
Proof. unfold pc_of. cbn. by rewrite lookup_insert_eq. Qed.

(** Acquiring: the free lock [l] is granted to [t], which goes to [p]. *)
Lemma linv_acquire t l lk p : locks s !! l = Some lk -> v lk = 1 -> (forall i k, pc_of s t <> Asleep l i k) ->
  (forall l', l' <> l -> ~ busy (pc_of s t) l') ->
  pc_ok (LState (<[l := Lock 0 (queue lk)]> (locks s)) (conds s) (<[t := p]> (pcs s)) ({[(t, l)]} ∪ held s) (exiting s)) t ->
  linv (LState (<[l := Lock 0 (queue lk)]> (locks s)) (conds s) (<[t := p]> (pcs s)) ({[(t, l)]} ∪ held s) (exiting s)).
Proof.
  intros Hl Hv Hna Hb Hp. pose proof (li_lock _ Hi l lk Hl) as Hok. pose proof (free_no_holder _ _ _ Hok Hv) as Hfree.
  eapply (linv_update s t l lk _ p); [done|done|by right|intros; by apply held_grant_other| | |done| |done].
  - intros t1 t2. by apply held_grant_one.
  - intros t' _ Hx. by apply Hfree in Hx.
  - eapply (ok_acquire s _ t); [done|done|intros; by apply pcs_other|by eapply not_asleep|]. cbn. set_solver.
Qed.

(** Clearing: the holder [t] of [l] drops it and goes to [p]. *)
Lemma linv_clear t l lk p cs : locks s !! l = Some lk -> (t, l) ∈ held s -> (forall l', ~ busy (pc_of s t) l') ->
  pc_ok (LState (<[l := (_proc_lockClear lk).1]> (locks s)) cs (<[t := p]> (pcs s)) (held s ∖ {[(t, l)]}) (exiting s)) t ->
  linv (LState (<[l := (_proc_lockClear lk).1]> (locks s)) cs (<[t := p]> (pcs s)) (held s ∖ {[(t, l)]}) (exiting s)).
Proof.
  intros Hl Hin Hb Hp. pose proof (held_drop_none s t l (fun a b => li_one _ Hi a b l) Hin) as Hnone.
  eapply (linv_update s t l lk _ p); [done|done|by right|intros; by apply held_drop_other| | |done| |done].
  - intros t1 t2 Hx. by apply Hnone in Hx.
  - intros t' Hne Hx. apply elem_of_difference. split; [done|]. rewrite elem_of_singleton. congruence.
  - eapply (ok_clear s _ t); [by apply (li_lock _ Hi)|intros; by apply pcs_other|done|done].
Qed.

(** Moving on without touching the lock. *)
Lemma linv_move t l lk p cs : locks s !! l = Some lk -> (forall l', ~ busy (pc_of s t) l') ->
  pc_ok (LState (locks s) cs (<[t := p]> (pcs s)) (held s) (exiting s)) t -> linv (LState (locks s) cs (<[t := p]> (pcs s)) (held s) (exiting s)).
Proof.
  intros Hl Hb Hp. rewrite <- (insert_id (locks s) l lk Hl) in Hp |- * at 1.
  eapply (linv_update s t l lk lk p); [done|done|by right|done|intros ??; apply (li_one _ Hi)|done|done| |done].
  eapply (lock_frame s _ t); [by apply (li_lock _ Hi)|intros; by apply pcs_other|by right|done].
Qed.
End Step.

Lemma linv_turn s t l intr k lk : linv s -> pc_of s t = Setting l intr k -> locks s !! l = Some lk ->
  linv (match _proc_lockSet lk t with
        | (lk', Acquired) => goto t (after_set l k) (grant t l (put_lock l lk' s))
        | (lk', Blocked) => goto t (Asleep l intr k) (put_lock l lk' s)
        | (lk', Again) => goto t (Setting l intr k) (put_lock l lk' s)
        end).
Proof.
  intros Hi Hpc Hl. pose proof (li_lock _ Hi l lk Hl) as Hok. pose proof (li_pc _ Hi t) as Hpt. unfold pc_ok in Hpt. rewrite Hpc in Hpt.
  assert (forall i k', pc_of s t <> Asleep l i k') as Hna by (intros i k'; by rewrite Hpc).
  assert (forall l', l' <> l -> ~ busy (pc_of s t) l') as Hb by (intros l' Hne; rewrite Hpc; cbn; congruence).
  unfold _proc_lockSet. destruct (Z.eqb_spec (v lk) 0) as [Hv|Hv].
  - destruct (queue lk) as [|q] eqn:Eq; cbn [q_wait].
    + eapply (linv_update s t l lk (Lock 0 (Waiters [])) (Setting l intr k) (held s)); [done|done|by right|done|intros ??; apply (li_one _ Hi)|done|done| |].
      * destruct Hok as [_ Hh _ _ _]. split; cbn; [by left|by rewrite <- Hh| |by intros t' ?%not_elem_of_nil|done]. intros q0 [= <-]. constructor.
      * unfold pc_ok. rewrite pc_goto, decide_True by done. destruct k as [l2|]; [|done]. split; [naive_solver|]. cbn. by apply lookup_insert_is_Some'; right; naive_solver.
    + eapply (linv_update s t l lk _ (Asleep l intr k) (held s)); [done|done|by right|done|intros ??; apply (li_one _ Hi)|done|done| |].
      * eapply (ok_sleep s _ t l lk q); [done|done|done|intros; rewrite pc_goto, decide_False by done; done| | |done].
        -- by eapply not_asleep.
        -- exists intr, k. by rewrite pc_goto, decide_True.
      * unfold pc_ok. rewrite pc_goto, decide_True by done. destruct k as [l2|]; [|done]. split; [naive_solver|]. cbn. by apply lookup_insert_is_Some'; right; naive_solver.
  - assert (v lk = 1) as Hv1 by (destruct (lo_bit _ _ _ Hok); lia). apply (linv_acquire s Hi t l lk (after_set l k)); [done..|].
    unfold pc_ok. rewrite pcs_self. destruct k as [l2|]; cbn; [|done]. split_and!; [naive_solver|set_solver|by apply lookup_insert_is_Some'; left].
Qed.

(** [proc_lockTry] leaves a held lock as it is. *)
Lemma try_busy lk : v lk = 0 -> proc_lockTry true lk = (lk, - EBUSY).
Proof. intros Hv. unfold proc_lockTry. rewrite Hv. destruct lk; cbn in *. by subst. Qed.

(** *** Threads told to exit *)
Lemma leave_waiting q t t' : (forall l, q = Waiters l -> NoDup l) -> waiting (leave_queue q t) t' <-> waiting q t' /\ t' <> t.
Proof.
  destruct q as [|q]; cbn; [tauto|]. intros Hn. destruct (decide (t ∈ q)) as [Hin|Hno]; [by apply (list_del_NoDup q t (Hn q eq_refl))|].
  rewrite list_del_notin by done. split; [|tauto]. intros ?. split; [done|by intros ->].
Qed.

Lemma leave_nodup q t : (forall l, q = Waiters l -> NoDup l) -> forall l, leave_queue q t = Waiters l -> NoDup l.
Proof.
  destruct q as [|q]; cbn; [done|]. intros Hn l [= <-]. destruct (decide (t ∈ q)); [by apply (list_del_NoDup q t (Hn q eq_refl))|].
  rewrite list_del_notin by done. by apply Hn.
Qed.

Lemma linv_interrupt_wait s t : linv s -> linv (interrupt_wait t s).
Proof.
  intros Hi. unfold interrupt_wait. destruct (pc_of s t) as [|l0 i k|l [] k|c l0|l1 l2|l1 l2|p0] eqn:Hpc; try done.
  - destruct (locks s !! l) as [lk|] eqn:Hl; [|done]. pose proof (li_lock _ Hi l lk Hl) as [Hbit Hh Hn Ha Hwk].
    assert (pcs s = <[t := Asleep l true k]> (pcs s)) as Epcs.
    { symmetry. apply insert_id. unfold pc_of in Hpc. destruct (pcs s !! t); cbn in Hpc; congruence. }
    unfold put_lock. rewrite Epcs. eapply (linv_update s t l lk _ _ (held s)); [done|done|by left|done|intros ??; apply (li_one _ Hi)|done|done| |].
    + assert (forall q, pc_of (LState (<[l := q]> (locks s)) (conds s) (<[t := Asleep l true k]> (pcs s)) (held s) (exiting s)) = pc_of s) as Epc.
      { intros q. unfold pc_of. cbn. by rewrite <- Epcs. }
      split; cbn [v queue held]; [done|done|by apply leave_nodup| |].
      * intros t' [Hx _]%leave_waiting; [|done]. rewrite Epc. by apply Ha.
      * intros _ _. exists t. left. exists true, k. right. rewrite Epc. split; [done|]. by intros [_ ?]%leave_waiting.
    + pose proof (li_pc _ Hi t) as Hp. unfold pc_ok in *. rewrite Hpc in Hp. rewrite pcs_self. destruct k as [l2|]; [|done].
      cbn. split; [naive_solver|]. by apply lookup_insert_is_Some'; right; naive_solver.
  - destruct (conds s !! c) as [q|]; [|done]. destruct Hi as [H1 H2 H3]. split; [|done|done]. intros l lk Hl. destruct (H1 l lk Hl) as [? ? ? ? ?]. by split.
Qed.

Lemma linv_told s t : linv s -> linv (told t s).
Proof.
  intros [H1 H2 H3]. split; [|done|].
  - intros l lk Hl. destruct (H1 l lk Hl) as [? ? ? ? ?]. by split.
  - intros t'. specialize (H3 t'). unfold pc_ok in *. change (pc_of (told t s) t') with (pc_of s t'). destruct (pc_of s t'); try done. cbn. set_solver.
Qed.

Lemma linv_ghost s t : linv s -> t ∈ exiting s -> ~ sleeps_on s t -> (forall p, pc_of s t <> Ghost p) ->
  linv (goto t (Ghost (pc_of s t)) s).
Proof.
  intros [H1 H2 H3] Hex Hns Hng. split; [|done|].
  - intros l lk Hl. destruct (H1 l lk Hl) as [? ? ? Ha Hwk]. cbn in Hl.
    assert (~ waiting (queue lk) t) as Hnw.
    { intros Hw. destruct (Ha t Hw) as (i & k & Ep). apply Hns. unfold sleeps_on. by rewrite Ep, Hl. }
    split; [done|done|done| |].
    + intros t' Hx. rewrite pc_goto, decide_False by (by intros ->). by apply Ha.
    + intros Hv Hx. destruct (Hwk Hv Hx) as (t' & Hway). exists t'. unfold on_the_way, gone_on_the_way in *. rewrite pc_goto.
      case_decide; subst; [|done]. right. destruct Hway as [(i & k & [->|[-> _]])|(i & k & [Ep|Ep])]; [exists i, k; tauto..|by apply Hng in Ep|by apply Hng in Ep].
  - intros t'. specialize (H3 t'). unfold pc_ok in *. rewrite pc_goto. case_decide; by subst.
Qed.

Lemma linv_step a s s' : linv s -> lstep a s s' -> linv s'.
Proof.
  intros Hi Hstep. pose proof (li_pc _ Hi) as Hpcs. destruct Hstep as
    [t l intr s Hpc [lk Hl]|t l1 l2 s Hpc [lk Hl] Hl2 Hne|t l intr k lk s Hpc Hl|t l intr k lk s Hpc Hl Hnw Hex|t l lk s Hpc Hl Hw Hex
    |t s|t s|t s Hex Hns Hng|t l lk s Hpc Hl|t l lk s Hpc Hin Hl|t l1 l2 lk s Hpc Hl|t l1 l2 lk s Hpc Hl|t l c lk q s Hpc Hin Hl Hq|c q s Hq|t c l q s Hpc Hq Hex|t c l q s Hpc Hq Hw Hex];
    try (specialize (Hpcs t); unfold pc_ok in Hpcs; rewrite Hpc in Hpcs);
    try (assert (forall l', ~ busy (pc_of s t) l') as Hb by (intros l'; rewrite Hpc; cbn; tauto)).
  - eapply linv_move; [done|done|done|]. unfold pc_ok. by rewrite pcs_self.
  - eapply linv_move; [done|done|done|]. unfold pc_ok. by rewrite pcs_self.
  - by apply linv_turn.
  - (* the woken thread goes back to the test *)
    pose proof (li_lock _ Hi l lk Hl) as Hok. unfold goto. rewrite <- (insert_id (locks s) l lk Hl) at 1.
    assert (pc_of (LState (<[l := lk]> (locks s)) (conds s) (<[t := Setting l intr k]> (pcs s)) (held s) (exiting s)) t = Setting l intr k) as Ht by apply pcs_self.
    eapply (linv_update s t l lk lk (Setting l intr k)); [done|done|right; rewrite Hpc; cbn; congruence|done|intros ??; apply (li_one _ Hi)|done|done| |].
    + destruct Hok as [? ? ? Ha Hw]. split; [done|done|done| |].
      * intros t' Hx. rewrite pcs_other; [by apply Ha|]. by intros ->.
      * intros Hv Hx. destruct (Hw Hv Hx) as (t' & Hway). destruct (decide (t' = t)) as [->|Hne].
        -- exists t. left. exists intr, k. by left.
        -- exists t'. unfold on_the_way, gone_on_the_way. by rewrite pcs_other.
    + unfold pc_ok. rewrite Ht. destruct k as [l2|]; [|done]. cbn. split; [naive_solver|]. by apply lookup_insert_is_Some'; right; naive_solver.
  - (* interrupted *)
    pose proof (li_lock _ Hi l lk Hl) as Hok.
    eapply (linv_update s t l lk _ Out (held s)); [done|done|right; rewrite Hpc; cbn; congruence|done|intros ??; apply (li_one _ Hi)|done|done| |by unfold pc_ok; rewrite pc_goto, decide_True].
    destruct Hok as [Hbit Hh Hn Ha Hwk]. split; cbn [v queue]; [done|done|by apply leave_nodup| |].
    + intros t' [Hx Hne]%leave_waiting; [|done]. rewrite pc_goto, decide_False by done. by apply Ha.
    + intros Hv [t' [Hx _]%leave_waiting]; [|done]. destruct (Hwk Hv (ex_intro _ t' Hx)) as (u & Hway).
      assert (u <> t) as Hu. { intros ->. destruct Hway as [(i & k & [Ep|[_ Ep]])|(i & k & [Ep|Ep])]; [congruence|done|congruence..]. }
      exists u. unfold on_the_way, gone_on_the_way in *. rewrite pc_goto, decide_False by done.
      destruct Hway as [(i & k & Ep)|?]; [left|by right]. exists i, k. destruct Ep as [|[? Hnw]]; [by left|right]. split; [done|].
      by intros [? _]%leave_waiting.
  - by apply linv_interrupt_wait.
  - by apply linv_told, linv_interrupt_wait.
  - by apply linv_ghost.
  - destruct (Z.eq_dec (v lk) 0) as [Hv|Hv].
    + rewrite (try_busy lk Hv). change (- EBUSY =? EOK) with false. cbn. unfold goto, put_lock. cbn. rewrite (insert_id (locks s) l lk Hl).
      eapply linv_move; [done|done|done|]. unfold pc_ok. by rewrite pcs_self.
    + unfold proc_lockTry. rewrite (proj2 (Z.eqb_neq _ _) Hv). change (EOK =? EOK) with true. cbn. assert (v lk = 1) by (destruct (lo_bit _ _ _ (li_lock _ Hi l lk Hl)); lia).
      apply (linv_acquire s Hi t l lk Out); [done|done|by rewrite Hpc|auto|]. unfold pc_ok. by rewrite pcs_self.
  - apply (linv_clear s Hi t l lk Out); [done|done|done|]. unfold pc_ok. by rewrite pcs_self.
  - destruct Hpcs as (Hne & Hin & Hl1). destruct (Z.eq_dec (v lk) 0) as [Hv|Hv].
    + rewrite (try_busy lk Hv). change (- EBUSY =? EOK) with false. cbn. unfold goto, put_lock. cbn. rewrite (insert_id (locks s) l2 lk Hl).
      eapply linv_move; [done|done|done|]. unfold pc_ok. by rewrite pcs_self.
    + unfold proc_lockTry. rewrite (proj2 (Z.eqb_neq _ _) Hv). change (EOK =? EOK) with true. cbn. assert (v lk = 1) by (destruct (lo_bit _ _ _ (li_lock _ Hi l2 lk Hl)); lia).
      apply (linv_acquire s Hi t l2 lk Out); [done|done|by rewrite Hpc|auto|]. unfold pc_ok. by rewrite pcs_self.
  - destruct Hpcs as (Hne & Hin & Hl1). apply (linv_clear s Hi t l1 lk (Setting l2 false (Some l1))); [done|done|done|].
    unfold pc_ok. rewrite pcs_self. cbn. split; [done|]. by apply lookup_insert_is_Some'; left.
  - apply (linv_clear s Hi t l lk _ (<[c := (q_wait q t).1]> (conds s))); [done|done|done|]. unfold pc_ok. rewrite pcs_self.
    destruct (q_wait q t) as [q' []]; cbn; [|done]. by apply lookup_insert_is_Some'; left.
  - destruct Hi as [H1 H2 H3]. split; [|done|done]. intros l lk Hl. destruct (H1 l lk Hl) as [? ? ? ? ?]. by split.
  - destruct Hpcs as [lk Hl]. eapply (linv_move s Hi t l lk); [done|done|]. unfold pc_ok. by rewrite pcs_self.
  - destruct Hpcs as [lk Hl]. eapply (linv_move s Hi t l lk); [done|done|]. unfold pc_ok. by rewrite pcs_self.
Qed.

Lemma lreach_inv s : lreach s -> linv s.
Proof.
  induction 1 as [ls cs Hls|a s s' _ IH Hs]; [|by eapply linv_step]. split; cbn; [|set_solver|done].
  intros l lk Hl. rewrite (Hls l lk Hl). split; cbn; [by right| | |by intros t ?%not_elem_of_nil|by intros _ [t ?%not_elem_of_nil]].
  - split; [done|]. intros [t Ht]. set_solver.
  - intros q [= <-]. constructor.
Qed.

(** ** Theorems *)

(** C5: mutual exclusion.  However the calls of [proc_lockSet],
    [proc_lockSetInterruptible], [proc_lockTry], [proc_lockSet2], [proc_lockWait]
    and [proc_lockClear] interleave, with signals and threads told to exit in
    between, a lock has at most one holder, and its flag
    [v] is 0 exactly while somebody holds it. *)
Theorem lock_mutual_exclusion s : lreach s ->
  (forall t t' l, (t, l) ∈ held s -> (t', l) ∈ held s -> t = t') /\
  (forall l lk, locks s !! l = Some lk -> (v lk = 0 <-> exists t, (t, l) ∈ held s)).
Proof. intros Hi%lreach_inv. split; [apply (li_one _ Hi)|]. intros l lk Hl. apply (lo_held _ _ _ (li_lock _ Hi l lk Hl)). Qed.

(** *** Handing a lock over *)

(** [P] holds after at most [n] steps of [t]: as long as it does not, [t] has a
    step to take, and whichever it takes brings it nearer. *)
Fixpoint own_within (n : nat) (t : loc) (P : lstate -> Prop) (s : lstate) : Prop :=
  P s \/ match n with
         | O => False
         | S n => (exists s', lstep (Some t) s s') /\ forall s', lstep (Some t) s s' -> own_within n t P s'
         end.

Lemma own_within_S n t P s : own_within n t P s -> own_within (S n) t P s.
Proof. revert s. induction n as [|n IH]; intros s [?|H]; [by left|done|by left|right]. destruct H as [? H]. split; [done|]. intros s' Hst. by apply IH, H. Qed.

(** The turn of a thread in the loop of a free lock takes it. *)
Lemma turn_takes s t l i k lk : pc_of s t = Setting l i k -> locks s !! l = Some lk -> v lk = 1 ->
  own_within 1 t (fun s' => (t, l) ∈ held s') s.
Proof.
  intros Ep Hl Hv. right. split; [eexists; by eapply ls_turn|]. intros s' Hst. left. inversion Hst; subst; try congruence.
  rewrite Ep in *. simplify_eq. unfold _proc_lockSet. rewrite Hv. cbn. set_solver.
Qed.

Lemma way_takes s t l lk : locks s !! l = Some lk -> v lk = 1 -> on_the_way s l (queue lk) t -> t ∉ exiting s ->
  own_within 2 t (fun s' => (t, l) ∈ held s') s.
Proof.
  intros Hl Hv (i & k & [Ep|[Ep Hnw]]) Hex; [by eapply own_within_S, turn_takes|].
  right. split; [eexists; by eapply ls_resume|]. intros s' Hst. inversion Hst; subst; try congruence. rewrite Ep in *. simplify_eq.
  eapply turn_takes; [by rewrite pc_goto, decide_True|done|done].
Qed.

(** Whoever is on the way stays so whatever the others do: they neither move it
    nor put it back to sleep. *)
Lemma set_waiting lk u t : u <> t -> waiting (queue (_proc_lockSet lk u).1) t -> waiting (queue lk) t.
Proof.
  intros Hne. unfold _proc_lockSet. destruct (v lk =? 0); [|done]. destruct (queue lk) as [|q]; cbn; [by intros ?%not_elem_of_nil|].
  unfold list_add. rewrite elem_of_app, list_elem_of_singleton. naive_solver.
Qed.

Lemma clear_waiting lk t : waiting (queue (_proc_lockClear lk).1) t -> waiting (queue lk) t.
Proof. unfold _proc_lockClear. destruct (queue lk) as [|[|x q]]; cbn; [done|done|]. by right. Qed.

Lemma put_way (m : gmap loc lock) l l0 lk lk0 lk' t : m !! l = Some lk -> m !! l0 = Some lk0 -> (waiting (queue lk') t -> waiting (queue lk0) t) ->
  exists lk1, <[l0 := lk']> m !! l = Some lk1 /\ (waiting (queue lk1) t -> waiting (queue lk) t).
Proof.
  intros Hl Hl0 Hq. destruct (decide (l = l0)) as [->|Hne]; [|exists lk; by rewrite lookup_insert_ne].
  exists lk'. rewrite lookup_insert_eq. simplify_eq. done.
Qed.

Definition frames (s s' : lstate) (l : loc) (lk : lock) (t : loc) : Prop :=
  pc_of s' t = pc_of s t /\ exists lk', locks s' !! l = Some lk' /\ (waiting (queue lk') t -> waiting (queue lk) t).

Lemma interrupt_frames s l lk t u : linv s -> locks s !! l = Some lk -> frames s (interrupt_wait u s) l lk t.
Proof.
  intros Hi Hl. unfold interrupt_wait, frames. destruct (pc_of s u) as [|l0 i k|l0 [] k|c l0|l1 l2|l1 l2|p0]; eauto.
  - destruct (locks s !! l0) as [lk0|] eqn:Hl0; [|eauto]. split; [done|]. eapply put_way; [done|done|]. cbn [queue].
    intros [? _]%leave_waiting; [done|]. apply (lo_nodup _ _ _ (li_lock _ Hi l0 lk0 Hl0)).
  - destruct (conds s !! c); eauto.
Qed.

Lemma way_stays s l lk t a s' : linv s -> locks s !! l = Some lk -> on_the_way s l (queue lk) t -> t ∉ exiting s ->
  lstep a s s' -> a <> Some t -> exists lk', locks s' !! l = Some lk' /\ on_the_way s' l (queue lk') t.
Proof.
  intros Hi Hl Hway Hex Hst Ha. cut (frames s s' l lk t).
  { intros (Epc & lk' & ? & Hq). exists lk'. split; [done|]. destruct Hway as (i & k & Ep). exists i, k. rewrite Epc. tauto. }
  assert (forall u p s0, u <> t -> frames s s0 l lk t -> frames s (goto u p s0) l lk t) as Hgoto.
  { intros u p s0 Hne [E ?]. split; [|done]. by rewrite pc_goto, decide_False by done. }
  assert (forall s0, pc_of s0 t = pc_of s t -> locks s0 = locks s -> frames s s0 l lk t) as Hsame.
  { intros s0 Ep El. split; [done|]. rewrite El. eauto. }
  assert (forall u l0 lk0 s0, pc_of s0 t = pc_of s t -> locks s !! l0 = Some lk0 -> locks s0 = <[l0 := u]> (locks s) ->
    (waiting (queue u) t -> waiting (queue lk0) t) -> frames s s0 l lk t) as Hput.
  { intros u l0 lk0 s0 Ep Hl0 El Hq. split; [done|]. rewrite El. by eapply put_way. }
  destruct Hst as [u l0 i s Hpc _|u l1 l2 s Hpc _ _ _|u l0 i k lk0 s Hpc Hl0|u l0 i k lk0 s Hpc Hl0 Hnw _|u l0 lk0 s Hpc Hl0 Hw _
    |u s|u s|u s Hux _ _|u l0 lk0 s Hpc Hl0|u l0 lk0 s Hpc Hin Hl0|u l1 l2 lk0 s Hpc Hl0|u l1 l2 lk0 s Hpc Hl0|u l0 c lk0 q s Hpc Hin Hl0 Hq|c q s Hq
    |u c l0 q s Hpc Hq _|u c l0 q s Hpc Hq Hw _].
  - apply Hgoto; [congruence|auto].
  - apply Hgoto; [congruence|auto].
  - assert (u <> t) as Hne by congruence. pose proof (set_waiting lk0 u t Hne) as Hm. destruct (_proc_lockSet lk0 u) as [lk1 []]; apply Hgoto; try done; by eapply Hput.
  - apply Hgoto; [congruence|auto].
  - apply Hgoto; [|eapply Hput; [done|done|done|]; intros [? _]%leave_waiting; [done|apply (lo_nodup _ _ _ (li_lock _ Hi l0 lk0 Hl0))]].
    intros ->. destruct Hway as (i & k & [Ep|[Ep Hn]]); [congruence|]. apply Hn. congruence.
  - by apply interrupt_frames.
  - destruct (interrupt_frames s l lk t u Hi Hl) as [? ?]. by split.
  - apply Hgoto; [by intros ->|auto].
  - apply Hgoto; [congruence|]. unfold proc_lockTry. destruct (v lk0 =? 0); cbn; by eapply Hput.
  - apply Hgoto; [congruence|]. eapply Hput; [done|done|done|apply clear_waiting].
  - unfold proc_lockTry. destruct (v lk0 =? 0); cbn; (apply Hgoto; [congruence|]); by eapply Hput.
  - apply Hgoto; [congruence|]. eapply Hput; [done|done|done|apply clear_waiting].
  - apply Hgoto; [congruence|]. eapply Hput; [done|done|done|apply clear_waiting].
  - auto.
  - apply Hgoto; [congruence|auto].
  - apply Hgoto; [|auto]. intros ->. destruct Hway as (i & k & [Ep|[Ep Hn]]); congruence.
Qed.


(** Two threads and one lock: the first holds it, the second sleeps. *)
Definition demo_lock0 : lstate := LState {[7%positive := proc_lockInit]} ∅ ∅ ∅ ∅.
Definition demo_lock1 : lstate := goto 1%positive (Setting 7%positive false None) demo_lock0.
Definition demo_lock2 : lstate := goto 1%positive Out (grant 1%positive 7%positive (put_lock 7%positive (Lock 0 (Waiters [])) demo_lock1)).
Definition demo_lock3 : lstate := goto 2%positive (Setting 7%positive false None) demo_lock2.
Definition demo_lock4 : lstate := goto 2%positive (Asleep 7%positive false None) (put_lock 7%positive (Lock 0 (Waiters [2%positive])) demo_lock3).
Definition demo_lock5 : lstate := goto 3%positive (Setting 7%positive false None) demo_lock4.
Definition demo_lock6 : lstate := goto 3%positive (Asleep 7%positive false None) (put_lock 7%positive (Lock 0 (Waiters [2%positive; 3%positive])) demo_lock5).
Definition demo_lock7 : lstate := goto 1%positive Out (ungrant 1%positive 7%positive (put_lock 7%positive (Lock 1 (Waiters [3%positive])) demo_lock6)).

Lemma demo_lock6_reach : lreach demo_lock6.
Proof.
  assert (lreach demo_lock0) as H0.
  { apply lreach_init. intros l lk Hl. by apply lookup_singleton_Some in Hl as [_ <-]. }
  assert (lreach demo_lock2) as H2.
  { eapply lreach_step; [eapply lreach_step; [exact H0|apply (ls_call 1%positive 7%positive false); [done|by eexists]]|].
    exact (ls_turn 1%positive 7%positive false None proc_lockInit demo_lock1 eq_refl eq_refl). }
  assert (lreach demo_lock4) as H4.
  { eapply lreach_step; [eapply lreach_step; [exact H2|apply (ls_call 2%positive 7%positive false); [done|by eexists]]|].
    exact (ls_turn 2%positive 7%positive false None (Lock 0 (Waiters [])) demo_lock3 eq_refl eq_refl). }
  eapply lreach_step; [eapply lreach_step; [exact H4|apply (ls_call 3%positive 7%positive false); [done|by eexists]]|].
  exact (ls_turn 3%positive 7%positive false None (Lock 0 (Waiters [2%positive])) demo_lock5 eq_refl eq_refl).
Qed.

Lemma demo_lock_reach : lreach demo_lock7.
Proof.
  eapply lreach_step; [exact demo_lock6_reach|].
  apply (ls_clear 1%positive 7%positive (Lock 0 (Waiters [2%positive; 3%positive])) demo_lock6); [reflexivity| |reflexivity].
  apply elem_of_union. left. by apply elem_of_singleton.
Qed.

Lemma lock_mutual_exclusion_witness : v (Lock 1 (Waiters [3%positive])) = 0 <-> exists t, (t, 7%positive) ∈ held demo_lock7.
Proof.
  apply (proj2 (lock_mutual_exclusion demo_lock7 demo_lock_reach) 7%positive (Lock 1 (Waiters [3%positive]))). reflexivity.
Defined.


(** Thread 2, the head of the queue, is told to exit where it cannot be
    interrupted; the holder's clear wakes it, and the scheduler makes it a ghost:
    the wakeup is gone with it. *)
Definition demo_exit6 : lstate := told 2%positive demo_lock6.
Definition demo_exit7 : lstate := goto 1%positive Out (ungrant 1%positive 7%positive (put_lock 7%positive (Lock 1 (Waiters [3%positive])) demo_exit6)).
Definition demo_exit8 : lstate := goto 2%positive (Ghost (Asleep 7%positive false None)) demo_exit7.

(** Why the hypothesis on exiting threads is needed: the lock is free, thread 3
    sleeps in its queue, and nobody is on the way. *)
Lemma handoff_lost_to_ghost : lreach demo_exit8 /\ locks demo_exit8 !! 7%positive = Some (Lock 1 (Waiters [3%positive])) /\
  forall t, ~ on_the_way demo_exit8 7%positive (Waiters [3%positive]) t.
Proof.
  split_and!; [|reflexivity|].
  - eapply lreach_step; [eapply lreach_step; [eapply lreach_step; [exact demo_lock6_reach|exact (ls_exit 2%positive demo_lock6)]|]|].
    + apply (ls_clear 1%positive 7%positive (Lock 0 (Waiters [2%positive; 3%positive])) demo_exit6); [reflexivity| |reflexivity].
      apply elem_of_union. left. by apply elem_of_singleton.
    + apply (ls_ghost 2%positive demo_exit7); [apply elem_of_union; left; by apply elem_of_singleton| |done].
      intros Hs%list_elem_of_singleton. done.
  - intros t (i & k & Hp). unfold pc_of in Hp. cbn in Hp. destruct (decide (t = 2%positive)) as [->|H2]; [by destruct Hp as [|[? _]]|].
    rewrite lookup_insert_ne in Hp by done. destruct (decide (t = 1%positive)) as [->|H1]; [by destruct Hp as [|[? _]]|].
    rewrite lookup_insert_ne in Hp by done. destruct (decide (t = 3%positive)) as [->|H3].
    + destruct Hp as [|[_ Hn]]; [done|]. apply Hn. by left.
    + rewrite !lookup_insert_ne in Hp by done. by destruct Hp as [|[? _]].
Qed.
