(* ===== verification/Resources.v ===== *)
(** * Process resources: handles of mutexes and conditions
    (proc/resource.c, proc/mutex.c, proc/cond.c, proc/userintr.c)

    A process' resources are reference-counted objects linked in a tree keyed
    by their handle.  The tree (lib/rb.c) is represented by its member list in
    the order of the handles, as in [RbOps]; a visit of a member whose object was
    freed, and an access to an object as something it is not, are [Fault]s.
    Handles are found by [_resource_alloc]; the handle it returned is an argument
    here.

    The process lock is held only inside [resource_alloc], [resource_get] and
    [resource_remove], so the machine of this file takes the pieces of a creation
    (link, initialisation, put) and of a destruction (removal, put) as separate
    steps, between which any other call may run. *)

From Stdlib Require Import ZArith Lia.
From S2P Require Import Prelude.
From S2P Require Import LibList.
From S2P Require Import RbOps.
From S2P Require Import Threads.
From S2P Require Import ThreadsInv.
From S2P Require Import ThreadsOps.
From S2P Require Import ThreadsOwn.
From S2P Require Import ThreadsProg.
From S2P Require Import Locks.

Inductive rtype := rtLock | rtCond | rtFile | rtInth.
#[export] Instance rtype_eq_dec : EqDecision rtype.
Proof. solve_decision. Defined.

(** The object around the resource: [mutex_t], [cond_t] or [userintr_t] (with
    the condition it signals), or memory from [vm_kmalloc] that the creating call
    has not initialised yet. *)
Inductive body := BRaw | BMutex (lk : lock) | BCond (q : wqueue) | BIntr (cond : ptr).

Record resource := Resource { r_type : rtype; r_id : Z; r_refs : Z; r_body : body }.

Record rstate := RState { objs : gmap loc resource; resources : list loc }.

Definition rget (s : rstate) (r : loc) : res resource := deref (objs s !! r).
Definition rset (f : resource -> resource) (r : loc) (s : rstate) : rstate := RState (alter f r (objs s)) (resources s).
Definition rfree (r : loc) (s : rstate) : rstate := RState (delete r (objs s)) (resources s).
Definition with_refs (n : Z) (o : resource) : resource := Resource (r_type o) (r_id o) n (r_body o).
Definition with_body (b : body) (o : resource) : resource := Resource (r_type o) (r_id o) (r_refs o) b.

Definition rid_of (m : gmap loc resource) (r : loc) : Z := from_option r_id 0 (m !! r).
Definition resource_cmp (m : gmap loc resource) (r1 r2 : loc) : Z :=
  (if rid_of m r2 <? rid_of m r1 then 1 else 0) - (if rid_of m r1 <? rid_of m r2 then 1 else 0).

(** [lib_rbFind] for a handle. *)
Fixpoint find_res (m : gmap loc resource) (l : list loc) (id : Z) : res ptr :=
  match l with
  | [] => Ok NULL
  | r :: l =>
      let? o := deref (m !! r) in
      if r_id o =? id then Ok (Some r) else find_res m l id
  end.

(** [resource_alloc] of the uninitialised object at [r]; [nid] is what
    [_resource_alloc] returned ([id] has 28 bits). *)
Definition resource_alloc (s : rstate) (r : loc) (type : rtype) (nid : Z) : rstate * Z :=
  let id := wrap 28 nid in
  let m := <[r := Resource type id 2 BRaw]> (objs s) in
  (RState m (match ins (resource_cmp m) r (resources s) with Some l => l | None => resources s end), id).

Definition resource_get (s : rstate) (type : rtype) (id : Z) : res (rstate * ptr) :=
  let? r := find_res (objs s) (resources s) id in
  match r with
  | None => Ok (s, NULL)
  | Some r =>
      let? o := rget s r in
      if decide (r_type o = type) then Ok (rset (with_refs (u32 (r_refs o + 1))) r s, Some r)
      else Ok (s, Some r)
  end.

Definition resource_put (s : rstate) (r : loc) : res (rstate * Z) :=
  let? o := rget s r in
  let rem := u32 (r_refs o - 1) in
  Ok (rset (with_refs rem) r s, rem).

Definition tree_remove (s : rstate) (r : loc) : rstate := RState (objs s) (filter (fun k => k <> r) (resources s)).

Definition resource_unlink (s : rstate) (r : loc) : res rstate :=
  let? x := resource_put s r in
  if decide (r ∈ resources s) then Ok (tree_remove x.1 r) else Fault.

Definition resource_remove (s : rstate) (id : Z) : res (rstate * ptr) :=
  let? r := find_res (objs s) (resources s) id in
  match r with
  | None => Ok (s, NULL)
  | Some r => Ok (tree_remove s r, Some r)
  end.

Definition resource_removeNext (s : rstate) : res (rstate * ptr) :=
  match resources s with
  | [] => Ok (s, NULL)
  | r :: _ => let? _ := rget s r in Ok (tree_remove s r, Some r)
  end.

Definition _resource_init (s : rstate) : rstate := RState (objs s) [].

(** ** mutex.c *)
Definition mutex_get (s : rstate) (h : Z) : res (rstate * ptr) := resource_get s rtLock h.

Definition mutex_put (s : rstate) (r : loc) : res (rstate * Z) :=
  let? x := resource_put s r in
  let (s, rem) := x : rstate * Z in
  Ok (if rem =? 0 then rfree r s else s, rem).

(** The two creations up to the point where [resource_alloc] has released the
    process lock; [mem] is what [vm_kmalloc] returned.  A failure is the call's
    result; otherwise the object is linked with two references, one of them the
    creating call's, and the call goes on with the handle. *)
Definition create_link (s : rstate) (type : rtype) (mem : ptr) (nid : Z) : rstate * (Z + loc * Z) :=
  match mem with
  | None => (s, inl (- ENOMEM))
  | Some r =>
      let (s, id) := resource_alloc s r type nid in
      if id =? 0 then (rfree r s, inl (- ENOMEM)) else (s, inr (r, id))
  end.

(** Their initialisation of the linked object ... *)
Definition create_init (s : rstate) (type : rtype) (r : loc) : res rstate :=
  let? o := rget s r in
  Ok (rset (with_body (match type with rtLock => BMutex proc_lockInit | _ => BCond (Waiters []) end)) r s).

(** ... and the put of their own reference, which does not free. *)
Definition create_put (s : rstate) (r : loc) : res (rstate * Z) := resource_put s r.

Definition create_call (s : rstate) (type : rtype) (mem : ptr) (nid : Z) : res (rstate * Z) :=
  match create_link s type mem nid with
  | (s, inl e) => Ok (s, e)
  | (s, inr (r, id)) =>
      let? s := create_init s type r in
      let? x := create_put s r in
      Ok (x.1, id)
  end.

Definition proc_mutexCreate (s : rstate) (mem : ptr) (nid : Z) := create_call s rtLock mem nid.

(** A call on the lock inside the mutex at [r]. *)
Definition use_lock (s : rstate) (r : loc) (f : lock -> lock * Z) : res (rstate * Z) :=
  let? o := rget s r in
  match r_body o with
  | BMutex lk => let (lk, e) := f lk in Ok (rset (with_body (BMutex lk)) r s, e)
  | _ => Fault
  end.

(** The frame of [proc_mutexLock], [proc_mutexTry] and [proc_mutexUnlock]. *)
Definition mutex_call (s : rstate) (h : Z) (f : lock -> lock * Z) : res (rstate * Z) :=
  let? x := mutex_get s h in
  let (s, r) := x : rstate * ptr in
  match r with
  | None => Ok (s, - EINVAL)
  | Some r =>
      let? x := use_lock s r f in
      let (s, err) := x : rstate * Z in
      let? x := mutex_put s r in
      let (s, rem) := x : rstate * Z in
      Ok (s, if rem =? 0 then - EINVAL else err)
  end.

(** [set] is the outcome of [proc_lockSetInterruptible], which may sleep (see
    [Locks]). *)
Definition proc_mutexLock (s : rstate) (h : Z) (set : lock -> lock * Z) := mutex_call s h set.
Definition proc_mutexTry (s : rstate) (h : Z) := mutex_call s h (proc_lockTry true).
Definition proc_mutexUnlock (s : rstate) (h : Z) := mutex_call s h (fun lk => ((_proc_lockClear lk).1, EOK)).

(** ** cond.c *)
Definition cond_put (s : rstate) (r : loc) : res (rstate * Z) :=
  let? x := resource_put s r in
  let (s, rem) := x : rstate * Z in
  Ok (if rem =? 0 then rfree r s else s, rem).

Definition cond_get (s : rstate) (c : Z) : res (rstate * ptr) := resource_get s rtCond c.

Definition proc_condCreate (s : rstate) (mem : ptr) (nid : Z) := create_call s rtCond mem nid.

(** A call on the queue of the condition at [r]. *)
Definition use_queue (s : rstate) (r : loc) (f : wqueue -> wqueue) : res rstate :=
  let? o := rget s r in
  match r_body o with
  | BCond q => Ok (rset (with_body (BCond (f q))) r s)
  | _ => Fault
  end.

Definition cond_call (s : rstate) (c : Z) (f : wqueue -> wqueue) : res (rstate * Z) :=
  let? x := cond_get s c in
  let (s, r) := x : rstate * ptr in
  match r with
  | None => Ok (s, - EINVAL)
  | Some r =>
      let? s := use_queue s r f in
      let? x := cond_put s r in
      let (s, rem) := x : rstate * Z in
      Ok (s, if rem =? 0 then - EINVAL else EOK)
  end.

Definition proc_condSignal (s : rstate) (c : Z) := cond_call s c (fun q => (q_wakeup q).1).

(** [proc_threadBroadcastYield] empties the queue or leaves the token. *)
Definition q_broadcast (q : wqueue) : wqueue := match q with Waiters (_ :: _) => Waiters [] | _ => Token end.
Definition proc_condBroadcast (s : rstate) (c : Z) := cond_call s c q_broadcast.

(** [proc_condWait] by thread [t]; [err] is the outcome of the wait inside
    [proc_lockWait], and [set] takes the lock again unless it is [-EINTR]. *)
Definition proc_condWait (s : rstate) (c m : Z) (t : loc) (err : Z) (set : lock -> lock * Z) : res (rstate * Z) :=
  let? x := cond_get s c in
  let (s, cond) := x : rstate * ptr in
  match cond with
  | None => Ok (s, - EINVAL)
  | Some cr =>
      let? x := mutex_get s m in
      let (s, mutex) := x : rstate * ptr in
      let? x :=
        match mutex with
        | None => Ok (s, - EINVAL)
        | Some mr =>
            let? x := use_lock s mr (fun lk => ((_proc_lockClear lk).1, EOK)) in
            let? s := use_queue x.1 cr (fun q => (q_wait q t).1) in
            let? x := if err =? - EINTR then Ok (s, err) else use_lock s mr set in
            let? y := mutex_put x.1 mr in
            let (s, rem) := y : rstate * Z in
            Ok (s, if rem =? 0 then - EINVAL else err)
        end in
      let (s, e) := x : rstate * Z in
      let? y := cond_put s cr in
      let (s, rem) := y : rstate * Z in
      Ok (s, if rem =? 0 then - EINVAL else e)
  end.

(** ** Destruction *)
Definition userintr_put (s : rstate) (r : loc) : res (rstate * Z) :=
  let? o := rget s r in
  let? x := resource_put s r in
  let (s, rem) := x : rstate * Z in
  if rem =? 0 then
    match r_body o with
    | BIntr (Some c) => let? x := cond_put s c in Ok (rfree r x.1, rem)
    | BIntr None => Ok (rfree r s, rem)
    | _ => Fault
    end
  else Ok (s, rem).

Definition proc_resourcePut (s : rstate) (r : loc) : res (rstate * Z) :=
  let? o := rget s r in
  match r_type o with
  | rtLock => mutex_put s r
  | rtCond => cond_put s r
  | rtInth => userintr_put s r
  | rtFile => Ok (s, - EINVAL)
  end.

Definition proc_resourceDestroy (s : rstate) (id : Z) : res (rstate * Z) :=
  let? x := resource_remove s id in
  let (s, r) := x : rstate * ptr in
  match r with
  | None => Ok (s, - EINVAL)
  | Some r =>
      let? x := proc_resourcePut s r in
      let (s, rem) := x : rstate * Z in
      Ok (s, if rem =? 0 then EOK else - EBUSY)
  end.

Fixpoint destroy_all (fuel : nat) (s : rstate) : res rstate :=
  match fuel with
  | O => NoFuel
  | S fuel =>
      let? x := resource_removeNext s in
      let (s, r) := x : rstate * ptr in
      match r with
      | None => Ok s
      | Some r => let? x := proc_resourcePut s r in destroy_all fuel x.1
      end
  end.

Definition proc_resourcesDestroy (s : rstate) : res rstate := destroy_all (1 + length (resources s)) s.

(** ** The machine

    Calls from different threads interleave between their get, their use and
    their put, and between the pieces of a creation or a destruction.  [out] lists
    the references taken and not yet returned (a destroying call that has unlinked
    an object holds the tree's), [making] the objects whose creating call has not
    put its reference yet, and [lost] those that call found to be the last. *)
Record rmach := RMach { rs : rstate; out : list loc; making : list loc; lost : list loc }.

Inductive r_op :=
| RLink (type : rtype) (mem : ptr) (nid : Z)
| RInit (type : rtype) (r : loc)
| RDone (r : loc)
| RGet (type : rtype) (h : Z)
| RPut (r : loc)
| RLock (r : loc) (f : lock -> lock * Z)
| RQueue (r : loc) (f : wqueue -> wqueue)
| RRemove (h : Z)
| RRemoveNext
| RDestroy (h : Z)
| RDestroyAll.

Definition taken (p : ptr) (l : list loc) : list loc := match p with Some r => r :: l | None => l end.

Definition r_step (c : rmach) (o : r_op) : res rmach :=
  let (s, out, mk, ls) := c in
  match o with
  | RLink ty mem nid =>
      match create_link s ty mem nid with
      | (s, inl _) => Ok (RMach s out mk ls)
      | (s, inr (r, _)) => Ok (RMach s out (r :: mk) ls)
      end
  | RInit ty r => let? s := create_init s ty r in Ok (RMach s out mk ls)
  | RDone r =>
      let? x := create_put s r in
      Ok (RMach x.1 out (list_del mk r) (if x.2 =? 0 then r :: ls else ls))
  | RGet ty h => let? x := resource_get s ty h in Ok (RMach x.1 (taken x.2 out) mk ls)
  | RPut r => let? x := proc_resourcePut s r in Ok (RMach x.1 (list_del out r) mk ls)
  | RLock r f => let? x := use_lock s r f in Ok (RMach x.1 out mk ls)
  | RQueue r f => let? s := use_queue s r f in Ok (RMach s out mk ls)
  | RRemove h => let? x := resource_remove s h in Ok (RMach x.1 (taken x.2 out) mk ls)
  | RRemoveNext => let? x := resource_removeNext s in Ok (RMach x.1 (taken x.2 out) mk ls)
  | RDestroy h => let? x := proc_resourceDestroy s h in Ok (RMach x.1 out mk ls)
  | RDestroyAll => let? s := proc_resourcesDestroy s in Ok (RMach s out mk ls)
  end.

Definition few (c : rmach) : Prop := Z.of_nat (length (out c) + length (making c)) < 2 ^ 31.
Definition has_body (c : rmach) (r : loc) (p : body -> Prop) : Prop := exists o, objs (rs c) !! r = Some o /\ p (r_body o).

(** Fresh memory and a fresh nonzero handle for a new object; a creating call
    initialises before its put; handles used with the type they were created
    with, and objects used once they are initialised; references returned by
    those who took them. *)
Definition r_legal (c : rmach) (o : r_op) : Prop :=
  match o with
  | RLink ty (Some r) nid => (ty = rtLock \/ ty = rtCond) /\ few c /\
      objs (rs c) !! r = None /\ 0 < nid < 2 ^ 28 /\ forall k, k ∈ resources (rs c) -> rid_of (objs (rs c)) k <> nid
  | RLink _ None _ => True
  | RInit ty r => r ∈ making c /\ exists o, objs (rs c) !! r = Some o /\ r_type o = ty /\ r_body o = BRaw
  | RDone r => r ∈ making c /\ has_body c r (fun b => b <> BRaw)
  | RGet ty h => few c /\
      forall r o, r ∈ resources (rs c) -> objs (rs c) !! r = Some o -> r_id o = h -> r_type o = ty
  | RPut r => r ∈ out c
  | RLock r _ => r ∈ out c /\ has_body c r (fun b => exists lk, b = BMutex lk)
  | RQueue r _ => r ∈ out c /\ has_body c r (fun b => exists q, b = BCond q)
  | RRemove _ | RRemoveNext => few c
  | RDestroy _ | RDestroyAll => True
  end.

Inductive r_reach : rmach -> Prop :=
| r_init : r_reach (RMach (RState ∅ []) [] [] [])
| r_next c o c' : r_reach c -> r_legal c o -> r_step c o = Ok c' -> r_reach c'.

(** ** The invariant *)
Fixpoint occ (r : loc) (l : list loc) : Z :=
  match l with [] => 0 | k :: l => (if decide (k = r) then 1 else 0) + occ r l end.

Lemma occ_bound r l : 0 <= occ r l <= length l.
Proof. induction l as [|k l IH]; simpl; [lia|]. case_decide; lia. Qed.

Lemma occ_del r k l : r ∈ l -> occ k (list_del l r) = occ k l - if decide (k = r) then 1 else 0.
Proof.
  induction l as [|x l IH]; intros Hin; [by apply not_elem_of_nil in Hin|]. simpl. destruct (decide (x = r)) as [->|E].
  - repeat case_decide; subst; try done; lia.
  - apply elem_of_cons in Hin as [->|Hin]; [done|]. simpl. rewrite IH by done. repeat case_decide; lia.
Qed.

Lemma occ_pos r l : r ∈ l <-> 0 < occ r l.
Proof.
  induction l as [|k l IH]; simpl; [split; [by intros ?%not_elem_of_nil|lia]|]. rewrite elem_of_cons, IH.
  pose proof (occ_bound r l). case_decide; [subst; split; [lia|by left]|]. split; [intros [->|]; [done|lia]|intros; right; lia].
Qed.

Definition body_ok (o : resource) : Prop :=
  match r_type o, r_body o with rtLock, BMutex _ | rtCond, BCond _ | (rtLock | rtCond), BRaw => True | _, _ => False end.

Definition links (s : rstate) (r : loc) : Z := if decide (r ∈ resources s) then 1 else 0.

Lemma occ_perm r l l' : l ≡ₚ l' -> occ r l = occ r l'.
Proof. induction 1; simpl; lia. Qed.

Lemma occ_app r l l' : occ r (l ++ l') = occ r l + occ r l'.
Proof. induction l as [|k l IH]; simpl; lia. Qed.

(** [hold]: every reference held, by users, destroying and creating calls. *)
Record rinv (s : rstate) (hold ls : list loc) : Prop := {
  ri_sorted : sorted (resource_cmp (objs s)) (resources s);
  ri_tree : forall r, r ∈ resources s -> is_Some (objs s !! r);
  ri_out : forall r, r ∈ hold -> is_Some (objs s !! r);
  ri_lost : forall r, r ∈ ls -> is_Some (objs s !! r) /\ (r ∉ resources s) /\ (r ∉ hold);
  ri_refs : forall r o, objs s !! r = Some o -> r_refs o = links s r + occ r hold /\ body_ok o /\ (0 < r_refs o \/ r ∈ ls);
  ri_len : Z.of_nat (length hold) <= 2 ^ 31 + 1;
}.

Lemma rinv_perm s l l' ls : l ≡ₚ l' -> rinv s l ls -> rinv s l' ls.
Proof.
  intros Hp [? ? Ho Hls Hr ?]. split; [done|done| | | |by rewrite <- Hp].
  - intros r. rewrite <- Hp. auto.
  - intros r. rewrite <- Hp. auto.
  - intros r o H. rewrite <- (occ_perm r _ _ Hp). auto.
Qed.

#[export] Instance rescmp_order m : RbOrder (resource_cmp m).
Proof.
  split.
  - intros a b. unfold resource_cmp. repeat case_match; lia.
  - intros a b c. unfold resource_cmp. repeat case_match; lia.
Qed.

Lemma rescmp_eq m a b : resource_cmp m a b = 0 -> rid_of m a = rid_of m b.
Proof. unfold resource_cmp. repeat case_match; lia. Qed.

(** Changes of an object that keep its handle. *)
Lemma rescmp_alter m r f a b : (forall o, r_id (f o) = r_id o) -> resource_cmp m a b = resource_cmp (alter f r m) a b.
Proof.
  intros Hf. assert (forall k, rid_of (alter f r m) k = rid_of m k) as Hk.
  { intros k. unfold rid_of. destruct (decide (k = r)) as [->|]; [|by rewrite lookup_alter_ne].
    rewrite lookup_alter_eq. destruct (m !! r); [|done]. cbn. by rewrite Hf. }
  unfold resource_cmp. by rewrite !Hk.
Qed.

Lemma find_res_spec s out ls id : rinv s out ls -> exists p, find_res (objs s) (resources s) id = Ok p /\
  match p with
  | None => forall r, r ∈ resources s -> rid_of (objs s) r <> id
  | Some r => r ∈ resources s /\ exists o, objs s !! r = Some o /\ r_id o = id
  end.
Proof.
  intros Hi. pose proof (ri_tree _ _ _ Hi) as Ht. clear Hi. induction (resources s) as [|r l IH]; simpl.
  - exists NULL. split; [done|]. by intros r ?%not_elem_of_nil.
  - destruct (Ht r) as [o Ho]; [by left|]. run_step Ho. destruct (Z.eqb_spec (r_id o) id) as [E|E].
    + exists (Some r). split; [done|]. split; [by left|eauto].
    + destruct IH as (p & -> & Hp); [intros k Hk; apply Ht; by right|]. exists p. split; [done|]. destruct p as [k|].
      * destruct Hp as [? ?]. split; [by right|done].
      * intros k [->|Hk]%elem_of_cons; [unfold rid_of; by rewrite Ho|auto].
Qed.

Lemma hold_same (out out' : list loc) r k : (forall k, k <> r -> occ k out' = occ k out) -> k <> r -> k ∈ out' <-> k ∈ out.
Proof. intros H Hne. by rewrite !occ_pos, H. Qed.

(** The invariant after a change of one object's count and the references; an
    object whose last reference goes is lost. *)
Lemma rinv_refs s out out' ls ls' r o n : rinv s out ls -> objs s !! r = Some o -> r ∉ ls -> n = links s r + occ r out' ->
  (forall k, k <> r -> occ k out' = occ k out) -> Z.of_nat (length out') <= 2 ^ 31 + 1 ->
  ls' = (if n =? 0 then r :: ls else ls) -> rinv (rset (with_refs n) r s) out' ls'.
Proof.
  intros [Hs Ht Ho Hls Hr Hl] Hobj Hnl Hc Hoth Hlen Els.
  assert (forall k, k ∈ ls' <-> k ∈ ls \/ k = r /\ n = 0) as Hls'.
  { intros k. rewrite Els. destruct (Z.eqb_spec n 0); [rewrite elem_of_cons|]; naive_solver. }
  pose proof (occ_bound r out') as Hoc. split; cbn.
  - apply (sorted_ext (resource_cmp (objs s))); [|done]. intros. by apply rescmp_alter.
  - intros k Hk. rewrite lookup_alter_is_Some. auto.
  - intros k Hk. rewrite lookup_alter_is_Some. destruct (decide (k = r)) as [->|Hne]; [eauto|]. apply Ho. by rewrite <- (hold_same out out' r k).
  - intros k Hk%Hls'. rewrite lookup_alter_is_Some. destruct (decide (k = r)) as [->|Hne].
    + destruct Hk as [?|[_ E0]]; [done|]. rewrite (occ_pos r out'). unfold links in Hc.
      case_decide; [lia|]. split_and!; [eauto|done|lia].
    + destruct Hk as [Hk|[? _]]; [|done]. destruct (Hls k Hk) as (? & ? & ?). split_and!; [done|done|]. by rewrite (hold_same out out' r k).
  - intros k o' [(<- & o0 & H0 & ->)|[Hne H0]]%lookup_alter_Some.
    + simplify_eq. destruct (Hr r _ Hobj) as (? & ? & ?). cbn. split_and!; [done|done|]. rewrite Hls'. unfold links. case_decide; [left; lia|].
      destruct (decide (occ r out' = 0)); [right; right; split; [done|lia]|left; lia].
    + rewrite Hoth by done. destruct (Hr k o' H0) as (? & ? & Hpos). split_and!; [done|done|]. rewrite Hls'. tauto.
  - done.
Qed.

(** The last reference goes: the object, which is not linked, is freed. *)
Lemma rinv_free s out out' ls r o n : rinv s out ls -> objs s !! r = Some o -> r ∉ ls -> r ∉ resources s -> r ∉ out' ->
  (forall k, k <> r -> occ k out' = occ k out) -> Z.of_nat (length out') <= 2 ^ 31 + 1 ->
  rinv (rfree r (rset (with_refs n) r s)) out' ls.
Proof.
  intros [Hs Ht Ho Hls Hr Hl] Hobj Hnl Hnr Hno Hoth Hlen.
  assert (delete r (alter (with_refs n) r (objs s)) = delete r (objs s)) as Ed.
  { apply map_eq. intros k. destruct (decide (k = r)) as [->|]; [by rewrite !lookup_delete_eq|]. by rewrite !lookup_delete_ne, lookup_alter_ne. }
  split; cbn; rewrite ?Ed.
  - apply (sorted_ext (resource_cmp (objs s))); [|done]. intros a b Ha Hb. unfold resource_cmp, rid_of.
    rewrite !lookup_delete_ne; [done|by intros ->..].
  - intros k Hk. rewrite lookup_delete_ne; [auto|]. by intros ->.
  - intros k Hk. assert (k <> r) by (by intros ->). rewrite lookup_delete_ne by done. apply Ho. by rewrite <- (hold_same out out' r k).
  - intros k Hk. assert (k <> r) by (by intros ->). rewrite lookup_delete_ne by done. destruct (Hls k Hk) as (? & ? & ?).
    split_and!; [done|done|]. by rewrite (hold_same out out' r k).
  - intros k o' [Hne H0]%lookup_delete_Some. rewrite Hoth by done. exact (Hr k o' H0).
  - done.
Qed.

(** Unlinking an object from the tree leaves its link as a reference in
    flight. *)
Lemma rinv_unlink s out ls r : rinv s out ls -> r ∈ resources s -> Z.of_nat (length out) <= 2 ^ 31 -> rinv (tree_remove s r) (r :: out) ls.
Proof.
  intros [Hs Ht Ho Hls Hr Hl] Hin Hlen. split; cbn.
  - by apply sorted_filter.
  - intros k [_ Hk]%list_elem_of_filter. auto.
  - intros k [->|Hk]%elem_of_cons; auto.
  - intros k Hk. destruct (Hls k Hk) as (? & ? & ?). split_and!; [done|by intros [_ ?]%list_elem_of_filter|].
    intros [->|?]%elem_of_cons; done.
  - intros k o Hk. destruct (Hr k o Hk) as (E & ? & ?). split_and!; [|done|done]. rewrite E. unfold links. cbn.
    destruct (decide (r = k)) as [<-|Hne].
    + rewrite decide_True by done. rewrite decide_False; [lia|]. by intros [? _]%list_elem_of_filter.
    + destruct (decide (k ∈ resources s)) as [Hk'|Hk'].
      * rewrite decide_True; [lia|]. apply list_elem_of_filter. split; [congruence|done].
      * rewrite decide_False; [lia|]. by intros [_ ?]%list_elem_of_filter.
  - lia.
Qed.

(** ** Operations *)
Lemma length_list_del {A} `{EqDecision A} (l : list A) x : x ∈ l -> S (length (list_del l x)) = length l.
Proof. intros Hx. pose proof (list_del_perm l x Hx) as Hp%Permutation_length. simpl in Hp. lia. Qed.

(** What a holder of a reference knows of the count. *)
Lemma held_count s out ls r : rinv s out ls -> r ∈ out -> exists o, objs s !! r = Some o /\ body_ok o /\ (r ∉ ls) /\
  u32 (r_refs o - 1) = r_refs o - 1 /\ r_refs o - 1 = links s r + occ r (list_del out r) /\
  (forall k, k <> r -> occ k (list_del out r) = occ k out) /\ Z.of_nat (length (list_del out r)) <= 2 ^ 31 /\
  (r_refs o - 1 = 0 <-> (r ∉ resources s) /\ (r ∉ list_del out r)).
Proof.
  intros Hi Hin. destruct (ri_out _ _ _ Hi r Hin) as [o Ho]. destruct (ri_refs _ _ _ Hi r o Ho) as (Er & Hb & _).
  pose proof (ri_len _ _ _ Hi) as Hlen. pose proof (occ_bound r (list_del out r)) as Hoc. pose proof (length_list_del out r Hin) as Hll.
  pose proof (occ_del r r out Hin) as Ed. rewrite decide_True in Ed by done.
  assert (links s r = 0 \/ links s r = 1) as Hlk by (unfold links; case_decide; lia).
  exists o. split_and!; [done|done| |apply u32_small; lia|lia| |lia|split].
  - intros Hx. by destruct (ri_lost _ _ _ Hi r Hx) as (_ & _ & []).
  - intros k Hne. rewrite (occ_del r k out Hin), decide_False by done. lia.
  - unfold links in Hlk, Er. rewrite (occ_pos r (list_del out r)). case_decide; [intros; lia|split; [done|lia]].
  - intros [? Hno]. rewrite occ_pos in Hno. unfold links in Er. case_decide; [done|]. lia.
Qed.

Lemma put_spec s out ls r : rinv s out ls -> r ∈ out ->
  exists s' rem, mutex_put s r = Ok (s', rem) /\ cond_put s r = Ok (s', rem) /\ rinv s' (list_del out r) ls /\
    resources s' = resources s /\ (rem = 0 <-> (r ∉ resources s) /\ (r ∉ list_del out r)) /\ (rem = 0 -> objs s' !! r = None).
Proof.
  intros Hi Hin. destruct (held_count s out ls r Hi Hin) as (o & Ho & Hb & Hnl & Eu & Er & Hoth & Hlen & Hz).
  unfold mutex_put, cond_put, resource_put, rget. run_step Ho. rewrite Eu.
  destruct (Z.eqb_spec (r_refs o - 1) 0) as [E|E].
  - exists (rfree r (rset (with_refs (r_refs o - 1)) r s)), (r_refs o - 1). destruct (proj1 Hz E) as [Hn1 Hn2]. split_and!; [done|done| |done|done|].
    + eapply rinv_free; eauto; lia.
    + intros _. cbn. by rewrite lookup_delete_eq.
  - exists (rset (with_refs (r_refs o - 1)) r s), (r_refs o - 1). split_and!; [done|done| |done|done|done].
    eapply rinv_refs; eauto; [lia|]. by rewrite (proj2 (Z.eqb_neq _ _)).
Qed.

Lemma resourcePut_spec s out ls r : rinv s out ls -> r ∈ out ->
  exists s' rem, proc_resourcePut s r = Ok (s', rem) /\ rinv s' (list_del out r) ls /\ resources s' = resources s /\
    (rem = 0 <-> (r ∉ resources s) /\ (r ∉ list_del out r)) /\ (rem = 0 -> objs s' !! r = None).
Proof.
  intros Hi Hin. destruct (put_spec s out ls r Hi Hin) as (s' & rem & E1 & E2 & Hrest). exists s', rem. split; [|done].
  destruct (ri_out _ _ _ Hi r Hin) as [o Ho]. destruct (ri_refs _ _ _ Hi r o Ho) as (_ & Hb & _). unfold proc_resourcePut, rget. run_step Ho.
  unfold body_ok in Hb. by destruct (r_type o).
Qed.

(** The put of a creating call: the last reference is not followed by a free. *)
Lemma create_put_spec s out ls r : rinv s out ls -> r ∈ out ->
  exists s' rem, create_put s r = Ok (s', rem) /\ rinv s' (list_del out r) (if rem =? 0 then r :: ls else ls) /\
    (rem = 0 <-> (r ∉ resources s) /\ (r ∉ list_del out r)) /\ resources s' = resources s /\ is_Some (objs s' !! r).
Proof.
  intros Hi Hin. destruct (held_count s out ls r Hi Hin) as (o & Ho & Hb & Hnl & Eu & Er & Hoth & Hlen & Hz).
  unfold create_put, resource_put, rget. run_step Ho. rewrite Eu. eexists _, _. split; [done|]. split_and!; [|done|done|].
  - eapply rinv_refs; eauto; lia.
  - cbn. rewrite lookup_alter_eq, Ho. done.
Qed.

Lemma link_spec s out ls r ty nid : rinv s out ls -> objs s !! r = None -> 0 < nid < 2 ^ 28 ->
  (forall k, k ∈ resources s -> rid_of (objs s) k <> nid) -> ty = rtLock \/ ty = rtCond -> Z.of_nat (length out) <= 2 ^ 31 ->
  exists s', create_link s ty (Some r) nid = (s', inr (r, nid)) /\ rinv s' (r :: out) ls.
Proof.
  intros Hi Hn Hid Hfr Hty Hlen. pose proof Hi as [Hs Ht Ho Hls Hr Hl]. cbn [create_link]. unfold resource_alloc.
  assert (wrap 28 nid = nid) as -> by (apply wrap_small; lia). set (m := <[r := Resource ty nid 2 BRaw]> (objs s)).
  assert (r ∉ resources s) as Hnr by (intros Hx; destruct (Ht r Hx); congruence).
  assert (r ∉ out) as Hno by (intros Hx; destruct (Ho r Hx); congruence).
  assert (forall k, k <> r -> m !! k = objs s !! k) as Hm by (intros k Hne; unfold m; by rewrite lookup_insert_ne).
  assert (is_Some (m !! r)) as Hmr by (unfold m; by rewrite lookup_insert_eq).
  destruct (ins_fresh (resource_cmp m) r (resources s)) as (l & -> & Hsl & Hp).
  { apply (sorted_ext (resource_cmp (objs s))); [|done]. intros a b0 Ha Hb0. unfold resource_cmp, rid_of. rewrite !Hm; [done|by intros ->..]. }
  { intros x Hx E%rescmp_eq. apply (Hfr x Hx). unfold rid_of in *. rewrite Hm in E by (by intros ->). unfold m in E. by rewrite lookup_insert_eq in E. }
  rewrite (proj2 (Z.eqb_neq nid 0)) by lia. eexists. split; [done|].
  assert (forall k, k ∈ l <-> k = r \/ k ∈ resources s) as Hin by (intros k; rewrite Hp; apply elem_of_cons).
  split; cbn [objs resources length]; [done| | | | |lia].
  - intros k [->|Hk]%Hin; [done|]. rewrite Hm by (by intros ->). auto.
  - intros k [->|Hk]%elem_of_cons; [done|]. rewrite Hm by (by intros ->). auto.
  - intros k Hk. destruct (Hls k Hk) as (? & ? & ?). assert (k <> r) by (intros ->; destruct (Hls r Hk) as [[] _]; congruence).
    rewrite Hm, Hin, elem_of_cons by done. tauto.
  - intros k o. cbn [occ]. unfold links. cbn [resources]. destruct (decide (r = k)) as [<-|Hne].
    + unfold m. rewrite lookup_insert_eq. intros [= <-]. cbn. rewrite decide_True by (apply Hin; by left).
      pose proof (occ_bound r out). rewrite (occ_pos r out) in Hno. split_and!; [lia|by destruct Hty as [-> | ->]|lia].
    + rewrite Hm by done. intros H0. destruct (Hr k o H0) as (E & ? & ?). split_and!; [|done|done]. rewrite E. unfold links.
      f_equal. destruct (decide (k ∈ resources s)) as [Hk|Hk].
      * rewrite decide_True; [done|]. apply Hin. by right.
      * rewrite decide_False; [done|]. intros [->|]%Hin; done.
Qed.

Lemma destroy_all_spec fuel : forall s out ls, rinv s out ls -> Z.of_nat (length out) <= 2 ^ 31 -> (length (resources s) < fuel)%nat ->
  exists s', destroy_all fuel s = Ok s' /\ rinv s' out ls /\ resources s' = [].
Proof.
  induction fuel as [|fuel IH]; intros s out ls Hi Hl Hf; [lia|]. cbn [destroy_all]. unfold resource_removeNext.
  destruct (resources s) as [|r l] eqn:El; cbn [rbind].
  - exists s. done.
  - assert (r ∈ resources s) as Hin by (rewrite El; by left). destruct (ri_tree _ _ _ Hi r Hin) as [o Ho]. unfold rget. run_step Ho.
    pose proof (rinv_unlink s out ls r Hi Hin Hl) as Hi1. destruct (resourcePut_spec _ _ _ r Hi1) as (s' & rem & -> & Hi2 & Er & _); [by left|].
    cbn [rbind fst]. rewrite list_del_head in Hi2.
    assert (resources s' = l) as El'.
    { rewrite Er. cbn. rewrite El, filter_cons, decide_False by tauto. apply filter_notin.
      pose proof (sorted_NoDup _ _ (ri_sorted _ _ _ Hi)) as Hnd. rewrite El in Hnd. by apply NoDup_cons in Hnd as [? _]. }
    apply (IH s' out ls); [done|done|]. rewrite El'. simpl in Hf. lia.
Qed.

Lemma rinv_body s out ls r o b : rinv s out ls -> objs s !! r = Some o -> body_ok (with_body b o) -> rinv (rset (with_body b) r s) out ls.
Proof.
  intros [Hs Ht Ho Hls Hr Hl] Hobj Hb. split; cbn.
  - apply (sorted_ext (resource_cmp (objs s))); [|done]. intros. by apply rescmp_alter.
  - intros k Hk. rewrite lookup_alter_is_Some. auto.
  - intros k Hk. rewrite lookup_alter_is_Some. auto.
  - intros k Hk. rewrite lookup_alter_is_Some. auto.
  - intros k o' [(<- & o0 & H0 & ->)|[Hne H0]]%lookup_alter_Some; [|by apply Hr]. simplify_eq. destruct (Hr r o Hobj) as (? & ? & ?). done.
  - done.
Qed.

Lemma destroy_spec s out ls h : rinv s out ls -> Z.of_nat (length out) <= 2 ^ 31 ->
  exists s' e, proc_resourceDestroy s h = Ok (s', e) /\ rinv s' out ls.
Proof.
  intros Hi Hl. unfold proc_resourceDestroy, resource_remove. destruct (find_res_spec s out ls h Hi) as (p & -> & Hp). cbn [rbind].
  destruct p as [r|]; [|eexists _, _; by split]. destruct Hp as [Hin _]. cbn [rbind].
  pose proof (rinv_unlink s out ls r Hi Hin Hl) as Hi1. destruct (resourcePut_spec _ _ _ r Hi1) as (s' & rem & -> & Hi2 & _); [by left|].
  cbn [rbind]. rewrite list_del_head in Hi2. eexists _, _. by split.
Qed.

Definition rtop (c : rmach) : Prop :=
  rinv (rs c) (out c ++ making c) (lost c) /\ Z.of_nat (length (out c) + length (making c)) <= 2 ^ 31.

Lemma list_del_app_l {A} `{EqDecision A} (l k : list A) x : x ∈ l -> list_del (l ++ k) x = list_del l x ++ k.
Proof.
  induction l as [|y l IH]; intros Hin; [by apply not_elem_of_nil in Hin|]. simpl. case_decide as E; [done|].
  apply elem_of_cons in Hin as [->|Hin]; [done|]. by rewrite IH.
Qed.

(** The machine's view of the references held. *)
Lemma rtop_perm s o mk ls l : rinv s l ls -> l ≡ₚ o ++ mk -> Z.of_nat (length l) <= 2 ^ 31 -> rtop (RMach s o mk ls).
Proof. intros Hi Hp Hl. split; cbn; [by eapply rinv_perm|]. rewrite <- length_app, <- Hp. done. Qed.

Section Step.
Context (s : rstate) (o mk ls : list loc).
Context (Hi : rinv s (o ++ mk) ls) (Hl : Z.of_nat (length o + length mk) <= 2 ^ 31).

Lemma hold_len : Z.of_nat (length (o ++ mk)) <= 2 ^ 31.
Proof using Hl. by rewrite length_app. Qed.

Lemma link_step ty mem nid : r_legal (RMach s o mk ls) (RLink ty mem nid) ->
  exists c, r_step (RMach s o mk ls) (RLink ty mem nid) = Ok c /\ rtop c.
Proof using Hi Hl.
  cbn [r_step r_legal]. destruct mem as [r|]; [|intros _; eexists; by split]. intros (Hty & Hf & Hn & Hid & Hfr). unfold few in Hf. cbn in Hf, Hn, Hfr.
  destruct (link_spec s _ ls r ty nid Hi Hn Hid Hfr Hty hold_len) as (s' & -> & Hi'). eexists. split; [done|].
  eapply rtop_perm; [done|by rewrite Permutation_middle|]. simpl. rewrite length_app. lia.
Qed.

Lemma make_step r : r ∈ mk ->
  (forall ty ob, objs s !! r = Some ob -> r_type ob = ty -> exists c, r_step (RMach s o mk ls) (RInit ty r) = Ok c /\ rtop c) /\
  (exists c, r_step (RMach s o mk ls) (RDone r) = Ok c /\ rtop c).
Proof using Hi Hl.
  intros Hin. cbn [r_step]. split.
  - intros ty ob Ho Hty. unfold create_init, rget. run_step Ho. eexists. split; [done|]. split; [|done]. cbn.
    eapply rinv_body; [done|done|]. destruct (ri_refs _ _ _ Hi r ob Ho) as (_ & Hb & _). revert Hb. unfold body_ok. cbn. rewrite Hty. by destruct ty.
  - assert (mk ++ o ≡ₚ o ++ mk) as Hp by apply Permutation_app_comm. apply (rinv_perm _ _ _ _ (symmetry Hp)) in Hi as Hi1.
    destruct (create_put_spec s (mk ++ o) ls r Hi1) as (s' & rem & -> & Hi2 & _); [set_solver|]. cbn [rbind fst snd].
    eexists. split; [done|]. rewrite list_del_app_l in Hi2 by done. eapply rtop_perm; [done|apply Permutation_app_comm|].
    pose proof (length_list_del mk r Hin). rewrite length_app. lia.
Qed.

Lemma get_step ty h : r_legal (RMach s o mk ls) (RGet ty h) -> exists c, r_step (RMach s o mk ls) (RGet ty h) = Ok c /\ rtop c.
Proof using Hi Hl.
  cbn [r_step r_legal]. intros [Hf Hty]. unfold few in Hf. cbn in Hf, Hty. unfold resource_get.
  destruct (find_res_spec s _ ls h Hi) as (p & -> & Hp). cbn [rbind]. destruct p as [r|]; cbn [rbind snd fst taken]; [|eexists; by split].
  destruct Hp as (Hin & ob & Ho & Hid). unfold rget. run_step Ho. rewrite decide_True by eauto. cbn [rbind fst snd taken]. eexists. split; [done|].
  destruct (ri_refs _ _ _ Hi r ob Ho) as (Er & _ & _). pose proof (occ_bound r (o ++ mk)) as Hoc. pose proof hold_len as Hlen.
  assert (links s r = 1) as Hlk by (unfold links; by rewrite decide_True). rewrite u32_small by lia.
  eapply (rtop_perm _ _ _ _ (r :: o ++ mk)); [|done|cbn [length]; rewrite length_app; lia].
  eapply (rinv_refs s (o ++ mk) _ ls ls); [done|done| | | |cbn [length]; lia|].
  - intros Hx. by destruct (ri_lost _ _ _ Hi r Hx) as (_ & [] & _).
  - cbn [occ]. rewrite decide_True by done. lia.
  - intros k Hne. cbn [occ]. rewrite decide_False by done. lia.
  - by rewrite (proj2 (Z.eqb_neq _ _)) by lia.
Qed.

Lemma put_step r : r ∈ o -> exists c, r_step (RMach s o mk ls) (RPut r) = Ok c /\ rtop c.
Proof using Hi Hl.
  intros Hin. cbn [r_step]. destruct (resourcePut_spec s _ ls r Hi) as (s' & rem & -> & Hi' & _); [set_solver|]. cbn [rbind fst].
  eexists. split; [done|]. rewrite list_del_app_l in Hi' by done. eapply rtop_perm; [done|done|].
  pose proof (length_list_del o r Hin). rewrite length_app. lia.
Qed.

Lemma use_step r b b' ob : objs s !! r = Some ob -> r_body ob = b -> body_ok (with_body b' ob) -> rtop (RMach (rset (with_body b') r s) o mk ls).
Proof using Hi Hl. intros Ho Hb Hb'. split; [|done]. cbn. by eapply rinv_body. Qed.

Lemma remove_step r : r ∈ resources s -> few (RMach s o mk ls) -> rtop (RMach (tree_remove s r) (r :: o) mk ls).
Proof using Hi Hl.
  unfold few. cbn. intros Hin Hf. pose proof (rinv_unlink s _ ls r Hi Hin hold_len) as Hi'. eapply rtop_perm; [done|done|].
  cbn [length]. rewrite length_app. lia.
Qed.
End Step.

Lemma r_step_ok c op : rtop c -> r_legal c op -> exists c', r_step c op = Ok c' /\ rtop c'.
Proof.
  destruct c as [s o mk ls]. intros [Hi Hl]. cbn in Hi, Hl. pose proof (hold_len o mk Hl) as Hlen.
  destruct op as [ty mem nid|ty r|r|ty h|r|r f|r f|h| |h|]; cbn [r_legal]; intros Hlegal.
  - by apply link_step.
  - destruct Hlegal as (Hin & ob & Ho & Hty & _). by apply (make_step s o mk ls Hi Hl r Hin) with ob.
  - destruct Hlegal as [Hin _]. by apply (make_step s o mk ls Hi Hl r Hin).
  - by apply get_step.
  - by apply put_step.
  - destruct Hlegal as (_ & ob & Ho & lk & Hb). cbn [r_step]. unfold use_lock, rget. cbn in Ho. run_step Ho. rewrite Hb. destruct (f lk) as [lk' e].
    cbn [rbind fst]. eexists. split; [done|]. eapply use_step; [done..|]. destruct (ri_refs _ _ _ Hi r ob Ho) as (_ & Hok & _).
    revert Hok. unfold body_ok. cbn. rewrite Hb. by destruct (r_type ob).
  - destruct Hlegal as (_ & ob & Ho & q & Hb). cbn [r_step]. unfold use_queue, rget. cbn in Ho. run_step Ho. rewrite Hb.
    cbn [rbind fst]. eexists. split; [done|]. eapply use_step; [done..|]. destruct (ri_refs _ _ _ Hi r ob Ho) as (_ & Hok & _).
    revert Hok. unfold body_ok. cbn. rewrite Hb. by destruct (r_type ob).
  - cbn [r_step]. unfold resource_remove. destruct (find_res_spec s _ ls h Hi) as (p & -> & Hp). cbn [rbind].
    destruct p as [r|]; cbn [rbind fst snd taken]; eexists; (split; [done|]); [|by split]. destruct Hp. by apply remove_step.
  - cbn [r_step]. unfold resource_removeNext. destruct (resources s) as [|r l] eqn:El; cbn [rbind fst snd taken]; [eexists; by split|].
    assert (r ∈ resources s) as Hin by (rewrite El; by left). destruct (ri_tree _ _ _ Hi r Hin) as [ob Ho]. unfold rget. run_step Ho.
    eexists. split; [done|]. by apply remove_step.
  - cbn [r_step]. destruct (destroy_spec s _ ls h Hi Hlen) as (s' & e & -> & ?). cbn [rbind fst]. eexists. by split.
  - cbn [r_step]. unfold proc_resourcesDestroy. destruct (destroy_all_spec (1 + length (resources s)) s _ ls Hi Hlen) as (s' & -> & ? & _); [lia|].
    cbn [rbind]. eexists. by split.
Qed.

Lemma r_reach_top c : r_reach c -> rtop c.
Proof.
  induction 1 as [|c o c' _ IH Hleg E].
  - split; [|done]. split; cbn; [constructor|by intros r ?%not_elem_of_nil..| |done]. intros r o Hr. by rewrite lookup_empty in Hr.
  - destruct (r_step_ok c o IH Hleg) as (c1 & E1 & H1). rewrite E in E1. by injection E1 as ->.
Qed.

(** ** Theorems *)

(** C8: reference counting of resources.  However the steps of the calls on
    mutexes and conditions interleave (a creation links, initialises and puts its
    reference; users get, use and put; a destruction unlinks and puts), as long as
    [_resource_alloc] finds a fresh nonzero handle, handles are used with the type
    they were created with and objects are used once initialised, every step
    returns (no access to a freed object), the count of an object is its link in
    the tree plus the references held by users and by its creating call, and an
    object exists exactly while it is linked, referenced, or lost: lost are the
    objects whose creating call put the last reference, which it does not free,
    and that happens only to objects that were unlinked in the meantime
    ([creation_leak]). *)
Theorem resource_refcount c : r_reach c ->
  (forall o, r_legal c o -> exists c', r_step c o = Ok c') /\
  (forall r o, objs (rs c) !! r = Some o -> r_refs o = links (rs c) r + occ r (out c) + occ r (making c)) /\
  (forall r, is_Some (objs (rs c) !! r) <-> r ∈ resources (rs c) \/ r ∈ out c \/ r ∈ making c \/ r ∈ lost c) /\
  (forall r c', r_legal c (RDone r) -> r_step c (RDone r) = Ok c' ->
     lost c' = lost c \/ lost c' = r :: lost c /\ (r ∉ resources (rs c)) /\ (r ∉ out c)).
Proof.
  intros Htop%r_reach_top. pose proof Htop as [Hi _]. split_and!.
  - intros o Hl. destruct (r_step_ok c o Htop Hl) as (c' & ? & _). eauto.
  - intros r o Ho. destruct (ri_refs _ _ _ Hi r o Ho) as (E & _). rewrite occ_app in E. lia.
  - intros r. split.
    + intros [o Ho]. destruct (ri_refs _ _ _ Hi r o Ho) as (E & _ & Hpos). unfold links in E. case_decide; [by left|right].
      destruct Hpos as [Hpos|]; [|tauto]. assert (r ∈ out c ++ making c) as Hin by (apply occ_pos; lia). set_solver.
    + intros [?|[?|[?|?]]]; [by apply (ri_tree _ _ _ Hi)|apply (ri_out _ _ _ Hi); set_solver..|by apply (ri_lost _ _ _ Hi)].
  - destruct c as [s o mk ls]. cbn in *. intros r c' [Hin _] E. assert (r ∈ o ++ mk) as Hin' by set_solver.
    destruct (create_put_spec s _ ls r Hi Hin') as (s' & rem & Ep & _ & Hz & _). rewrite Ep in E. injection E as <-. cbn.
    destruct (Z.eqb_spec rem 0) as [E0|]; [|by left]. right. apply Hz in E0 as [? Hno]. split_and!; [done|done|].
    intros Ho. apply Hno. rewrite occ_pos, (occ_del r r _ Hin'), decide_True, occ_app by done. rewrite occ_pos in Ho, Hin. lia.
Qed.

(** A process with one mutex, created by one thread without interruption. *)
Definition demo_r1 : rstate := Eval vm_compute in
  match proc_mutexCreate (RState ∅ []) (Some 5%positive) 1 with Ok (s, _) => s | _ => RState ∅ [] end.

Definition run_ops (c : rmach) (l : list r_op) : res rmach := foldl (fun c o => let? c := c in r_step c o) (Ok c) l.

Lemma resource_refcount_witness : exists c', r_step (RMach demo_r1 [] [] []) (RGet rtLock 1) = Ok c' /\
  forall r, is_Some (objs demo_r1 !! r) <-> r ∈ resources demo_r1 \/ r ∈ [] \/ r ∈ [] \/ r ∈ [].
Proof.
  assert (r_reach (RMach demo_r1 [] [] [])) as Hr.
  { eapply (r_next _ (RDone 5%positive)); [eapply (r_next _ (RInit rtLock 5%positive));
      [eapply (r_next _ (RLink rtLock (Some 5%positive) 1)); [apply r_init| |vm_compute; reflexivity]| |vm_compute; reflexivity]| |vm_compute; reflexivity].
    - split_and!; [by left|done|done|lia|lia|]. by intros k ?%not_elem_of_nil.
    - split; [by left|]. eexists. split; [vm_compute; reflexivity|]. done.
    - split; [by left|]. eexists. split; [vm_compute; reflexivity|]. done. }
  destruct (resource_refcount _ Hr) as (Hstep & _ & Halive & _).
  destruct (Hstep (RGet rtLock 1)) as (c' & E).
  { split; [done|]. cbn [rs]. intros r o Hin Ho _. change (resources demo_r1) with [5%positive] in Hin. apply list_elem_of_singleton in Hin as ->.
    vm_compute in Ho. by injection Ho as <-. }
  exists c'. split; [exact E|exact Halive].
Defined.

(** A mutex destroyed while it is being created is never freed: after the
    creating call's put nothing links or references it, its count is 0 and its
    memory is still allocated. *)
Lemma creation_leak c r : r_reach c -> r_legal c (RDone r) -> r ∉ resources (rs c) -> r ∉ out c -> occ r (making c) = 1 ->
  exists c', r_step c (RDone r) = Ok c' /\ lost c' = r :: lost c /\ (r ∉ resources (rs c')) /\ (r ∉ out c') /\ (r ∉ making c') /\
    exists o, objs (rs c') !! r = Some o /\ r_refs o = 0.
Proof.
  intros Htop%r_reach_top [Hin _] Hnr Hno H1. destruct c as [s o mk ls]. cbn in *. pose proof Htop as [Hi _]. cbn in Hi.
  assert (r ∈ o ++ mk) as Hin' by set_solver. destruct (create_put_spec s _ ls r Hi Hin') as (s' & rem & -> & Hi' & Hz & Er & o' & Ho').
  assert (occ r (list_del (o ++ mk) r) = 0) as Hd.
  { rewrite (occ_del r r _ Hin'), decide_True, occ_app by done. pose proof (occ_bound r o). rewrite occ_pos in Hno. lia. }
  assert (rem = 0) as -> by (apply Hz; split; [done|]; rewrite occ_pos; lia).
  eexists. split; [done|]. cbn. rewrite Er. split_and!; [done|done|done| |].
  - rewrite occ_pos, (occ_del r r _ Hin), decide_True by done. lia.
  - exists o'. split; [done|]. destruct (ri_refs _ _ _ Hi' r o' Ho') as (-> & _). unfold links. rewrite Er, decide_False by done. lia.
Qed.

(** The window exists: thread 1 links and initialises, thread 2 destroys. *)
Example creation_leak_run : exists c, run_ops (RMach (RState ∅ []) [] [] [])
    [RLink rtLock (Some 5%positive) 1; RInit rtLock 5%positive; RDestroy 1; RDone 5%positive] = Ok c /\
  resources (rs c) = [] /\ out c = [] /\ lost c = [5%positive] /\ is_Some (objs (rs c) !! 5%positive).
Proof. eexists. split; [vm_compute; reflexivity|]. split_and!; [done..|by eexists]. Qed.

(** When no handle is left [_resource_alloc] returns 0, which [resource_alloc]
    links all the same; the failing creation then frees the linked object, and the
    destruction of the process' resources visits the freed minimum of the tree. *)
Lemma create_no_handle s out ls ty r : rinv s out ls -> objs s !! r = None ->
  (forall k, k ∈ resources s -> 0 < rid_of (objs s) k) ->
  exists s', create_call s ty (Some r) 0 = Ok (s', - ENOMEM) /\ resources s' = r :: resources s /\ objs s' !! r = None /\
    proc_resourcesDestroy s' = Fault.
Proof.
  intros Hi Hn Hpos. unfold create_call, create_link, resource_alloc. change (wrap 28 0) with 0. set (m := <[r := Resource ty 0 2 BRaw]> (objs s)).
  assert (ins (resource_cmp m) r (resources s) = Some (r :: resources s)) as ->.
  { destruct (resources s) as [|k l]; [done|]. cbn [ins]. assert (k <> r) as Hne.
    { intros ->. specialize (Hpos r ltac:(by left)). unfold rid_of in Hpos. rewrite Hn in Hpos. by cbn in Hpos. }
    specialize (Hpos k ltac:(by left)). assert (resource_cmp m k r = 1) as ->; [|done].
    unfold resource_cmp, rid_of, m. rewrite lookup_insert_eq, lookup_insert_ne by done. cbn. unfold rid_of in Hpos.
    rewrite (proj2 (Z.ltb_lt _ _)), (proj2 (Z.ltb_ge _ _)) by lia. done. }
  eexists. split; [done|]. split_and!; [done|cbn; by rewrite lookup_delete_eq|].
  unfold proc_resourcesDestroy. cbn. unfold resource_removeNext, rget. cbn. by rewrite lookup_delete_eq.
Qed.

(** C36: the type check of [resource_get] does not protect.  A handle looked up
    with the wrong type returns the object all the same, without a reference: the
    put that follows drops the tree's own reference and frees the object while it
    is still linked, and the next lookup of the handle visits freed memory.  (A
    signal on a mutex handle, moreover, works on a [mutex_t] as if it were a
    [cond_t].) *)
Theorem resource_get_confusion :
  (forall s type h r o, find_res (objs s) (resources s) h = Ok (Some r) -> objs s !! r = Some o -> r_type o <> type ->
     resource_get s type h = Ok (s, Some r)) /\
  (exists s2, (let? x := cond_get demo_r1 1 in let? y := cond_put x.1 5%positive in Ok y.1) = Ok s2 /\
     objs s2 !! 5%positive = None /\ resources s2 = [5%positive] /\ proc_mutexTry s2 1 = Fault) /\
  proc_condSignal demo_r1 1 = Fault.
Proof.
  split_and!.
  - intros s type h r o Hf Ho Hne. unfold resource_get, rget. rewrite Hf. cbn [rbind]. run_step Ho. by rewrite decide_False.
  - eexists. split; [vm_compute; reflexivity|]. split_and!; vm_compute; reflexivity.
  - vm_compute. reflexivity.
Qed.
